(* ===== verification/_CoqProject ===== *)
-Q . S2P
Prelude.v
StringMap.v
Clock.v
Chameleon.v
Url.v
Headers.v
HttpTypes.v
Routing.v
RequestContext.v
BodyParse.v
Router.v
Http11.v
Config.v
Pangolin.v
ConfigJson.v
Server.v
Host.v
SqlText.v
SqlSchema.v
SqlQuery.v
StaticSchema.v
Builder.v
PgWire.v
Errors.v
ConnectionConfig.v
ConnectionPool.v
Transaction.v
Executor.v
Disruptor.v
RingBuffers.v
Spsc.v
ObjectPool.v
Sorter.v
LogSink.v
FileSink.v
Logger.v
Provider.v
SettingsJson.v
AsyncWaiter.v
AsyncContext.v
Waiting.v
Spider.v
Resource.v
Random.v
Crypto.v
