(* ===== verification/Prelude.v ===== *)
(** * Menagerie: a verification of its HTTP stack, SQL layer, logging and concurrency core

    Menagerie is a C++23 monorepo. The parts that carry logic of their own are
    verified here: the HTTP server library (src/component/http-albatross), the database
    library with its PostgreSQL provider (src/component/database-savanna), and of src/common
    the ring-buffer messaging and the object pool (concurrency-starling), the logger
    (logger-crow), the sorter (algorithms-bowerbird), dates and stopwatches
    (chrono-cuckoo), terminal rendering (render-chameleon), configuration serialization
    (serialization-pangolin) and the service locator (locator-spider). Every definition is a
    translation of the C++ it names; the theorems are about those definitions.

    ** The parts and how they meet

    A connection accepted by a listener is handed to a protocol driver, which reads
    pipelined requests, routes each one to a handler through middleware, and writes
    the responses back in batches; the server starts and stops listeners and tracks
    their connections. A handler that needs data compiles a query expression to SQL
    with bound parameters, borrows a connection from a pool through a session, runs
    the statement inside a transaction and decodes the columns of the result. Every part
    logs through a logger whose producers share one ring buffer and whose consumer
    hands batches to the sinks, each on its own strand.

    - Clock.v: calendar conversion, ISO and HTTP dates, the Date header's cache, back-off,
      stopwatches (chrono-cuckoo, types/http_date).
    - StringMap.v: [std::map] with string keys, as its ordered list of entries.
    - Chameleon.v: colours, visible width, padding, boxes, sections and tables
      (render-chameleon).
    - Url.v, Headers.v, HttpTypes.v: percent-decoding, the header collection with its
      two backings, enums, bodies, requests, responses and typed errors (types/).
    - Routing.v: the route registry (routing/route_registry): normalization, templates,
      registration with conflicts, lookup.
    - RequestContext.v, BodyParse.v: the handler's view of a request, and the JSON, form
      and multipart readers (types/request_context, types/body).
    - Router.v: controllers, middleware, groups, dispatch and observer hooks (routing/).
    - Http11.v: the HTTP/1.1 driver (drivers/http11): serve loop, batching, deadlines,
      response serialization.
    - Config.v: configuration records, their validation and builders, and the mapping
      of listener configurations to listeners (config/, attach_default_listeners).
    - Pangolin.v: field descriptors and the walks that write a configuration to JSON and read
      it back, with one codec per member type (serialization-pangolin).
    - ConfigJson.v: the descriptors of the server's configuration, its dump and its loader
      (config/, load_server_config).
    - Server.v: the server's phases and lock-free stop protocol, the connection
      tracker, the accept loops (server/, listeners/).
    - Host.v: the server's construction, destruction and waiting, the standalone runner, TLS
      sessions and contexts (server/, run_standalone, tls_listener/).
    - SqlText.v: what SQL text is written into, integer printing, the dialect's quoting,
      escaping and literals (core-beaver, postgres_dialect).
    - SqlSchema.v: SQL type names, dynamic tables, records, INSERT rows (primitives/,
      registries, insert_exp, update_exp).
    - SqlQuery.v: the expression tree, the query visitor, the SQL generator and the
      compiler in its three parameter modes (query/).
    - StaticSchema.v: constraint packs, compile-time fields and tables, columns (primitives/).
    - Builder.v: the operators and fluent methods that build the tree, with the constraints
      that make a call compile (query/expressions).
    - PgWire.v: parameter binding and result decoding on the wire (params/, result/).
    - Errors.v: error codes, the exception hierarchy, the classification of SQLSTATEs and
      the extraction of errors from results (base/errors, errors/).
    - ConnectionConfig.v: credentials, connection options, validation, the libpq connection
      string (config/).
    - ConnectionPool.v: connections, holders and the pool's critical sections, with
      their interleavings (connection_holder/, session/pool).
    - Transaction.v: transactions, savepoints and the session's entry points
      (transaction/, session/postgres_session.cpp).
    - Executor.v: the synchronous and the asynchronous executor over libpq, and who gives the
      borrowed connection back (capabilities/executors).
    - Disruptor.v, Spsc.v: the ring buffer with the multi-producer and the
      single-producer sequencer (concurrency-starling/disruptor).
    - RingBuffers.v: the two ring buffers as storage indexed by any 64-bit sequence.
    - ObjectPool.v: the object pool with its bitmap of idle slots and its waiter gate
      (concurrency-starling/pool).
    - AsyncWaiter.v, AsyncContext.v: the heap node of a waiting coroutine with its references
      and lists; the nodes of an execution context and its shutdown (pool/detail).
    - Sorter.v: the sliding-window sorter (algorithms-bowerbird).
    - LogSink.v: levels, events and their formats, prefix filters, the sink interface with
      its packed dispatch word, the console sink (logger-crow/entry, sink/).
    - FileSink.v: rotated file names, the file sink with its stream buffer over a file system
      that can fail (logger-crow/sink/file).
    - Logger.v: the logger's registry, gate, consumer, janitor and shutdown
      (logger-crow/logger).
    - Provider.v: logger providers, the logging macros and their once guards, the component
      logger (logger-crow/provider).
    - SettingsJson.v: the JSON descriptors and builders of the logger's, its sinks', the pool's
      and the connection's configurations.
    - Waiting.v: the wait strategies and the event count over a futex
      (disruptor/wait_strategies, event_count).
    - Resource.v: values behind a lock and their proxies, the io_context backends
      (shared_resource, synchronized_resource, asio_backend).
    - Random.v, Crypto.v: random numbers, dates and UUIDs (math-rabbit); salts, hashes and their
      comparison (crypto-pufferfish).
    - Spider.v: the service locator: registration, construction on first use, sweep
      (locator-spider).

    This file holds what they share: byte strings, searching and splitting, the
    exception type and the error monad, decimal numbers, [std::from_chars], and the
    induction over step relations.

    ** How the code is modelled

    Byte strings are lists of [ascii]; machine integers are [Z] or [N] with their
    wrap-around written out where it can occur; exceptions and [std::expected] are
    values of [result]; member functions return the updated object. Loops that are
    not structural take fuel, and the theorems about them show that the fuel the
    definitions pass is enough, so none is conditional on termination: the length of
    the input for the parsers and the URL decoder, the number of positions for the
    disruptor's scan, the number of reads for the serve loop, the socket's readiness and the
    pending results for the asynchronous executor. Code that runs in several
    threads is a step relation whose steps are the single atomic accesses (Server.v,
    Disruptor.v, Spsc.v, ObjectPool.v, the dispatch word of LogSink.v, the event count of Waiting.v)
    or the critical sections under the mutex (ConnectionPool.v, Logger.v, Spider.v, AsyncContext.v,
    the blocking strategy of Waiting.v).
    Sequential consistency is assumed of the atomics.

    Third-party code is a parameter: Boost.Beast's fields and parser ([BeastFields],
    [BeastParser]), JsonCpp, libpq's answers, the server's verdict on a statement, the
    text of floating-point numbers, the local time zone. The classes state the documented laws relied on,
    and each has an instance in the witnesses. A wait for a socket may never end; the laws
    end it only when there is something to wait for. Formats that others read (HTTP framing,
    SQL tokens, libpq's keyword/value strings) are specified by readers written from
    their documentation.

    ** What the theorems show

    - Routing: lookup implements the routing contract and reports the methods allowed
      otherwise; registration keeps the table well formed, makes its route resolve once
      the registry is frozen, whatever is registered in between, and leaves every other route alone.
    - Dispatch: the response is the handler's or the documented error's; hooks see
      every outcome once; middleware runs in order; baked controllers serve exactly
      their routes.
    - HTTP/1.1: batching of writes is unobservable, every response is framed so that a
      client reads back exactly it, each message, also one that stalls, is read under the
      deadlines its phase sets.
    - Server: a stop request is never lost, the tracker's count is exact, the accept
      loop keeps its bounds.
    - SQL: quoting cannot be escaped; bound parameters never reach the text, are
      numbered in order, explicit placeholders aside, and decode to the values that the wire format
      can carry; the fixed-capacity
      compiler agrees with the growing one; the builders' types admit exactly SQL's
      order of clauses.
    - Pool and transactions: a connection has one borrower, every call is answered
      once, waiters are served in order, shutdown wakes every waiter, after which every call
      completes without waiting; a client that follows the documented use closes each transaction
      exactly once before its connection goes back.
    - Executors: on a connection that stays up, with a server that reads and answers, both return, agree on every statement with one
      result and leave the connection idle; it goes back to the pool exactly once, however
      the executor is moved.
    - Disruptor: items arrive exactly once and in order, no two threads touch a slot at
      once, and the system can always drain; the single-producer path keeps the same
      contract.
    - Object pool: a slot has one owner in every interleaving, an idle slot and a waiting
      caller never stay side by side, shutdown answers everyone, no call is stuck. A waiting coroutine's node is
      never used after it is freed, its handler is called exactly once unless the context
      stops or the initiation throws, and no slot given to it is lost.
    - Connection string: libpq reads back exactly the settings that the string covers; which ones
      it leaves out, and validation, are characterized.
    - Errors: every SQLSTATE is classified, PostgreSQL's documented conditions as the codes named
      after them; the transient ones are retryable, and the permanent ones that are retried in vain
      are spelled out; the two extractions agree on every result.
    - Sorter: entries are neither lost nor invented over any sequence of operations, and
      input with bounded disorder comes out completely sorted.
    - Dates: a reader of the HTTP format gets back the instant, up to year 9999, and the
      cache is transparent.
    - Rendering: every line of a table and of a box has the same visible width.
    - Sinks: concurrent updates of the dispatch word compose; every line is appended
      to one file through the stream's buffer, in order, or counted as undelivered; rotated names read back.
    - Logger: the gate drops exactly what no sink's threshold admits, a batch is
      dispatched with a table no older than the registrations that have returned, and
      shutdown delivers everything logged before it.
    - Waiting: no notification of the event count and no signal of the blocking strategy is
      lost, and a wait whose sequence is published can return.
    - Configuration: a dumped server configuration loads as itself, less its secrets; the loader
      returns a valid configuration or one of its three errors; the logger's and the connection's
      configurations are read back as written, less passwords and excluded members.
    - Hosting: started workers are joined after their contexts stop; when the runner hangs is
      characterised; the TLS context admits only what is configured.
    - Locked resources: while an exclusive proxy lives only its own accesses happen, a shared one
      sees one value throughout; a second proxy in one thread waits for ever.
    - Random values and hashes: draws stay in their ranges, a UUID has its version and variant
      and loses no randomness, a stored password is recognised, salts read back.
    - Component logging: the atomic once guard lets exactly one thread through, and a registered
      logger is shared by all threads.
    - Service locator: while a registration stands, all threads share one instance.

    Examples beside the theorems record the behaviours that deviate from the code's
    own documentation.

    ** Not modelled

    QUIC, HTTP/2 and HTTP/3 are declared and unimplemented. Sockets, TLS,
    signals and the calls of libpq are input and output. The parsing of dates by pattern and
    the sink that the component logger's fallback is given are not modelled. *)

From Stdlib Require Export Ascii ZArith Lia.
From stdpp Require Export base tactics strings gmap numbers.
From stdpp Require Export list.

#[global] Open Scope list_scope.

(** ** Byte strings

    [std::string] and [std::string_view] are byte sequences; they are modelled
    as lists of [ascii], with [B] turning a literal into one. *)
Abbreviation bytes := (list ascii).

Definition B (s : string) : bytes := String.list_ascii_of_string s.

(** The unsigned code of a character. *)
Definition code (c : ascii) : nat := nat_of_ascii c.

Declare Scope menagerie_scope.
Delimit Scope menagerie_scope with mng.

(** ** Errors as values: [std::expected] and thrown exceptions. *)
Inductive result (E A : Type) : Type :=
| Ok (a : A)
| Err (e : E).
Arguments Ok {E A} a.
Arguments Err {E A} e.

#[global] Instance result_ret {E} : MRet (result E) := fun A a => Ok a.
#[global] Instance result_bind {E} : MBind (result E) := fun A C f r =>
  match r with Ok a => f a | Err e => Err e end.
#[global] Instance result_fmap {E} : FMap (result E) := fun A C f r =>
  match r with Ok a => Ok (f a) | Err e => Err e end.
#[global] Instance result_eq_dec {E A} `{EqDecision E, EqDecision A} : EqDecision (result E A).
Proof. solve_decision. Defined.

(** The exceptions the modelled code throws or lets through: the standard
    types with their [what()] text, and an opaque identity for whatever a user
    callback throws. *)
Inductive exn : Type :=
| BadVariantAccess
| LogicError (what : bytes)
| InvalidArgument (what : bytes)
| OutOfRange (what : bytes)
| JsonError (what : bytes)
| UserException (id : nat).

#[global] Instance exn_eq_dec : EqDecision exn.
Proof. solve_decision. Defined.

(** ** Decimal text, as [std::to_chars], [std::to_string] and [operator<<] print an unsigned value *)
Definition digit_char (d : N) : ascii := ascii_of_N (48 + d).

Fixpoint dec_digits (fuel : nat) (n : N) (acc : bytes) : bytes :=
  let acc' := digit_char (n mod 10) :: acc in
  match fuel with
  | 0 => acc'
  | S fuel => if (n / 10 =? 0)%N then acc' else dec_digits fuel (n / 10)%N acc'
  end.

(** A value of [k] bits has at most [k] decimal digits, so its bit size bounds the digit loop. *)
Definition to_decimal (n : N) : bytes := dec_digits (N.size_nat n) n [].

Definition is_digit (c : ascii) : bool := (48 <=? code c) && (code c <=? 57).

(** Reading decimal digits back, from an accumulator. *)
Definition digit_val (c : ascii) : N := N_of_ascii c - 48.
Definition dec_value_from (v : N) (s : bytes) : N := fold_left (fun v c => 10 * v + digit_val c)%N s v.
Definition dec_value (s : bytes) : N := dec_value_from 0 s.

(** Signed values print with a leading minus. *)
Definition to_decimal_Z (z : Z) : bytes :=
  if (z <? 0)%Z then "-"%char :: to_decimal (Z.abs_N z) else to_decimal (Z.abs_N z).

(** [std::from_chars] for an integral [T] with values in [lo, hi]: digits are
    consumed greedily, a minus sign only for signed types; [None] is any error. *)
Fixpoint scan_digits (s : bytes) (v : N) : N * nat :=
  match s with
  | c :: s' => if is_digit c then let '(v, n) := scan_digits s' (10 * v + digit_val c)%N in (v, S n) else (v, 0)
  | [] => (v, 0)
  end.

Definition from_chars (signed : bool) (lo hi : Z) (s : bytes) : option (Z * nat) :=
  let minus := signed && bool_decide (head s = Some "-"%char) in
  let '(v, n) := scan_digits (if minus then drop 1 s else s) 0 in
  if decide (n = 0) then None
  else let z := if minus then (- Z.of_N v)%Z else Z.of_N v in
       if decide (lo <= z <= hi)%Z then Some (z, if minus then S n else n) else None.

(** ** The [std::string_view] operations the sources use *)

(** [s.find(c)]: the index of the first occurrence. *)
Fixpoint find_index (c : ascii) (s : bytes) : option nat :=
  match s with
  | [] => None
  | x :: s' => if decide (x = c) then Some 0 else S <$> find_index c s'
  end.

(** [s.find(c, pos)]: the first occurrence at or after [pos]. *)
Definition find_char (c : ascii) (s : bytes) (pos : nat) : option nat :=
  (fun i => pos + i) <$> find_index c (drop pos s).

(** [needle] is a prefix of [hay]. *)
Fixpoint starts_with (needle hay : bytes) : bool :=
  match needle, hay with
  | [], _ => true
  | n :: needle', h :: hay' => bool_decide (n = h) && starts_with needle' hay'
  | _ :: _, [] => false
  end.

Fixpoint find_sub_index (needle hay : bytes) : option nat :=
  if starts_with needle hay then Some 0
  else match hay with
       | [] => None
       | _ :: hay' => S <$> find_sub_index needle hay'
       end.

(** [hay.find(needle, pos)]. *)
Definition find_sub (needle hay : bytes) (pos : nat) : option nat :=
  if decide (pos <= length hay) then (fun i => pos + i) <$> find_sub_index needle (drop pos hay)
  else None.

(** [s.substr(pos, n)] and [s.substr(pos)] for [pos <= s.size()]. *)
Definition substr (s : bytes) (pos n : nat) : bytes := take n (drop pos s).
Definition substr_from (s : bytes) (pos : nat) : bytes := drop pos s.

(** [s.find_first_of(set) != npos]. *)
Definition contains_any (set s : bytes) : bool := existsb (fun c => bool_decide (c ∈ set)) s.

(** [s.find(c) != npos]. *)
Definition contains_char (c : ascii) (s : bytes) : bool := bool_decide (c ∈ s).

Definition crlf : bytes := ["013"; "010"]%char.

(** The double quote, and a text between two of them. *)
Definition quote : ascii := "034"%char.
Definition quoted (s : string) : bytes := quote :: B s ++ [quote].

(** Reference splitting: the pieces of [s] between occurrences of [c]. *)
Fixpoint split_on (c : ascii) (s : bytes) : list bytes :=
  match s with
  | [] => [[]]
  | x :: s' =>
      if decide (x = c) then [] :: split_on c s'
      else match split_on c s' with
           | [] => [[x]]
           | p :: ps => (x :: p) :: ps
           end
  end.

(** Reference joining, the inverse of [split_on]. *)
Fixpoint join_with (sep : bytes) (ps : list bytes) : bytes :=
  match ps with
  | [] => []
  | [p] => p
  | p :: ps' => p ++ sep ++ join_with sep ps'
  end.

(** ** Automation *)
Create HintDb menagerie.

(** Case analysis on the tests the executable definitions make. *)
Ltac case_tests :=
  repeat match goal with
  | |- context [decide ?P] => destruct (decide P)
  | |- context [bool_decide ?P] => destruct (bool_decide_reflect P)
  | |- context [Nat.leb ?x ?y] => destruct (Nat.leb_spec x y)
  | |- context [Nat.ltb ?x ?y] => destruct (Nat.ltb_spec x y)
  | |- context [Nat.eqb ?x ?y] => destruct (Nat.eqb_spec x y)
  end.

Ltac crush := repeat (simplify_eq/=; case_tests); try done; try lia.

(** ** Facts about [find_index] *)
Lemma find_index_None c s : find_index c s = None <-> c ∉ s.
Proof.
  induction s as [|x s IH]; simpl; [set_solver|].
  case_decide; [set_solver|]. destruct (find_index c s); set_solver.
Qed.

Lemma find_index_Some c s i :
  find_index c s = Some i -> s = take i s ++ c :: drop (S i) s /\ c ∉ take i s /\ i < length s.
Proof.
  revert i; induction s as [|x s IH]; intros i H; simpl in H; [done|].
  case_decide as Hx; simplify_eq/=.
  - split_and!; [done|set_solver|lia].
  - destruct (find_index c s) as [j|] eqn:E; simplify_eq/=.
    destruct (IH j eq_refl) as (H1 & H2 & H3).
    split_and!; [by f_equal|set_solver|lia].
Qed.

Lemma find_index_app c s t : c ∉ s -> find_index c (s ++ c :: t) = Some (length s).
Proof.
  induction s as [|x s IH]; intros Hn; simpl.
  - by rewrite decide_True.
  - rewrite decide_False by set_solver. by rewrite IH by set_solver.
Qed.

Lemma find_char_0 c s : find_char c s 0 = find_index c s.
Proof. unfold find_char. rewrite drop_0. by destruct (find_index c s). Qed.

Lemma find_char_spec c s pos i :
  find_char c s pos = Some i ->
  pos <= i < length s /\ c ∉ substr s pos (i - pos) /\
  drop pos s = substr s pos (i - pos) ++ c :: drop (S i) s.
Proof.
  unfold find_char, substr.
  destruct (find_index c (drop pos s)) as [j|] eqn:E; [|done].
  intros [= <-]. apply find_index_Some in E as (H1 & H2 & H3).
  rewrite length_drop in H3. replace (pos + j - pos) with j by lia.
  split_and!; [lia|lia|done|].
  rewrite H1 at 1. rewrite drop_drop. do 2 f_equal. f_equal. lia.
Qed.

Lemma find_char_None c s pos : find_char c s pos = None <-> c ∉ drop pos s.
Proof.
  unfold find_char. rewrite fmap_None. apply find_index_None.
Qed.

(** ** Splitting and joining *)
Lemma split_on_not_nil c s : split_on c s <> [].
Proof. destruct s as [|x s]; simpl; [done|]. case_decide; [done|]. by destruct (split_on c s). Qed.

Lemma split_on_no_sep c s : c ∉ s -> split_on c s = [s].
Proof.
  induction s as [|x s IH]; intros Hn; simpl; [done|].
  rewrite decide_False by set_solver. by rewrite IH by set_solver.
Qed.

Lemma split_on_app c s t : c ∉ s -> split_on c (s ++ c :: t) = s :: split_on c t.
Proof.
  induction s as [|x s IH]; intros Hn; simpl.
  - by rewrite decide_True.
  - rewrite decide_False by set_solver. by rewrite IH by set_solver.
Qed.

Lemma split_on_Forall c s : Forall (fun p => c ∉ p) (split_on c s).
Proof.
  induction s as [|x s IH]; simpl; [repeat constructor; set_solver|].
  case_decide; [constructor; [set_solver|done]|].
  destruct (split_on c s) as [|p ps]; [repeat constructor; set_solver|].
  inv IH. constructor; [set_solver|done].
Qed.

Lemma join_split c s : join_with [c] (split_on c s) = s.
Proof.
  induction s as [|x s IH]; simpl; [done|].
  pose proof (split_on_not_nil c s) as Hne.
  case_decide; subst.
  - destruct (split_on c s) as [|p ps]; [done|]. simpl in *. by rewrite IH.
  - destruct (split_on c s) as [|p ps]; [done|]. simpl in *.
    destruct ps as [|q ps]; simpl in *; by rewrite <- IH.
Qed.

Lemma split_join c ps : ps <> [] -> Forall (fun p => c ∉ p) ps -> split_on c (join_with [c] ps) = ps.
Proof.
  induction ps as [|p ps IH]; intros Hne HF; [done|]. inv HF.
  destruct ps as [|q ps]; simpl; [by apply split_on_no_sep|].
  rewrite split_on_app by done. f_equal. by apply IH.
Qed.

Lemma split_on_drop c s pos i :
  find_char c s pos = Some i ->
  split_on c (drop pos s) = substr s pos (i - pos) :: split_on c (drop (S i) s).
Proof.
  intros H. apply find_char_spec in H as (_ & H2 & H3).
  rewrite H3. by apply split_on_app.
Qed.

(** ** Substring search *)
Lemma starts_with_spec needle hay : starts_with needle hay = true <-> exists t, hay = needle ++ t.
Proof.
  revert hay; induction needle as [|n needle IH]; intros hay; simpl.
  - split; eauto.
  - destruct hay as [|h hay]; [split; [done|intros [t [=]]]|].
    rewrite andb_true_iff, bool_decide_eq_true, IH. split.
    + intros [-> [t ->]]. eauto.
    + intros [t [= -> ->]]. eauto.
Qed.

Lemma find_sub_index_Some needle hay i :
  find_sub_index needle hay = Some i ->
  i <= length hay /\ drop i hay = needle ++ drop (i + length needle) hay.
Proof.
  revert i; induction hay as [|h hay IH]; intros i H; simpl in H.
  - destruct (starts_with needle []) eqn:E; simplify_eq/=.
    apply starts_with_spec in E as [t E]. destruct needle; [|done]. simpl. auto.
  - destruct (starts_with needle (h :: hay)) eqn:E; simplify_eq/=.
    + apply starts_with_spec in E as [t E]. split; [lia|].
      rewrite E at 1. by rewrite E, drop_app_length.
    + destruct (find_sub_index needle hay) as [j|] eqn:E2; simplify_eq/=.
      destruct (IH j eq_refl). split; [lia|done].
Qed.

#[export] Hint Resolve split_on_not_nil : menagerie.

(** ** Filters by a boolean test *)
Lemma filter_true_cons {A} (f : A -> bool) x l :
  filter (fun x => f x = true) (x :: l) =
  if f x then x :: filter (fun x => f x = true) l else filter (fun x => f x = true) l.
Proof. rewrite filter_cons. destruct (f x) eqn:E; case_decide; congruence. Qed.

Lemma filter_false_cons {A} (f : A -> bool) x l :
  filter (fun x => f x = false) (x :: l) =
  if f x then filter (fun x => f x = false) l else x :: filter (fun x => f x = false) l.
Proof. rewrite filter_cons. destruct (f x) eqn:E; case_decide; congruence. Qed.

Lemma filter_all {A} (P : A -> Prop) `{!forall x, Decision (P x)} l : Forall P l -> filter P l = l.
Proof. induction 1 as [|x l Hx HF IH]; [done|]. rewrite filter_cons, decide_True by done. by f_equal. Qed.

Lemma Forall_filter {A} (P Q : A -> Prop) `{!forall x, Decision (Q x)} l : Forall P l -> Forall P (filter Q l).
Proof.
  induction 1 as [|x l Hx HF IH]; [constructor|]. rewrite filter_cons. case_decide; [by constructor|done].
Qed.

(** ** Decimal text *)
Lemma N_lt_pow2_size n : (n < 2 ^ N.of_nat (N.size_nat n))%N.
Proof.
  destruct n as [|p]; [done|]. simpl. induction p as [p IH|p IH|]; cbn [Pos.size_nat]; [..|done];
    rewrite Nat2N.inj_succ, N.pow_succ_r'; lia.
Qed.

Lemma digit_mod n : digit_val (digit_char (n mod 10)) = (n mod 10)%N /\ is_digit (digit_char (n mod 10)) = true.
Proof.
  assert (n mod 10 < 10)%N as H by (by apply N.mod_upper_bound).
  destruct (n mod 10)%N as [|p]; [done|].
  do 4 (destruct p as [p|p|]; try (split; reflexivity); try lia).
Qed.

Lemma dec_digits_spec fuel n acc :
  (n < 2 ^ N.of_nat fuel)%N ->
  dec_value_from 0 (dec_digits fuel n acc) = dec_value_from n acc /\
  (Forall (fun c => is_digit c = true) acc -> Forall (fun c => is_digit c = true) (dec_digits fuel n acc)) /\
  dec_digits fuel n acc <> [].
Proof.
  revert n acc. induction fuel as [|fuel IH]; intros n acc Hn.
  - assert (n = 0)%N as -> by (simpl in Hn; lia). simpl. split_and!; [done|by constructor|done].
  - destruct (digit_mod n) as [Hv Hd]. cbn [dec_digits].
    destruct (N.eqb_spec (n / 10) 0) as [E|E].
    + assert (n mod 10 = n)%N as Hm by (apply N.mod_small, N.div_small_iff; lia).
      split_and!; [|by constructor|done].
      unfold dec_value_from. simpl fold_left. rewrite Hv, Hm. f_equal.
    + assert (n / 10 < 2 ^ N.of_nat fuel)%N as Hlt.
      { apply N.Div0.div_lt_upper_bound. rewrite Nat2N.inj_succ, N.pow_succ_r' in Hn. lia. }
      destruct (IH (n / 10)%N (digit_char (n mod 10) :: acc) Hlt) as (H1 & H2 & H3).
      split_and!; [|auto|done]. rewrite H1. unfold dec_value_from. simpl. rewrite Hv. f_equal.
      pose proof (N.div_mod n 10). lia.
Qed.

Lemma to_decimal_value n : dec_value (to_decimal n) = n.
Proof. apply (dec_digits_spec _ n []), N_lt_pow2_size. Qed.

Lemma to_decimal_is_digits n : Forall (fun c => is_digit c = true) (to_decimal n).
Proof. apply (dec_digits_spec _ n []); [apply N_lt_pow2_size|constructor]. Qed.

Lemma to_decimal_not_nil n : to_decimal n <> [].
Proof. apply (dec_digits_spec _ n []), N_lt_pow2_size. Qed.

Lemma scan_digits_value s v :
  Forall (fun c => is_digit c = true) s -> scan_digits s v = (dec_value_from v s, length s).
Proof.
  revert v. induction s as [|c s IH]; intros v HF; [done|]. inv HF. simpl. rewrite H1. by rewrite IH.
Qed.

Lemma digit_not_minus s : Forall (fun c => is_digit c = true) s -> head s <> Some "-"%char.
Proof. destruct s as [|c s]; [done|]. intros HF Hh. inv HF. by simplify_eq/=. Qed.

(** Printing a value and reading it back, within the type's range or not. *)
Lemma from_chars_decimal signed lo hi z :
  (signed = false -> 0 <= z)%Z ->
  from_chars signed lo hi (to_decimal_Z z) =
  if decide (lo <= z <= hi)%Z then Some (z, length (to_decimal_Z z)) else None.
Proof.
  intros Hs. unfold from_chars, to_decimal_Z. destruct (Z.ltb_spec z 0) as [Hz|Hz].
  - destruct signed; [|specialize (Hs eq_refl); lia]. simpl. rewrite drop_0, scan_digits_value by apply to_decimal_is_digits.
    change (dec_value_from 0) with dec_value. rewrite to_decimal_value.
    rewrite decide_False by (intros E%length_zero_iff_nil; by apply to_decimal_not_nil in E).
    replace (- Z.of_N (Z.abs_N z))%Z with z by lia. by case_decide.
  - rewrite bool_decide_false by apply digit_not_minus, to_decimal_is_digits. rewrite andb_false_r.
    rewrite scan_digits_value by apply to_decimal_is_digits.
    change (dec_value_from 0) with dec_value. rewrite to_decimal_value.
    rewrite decide_False by (intros E%length_zero_iff_nil; by apply to_decimal_not_nil in E).
    replace (Z.of_N (Z.abs_N z)) with z by lia. by case_decide.
Qed.

#[global] Instance to_decimal_inj : Inj (=) (=) to_decimal.
Proof. intros n m E. by rewrite <- (to_decimal_value n), <- (to_decimal_value m), E. Qed.

#[export] Hint Resolve to_decimal_not_nil to_decimal_is_digits : menagerie.

(** ** Substring search over concatenations *)
Lemma starts_with_app_true needle t : starts_with needle (needle ++ t) = true.
Proof. apply starts_with_spec. eauto. Qed.

Lemma starts_with_window needle hay post :
  length needle <= length hay -> starts_with needle (hay ++ post) = starts_with needle hay.
Proof.
  revert hay. induction needle as [|n needle IH]; intros [|h hay] Hl; simpl in *; try done; [lia|].
  by rewrite IH by lia.
Qed.

Lemma find_sub_here needle hay : starts_with needle hay = true -> find_sub_index needle hay = Some 0.
Proof. intros E. destruct hay; cbn [find_sub_index]; by rewrite E. Qed.

Lemma find_sub_next needle x hay :
  starts_with needle (x :: hay) = false -> find_sub_index needle (x :: hay) = S <$> find_sub_index needle hay.
Proof. intros E. cbn [find_sub_index]. by rewrite E. Qed.

(** The first occurrence stays the first whatever follows it. *)
Lemma find_sub_first needle pre post :
  find_sub_index needle (pre ++ needle) = Some (length pre) ->
  find_sub_index needle (pre ++ needle ++ post) = Some (length pre).
Proof.
  induction pre as [|c pre IH]; intros E.
  - simpl app. apply find_sub_here, starts_with_app_true.
  - change (find_sub_index needle ((c :: pre) ++ needle)) with
      (if starts_with needle (c :: pre ++ needle) then Some 0 else S <$> find_sub_index needle (pre ++ needle)) in E.
    change (find_sub_index needle ((c :: pre) ++ needle ++ post)) with
      (if starts_with needle (c :: pre ++ needle ++ post) then Some 0 else S <$> find_sub_index needle (pre ++ needle ++ post)).
    rewrite app_comm_cons, app_assoc, starts_with_window by (simpl; rewrite length_app; lia).
    simpl app. destruct (starts_with needle (c :: pre ++ needle)); [done|].
    destruct (find_sub_index needle (pre ++ needle)); simplify_eq/=. by rewrite IH.
Qed.

(** A byte the needle starts with but the prefix lacks. *)
Lemma find_sub_skip c needle pre rest :
  c ∉ pre -> find_sub_index (c :: needle) (pre ++ rest) = (fun i => length pre + i) <$> find_sub_index (c :: needle) rest.
Proof.
  induction pre as [|x pre IH]; intros Hc; [simpl app; by destruct (find_sub_index _ rest)|].
  cbn [app find_sub_index starts_with]. rewrite bool_decide_false by set_solver. simpl andb. cbv iota.
  rewrite IH by set_solver. by destruct (find_sub_index (c :: needle) rest).
Qed.

(** No occurrence in [pre], and the byte after it is not in the needle. *)
Lemma find_sub_skip_none needle pre c rest :
  find_sub_index needle pre = None -> c ∉ needle -> needle <> [] ->
  find_sub_index needle (pre ++ c :: rest) = (fun i => S (length pre) + i) <$> find_sub_index needle rest.
Proof.
  intros Hn Hc Hne.
  assert (Hs : forall p, starts_with needle (p ++ c :: rest) = starts_with needle p).
  { clear Hn Hne. induction needle as [|n needle IH]; intros [|x p]; try done; simpl.
    - by rewrite bool_decide_false by set_solver.
    - by rewrite IH by set_solver. }
  assert (Hn0 : starts_with needle [] = false) by (by destruct needle).
  induction pre as [|x pre IH].
  - specialize (Hs []). simpl app in *. cbn [find_sub_index]. rewrite Hs, Hn0. by destruct (find_sub_index needle rest).
  - cbn [find_sub_index] in Hn. change ((x :: pre) ++ c :: rest) with (x :: pre ++ c :: rest). cbn [find_sub_index].
    pose proof (Hs (x :: pre)) as Hx. simpl app in Hx. rewrite Hx.
    destruct (starts_with needle (x :: pre)); [done|]. apply fmap_None in Hn.
    rewrite IH by done. by destruct (find_sub_index needle rest).
Qed.

Lemma find_sub_at needle hay pos rest :
  drop pos hay = rest -> pos <= length hay -> find_sub needle hay pos = (fun i => pos + i) <$> find_sub_index needle rest.
Proof. intros <- Hp. unfold find_sub. by rewrite decide_True. Qed.

Lemma find_sub_absent c needle s : c ∉ s -> find_sub_index (c :: needle) s = None.
Proof. intros Hc. rewrite <- (app_nil_r s). by rewrite find_sub_skip. Qed.

Lemma drop_past {A} (l r : list A) n k : length l = n -> drop (n + k) (l ++ r) = drop k r.
Proof. intros <-. induction l as [|x l IH]; [done|apply IH]. Qed.

Lemma find_blank_line (d t rest : bytes) x :
  "013"%char ∉ d -> "013"%char ∉ x :: t ->
  find_sub_index (crlf ++ crlf) (d ++ crlf ++ (x :: t) ++ (crlf ++ crlf) ++ rest) = Some (length d + S (S (S (length t)))).
Proof.
  intros Hd Ht. unfold crlf. simpl app. rewrite find_sub_skip by done.
  rewrite find_sub_next by (simpl; rewrite (bool_decide_false ("013"%char = x)) by set_solver; done).
  rewrite find_sub_next by done. rewrite app_comm_cons, find_sub_skip by done. rewrite find_sub_here by done.
  simpl. do 4 f_equal. lia.
Qed.

(** ** Counting occurrences *)
Definition remove_one (x : nat) (l : list nat) : list nat :=
  match list_find (fun y => y = x) l with Some (i, _) => delete i l | None => l end.

Definition cnt (x : nat) (l : list nat) : nat := count_occ Nat.eq_dec l x.
Definition one (b : bool) : nat := if b then 1 else 0.

Lemma one_le b : one b <= 1.
Proof. destruct b; simpl; lia. Qed.

Lemma cnt_app x l k : cnt x (l ++ k) = cnt x l + cnt x k.
Proof. apply count_occ_app. Qed.

Lemma cnt_cons x y l : cnt x (y :: l) = one (y =? x) + cnt x l.
Proof. unfold cnt, one. simpl. destruct (Nat.eq_dec y x), (Nat.eqb_spec y x); done. Qed.

Lemma cnt_nil x : cnt x [] = 0.
Proof. done. Qed.

Lemma cnt_elem x l : x ∈ l <-> 0 < cnt x l.
Proof. rewrite list_elem_of_In. apply count_occ_In. Qed.

Lemma cnt_NoDup l : (forall x, cnt x l <= 1) -> NoDup l.
Proof. intros H. apply NoDup_ListNoDup, (NoDup_count_occ Nat.eq_dec). exact H. Qed.

Lemma cnt_single x y : cnt x [y] = one (y =? x).
Proof. rewrite cnt_cons, cnt_nil. lia. Qed.

Lemma one_succ x n : one (x <? S n) = one (x <? n) + one (n =? x).
Proof. unfold one. destruct (Nat.ltb_spec x (S n)), (Nat.ltb_spec x n), (Nat.eqb_spec n x); lia. Qed.

Lemma cnt_seq n x : cnt x (seq 0 n) = one (x <? n).
Proof.
  induction n as [|n IH]; [done|]. rewrite seq_S, cnt_app, IH, cnt_single, one_succ. simpl. lia.
Qed.

Lemma cnt_perm_eq x l k : l ≡ₚ k -> cnt x l = cnt x k.
Proof. induction 1; rewrite ?cnt_cons in *; lia. Qed.

Lemma cnt_perm l k : (forall x, cnt x l = cnt x k) -> l ≡ₚ k.
Proof. intros H. by apply (Permutation_count_occ Nat.eq_dec). Qed.

Lemma cnt_remove_one x w l : w ∈ l -> cnt x (remove_one w l) + one (w =? x) = cnt x l.
Proof.
  intros Hw. unfold remove_one. destruct (list_find (fun y => y = w) l) as [[i y]|] eqn:E.
  - apply list_find_Some in E as (Hi & -> & _). rewrite <- (take_drop_middle l i w Hi) at 2.
    rewrite delete_take_drop, !cnt_app, cnt_cons. lia.
  - apply list_find_None in E. rewrite Forall_forall in E. by specialize (E w Hw).
Qed.

Lemma length_remove_one w l : w ∈ l -> length (remove_one w l) = length l - 1.
Proof.
  intros Hw. unfold remove_one. destruct (list_find (fun y => y = w) l) as [[i y]|] eqn:E.
  - apply list_find_Some in E as (Hi & _ & _). apply length_delete. by eexists.
  - apply list_find_None in E. rewrite Forall_forall in E. by specialize (E w Hw).
Qed.

(** ** Invariants of step relations *)
Lemma rtc_preserves {A} (R : A -> A -> Prop) (P : A -> Prop) x y :
  (forall x y, P x -> R x y -> P y) -> P x -> rtc R x y -> P y.
Proof. intros HP Hx Hr. revert Hx. induction Hr; eauto. Qed.
