(* ===== verification/StringMap.v ===== *)
(** * [std::map<std::string, std::string>]

    As its ordered list of entries: the order of [std::string] is that of the unsigned bytes. *)

From Stdlib Require Import Sorted.
From S2P Require Import Prelude.

Fixpoint bytes_lt (a b : bytes) : bool :=
  match a, b with
  | [], _ :: _ => true
  | x :: a, y :: b => (code x <? code y) || ((code x =? code y) && bytes_lt a b)
  | _, _ => false
  end.

(** [m[key] = value] *)
Fixpoint map_set (m : list (bytes * bytes)) (key value : bytes) : list (bytes * bytes) :=
  match m with
  | [] => [(key, value)]
  | (k, v) :: m' =>
      if bytes_lt key k then (key, value) :: m
      else if bytes_lt k key then (k, v) :: map_set m' key value
      else (k, value) :: m'
  end.

Fixpoint assoc (m : list (bytes * bytes)) (key : bytes) : option bytes :=
  match m with [] => None | (k, v) :: m => if bool_decide (k = key) then Some v else assoc m key end.

(** ** The order *)
Lemma code_inj x y : code x = code y -> x = y.
Proof. unfold code. intros H. by rewrite <- (ascii_nat_embedding x), <- (ascii_nat_embedding y), H. Qed.

Lemma bytes_lt_irrefl a : bytes_lt a a = false.
Proof. induction a as [|x a IH]; [done|]. cbn [bytes_lt]. by rewrite Nat.ltb_irrefl, Nat.eqb_refl, IH. Qed.

Lemma bytes_lt_trans a b c : bytes_lt a b = true -> bytes_lt b c = true -> bytes_lt a c = true.
Proof.
  revert b c. induction a as [|x a IH]; intros [|y b] [|z c]; cbn [bytes_lt]; try done.
  rewrite !orb_true_iff, !andb_true_iff, !Nat.ltb_lt, !Nat.eqb_eq. intros [?|[? ?]] [?|[? ?]]; [left; lia..|].
  right. split; [lia|eauto].
Qed.

Lemma bytes_lt_total a b : bytes_lt a b = false -> bytes_lt b a = false -> a = b.
Proof.
  revert b. induction a as [|x a IH]; intros [|y b]; cbn [bytes_lt]; try done.
  rewrite !orb_false_iff, !andb_false_iff, !Nat.ltb_ge, !Nat.eqb_neq. intros [? H1] [? H2].
  assert (code x = code y) as E by lia. apply code_inj in E as ->. f_equal. apply IH; [destruct H1|destruct H2]; done || lia.
Qed.

Lemma bytes_lt_ne a b : bytes_lt a b = true -> a <> b.
Proof. intros H ->. by rewrite bytes_lt_irrefl in H. Qed.

(** ** Ordered lists *)
Definition ordered (m : list (bytes * bytes)) : Prop := StronglySorted (fun x y => bytes_lt x.1 y.1 = true) m.

Lemma assoc_below m key : Forall (fun e => bytes_lt key e.1 = true) m -> assoc m key = None.
Proof.
  induction 1 as [|[k v] m Hk _ IH]; [done|]. cbn in *. rewrite bool_decide_false; [done|]. intros ->. by rewrite bytes_lt_irrefl in Hk.
Qed.

Lemma map_set_above m k key value :
  bytes_lt k key = true -> Forall (fun e => bytes_lt k e.1 = true) m -> Forall (fun e => bytes_lt k e.1 = true) (map_set m key value).
Proof.
  intros Hk. induction 1 as [|[k' v] m Hk' Hm IH]; [by repeat constructor|]. cbn in *. repeat case_match; repeat constructor; auto.
Qed.

Lemma map_set_ordered m key value : ordered m -> ordered (map_set m key value).
Proof.
  induction 1 as [|[k v] m Hs IH Hk]; [by repeat constructor|]. cbn. destruct (bytes_lt key k) eqn:E1.
  - constructor; [by constructor|]. constructor; [done|]. eapply Forall_impl; [exact Hk|]. intros e He. by eapply bytes_lt_trans.
  - destruct (bytes_lt k key) eqn:E2; constructor; auto. by apply map_set_above.
Qed.

Lemma assoc_map_set m key value k : ordered m -> assoc (map_set m key value) k = if bool_decide (key = k) then Some value else assoc m k.
Proof.
  induction 1 as [|[k0 v] m Hs IH Hk]; [done|]. cbn [map_set assoc]. destruct (bytes_lt key k0) eqn:E1; [done|].
  destruct (bytes_lt k0 key) eqn:E2; cbn [assoc].
  - rewrite IH. apply bytes_lt_ne in E2. repeat case_bool_decide; congruence.
  - rewrite (bytes_lt_total k0 key) by done. by repeat case_bool_decide.
Qed.

(** An ordered list is determined by what it maps. *)
Lemma ordered_ext m m' : ordered m -> ordered m' -> (forall k, assoc m k = assoc m' k) -> m = m'.
Proof.
  intros Hm. revert m'. induction Hm as [|[k v] m Hs IH Hk]; intros m' Hm' He.
  - destruct m' as [|[k v] m']; [done|]. specialize (He k). cbn in He. by rewrite bool_decide_true in He.
  - destruct Hm' as [|[k' v'] m' Hs' Hk']; [specialize (He k); cbn in He; by rewrite bool_decide_true in He|].
    assert (k = k') as <-.
    { pose proof (He k) as H1. pose proof (He k') as H2. cbn in H1, H2. rewrite bool_decide_true in H1 by done. rewrite (bool_decide_true (k' = k')) in H2 by done.
      apply bytes_lt_total; apply not_true_is_false; intros Hlt.
      - rewrite bool_decide_false in H1 by (by intros ->; rewrite bytes_lt_irrefl in Hlt).
        rewrite assoc_below in H1; [done|]. eapply Forall_impl; [exact Hk'|]. intros e Hle. by eapply bytes_lt_trans.
      - rewrite bool_decide_false in H2 by (by intros ->; rewrite bytes_lt_irrefl in Hlt).
        rewrite assoc_below in H2; [done|]. eapply Forall_impl; [exact Hk|]. intros e Hle. by eapply bytes_lt_trans. }
    pose proof (He k) as Hv. cbn in Hv. rewrite bool_decide_true in Hv by done. simplify_eq. f_equal. apply IH; [done|]. intros k'.
    specialize (He k'). cbn in He. case_bool_decide as Hkk; [|done]. subst. by rewrite !assoc_below.
Qed.

Lemma assoc_elem m k v : ordered m -> (k, v) ∈ m <-> assoc m k = Some v.
Proof.
  induction 1 as [|[k0 v0] m Hs IH Hk]; [split; [intros []%elem_of_nil|done]|]. cbn. rewrite elem_of_cons. case_bool_decide as E.
  - subst. split; [|intros; left; congruence]. intros [[=]|Hin]; [congruence|]. rewrite Forall_forall in Hk. apply Hk in Hin. cbn in Hin.
    by rewrite bytes_lt_irrefl in Hin.
  - rewrite <- IH. split; [intros [[=]|?]; [congruence|done]|by right].
Qed.
