(* ===== verification/Clock.v ===== *)
(** * chrono-cuckoo: clocks, dates, back-off and stopwatches

    [SpecClock] and [format_imf_fixdate] (clock/), the retry schedule
    [exponential_backoff] (utilities/), [Stopwatch] and [PrintingStopwatch]
    (stopwatch/), and the HTTP date cache of http-albatross. A time point is a [Z] count of
    nanoseconds since the epoch, a [time_t] a [Z] count of seconds; the clock readings are
    arguments. [gmtime_r] and the conversions of [snprintf] are written out. *)

From S2P Require Import Prelude.

#[local] Open Scope Z_scope.

(** ** Broken-down time

    [std::tm] as [gmtime_r] fills it, with the source's fields. *)
Record tm := { tm_year : Z; tm_mon : Z; tm_mday : Z; tm_hour : Z; tm_min : Z; tm_sec : Z; tm_wday : Z }.

(** The proleptic Gregorian calendar in cycles of 400 years, each starting on March 1st. *)
Definition civil_of_days (z : Z) : Z * Z * Z :=
  let z := z + 719468 in
  let era := z / 146097 in
  let doe := z mod 146097 in
  let yoe := (doe - doe / 1460 + doe / 36524 - doe / 146096) / 365 in
  let doy := doe - (365 * yoe + yoe / 4 - yoe / 100) in
  let mp := (5 * doy + 2) / 153 in
  let m := if mp <? 10 then mp + 3 else mp - 9 in
  (yoe + era * 400 + (if m <=? 2 then 1 else 0), m, doy - (153 * mp + 2) / 5 + 1).

Definition gmtime_r (t : Z) : tm :=
  let days := t / 86400 in
  let s := t mod 86400 in
  let '(y, m, d) := civil_of_days days in
  {| tm_year := y - 1900; tm_mon := m - 1; tm_mday := d; tm_hour := s / 3600; tm_min := s / 60 mod 60; tm_sec := s mod 60;
     tm_wday := (days + 4) mod 7 |}.

(** [snprintf]'s [%0wd] *)
Definition pad (w : nat) (z : Z) : bytes :=
  if z <? 0 then "-"%char :: replicate (w - 1 - length (to_decimal (Z.abs_N z))) "0"%char ++ to_decimal (Z.abs_N z)
  else replicate (w - length (to_decimal (Z.to_N z))) "0"%char ++ to_decimal (Z.to_N z).

(** ** [SpecClock]

    [localtime] is what [localtime_r] does in the process's time zone. *)
Inductive ClockType := Local | UTC.

Definition to_tm (ct : ClockType) (localtime : Z -> tm) (tp : Z) : tm :=
  let tt := Z.quot tp 1000000000 in
  match ct with Local => localtime tt | UTC => gmtime_r tt end.

(** [duration_cast] and [%] truncate towards zero. *)
Definition format_time_iso_ms (ct : ClockType) (localtime : Z -> tm) (tp : Z) (out : bytes) : bytes :=
  let ms := Z.rem (Z.quot tp 1000000) 1000 in
  let tm := to_tm ct localtime tp in
  let text :=
    pad 4 (tm_year tm + 1900) ++ B "-" ++ pad 2 (tm_mon tm + 1) ++ B "-" ++ pad 2 (tm_mday tm) ++ B "T" ++
    pad 2 (tm_hour tm) ++ B ":" ++ pad 2 (tm_min tm) ++ B ":" ++ pad 2 (tm_sec tm) ++ B "." ++ pad 3 ms ++
    (match ct with UTC => B "Z" | Local => B " " end) in
  out ++ text.

(** ** [format_imf_fixdate] *)
Definition IMF_FIXDATE_LEN : nat := 29.

Definition imf_days : list bytes := [B "Sun"; B "Mon"; B "Tue"; B "Wed"; B "Thu"; B "Fri"; B "Sat"].
Definition imf_months : list bytes :=
  [B "Jan"; B "Feb"; B "Mar"; B "Apr"; B "May"; B "Jun"; B "Jul"; B "Aug"; B "Sep"; B "Oct"; B "Nov"; B "Dec"].

(** The text [snprintf] would write, then the buffer's text and the returned length:
    [snprintf] truncates to the span and still returns the full length. *)
Definition imf_text (t : Z) : bytes :=
  let tm := gmtime_r t in
  nth (Z.to_nat (tm_wday tm)) imf_days [] ++ B ", " ++ pad 2 (tm_mday tm) ++ B " " ++
  nth (Z.to_nat (tm_mon tm)) imf_months [] ++ B " " ++ pad 4 (tm_year tm + 1900) ++ B " " ++
  pad 2 (tm_hour tm) ++ B ":" ++ pad 2 (tm_min tm) ++ B ":" ++ pad 2 (tm_sec tm) ++ B " GMT".

Definition format_imf_fixdate (t : Z) : bytes * nat := (take IMF_FIXDATE_LEN (imf_text t), length (imf_text t)).

(** ** [imf_fixdate_now]

    The thread-local cache; [now] is what [std::time] returns. *)
Record HttpDate := { cached_second : Z; buf : bytes; len : nat }.

Definition fresh_date : HttpDate := {| cached_second := -1; buf := []; len := 0 |}.

Definition imf_fixdate_now (now : Z) (c : HttpDate) : bytes * HttpDate :=
  let c' := if now =? cached_second c then c
            else let '(text, n) := format_imf_fixdate now in {| cached_second := now; buf := text; len := n |} in
  (take (len c') (buf c'), c').

(** ** [exponential_backoff]

    [base] and [cap] in milliseconds, [attempt] a [std::uint32_t]. *)
Definition exponential_backoff (attempt : N) (base cap : Z) : Z :=
  let shift := N.min attempt 20 in
  Z.min (base * Z.shiftl 1 (Z.of_N shift)) cap.

(** ** [Stopwatch<duration, clock>]

    [unit] is the number of nanoseconds of [duration]; [duration_cast] truncates. *)
Module Stopwatch.

Record Stopwatch := { flags_ : list Z }.

Definition add_flag (now : Z) (s : Stopwatch) : Stopwatch := {| flags_ := flags_ s ++ [now] |}.
Definition start (now : Z) (s : Stopwatch) : Stopwatch := add_flag now {| flags_ := [] |}.
Definition stop (now : Z) (s : Stopwatch) : list Z * Stopwatch := (flags_ s ++ [now], {| flags_ := [] |}).

Definition duration_cast (unit ns : Z) : Z := Z.quot ns unit.

(** [flags_[i]], defined for indices in range. *)
Definition flag (s : Stopwatch) (i : nat) : Z := nth i (flags_ s) 0.

Definition delta_t (unit : Z) (s : Stopwatch) (i : nat) : Z * Z :=
  if (length (flags_ s) <=? i)%nat || (i =? 0)%nat then (0, 0)
  else (duration_cast unit (flag s i - flag s (i - 1)), duration_cast unit (flag s i - flag s 0)).

Definition from_start (unit : Z) (s : Stopwatch) (i : nat) : Z := duration_cast unit (flag s i - flag s 0).
Definition from_prev (unit : Z) (s : Stopwatch) (i : nat) : Z := duration_cast unit (flag s i - flag s (i - 1)).
Definition total_time (unit : Z) (s : Stopwatch) : Z := duration_cast unit (flag s (length (flags_ s) - 1) - flag s 0).

(** [None] is the division by zero of a stopwatch with exactly one flag; with no flag at
    all [flags_.size() - 1] wraps and the quotient of zero is zero. The divisor is a
    [std::size_t], so the sum is divided as an unsigned number. *)
Definition average_delta (unit : Z) (s : Stopwatch) : option Z :=
  let total := fold_left (fun acc i => acc + duration_cast unit (flag s i - flag s (i - 1)))
                         (seq 1 (length (flags_ s) - 1)) 0 in
  let n := (Z.of_nat (length (flags_ s)) - 1) mod 2 ^ 64 in
  if n =? 0 then None
  else let q := total mod 2 ^ 64 / n in Some (if q <? 2 ^ 63 then q else q - 2 ^ 64).

Definition measure (unit start_time end_time : Z) : Z := duration_cast unit (end_time - start_time).

End Stopwatch.

(** ** [PrintingStopwatch<T>] *)
Module PrintingStopwatch.

Inductive time_unit := Milliseconds | Microseconds | Nanoseconds | Seconds.

Definition unit_ns (u : time_unit) : Z :=
  match u with Milliseconds => 1000000 | Microseconds => 1000 | Nanoseconds => 1 | Seconds => 1000000000 end.

Definition time_unit_name (u : time_unit) : bytes :=
  match u with
  | Milliseconds => B "milliseconds" | Microseconds => B "microseconds" | Nanoseconds => B "nanoseconds"
  | Seconds => B "seconds"
  end.

Definition time_unit_name_short (u : time_unit) : bytes :=
  match u with Milliseconds => B "mls" | Microseconds => B "mcs" | Nanoseconds => B "ns" | Seconds => B "s" end.

Record Flag := { name_ : bytes; point_ : Z }.

(** [printed] is what went to [std::cout]. *)
Record PrintingStopwatch := {
  countdown_from_prev_ : bool;
  countdown_from_start_ : bool;
  running_name_ : bytes;
  start_time_ : Z;
  flags_ : list Flag;
  printed : bytes
}.

Definition new_stopwatch (name : bytes) : PrintingStopwatch :=
  {| countdown_from_prev_ := true; countdown_from_start_ := true; running_name_ := name; start_time_ := 0; flags_ := [];
     printed := [] |}.

Definition set_flags (s : PrintingStopwatch) (fs : list Flag) : PrintingStopwatch :=
  {| countdown_from_prev_ := countdown_from_prev_ s; countdown_from_start_ := countdown_from_start_ s;
     running_name_ := running_name_ s; start_time_ := start_time_ s; flags_ := fs; printed := printed s |}.

Definition start (now : Z) (s : PrintingStopwatch) : PrintingStopwatch :=
  {| countdown_from_prev_ := countdown_from_prev_ s; countdown_from_start_ := countdown_from_start_ s;
     running_name_ := running_name_ s; start_time_ := now; flags_ := []; printed := printed s |}.

Definition start_named (now : Z) (name : bytes) (s : PrintingStopwatch) : PrintingStopwatch :=
  {| countdown_from_prev_ := countdown_from_prev_ s; countdown_from_start_ := countdown_from_start_ s;
     running_name_ := name; start_time_ := now; flags_ := []; printed := printed s |}.

Definition flag (now : Z) (name : bytes) (s : PrintingStopwatch) : PrintingStopwatch :=
  set_flags s (flags_ s ++ [{| name_ := name; point_ := now |}]).

(** [operator++] and [operator--], both forms. *)
Definition increment (now : Z) (s : PrintingStopwatch) : PrintingStopwatch := flag now [] s.
Definition decrement (s : PrintingStopwatch) : PrintingStopwatch := set_flags s (removelast (flags_ s)).

Definition print_flag (u : time_unit) (s : PrintingStopwatch) (i : nat) (previous : Z) (f : Flag) : bytes :=
  (if bool_decide (name_ f = []) then B "Flag " ++ to_decimal (N.of_nat (S i)) else name_ f) ++
  (if countdown_from_prev_ s
   then B "  |  " ++ to_decimal_Z (Z.quot (point_ f - previous) (unit_ns u)) ++ time_unit_name_short u else []) ++
  (if countdown_from_start_ s
   then B "  |  " ++ to_decimal_Z (Z.quot (point_ f - start_time_ s) (unit_ns u)) ++ time_unit_name_short u else []) ++
  ["010"%char].

Fixpoint print_flags (u : time_unit) (s : PrintingStopwatch) (i : nat) (previous : Z) (fs : list Flag) : bytes :=
  match fs with
  | [] => []
  | f :: fs' => print_flag u s i previous f ++ print_flags u s (S i) (point_ f) fs'
  end.

Definition print (u : time_unit) (s : PrintingStopwatch) : PrintingStopwatch :=
  match flags_ s with
  | [] => s
  | fs =>
      let stream := "010"%char :: B "Running: " ++ running_name_ s ++ ["010"%char] ++ B "Stopwatch times (in " ++
                    time_unit_name u ++ B "):" ++ ["010"%char] in
      let stream := stream ++ print_flags u s 0 (start_time_ s) fs ++ ["010"%char] in
      {| countdown_from_prev_ := countdown_from_prev_ s; countdown_from_start_ := countdown_from_start_ s;
         running_name_ := running_name_ s; start_time_ := start_time_ s; flags_ := []; printed := printed s ++ stream |}
  end.

Definition finish (u : time_unit) (now : Z) (s : PrintingStopwatch) : PrintingStopwatch := print u (flag now (B "Finish") s).

(** The destructor prints what [finish] has not. *)
Definition destroy (u : time_unit) (s : PrintingStopwatch) : bytes := printed (print u s).

End PrintingStopwatch.

(** ** The calendar

    An independent description of the Gregorian calendar: the number of days from the
    epoch to a date, from the leap-year rule and the lengths of the months. *)
Definition leap (y : Z) : bool := (y mod 4 =? 0) && (negb (y mod 100 =? 0) || (y mod 400 =? 0)).

Definition days_in_month (y m : Z) : Z :=
  if m =? 2 then (if leap y then 29 else 28) else if (m =? 4) || (m =? 6) || (m =? 9) || (m =? 11) then 30 else 31.

Definition days_before_month (y m : Z) : Z :=
  fold_left (fun acc k => acc + days_in_month y (Z.of_nat k)) (seq 1 (Z.to_nat m - 1)) 0.

Definition days_of_date (y m d : Z) : Z :=
  365 * (y - 1) + (y - 1) / 4 - (y - 1) / 100 + (y - 1) / 400 + days_before_month y m + (d - 1) - 719162.

Definition date_ok (y m d : Z) : bool := (1 <=? m) && (m <=? 12) && (1 <=? d) && (d <=? days_in_month y m).

(** The quotients of the algorithm: the year of the cycle and the day of the year that
    starts in March; day 365 exists only before the end of a leap February. *)
Lemma year_of_cycle doe :
  0 <= doe < 146097 ->
  let yoe := (doe - doe / 1460 + doe / 36524 - doe / 146096) / 365 in
  let doy := doe - (365 * yoe + yoe / 4 - yoe / 100) in
  0 <= yoe <= 399 /\ 0 <= doy <= 365 /\
  (doy = 365 -> (yoe + 1) mod 4 = 0 /\ ((yoe + 1) mod 100 <> 0 \/ (yoe + 1) mod 400 = 0)).
Proof.
  intros H yoe doy. subst doy.
  assert (0 <= yoe <= 399) by (subst yoe; Z.to_euclidean_division_equations; lia).
  split; [done|]. subst yoe. Z.to_euclidean_division_equations; lia.
Qed.

(** Days of the year starting in March, by month number counted from March. *)
Definition march_offset (mp : Z) : Z := (153 * mp + 2) / 5.

Definition month_check (doy : Z) : bool :=
  let mp := (5 * doy + 2) / 153 in
  let d := doy - march_offset mp + 1 in
  (0 <=? mp) && (mp <=? 11) && (1 <=? d) &&
  (d <=? (if mp =? 11 then (if doy =? 365 then 29 else 28)
          else if (mp =? 1) || (mp =? 3) || (mp =? 6) || (mp =? 8) then 30 else 31)).

Fixpoint check_from (f : Z -> bool) (n : nat) (z : Z) : bool :=
  match n with O => true | S n => f z && check_from f n (z + 1) end.

Lemma check_from_spec (f : Z -> bool) n z k : check_from f n z = true -> 0 <= k < Z.of_nat n -> f (z + k) = true.
Proof.
  revert z k. induction n as [|n IH]; intros z k H Hk; [lia|]. simpl in H. apply andb_true_iff in H as [H1 H2].
  destruct (decide (k = 0)) as [->|]; [by rewrite Z.add_0_r|].
  replace (z + k) with (z + 1 + (k - 1)) by lia. apply IH; [done|lia].
Qed.

Lemma month_of_year doy : 0 <= doy <= 365 -> month_check doy = true.
Proof. intros H. apply (check_from_spec month_check 366 0 doy); [reflexivity|lia]. Qed.

Lemma leap_spec y : leap y = true <-> y mod 4 = 0 /\ (y mod 100 <> 0 \/ y mod 400 = 0).
Proof.
  unfold leap. rewrite andb_true_iff, orb_true_iff, negb_true_iff, !Z.eqb_eq, Z.eqb_neq. tauto.
Qed.

(** Leap days up to the end of year [y]: one more than before it exactly when it is leap. *)
Lemma leap_days_step y :
  y / 4 - y / 100 + y / 400 = (y - 1) / 4 - (y - 1) / 100 + (y - 1) / 400 + (if leap y then 1 else 0).
Proof.
  destruct (leap y) eqn:E.
  - apply leap_spec in E. Z.to_euclidean_division_equations; lia.
  - assert (~ (y mod 4 = 0 /\ (y mod 100 <> 0 \/ y mod 400 = 0))) by (rewrite <- leap_spec; congruence).
    Z.to_euclidean_division_equations; lia.
Qed.

(** A date, from the year that starts in March. *)
Definition of_march (Y mp d : Z) : Z * Z * Z :=
  let m := if mp <? 10 then mp + 3 else mp - 9 in (Y + (if m <=? 2 then 1 else 0), m, d).

Ltac month_cases mp :=
  let H := fresh in
  assert (H : mp = 0 \/ mp = 1 \/ mp = 2 \/ mp = 3 \/ mp = 4 \/ mp = 5 \/ mp = 6 \/ mp = 7 \/ mp = 8 \/ mp = 9 \/
              mp = 10 \/ mp = 11) by lia;
  destruct_or! H; subst mp.

Lemma days_before_march y mp :
  0 <= mp < 10 -> days_before_month y (mp + 3) = march_offset mp + 59 + (if leap y then 1 else 0).
Proof.
  intros H. unfold days_before_month, days_in_month. month_cases mp; try lia; destruct (leap y); reflexivity.
Qed.

Lemma days_of_march Y mp d :
  0 <= mp <= 11 ->
  let '(y, m, d') := of_march Y mp d in
  days_of_date y m d' = 365 * Y + Y / 4 - Y / 100 + Y / 400 + march_offset mp + (d - 1) - 719468.
Proof.
  intros H. pose proof (leap_days_step Y) as HL. unfold of_march. destruct (Z.ltb_spec mp 10).
  - rewrite (proj2 (Z.leb_gt (mp + 3) 2)) by lia. unfold days_of_date. rewrite Z.add_0_r, days_before_march by lia. lia.
  - rewrite (proj2 (Z.leb_le (mp - 9) 2)) by lia. unfold days_of_date. rewrite Z.add_simpl_r.
    assert (mp = 10 \/ mp = 11) as [->| ->] by lia.
    + change (days_before_month (Y + 1) (10 - 9)) with 0. change (march_offset 10) with 306. lia.
    + change (days_before_month (Y + 1) (11 - 9)) with 31. change (march_offset 11) with 337. lia.
Qed.

Lemma date_ok_march Y mp d :
  0 <= mp <= 11 -> 1 <= d ->
  d <= (if mp =? 11 then (if leap (Y + 1) then 29 else 28)
        else if (mp =? 1) || (mp =? 3) || (mp =? 6) || (mp =? 8) then 30 else 31) ->
  let '(y, m, d) := of_march Y mp d in date_ok y m d = true.
Proof.
  intros H H1 H2. unfold of_march, date_ok, days_in_month. rewrite !andb_true_iff, !Z.leb_le.
  month_cases mp; simpl in *; split_and!; try lia.
Qed.

(** [civil_of_days] names a date of the calendar, and exactly the one that many days
    after the epoch. *)
Lemma civil_correct z : let '(y, m, d) := civil_of_days z in days_of_date y m d = z /\ date_ok y m d = true.
Proof.
  set (doe := (z + 719468) mod 146097). set (era := (z + 719468) / 146097).
  pose proof (Z.mod_pos_bound (z + 719468) 146097 ltac:(lia)) as Hdoe. fold doe in Hdoe.
  assert (Ez : z = 146097 * era + doe - 719468) by (pose proof (Z.div_mod (z + 719468) 146097); lia).
  destruct (year_of_cycle doe Hdoe) as (Hy & Hd & Hleap).
  set (yoe := (doe - doe / 1460 + doe / 36524 - doe / 146096) / 365) in *.
  set (doy := doe - (365 * yoe + yoe / 4 - yoe / 100)) in *.
  pose proof (month_of_year doy Hd) as HM. unfold month_check in HM. set (mp := (5 * doy + 2) / 153) in *.
  rewrite !andb_true_iff, !Z.leb_le in HM. destruct HM as [[[H1 H2] H3] H4].
  change (civil_of_days z) with (of_march (yoe + era * 400) mp (doy - march_offset mp + 1)).
  pose proof (days_of_march (yoe + era * 400) mp (doy - march_offset mp + 1) ltac:(lia)) as HD.
  pose proof (date_ok_march (yoe + era * 400) mp (doy - march_offset mp + 1) ltac:(lia) H3) as HO.
  destruct (of_march _ _ _) as [[y m] d]. split.
  - rewrite HD. replace ((yoe + era * 400) / 4) with (yoe / 4 + 100 * era) by (Z.to_euclidean_division_equations; lia).
    replace ((yoe + era * 400) / 100) with (yoe / 100 + 4 * era) by (Z.to_euclidean_division_equations; lia).
    rewrite Z.div_add, (Z.div_small yoe 400) by lia. subst doy. lia.
  - apply HO. destruct (mp =? 11); [|done]. destruct (doy =? 365) eqn:E; [|destruct (leap _); lia].
    rewrite (proj2 (leap_spec _)); [done|]. apply Z.eqb_eq, Hleap in E. Z.to_euclidean_division_equations; lia.
Qed.

(** ** Reading an IMF-fixdate

    The grammar of RFC 9110, section 5.6.7, as a reader of its own. *)
Definition expect (lit s : bytes) : option bytes := if starts_with lit s then Some (drop (length lit) s) else None.

Definition read_number (w : nat) (s : bytes) : option (Z * bytes) :=
  if forallb is_digit (take w s) && (length (take w s) =? w)%nat
  then Some (Z.of_N (dec_value (take w s)), drop w s) else None.

Definition read_name (names : list bytes) (s : bytes) : option (nat * bytes) :=
  (fun p => (p.1, drop 3 s)) <$> list_find (fun n => n = take 3 s) names.

Definition read_imf (s : bytes) : option Z :=
  '(wd, s) ← read_name imf_days s; s ← expect (B ", ") s;
  '(d, s) ← read_number 2 s; s ← expect (B " ") s;
  '(m, s) ← read_name imf_months s; s ← expect (B " ") s;
  '(y, s) ← read_number 4 s; s ← expect (B " ") s;
  '(h, s) ← read_number 2 s; s ← expect (B ":") s;
  '(mi, s) ← read_number 2 s; s ← expect (B ":") s;
  '(sec, s) ← read_number 2 s; s ← expect (B " GMT") s;
  let m := Z.of_nat m + 1 in
  let days := days_of_date y m d in
  if bool_decide (s = []) && date_ok y m d && ((days + 4) mod 7 =? Z.of_nat wd) && (h <? 24) && (mi <? 60) && (sec <? 60)
  then Some (days * 86400 + h * 3600 + mi * 60 + sec) else None.

Lemma expect_app lit r : expect lit (lit ++ r) = Some r.
Proof. unfold expect. by rewrite starts_with_app_true, drop_app_length. Qed.

Lemma dec_digits_length fuel w n acc :
  (n < 10 ^ N.of_nat (S w))%N -> (length (dec_digits fuel n acc) <= S w + length acc)%nat.
Proof.
  revert w n acc. induction fuel as [|fuel IH]; intros w n acc Hn; simpl; [lia|].
  destruct (N.eqb_spec (n / 10) 0) as [|Hq]; simpl; [lia|]. destruct w as [|w].
  - change (10 ^ N.of_nat 1)%N with 10%N in Hn. rewrite N.div_small in Hq by lia. lia.
  - etrans; [apply (IH w)|simpl; lia]. apply N.Div0.div_lt_upper_bound.
    replace (10 * 10 ^ N.of_nat (S w))%N with (10 ^ N.of_nat (S (S w)))%N; [done|].
    rewrite (Nat2N.inj_succ (S w)), N.pow_succ_r'. lia.
Qed.

Lemma dec_value_zeros k s : dec_value (replicate k "0"%char ++ s) = dec_value s.
Proof. unfold dec_value. induction k as [|k IH]; [done|]. simpl. apply IH. Qed.

Lemma pad_length w z : (0 < w)%nat -> 0 <= z < 10 ^ Z.of_nat w -> length (pad w z) = w.
Proof.
  intros Hw Hz. unfold pad. rewrite (proj2 (Z.ltb_ge _ _)) by lia. rewrite length_app, length_replicate.
  destruct w as [|w]; [lia|]. pose proof (dec_digits_length (N.size_nat (Z.to_N z)) w (Z.to_N z) []) as H.
  unfold to_decimal in *. simpl in H. specialize (H ltac:(lia)). lia.
Qed.

Lemma read_pad w z r : (0 < w)%nat -> 0 <= z < 10 ^ Z.of_nat w -> read_number w (pad w z ++ r) = Some (z, r).
Proof.
  intros Hw Hz. pose proof (pad_length w z Hw Hz) as HL. unfold read_number.
  rewrite take_app_length', drop_app_length' by done. rewrite HL, Nat.eqb_refl, andb_true_r.
  unfold pad in *. rewrite (proj2 (Z.ltb_ge _ _)) in * by lia.
  rewrite (proj2 (forallb_forall _ _)); [by rewrite dec_value_zeros, to_decimal_value, Z2N.id by lia|].
  intros x Hx%list_elem_of_In. apply elem_of_app in Hx as [Hx|Hx].
  - by apply elem_of_replicate in Hx as [-> _].
  - revert x Hx. apply Forall_forall, to_decimal_is_digits.
Qed.

Lemma read_name_app names i r :
  (i < length names)%nat -> NoDup names -> Forall (fun n => length n = 3%nat) names ->
  read_name names (nth i names [] ++ r) = Some (i, r).
Proof.
  intros Hi Hn Hl. destruct (lookup_lt_is_Some_2 names i Hi) as [x Hx]. pose proof (Forall_lookup_1 _ _ _ _ Hl Hx) as H3.
  unfold read_name. rewrite (nth_lookup_Some _ _ _ _ Hx), take_app_length', drop_app_length' by done.
  rewrite (proj2 (list_find_Some _ names i x)); [done|]. split_and!; [done..|].
  intros j y Hy ? ->. by pose proof (NoDup_lookup _ _ _ _ Hn Hx Hy); lia.
Qed.

Lemma nth_length_3 (names : list bytes) i :
  (i < length names)%nat -> Forall (fun n => length n = 3%nat) names -> length (nth i names []) = 3%nat.
Proof.
  intros Hi Hl. destruct (lookup_lt_is_Some_2 names i Hi) as [x Hx].
  rewrite (nth_lookup_Some _ _ _ _ Hx). by apply (Forall_lookup_1 _ _ _ _ Hl Hx).
Qed.

Lemma days_ok : NoDup imf_days /\ Forall (fun n => length n = 3%nat) imf_days.
Proof. split; [by apply (bool_decide_eq_true_1 _)|by repeat constructor]. Qed.

Lemma months_ok : NoDup imf_months /\ Forall (fun n => length n = 3%nat) imf_months.
Proof. split; [by apply (bool_decide_eq_true_1 _)|by repeat constructor]. Qed.

(** The fields [gmtime_r] fills, in their ranges. *)
Lemma gmtime_fields t :
  let tm := gmtime_r t in
  date_ok (tm_year tm + 1900) (tm_mon tm + 1) (tm_mday tm) = true /\
  days_of_date (tm_year tm + 1900) (tm_mon tm + 1) (tm_mday tm) = t / 86400 /\
  0 <= tm_mon tm < 12 /\ 1 <= tm_mday tm <= 31 /\ 0 <= tm_hour tm < 24 /\ 0 <= tm_min tm < 60 /\ 0 <= tm_sec tm < 60 /\
  tm_wday tm = (t / 86400 + 4) mod 7 /\ tm_hour tm * 3600 + tm_min tm * 60 + tm_sec tm = t mod 86400.
Proof.
  unfold gmtime_r. pose proof (civil_correct (t / 86400)) as H. destruct (civil_of_days _) as [[y m] d].
  cbn [tm_year tm_mon tm_mday tm_hour tm_min tm_sec tm_wday]. destruct H as [H1 H2].
  rewrite !Z.sub_add. split_and!; try done; unfold date_ok, days_in_month in H2;
    repeat (apply andb_true_iff in H2 as [H2 ?]); repeat case_match; Z.to_euclidean_division_equations; lia.
Qed.

(** A time from year 0 to year 9999 prints as exactly the 29 bytes of an IMF-fixdate, and
    a reader of that format gets the same second back. *)
Theorem imf_fixdate_roundtrip t :
  0 <= tm_year (gmtime_r t) + 1900 <= 9999 ->
  format_imf_fixdate t = (imf_text t, IMF_FIXDATE_LEN) /\ read_imf (fst (format_imf_fixdate t)) = Some t.
Proof.
  intros Hy. destruct (gmtime_fields t) as (Hok & Hdays & Hmon & Hd & Hh & Hmi & Hs & Hw & Ht).
  assert (Hw7 : 0 <= tm_wday (gmtime_r t) < 7) by (rewrite Hw; apply Z.mod_pos_bound; lia).
  assert (HL : length (imf_text t) = IMF_FIXDATE_LEN).
  { unfold imf_text. rewrite !length_app, !pad_length by lia.
    rewrite (nth_length_3 imf_days), (nth_length_3 imf_months) by (apply days_ok || apply months_ok || (cbn [length imf_days imf_months]; lia)). reflexivity. }
  unfold format_imf_fixdate. rewrite HL, take_ge by lia. split; [done|]. cbn [fst]. unfold read_imf, imf_text.
  rewrite read_name_app by (apply days_ok || apply months_ok || (cbn [length imf_days imf_months]; lia)). cbn [mbind option_bind]. rewrite expect_app. cbn [mbind option_bind].
  repeat (rewrite read_pad by (cbn [length imf_days imf_months]; lia); cbn [mbind option_bind]; rewrite expect_app; cbn [mbind option_bind]).
  rewrite read_name_app by (apply days_ok || apply months_ok || (cbn [length imf_days imf_months]; lia)). cbn [mbind option_bind]. rewrite expect_app. cbn [mbind option_bind].
  repeat (rewrite read_pad by (cbn [length imf_days imf_months]; lia); cbn [mbind option_bind];
          (rewrite expect_app || rewrite <- (app_nil_r (B " GMT")), expect_app); cbn [mbind option_bind]).
  rewrite !Z2Nat.id, Hok, Hdays, <- Hw by lia. rewrite Z.eqb_refl, !(proj2 (Z.ltb_lt _ _)) by lia.
  rewrite bool_decide_eq_true_2 by done. cbn [andb]. f_equal. pose proof (Z.div_mod t 86400). lia.
Qed.

Lemma imf_fixdate_roundtrip_witness :
  format_imf_fixdate 784111777 = (B "Sun, 06 Nov 1994 08:49:37 GMT", IMF_FIXDATE_LEN) /\
  read_imf (fst (format_imf_fixdate 784111777)) = Some 784111777.
Proof. apply (imf_fixdate_roundtrip 784111777). vm_compute. split; discriminate. Defined.

(** From year 10000 on the text no longer fits: the buffer keeps 29 bytes while the
    returned length is 30. *)
Example imf_fixdate_overflow :
  format_imf_fixdate 253402300800 = (B "Sat, 01 Jan 10000 00:00:00 GM", 30%nat).
Proof. reflexivity. Qed.

(** *** The cache

    Over any sequence of clock readings, backwards steps included, the cached date is the
    date of the reading. *)
Definition date_cached (c : HttpDate) : Prop :=
  cached_second c = -1 \/ (buf c, len c) = format_imf_fixdate (cached_second c).

Lemma imf_fixdate_now_spec now c :
  now <> -1 -> date_cached c ->
  let '(text, c') := imf_fixdate_now now c in
  text = take IMF_FIXDATE_LEN (imf_text now) /\ date_cached c' /\ cached_second c' = now.
Proof.
  intros Hn Hc. unfold imf_fixdate_now. assert (HT : forall t, take (length (imf_text t)) (take IMF_FIXDATE_LEN (imf_text t)) =
    take IMF_FIXDATE_LEN (imf_text t)) by (intros t; apply take_ge; rewrite length_take; lia).
  destruct (Z.eqb_spec now (cached_second c)) as [->|].
  - destruct Hc as [?|Hc]; [done|]. injection Hc as Hb Hl. rewrite Hb, Hl. split_and!; [apply HT| |done].
    right. unfold format_imf_fixdate. by rewrite Hb, Hl.
  - unfold format_imf_fixdate. cbn [len buf cached_second]. split_and!; [apply HT|by right|done].
Qed.

Fixpoint dates (nows : list Z) (c : HttpDate) : list bytes :=
  match nows with [] => [] | now :: nows => let '(text, c') := imf_fixdate_now now c in text :: dates nows c' end.

Theorem date_cache_transparent nows :
  Forall (fun now => now <> -1) nows -> dates nows fresh_date = (fun now => take IMF_FIXDATE_LEN (imf_text now)) <$> nows.
Proof.
  intros H. assert (Hc : date_cached fresh_date) by (by left). revert Hc. generalize fresh_date as c.
  induction H as [|now nows Hn _ IH]; intros c0 Hc; [done|]. cbn [dates]. pose proof (imf_fixdate_now_spec now c0 Hn Hc) as HS.
  destruct (imf_fixdate_now now c0) as [text c']. destruct HS as (-> & Hc' & _). rewrite fmap_cons. f_equal. by apply IH.
Qed.

(** ** Reading an ISO 8601 time stamp back, to the millisecond *)
Definition read_iso (s : bytes) : option Z :=
  '(y, s) ← read_number 4 s; s ← expect (B "-") s;
  '(m, s) ← read_number 2 s; s ← expect (B "-") s;
  '(d, s) ← read_number 2 s; s ← expect (B "T") s;
  '(h, s) ← read_number 2 s; s ← expect (B ":") s;
  '(mi, s) ← read_number 2 s; s ← expect (B ":") s;
  '(sec, s) ← read_number 2 s; s ← expect (B ".") s;
  '(ms, s) ← read_number 3 s; s ← expect (B "Z") s;
  if bool_decide (s = []) && date_ok y m d && (h <? 24) && (mi <? 60) && (sec <? 60)
  then Some ((days_of_date y m d * 86400 + h * 3600 + mi * 60 + sec) * 1000 + ms) else None.

(** The UTC time stamp of a log entry names its instant to the millisecond. *)
Theorem iso_ms_roundtrip localtime tp :
  0 <= tp -> 0 <= tm_year (gmtime_r (tp / 1000000000)) + 1900 <= 9999 ->
  read_iso (format_time_iso_ms UTC localtime tp []) = Some (tp / 1000000).
Proof.
  intros Htp Hy. unfold format_time_iso_ms, to_tm. rewrite !Z.quot_div_nonneg, Z.rem_mod_nonneg by (try apply Z.div_pos; lia).
  set (t := tp / 1000000000) in *. destruct (gmtime_fields t) as (Hok & Hdays & Hmon & Hd & Hh & Hmi & Hs & Hw & Ht).
  pose proof (Z.mod_pos_bound (tp / 1000000) 1000) as Hms. unfold read_iso. cbn [app].
  repeat (rewrite read_pad by lia; cbn [mbind option_bind];
          (rewrite expect_app || rewrite <- (app_nil_r (B "Z")), expect_app); cbn [mbind option_bind]).
  rewrite Hok, Hdays, !(proj2 (Z.ltb_lt _ _)) by lia. rewrite bool_decide_eq_true_2 by done. cbn [andb]. f_equal.
  pose proof (Z.div_mod t 86400). subst t. Z.to_euclidean_division_equations; lia.
Qed.

Lemma iso_ms_roundtrip_witness :
  read_iso (format_time_iso_ms UTC gmtime_r 784111777123456789 []) = Some 784111777123.
Proof. apply (iso_ms_roundtrip gmtime_r 784111777123456789); [lia|]. vm_compute. split; discriminate. Defined.

(** ** Stopwatch *)
Section stopwatch_facts.
Import Stopwatch.
Context (unit : Z) (Hunit : 0 < unit).

(** The flags as a clock that never goes back records them. *)
Definition monotone (s : Stopwatch) : Prop :=
  forall i, (S i < length (flags_ s))%nat -> flag s i <= flag s (S i).

Definition deltas (s : Stopwatch) (k : nat) : Z :=
  fold_left (fun acc i => acc + duration_cast unit (flag s i - flag s (i - 1))) (seq 1 k) 0.

Lemma deltas_bounds s k :
  monotone s -> (k < length (flags_ s))%nat ->
  let T := flag s k - flag s 0 in
  0 <= T /\ 0 <= deltas s k /\ deltas s k * unit <= T /\ T <= (deltas s k + Z.of_nat k) * unit - Z.of_nat k.
Proof.
  intros Hm. induction k as [|k IH]; intros Hk T; subst T; [unfold deltas; simpl; lia|].
  destruct IH as (I1 & I2 & I3 & I4); [lia|]. specialize (Hm k ltac:(lia)).
  assert (E : deltas s (S k) = deltas s k + (flag s (S k) - flag s k) / unit).
  { unfold deltas. rewrite seq_S, fold_left_app. cbn [fold_left]. unfold duration_cast.
    replace (1 + k - 1)%nat with k by lia. change (1 + k)%nat with (S k). rewrite Z.quot_div_nonneg by lia. done. }
  pose proof (Z.div_mod (flag s (S k) - flag s k) unit) as HD. pose proof (Z.mod_pos_bound (flag s (S k) - flag s k) unit).
  assert (0 <= (flag s (S k) - flag s k) / unit) by (apply Z.div_pos; lia). rewrite E. nia.
Qed.

(** The average of a run is the documented quotient of the total time by the number of
    intervals, up to one unit: each interval is truncated before they are added. *)
Lemma average_delta_bounds s :
  monotone s -> (2 <= length (flags_ s))%nat -> Z.of_nat (length (flags_ s)) < 2 ^ 64 ->
  flag s (length (flags_ s) - 1) - flag s 0 < 2 ^ 63 ->
  exists q, average_delta unit s = Some q /\
    q <= total_time unit s / (Z.of_nat (length (flags_ s)) - 1) <= q + 1.
Proof.
  intros Hm Hl Hb Ht. set (k := (length (flags_ s) - 1)%nat) in *.
  destruct (deltas_bounds s k Hm ltac:(lia)) as (H1 & H2 & H3 & H4).
  assert (Ek : Z.of_nat (length (flags_ s)) - 1 = Z.of_nat k) by lia.
  unfold average_delta, total_time, duration_cast. fold k. change (fold_left _ _ _) with (deltas s k).
  rewrite Ek, Z.quot_div_nonneg, Z.mod_small, (proj2 (Z.eqb_neq _ _)) by lia.
  assert (deltas s k <= (flag s k - flag s 0) / unit) as Hle by (apply Z.div_le_lower_bound; lia).
  assert ((flag s k - flag s 0) / unit <= deltas s k + Z.of_nat k) as Hge.
  { apply Z.div_le_upper_bound; [lia|]. rewrite (Z.mul_comm unit). lia. }
  assert (deltas s k < 2 ^ 63) by nia. rewrite Z.mod_small by lia.
  assert (deltas s k / Z.of_nat k < 2 ^ 63) as Hq by (apply Z.div_lt_upper_bound; nia).
  rewrite (proj2 (Z.ltb_lt _ _) Hq). eexists; split; [done|]. split; [apply Z.div_le_mono; lia|].
  rewrite <- (Z.div_add (deltas s k) 1) by lia. apply Z.div_le_mono; lia.
Qed.
End stopwatch_facts.

(** A stopwatch that was only started divides by zero. *)
Example average_delta_undefined now s : Stopwatch.average_delta 1000000 (Stopwatch.start now s) = None.
Proof. reflexivity. Qed.

(** A report of [PrintingStopwatch] is written once: printing empties the flags, so the
    destructor after [finish] writes nothing more. *)
Lemma finish_prints_once u now s :
  PrintingStopwatch.destroy u (PrintingStopwatch.finish u now s) =
  PrintingStopwatch.printed (PrintingStopwatch.finish u now s).
Proof.
  unfold PrintingStopwatch.finish, PrintingStopwatch.destroy, PrintingStopwatch.print, PrintingStopwatch.flag. simpl.
  destruct (PrintingStopwatch.flags_ s); done.
Qed.

(** ** Retry schedule *)
Lemma exponential_backoff_bounds n base cap : 0 < base -> base <= cap -> base <= exponential_backoff n base cap <= cap.
Proof.
  intros Hb Hc. unfold exponential_backoff. assert (1 <= Z.shiftl 1 (Z.of_N (N.min n 20))); [|nia].
  rewrite Z.shiftl_1_l. pose proof (Z.pow_pos_nonneg 2 (Z.of_N (N.min n 20))). lia.
Qed.

Lemma exponential_backoff_mono n m base cap :
  0 < base -> (n <= m)%N -> exponential_backoff n base cap <= exponential_backoff m base cap.
Proof.
  intros Hb Hn. unfold exponential_backoff. rewrite !Z.shiftl_1_l.
  assert (2 ^ Z.of_N (N.min n 20) <= 2 ^ Z.of_N (N.min m 20)); [|nia]. apply Z.pow_le_mono_r; lia.
Qed.
