(* ===== verification/Chameleon.v ===== *)
(** * render-chameleon: terminal text

    The ANSI colours (base/colors.hpp), the glyph sets (base/glyphs.hpp), the layout
    primitives (base/layout.hpp) and the three renderers [Box], [Section] and [Table]
    (rendering/). Text is a byte string; [visible_width] is the code's own measure of how many
    columns it takes. Values passed to the builders are the texts [std::format] produced. *)

From S2P Require Import Prelude.

Definition ESC : ascii := "027"%char.
Definition nl : ascii := "010"%char.
Definition spaces (n : nat) : bytes := replicate n " "%char.

(** ** Colours

    The SGR codes, by style and colour: [code Bold Red] is [colors::bold_red]. *)
Module Colors.

Inductive color := Black | Red | Green | Yellow | Blue | Magenta | Cyan | White.
Inductive style := Foreground | Bold | Underline | Background | Hi | BoldHi | HiBackground.

Definition reset : bytes := ESC :: B "[0m".

Definition color_index (c : color) : N :=
  match c with
  | Black => 0 | Red => 1 | Green => 2 | Yellow => 3 | Blue => 4 | Magenta => 5 | Cyan => 6 | White => 7
  end.

Definition code (s : style) (c : color) : bytes :=
  let '(attribute, base) :=
    match s with
    | Foreground => (B "0;", 30%N) | Bold => (B "1;", 30%N) | Underline => (B "4;", 30%N) | Background => ([], 40%N)
    | Hi => (B "0;", 90%N) | BoldHi => (B "1;", 90%N) | HiBackground => (B "0;", 100%N)
    end in
  ESC :: B "[" ++ attribute ++ to_decimal (base + color_index c) ++ B "m".

Definition colorize (text code : bytes) : bytes := code ++ text ++ reset.

(** The [make_*] helpers: [make Bold Red] is [make_bold_red]. *)
Definition make (s : style) (c : color) (text : bytes) : bytes := colorize text (code s c).

End Colors.

(** ** Glyphs *)
Module Border.

Record Glyphs := {
  horizontal : bytes; vertical : bytes; top_left : bytes; top_right : bytes; bottom_left : bytes; bottom_right : bytes;
  tee_top : bytes; tee_bottom : bytes; tee_left : bytes; tee_right : bytes; cross : bytes
}.

Definition ascii : Glyphs :=
  {| horizontal := B "-"; vertical := B "|"; top_left := B "+"; top_right := B "+"; bottom_left := B "+";
     bottom_right := B "+"; tee_top := B "+"; tee_bottom := B "+"; tee_left := B "+"; tee_right := B "+"; cross := B "+" |}.

(** The box-drawing block: three bytes, of which the last is given. *)
Definition box_drawing (last : Ascii.ascii) : bytes := ["226"%char; "148"%char; last].

Definition unicode : Glyphs :=
  {| horizontal := box_drawing "128"; vertical := box_drawing "130"; top_left := box_drawing "140";
     top_right := box_drawing "144"; bottom_left := box_drawing "148"; bottom_right := box_drawing "152";
     tee_top := box_drawing "172"; tee_bottom := box_drawing "180"; tee_left := box_drawing "156";
     tee_right := box_drawing "164"; cross := box_drawing "188" |}%char.

End Border.

(** ** Layout *)
Inductive Align := Left | Center | Right.

(** [(c & 0xC0) == 0x80] *)
Definition is_continuation (c : ascii) : bool := (N.land (N_of_ascii c) 192 =? 128)%N.

(** A byte that is not a continuation adds one column. *)
Definition column_of (c : ascii) (w : nat) : nat := if is_continuation c then w else S w.

(** [visible_width]: [in_sgr] is the inner loop that looks for the ['m'] of an escape
    sequence, entered after its ["\033["]. *)
Fixpoint width_from (in_sgr : bool) (s : bytes) : nat :=
  match s with
  | [] => 0
  | c :: s' =>
      if in_sgr then width_from (negb (bool_decide (c = "m"%char))) s'
      else match s' with
           | d :: s'' => if bool_decide (c = ESC /\ d = "["%char) then width_from true s''
                         else column_of c (width_from false s')
           | [] => column_of c 0
           end
  end.

Definition visible_width (s : bytes) : nat := width_from false s.

(** [lines]: [cur] is the current substring, from [start]. *)
Fixpoint lines_from (cur s : bytes) : list bytes :=
  match s with
  | [] => [cur]
  | c :: s' => if bool_decide (c = nl) then cur :: lines_from [] s' else lines_from (cur ++ [c]) s'
  end.

Definition lines (s : bytes) : list bytes := lines_from [] s.

Definition newline (n : nat) : bytes := replicate n nl.
Definition hr (width : nat) (ch : ascii) : bytes := replicate width ch.

Fixpoint indent_loop (pad_str body : bytes) : bytes :=
  match body with
  | [] => []
  | c :: body' => c :: (if bool_decide (c = nl) && negb (bool_decide (body' = [])) then pad_str else []) ++
                  indent_loop pad_str body'
  end.

Definition indent (body : bytes) (n : nat) : bytes :=
  if (n =? 0) || bool_decide (body = []) then body else spaces n ++ indent_loop (spaces n) body.

Definition pad (t : bytes) (width : nat) (a : Align) : bytes :=
  let vw := visible_width t in
  if width <=? vw then t
  else let missing := width - vw in
       match a with
       | Left => t ++ spaces missing
       | Right => spaces missing ++ t
       | Center => spaces (missing / 2) ++ t ++ spaces (missing - missing / 2)
       end.

(** [run.append(s)], [count] times. *)
Definition run (count : nat) (s : bytes) : bytes := concat (replicate count s).

(** The widest of the lines, as the loops with [std::max] compute it. *)
Definition widest (ls : list bytes) (w : nat) : nat := fold_left (fun w l => Nat.max w (visible_width l)) ls w.

(** ** [Box] *)
Module Box.

Record Box := {
  body_ : bytes; title_ : bytes; glyphs_ : Border.Glyphs; border_style_ : bytes; padding_ : nat; terminate_ : bool
}.

Definition box (body : bytes) : Box :=
  {| body_ := body; title_ := []; glyphs_ := Border.unicode; border_style_ := []; padding_ := 1; terminate_ := false |}.

Definition title (b : Box) (t : bytes) : Box :=
  {| body_ := body_ b; title_ := t; glyphs_ := glyphs_ b; border_style_ := border_style_ b; padding_ := padding_ b;
     terminate_ := terminate_ b |}.
Definition border (b : Box) (g : Border.Glyphs) : Box :=
  {| body_ := body_ b; title_ := title_ b; glyphs_ := g; border_style_ := border_style_ b; padding_ := padding_ b;
     terminate_ := terminate_ b |}.
Definition border_style (b : Box) (ansi_prefix : bytes) : Box :=
  {| body_ := body_ b; title_ := title_ b; glyphs_ := glyphs_ b; border_style_ := ansi_prefix; padding_ := padding_ b;
     terminate_ := terminate_ b |}.
Definition padding (b : Box) (n : nat) : Box :=
  {| body_ := body_ b; title_ := title_ b; glyphs_ := glyphs_ b; border_style_ := border_style_ b; padding_ := n;
     terminate_ := terminate_ b |}.
Definition terminate (b : Box) (on : bool) : Box :=
  {| body_ := body_ b; title_ := title_ b; glyphs_ := glyphs_ b; border_style_ := border_style_ b; padding_ := padding_ b;
     terminate_ := on |}.

Definition span (b : Box) : nat :=
  let inner := widest (lines (body_ b)) 0 in
  let min_inner_for_title := if bool_decide (title_ b = []) then 0 else visible_width (title_ b) + 2 + 2 in
  Nat.max (inner + 2 * padding_ b) min_inner_for_title.

Definition wrap_border (b : Box) (s : bytes) : bytes :=
  if bool_decide (border_style_ b = []) then s else Colors.colorize s (border_style_ b).

Definition top (b : Box) : bytes :=
  let g := glyphs_ b in
  Border.top_left g ++
  (if bool_decide (title_ b = []) then run (span b) (Border.horizontal g)
   else let title_span := visible_width (title_ b) + 2 in
        let left := (span b - title_span) / 2 in
        let right := span b - title_span - left in
        run left (Border.horizontal g) ++ B " " ++ title_ b ++ B " " ++ run right (Border.horizontal g)) ++
  Border.top_right g.

Definition body_line (b : Box) (line : bytes) : bytes :=
  wrap_border b (Border.vertical (glyphs_ b)) ++ spaces (padding_ b) ++ line ++
  spaces (span b - 2 * padding_ b - visible_width line) ++ spaces (padding_ b) ++ wrap_border b (Border.vertical (glyphs_ b)).

Definition bottom (b : Box) : bytes :=
  Border.bottom_left (glyphs_ b) ++ run (span b) (Border.horizontal (glyphs_ b)) ++ Border.bottom_right (glyphs_ b).

Definition render (b : Box) : bytes :=
  wrap_border b (top b) ++ [nl] ++
  concat ((fun line => body_line b line ++ [nl]) <$> lines (body_ b)) ++
  wrap_border b (bottom b) ++ (if terminate_ b then [nl] else []).

End Box.

(** ** [Section] *)
Module Section_.

Record Section_ := {
  title_ : bytes; title_style_ : bytes; indent_ : nat; separator_ : bytes; terminate_ : bool; value_align_ : Align;
  rows_ : list (bytes * bytes)
}.

Definition section (title : bytes) : Section_ :=
  {| title_ := title; title_style_ := []; indent_ := 2; separator_ := B "  "; terminate_ := false; value_align_ := Left;
     rows_ := [] |}.

Definition row (s : Section_) (label value : bytes) : Section_ :=
  {| title_ := title_ s; title_style_ := title_style_ s; indent_ := indent_ s; separator_ := separator_ s;
     terminate_ := terminate_ s; value_align_ := value_align_ s; rows_ := rows_ s ++ [(label, value)] |}.
Definition title_style (s : Section_) (ansi_prefix : bytes) : Section_ :=
  {| title_ := title_ s; title_style_ := ansi_prefix; indent_ := indent_ s; separator_ := separator_ s;
     terminate_ := terminate_ s; value_align_ := value_align_ s; rows_ := rows_ s |}.
Definition indent_size (s : Section_) (n : nat) : Section_ :=
  {| title_ := title_ s; title_style_ := title_style_ s; indent_ := n; separator_ := separator_ s;
     terminate_ := terminate_ s; value_align_ := value_align_ s; rows_ := rows_ s |}.
Definition separator (s : Section_) (sep : bytes) : Section_ :=
  {| title_ := title_ s; title_style_ := title_style_ s; indent_ := indent_ s; separator_ := sep;
     terminate_ := terminate_ s; value_align_ := value_align_ s; rows_ := rows_ s |}.
Definition terminate (s : Section_) (on : bool) : Section_ :=
  {| title_ := title_ s; title_style_ := title_style_ s; indent_ := indent_ s; separator_ := separator_ s;
     terminate_ := on; value_align_ := value_align_ s; rows_ := rows_ s |}.
Definition value_align (s : Section_) (a : Align) : Section_ :=
  {| title_ := title_ s; title_style_ := title_style_ s; indent_ := indent_ s; separator_ := separator_ s;
     terminate_ := terminate_ s; value_align_ := a; rows_ := rows_ s |}.

Definition render_title (s : Section_) : bytes :=
  if bool_decide (title_ s = []) then []
  else if bool_decide (title_style_ s = []) then title_ s else Colors.colorize (title_ s) (title_style_ s).

Definition max_label (s : Section_) : nat := widest (fst <$> rows_ s) 0.
Definition value_col (s : Section_) : nat := indent_ s + max_label s + 1 + length (separator_ s).

Definition max_value_vw (s : Section_) : nat :=
  match value_align_ s with
  | Left => 0
  | _ => fold_left (fun w v => widest (lines v) w) (snd <$> rows_ s) 0
  end.

Definition render_value_line (s : Section_) (line : bytes) : bytes :=
  match value_align_ s with Left => line | a => pad line (max_value_vw s) a end.

Definition row_prefix (s : Section_) (label : bytes) : bytes :=
  spaces (indent_ s) ++ label ++ B ":" ++ spaces (max_label s - visible_width label + length (separator_ s)).

Fixpoint value_lines (s : Section_) (first : bool) (ls : list bytes) : bytes :=
  match ls with
  | [] => []
  | l :: ls' => (if first then [] else nl :: spaces (value_col s)) ++ render_value_line s l ++ value_lines s false ls'
  end.

Definition render_row (s : Section_) (out : bytes) (r : bytes * bytes) : bytes :=
  out ++ (if bool_decide (out = []) then [] else [nl]) ++ row_prefix s (fst r) ++ value_lines s true (lines (snd r)).

Definition render (s : Section_) : bytes :=
  fold_left (render_row s) (rows_ s) (render_title s) ++ (if terminate_ s then [nl] else []).

End Section_.

(** ** [Table] and [TableFromRange] *)
Module Table.

Record TableRenderOptions := {
  glyphs : Border.Glyphs; header_style_prefix : bytes; opt_min_width : nat; opt_terminate : bool;
  default_cell_align : Align; column_aligns : list Align
}.

Definition default_options : TableRenderOptions :=
  {| glyphs := Border.unicode; header_style_prefix := []; opt_min_width := 0; opt_terminate := false;
     default_cell_align := Left; column_aligns := [] |}.

Definition cell_align_for (opts : TableRenderOptions) (c : nat) : Align :=
  default (default_cell_align opts) (column_aligns opts !! c).

Section render.
Context (headers : list bytes) (cells_cm : list (list bytes)) (opts : TableRenderOptions).

Definition col_count : nat := if bool_decide (headers = []) then length cells_cm else length headers.
Definition row_count : nat := match cells_cm with [] => 0 | col :: _ => length col end.

(** [cells_cm[c][r]] when both indices are in range. *)
Definition cell (c r : nat) : option bytes := cells_cm !! c ≫= (.!! r).

Definition col_width (c : nat) : nat :=
  let w := opt_min_width opts in
  let w := match headers !! c with Some h => Nat.max w (visible_width h) | None => w end in
  match cells_cm !! c with Some col => fold_left (fun w cell => widest (lines cell) w) col w | None => w end.

Definition row_height (r : nat) : nat :=
  fold_left (fun h c => match cell c r with Some t => Nat.max h (length (lines t)) | None => h end) (seq 0 col_count) 1.

Definition columns (f : nat -> bytes) : bytes := concat (f <$> seq 0 col_count).

Definition emit_border (left junction right : bytes) : bytes :=
  left ++
  columns (fun c => run (col_width c + 2) (Border.horizontal (glyphs opts)) ++ (if S c <? col_count then junction else [])) ++
  right ++ [nl].

Definition emit_cell_line (text : bytes) (width : nat) (a : Align) : bytes :=
  Border.vertical (glyphs opts) ++ B " " ++ pad text width a ++ B " ".

Definition header_cell (c : nat) : bytes :=
  let header_text := default [] (headers !! c) in
  if bool_decide (header_style_prefix opts = []) then emit_cell_line header_text (col_width c) Left
  else Border.vertical (glyphs opts) ++ B " " ++
       Colors.colorize (pad header_text (col_width c) Left) (header_style_prefix opts) ++ B " ".

Definition end_line : bytes := Border.vertical (glyphs opts) ++ [nl].

(** The separator below the header and between rows. *)
Definition middle_border : bytes :=
  emit_border (Border.tee_left (glyphs opts)) (Border.cross (glyphs opts)) (Border.tee_right (glyphs opts)).

Definition header_rows : bytes :=
  if bool_decide (headers = []) then []
  else columns header_cell ++ end_line ++ (if 0 <? row_count then middle_border else []).

Definition split_cell (r c : nat) : list bytes := match cell c r with Some t => lines t | None => [[]] end.

Definition data_line (r line_idx : nat) : bytes :=
  columns (fun c => emit_cell_line (default [] (split_cell r c !! line_idx)) (col_width c) (cell_align_for opts c)) ++ end_line.

Definition data_row (r : nat) : bytes :=
  concat (data_line r <$> seq 0 (row_height r)) ++ (if S r <? row_count then middle_border else []).

Definition render_table : bytes :=
  if bool_decide (headers = []) && bool_decide (cells_cm = []) then []
  else
    let g := glyphs opts in
    let out := emit_border (Border.top_left g) (Border.tee_top g) (Border.top_right g) ++ header_rows ++
               concat (data_row <$> seq 0 row_count) ++
               emit_border (Border.bottom_left g) (Border.tee_bottom g) (Border.bottom_right g) in
    if negb (opt_terminate opts) && bool_decide (last out = Some nl) then removelast out else out.

End render.

(** *** The builders

    [Table] collects rows under its headers, [TableFromRange] one column per accessor. *)
Record Table := { headers_ : list bytes; cells_ : list (list bytes); opts_ : TableRenderOptions }.

Definition table : Table := {| headers_ := []; cells_ := []; opts_ := default_options |}.

(** [cells_.resize(n)]: keeps the first [n] columns, adds empty ones. *)
Definition resize {A} (n : nat) (x : A) (l : list A) : list A := take n l ++ replicate (n - length l) x.

Definition headers (t : Table) (names : list bytes) : Table :=
  {| headers_ := names; cells_ := resize (length names) [] (cells_ t); opts_ := opts_ t |}.

Definition add_row (t : Table) (values : list bytes) : result exn Table :=
  if decide (length (cells_ t) = length values) then
    Ok {| headers_ := headers_ t; cells_ := zip_with (fun col v => col ++ [v]) (cells_ t) values; opts_ := opts_ t |}
  else Err (InvalidArgument (B "chameleon::Table::add_row — arity must match headers(...) count")).

(** [TableFromRange::column]: the cells are computed at once from the range. *)
Definition column {A} (range : list A) (t : Table) (name : bytes) (fn : A -> bytes) : Table :=
  {| headers_ := headers_ t ++ [name]; cells_ := cells_ t ++ [fn <$> range]; opts_ := opts_ t |}.

Definition with_opts (t : Table) (o : TableRenderOptions) : Table := {| headers_ := headers_ t; cells_ := cells_ t; opts_ := o |}.

Definition border (t : Table) (g : Border.Glyphs) : Table :=
  let o := opts_ t in
  with_opts t {| glyphs := g; header_style_prefix := header_style_prefix o; opt_min_width := opt_min_width o;
                 opt_terminate := opt_terminate o; default_cell_align := default_cell_align o; column_aligns := column_aligns o |}.
Definition header_style (t : Table) (p : bytes) : Table :=
  let o := opts_ t in
  with_opts t {| glyphs := glyphs o; header_style_prefix := p; opt_min_width := opt_min_width o;
                 opt_terminate := opt_terminate o; default_cell_align := default_cell_align o; column_aligns := column_aligns o |}.
Definition min_width (t : Table) (w : nat) : Table :=
  let o := opts_ t in
  with_opts t {| glyphs := glyphs o; header_style_prefix := header_style_prefix o; opt_min_width := w;
                 opt_terminate := opt_terminate o; default_cell_align := default_cell_align o; column_aligns := column_aligns o |}.
Definition terminate (t : Table) (on : bool) : Table :=
  let o := opts_ t in
  with_opts t {| glyphs := glyphs o; header_style_prefix := header_style_prefix o; opt_min_width := opt_min_width o;
                 opt_terminate := on; default_cell_align := default_cell_align o; column_aligns := column_aligns o |}.
Definition align (t : Table) (a : Align) : Table :=
  let o := opts_ t in
  with_opts t {| glyphs := glyphs o; header_style_prefix := header_style_prefix o; opt_min_width := opt_min_width o;
                 opt_terminate := opt_terminate o; default_cell_align := a; column_aligns := column_aligns o |}.

Definition column_align (t : Table) (index : nat) (a : Align) : Table :=
  let o := opts_ t in
  let aligns := if length (column_aligns o) <=? index then resize (S index) (default_cell_align o) (column_aligns o)
                else column_aligns o in
  with_opts t {| glyphs := glyphs o; header_style_prefix := header_style_prefix o; opt_min_width := opt_min_width o;
                 opt_terminate := opt_terminate o; default_cell_align := default_cell_align o;
                 column_aligns := <[index := a]> aligns |}.

Definition render (t : Table) : bytes := render_table (headers_ t) (cells_ t) (opts_ t).

End Table.

(** ** Visible width

    Text is complete when no escape sequence is left open at its end: what follows it then
    keeps its own width. *)
Fixpoint complete_from (in_sgr : bool) (s : bytes) : bool :=
  match s with
  | [] => negb in_sgr
  | c :: s' =>
      if in_sgr then complete_from (negb (bool_decide (c = "m"%char))) s'
      else match s' with
           | d :: s'' => if bool_decide (c = ESC /\ d = "["%char) then complete_from true s'' else complete_from false s'
           | [] => negb (bool_decide (c = ESC))
           end
  end.

Definition complete (s : bytes) : Prop := complete_from false s = true.

(** Induction that steps over the two bytes which open a sequence. *)
Lemma bytes_ind2 (P : bytes -> Prop) :
  P [] -> (forall c s, P s -> (forall d s', s = d :: s' -> P s') -> P (c :: s)) -> forall s, P s.
Proof.
  intros H0 Hs s. assert (P s /\ forall d s', s = d :: s' -> P s') as [H _]; [|done].
  induction s as [|c s [IH1 IH2]]; [by split|]. split; [by apply Hs|by intros d s' [= -> ->]].
Qed.

Lemma width_from_app b s t :
  complete_from b s = true ->
  width_from b (s ++ t) = width_from b s + width_from false t /\ complete_from b (s ++ t) = complete_from false t.
Proof.
  revert b. induction s as [|c s IH IH2] using bytes_ind2; intros b; [by destruct b|].
  destruct b; [apply IH|]. cbn [complete_from width_from app]. destruct s as [|d s].
  - intros Hc. cbn [app]. destruct t as [|d t]; [unfold column_of; by destruct (is_continuation c)|].
    rewrite bool_decide_eq_false_2 by (intros [-> _]; by rewrite bool_decide_eq_true_2 in Hc).
    unfold column_of. by destruct (is_continuation c).
  - cbn [app]. case_bool_decide; intros Hc; [by apply (IH2 d s)|]. destruct (IH false Hc) as [E1 E2].
    change (d :: s ++ t) with ((d :: s) ++ t). rewrite E1, E2. unfold column_of. by destruct (is_continuation c).
Qed.

Lemma visible_width_app s t : complete s -> visible_width (s ++ t) = visible_width s + visible_width t.
Proof. intros H. by apply width_from_app. Qed.

Lemma complete_app s t : complete s -> complete t -> complete (s ++ t).
Proof. intros H H'. unfold complete. by rewrite (proj2 (width_from_app false s t H)). Qed.

(** Text that may stand in a rendered line: complete, on one line, and of the given width. *)
Record fits (w : nat) (s : bytes) : Prop := {
  fits_complete : complete s;
  fits_line : nl ∉ s;
  fits_width : visible_width s = w
}.

Lemma fits_app v w s t : fits v s -> fits w t -> fits (v + w) (s ++ t).
Proof.
  intros [C1 L1 W1] [C2 L2 W2]. split; [by apply complete_app|set_solver|].
  rewrite visible_width_app by done. lia.
Qed.

Lemma fits_nil : fits 0 [].
Proof. split; [done|set_solver|done]. Qed.

Lemma fits_run v n s : fits v s -> fits (n * v) (run n s).
Proof.
  intros H. induction n as [|n IH]; [apply fits_nil|]. cbn. by apply (fits_app v).
Qed.

Lemma fits_spaces n : fits n (spaces n).
Proof.
  assert (E : spaces n = run n (B " ")) by (induction n as [|n IH]; [done|]; cbn in *; by f_equal).
  rewrite E. replace n with (n * 1) at 1 by lia. apply fits_run. split; [done|by apply (bool_decide_eq_true_1 _)|done].
Qed.

Lemma fits_space : fits 1 (B " ").
Proof. apply (fits_spaces 1). Qed.

Lemma fits_eq v w s : fits v s -> v = w -> fits w s.
Proof. by intros ? <-. Qed.

Lemma fits_columns (f : nat -> bytes) (w : nat -> nat) l :
  (forall c, c ∈ l -> fits (w c) (f c)) -> fits (sum_list_with w l) (concat (f <$> l)).
Proof.
  induction l as [|c l IH]; intros H; [apply fits_nil|]. cbn. apply fits_app; [apply H; left|].
  apply IH. intros c' Hc. apply H. by right.
Qed.

(** [pad] reaches the width and never truncates. *)
Lemma fits_pad v w a t : fits v t -> v <= w -> fits w (pad t w a).
Proof.
  intros H Hv. unfold pad. rewrite (fits_width _ _ H). destruct (Nat.leb_spec w v); [by replace w with v by lia|].
  destruct a; eapply fits_eq; repeat (apply fits_app || apply fits_spaces || exact H);
    try lia. pose proof (Nat.Div0.div_le_upper_bound (w - v) 2 (w - v)). lia.
Qed.

(** [colorize] with an SGR prefix changes nothing visible. *)
Lemma fits_colorize v t code : fits v t -> fits 0 code -> fits v (Colors.colorize t code).
Proof.
  intros H Hc. eapply fits_eq; [apply fits_app; [exact Hc|apply fits_app; [exact H|]]|apply Nat.add_0_r].
  split; [done|by apply (bool_decide_eq_true_1 _)|done].
Qed.

(** Every colour code is such a prefix. *)
Lemma fits_code s c : fits 0 (Colors.code s c).
Proof. destruct s, c; (split; [done|by apply (bool_decide_eq_true_1 _)|done]). Qed.

Lemma make_visible s c v t : fits v t -> fits v (Colors.make s c t).
Proof. intros H. by apply fits_colorize, fits_code. Qed.

(** ** Lines *)
Lemma lines_from_split cur s :
  lines_from cur s = match split_on nl s with p :: ps => (cur ++ p) :: ps | [] => [cur] end.
Proof.
  revert cur. induction s as [|c s IH]; intros cur; simpl; [by rewrite app_nil_r|].
  case_bool_decide; case_decide; try done.
  - rewrite app_nil_r. f_equal. rewrite IH. destruct (split_on nl s) eqn:E; [by apply split_on_not_nil in E|done].
  - rewrite IH. destruct (split_on nl s) eqn:E; [by apply split_on_not_nil in E|]. by rewrite <- app_assoc.
Qed.

(** [lines] is splitting at the newlines. *)
Lemma lines_split s : lines s = split_on nl s.
Proof.
  unfold lines. rewrite lines_from_split. destruct (split_on nl s) eqn:E; [by apply split_on_not_nil in E|done].
Qed.

Definition unlines (L : list bytes) : bytes := concat ((fun l => l ++ [nl]) <$> L).

Lemma unlines_app L1 L2 : unlines (L1 ++ L2) = unlines L1 ++ unlines L2.
Proof. unfold unlines. by rewrite fmap_app, concat_app. Qed.

Lemma lines_unlines L t : Forall (fun l => nl ∉ l) L -> lines (unlines L ++ t) = L ++ lines t.
Proof.
  intros H. rewrite !lines_split. induction H as [|l L Hl _ IH]; [done|].
  change (unlines (l :: L)) with ((l ++ [nl]) ++ unlines L). rewrite <- !app_assoc. cbn [app].
  rewrite split_on_app by done. by rewrite IH.
Qed.

Lemma lines_no_nl s : Forall (fun l => nl ∉ l) (lines s).
Proof. rewrite lines_split. apply split_on_Forall. Qed.

(** [n] whole lines, each of visible width [w]. *)
Definition block (n w : nat) (s : bytes) : Prop := exists L, s = unlines L /\ length L = n /\ Forall (fits w) L.

Lemma block_nil w : block 0 w [].
Proof. by exists []. Qed.

Lemma block_line w l : fits w l -> block 1 w (l ++ [nl]).
Proof. exists [l]. split_and!; [unfold unlines; cbn; by rewrite app_nil_r|done|by constructor]. Qed.

Lemma block_app m n w s t : block m w s -> block n w t -> block (m + n) w (s ++ t).
Proof.
  intros (L1 & -> & <- & H1) (L2 & -> & <- & H2). exists (L1 ++ L2).
  split_and!; [by rewrite unlines_app|by rewrite length_app|by apply Forall_app].
Qed.

Lemma block_rows (f : nat -> bytes) (h : nat -> nat) w l :
  (forall r, r ∈ l -> block (h r) w (f r)) -> block (sum_list_with h l) w (concat (f <$> l)).
Proof.
  induction l as [|r l IH]; intros H; [apply block_nil|]. cbn. apply block_app; [apply H; left|].
  apply IH. intros r' Hr. apply H. by right.
Qed.

(** ** Widths *)
Lemma widest_ge ls w : w <= widest ls w.
Proof. unfold widest. revert w. induction ls as [|l ls IH]; intros w; simpl; [done|]. etrans; [|apply IH]. lia. Qed.

Lemma widest_elem ls w l : l ∈ ls -> visible_width l <= widest ls w.
Proof.
  revert w. induction ls as [|x ls IH]; intros w Hl; [set_solver|]. apply elem_of_cons in Hl as [->|Hl]; [|by apply IH].
  etrans; [|apply (widest_ge ls)]. lia.
Qed.

Lemma widest_cells_ge col w : w <= fold_left (fun w cell => widest (lines cell) w) col w.
Proof. revert w. induction col as [|c col IH]; intros w; simpl; [done|]. etrans; [apply widest_ge|apply IH]. Qed.

Lemma widest_cells_elem col w c l :
  c ∈ col -> l ∈ lines c -> visible_width l <= fold_left (fun w cell => widest (lines cell) w) col w.
Proof.
  revert w. induction col as [|x col IH]; intros w Hc Hl; [set_solver|].
  apply elem_of_cons in Hc as [->|Hc]; [|by apply IH]. simpl. etrans; [by apply widest_elem|apply widest_cells_ge].
Qed.

(** ** Tables are rectangular *)
Definition glyphs_ok (g : Border.Glyphs) : Prop :=
  Forall (fits 1) [Border.horizontal g; Border.vertical g; Border.top_left g; Border.top_right g; Border.bottom_left g;
                   Border.bottom_right g; Border.tee_top g; Border.tee_bottom g; Border.tee_left g; Border.tee_right g;
                   Border.cross g].

Lemma unicode_ok : glyphs_ok Border.unicode.
Proof. repeat constructor; try done; by apply (bool_decide_eq_true_1 _). Qed.

Lemma ascii_ok : glyphs_ok Border.ascii.
Proof. repeat constructor; try done; by apply (bool_decide_eq_true_1 _). Qed.

Section table_facts.
Import Table.
Context (headers : list bytes) (cells_cm : list (list bytes)) (opts : TableRenderOptions).
Hypothesis Hglyphs : glyphs_ok (glyphs opts).
Hypothesis Hstyle : fits 0 (header_style_prefix opts).
Hypothesis Hheaders : Forall (fun h => complete h /\ nl ∉ h) headers.
Hypothesis Hcells : Forall (Forall (fun cell => Forall complete (lines cell))) cells_cm.

Abbreviation n := (col_count headers cells_cm).
Abbreviation cw := (col_width headers cells_cm opts).

(** The width of every line: one bar, and per column its width, two spaces and a bar. *)
Definition table_width : nat := 1 + sum_list_with (fun c => cw c + 3) (seq 0 n).

Ltac glyph := let H := fresh in pose proof Hglyphs as H; unfold glyphs_ok in H; rewrite !Forall_cons in H; by destruct_and! H.

Lemma sum_list_with_ext {A} (f g : A -> nat) l : (forall x, x ∈ l -> f x = g x) -> sum_list_with f l = sum_list_with g l.
Proof. induction l as [|x l IH]; intros H; simpl; [done|]. rewrite H by left. rewrite IH; [done|]. intros y Hy. apply H. by right. Qed.

Lemma border_sum (w : nat -> nat) k :
  0 < k -> 1 + sum_list_with (fun c => w c + (if S c <? k then 1 else 0)) (seq 0 k) = sum_list_with (fun c => w c + 1) (seq 0 k).
Proof.
  intros Hk. destruct k as [|k]; [lia|]. rewrite seq_S, !sum_list_with_app.
  rewrite (sum_list_with_ext _ (fun c => w c + 1) (seq 0 k)).
  - cbn [sum_list_with Nat.add]. rewrite (proj2 (Nat.ltb_ge _ _)) by lia. lia.
  - intros c Hc%elem_of_seq. rewrite (proj2 (Nat.ltb_lt _ _)) by lia. done.
Qed.

Lemma header_width c h : headers !! c = Some h -> visible_width h <= cw c.
Proof.
  intros E. unfold col_width. rewrite E. destruct (cells_cm !! c); [|lia].
  etrans; [|apply widest_cells_ge]. lia.
Qed.

Lemma cell_width c r t l : cell cells_cm c r = Some t -> l ∈ lines t -> visible_width l <= cw c.
Proof.
  unfold cell, col_width. destruct (cells_cm !! c) as [col|]; [|done]. simpl. intros Ht Hl.
  eapply widest_cells_elem; [|done]. by eapply list_elem_of_lookup_2.
Qed.

Lemma border_fits left junction right :
  0 < n -> fits 1 left -> fits 1 junction -> fits 1 right ->
  block 1 table_width (emit_border headers cells_cm opts left junction right).
Proof.
  intros Hn Hl Hj Hr. unfold emit_border, columns. rewrite !app_assoc. apply block_line. rewrite <- app_assoc.
  eapply fits_eq.
  - apply fits_app; [exact Hl|]. apply fits_app; [|exact Hr].
    apply (fits_columns _ (fun c => (cw c + 2) + (if S c <? n then 1 else 0))). intros c _. apply fits_app.
    + eapply fits_eq; [apply fits_run; glyph|lia].
    + destruct (S c <? n); [done|apply fits_nil].
  - unfold table_width. pose proof (border_sum (fun c => cw c + 2) n Hn) as E. cbv beta in E.
    rewrite (sum_list_with_ext (fun c => cw c + 3) (fun c => cw c + 2 + 1)) by lia. lia.
Qed.

Lemma cell_line_fits v t c a : fits v t -> v <= cw c -> fits (cw c + 3) (emit_cell_line opts t (cw c) a).
Proof.
  intros Ht Hv. eapply fits_eq.
  - apply fits_app; [glyph|]. apply fits_app; [apply fits_space|]. apply fits_app; [by apply (fits_pad v)|apply fits_space].
  - lia.
Qed.

Lemma header_cell_fits c : fits (cw c + 3) (header_cell headers cells_cm opts c).
Proof.
  assert (exists v, fits v (default [] (headers !! c)) /\ v <= cw c) as (v & Hv & Hle).
  { destruct (headers !! c) as [h|] eqn:E; [|exists 0; split; [apply fits_nil|lia]].
    exists (visible_width h). split; [|by apply header_width].
    pose proof (Forall_lookup_1 _ _ _ _ Hheaders E) as [? ?]. by split. }
  unfold header_cell. case_bool_decide; [by apply (cell_line_fits v)|]. eapply fits_eq.
  - apply fits_app; [glyph|]. apply fits_app; [apply fits_space|].
    apply fits_app; [apply fits_colorize; [by apply (fits_pad v)|exact Hstyle]|apply fits_space].
  - lia.
Qed.

Lemma end_of_line (f : nat -> bytes) :
  (forall c, fits (cw c + 3) (f c)) -> block 1 table_width (columns headers cells_cm f ++ end_line opts).
Proof.
  intros Hf. unfold end_line, columns. rewrite app_assoc. apply block_line. eapply fits_eq.
  - apply fits_app; [by apply (fits_columns _ (fun c => cw c + 3))|glyph].
  - unfold table_width. lia.
Qed.

Lemma split_cell_fits r c i :
  exists v, fits v (default [] (split_cell cells_cm r c !! i)) /\ v <= cw c.
Proof.
  unfold split_cell. destruct (cell cells_cm c r) as [t|] eqn:E; [|exists 0; split; [by destruct i; apply fits_nil|lia]].
  destruct (lines t !! i) as [l|] eqn:El; [|exists 0; split; [apply fits_nil|lia]].
  exists (visible_width l). split; [|eapply cell_width; [done|by eapply list_elem_of_lookup_2]].
  unfold cell in E. destruct (cells_cm !! c) as [col|] eqn:Ec; [|done]. cbn in E.
  pose proof (Forall_lookup_1 _ _ _ _ (Forall_lookup_1 _ _ _ _ (Forall_lookup_1 _ _ _ _ Hcells Ec) E) El).
  split; [done|exact (Forall_lookup_1 _ _ _ _ (lines_no_nl t) El)|done].
Qed.

Lemma middle_border_fits : 0 < n -> block 1 table_width (middle_border headers cells_cm opts).
Proof. intros Hn. apply border_fits; [done|glyph..]. Qed.

Lemma data_row_fits r :
  0 < n -> block (row_height headers cells_cm r + (if S r <? row_count cells_cm then 1 else 0)) table_width
                 (data_row headers cells_cm opts r).
Proof.
  intros Hn. unfold data_row. apply block_app.
  - rewrite <- (length_seq (row_height headers cells_cm r) 0) at 1.
    replace (length (seq 0 (row_height headers cells_cm r))) with
      (sum_list_with (fun _ => 1) (seq 0 (row_height headers cells_cm r))).
    + apply (block_rows _ (fun _ => 1)). intros i _. apply end_of_line. intros c.
      destruct (split_cell_fits r c i) as (v & Hv & Hle). by apply (cell_line_fits v).
    + induction (seq _ _) as [|x l IH]; simpl; [done|]. by rewrite IH.
  - destruct (S r <? row_count cells_cm); [by apply middle_border_fits|apply block_nil].
Qed.

(** The number of lines: the two borders, the header with its separator, and the rows
    with the separators between them. *)
Definition header_lines : nat := if bool_decide (headers = []) then 0 else 1 + (if 0 <? row_count cells_cm then 1 else 0).
Definition table_height : nat :=
  1 + (header_lines +
  (sum_list_with (fun r => row_height headers cells_cm r + (if S r <? row_count cells_cm then 1 else 0))
                 (seq 0 (row_count cells_cm)) + 1)).

Lemma header_rows_fits : 0 < n -> block header_lines table_width (header_rows headers cells_cm opts).
Proof.
  intros Hn. unfold header_rows, header_lines. case_bool_decide; [apply block_nil|].
  rewrite app_assoc. apply block_app; [apply end_of_line, header_cell_fits|].
  destruct (0 <? row_count cells_cm); [by apply middle_border_fits|apply block_nil].
Qed.

Lemma lines_removelast L : L <> [] -> Forall (fun l => nl ∉ l) L -> lines (removelast (unlines L)) = L.
Proof.
  intros Hne H. destruct (exists_last Hne) as (L' & l & ->). rewrite unlines_app. unfold unlines at 2. cbn.
  rewrite app_nil_r, app_assoc, removelast_last. apply Forall_app in H as [H1 H2]. rewrite lines_unlines by done.
  f_equal. rewrite lines_split. apply split_on_no_sep. by apply Forall_cons_1 in H2 as [? _].
Qed.

Lemma last_unlines L : L <> [] -> last (unlines L) = Some nl.
Proof.
  intros Hne. destruct (exists_last Hne) as (L' & l & ->). rewrite unlines_app. unfold unlines at 2. cbn.
  by rewrite app_nil_r, app_assoc, last_snoc.
Qed.

Lemma table_block :
  ~ (headers = [] /\ cells_cm = []) ->
  exists L, length L = table_height /\ Forall (fits table_width) L /\
    lines (render_table headers cells_cm opts) = L ++ (if opt_terminate opts then [[]] else []).
Proof.
  intros Hne. assert (Hn : 0 < n).
  { unfold col_count. case_bool_decide; [destruct cells_cm|destruct headers]; simpl; [naive_solver|lia|done|lia]. }
  unfold render_table. replace (bool_decide (headers = []) && bool_decide (cells_cm = [])) with false
    by (symmetry; rewrite <- bool_decide_and; by apply bool_decide_eq_false_2).
  set (out := emit_border _ _ _ _ _ _ ++ _). assert (Hb : block table_height table_width out).
  { apply block_app; [apply border_fits; [done|glyph..]|]. apply block_app; [by apply header_rows_fits|].
    apply block_app; [apply block_rows; intros; by apply data_row_fits|apply border_fits; [done|glyph..]]. }
  destruct Hb as (L & -> & HL & HF). exists L. split_and!; [done..|].
  assert (HN : Forall (fun l => nl ∉ l) L) by (eapply Forall_impl; [exact HF|by intros ? []]).
  assert (L <> []) as HL0 by (intros ->; unfold table_height in HL; simpl in HL; lia).
  rewrite last_unlines by done. rewrite bool_decide_eq_true_2, andb_true_r by done. destruct (opt_terminate opts); simpl.
  - rewrite <- (app_nil_r (unlines L)) at 1. by rewrite lines_unlines.
  - by rewrite lines_removelast, app_nil_r.
Qed.
End table_facts.

(** A table is a rectangle: whatever the headers, the cells (which may span lines and carry
    colours), the alignments and the options, the text has exactly the expected lines and every one of
    them takes the same number of columns. *)
Theorem table_rectangular t :
  let o := Table.opts_ t in
  glyphs_ok (Table.glyphs o) -> fits 0 (Table.header_style_prefix o) ->
  Forall (fun h => complete h /\ nl ∉ h) (Table.headers_ t) ->
  Forall (Forall (fun cell => Forall complete (lines cell))) (Table.cells_ t) ->
  ~ (Table.headers_ t = [] /\ Table.cells_ t = []) ->
  exists L, lines (Table.render t) = L ++ (if Table.opt_terminate o then [[]] else []) /\
    length L = table_height (Table.headers_ t) (Table.cells_ t) /\
    Forall (fun l => visible_width l = table_width (Table.headers_ t) (Table.cells_ t) o) L.
Proof.
  intros o H1 H2 H3 H4 H5. destruct (table_block (Table.headers_ t) (Table.cells_ t) o H1 H2 H3 H4 H5) as (L & HL & HF & E).
  exists L. split_and!; [exact E|done|]. eapply Forall_impl; [exact HF|by intros ? []].
Qed.

Definition sample_table : Table.Table :=
  Table.header_style
    (Table.column_align
       (Table.column [B "a"; "098"%char :: nl :: B "cd"] (Table.column [1; 22] Table.table (B "n") (fun k => to_decimal (N.of_nat k)))
                     (B "text") (fun s => s)) 0 Right)
    (Colors.code Colors.Bold Colors.Red).

Lemma table_rectangular_witness :
  exists L, lines (Table.render sample_table) = L /\ length L = 8 /\ Forall (fun l => visible_width l = 13) L.
Proof.
  destruct (table_rectangular sample_table) as (L & E & HL & HF).
  - exact unicode_ok.
  - apply fits_code.
  - repeat constructor; by apply (bool_decide_eq_true_1 _).
  - repeat constructor.
  - by intros [? _].
  - exists L. split_and!; [by rewrite E, app_nil_r|exact HL|exact HF].
Defined.

(** ** Boxes are rectangular *)
Section box_facts.
Import Box.
Context (b : Box).
Hypothesis Hglyphs : glyphs_ok (glyphs_ b).
Hypothesis Hstyle : fits 0 (border_style_ b).
Hypothesis Htitle : complete (title_ b) /\ nl ∉ title_ b.
Hypothesis Hbody : Forall complete (lines (body_ b)).

Ltac glyph := let H := fresh in pose proof Hglyphs as H; unfold glyphs_ok in H; rewrite !Forall_cons in H; by destruct_and! H.

Lemma wrap_border_fits v s : fits v s -> fits v (wrap_border b s).
Proof. intros H. unfold wrap_border. case_bool_decide; [done|by apply fits_colorize]. Qed.

Lemma horizontal_fits k : fits k (run k (Border.horizontal (glyphs_ b))).
Proof. eapply fits_eq; [apply fits_run; glyph|lia]. Qed.

Lemma span_title : title_ b <> [] -> visible_width (title_ b) + 4 <= span b.
Proof. intros H. unfold span. rewrite bool_decide_eq_false_2 by done. lia. Qed.

Lemma span_line l : l ∈ lines (body_ b) -> visible_width l + 2 * padding_ b <= span b.
Proof. intros H. unfold span. pose proof (widest_elem _ 0 _ H). lia. Qed.

Lemma top_fits : fits (span b + 2) (top b).
Proof.
  unfold top. match goal with |- fits _ (_ ++ ?m ++ _) => assert (Hm : fits (span b) m) end.
  - case_bool_decide as E; [apply horizontal_fits|]. pose proof (span_title E). destruct Htitle.
    pose proof (Nat.Div0.div_le_upper_bound (span b - (visible_width (title_ b) + 2)) 2
      (span b - (visible_width (title_ b) + 2)) ltac:(lia)). eapply fits_eq.
    + apply fits_app; [apply horizontal_fits|]. apply fits_app; [apply fits_space|]. apply fits_app; [by split|].
      apply fits_app; [apply fits_space|apply horizontal_fits].
    + lia.
  - eapply fits_eq; [apply fits_app; [glyph|apply fits_app; [exact Hm|glyph]]|lia].
Qed.

Lemma body_line_fits l : l ∈ lines (body_ b) -> fits (span b + 2) (body_line b l).
Proof.
  intros H. pose proof (span_line l H). pose proof (proj1 (Forall_forall _ _) Hbody l H).
  pose proof (proj1 (Forall_forall _ _) (lines_no_nl (body_ b)) l H). unfold body_line. eapply fits_eq.
  - apply fits_app; [apply wrap_border_fits; glyph|]. apply fits_app; [apply fits_spaces|].
    apply fits_app; [by split|]. apply fits_app; [apply fits_spaces|]. apply fits_app; [apply fits_spaces|].
    apply wrap_border_fits; glyph.
  - lia.
Qed.

Lemma bottom_fits : fits (span b + 2) (bottom b).
Proof.
  unfold bottom. eapply fits_eq; [apply fits_app; [glyph|apply fits_app; [apply horizontal_fits|glyph]]|lia].
Qed.

Lemma box_lines :
  lines (render b) =
  wrap_border b (top b) :: (body_line b <$> lines (body_ b)) ++ [wrap_border b (bottom b)] ++ (if terminate_ b then [[]] else []).
Proof.
  pose proof (fits_line _ _ (wrap_border_fits _ _ top_fits)) as Ht. pose proof (fits_line _ _ (wrap_border_fits _ _ bottom_fits)) as Hb.
  assert (E : render b = unlines (wrap_border b (top b) :: (body_line b <$> lines (body_ b))) ++
                         (wrap_border b (bottom b) ++ if terminate_ b then [nl] else [])).
  { unfold render, unlines. rewrite fmap_cons, <- list_fmap_compose. cbn [concat]. by rewrite <- !app_assoc. }
  rewrite E, lines_unlines.
  - cbn [app]. f_equal. f_equal. rewrite lines_split. destruct (terminate_ b).
    + by rewrite split_on_app.
    + rewrite app_nil_r. by rewrite split_on_no_sep.
  - constructor; [done|]. apply Forall_forall. intros x (l & -> & Hl)%list_elem_of_fmap.
    apply (fits_line _ _ (body_line_fits l Hl)).
Qed.
End box_facts.

(** A box has one line per line of its body between its two borders, all of the same width. *)
Theorem box_rectangular b :
  glyphs_ok (Box.glyphs_ b) -> fits 0 (Box.border_style_ b) -> complete (Box.title_ b) -> nl ∉ Box.title_ b ->
  Forall complete (lines (Box.body_ b)) ->
  exists L, lines (Box.render b) = L ++ (if Box.terminate_ b then [[]] else []) /\
    length L = length (lines (Box.body_ b)) + 2 /\ Forall (fun l => visible_width l = Box.span b + 2) L.
Proof.
  intros H1 H2 H3 H4 H5. rewrite box_lines by done. eexists (_ :: _ ++ [_]). split_and!.
  - cbn [app]. by rewrite <- app_assoc.
  - cbn [length]. rewrite length_app, length_fmap. simpl. lia.
  - constructor; [apply wrap_border_fits, top_fits; done|]. apply Forall_app. split.
    + apply Forall_forall. intros x (l & -> & Hl)%list_elem_of_fmap. by apply body_line_fits.
    + constructor; [apply wrap_border_fits, bottom_fits; done|done].
Qed.

Definition sample_box : Box.Box :=
  Box.border_style (Box.title (Box.box ("097"%char :: nl :: B "bcd")) (B "Startup")) (Colors.code Colors.Hi Colors.Cyan).

Lemma box_rectangular_witness :
  exists L, lines (Box.render sample_box) = L /\ length L = 4 /\ Forall (fun l => visible_width l = 13) L.
Proof.
  destruct (box_rectangular sample_box) as (L & E & HL & HF).
  - exact unicode_ok.
  - apply fits_code.
  - reflexivity.
  - by apply (bool_decide_eq_true_1 _).
  - repeat constructor.
  - exists L. split_and!; [by rewrite E, app_nil_r|exact HL|exact HF].
Defined.

(** ** Sections *)
Lemma lines_from_app cur s t : lines_from cur (s ++ nl :: t) = lines_from cur s ++ lines t.
Proof.
  revert cur. induction s as [|c s IH]; intros cur; simpl; [done|]. case_bool_decide; simpl; by rewrite IH.
Qed.

Lemma lines_app s t : lines (s ++ nl :: t) = lines s ++ lines t.
Proof. apply lines_from_app. Qed.

Lemma lines_single s : nl ∉ s -> lines s = [s].
Proof. intros H. rewrite lines_split. by apply split_on_no_sep. Qed.

Lemma pad_no_nl t w a : nl ∉ t -> nl ∉ pad t w a.
Proof.
  intros H. pose proof (fun k => fits_line _ _ (fits_spaces k)) as Hs. unfold pad. case_match; [done|].
  destruct a; rewrite ?not_elem_of_app; auto.
Qed.

Section section_facts.
Import Section_.
Context (s : Section_).

(** The lines one row produces: the label before its first value line, blanks before the others. *)
Definition row_lines (r : bytes * bytes) : list bytes :=
  match render_value_line s <$> lines (snd r) with
  | [] => []
  | l :: ls => (row_prefix s (fst r) ++ l) :: ((spaces (value_col s) ++.) <$> ls)
  end.

Lemma value_line_no_nl l : nl ∉ l -> nl ∉ render_value_line s l.
Proof. intros H. unfold render_value_line. destruct (value_align_ s); [done|by apply pad_no_nl..]. Qed.

Lemma value_lines_split p l ls :
  nl ∉ p -> Forall (fun l => nl ∉ l) (l :: ls) ->
  lines (p ++ value_lines s true (l :: ls)) =
  (p ++ render_value_line s l) :: ((fun l => spaces (value_col s) ++ render_value_line s l) <$> ls).
Proof.
  intros Hp [Hl Hls]%Forall_cons_1. cbn [value_lines app]. revert p l Hp Hl.
  induction Hls as [|l' ls Hl' _ IH]; intros p l Hp Hl; pose proof (value_line_no_nl l Hl).
  - cbn. rewrite app_nil_r. apply lines_single. set_solver.
  - cbn [value_lines app]. rewrite app_assoc, lines_app, lines_single by set_solver. cbn [app fmap list_fmap]. f_equal.
    apply IH; [apply (fits_line _ _ (fits_spaces _))|done].
Qed.

Lemma row_text r : nl ∉ fst r -> lines (row_prefix s (fst r) ++ value_lines s true (lines (snd r))) = row_lines r.
Proof.
  intros H. unfold row_lines. pose proof (lines_no_nl (snd r)) as HN. destruct (lines (snd r)) as [|l ls] eqn:E.
  - rewrite lines_split in E. by apply split_on_not_nil in E.
  - rewrite value_lines_split; [cbn [fmap list_fmap]; f_equal; by rewrite <- list_fmap_compose| |done].
    unfold row_prefix. pose proof (fun k => fits_line _ _ (fits_spaces k)) as Hs.
    rewrite !not_elem_of_app. split_and!; [apply Hs|done|by apply (bool_decide_eq_true_1 _)|apply Hs].
Qed.

Lemma rows_text rows out :
  Forall (fun r => nl ∉ fst r) rows -> out <> [] ->
  lines (fold_left (render_row s) rows out) = lines out ++ concat (row_lines <$> rows).
Proof.
  intros H. revert out. induction H as [|r rows Hr _ IH]; intros out Ho; cbn [fold_left]; [by rewrite app_nil_r|].
  unfold render_row at 2. rewrite bool_decide_eq_false_2 by done. rewrite IH by (by destruct out).
  cbn [app]. rewrite lines_app, row_text by done. cbn. by rewrite app_assoc.
Qed.

(** Every label is padded to the same column: values of all rows start at [value_col], and so do
    the continuation lines of a value. *)
Lemma row_prefix_column r : r ∈ rows_ s -> complete (fst r) -> visible_width (row_prefix s (fst r)) = value_col s.
Proof.
  intros Hr Hc. assert (visible_width (fst r) <= max_label s) by (apply widest_elem; by apply list_elem_of_fmap_2).
  unfold row_prefix, value_col. rewrite visible_width_app by apply (fits_complete _ _ (fits_spaces _)).
  rewrite (visible_width_app (fst r)) by done. rewrite (visible_width_app (B ":")) by done.
  rewrite !(fits_width _ _ (fits_spaces _)). change (visible_width (B ":")) with 1. lia.
Qed.
End section_facts.

(** The text of a section: its title, then the lines of every row, with all values
    starting in the same column. *)
Theorem section_aligned s :
  Section_.title_ s <> [] -> nl ∉ Section_.title_ s -> nl ∉ Section_.title_style_ s ->
  Forall (fun r => complete (fst r) /\ nl ∉ fst r) (Section_.rows_ s) -> Section_.terminate_ s = false ->
  lines (Section_.render s) = Section_.render_title s :: concat (row_lines s <$> Section_.rows_ s) /\
  forall r, r ∈ Section_.rows_ s -> visible_width (Section_.row_prefix s (fst r)) = Section_.value_col s.
Proof.
  intros Ht Hn Hs Hr Hterm. split.
  - unfold Section_.render. rewrite Hterm, app_nil_r. rewrite rows_text.
    + rewrite lines_single; [done|]. unfold Section_.render_title, Colors.colorize. repeat case_bool_decide; try done.
      rewrite !not_elem_of_app. split_and!; [done..|by apply (bool_decide_eq_true_1 _)].
    + eapply Forall_impl; [exact Hr|by intros ? []].
    + unfold Section_.render_title. rewrite bool_decide_eq_false_2 by done. case_bool_decide; [done|].
      by destruct (Section_.title_style_ s).
  - intros r H. apply row_prefix_column; [done|]. by apply (proj1 (Forall_forall _ _) Hr r H).
Qed.

(** Only the length of the separator matters: its text is never written. *)
Theorem separator_text_ignored s sep sep' :
  length sep = length sep' -> Section_.render (Section_.separator s sep) = Section_.render (Section_.separator s sep').
Proof.
  intros H. unfold Section_.render. cbn [Section_.rows_ Section_.terminate_ Section_.separator Section_.render_title]. f_equal.
  assert (E : forall out r, Section_.render_row (Section_.separator s sep) out r = Section_.render_row (Section_.separator s sep') out r).
  { intros out r. unfold Section_.render_row, Section_.row_prefix. cbn [Section_.indent_ Section_.separator Section_.separator_].
    change (Section_.max_label (Section_.separator s sep')) with (Section_.max_label (Section_.separator s sep)).
    rewrite H. f_equal. f_equal. f_equal. generalize true as first. induction (lines (snd r)) as [|l ls IH]; intros first; [done|].
    cbn [Section_.value_lines]. unfold Section_.value_col. cbn [Section_.indent_ Section_.separator Section_.separator_].
    change (Section_.max_label (Section_.separator s sep')) with (Section_.max_label (Section_.separator s sep)).
    rewrite H, IH. done. }
  change (Section_.render_title (Section_.separator s sep')) with (Section_.render_title (Section_.separator s sep)).
  generalize (Section_.render_title (Section_.separator s sep)). induction (Section_.rows_ s) as [|r rows IH]; intros out; [done|].
  cbn [fold_left]. by rewrite E, IH.
Qed.

(** ** Builders *)

(** A row is added only with one value per column, and then each value ends its column. *)
Lemma add_row_cells t values t' c r :
  Table.add_row t values = Ok t' ->
  Table.cell (Table.cells_ t') c r =
  (col ← Table.cells_ t !! c; if bool_decide (r = length col) then values !! c else col !! r).
Proof.
  unfold Table.add_row. case_decide as E; [|done]. intros [= <-]. unfold Table.cell. cbn [Table.cells_].
  rewrite lookup_zip_with. destruct (Table.cells_ t !! c) as [col|] eqn:Ec; cbn; [|done].
  destruct (lookup_lt_is_Some_2 values c) as [v Ev]; [rewrite <- E; by eapply lookup_lt_Some|]. rewrite Ev. cbn.
  case_bool_decide as Hr; [subst r; by rewrite list_lookup_middle|].
  destruct (decide (r < length col)); [by rewrite lookup_app_l|].
  rewrite lookup_app_r by lia. rewrite (lookup_ge_None_2 col) by lia. destruct (r - length col) eqn:Ek; [lia|done].
Qed.

Lemma add_row_arity t values : length (Table.cells_ t) <> length values -> exists e, Table.add_row t values = Err e.
Proof. intros H. unfold Table.add_row. rewrite decide_False by done. eauto. Qed.

(** Setting the headers again keeps the rows of the columns that remain. *)
Example headers_keep_rows :
  (t ← Table.add_row (Table.headers Table.table [B "a"]) [B "1"]; Ok (Table.cells_ (Table.headers t [B "b"]))) =
  Ok [[B "1"]].
Proof. reflexivity. Qed.

(** A header is not split into lines as a cell is: a newline in it breaks the frame. *)
Example header_newline_breaks_frame :
  visible_width <$> lines (Table.render (Table.headers Table.table ["097"%char :: nl :: B "b"])) = [7; 3; 3; 7].
Proof. reflexivity. Qed.

(** [column_align] fixes the alignment of the columns before its own: a later [align] leaves them. *)
Example column_align_freezes :
  Table.cell_align_for (Table.opts_ (Table.align (Table.column_align Table.table 1 Right) Center)) <$> [0; 1; 2] =
  [Left; Right; Center].
Proof. reflexivity. Qed.

(** The separator's text is not written. *)
Example separator_blank :
  Section_.render (Section_.row (Section_.separator (Section_.section []) (B "->")) (B "k") (B "v")) = B "  k:  v".
Proof. reflexivity. Qed.

(** [indent] puts the blanks before every line, save an empty last one. *)
Lemma indent_loop_line p l t : nl ∉ l -> t <> [] -> indent_loop p (l ++ nl :: t) = l ++ nl :: p ++ indent_loop p t.
Proof.
  intros Hl Ht. induction l as [|c l IH]; cbn [app indent_loop].
  - by rewrite (bool_decide_eq_true_2 (nl = nl)), (bool_decide_eq_false_2 (t = [])).
  - rewrite (bool_decide_eq_false_2 (c = nl)) by set_solver. cbn [andb app]. rewrite IH by set_solver. done.
Qed.

Lemma indent_loop_plain p l : nl ∉ l -> indent_loop p l = l.
Proof.
  induction l as [|c l IH]; intros H; cbn; [done|]. rewrite bool_decide_eq_false_2 by set_solver. cbn. rewrite IH by set_solver. done.
Qed.

Lemma indent_join p L :
  Forall (fun l => nl ∉ l) L -> L <> [] -> last L <> Some [] ->
  p ++ indent_loop p (join_with [nl] L) = join_with [nl] ((p ++.) <$> L).
Proof.
  intros H. induction H as [|l L Hl HL IH]; intros Hne Hlast; [done|]. destruct L as [|l' L].
  - cbn. by rewrite indent_loop_plain.
  - change (join_with [nl] (l :: l' :: L)) with (l ++ nl :: join_with [nl] (l' :: L)).
    rewrite indent_loop_line; [|done|].
    + rewrite IH by done. rewrite !fmap_cons.
      change (join_with [nl] ((p ++ l) :: (p ++ l') :: ((p ++.) <$> L))) with
        ((p ++ l) ++ nl :: join_with [nl] ((p ++ l') :: ((p ++.) <$> L))). by rewrite <- app_assoc.
    + destruct l' as [|? ?]; [|by destruct L]. destruct L as [|? ?]; [done|]. done.
Qed.

Lemma indent_lines body k :
  0 < k -> last (lines body) <> Some [] -> lines (indent body k) = (spaces k ++.) <$> lines body.
Proof.
  intros Hk Hl. pose proof (fits_line _ _ (fits_spaces k)) as Hs. unfold indent. rewrite (proj2 (Nat.eqb_neq k 0)) by lia.
  rewrite bool_decide_eq_false_2 by (by intros ->). cbn [orb]. rewrite <- (join_split nl body) at 1. rewrite <- lines_split.
  assert (Hne : lines body <> []) by (rewrite lines_split; apply split_on_not_nil).
  rewrite indent_join by (done || apply lines_no_nl). rewrite lines_split. apply split_join.
  - by destruct (lines body).
  - apply Forall_fmap. eapply Forall_impl; [apply lines_no_nl|]. intros l Hln. simpl. set_solver.
Qed.
