(* ===== verification/Url.v ===== *)
(** * Percent-decoding ([types/url_decode/url_decode.cpp])

    [decode_into] writes into a caller-supplied buffer exactly as the source
    does; [url_decode] and [url_decode_arena] are its two callers.  The
    specification is the relation [Decodes]: the RFC 3986 reading of an input,
    with ['+'] read as a space in form mode. *)

From S2P Require Import Prelude.

#[local] Open Scope Z_scope.

(** [char] is compared by value; bytes above 127 fall outside all three ranges
    whether [char] is signed or not. *)
Definition zcode (c : ascii) : Z := Z.of_nat (code c).

Definition hex_val (x : ascii) : Z :=
  if (zcode "0" <=? zcode x) && (zcode x <=? zcode "9") then zcode x - zcode "0"
  else if (zcode "a" <=? zcode x) && (zcode x <=? zcode "f") then 10 + zcode x - zcode "a"
  else if (zcode "A" <=? zcode x) && (zcode x <=? zcode "F") then 10 + zcode x - zcode "A"
  else -1.

(** [static_cast<char>(hi << 4 | lo)] *)
Definition byte_of_nibbles (hi lo : Z) : ascii :=
  ascii_of_nat (Z.to_nat (Z.lor (Z.shiftl hi 4) lo)).

Close Scope Z_scope.

(** The loop of [decode_into]: [inp] is what is left of the input, [out] the
    whole buffer and [n] the number of bytes written so far.  The result is the
    returned [optional<size_t>] with the buffer as the call leaves it. *)
Fixpoint decode_into (inp : bytes) (plus_is_space : bool) (out : bytes) (n : nat) : option nat * bytes :=
  match inp with
  | [] => (Some n, out)
  | c :: rest =>
      if bool_decide (c = "+"%char) && plus_is_space then
        decode_into rest plus_is_space (<[n := " "%char]> out) (S n)
      else if bool_decide (c = "%"%char) then
        match rest with
        | h :: l :: rest' =>
            if (hex_val h <? 0)%Z || (hex_val l <? 0)%Z then (None, out)
            else decode_into rest' plus_is_space (<[n := byte_of_nibbles (hex_val h) (hex_val l)]> out) (S n)
        | _ => (None, out)
        end
      else decode_into rest plus_is_space (<[n := c]> out) (S n)
  end.

Definition url_decode (inp : bytes) (plus_is_space : bool) : option bytes :=
  let out := replicate (length inp) "000"%char in
  let '(n, out) := decode_into inp plus_is_space out 0 in
  n ← n; Some (take n out).

(** [buf] stands for the arena block of [in.size()] bytes, whose contents on
    allocation are unspecified. *)
Definition url_decode_arena (inp : bytes) (plus_is_space : bool) (buf : bytes) : option bytes :=
  let needs_rewrite := contains_char "%" inp || (plus_is_space && contains_char "+" inp) in
  if negb needs_rewrite then Some inp
  else let '(n, out) := decode_into inp plus_is_space buf 0 in
       n ← n; Some (take n out).

(** ** Specification *)

(** The percent-decoding relation. *)
Inductive Decodes (plus : bool) : bytes -> bytes -> Prop :=
| Decodes_nil : Decodes plus [] []
| Decodes_space inp out :
    plus = true -> Decodes plus inp out -> Decodes plus ("+"%char :: inp) (" "%char :: out)
| Decodes_escape h l inp out :
    (0 <= hex_val h)%Z -> (0 <= hex_val l)%Z -> Decodes plus inp out ->
    Decodes plus ("%"%char :: h :: l :: inp) (byte_of_nibbles (hex_val h) (hex_val l) :: out)
| Decodes_literal c inp out :
    c <> "%"%char -> ~ (plus = true /\ c = "+"%char) -> Decodes plus inp out ->
    Decodes plus (c :: inp) (c :: out).

(** A reference encoder: every byte as an upper-case escape. *)
Definition hex_digit (n : nat) : ascii :=
  if decide (n < 10) then ascii_of_nat (48 + n) else ascii_of_nat (55 + n).

Definition pct_encode_byte (c : ascii) : bytes :=
  ["%"%char; hex_digit (code c / 16); hex_digit (code c mod 16)].

Definition pct_encode (s : bytes) : bytes := s ≫= pct_encode_byte.

(** ** The buffer discipline *)

(** One store at the write position extends the decoded prefix by one byte. *)
Lemma write_next (out d : bytes) (n : nat) (c : ascii) :
  n + S (length d) <= length out ->
  take (S n) (<[n := c]> out) ++ d ++ drop (S n + length d) (<[n := c]> out)
  = take n out ++ (c :: d) ++ drop (n + S (length d)) out.
Proof.
  intros Hlen. rewrite insert_take_drop by lia.
  assert (Ht : length (take n out) = n) by (rewrite length_take; lia).
  rewrite take_app, Ht. replace (S n - n) with 1 by lia.
  rewrite (take_ge (take n out)) by lia. simpl. rewrite take_0, <- app_assoc. simpl. do 3 f_equal.
  rewrite drop_app_ge by lia. rewrite Ht.
  replace (S (n + length d) - n) with (S (length d)) by lia. simpl.
  rewrite drop_drop. f_equal. lia.
Qed.

Lemma decode_into_sound inp plus out n m out' :
  n + length inp <= length out ->
  decode_into inp plus out n = (Some m, out') ->
  exists d, Decodes plus inp d /\ m = n + length d /\ length d <= length inp /\
            out' = take n out ++ d ++ drop (n + length d) out.
Proof.
  revert out n. induction inp as [inp IH] using (induction_ltof1 _ length). unfold ltof in IH.
  intros out n Hlen H. destruct inp as [|c rest]; simpl in *.
  { simplify_eq. exists []. split_and!; [constructor|simpl; lia|simpl; lia|].
    simpl. rewrite Nat.add_0_r. by rewrite take_drop. }
  assert (Hstep : forall rest' x, length rest' <= length rest ->
    decode_into rest' plus (<[n := x]> out) (S n) = (Some m, out') ->
    exists d, Decodes plus rest' d /\ m = n + length (x :: d) /\ length d <= length rest' /\
              out' = take n out ++ (x :: d) ++ drop (n + length (x :: d)) out).
  { intros rest' x Hle Heq.
    destruct (IH rest' ltac:(lia) (<[n := x]> out) (S n)) as (d & H1 & -> & H3 & ->);
      [rewrite length_insert; lia|done|].
    exists d. split_and!; [done|simpl; lia|done|]. simpl length. apply write_next. lia. }
  destruct (bool_decide_reflect (c = "+"%char)) as [->|Hp]; simpl in H.
  - destruct plus.
    + destruct (Hstep rest _ ltac:(lia) H) as (d & D1 & D2 & D3 & D4).
      exists (" "%char :: d). split_and!; [by constructor|done|simpl; lia|done].
    + destruct (Hstep rest _ ltac:(lia) H) as (d & D1 & D2 & D3 & D4).
      exists ("+"%char :: d). split_and!; [constructor; [done|naive_solver|done]|done|simpl; lia|done].
  - destruct (bool_decide_reflect (c = "%"%char)) as [->|Hc]; simpl in H.
    + destruct rest as [|h [|l rest']]; [done|done|].
      destruct (Z.ltb_spec (hex_val h) 0), (Z.ltb_spec (hex_val l) 0); simpl in H; try done.
      destruct (Hstep rest' _ ltac:(simpl; lia) H) as (d & D1 & D2 & D3 & D4).
      eexists (_ :: d). split_and!; [by constructor|done|simpl; lia|done].
    + destruct (Hstep rest _ ltac:(lia) H) as (d & D1 & D2 & D3 & D4).
      exists (c :: d). split_and!; [constructor; [done|naive_solver|done]|done|simpl; lia|done].
Qed.

Lemma decode_into_complete inp plus out n d :
  Decodes plus inp d -> exists out', decode_into inp plus out n = (Some (n + length d), out').
Proof.
  intros H. revert out n. induction H as [|inp d -> H IH|h l inp d Hh Hl H IH|c inp d Hc Hp H IH];
    intros out n; simpl.
  - rewrite Nat.add_0_r. eauto.
  - rewrite Nat.add_succ_r. apply (IH _ (S n)).
  - rewrite (proj2 (Z.ltb_ge _ _) Hh), (proj2 (Z.ltb_ge _ _) Hl). simpl.
    rewrite Nat.add_succ_r. apply (IH _ (S n)).
  - rewrite (bool_decide_eq_false_2 (c = "%"%char)) by done.
    destruct (bool_decide_reflect (c = "+"%char)), plus; simpl;
      try (rewrite Nat.add_succ_r; apply (IH _ (S n))).
Qed.

Lemma Decodes_length plus inp out : Decodes plus inp out -> length out <= length inp.
Proof. induction 1; simpl; lia. Qed.

Lemma Decodes_functional plus inp d d' : Decodes plus inp d -> Decodes plus inp d' -> d' = d.
Proof.
  intros H. revert d'. induction H as [|inp d Hp D IH|h l inp d Hh Hl D IH|c inp d Hc Hn D IH];
    intros d' D'; inv D'; try naive_solver; f_equal; auto.
Qed.

(** Both callers read back exactly the decoded bytes. *)
Lemma decode_buffer_spec inp plus buf d :
  length inp <= length buf ->
  (let '(n, out) := decode_into inp plus buf 0 in n ← n; Some (take n out)) = Some d <->
  Decodes plus inp d.
Proof.
  intros Hb. split; intros H.
  - destruct (decode_into inp plus buf 0) as [[m|] out'] eqn:E; simplify_eq/=.
    apply decode_into_sound in E as (d & H1 & -> & H3 & ->); [|lia].
    rewrite take_0. simpl. by rewrite take_app_length.
  - destruct (decode_into_complete inp plus buf 0 d H) as [out' E]. rewrite E. simpl.
    apply decode_into_sound in E as (d' & H1 & H2 & H3 & ->); [|lia].
    simpl in *. rewrite H2, take_app_length. f_equal.
    by apply (Decodes_functional plus inp).
Qed.

Lemma url_decode_spec inp plus d : url_decode inp plus = Some d <-> Decodes plus inp d.
Proof. apply decode_buffer_spec. by rewrite length_replicate. Qed.

(** Inputs without an escape (or a ['+'] in form mode) decode to themselves. *)
Lemma no_rewrite_Decodes inp plus :
  contains_char "%" inp || (plus && contains_char "+" inp) = false -> Decodes plus inp inp.
Proof.
  unfold contains_char. intros E.
  apply orb_false_iff in E as [E1%bool_decide_eq_false E2%andb_false_iff].
  rewrite bool_decide_eq_false in E2.
  induction inp as [|c inp IH]; constructor; [set_solver| |apply IH; set_solver].
  intros [-> ->]. set_solver.
Qed.

(** ** Properties *)

(** [url_decode] is percent-decoding: it succeeds with [d] exactly when the
    input reads as [d] under the RFC 3986 relation, and returns [nullopt] on
    every other input (a truncated or non-hex escape). *)
Theorem url_decode_correct inp plus d : url_decode inp plus = Some d <-> Decodes plus inp d.
Proof. apply url_decode_spec. Qed.

(** The arena variant returns the same result as [url_decode] for any arena
    block of [in.size()] bytes, whatever the block held, so the zero-copy
    shortcut is sound. *)
Theorem url_decode_arena_agrees inp plus buf :
  length buf = length inp -> url_decode_arena inp plus buf = url_decode inp plus.
Proof.
  intros Hb. unfold url_decode_arena.
  destruct (contains_char "%" inp || (plus && contains_char "+" inp)) eqn:E; simpl.
  - apply option_eq. intros d. rewrite decode_buffer_spec by lia. by rewrite url_decode_spec.
  - symmetry. apply url_decode_spec. by apply no_rewrite_Decodes.
Qed.

Lemma byte_of_encoded c :
  byte_of_nibbles (hex_val (hex_digit (code c / 16))) (hex_val (hex_digit (code c mod 16))) = c /\
  (0 <= hex_val (hex_digit (code c / 16)))%Z /\ (0 <= hex_val (hex_digit (code c mod 16)))%Z.
Proof.
  destruct c as [b0 b1 b2 b3 b4 b5 b6 b7].
  destruct b0, b1, b2, b3, b4, b5, b6, b7; split_and!; vm_compute; done.
Qed.

Lemma pct_encode_Decodes s plus : Decodes plus (pct_encode s) s.
Proof.
  induction s as [|c s IH]; [constructor|].
  pose proof (byte_of_encoded c) as (H1 & H2 & H3).
  change (pct_encode (c :: s)) with (pct_encode_byte c ++ pct_encode s). simpl app.
  rewrite <- H1 at 3. by constructor.
Qed.

(** Decoding inverts percent-encoding, in both modes, for every byte string. *)
Theorem url_decode_encode s plus : url_decode (pct_encode s) plus = Some s.
Proof. apply url_decode_spec, pct_encode_Decodes. Qed.

(** The decoded form never grows, and each of its bytes was written inside
    the buffer of [in.size()] bytes: every store index is below the final count,
    which is at most [in.size()]. *)
Theorem decode_into_in_bounds inp plus buf m out' :
  length buf = length inp -> decode_into inp plus buf 0 = (Some m, out') ->
  m <= length buf /\ length out' = length buf /\ drop m out' = drop m buf.
Proof.
  intros Hb H. apply decode_into_sound in H as (d & H1 & H2 & H3 & ->); [|lia].
  simpl in *. subst m.
  split_and!; [lia|rewrite length_app, length_drop; lia|]. apply drop_app_length.
Qed.

Lemma url_decode_arena_agrees_witness :
  url_decode_arena (B "a%20b") false (B "xxxxx") = url_decode (B "a%20b") false.
Proof. apply (url_decode_arena_agrees (B "a%20b") false (B "xxxxx")). reflexivity. Defined.

Lemma decode_into_in_bounds_witness : 3 <= length (B "xxxxx").
Proof.
  apply (decode_into_in_bounds (B "a%20b") false (B "xxxxx") 3 (B "a bxx")); reflexivity.
Defined.

Example url_decode_plus : url_decode (B "a+b%2Fc") true = Some (B "a b/c").
Proof. reflexivity. Qed.

Example url_decode_truncated : url_decode (B "abc%2") false = None.
Proof. reflexivity. Qed.

(** The block [allocate_bytes(n, 1)] returns; its contents do not matter ([url_decode_arena_block]). *)
Definition arena_block (n : nat) : bytes := replicate n "000"%char.

Lemma url_decode_arena_block inp plus :
  url_decode_arena inp plus (arena_block (length inp)) = url_decode inp plus.
Proof.
  unfold url_decode_arena, url_decode, arena_block.
  destruct (contains_char "%" inp || (plus && contains_char "+" inp)) eqn:E; simpl; [done|].
  symmetry. apply decode_buffer_spec; [by rewrite length_replicate|]. by apply no_rewrite_Decodes.
Qed.

(** ** The ['&']-separated pair loop

    [ensure_query_parsed] and [read_form] run the same loop over the pieces
    between ['&']s, stopping before a trailing empty piece; [step] is the loop
    body, which may leave with an error. *)
Section amp_loop.
  Context {S E : Type} (step : S -> bytes -> result E S).

Fixpoint amp_loop (fuel : nat) (qs : bytes) (i : nat) (s : S) : result E S :=
  match fuel with
  | 0 => Ok s
  | Datatypes.S fuel =>
      if decide (i < length qs) then
        let amp := find_char "&" qs i in
        let pair := match amp with
                    | None => substr qs i (length qs - i)
                    | Some amp => substr qs i (amp - i)
                    end in
        s ← step s pair;
        match amp with
        | None => Ok s
        | Some amp => amp_loop fuel qs (amp + 1) s
        end
      else Ok s
  end.

(** Each round moves [i] past an ['&'], so [qs.size()] rounds suffice. *)
Definition amp_run (qs : bytes) (s : S) : result E S := amp_loop (length qs) qs 0 s.

(** Reference: a left fold that stops at the first error. *)
Fixpoint fold_result (ps : list bytes) (s : S) : result E S :=
  match ps with
  | [] => Ok s
  | p :: ps => s ← step s p; fold_result ps s
  end.

End amp_loop.

(** [pair] at its first ['=']: key and value, the value empty without one. *)
Definition split_pair (pair : bytes) : bytes * bytes :=
  match find_char "=" pair 0 with
  | None => (pair, [])
  | Some eq => (substr pair 0 eq, substr_from pair (eq + 1))
  end.

(** Reference: the pieces between ['&']s, without a trailing empty one. *)
Fixpoint drop_last_empty (ps : list bytes) : list bytes :=
  match ps with
  | [] => []
  | [p] => if decide (p = []) then [] else [p]
  | p :: ps => p :: drop_last_empty ps
  end.

Definition amp_pieces (qs : bytes) : list bytes := drop_last_empty (split_on "&" qs).

Lemma amp_loop_fold {S E} (step : S -> bytes -> result E S) fuel qs i s :
  i <= length qs -> length qs <= i + fuel ->
  amp_loop step fuel qs i s = fold_result step (amp_pieces (drop i qs)) s.
Proof.
  revert i s. induction fuel as [|fuel IH]; intros i s Hi Hf.
  { by rewrite drop_ge by lia. }
  cbn [amp_loop]. case_decide as Hlt; [|by rewrite drop_ge by lia].
  unfold amp_pieces. destruct (find_char "&" qs i) as [amp|] eqn:Ef.
  - rewrite (split_on_drop _ _ _ _ Ef). apply find_char_spec in Ef as (Hr & _).
    pose proof (split_on_not_nil "&" (drop (Datatypes.S amp) qs)) as Hne.
    destruct (split_on "&" (drop (Datatypes.S amp) qs)) as [|p ps] eqn:Es; [done|].
    cbn [drop_last_empty fold_result]. destruct (step s _) as [s'|e]; [|done]. cbn [mbind result_bind].
    rewrite IH by lia. unfold amp_pieces. replace (amp + 1) with (Datatypes.S amp) by lia. by rewrite Es.
  - apply find_char_None in Ef. rewrite split_on_no_sep by done. cbn [drop_last_empty].
    rewrite decide_False; [|intros E0; apply (f_equal length) in E0; rewrite length_drop in E0; simpl in E0; lia].
    cbn [fold_result]. unfold substr. rewrite take_ge by (rewrite length_drop; lia).
    by destruct (step s _).
Qed.

Lemma amp_run_fold {S E} (step : S -> bytes -> result E S) qs s :
  amp_run step qs s = fold_result step (amp_pieces qs) s.
Proof. unfold amp_run. rewrite amp_loop_fold by lia. by rewrite drop_0. Qed.

(** A well-formed query: encoded pairs joined by ['&']. *)
Definition encode_pair (kv : bytes * bytes) : bytes := pct_encode (fst kv) ++ "="%char :: pct_encode (snd kv).
Definition encode_query (kvs : list (bytes * bytes)) : bytes := join_with ["&"%char] (map encode_pair kvs).

Lemma pct_encode_free c s : c <> "%"%char -> (forall d, c <> hex_digit (code d / 16) /\ c <> hex_digit (code d mod 16)) ->
  c ∉ pct_encode s.
Proof.
  intros Hc Hd. induction s as [|d s IH]; [set_solver|].
  change (pct_encode (d :: s)) with (pct_encode_byte d ++ pct_encode s). unfold pct_encode_byte.
  specialize (Hd d). set_solver.
Qed.

Lemma hex_digit_sep d : let h := [hex_digit (code d / 16); hex_digit (code d mod 16)] in
  "&"%char ∉ h /\ "="%char ∉ h.
Proof.
  cbv zeta. apply (bool_decide_unpack _).
  destruct d as [b0 b1 b2 b3 b4 b5 b6 b7]; destruct b0, b1, b2, b3, b4, b5, b6, b7; vm_compute; exact I.
Qed.

Lemma pct_encode_no_sep s : "&"%char ∉ pct_encode s /\ "="%char ∉ pct_encode s.
Proof. split; apply pct_encode_free; try done; intros d; pose proof (hex_digit_sep d); set_solver. Qed.

Lemma split_encode_pair kv : split_pair (encode_pair kv) = (pct_encode (fst kv), pct_encode (snd kv)).
Proof.
  unfold split_pair, encode_pair. rewrite find_char_0, find_index_app by apply pct_encode_no_sep.
  unfold substr, substr_from. rewrite drop_0, take_app_length. f_equal.
  by rewrite Nat.add_1_r, drop_app_ge, Nat.sub_succ_l, Nat.sub_diag by lia.
Qed.

Lemma amp_pieces_encode kvs : amp_pieces (encode_query kvs) = map encode_pair kvs.
Proof.
  unfold amp_pieces, encode_query. destruct kvs as [|kv kvs]; [done|].
  rewrite split_join; [|done|].
  - revert kv. induction kvs as [|kv' kvs IH]; intros kv; cbn [map drop_last_empty].
    + rewrite decide_False; [done|]. unfold encode_pair. by destruct (pct_encode (fst kv)).
    + f_equal. apply IH.
  - apply Forall_map, Forall_true. intros kv'. unfold encode_pair.
    pose proof (pct_encode_no_sep (fst kv')). pose proof (pct_encode_no_sep (snd kv')). set_solver.
Qed.
