(* ===== verification/Headers.v ===== *)
(** * HTTP headers ([types/headers/headers.cpp], [types/headers/headers.hpp])

    A [Headers] value either views a parser-owned Boost.Beast [basic_fields]
    object or owns a vector of name/value pairs.  Beast is a third-party
    library, so its fields type is a parameter: the class [BeastFields] holds
    the three operations the source calls and the documented laws it relies on
    (lookup is case-insensitive and yields the first match, [equal_range] is
    every match in iteration order).

    The abstract view of a [Headers] is a case-insensitive multimap: the
    function [get_all].  The theorems show every operation against it. *)

From S2P Require Import Prelude.

(** [lower] on an [unsigned char]. *)
Definition lower (c : ascii) : ascii :=
  if (code "A" <=? code c) && (code c <=? code "Z") then ascii_of_nat (code c + 32) else c.

(** [does_equal]: equal sizes, then a byte-wise comparison under [lower]. *)
Fixpoint equal_chars (a b : bytes) : bool :=
  match a, b with
  | x :: a', y :: b' => bool_decide (lower x = lower y) && equal_chars a' b'
  | _, _ => true
  end.

Definition does_equal (a b : bytes) : bool :=
  if negb (length a =? length b) then false else equal_chars a b.

(** What the code uses of [boost::beast::http::basic_fields]. *)
Class BeastFields (F : Type) := {
  fields_list : F -> list (bytes * bytes);
  fields_find : F -> bytes -> option bytes;
  fields_equal_range : F -> bytes -> list bytes;
}.

Class BeastFieldsLaws (F : Type) `{BeastFields F} := {
  fields_find_first f name :
    fields_find f name = snd <$> list_find (fun kv => does_equal kv.1 name = true) (fields_list f) ≫= (fun p => Some p.2);
  fields_equal_range_all f name :
    fields_equal_range f name = snd <$> filter (fun kv => does_equal kv.1 name = true) (fields_list f);
}.

Section headers.
  Context {F : Type} `{BeastFields F}.

(** [std::variant<BeastBacking, OwnedBacking> backing_] *)
Inductive Headers : Type :=
| BeastBacking (fields : F)
| OwnedBacking (entries : list (bytes * bytes)).

Definition headers_owned : Headers := OwnedBacking [].
Definition view_of_beast (fields : F) : Headers := BeastBacking fields.

(** Move-assignment adopts the source backing; only the target's value is modelled. *)
Definition headers_assign (_ other : Headers) : Headers :=
  match other with
  | BeastBacking fields => BeastBacking fields
  | OwnedBacking entries => OwnedBacking entries
  end.

Definition promote_to_owned (h : Headers) : Headers :=
  match h with
  | OwnedBacking _ => h
  | BeastBacking fields =>
      OwnedBacking (fold_left (fun owned f => owned ++ [(f.1, f.2)]) (fields_list fields) [])
  end.

(** Mutating a viewing [Headers]: the assertion, and [std::get]'s exception
    when assertions are compiled out. *)
Definition as_owned (h : Headers) : result exn (list (bytes * bytes)) :=
  match h with
  | OwnedBacking entries => Ok entries
  | BeastBacking _ => Err BadVariantAccess
  end.

Fixpoint get_entries (entries : list (bytes * bytes)) (name : bytes) : option bytes :=
  match entries with
  | [] => None
  | (n, v) :: rest => if does_equal n name then Some v else get_entries rest name
  end.

Definition headers_get (h : Headers) (name : bytes) : option bytes :=
  match h with
  | BeastBacking fields => fields_find fields name
  | OwnedBacking entries => get_entries entries name
  end.

Definition headers_get_or (h : Headers) (name fallback : bytes) : bytes :=
  match headers_get h name with Some v => v | None => fallback end.

Fixpoint get_all_entries (entries : list (bytes * bytes)) (name : bytes) (out : list bytes) : list bytes :=
  match entries with
  | [] => out
  | (n, v) :: rest => get_all_entries rest name (if does_equal n name then out ++ [v] else out)
  end.

Definition headers_get_all (h : Headers) (name : bytes) : list bytes :=
  match h with
  | BeastBacking fields => fields_equal_range fields name
  | OwnedBacking entries => get_all_entries entries name []
  end.

Definition headers_contains (h : Headers) (name : bytes) : bool :=
  match headers_get h name with Some _ => true | None => false end.

Definition headers_add (h : Headers) (name value : bytes) : result exn Headers :=
  o ← as_owned h; Ok (OwnedBacking (o ++ [(name, value)])).

(** [std::erase_if] keeps the entries its predicate refuses, in order. *)
Definition erase_name (entries : list (bytes * bytes)) (name : bytes) : list (bytes * bytes) :=
  filter (fun kv => does_equal kv.1 name = false) entries.

Definition headers_set (h : Headers) (name value : bytes) : result exn Headers :=
  o ← as_owned h; Ok (OwnedBacking (erase_name o name ++ [(name, value)])).

Definition headers_remove (h : Headers) (name : bytes) : result exn Headers :=
  o ← as_owned h; Ok (OwnedBacking (erase_name o name)).

Definition headers_size (h : Headers) : nat :=
  match h with
  | BeastBacking fields => length (fields_list fields)
  | OwnedBacking entries => length entries
  end.

Definition headers_empty (h : Headers) : bool := headers_size h =? 0.

(** A [const_iterator] is a position; [beast_it_] moves in step with [idx_]. *)
Definition headers_begin (h : Headers) : nat := 0.
Definition headers_end (h : Headers) : nat := headers_size h.

Definition deref (h : Headers) (idx : nat) : option (bytes * bytes) :=
  match h with
  | BeastBacking fields => fields_list fields !! idx
  | OwnedBacking entries => entries !! idx
  end.

(** A range-for over a [Headers]: [++] until the position equals [end()]. *)
Fixpoint iterate_from (fuel : nat) (h : Headers) (idx : nat) : list (bytes * bytes) :=
  match fuel with
  | 0 => []
  | S fuel =>
      if idx =? headers_end h then []
      else match deref h idx with
           | Some kv => kv :: iterate_from fuel h (S idx)
           | None => []
           end
  end.

Definition iterate (h : Headers) : list (bytes * bytes) := iterate_from (S (headers_size h)) h (headers_begin h).

End headers.

Arguments Headers F : clear implicits.

(** ** Case-insensitive equality is an equivalence *)
Lemma does_equal_spec a b : does_equal a b = true <-> map lower a = map lower b.
Proof.
  unfold does_equal. revert b. induction a as [|x a IH]; intros [|y b]; simpl; try done.
  specialize (IH b). destruct (length a =? length b); simpl in *.
  - rewrite andb_true_iff, bool_decide_eq_true, IH. split; [intros [E1 E2]; by rewrite E1, E2|intros [= ? ?]; done].
  - split; [done|]. intros [= _ E]. by apply IH in E.
Qed.

Definition same_name (a b : bytes) : Prop := does_equal a b = true.

#[global] Instance same_name_equivalence : Equivalence same_name.
Proof.
  unfold same_name.
  split; red; intros *; rewrite ?does_equal_spec; congruence.
Qed.

#[global] Instance does_equal_proper : Proper (same_name ==> same_name ==> eq) does_equal.
Proof.
  intros a a' Ha b b' Hb. unfold same_name in *. rewrite does_equal_spec in *.
  apply eq_true_iff_eq. rewrite !does_equal_spec. by rewrite Ha, Hb.
Qed.

Lemma does_equal_sym a b : does_equal a b = does_equal b a.
Proof. apply eq_true_iff_eq. rewrite !does_equal_spec. by split. Qed.

(** ** The multimap view *)
Section multimap.
  Context {F : Type} `{BeastFieldsLaws F}.
  Implicit Types (h : Headers F) (es : list (bytes * bytes)).

Lemma get_all_entries_spec es name out :
  get_all_entries es name out = out ++ (snd <$> filter (fun kv => does_equal kv.1 name = true) es).
Proof.
  revert out. induction es as [|[n v] es IH]; intros out; [by rewrite app_nil_r|].
  rewrite (filter_true_cons (fun kv => does_equal kv.1 name)). cbn [get_all_entries fst]. rewrite IH.
  destruct (does_equal n name); [|done]. by rewrite <- app_assoc.
Qed.

Lemma get_entries_head es name :
  get_entries es name = head (snd <$> filter (fun kv => does_equal kv.1 name = true) es).
Proof.
  induction es as [|[n v] es IH]; [done|].
  rewrite (filter_true_cons (fun kv => does_equal kv.1 name)). cbn [get_entries fst].
  by destruct (does_equal n name).
Qed.

Lemma list_find_head es name :
  list_find (fun kv : bytes * bytes => does_equal kv.1 name = true) es ≫= (fun p => Some p.2) =
  head (filter (fun kv => does_equal kv.1 name = true) es).
Proof.
  induction es as [|kv es IH]; simpl; [done|]. rewrite filter_cons.
  case_decide; [done|]. rewrite <- IH.
  by destruct (list_find _ es) as [[i x]|].
Qed.

(** The entries a [Headers] stands for, in iteration order. *)
Definition entries_of h : list (bytes * bytes) :=
  match h with BeastBacking fields => fields_list fields | OwnedBacking es => es end.

Lemma get_all_view h name :
  headers_get_all h name = snd <$> filter (fun kv => does_equal kv.1 name = true) (entries_of h).
Proof.
  destruct h as [fields|es]; simpl; [apply fields_equal_range_all|].
  by rewrite get_all_entries_spec.
Qed.

Lemma get_view h name : headers_get h name = head (headers_get_all h name).
Proof.
  rewrite get_all_view. destruct h as [fields|es]; simpl.
  - rewrite fields_find_first. rewrite list_find_head.
    by destruct (filter _ (fields_list fields)).
  - apply get_entries_head.
Qed.

Lemma promote_entries h : entries_of (promote_to_owned h) = entries_of h.
Proof.
  destruct h as [fields|es]; simpl; [|done].
  assert (forall l acc, fold_left (fun owned (f : bytes * bytes) => owned ++ [(f.1, f.2)]) l acc = acc ++ l) as Hf.
  { induction l as [|[n v] l IH]; intros acc; simpl; [by rewrite app_nil_r|].
    by rewrite IH, <- app_assoc. }
  by rewrite Hf.
Qed.

Lemma filter_erase es name m :
  filter (fun kv => does_equal kv.1 m = true) (erase_name es name) =
  if does_equal name m then [] else filter (fun kv => does_equal kv.1 m = true) es.
Proof.
  unfold erase_name. induction es as [|[n v] es IH]; [by destruct (does_equal name m)|].
  rewrite (filter_false_cons (fun kv => does_equal kv.1 name)). cbn [fst].
  rewrite (filter_true_cons (fun kv => does_equal kv.1 m) (n, v) es). cbn [fst].
  destruct (does_equal n name) eqn:E.
  - change (same_name n name) in E. by rewrite IH, E; destruct (does_equal name m).
  - rewrite (filter_true_cons (fun kv => does_equal kv.1 m)). cbn [fst]. rewrite IH.
    destruct (does_equal name m) eqn:E2; [|done]. change (same_name name m) in E2.
    by rewrite <- E2, E.
Qed.

Lemma iterate_from_spec fuel h idx :
  idx + fuel = S (headers_size h) -> 0 < fuel -> iterate_from fuel h idx = drop idx (entries_of h).
Proof.
  revert idx. induction fuel as [|fuel IH]; intros idx Hf Hpos; [lia|]. simpl.
  assert (Hsz : headers_size h = length (entries_of h)) by (by destruct h).
  assert (Hd : deref h idx = entries_of h !! idx) by (by destruct h).
  unfold headers_end. destruct (Nat.eqb_spec idx (headers_size h)) as [->|Hne].
  - rewrite drop_ge; [done|lia].
  - rewrite Hd. destruct (lookup_lt_is_Some_2 (entries_of h) idx) as [kv Hkv]; [lia|].
    rewrite Hkv, IH by lia. symmetry. by apply drop_S.
Qed.

(** ** Properties *)

(** The mutators implement a case-insensitive multimap: [add] appends one
    value to the named key and to no other, [set] leaves the named key with the
    single given value, [remove] empties it, and all three keep every other
    header, in order. *)
Theorem headers_multimap es name value m :
  (h' ← headers_add (OwnedBacking (F:=F) es) name value; Ok (headers_get_all h' m)) =
    Ok (E:=exn)
       (headers_get_all (OwnedBacking (F:=F) es) m ++ (if does_equal name m then [value] else [])) /\
  (h' ← headers_set (OwnedBacking (F:=F) es) name value; Ok (headers_get_all h' m)) =
    Ok (E:=exn) (if does_equal name m then [value] else headers_get_all (OwnedBacking (F:=F) es) m) /\
  (h' ← headers_remove (OwnedBacking (F:=F) es) name; Ok (headers_get_all h' m)) =
    Ok (E:=exn) (if does_equal name m then [] else headers_get_all (OwnedBacking (F:=F) es) m).
Proof.
  unfold headers_add, headers_set, headers_remove. simpl.
  rewrite !get_all_entries_spec, !filter_app, !filter_erase,
    !(filter_true_cons (fun kv => does_equal kv.1 m)). cbn [fst].
  destruct (does_equal name m); simpl; rewrite ?fmap_app; simpl; auto.
  rewrite !app_nil_r. auto.
Qed.

(** Promotion of a viewing [Headers] to an owned one preserves every read:
    lookups, repeated values, size and iteration order. *)
Theorem promote_preserves_reads h name :
  headers_get (promote_to_owned h) name = headers_get h name /\
  headers_get_all (promote_to_owned h) name = headers_get_all h name /\
  headers_size (promote_to_owned h) = headers_size h /\
  iterate (promote_to_owned h) = iterate h /\
  exists es, as_owned (promote_to_owned h) = Ok es.
Proof.
  assert (Hsz : forall k : Headers F, headers_size k = length (entries_of k)) by (by intros []).
  split_and!.
  - by rewrite !get_view, !get_all_view, promote_entries.
  - by rewrite !get_all_view, promote_entries.
  - by rewrite !Hsz, promote_entries.
  - unfold iterate. rewrite !iterate_from_spec by (unfold headers_begin; lia). by rewrite promote_entries.
  - destruct h; simpl; eauto.
Qed.

(** Lookup does not depend on the case of the name, for either backing, and
    [get] is the first of [get_all]. *)
Theorem get_case_insensitive h name name' :
  same_name name name' ->
  headers_get h name = headers_get h name' /\ headers_get_all h name = headers_get_all h name' /\
  headers_get h name = head (headers_get_all h name).
Proof.
  intros Hn. assert (Hall : headers_get_all h name = headers_get_all h name').
  { rewrite !get_all_view. f_equal. apply list_filter_iff. intros [n v]. simpl. by rewrite Hn. }
  rewrite !get_view, Hall. auto.
Qed.

End multimap.

(** A concrete fields object: the list of its entries. *)
#[global] Instance list_fields : BeastFields (list (bytes * bytes)) := {
  fields_list l := l;
  fields_find l name := get_entries l name;
  fields_equal_range l name := get_all_entries l name [];
}.

#[global] Instance list_fields_laws : BeastFieldsLaws (list (bytes * bytes)).
Proof.
  split; intros f name; simpl.
  - rewrite get_entries_head. rewrite list_find_head. by destruct (filter _ f).
  - by rewrite get_all_entries_spec.
Qed.

Lemma promote_preserves_reads_witness :
  headers_get (promote_to_owned (BeastBacking [(B "Host", B "x"); (B "host", B "y")])) (B "HOST") = Some (B "x").
Proof.
  etransitivity; [apply (promote_preserves_reads (F := list (bytes * bytes)))|]. reflexivity.
Defined.

Lemma get_case_insensitive_witness :
  headers_get (OwnedBacking (F := list (bytes * bytes)) [(B "Date", B "x")]) (B "DATE") =
  headers_get (OwnedBacking (F := list (bytes * bytes)) [(B "Date", B "x")]) (B "date").
Proof. apply get_case_insensitive. reflexivity. Defined.
