(* ===== verification/HttpTypes.v ===== *)
(** * HTTP vocabulary: enums, bodies, requests, responses, typed errors

    [types/enums/http_enums.hpp], [types/body] (payloads and draining),
    [types/request], [types/response], [types/response_factory] and
    [types/errors].  Allocators are not modelled: they decide where bytes live,
    not which bytes. *)

From S2P Require Import Prelude Headers.

Module HttpMethod.

(** [enum class HttpMethod], in declaration order. *)
Inductive t := unknown | get | post | put | patch | del | head | options.

#[global] Instance eq_dec : EqDecision t.
Proof. solve_decision. Defined.

(** [std::to_underlying(method)] *)
Definition to_underlying (m : t) : nat :=
  match m with
  | unknown => 0 | get => 1 | post => 2 | put => 3
  | patch => 4 | del => 5 | head => 6 | options => 7
  end.

(** [static_cast<HttpMethod>(i)], for the indices of the enumerators. *)
Definition of_underlying (i : nat) : t :=
  match i with
  | 1 => get | 2 => post | 3 => put | 4 => patch | 5 => del | 6 => head | 7 => options
  | _ => unknown
  end.

Definition to_string_view (m : t) : bytes :=
  match m with
  | get => B "GET"
  | post => B "POST"
  | put => B "PUT"
  | patch => B "PATCH"
  | del => B "DELETE"
  | head => B "HEAD"
  | options => B "OPTIONS"
  | unknown => B "UNKNOWN"
  end.

End HttpMethod.

Definition HTTP_METHOD_COUNT : nat := 8.

Module HttpStatus.

Inductive t :=
| ok | created | accepted | no_content
| moved_permanently | found | see_other | not_modified | temporary_redirect | permanent_redirect
| bad_request | unauthorized | forbidden | not_found | method_not_allowed | conflict | gone
| payload_too_large | unsupported_media_type | unprocessable_entity | too_many_requests
| internal_server_error | not_implemented | bad_gateway | service_unavailable | gateway_timeout.

#[global] Instance eq_dec : EqDecision t.
Proof. solve_decision. Defined.

(** The enumerators' values. *)
Definition status_code (s : t) : N :=
  match s with
  | ok => 200 | created => 201 | accepted => 202 | no_content => 204
  | moved_permanently => 301 | found => 302 | see_other => 303 | not_modified => 304
  | temporary_redirect => 307 | permanent_redirect => 308
  | bad_request => 400 | unauthorized => 401 | forbidden => 403 | not_found => 404
  | method_not_allowed => 405 | conflict => 409 | gone => 410
  | payload_too_large => 413 | unsupported_media_type => 415 | unprocessable_entity => 422
  | too_many_requests => 429
  | internal_server_error => 500 | not_implemented => 501 | bad_gateway => 502
  | service_unavailable => 503 | gateway_timeout => 504
  end%N.

End HttpStatus.

Module HttpVersion.

Inductive t := http_1_0 | http_1_1 | http_2 | http_3.

Definition version_from_beast (v : N) : t :=
  match v with
  | 10%N => http_1_0
  | 11%N => http_1_1
  | 20%N => http_2
  | 30%N => http_3
  | _ => http_1_1
  end.

Definition version_to_beast (v : t) : N :=
  match v with http_1_0 => 10 | http_1_1 => 11 | http_2 => 20 | http_3 => 30 end%N.

End HttpVersion.

(** [boost::beast::http::verb] is Beast's; the code names eight enumerators of
    it, which are pairwise distinct. *)
Section verbs.
  Context {V : Type} `{EqDecision V}.
  Context (v_get v_post v_put v_patch v_delete v_head v_options v_unknown : V).

Definition method_from_beast (v : V) : HttpMethod.t :=
  if decide (v = v_get) then HttpMethod.get
  else if decide (v = v_post) then HttpMethod.post
  else if decide (v = v_put) then HttpMethod.put
  else if decide (v = v_patch) then HttpMethod.patch
  else if decide (v = v_delete) then HttpMethod.del
  else if decide (v = v_head) then HttpMethod.head
  else if decide (v = v_options) then HttpMethod.options
  else HttpMethod.unknown.

Definition method_to_beast (m : HttpMethod.t) : V :=
  match m with
  | HttpMethod.get => v_get
  | HttpMethod.post => v_post
  | HttpMethod.put => v_put
  | HttpMethod.patch => v_patch
  | HttpMethod.del => v_delete
  | HttpMethod.head => v_head
  | HttpMethod.options => v_options
  | HttpMethod.unknown => v_unknown
  end.

End verbs.

(** ** Bodies *)

(** The payloads a [Body] erases: the class of the stored object with its fields. *)
Inductive Body :=
| EmptyPayload
| OwnedBufferPayload (data : bytes) (consumed : bool)
| BeastRequestBody (data : bytes) (consumed : bool).

Definition body_owned (data : bytes) : Body := OwnedBufferPayload data false.
Definition body_beast_view (data : bytes) : Body := BeastRequestBody data false.

(** Move construction and assignment: the target takes the payload and the
    source becomes a valid empty body. *)
Definition body_move (o : Body) : Body * Body := (o, EmptyPayload).

Definition read_chunk (b : Body) : option bytes * Body :=
  match b with
  | EmptyPayload => (None, EmptyPayload)
  | OwnedBufferPayload data consumed =>
      if consumed || bool_decide (data = []) then (None, OwnedBufferPayload data true)
      else (Some data, OwnedBufferPayload data true)
  | BeastRequestBody data consumed =>
      if consumed || bool_decide (data = []) then (None, BeastRequestBody data true)
      else (Some data, BeastRequestBody data true)
  end.

Definition size_hint (b : Body) : option nat :=
  match b with
  | EmptyPayload => Some 0
  | OwnedBufferPayload data _ => Some (length data)
  | BeastRequestBody data _ => Some (length data)
  end.

Definition buffered_view (b : Body) : option bytes :=
  match b with
  | EmptyPayload => Some []
  | OwnedBufferPayload data _ => Some data
  | BeastRequestBody data _ => Some data
  end.

(** ** Requests and responses *)
Section messages.
  Context {F : Type} `{BeastFields F}.

Record Request := {
  req_method : HttpMethod.t;
  req_version : HttpVersion.t;
  req_target : bytes;
  req_headers : Headers F;
  req_body : Body;
}.

Record Response := {
  resp_status : HttpStatus.t;
  resp_version : HttpVersion.t;
  resp_keep_alive : bool;
  resp_headers : Headers F;
  resp_body : Body;
}.

Definition response : Response := {|
  resp_status := HttpStatus.ok;
  resp_version := HttpVersion.http_1_1;
  resp_keep_alive := true;
  resp_headers := headers_owned;
  resp_body := EmptyPayload;
|}.

Definition with_status (r : Response) (s : HttpStatus.t) : Response :=
  {| resp_status := s; resp_version := resp_version r; resp_keep_alive := resp_keep_alive r;
     resp_headers := resp_headers r; resp_body := resp_body r |}.

Definition with_version (r : Response) (v : HttpVersion.t) : Response :=
  {| resp_status := resp_status r; resp_version := v; resp_keep_alive := resp_keep_alive r;
     resp_headers := resp_headers r; resp_body := resp_body r |}.

Definition with_keep_alive (r : Response) (k : bool) : Response :=
  {| resp_status := resp_status r; resp_version := resp_version r; resp_keep_alive := k;
     resp_headers := resp_headers r; resp_body := resp_body r |}.

Definition with_headers (r : Response) (h : Headers F) : Response :=
  {| resp_status := resp_status r; resp_version := resp_version r; resp_keep_alive := resp_keep_alive r;
     resp_headers := h; resp_body := resp_body r |}.

Definition set_header (r : Response) (n v : bytes) : result exn Response :=
  h ← headers_set (resp_headers r) n v; Ok (with_headers r h).

Definition add_header (r : Response) (n v : bytes) : result exn Response :=
  h ← headers_add (resp_headers r) n v; Ok (with_headers r h).

Definition response_with_body (r : Response) (content : bytes) : Response :=
  {| resp_status := resp_status r; resp_version := resp_version r; resp_keep_alive := resp_keep_alive r;
     resp_headers := resp_headers r; resp_body := body_owned content |}.

(** ** The static response factory *)
Definition with_body (s : HttpStatus.t) (body ct : bytes) : result exn Response :=
  r ← add_header (with_status response s) (B "Content-Type") ct;
  Ok (response_with_body r body).

Definition rf_ok (body ct : bytes) := with_body HttpStatus.ok body ct.
Definition rf_json (body : bytes) := with_body HttpStatus.ok body (B "application/json").
Definition rf_created (body ct : bytes) := with_body HttpStatus.created body ct.
Definition rf_no_content : Response := with_status response HttpStatus.no_content.
Definition rf_redirect (location : bytes) (status : HttpStatus.t) : result exn Response :=
  add_header (with_status response status) (B "Location") location.
Definition rf_not_found (body : bytes) := with_body HttpStatus.not_found body (B "text/plain").
Definition rf_bad_request (body : bytes) := with_body HttpStatus.bad_request body (B "text/plain").
Definition rf_unauthorized (body : bytes) := with_body HttpStatus.unauthorized body (B "text/plain").
Definition rf_forbidden (body : bytes) := with_body HttpStatus.forbidden body (B "text/plain").
Definition rf_conflict (body : bytes) := with_body HttpStatus.conflict body (B "text/plain").
Definition rf_payload_too_large (body : bytes) := with_body HttpStatus.payload_too_large body (B "text/plain").
Definition rf_unprocessable_entity (body : bytes) := with_body HttpStatus.unprocessable_entity body (B "text/plain").
Definition rf_internal_error (body : bytes) := with_body HttpStatus.internal_server_error body (B "text/plain").
Definition rf_custom (status : HttpStatus.t) (body ct : bytes) := with_body status body ct.

(** The loop building the [Allow] value. *)
Fixpoint allow_value (allow : list HttpMethod.t) (v : bytes) (first : bool) : bytes :=
  match allow with
  | [] => v
  | m :: allow' =>
      allow_value allow' ((if first then v else v ++ B ", ") ++ HttpMethod.to_string_view m) false
  end.

Definition rf_method_not_allowed (allow : list HttpMethod.t) : result exn Response :=
  add_header (with_status response HttpStatus.method_not_allowed) (B "Allow") (allow_value allow [] true).

(** ** Typed errors and their conversion *)
Inductive http_error :=
| BadRequestError (message : bytes)
| UnauthorizedError (message : bytes)
| ForbiddenError (message : bytes)
| NotFoundError (resource id : bytes)
| ConflictError (message : bytes)
| UnprocessableEntityError (message : bytes) (fields : list (bytes * bytes))
| PayloadTooLargeError (limit : N)
| MethodNotAllowedError (allowed : list HttpMethod.t)
| JsonParseError (detail : bytes)
| FormParseError (detail : bytes)
| MultipartParseError (detail : bytes)
| BodyLimitExceeded (limit : N).

Definition newline : bytes := ["010"%char].

Definition to_http_response (e : http_error) : result exn Response :=
  match e with
  | BadRequestError message => rf_bad_request message
  | UnauthorizedError message => rf_unauthorized message
  | ForbiddenError message => rf_forbidden message
  | NotFoundError resource id =>
      rf_not_found ((if bool_decide (id = []) then resource else resource ++ B " " ++ id) ++ B " not found")
  | ConflictError message => rf_conflict message
  | UnprocessableEntityError message fields =>
      rf_unprocessable_entity
        (fold_left (fun os '(field, detail) => os ++ newline ++ field ++ B ": " ++ detail) fields message)
  | PayloadTooLargeError limit =>
      rf_payload_too_large (B "Payload Too Large (limit " ++ to_decimal limit ++ B " bytes)")
  | MethodNotAllowedError allowed => rf_method_not_allowed allowed
  | JsonParseError detail => rf_bad_request (B "JSON parse error: " ++ detail)
  | FormParseError detail => rf_bad_request (B "Form parse error: " ++ detail)
  | MultipartParseError detail => rf_bad_request (B "Multipart parse error: " ++ detail)
  | BodyLimitExceeded limit =>
      rf_payload_too_large (B "Body Limit Exceeded (" ++ to_decimal limit ++ B " bytes)")
  end.

End messages.

Arguments Request F : clear implicits.
Arguments Response F : clear implicits.

(** ** Draining a body under a limit *)

(** The [while (true)] of [drain]; [None] stands for fuel running out. *)
Fixpoint drain_loop (fuel : nat) (body : Body) (limit : nat) (out : bytes) : option (result http_error bytes * Body) :=
  match fuel with
  | 0 => None
  | S fuel =>
      let '(chunk, body') := read_chunk body in
      match chunk with
      | None => Some (Ok out, body')
      | Some chunk =>
          if decide (limit < length out + length chunk) then Some (Err (BodyLimitExceeded (N.of_nat limit)), body')
          else drain_loop fuel body' limit (out ++ chunk)
      end
  end.

(** Every payload yields at most one chunk, so two reads reach the end. *)
Definition drain (body : Body) (limit : nat) : option (result http_error bytes * Body) :=
  drain_loop 2 body limit [].

Definition read_to_string := drain.

(** What is left to read of a body. *)
Definition remaining (b : Body) : bytes :=
  match b with
  | EmptyPayload => []
  | OwnedBufferPayload data consumed | BeastRequestBody data consumed => if consumed then [] else data
  end.

(** The status an error maps to, as the header's comments document it. *)
Definition documented_status (e : http_error) : HttpStatus.t :=
  match e with
  | BadRequestError _ | JsonParseError _ | FormParseError _ | MultipartParseError _ => HttpStatus.bad_request
  | UnauthorizedError _ => HttpStatus.unauthorized
  | ForbiddenError _ => HttpStatus.forbidden
  | NotFoundError _ _ => HttpStatus.not_found
  | ConflictError _ => HttpStatus.conflict
  | UnprocessableEntityError _ _ => HttpStatus.unprocessable_entity
  | PayloadTooLargeError _ | BodyLimitExceeded _ => HttpStatus.payload_too_large
  | MethodNotAllowedError _ => HttpStatus.method_not_allowed
  end.

(** ** Properties *)

Lemma drain_total body limit :
  drain body limit =
  Some (if decide (length (remaining body) <= limit) then Ok (remaining body)
        else Err (BodyLimitExceeded (N.of_nat limit)), snd (read_chunk body)).
Proof.
  unfold drain. destruct body as [|[|c data] [|]|[|c data] [|]]; cbn -[decide lt];
    try (rewrite decide_True by (simpl; lia); reflexivity);
    repeat (case_decide; simpl in *; try lia); reflexivity.
Qed.

(** C40. Draining terminates and is exact: it returns the unread bytes when they
    fit the limit and [BodyLimitExceeded] with that limit otherwise, and either
    way the body is exhausted afterwards. *)
Theorem drain_exact body limit :
  exists body',
    drain body limit =
      Some (if decide (length (remaining body) <= limit) then Ok (remaining body)
            else Err (BodyLimitExceeded (N.of_nat limit)), body') /\
    remaining body' = [].
Proof.
  rewrite drain_total. eexists. split; [reflexivity|].
  destruct body as [|[|c data] [|]|[|c data] [|]]; reflexivity.
Qed.

(** Every typed error converts to a response without failing, with the
    status its declaration documents, a body that survives buffering, and the
    connection kept alive. *)
Theorem to_http_response_documented {F} `{BeastFields F} (e : http_error) :
  exists r : Response F, to_http_response e = Ok r /\ resp_status r = documented_status e /\
    resp_keep_alive r = true /\ exists v, buffered_view (resp_body r) = Some v.
Proof. destruct e; simpl; eexists; split_and!; try reflexivity; by eexists. Qed.

Lemma allow_value_join ms v first :
  allow_value ms v first =
  v ++ (match ms with [] => [] | _ => if first then [] else B ", " end) ++
  join_with (B ", ") (map HttpMethod.to_string_view ms).
Proof.
  revert v first. induction ms as [|m ms IH]; intros v first; cbn -[B]; [by rewrite app_nil_r|].
  rewrite IH. destruct ms as [|m' ms]; cbn -[B]; destruct first; rewrite ?app_nil_r, <- ?app_assoc; done.
Qed.

(** A 405 response carries one [Allow] header listing exactly the given
    methods, comma-separated, in order. *)
Theorem method_not_allowed_header {F} `{BeastFields F} (allow : list HttpMethod.t) :
  exists r : Response F, rf_method_not_allowed allow = Ok r /\
    headers_get_all (resp_headers r) (B "Allow") = [join_with (B ", ") (map HttpMethod.to_string_view allow)].
Proof. eexists. split; [reflexivity|]. simpl. rewrite allow_value_join. by destruct allow. Qed.

Lemma of_to_underlying m : HttpMethod.of_underlying (HttpMethod.to_underlying m) = m.
Proof. by destruct m. Qed.

Lemma to_underlying_lt m : HttpMethod.to_underlying m < HTTP_METHOD_COUNT.
Proof. destruct m; unfold HTTP_METHOD_COUNT; simpl; lia. Qed.

(** The verb and version conversions round-trip through Beast's encodings,
    given that the eight verbs the code names are distinct. *)
Theorem beast_roundtrip {V} `{EqDecision V} (v_get v_post v_put v_patch v_delete v_head v_options v_unknown : V) m v :
  NoDup [v_get; v_post; v_put; v_patch; v_delete; v_head; v_options; v_unknown] ->
  method_from_beast v_get v_post v_put v_patch v_delete v_head v_options
    (method_to_beast v_get v_post v_put v_patch v_delete v_head v_options v_unknown m) = m /\
  HttpVersion.version_from_beast (HttpVersion.version_to_beast v) = v.
Proof.
  intros Hd. split; [|by destruct v]. repeat setoid_rewrite NoDup_cons in Hd.
  repeat setoid_rewrite not_elem_of_cons in Hd. destruct_and!.
  unfold method_from_beast. destruct m; simpl; repeat case_decide; congruence.
Qed.

Lemma beast_roundtrip_witness :
  method_from_beast 1 2 3 4 5 6 7 (method_to_beast 1 2 3 4 5 6 7 0 HttpMethod.del) = HttpMethod.del.
Proof.
  apply (beast_roundtrip 1 2 3 4 5 6 7 0 HttpMethod.del HttpVersion.http_1_1).
  apply (bool_decide_unpack _). vm_compute. exact I.
Defined.
