(* ===== verification/Routing.v ===== *)
(** * Route registry ([routing/route_registry/route_registry.cpp])

    The method+path table: exact routes in a hash map, parametric templates in
    registration order, conflicts collected until [freeze].  [H] is the type of
    (non-null) handlers; a [std::function] that may be empty is an [option H].

    The loops of the source are written as the source has them (positions,
    flags, out-parameters); the lemmas before the properties show that they
    compute the obvious reference functions for every input. *)

From S2P Require Import Prelude Url Headers HttpTypes.

Module PathNormalization.

Inductive t := none | collapse_trailing_slash | collapse_multi_slash.

#[global] Instance eq_dec : EqDecision t.
Proof. solve_decision. Defined.

End PathNormalization.

(** ** Segments *)
Section segments.
  Context {S E : Type}.

(** The loop of [for_each_segment].  [fn] threads the state its closure
    captures, may throw, and stops the walk by returning [false]. *)
Fixpoint for_each_segment_loop (fuel : nat) (fn : S -> bytes -> result E (S * bool))
    (path : bytes) (pos : nat) (s : S) : result E (S * bool) :=
  match fuel with
  | 0 => Ok (s, true)
  | Datatypes.S fuel =>
      if decide (pos <= length path) then
        let next := find_char "/" path pos in
        let seg := match next with
                   | None => substr_from path pos
                   | Some next => substr path pos (next - pos)
                   end in
        '(s, continue) ← fn s seg;
        if negb continue then Ok (s, false)
        else match next with
             | None => Ok (s, true)
             | Some next => for_each_segment_loop fuel fn path (next + 1) s
             end
      else Ok (s, true)
  end.

(** Each round moves the position forward, so [path.size() + 1] rounds suffice. *)
Definition for_each_segment (path : bytes) (fn : S -> bytes -> result E (S * bool)) (s : S) : result E (S * bool) :=
  for_each_segment_loop (Datatypes.S (length path)) fn path 1 s.

(** Reference: the same walk over a list of segments. *)
Fixpoint walk (fn : S -> bytes -> result E (S * bool)) (segs : list bytes) (s : S) : result E (S * bool) :=
  match segs with
  | [] => Ok (s, true)
  | seg :: segs =>
      '(s, continue) ← fn s seg;
      if negb continue then Ok (s, false) else walk fn segs s
  end.

End segments.

(** Reference: the segments of a path. *)
Definition segments_of (path : bytes) : list bytes :=
  match path with [] => [] | _ :: rest => split_on "/" rest end.

(** ** Path helpers *)

Fixpoint drop_slashes (s : bytes) : bytes :=
  match s with
  | c :: s' => if decide (c = "/"%char) then drop_slashes s' else s
  | [] => []
  end.

(** [while (!out.empty() && out.back() == '/') out.pop_back();] *)
Definition pop_slashes (out : bytes) : bytes := reverse (drop_slashes (reverse out)).

Definition join_path (prefix path : bytes) : bytes :=
  let out := pop_slashes prefix in
  if bool_decide (path = []) || bool_decide (path = B "/") then
    (if bool_decide (out = []) then B "/" else out)
  else
    let out := if bool_decide (head path = Some "/"%char) then out else out ++ ["/"%char] in
    out ++ path.

(** The run-collapsing loop, shared by [normalize_owned] and [normalize_lookup]. *)
Fixpoint collapse_loop (path : bytes) (prev_slash : bool) (out : bytes) : bytes :=
  match path with
  | [] => out
  | c :: path' =>
      if bool_decide (c = "/"%char) && prev_slash then collapse_loop path' prev_slash out
      else collapse_loop path' (bool_decide (c = "/"%char)) (out ++ [c])
  end.

(** [if (s.size() > 1 && s.back() == '/')] drop the last byte. *)
Definition strip_one_slash (s : bytes) : bytes :=
  if (1 <? length s) && bool_decide (last s = Some "/"%char) then take (length s - 1) s else s.

Definition normalize_owned (norm : PathNormalization.t) (path : bytes) : bytes :=
  let out := if decide (norm = PathNormalization.collapse_multi_slash)
             then collapse_loop path false [] else path in
  if decide (norm = PathNormalization.none) then out else strip_one_slash out.

Definition normalize_lookup (norm : PathNormalization.t) (path : bytes) : bytes :=
  if decide (norm = PathNormalization.none) then path
  else if bool_decide (norm = PathNormalization.collapse_multi_slash) &&
          match find_sub (B "//") path 0 with Some _ => true | None => false end
  then strip_one_slash (collapse_loop path false [])
  else strip_one_slash path.

(** ** Route templates *)
Record PathSegment := { text : bytes; is_param : bool }.

#[global] Instance PathSegment_eq_dec : EqDecision PathSegment.
Proof. solve_decision. Defined.

(** The closure [parse_segments] hands to [for_each_segment]: the segments so
    far and the parameter names seen. *)
Definition parse_segment (normalized : bytes) (st : list PathSegment * list bytes) (seg : bytes)
    : result exn ((list PathSegment * list bytes) * bool) :=
  let '(out, seen_names) := st in
  if (2 <=? length seg) && bool_decide (head seg = Some "{"%char) && bool_decide (last seg = Some "}"%char) then
    let name := substr seg 1 (length seg - 2) in
    if bool_decide (name = []) then
      Err (InvalidArgument (B "RouteRegistry: empty parameter name in route '" ++ normalized ++ B "'"))
    else if contains_any (B "{}") name then
      Err (InvalidArgument (B "RouteRegistry: nested braces in route '" ++ normalized ++ B "'"))
    else if bool_decide (name ∈ seen_names) then
      Err (InvalidArgument (B "RouteRegistry: duplicate parameter name '" ++ name ++ B "' in route '" ++ normalized ++ B "'"))
    else Ok ((out ++ [{| text := name; is_param := true |}], seen_names ++ [name]), true)
  else if contains_any (B "%{}") seg then
    Err (InvalidArgument (B "RouteRegistry: '%', '{' and '}' are not allowed in literal route segments ('" ++ normalized ++ B "')"))
  else Ok ((out ++ [{| text := seg; is_param := false |}], seen_names), true).

Definition parse_segments (normalized : bytes) : result exn (list PathSegment) :=
  '((out, _), _) ← for_each_segment normalized (parse_segment normalized) ([], []);
  Ok out.

Fixpoint equal_by {A} (p : A -> A -> bool) (a b : list A) : bool :=
  match a, b with
  | [], [] => true
  | x :: a, y :: b => p x y && equal_by p a b
  | _, _ => false
  end.

Definition same_shape (a b : list PathSegment) : bool :=
  equal_by (fun x y => eqb (is_param x) (is_param y) && (is_param x || bool_decide (text x = text y))) a b.

Definition names_match (a b : list PathSegment) : bool :=
  equal_by (fun x y => bool_decide (text x = text y)) a b.

Record RouteConflictError := {
  conflict_method : HttpMethod.t;
  conflict_path : bytes;
  conflict_detail : bytes;
}.

(** ** The registry *)
(** [std::array<RouteHandler, HTTP_METHOD_COUNT>]: a [std::function] that may be empty is an option. *)
Abbreviation MethodSlots H := (list (option H)).

Section registry.
  Context {H : Type}.

Definition no_slots : MethodSlots H := replicate HTTP_METHOD_COUNT None.

(** [slots[idx]], an empty function when nothing was stored. *)
Definition slot (slots : MethodSlots H) (idx : nat) : option H := mjoin (slots !! idx).

Record ParamTemplate := { segments : list PathSegment; by_method : MethodSlots H }.

Record RouteRegistry := {
  frozen : bool;
  norm : PathNormalization.t;
  exact : gmap bytes (MethodSlots H);
  parametric : list ParamTemplate;
  conflicts : list RouteConflictError;
}.

Definition route_registry (n : PathNormalization.t) : RouteRegistry :=
  {| frozen := false; norm := n; exact := ∅; parametric := []; conflicts := [] |}.

Definition set_exact (r : RouteRegistry) e : RouteRegistry :=
  {| frozen := frozen r; norm := norm r; exact := e; parametric := parametric r; conflicts := conflicts r |}.
Definition set_parametric (r : RouteRegistry) p : RouteRegistry :=
  {| frozen := frozen r; norm := norm r; exact := exact r; parametric := p; conflicts := conflicts r |}.
Definition push_conflict (r : RouteRegistry) (c : RouteConflictError) : RouteRegistry :=
  {| frozen := frozen r; norm := norm r; exact := exact r; parametric := parametric r;
     conflicts := conflicts r ++ [c] |}.

(** What the loop over [parametric_] ends with. *)
Inductive placement :=
| NoSuchShape
| Conflicting (detail : bytes)
| Placed (templates : list ParamTemplate).

Fixpoint place_parametric (templates : list ParamTemplate) (segs : list PathSegment) (idx : nat) (handler : H) : placement :=
  match templates with
  | [] => NoSuchShape
  | t :: rest =>
      if negb (same_shape (segments t) segs) then
        match place_parametric rest segs idx handler with
        | Placed rest' => Placed (t :: rest')
        | p => p
        end
      else if negb (names_match (segments t) segs) then
        Conflicting (B "parametric route already registered with different parameter names")
      else match slot (by_method t) idx with
           | Some _ => Conflicting (B "duplicate route")
           | None => Placed ({| segments := segments t; by_method := <[idx := Some handler]> (by_method t) |} :: rest)
           end
  end.

Definition add_route (r : RouteRegistry) (method : HttpMethod.t) (path : bytes) (handler : option H)
    : result exn RouteRegistry :=
  if frozen r then Err (LogicError (B "RouteRegistry: registration after freeze()"))
  else if decide (method = HttpMethod.unknown) then
    Err (InvalidArgument (B "RouteRegistry: cannot register HttpMethod::unknown"))
  else match handler with
  | None => Err (InvalidArgument (B "RouteRegistry: null handler"))
  | Some handler =>
      if negb (bool_decide (head path = Some "/"%char)) then
        Err (InvalidArgument (B "RouteRegistry: route path must start with '/': '" ++ path ++ B "'"))
      else
        let normalized := normalize_owned (norm r) path in
        segs ← parse_segments normalized;
        let idx := HttpMethod.to_underlying method in
        if negb (existsb is_param segs) then
          let slots := default no_slots (exact r !! normalized) in
          let r := set_exact r (<[normalized := slots]> (exact r)) in
          match slot slots idx with
          | Some _ => Ok (push_conflict r {| conflict_method := method; conflict_path := normalized;
                                             conflict_detail := B "duplicate route" |})
          | None => Ok (set_exact r (<[normalized := <[idx := Some handler]> slots]> (exact r)))
          end
        else
          match place_parametric (parametric r) segs idx handler with
          | Conflicting detail =>
              Ok (push_conflict r {| conflict_method := method; conflict_path := normalized; conflict_detail := detail |})
          | Placed templates => Ok (set_parametric r templates)
          | NoSuchShape =>
              Ok (set_parametric r (parametric r ++
                    [{| segments := segs; by_method := <[idx := Some handler]> no_slots |}]))
          end
  end.

Definition freeze (r : RouteRegistry) : list RouteConflictError * RouteRegistry :=
  (conflicts r,
   {| frozen := true; norm := norm r; exact := exact r; parametric := parametric r; conflicts := [] |}).

(** The closure of [match_template]: the template position and the captures. *)
Definition match_segment (tmpl : list PathSegment) (st : nat * list (bytes * bytes)) (seg : bytes)
    : result Empty_set ((nat * list (bytes * bytes)) * bool) :=
  let '(i, out_params) := st in
  match tmpl !! i with
  | None => Ok ((i, out_params), false)
  | Some ps =>
      if negb (is_param ps) then Ok ((S i, out_params), bool_decide (seg = text ps))
      else if bool_decide (seg = []) then Ok ((S i, out_params), false)
      else match url_decode_arena seg false (arena_block (length seg)) with
           | None => Ok ((S i, out_params), false)
           | Some decoded => Ok ((S i, out_params ++ [(text ps, decoded)]), true)
           end
  end.

(** The returned [bool] with [out_params] as the call leaves it. *)
Definition match_template (tmpl : ParamTemplate) (path : bytes) (out_params : list (bytes * bytes))
    : bool * list (bytes * bytes) :=
  match for_each_segment path (match_segment (segments tmpl)) (0, out_params) with
  | Ok ((i, out_params), walked) => (walked && (i =? length (segments tmpl)), out_params)
  | Err e => match e with end
  end.

Definition allowed_methods (slots : MethodSlots H) : list HttpMethod.t :=
  fold_left (fun out i => match slot slots i with
                          | Some _ => out ++ [HttpMethod.of_underlying i]
                          | None => out
                          end) (seq 1 (HTTP_METHOD_COUNT - 1)) [].

Record ResolvedRoute := { handler : H; path_params : list (bytes * bytes) }.

Fixpoint find_parametric (templates : list ParamTemplate) (normalized : bytes) (idx : nat)
    : result http_error ResolvedRoute :=
  match templates with
  | [] => Err (NotFoundError (B "route") normalized)
  | tmpl :: rest =>
      let '(matched, params) := match_template tmpl normalized [] in
      if negb matched then find_parametric rest normalized idx
      else match slot (by_method tmpl) idx with
           | Some h => Ok {| handler := h; path_params := params |}
           | None => Err (MethodNotAllowedError (allowed_methods (by_method tmpl)))
           end
  end.

(** [find_route] after its assertion; [lookup_route] is the call with it, [None] where the
    process stops because the registry is not frozen. *)
Definition find_route (r : RouteRegistry) (method : HttpMethod.t) (path : bytes) : result http_error ResolvedRoute :=
  let normalized := normalize_lookup (norm r) path in
  let idx := HttpMethod.to_underlying method in
  match exact r !! normalized with
  | Some slots =>
      match slot slots idx with
      | Some h => Ok {| handler := h; path_params := [] |}
      | None => Err (MethodNotAllowedError (allowed_methods slots))
      end
  | None => find_parametric (parametric r) normalized idx
  end.

Definition lookup_route (r : RouteRegistry) (method : HttpMethod.t) (path : bytes) : option (result http_error ResolvedRoute) :=
  if frozen r then Some (find_route r method path) else None.

(** Registrations one after another; the first that throws ends them. *)
Fixpoint add_routes (r : RouteRegistry) (routes : list (HttpMethod.t * bytes * option H)) : result exn RouteRegistry :=
  match routes with
  | [] => Ok r
  | (method, path, handler) :: rest => r ← add_route r method path handler; add_routes r rest
  end.

End registry.

Arguments ParamTemplate H : clear implicits.
Arguments RouteRegistry H : clear implicits.
Arguments ResolvedRoute H : clear implicits.
Arguments placement H : clear implicits.

(** [" — "]: a space, U+2014 in UTF-8, a space. *)
Definition em_dash : bytes := [" "; "226"; "128"; "148"; " "]%char.

Definition format_message (cs : list RouteConflictError) : bytes :=
  fold_left (fun msg c =>
      msg ++ newline ++ B "  " ++ HttpMethod.to_string_view (conflict_method c) ++ B " " ++ conflict_path c ++
      (if bool_decide (conflict_detail c = []) then [] else em_dash ++ conflict_detail c))
    cs (to_decimal (N.of_nat (length cs)) ++ B " route conflict(s):").

(** ** Reference definitions *)

(** A template matches a list of segments, capturing decoded parameters. *)
Inductive Matches : list PathSegment -> list bytes -> list (bytes * bytes) -> Prop :=
| Matches_nil : Matches [] [] []
| Matches_literal ps tmpl segs caps :
    is_param ps = false -> Matches tmpl segs caps -> Matches (ps :: tmpl) (text ps :: segs) caps
| Matches_param ps tmpl seg d segs caps :
    is_param ps = true -> seg <> [] -> Decodes false seg d -> Matches tmpl segs caps ->
    Matches (ps :: tmpl) (seg :: segs) ((text ps, d) :: caps).

Definition slots_wf {H} (slots : MethodSlots H) : Prop :=
  length slots = HTTP_METHOD_COUNT /\ slot slots 0 = None /\ exists i h, slot slots i = Some h.

(** The registry invariant: full-width method arrays in which the slot of
    [unknown] is empty and at least one verb is filled, exact keys that parse as
    literal templates, templates with a parameter, and no two of one shape. *)
Record registry_wf {H} (r : RouteRegistry H) : Prop := {
  wf_exact : map_Forall (fun p slots => slots_wf slots /\
      exists segs, parse_segments p = Ok segs /\ existsb is_param segs = false) (exact r);
  wf_parametric : Forall (fun t => slots_wf (by_method t) /\ existsb is_param (segments t) = true) (parametric r);
  wf_shapes : ForallOrdPairs (fun a b => same_shape a b = false) (segments <$> parametric r);
}.

(** ** The segment walk computes on [segments_of] *)
Lemma for_each_segment_loop_walk {S E} fuel (fn : S -> bytes -> result E (S * bool)) path pos s :
  pos <= length path -> length path < pos + fuel ->
  for_each_segment_loop fuel fn path pos s = walk fn (split_on "/" (drop pos path)) s.
Proof.
  revert pos s. induction fuel as [|fuel IH]; intros pos s Hp Hf; [lia|]. cbn [for_each_segment_loop].
  rewrite decide_True by done. destruct (find_char "/" path pos) as [next|] eqn:Ef.
  - rewrite (split_on_drop _ _ _ _ Ef). apply find_char_spec in Ef as (E1 & _). simpl.
    destruct (fn s _) as [[s' [|]]|e]; simpl; try done.
    rewrite IH by lia. do 3 f_equal. lia.
  - apply find_char_None in Ef. rewrite split_on_no_sep by done. simpl.
    unfold substr_from. by destruct (fn s _) as [[s' [|]]|e].
Qed.

Lemma for_each_segment_walk {S E} path (fn : S -> bytes -> result E (S * bool)) s :
  for_each_segment path fn s = walk fn (segments_of path) s.
Proof.
  unfold for_each_segment. destruct path as [|c path]; [done|].
  by rewrite for_each_segment_loop_walk by (simpl; lia).
Qed.

(** ** Normalization *)
Lemma collapse_loop_app path prev out : collapse_loop path prev out = out ++ collapse_loop path prev [].
Proof.
  revert prev out. induction path as [|c path IH]; intros prev out; simpl; [by rewrite app_nil_r|].
  destruct (bool_decide (c = "/"%char) && prev); [apply IH|].
  rewrite IH, (IH _ [c]). by rewrite app_assoc.
Qed.

Lemma collapse_loop_id path prev :
  find_sub_index (B "//") path = None -> (prev = true -> head path <> Some "/"%char) ->
  collapse_loop path prev [] = path.
Proof.
  revert prev. induction path as [|c path IH]; intros prev Hs Hp; [done|].
  change (find_sub_index (B "//") (c :: path)) with
    (if starts_with (B "//") (c :: path) then Some 0 else S <$> find_sub_index (B "//") path) in Hs.
  destruct (starts_with (B "//") (c :: path)) eqn:Est; [done|]. apply fmap_None in Hs.
  cbn [collapse_loop]. destruct (bool_decide_reflect (c = "/"%char)) as [->|Hc]; simpl.
  - destruct prev; [by destruct Hp|]. rewrite collapse_loop_app, IH; [done|done|].
    intros _ Hh. destruct path as [|c' path]; simplify_eq/=.
  - by rewrite collapse_loop_app, IH.
Qed.

Lemma find_sub_0 needle hay : find_sub needle hay 0 = find_sub_index needle hay.
Proof.
  unfold find_sub. rewrite decide_True by lia. rewrite drop_0. by destruct (find_sub_index needle hay).
Qed.

Lemma normalize_agree_lemma n path : normalize_lookup n path = normalize_owned n path.
Proof.
  unfold normalize_lookup, normalize_owned. rewrite find_sub_0.
  destruct n; try done. destruct (find_sub_index (B "//") path) eqn:E; [done|].
  simpl. by rewrite collapse_loop_id.
Qed.

(** ** Template matching *)

(** The captures of a template over segments, as a function. *)
Fixpoint match_caps (tmpl : list PathSegment) (segs : list bytes) : option (list (bytes * bytes)) :=
  match tmpl, segs with
  | [], [] => Some []
  | ps :: tmpl, seg :: segs =>
      if is_param ps then
        if decide (seg = []) then None
        else d ← url_decode seg false; caps ← match_caps tmpl segs; Some ((text ps, d) :: caps)
      else if decide (seg = text ps) then match_caps tmpl segs else None
  | _, _ => None
  end.

Lemma match_caps_Matches tmpl segs caps : match_caps tmpl segs = Some caps <-> Matches tmpl segs caps.
Proof.
  split.
  - revert segs caps. induction tmpl as [|ps tmpl IH]; intros [|seg segs] caps E; simplify_eq/=; [constructor|].
    destruct (is_param ps) eqn:Ep.
    + case_decide; [done|]. apply bind_Some in E as (d & Hd & E).
      apply bind_Some in E as (cs & Hc & E). simplify_eq. apply url_decode_spec in Hd.
      constructor; auto.
    + case_decide; [|done]. subst. constructor; auto.
  - induction 1 as [|ps tmpl segs caps Hp HM IH|ps tmpl seg d segs caps Hp Hn Hd HM IH]; simpl; [done| |];
      rewrite Hp.
    + by rewrite decide_True.
    + rewrite decide_False by done. apply url_decode_spec in Hd. rewrite Hd. simpl. by rewrite IH.
Qed.

Lemma match_segment_walk tmpl segs i ps :
  i <= length tmpl ->
  match match_caps (drop i tmpl) segs with
  | Some caps => walk (match_segment tmpl) segs (i, ps) = Ok ((length tmpl, ps ++ caps), true)
  | None => exists j ps' w, walk (match_segment tmpl) segs (i, ps) = Ok ((j, ps'), w) /\
                            w && (j =? length tmpl) = false
  end.
Proof.
  revert i ps. induction segs as [|seg segs IH]; intros i ps Hi.
  { destruct (drop i tmpl) as [|p rest] eqn:Ed; simpl.
    - rewrite app_nil_r. do 3 f_equal. apply (f_equal length) in Ed.
      rewrite length_drop in Ed. simpl in Ed. lia.
    - exists i, ps, true. split; [done|]. apply Nat.eqb_neq. intros ->. by rewrite drop_all in Ed. }
  cbn [walk]. destruct (match_segment tmpl (i, ps) seg) as [[st c]|[]] eqn:Em. unfold match_segment in Em.
  destruct (tmpl !! i) as [p|] eqn:Ei.
  2: { apply lookup_ge_None in Ei. rewrite drop_ge by done. simplify_eq/=. by do 3 eexists. }
  pose proof (lookup_lt_Some _ _ _ Ei) as Hlt. rewrite (drop_S _ _ _ Ei). cbn [match_caps].
  destruct (is_param p); simpl in Em.
  - case_bool_decide; [rewrite decide_True by done; simplify_eq/=; by do 3 eexists|]. rewrite decide_False by done.
    rewrite url_decode_arena_block in Em. destruct (url_decode seg false) as [d|]; simplify_eq/=; [|by do 3 eexists].
    specialize (IH (S i) (ps ++ [(text p, d)]) ltac:(lia)).
    destruct (match_caps (drop (S i) tmpl) segs); simpl; [|done].
    by rewrite <- app_assoc in IH.
  - case_bool_decide; simplify_eq; [rewrite decide_True by done|rewrite decide_False by done; simpl; by do 3 eexists].
    apply IH. lia.
Qed.

Lemma match_template_caps {H} (t : ParamTemplate H) path :
  match match_caps (segments t) (segments_of path) with
  | Some caps => match_template t path [] = (true, caps)
  | None => fst (match_template t path []) = false
  end.
Proof.
  unfold match_template. rewrite for_each_segment_walk.
  pose proof (match_segment_walk (segments t) (segments_of path) 0 [] ltac:(lia)) as HW. rewrite drop_0 in HW.
  destruct (match_caps _ _) as [caps|].
  - rewrite HW. by rewrite Nat.eqb_refl.
  - destruct HW as (j & ps' & w & -> & Hf). done.
Qed.

Lemma match_template_true {H} (t : ParamTemplate H) path caps :
  match_template t path [] = (true, caps) <-> Matches (segments t) (segments_of path) caps.
Proof.
  rewrite <- match_caps_Matches. pose proof (match_template_caps t path) as HC.
  destruct (match_caps _ _) as [caps'|].
  - rewrite HC. split; congruence.
  - split; [intros E; by rewrite E in HC|done].
Qed.

Lemma match_template_false {H} (t : ParamTemplate H) path :
  fst (match_template t path []) = false <-> ~ exists caps, Matches (segments t) (segments_of path) caps.
Proof.
  destruct (match_template t path []) as [[|] caps] eqn:E; simpl.
  - apply match_template_true in E. split; [done|]. intros Hn. destruct Hn. eauto.
  - split; [|done]. intros _ [caps' HM]. apply match_template_true in HM. congruence.
Qed.

(** ** Method slots *)
Lemma slot_insert_eq {H} (slots : MethodSlots H) i h :
  i < length slots -> slot (<[i := Some h]> slots) i = Some h.
Proof. intros Hi. unfold slot. by rewrite list_lookup_insert_eq. Qed.

Lemma slot_insert_ne {H} (slots : MethodSlots H) i j h : i <> j -> slot (<[i := h]> slots) j = slot slots j.
Proof. intros Hi. unfold slot. by rewrite list_lookup_insert_ne. Qed.

Lemma slot_insert_Some {H} (slots : MethodSlots H) i j h h' :
  slot slots i = None -> slot slots j = Some h' -> slot (<[i := Some h]> slots) j = Some h'.
Proof. intros Hi Hj. rewrite slot_insert_ne; [done|]. intros ->. congruence. Qed.

Lemma length_no_slots {H} : length (no_slots : MethodSlots H) = HTTP_METHOD_COUNT.
Proof. apply length_replicate. Qed.

Lemma slot_no_slots {H} i : slot (no_slots : MethodSlots H) i = None.
Proof.
  unfold slot, no_slots. destruct (replicate HTTP_METHOD_COUNT (None : option H) !! i) as [o|] eqn:E; [|done].
  by apply lookup_replicate in E as [-> _].
Qed.

Lemma to_underlying_pos m : m <> HttpMethod.unknown -> 0 < HttpMethod.to_underlying m.
Proof. destruct m; simpl; (done || lia). Qed.

Definition slots_shape {H} (slots : MethodSlots H) : Prop := length slots = HTTP_METHOD_COUNT /\ slot slots 0 = None.

Lemma slots_wf_insert {H} (slots : MethodSlots H) m h :
  slots_shape slots -> m <> HttpMethod.unknown -> slots_wf (<[HttpMethod.to_underlying m := Some h]> slots).
Proof.
  intros [Hl H0] Hm. pose proof (to_underlying_pos m Hm). pose proof (to_underlying_lt m).
  split_and!; [by rewrite length_insert|rewrite slot_insert_ne; [done|lia]|].
  eexists _, h. rewrite slot_insert_eq; [done|lia].
Qed.

Lemma slots_wf_shape {H} (slots : MethodSlots H) : slots_wf slots -> slots_shape slots.
Proof. intros (? & ? & _). done. Qed.

Lemma no_slots_shape {H} : slots_shape (no_slots : MethodSlots H).
Proof. split; [apply length_no_slots|apply slot_no_slots]. Qed.

#[export] Hint Resolve slots_wf_insert slots_wf_shape no_slots_shape : menagerie.

Lemma fold_allowed {H} (slots : MethodSlots H) idxs acc :
  fold_left (fun out i => match slot slots i with
                          | Some _ => out ++ [HttpMethod.of_underlying i]
                          | None => out
                          end) idxs acc =
  acc ++ (HttpMethod.of_underlying <$> filter (fun i => is_Some (slot slots i)) idxs).
Proof.
  revert acc. induction idxs as [|i idxs IH]; intros acc; simpl; [by rewrite app_nil_r|].
  rewrite IH, filter_cons. destruct (slot slots i); case_decide as Hd.
  - simpl. by rewrite <- app_assoc.
  - destruct Hd. by eexists.
  - by destruct Hd.
  - done.
Qed.

Lemma allowed_methods_elem {H} (slots : MethodSlots H) m :
  m ∈ allowed_methods slots <-> m <> HttpMethod.unknown /\ is_Some (slot slots (HttpMethod.to_underlying m)).
Proof.
  unfold allowed_methods. rewrite fold_allowed, app_nil_l, list_elem_of_fmap.
  pose proof (to_underlying_lt m) as Hlt. split.
  - intros (i & -> & Hi). rewrite list_elem_of_filter, elem_of_seq in Hi.
    destruct Hi as [Hs Hi]. change HTTP_METHOD_COUNT with 8 in Hi.
    assert (i < 8) as Hi8 by lia. clear Hlt.
    do 8 (destruct i as [|i]; [first [lia | done]|]). lia.
  - intros [Hm Hs]. exists (HttpMethod.to_underlying m). rewrite of_to_underlying. split; [done|].
    rewrite list_elem_of_filter, elem_of_seq. pose proof (to_underlying_pos m Hm). split; [done|lia].
Qed.

(** ** Placing a parametric template *)
Lemma same_shape_refl a : same_shape a a = true.
Proof.
  unfold same_shape. induction a as [|x a IH]; simpl; [done|].
  rewrite eqb_reflx, IH, bool_decide_true by done. by rewrite orb_true_r.
Qed.

Lemma shape_names_eq a b : same_shape a b = true -> names_match a b = true -> a = b.
Proof.
  unfold same_shape, names_match. revert b.
  induction a as [|[tx px] a IH]; intros [|[ty py] b]; simpl; try done.
  rewrite !andb_true_iff, bool_decide_eq_true. intros [[Hp _] Hs] [Ht Hn].
  apply eqb_prop in Hp. subst. f_equal. auto.
Qed.

Definition updated {H} (t : ParamTemplate H) (idx : nat) (h : H) : ParamTemplate H :=
  {| segments := segments t; by_method := <[idx := Some h]> (by_method t) |}.

Lemma place_parametric_spec {H} (ts : list (ParamTemplate H)) segs idx h :
  match place_parametric ts segs idx h with
  | NoSuchShape => Forall (fun t => same_shape (segments t) segs = false) ts
  | Conflicting _ => exists t, t ∈ ts /\ same_shape (segments t) segs = true /\
      (segments t <> segs \/ is_Some (slot (by_method t) idx))
  | Placed ts' => exists l1 t l2, ts = l1 ++ t :: l2 /\ ts' = l1 ++ updated t idx h :: l2 /\
      segments t = segs /\ slot (by_method t) idx = None /\
      Forall (fun t => same_shape (segments t) segs = false) l1
  end.
Proof.
  induction ts as [|t ts IH]; simpl; [constructor|].
  destruct (same_shape (segments t) segs) eqn:Es; simpl.
  - destruct (names_match (segments t) segs) eqn:En; simpl.
    + destruct (slot (by_method t) idx) eqn:Esl.
      * exists t. split_and!; [by left|done|right; by eexists].
      * exists [], t, ts. split_and!; try done. by apply shape_names_eq.
    + exists t. split_and!; [by left|done|left; intros <-].
      assert (names_match (segments t) (segments t) = true) as Hr; [|congruence].
      clear. unfold names_match. induction (segments t) as [|x l IHl]; simpl; [done|].
      by rewrite bool_decide_true by done.
  - destruct (place_parametric ts segs idx h) as [|d|ts'].
    + by constructor.
    + destruct IH as (u & Hu & ?). exists u. split; [by right|done].
    + destruct IH as (l1 & u & l2 & -> & -> & Hsg & Hsl & HF). exists (t :: l1), u, l2.
      split_and!; try done. by constructor.
Qed.

(** ** The effect of [add_route]: the three ways a registration can end *)
Inductive AddOutcome {H} (r : RouteRegistry H) (m : HttpMethod.t) (n : bytes) (segs : list PathSegment) (h : H)
    : RouteRegistry H -> Prop :=
| AddExact slots :
    existsb is_param segs = false -> slots = default no_slots (exact r !! n) ->
    slot slots (HttpMethod.to_underlying m) = None ->
    AddOutcome r m n segs h (set_exact r (<[n := <[HttpMethod.to_underlying m := Some h]> slots]> (exact r)))
| AddTemplate l1 slots l2 :
    existsb is_param segs = true -> slot slots (HttpMethod.to_underlying m) = None ->
    Forall (fun t => same_shape (segments t) segs = false) l1 ->
    parametric r = l1 ++ {| segments := segs; by_method := slots |} :: l2 \/
      (parametric r = l1 /\ l2 = [] /\ slots = no_slots) ->
    AddOutcome r m n segs h (set_parametric r (l1 ++
      {| segments := segs; by_method := <[HttpMethod.to_underlying m := Some h]> slots |} :: l2))
| AddConflict d :
    (if existsb is_param segs
     then exists t, t ∈ parametric r /\ same_shape (segments t) segs = true /\
            (segments t <> segs \/ is_Some (slot (by_method t) (HttpMethod.to_underlying m)))
     else exists slots, exact r !! n = Some slots /\ is_Some (slot slots (HttpMethod.to_underlying m))) ->
    AddOutcome r m n segs h
      (push_conflict r {| conflict_method := m; conflict_path := n; conflict_detail := d |}).

Lemma add_route_outcome {H} (r r' : RouteRegistry H) m path oh :
  add_route r m path oh = Ok r' ->
  frozen r = false /\ m <> HttpMethod.unknown /\ head path = Some "/"%char /\
  exists h segs, oh = Some h /\ parse_segments (normalize_owned (norm r) path) = Ok segs /\
    AddOutcome r m (normalize_owned (norm r) path) segs h r'.
Proof.
  unfold add_route. intros E. destruct (frozen r) eqn:Ef; [done|].
  case_decide as Hm; [done|]. destruct oh as [h|]; [|done].
  destruct (bool_decide_reflect (head path = Some "/"%char)) as [Hh|]; [|done]. simpl in E.
  set (n := normalize_owned (norm r) path) in *.
  destruct (parse_segments n) as [segs|e] eqn:Eps; [|done]. cbn [mbind result_bind] in E.
  split_and!; [done..|]. exists h, segs. split_and!; [done|done|].
  destruct (existsb is_param segs) eqn:Ep; simpl in E.
  - pose proof (place_parametric_spec (parametric r) segs (HttpMethod.to_underlying m) h) as HP.
    destruct (place_parametric _ _ _ _) as [|d|ts']; injection E as <-.
    + apply (AddTemplate _ _ _ _ _ (parametric r) no_slots []); auto using slot_no_slots.
    + apply AddConflict. by rewrite Ep.
    + destruct HP as (l1 & [sg bm] & l2 & HE & -> & <- & Hsl & HF).
      by apply (AddTemplate _ _ _ _ _ l1 bm l2); auto.
  - destruct (slot (default no_slots (exact r !! n)) (HttpMethod.to_underlying m)) as [h0|] eqn:Esl;
      injection E as <-.
    + destruct (exact r !! n) as [slots|] eqn:Ee; simpl in Esl |- *; [|by rewrite slot_no_slots in Esl].
      rewrite insert_id by done. replace (set_exact r (exact r)) with r by (by destruct r).
      apply AddConflict. rewrite Ep. rewrite Ee. eauto.
    + pose proof (AddExact r m n segs h _ Ep eq_refl Esl) as HA. unfold set_exact in *. simpl in *.
      by rewrite insert_insert_eq.
Qed.

(** ** Lookup *)
Definition unmatched {H} (n : bytes) (t : ParamTemplate H) : Prop :=
  ~ exists caps, Matches (segments t) (segments_of n) caps.

Lemma find_parametric_app {H} (l1 l2 : list (ParamTemplate H)) n idx :
  Forall (unmatched n) l1 -> find_parametric (l1 ++ l2) n idx = find_parametric l2 n idx.
Proof.
  induction 1 as [|t l1 Ht HF IH]; simpl; [done|].
  apply match_template_false in Ht. by destruct (match_template t n []) as [[|] ps].
Qed.

Lemma find_parametric_hit {H} (l1 l2 : list (ParamTemplate H)) t n idx caps :
  Forall (unmatched n) l1 -> Matches (segments t) (segments_of n) caps ->
  find_parametric (l1 ++ t :: l2) n idx =
    match slot (by_method t) idx with
    | Some h => Ok {| handler := h; path_params := caps |}
    | None => Err (MethodNotAllowedError (allowed_methods (by_method t)))
    end.
Proof.
  intros HF HM. rewrite find_parametric_app by done. simpl.
  apply match_template_true in HM. by rewrite HM.
Qed.

(** The first template that matches, if any. *)
Lemma first_match {H} (ts : list (ParamTemplate H)) n :
  Forall (unmatched n) ts \/
  exists l1 t l2 caps, ts = l1 ++ t :: l2 /\ Forall (unmatched n) l1 /\ Matches (segments t) (segments_of n) caps.
Proof.
  induction ts as [|t ts IH]; [by left|].
  destruct (match_template t n []) as [[|] caps] eqn:E.
  - right. exists [], t, ts, caps. split_and!; [done..|]. by apply match_template_true.
  - assert (unmatched n t) by (apply match_template_false; by rewrite E).
    destruct IH as [HF|(l1 & u & l2 & cs & -> & HF & HM)].
    + left. by constructor.
    + right. exists (t :: l1), u, l2, cs. split_and!; [done|by constructor|done].
Qed.

(** The Allow list of a slot array: every verb that has a handler, once. *)
Definition AllowedFor {H} (slots : MethodSlots H) (allowed : list HttpMethod.t) : Prop :=
  NoDup allowed /\
  forall m, m ∈ allowed <-> m <> HttpMethod.unknown /\ is_Some (slot slots (HttpMethod.to_underlying m)).

Lemma allowed_methods_spec {H} (slots : MethodSlots H) : AllowedFor slots (allowed_methods slots).
Proof.
  split; [|apply allowed_methods_elem]. unfold allowed_methods. rewrite fold_allowed, app_nil_l.
  apply NoDup_fmap_2_strong; [|apply NoDup_filter, NoDup_seq].
  intros i j Hi Hj E. rewrite list_elem_of_filter, elem_of_seq in Hi, Hj.
  destruct Hi as [_ Hi], Hj as [_ Hj]. change HTTP_METHOD_COUNT with 8 in Hi, Hj.
  do 8 (destruct i as [|i]; [do 8 (destruct j as [|j]; [first [lia|done]|]); lia|]). lia.
Qed.

(** What the registry promises about a lookup of the normalized path [n]: an
    exact entry decides alone; otherwise the first template in registration
    order that matches decides; otherwise nothing is found. *)
Inductive Resolution {H} (r : RouteRegistry H) (m : HttpMethod.t) (n : bytes) : result http_error (ResolvedRoute H) -> Prop :=
| ResolvedExact slots h :
    exact r !! n = Some slots -> slot slots (HttpMethod.to_underlying m) = Some h ->
    Resolution r m n (Ok {| handler := h; path_params := [] |})
| RefusedExact slots allowed :
    exact r !! n = Some slots -> slot slots (HttpMethod.to_underlying m) = None -> AllowedFor slots allowed ->
    Resolution r m n (Err (MethodNotAllowedError allowed))
| ResolvedTemplate l1 t l2 caps h :
    exact r !! n = None -> parametric r = l1 ++ t :: l2 -> Forall (unmatched n) l1 ->
    Matches (segments t) (segments_of n) caps -> slot (by_method t) (HttpMethod.to_underlying m) = Some h ->
    Resolution r m n (Ok {| handler := h; path_params := caps |})
| RefusedTemplate l1 t l2 caps allowed :
    exact r !! n = None -> parametric r = l1 ++ t :: l2 -> Forall (unmatched n) l1 ->
    Matches (segments t) (segments_of n) caps -> slot (by_method t) (HttpMethod.to_underlying m) = None ->
    AllowedFor (by_method t) allowed ->
    Resolution r m n (Err (MethodNotAllowedError allowed))
| Unresolved :
    exact r !! n = None -> Forall (unmatched n) (parametric r) ->
    Resolution r m n (Err (NotFoundError (B "route") n)).

Lemma find_route_resolution {H} (r : RouteRegistry H) m path :
  Resolution r m (normalize_lookup (norm r) path) (find_route r m path).
Proof.
  unfold find_route. set (n := normalize_lookup (norm r) path).
  destruct (exact r !! n) as [slots|] eqn:Ee.
  - destruct (slot slots _) as [h|] eqn:Es; econstructor; eauto using allowed_methods_spec.
  - destruct (first_match (parametric r) n) as [HF|(l1 & t & l2 & caps & HE & HF & HM)].
    + rewrite <- (app_nil_r (parametric r)), find_parametric_app by done. by apply Unresolved.
    + rewrite HE, (find_parametric_hit _ _ _ _ _ caps) by done.
      destruct (slot (by_method t) _) as [h|] eqn:Es; [by eapply ResolvedTemplate|].
      eapply RefusedTemplate; eauto using allowed_methods_spec.
Qed.

(** ** The invariant *)
Lemma ForallOrdPairs_snoc {A} (R : A -> A -> Prop) l x :
  ForallOrdPairs R l -> Forall (fun y => R y x) l -> ForallOrdPairs R (l ++ [x]).
Proof.
  induction 1 as [|y l Hy HF IH]; intros Hx; simpl; [repeat constructor|].
  inv Hx. constructor; [|auto]. apply Forall_app. auto.
Qed.

Lemma ForallOrdPairs_app_r {A} (R : A -> A -> Prop) l k : ForallOrdPairs R (l ++ k) -> ForallOrdPairs R k.
Proof. induction l as [|x l IH]; simpl; [done|]. intros HW. inv HW. auto. Qed.

Lemma add_template_wf {H} (r : RouteRegistry H) m segs h l1 slots l2 :
  registry_wf r -> m <> HttpMethod.unknown -> existsb is_param segs = true ->
  Forall (fun t => same_shape (segments t) segs = false) l1 ->
  parametric r = l1 ++ {| segments := segs; by_method := slots |} :: l2 \/
    (parametric r = l1 /\ l2 = [] /\ slots = no_slots) ->
  registry_wf (set_parametric r (l1 ++
      {| segments := segs; by_method := <[HttpMethod.to_underlying m := Some h]> slots |} :: l2)).
Proof.
  intros [Hex Hpar Hsh] Hm Hp HF Hr. split; simpl; [done| |].
  - destruct Hr as [Hr|(Hr & -> & ->)]; rewrite Hr in Hpar.
    + apply Forall_app in Hpar as [H1 H2]. inv H2. apply Forall_app. split; [done|].
      constructor; [|done]. destruct H4 as [H4 _]. simpl in *. auto with menagerie.
    + apply Forall_app. split; [done|]. constructor; [|done]. split; [apply slots_wf_insert|]; auto with menagerie.
  - rewrite fmap_app, fmap_cons. simpl. destruct Hr as [Hr|(Hr & -> & ->)]; rewrite Hr in Hsh.
    + by rewrite fmap_app, fmap_cons in Hsh.
    + simpl. apply ForallOrdPairs_snoc; [done|]. by apply Forall_fmap.
Qed.

Lemma add_route_wf_lemma {H} (r r' : RouteRegistry H) m path oh :
  registry_wf r -> add_route r m path oh = Ok r' -> registry_wf r'.
Proof.
  intros Hwf (_ & Hm & _ & h & segs & _ & Hps & HA)%add_route_outcome.
  destruct HA as [slots Hl -> Hs|l1 slots l2 Hp Hs HF Hr|d _].
  - destruct Hwf as [Hex Hpar Hsh]. split; simpl; [|done..].
    apply map_Forall_insert_2; [|done]. split; [|eauto].
    apply slots_wf_insert; [|done]. destruct (exact r !! _) as [s0|] eqn:E; simpl; [|auto with menagerie].
    apply slots_wf_shape. by eapply (map_Forall_lookup_1 _ _ _ _ Hex) in E as [? _].
  - by apply add_template_wf.
  - destruct Hwf. by split.
Qed.

Lemma route_registry_wf {H} n : registry_wf (route_registry n : RouteRegistry H).
Proof. split; simpl; [apply map_Forall_empty|constructor..]. Qed.

(** ** Registration against lookup *)
Lemma find_parametric_update {H} (l1 l2 : list (ParamTemplate H)) segs slots i h n idx rr :
  slot slots i = None ->
  find_parametric (l1 ++ {| segments := segs; by_method := slots |} :: l2) n idx = Ok rr ->
  find_parametric (l1 ++ {| segments := segs; by_method := <[i := Some h]> slots |} :: l2) n idx = Ok rr.
Proof.
  intros Hi. induction l1 as [|t l1 IH]; cbn [app find_parametric].
  - unfold match_template. cbn [segments by_method].
    destruct (for_each_segment _ _ _) as [[[j ps] w]|[]].
    destruct (w && _); simpl; [|done].
    destruct (slot slots idx) as [h'|] eqn:E; [|done]. by rewrite (slot_insert_Some _ _ _ _ h').
  - by destruct (match_template t n []) as [[|] ps].
Qed.

Lemma find_parametric_snoc {H} (l1 l2 : list (ParamTemplate H)) n idx rr :
  find_parametric l1 n idx = Ok rr -> find_parametric (l1 ++ l2) n idx = Ok rr.
Proof.
  induction l1 as [|t l1 IH]; simpl; [done|]. by destruct (match_template t n []) as [[|] ps].
Qed.

Lemma app_self_nil {A} (l k : list A) : l ++ k = l -> k = [].
Proof. intros E. apply (app_inv_head l). by rewrite app_nil_r. Qed.

Lemma same_shape_trans a b c : same_shape a b = true -> same_shape c b = true -> same_shape a c = true.
Proof.
  unfold same_shape. revert b c.
  induction a as [|[ta pa] a IH]; intros [|[tb pb] b] [|[tc pc] c]; simpl; try done.
  rewrite !andb_true_iff, !orb_true_iff, !bool_decide_eq_true, !eqb_true_iff.
  intros [[-> H1] H2] [[-> H3] H4]. split_and!; [done| |by eapply IH].
  destruct H1 as [H1|H1]; [auto|]. destruct H3 as [H3|H3]; [auto|]. right. congruence.
Qed.

(** A template that was placed without a conflict has the only shape of its kind. *)
Lemma not_taken {H} (r : RouteRegistry H) segs l1 slots l2 m t :
  registry_wf r -> slot slots (HttpMethod.to_underlying m) = None ->
  Forall (fun t => same_shape (segments t) segs = false) l1 ->
  parametric r = l1 ++ {| segments := segs; by_method := slots |} :: l2 \/
    (parametric r = l1 /\ l2 = [] /\ slots = no_slots) ->
  t ∈ parametric r -> same_shape (segments t) segs = true ->
  segments t <> segs \/ is_Some (slot (by_method t) (HttpMethod.to_underlying m)) -> False.
Proof.
  intros Hwf Hs HF Hr Ht Hsh Hor. rewrite Forall_forall in HF.
  assert (t ∉ l1) as Hn by (intros ?%HF; congruence).
  destruct Hr as [Hr|(Hr & _)]; rewrite Hr in Ht; [|done].
  apply elem_of_app in Ht as [Ht|Ht]; [done|]. apply elem_of_cons in Ht as [->|Ht].
  - simpl in Hor. destruct Hor as [|[? ?]]; [done|congruence].
  - pose proof (wf_shapes _ Hwf) as HW. rewrite Hr, fmap_app, fmap_cons in HW.
    apply ForallOrdPairs_app_r in HW. inv HW. rewrite Forall_fmap, Forall_forall in H2.
    specialize (H2 _ Ht). simpl in H2.
    rewrite (same_shape_trans segs segs (segments t)) in H2; [done|apply same_shape_refl|done].
Qed.

(** ** Properties *)

(** C1. [find_route] implements the routing contract: an exact entry decides
    alone; otherwise the first registered template that matches the request
    segment by segment (percent-decoding parameters) decides, with its captures;
    405 carries exactly the verbs that have a handler; 404 otherwise. *)
Theorem find_route_correct {H} (r : RouteRegistry H) m path :
  Resolution r m (normalize_owned (norm r) path) (find_route r m path).
Proof. rewrite <- normalize_agree_lemma. apply find_route_resolution. Qed.

(** Registration and lookup normalize alike: the allocation-free lookup path
    returns what the registration path stores, under every policy. *)
Theorem normalize_lookup_agrees (n : PathNormalization.t) (path : bytes) :
  normalize_lookup n path = normalize_owned n path.
Proof. apply normalize_agree_lemma. Qed.

(** Every registration, accepted or conflicting, keeps the registry
    invariant: full-width verb arrays with at least one verb and none for
    [unknown], literal keys, and templates that pairwise differ in shape. *)
Theorem add_route_wf {H} (r r' : RouteRegistry H) m path oh :
  registry_wf r -> add_route r m path oh = Ok r' -> registry_wf r'.
Proof. apply add_route_wf_lemma. Qed.

Lemma add_route_resolves_lemma {H} (r r' : RouteRegistry H) m path h segs q caps :
  registry_wf r -> add_route r m path (Some h) = Ok r' -> conflicts r' = conflicts r ->
  parse_segments (normalize_owned (norm r) path) = Ok segs ->
  (if existsb is_param segs
   then exact r !! normalize_owned (norm r) q = None /\
        Forall (fun t => same_shape (segments t) segs = false -> unmatched (normalize_owned (norm r) q) t) (parametric r) /\
        Matches segs (segments_of (normalize_owned (norm r) q)) caps
   else normalize_owned (norm r) q = normalize_owned (norm r) path /\ caps = []) ->
  find_route r' m q = Ok {| handler := h; path_params := caps |}.
Proof.
  intros Hwf (_ & Hm & _ & h' & segs' & Hh & Hps' & HA)%add_route_outcome Hc Hps. simplify_eq.
  rewrite Hps in Hps'. simplify_eq. unfold find_route.
  destruct HA as [slots Hl -> Hs|l1 slots l2 Hp Hs HF Hr|d _]; simpl; rewrite normalize_agree_lemma.
  - rewrite Hl. intros [-> ->]. rewrite lookup_insert_eq, slot_insert_eq; [done|].
    destruct (exact r !! _) as [s0|] eqn:E; simpl; [|apply to_underlying_lt].
    eapply (map_Forall_lookup_1 _ _ _ _ (wf_exact _ Hwf)) in E as [[-> _] _]. apply to_underlying_lt.
  - rewrite Hp. intros (-> & HU & HM). rewrite (find_parametric_hit _ _ _ _ _ caps); [..|done].
    + simpl. rewrite slot_insert_eq; [done|]. destruct Hr as [Hr|(_ & _ & ->)].
      * pose proof (wf_parametric _ Hwf) as HP. rewrite Hr in HP. apply Forall_app in HP as [_ HP].
        inv HP. destruct H2 as [[Hlen _] _]. simpl in Hlen. rewrite Hlen. apply to_underlying_lt.
      * apply to_underlying_lt.
    + assert (Forall (fun t => same_shape (segments t) segs' = false ->
                               unmatched (normalize_owned (norm r) q) t) l1) as HU1.
      { destruct Hr as [Hr|(Hr & _)]; rewrite Hr in HU; [by apply Forall_app in HU as [HU _]|done]. }
      rewrite Forall_forall in HF, HU1 |- *. auto.
  - by apply app_self_nil in Hc.
Qed.

Lemma add_route_preserves_lemma {H} (r r' : RouteRegistry H) m path oh m' q rr :
  add_route r m path oh = Ok r' -> find_route r m' q = Ok rr ->
  (normalize_owned (norm r) q = normalize_owned (norm r) path -> is_Some (exact r !! normalize_owned (norm r) q)) ->
  find_route r' m' q = Ok rr.
Proof.
  intros (_ & _ & _ & h & segs & _ & _ & HA)%add_route_outcome Hf Hq. unfold find_route in *.
  destruct HA as [slots Hl -> Hs|l1 slots l2 Hp Hs HF Hr|d _]; simpl; [..|done];
    rewrite normalize_agree_lemma in *.
  - destruct (decide (normalize_owned (norm r) q = normalize_owned (norm r) path)) as [He|Hne].
    + rewrite He in *. destruct (Hq eq_refl) as [slots E]. rewrite lookup_insert_eq. rewrite E in *. simpl in *.
      destruct (slot slots (HttpMethod.to_underlying m')) as [h'|] eqn:Es; [|done].
      by rewrite (slot_insert_Some _ _ _ _ h').
    + by rewrite lookup_insert_ne by done.
  - destruct (exact r !! _) as [slots'|]; [done|]. destruct Hr as [Hr|(Hr & -> & ->)]; rewrite Hr in Hf.
    + by apply find_parametric_update.
    + by apply find_parametric_snoc.
Qed.

(** What registration leaves alone. *)
Lemma add_route_keeps {H} (r r' : RouteRegistry H) m path oh :
  add_route r m path oh = Ok r' -> norm r' = norm r /\ forall k, is_Some (exact r !! k) -> is_Some (exact r' !! k).
Proof.
  intros (_ & _ & _ & h & segs & _ & _ & HA)%add_route_outcome. destruct HA as [slots _ _ _|l1 slots l2 _ _ _ _|d _]; simpl; [|done..].
  split; [done|]. intros k Hk. destruct (decide (k = normalize_owned (norm r) path)) as [->|Hne].
  - rewrite lookup_insert_eq. by eexists.
  - by rewrite lookup_insert_ne.
Qed.

(** What resolves goes on resolving through later registrations, unless one of them is
    the literal path of the request and there was none before. *)
Lemma add_routes_preserve {H} (routes : list (HttpMethod.t * bytes * option H)) r r' m q rr :
  add_routes r routes = Ok r' -> find_route r m q = Ok rr ->
  (is_Some (exact r !! normalize_owned (norm r) q) \/
   Forall (fun route => normalize_owned (norm r) route.1.2 <> normalize_owned (norm r) q) routes) ->
  find_route r' m q = Ok rr.
Proof.
  revert r. induction routes as [|[[m' path] oh] routes IH]; intros r Ha Hf Hq; simpl in Ha; [congruence|].
  destruct (add_route r m' path oh) as [r1|] eqn:E; [|done]. simpl in Ha. destruct (add_route_keeps _ _ _ _ _ E) as [En Ek].
  apply (IH r1); [done| |].
  - eapply add_route_preserves_lemma; [done..|]. intros Heq. destruct Hq as [Hq|Hq]; [done|]. by inv Hq.
  - rewrite En. destruct Hq as [Hq|Hq]; [left; by apply Ek|]. inv Hq. by right.
Qed.

(** C19. Registration and lookup through the registry's life: a route that is
    registered without a conflict is found, after any further accepted registrations
    and the freeze that lookup asserts, by every request its path matches, with
    the decoded captures. For a literal path that is any request that normalizes to
    it; for a template, any request that matches it segment by segment and that no
    literal route, registered before or after, and no earlier template of another
    shape claims. *)
Theorem add_route_resolves {H} (r r1 r2 : RouteRegistry H) m path h later segs q caps :
  registry_wf r -> add_route r m path (Some h) = Ok r1 -> conflicts r1 = conflicts r -> add_routes r1 later = Ok r2 ->
  parse_segments (normalize_owned (norm r) path) = Ok segs ->
  (if existsb is_param segs
   then exact r !! normalize_owned (norm r) q = None /\
        Forall (fun t => same_shape (segments t) segs = false -> unmatched (normalize_owned (norm r) q) t) (parametric r) /\
        Forall (fun route => normalize_owned (norm r) route.1.2 <> normalize_owned (norm r) q) later /\
        Matches segs (segments_of (normalize_owned (norm r) q)) caps
   else normalize_owned (norm r) q = normalize_owned (norm r) path /\ caps = []) ->
  lookup_route (snd (freeze r2)) m q = Some (Ok {| handler := h; path_params := caps |}).
Proof.
  intros Hwf Ha Hc Hl Hp Hq. unfold lookup_route. cbn [freeze snd frozen]. f_equal.
  trans (find_route r2 m q); [done|]. destruct (add_route_keeps _ _ _ _ _ Ha) as [En _].
  eapply add_routes_preserve; [exact Hl| |rewrite En].
  - eapply add_route_resolves_lemma; [done..|]. by destruct (existsb is_param segs); naive_solver.
  - pose proof (add_route_outcome _ _ _ _ _ Ha) as (_ & _ & _ & h' & segs' & _ & Hp' & HA). rewrite Hp in Hp'. injection Hp' as <-.
    destruct (existsb is_param segs) eqn:Es; [right; apply Hq|]. left. destruct Hq as [-> _].
    destruct HA as [slots _ _ _|l1 slots l2 Hx _ _ _|d _]; simpl in *; [rewrite lookup_insert_eq; by eexists|congruence|].
    by apply app_self_nil in Hc.
Qed.

(** Registration is monotone: whatever already resolves keeps resolving to
    the same handler with the same captures, unless a new literal route takes
    over a path that only a template served. *)
Theorem add_route_preserves {H} (r r' : RouteRegistry H) m path oh m' q rr :
  add_route r m path oh = Ok r' -> find_route r m' q = Ok rr ->
  (normalize_owned (norm r) q = normalize_owned (norm r) path -> is_Some (exact r !! normalize_owned (norm r) q)) ->
  find_route r' m' q = Ok rr.
Proof. apply add_route_preserves_lemma. Qed.

(** A conflict is recorded exactly when the verb is already taken on the
    same literal path or template shape, or the shape exists under other
    parameter names; it carries the method and normalized path, changes no
    lookup at all, and [freeze] hands it out. *)
Theorem add_route_conflict {H} (r r' : RouteRegistry H) m path oh segs :
  add_route r m path oh = Ok r' -> parse_segments (normalize_owned (norm r) path) = Ok segs ->
  let taken :=
    if existsb is_param segs
    then exists t, t ∈ parametric r /\ same_shape (segments t) segs = true /\
           (segments t <> segs \/ is_Some (slot (by_method t) (HttpMethod.to_underlying m)))
    else exists slots, exact r !! normalize_owned (norm r) path = Some slots /\
           is_Some (slot slots (HttpMethod.to_underlying m)) in
  registry_wf r ->
  (conflicts r' <> conflicts r <-> taken) /\
  (taken -> (forall m' q, find_route r' m' q = find_route r m' q) /\
            exists d, fst (freeze r') = fst (freeze r) ++
              [{| conflict_method := m; conflict_path := normalize_owned (norm r) path; conflict_detail := d |}]).
Proof.
  intros (_ & _ & _ & h & segs' & _ & Hps' & HA)%add_route_outcome Hps taken Hwf.
  rewrite Hps in Hps'. injection Hps' as <-.
  destruct HA as [slots Hl -> Hs|l1 slots l2 Hp Hs HF Hr|d Ht].
  - assert (~ taken) as Hnt; [|by split; [split; [intros []|]|]].
    unfold taken. rewrite Hl. intros (slots & E & Hsl). rewrite E in Hs. simpl in Hs.
    rewrite Hs in Hsl. by destruct Hsl.
  - assert (~ taken) as Hnt; [|by split; [split; [intros []|]|]].
    unfold taken. rewrite Hp. intros (t & Ht & Hsh & Hor).
    by apply (not_taken r segs l1 slots l2 m t).
  - split; [split; [done|]|].
    + intros _ Hc. by apply app_self_nil in Hc.
    + intros _. split; [done|]. by exists d.
Qed.

(** ** Witnesses: a registry with a template and a literal route *)
Definition sample_template : RouteRegistry nat :=
  {| frozen := false; norm := PathNormalization.collapse_multi_slash; exact := ∅;
     parametric := [{| segments := [{| text := B "users"; is_param := false |}; {| text := B "id"; is_param := true |}];
                       by_method := [None; Some 7; None; None; None; None; None; None] |}];
     conflicts := [] |}.

Lemma sample_template_registered :
  add_route (route_registry PathNormalization.collapse_multi_slash) HttpMethod.get (B "/users//{id}/") (Some 7) =
  Ok sample_template.
Proof. reflexivity. Qed.

Lemma sample_template_wf : registry_wf sample_template.
Proof.
  eapply add_route_wf_lemma; [|apply sample_template_registered]. apply route_registry_wf.
Qed.

Lemma add_route_wf_witness : exists r', add_route sample_template HttpMethod.post (B "/users/{id}") (Some 8) = Ok r' /\
  registry_wf r'.
Proof.
  eexists. split; [reflexivity|].
  eapply (add_route_wf sample_template _ HttpMethod.post (B "/users/{id}") (Some 8)); [apply sample_template_wf|reflexivity].
Defined.

Lemma add_route_resolves_witness :
  exists r2, add_routes sample_template [(HttpMethod.get, B "/users/me", Some 9); (HttpMethod.post, B "/users/{id}", Some 8)] = Ok r2 /\
  lookup_route r2 HttpMethod.get (B "//users/a%20b") = None /\
  lookup_route (snd (freeze r2)) HttpMethod.get (B "//users/a%20b") =
    Some (Ok {| handler := 7; path_params := [(B "id", B "a b")] |}).
Proof.
  eexists. split; [reflexivity|]. split; [reflexivity|].
  eapply (add_route_resolves (route_registry PathNormalization.collapse_multi_slash) sample_template _ HttpMethod.get
    (B "/users//{id}/") 7 [(HttpMethod.get, B "/users/me", Some 9); (HttpMethod.post, B "/users/{id}", Some 8)]);
    [apply route_registry_wf|reflexivity|reflexivity|reflexivity|reflexivity|].
  split_and!; [reflexivity|constructor|repeat constructor; vm_compute; discriminate|]. apply match_caps_Matches. reflexivity.
Defined.

Lemma add_route_preserves_witness : exists r',
  add_route sample_template HttpMethod.get (B "/users/me") (Some 9) = Ok r' /\
  find_route r' HttpMethod.get (B "/users/you") = Ok {| handler := 7; path_params := [(B "id", B "you")] |}.
Proof.
  eexists. split; [reflexivity|].
  eapply (add_route_preserves sample_template _ HttpMethod.get (B "/users/me") (Some 9)); [reflexivity|reflexivity|].
  vm_compute. discriminate.
Defined.

Lemma add_route_conflict_witness : exists r',
  add_route sample_template HttpMethod.post (B "/users/{name}") (Some 9) = Ok r' /\ conflicts r' <> conflicts sample_template.
Proof.
  eexists. split; [reflexivity|].
  pose proof (add_route_conflict sample_template _ HttpMethod.post (B "/users/{name}") (Some 9) _
                eq_refl eq_refl sample_template_wf) as [Hc _].
  apply Hc. eexists. split_and!; [by left|reflexivity|left; discriminate].
Defined.
