(* ===== verification/RequestContext.v ===== *)
(** * The request context ([types/request_context])

    The handler-facing view of one request: the memoized target split, the
    lazily parsed query, typed parameter conversion, the type-keyed bag with the
    lifetime of its payloads, and the context-scoped response factories.

    Member functions that are [const] in C++ but fill [mutable] caches return
    the updated context next to their result. *)

From S2P Require Import Prelude Url Headers HttpTypes.

(** ** The type-keyed bag

    A [std::type_index] is a natural number, a [void*] an option address (null
    is [None]), and the heap records which payloads are alive and, in order,
    which were destroyed. *)
Section bag.
  Context {V : Type}.

Record BagEntry := { bag_key : nat; bag_ptr : option nat }.

Record Payloads := { live : gmap nat V; next_addr : nat; destroyed : list nat }.

(** [::new (mem) D(value)] in a fresh arena block. *)
Definition construct (h : Payloads) (v : V) : nat * Payloads :=
  (next_addr h,
   {| live := <[next_addr h := v]> (live h); next_addr := S (next_addr h); destroyed := destroyed h |}).

(** The stored destroyer: [~D()] on the pointee. *)
Definition destroy (h : Payloads) (a : nat) : Payloads :=
  {| live := delete a (live h); next_addr := next_addr h; destroyed := destroyed h ++ [a] |}.

Definition destroy_ptr (h : Payloads) (p : option nat) : Payloads :=
  match p with Some a => destroy h a | None => h end.

Fixpoint find_bag_entry (bag : list BagEntry) (key : nat) : option nat :=
  match bag with
  | [] => None
  | e :: bag => if decide (bag_key e = key) then Some 0 else S <$> find_bag_entry bag key
  end.

(** [set<T>]; [ctor] is the outcome of constructing the payload, which may throw. *)
Definition bag_set (bag : list BagEntry) (h : Payloads) (key : nat) (ctor : result exn V)
    : result exn unit * (list BagEntry * Payloads) :=
  match find_bag_entry bag key with
  | Some i =>
      match ctor with
      | Err e => (Err e, (bag, h))
      | Ok v =>
          let '(mem, h) := construct h v in
          let h := destroy_ptr h (bag !! i ≫= bag_ptr) in
          (Ok tt, (<[i := {| bag_key := key; bag_ptr := Some mem |}]> bag, h))
      end
  | None =>
      match ctor with
      | Err e => (Err e, (bag, h))
      | Ok v =>
          let '(mem, h) := construct h v in
          (Ok tt, (bag ++ [{| bag_key := key; bag_ptr := Some mem |}], h))
      end
  end.

(** [get<T>], both overloads: the payload the stored pointer leads to. *)
Definition bag_get (bag : list BagEntry) (h : Payloads) (key : nat) : option V :=
  i ← find_bag_entry bag key; e ← bag !! i; a ← bag_ptr e; live h !! a.

Definition bag_has (bag : list BagEntry) (key : nat) : bool :=
  match find_bag_entry bag key with Some _ => true | None => false end.

(** Move construction of an entry: the source pointer is nulled. *)
Definition bag_entry_move (e : BagEntry) : BagEntry * BagEntry :=
  (e, {| bag_key := bag_key e; bag_ptr := None |}).

(** Moving a context moves every entry. *)
Definition bag_move (bag : list BagEntry) : list BagEntry * list BagEntry :=
  (map (fun e => fst (bag_entry_move e)) bag, map (fun e => snd (bag_entry_move e)) bag).

(** [~RequestContext]. *)
Definition bag_destroy (bag : list BagEntry) (h : Payloads) : Payloads :=
  fold_left (fun h e => destroy_ptr h (bag_ptr e)) bag h.

End bag.

Arguments Payloads V : clear implicits.

(** ** Parameter conversion *)

(** [convert_string<T>] for the integral types. *)
Definition convert_integral (signed : bool) (lo hi : Z) (value : bytes) : option Z :=
  match from_chars signed lo hi value with
  | Some (out, ptr) => if decide (ptr = length value) then Some out else None
  | None => None
  end.

(** [convert_string<bool>]. *)
Definition convert_bool (value : bytes) : option bool :=
  if bool_decide (value = B "1") || bool_decide (value = B "true") then Some true
  else if bool_decide (value = B "0") || bool_decide (value = B "false") then Some false
  else None.

(** [convert_string<std::string>] and [convert_string<std::string_view>]. *)
Definition convert_text (value : bytes) : option bytes := Some value.

(** ** The context *)
Section context.
  Context {F : Type} `{BeastFields F}.

Record RequestContext := {
  request : Request F;
  ctx_path_params : list (bytes * bytes);
  query_parsed : bool;
  query_params : list (bytes * bytes);
  bag : list BagEntry;
  cached_path : option bytes;
  cached_query : option bytes;
}.

Definition request_context (req : Request F) : RequestContext :=
  {| request := req; ctx_path_params := []; query_parsed := false; query_params := [];
     bag := []; cached_path := None; cached_query := None |}.

Definition with_split (c : RequestContext) (p q : bytes) : RequestContext :=
  {| request := request c; ctx_path_params := ctx_path_params c; query_parsed := query_parsed c;
     query_params := query_params c; bag := bag c; cached_path := Some p; cached_query := Some q |}.

Definition with_query (c : RequestContext) (parsed : bool) (ps : list (bytes * bytes)) : RequestContext :=
  {| request := request c; ctx_path_params := ctx_path_params c; query_parsed := parsed;
     query_params := ps; bag := bag c; cached_path := cached_path c; cached_query := cached_query c |}.

Definition method (c : RequestContext) : HttpMethod.t := req_method (request c).
Definition version (c : RequestContext) : HttpVersion.t := req_version (request c).
Definition target (c : RequestContext) : bytes := req_target (request c).

Definition ensure_split (c : RequestContext) : RequestContext :=
  match cached_path c with
  | Some _ => c
  | None =>
      let t := req_target (request c) in
      match find_char "?" t 0 with
      | None => with_split c t []
      | Some q => with_split c (substr t 0 q) (substr_from t (q + 1))
      end
  end.

(** [*cached_path_] of a disengaged optional would be undefined; [ensure_split]
    always engages it ([ensure_split_engaged]). *)
Definition path (c : RequestContext) : bytes * RequestContext :=
  let c := ensure_split c in (default [] (cached_path c), c).

Definition query_string (c : RequestContext) : bytes * RequestContext :=
  let c := ensure_split c in (default [] (cached_query c), c).

Definition header (c : RequestContext) (name : bytes) : option bytes := headers_get (req_headers (request c)) name.
Definition header_or (c : RequestContext) (name fallback : bytes) : bytes :=
  headers_get_or (req_headers (request c)) name fallback.

Definition contains_substr (hay needle : bytes) : bool :=
  match find_sub needle hay 0 with Some _ => true | None => false end.

Definition is_json (c : RequestContext) : bool :=
  match header c (B "content-type") with Some ct => contains_substr ct (B "application/json") | None => false end.
Definition is_form (c : RequestContext) : bool :=
  match header c (B "content-type") with
  | Some ct => contains_substr ct (B "application/x-www-form-urlencoded") | None => false end.
Definition is_multipart (c : RequestContext) : bool :=
  match header c (B "content-type") with Some ct => contains_substr ct (B "multipart/form-data") | None => false end.
Definition accepts_json (c : RequestContext) : bool :=
  match header c (B "accept") with
  | Some a => contains_substr a (B "application/json") || contains_substr a (B "*/*") | None => false end.
Definition accepts_html (c : RequestContext) : bool :=
  match header c (B "accept") with
  | Some a => contains_substr a (B "text/html") || contains_substr a (B "*/*") | None => false end.

(** ** Path and query parameters *)
Definition set_path_param (c : RequestContext) (name value : bytes) : RequestContext :=
  {| request := request c; ctx_path_params := ctx_path_params c ++ [(name, value)];
     query_parsed := query_parsed c; query_params := query_params c; bag := bag c;
     cached_path := cached_path c; cached_query := cached_query c |}.

(** The lookup loop of [raw_path_param] and [raw_query]. *)
Fixpoint find_param (ps : list (bytes * bytes)) (name : bytes) : option bytes :=
  match ps with
  | [] => None
  | (k, v) :: ps => if decide (k = name) then Some v else find_param ps name
  end.

Definition raw_path_param (c : RequestContext) (name : bytes) : option bytes := find_param (ctx_path_params c) name.

(** One pair of [ensure_query_parsed]: pairs with a malformed escape are skipped. *)
Definition query_pair (out : list (bytes * bytes)) (pair : bytes) : result Empty_set (list (bytes * bytes)) :=
  let '(rk, rv) := split_pair pair in
  match url_decode rv true, url_decode rk true with
  | Some v, Some k => Ok (out ++ [(k, v)])
  | _, _ => Ok out
  end.

Definition ensure_query_parsed (c : RequestContext) : RequestContext :=
  if query_parsed c then c
  else
    let c := with_query c true (query_params c) in
    let '(qs, c) := query_string c in
    match amp_run query_pair qs (query_params c) with
    | Ok ps => with_query c true ps
    | Err e => match e with end
    end.

Definition raw_query (c : RequestContext) (name : bytes) : option bytes * RequestContext :=
  let c := ensure_query_parsed c in (find_param (query_params c) name, c).

Section typed.
  Context {T : Type} (convert_string : bytes -> option T).

Definition path_param (c : RequestContext) (name : bytes) : option T :=
  raw ← raw_path_param c name; convert_string raw.

Definition path_param_or (c : RequestContext) (name : bytes) (fallback : T) : T :=
  match path_param c name with Some v => v | None => fallback end.

Definition query (c : RequestContext) (name : bytes) : option T * RequestContext :=
  let '(raw, c) := raw_query c name in (raw ≫= convert_string, c).

Definition query_or (c : RequestContext) (name : bytes) (fallback : T) : T * RequestContext :=
  let '(v, c) := query c name in (default fallback v, c).

End typed.

(** ** Context-scoped response factories *)
Definition make_response (s : HttpStatus.t) (ct : bytes) (with_ct : bool) (body : bytes) : result exn (Response F) :=
  let r := with_status response s in
  r ← (if with_ct then add_header r (B "Content-Type") ct else Ok r);
  Ok (if bool_decide (body = []) then r else response_with_body r body).

Definition ctx_ok (body ct : bytes) := make_response HttpStatus.ok ct true body.
Definition ctx_json (body : bytes) := make_response HttpStatus.ok (B "application/json") true body.
Definition ctx_created (body ct : bytes) := make_response HttpStatus.created ct true body.
Definition ctx_status (s : HttpStatus.t) (body ct : bytes) := make_response s ct true body.
Definition ctx_no_content : Response F := with_status response HttpStatus.no_content.
Definition ctx_redirect (location : bytes) (status : HttpStatus.t) : result exn (Response F) :=
  add_header (with_status response status) (B "Location") location.

(** ** Reference definitions *)

(** The target up to its first ['?'] and what follows it. *)
Definition split_target (t : bytes) : bytes * bytes :=
  match find_index "?" t with
  | None => (t, [])
  | Some q => (take q t, drop (S q) t)
  end.

(** The query parameters of a target: the decodable pairs, in order. *)
Definition decode_pair (pair : bytes) : option (bytes * bytes) :=
  let '(rk, rv) := split_pair pair in
  v ← url_decode rv true; k ← url_decode rk true; Some (k, v).

Definition target_params (t : bytes) : list (bytes * bytes) :=
  omap decode_pair (amp_pieces (snd (split_target t))).

(** The caches hold what the target determines. *)
Record ctx_wf (c : RequestContext) : Prop := {
  wf_split : match cached_path c, cached_query c with
             | None, None => True
             | Some p, Some q => (p, q) = split_target (target c)
             | _, _ => False
             end;
  wf_query : query_params c = if query_parsed c then target_params (target c) else [];
}.

End context.

Arguments RequestContext F : clear implicits.

(** ** The caches *)
Section caches.
  Context {F : Type} `{BeastFields F}.
  Implicit Types c : RequestContext F.

Lemma ensure_split_engaged c :
  ctx_wf c -> let '(p, q) := split_target (target c) in
  ensure_split c = with_split c p q.
Proof.
  intros [Hs _]. unfold ensure_split. destruct (cached_path c) as [p|] eqn:Ep; destruct (cached_query c) as [q|] eqn:Eq;
    try done.
  - rewrite <- Hs. destruct c; simpl in *. by subst.
  - unfold split_target, target. rewrite find_char_0.
    destruct (find_index "?" _); [|done]. unfold substr, substr_from. by rewrite drop_0, Nat.add_1_r.
Qed.

Lemma split_wf c p q : ctx_wf c -> (p, q) = split_target (target c) -> ctx_wf (with_split c p q).
Proof. intros [_ Hq] Hs. by split. Qed.

Lemma path_spec c : ctx_wf c ->
  fst (path c) = fst (split_target (target c)) /\ ctx_wf (snd (path c)) /\ request (snd (path c)) = request c.
Proof.
  intros Hw. pose proof (ensure_split_engaged c Hw) as He. unfold path.
  destruct (split_target (target c)) as [p q] eqn:Es. rewrite He. split_and!; [done|by apply split_wf|done].
Qed.

Lemma query_string_spec c : ctx_wf c ->
  query_string c = (snd (split_target (target c)),
                    with_split c (fst (split_target (target c))) (snd (split_target (target c)))).
Proof.
  intros Hw. pose proof (ensure_split_engaged c Hw) as He. unfold query_string.
  destruct (split_target (target c)) as [p q]. by rewrite He.
Qed.

Lemma query_pair_eq out pair : query_pair out pair = Ok (out ++ option_list (decode_pair pair)).
Proof.
  unfold query_pair, decode_pair. destruct (split_pair pair) as [rk rv].
  destruct (url_decode rv true); simpl; [|by rewrite app_nil_r].
  destruct (url_decode rk true); simpl; [done|by rewrite app_nil_r].
Qed.

Lemma fold_query_pairs ps out : fold_result query_pair ps out = Ok (out ++ omap decode_pair ps).
Proof.
  revert out. induction ps as [|p ps IH]; intros out; cbn [fold_result]; [by rewrite app_nil_r|].
  rewrite query_pair_eq. cbn [mbind result_bind]. rewrite IH, <- app_assoc. simpl. by destruct (decode_pair p).
Qed.

Lemma ensure_query_parsed_spec c : ctx_wf c ->
  let c' := ensure_query_parsed c in
  query_params c' = target_params (target c) /\ ctx_wf c' /\ request c' = request c.
Proof.
  intros Hw. unfold ensure_query_parsed. destruct (query_parsed c) eqn:Eq.
  - pose proof (wf_query _ Hw) as HQ. rewrite Eq in HQ. done.
  - pose proof (wf_query _ Hw) as HQ. rewrite Eq in HQ.
    set (c1 := with_query c true (query_params c)).
    assert (He : query_string c1 = (snd (split_target (target c)),
      with_split c1 (fst (split_target (target c))) (snd (split_target (target c))))).
    { unfold query_string. pose proof (ensure_split_engaged c Hw) as He. revert He.
      destruct (split_target (target c)) as [p q]. unfold ensure_split, c1. simpl.
      destruct (cached_path c) eqn:Ep; [|destruct (find_char _ _ _); intros E; injection E as <- <-; reflexivity].
      intros E. pose proof (f_equal cached_query E) as Eq2. apply (f_equal cached_path) in E. simpl in E, Eq2.
      unfold with_split, with_query. simpl. by rewrite E, Eq2. }
    rewrite He, amp_run_fold, fold_query_pairs. simpl. rewrite HQ. simpl.
    split_and!; [done| |done]. split; [|done]. simpl. symmetry. apply surjective_pairing.
Qed.

(** ** Properties *)

(** The lazy caches are unobservable: on any context whose caches agree with
    its target — a fresh one, and every one the accessors return — [path],
    [query_string] and [raw_query] return what the raw target alone determines,
    leave the request untouched and keep the caches consistent. *)
Theorem accessors_pure c name :
  ctx_wf c ->
  (fst (path c), fst (query_string c)) = split_target (target c) /\
  fst (raw_query c name) = find_param (target_params (target c)) name /\
  (forall c', c' ∈ [snd (path c); snd (query_string c); snd (raw_query c name); set_path_param c name name] ->
     ctx_wf c' /\ request c' = request c).
Proof.
  intros Hw. pose proof (path_spec c Hw) as (P1 & P2 & P3). pose proof (query_string_spec c Hw) as Q.
  pose proof (ensure_query_parsed_spec c Hw) as (R1 & R2 & R3). split_and!.
  - rewrite P1, Q. by destruct (split_target (target c)).
  - unfold raw_query. simpl. by rewrite R1.
  - intros c' Hc. rewrite !elem_of_cons in Hc. destruct Hc as [->|[->|[->|[->|Hc]]]]; [done| |done| |set_solver].
    + rewrite Q. split; [|done]. apply split_wf; [done|]. by destruct (split_target (target c)).
    + split; [|done]. by destruct Hw.
Qed.

Lemma request_context_wf (req : Request F) : ctx_wf (request_context req).
Proof. by split. Qed.

Lemma target_params_encode p kvs :
  "?"%char ∉ p -> target_params (p ++ "?"%char :: encode_query kvs) = kvs.
Proof.
  intros Hp. unfold target_params, split_target. rewrite find_index_app by done.
  cbn [snd]. rewrite drop_app_ge by lia. replace (S (length p) - length p) with 1 by lia. simpl drop.
  rewrite drop_0, amp_pieces_encode. induction kvs as [|[k v] kvs IH]; [done|].
  cbn [map omap list_omap]. unfold decode_pair at 1. rewrite split_encode_pair. cbn [fst snd].
  rewrite !(proj2 (url_decode_spec _ _ _) (pct_encode_Decodes _ _)). simpl. by rewrite IH.
Qed.

(** Query round trip: a handler that asks for parameter [k] of a request
    whose target was built by percent-encoding the pairs [kvs] gets the first
    value bound to [k], and [nullopt] when there is none. *)
Theorem query_roundtrip (req : Request F) p kvs k :
  "?"%char ∉ p -> req_target req = p ++ "?"%char :: encode_query kvs ->
  fst (raw_query (request_context req) k) = find_param kvs k.
Proof.
  intros Hp Ht. unfold raw_query.
  pose proof (ensure_query_parsed_spec _ (request_context_wf req)) as (R1 & _).
  cbn [fst]. rewrite R1. unfold target. simpl. by rewrite Ht, target_params_encode.
Qed.

End caches.

(** ** Integer conversion *)
Definition digits (s : bytes) : Prop := s <> [] /\ Forall (fun c => is_digit c = true) s.

(** [s] is a decimal numeral of value [z], signed types only admitting ['-']. *)
Definition Numeral (signed : bool) (s : bytes) (z : Z) : Prop :=
  (digits s /\ z = Z.of_N (dec_value s)) \/
  (signed = true /\ exists ds, s = "-"%char :: ds /\ digits ds /\ z = (- Z.of_N (dec_value ds))%Z).

Lemma scan_digits_le s v : snd (scan_digits s v) <= length s.
Proof.
  revert v. induction s as [|c s IH]; intros v; simpl; [lia|]. destruct (is_digit c); simpl; [|lia].
  specialize (IH (10 * v + digit_val c)%N). destruct (scan_digits s _); simpl in *. lia.
Qed.

Lemma scan_digits_full s v :
  snd (scan_digits s v) = length s <-> Forall (fun c => is_digit c = true) s.
Proof.
  revert v. induction s as [|c s IH]; intros v; simpl; [by split|].
  destruct (is_digit c) eqn:Ed; simpl.
  - specialize (IH (10 * v + digit_val c)%N). destruct (scan_digits s _) as [w n]; simpl in *.
    rewrite Forall_cons, <- IH. naive_solver lia.
  - split; [done|]. intros HF. inv HF. congruence.
Qed.

(** The scan that [from_chars] performs, when it reaches the end of its input. *)
Lemma scan_all s :
  (let '(v, n) := scan_digits s 0 in n <> 0 /\ n = length s) <->
  digits s.
Proof.
  pose proof (scan_digits_full s 0) as HF. destruct (scan_digits s 0) as [v n]. simpl in HF. unfold digits.
  rewrite <- HF. split; [intros [H0 ->]|intros [H0 ->]]; (split; [|done]).
  - intros ->. done.
  - by destruct s.
Qed.

(** Integral parameters convert exactly: the result is [z] precisely when
    the whole text is a decimal numeral of value [z] and [z] fits the type;
    overflow, a stray byte, an empty text or a minus sign on an unsigned type
    give [nullopt]. *)
Theorem convert_integral_correct signed lo hi s z :
  convert_integral signed lo hi s = Some z <-> Numeral signed s z /\ (lo <= z <= hi)%Z.
Proof.
  unfold convert_integral, from_chars, Numeral.
  destruct (signed && bool_decide (head s = Some "-"%char)) eqn:Em.
  - apply andb_true_iff in Em as [-> Hh%bool_decide_eq_true]. destruct s as [|c s]; [done|]. injection Hh as ->.
    simpl drop. rewrite drop_0. pose proof (scan_all s) as HA.
    assert (~ digits ("-"%char :: s)) as Hnd by (intros [_ HF]; inv HF; done).
    pose proof (scan_digits_value s 0) as HV. destruct (scan_digits s 0) as [v n]. split.
    + case_decide; [done|]. case_decide; [|done]. case_decide; [|done]. intros [= <-].
      assert (digits s) as Hd by (apply HA; simplify_eq/=; auto).
      destruct Hd as [? HF]. specialize (HV HF). simplify_eq. split; [|done]. right. split; [done|]. by exists s.
    + intros [[[Hd _]|(_ & ds & [= <-] & Hd & ->)] Hr]; [done|].
      destruct (proj2 HA Hd) as [Hn ->]. destruct Hd as [? HF]. specialize (HV HF). simplify_eq.
      rewrite decide_False by done. rewrite decide_True by done. by rewrite decide_True.
  - assert (forall ds, signed = true -> s <> "-"%char :: ds) as Hns.
    { by intros ds -> ->. }
    pose proof (scan_all s) as HA. pose proof (scan_digits_value s 0) as HV.
    destruct (scan_digits s 0) as [v n]. split.
    + destruct (decide (n = 0)); [done|]. destruct (decide (lo <= _ <= hi)%Z); [|done].
      destruct (decide (n = length s)); [|done]. intros [= <-].
      assert (digits s) as Hd by (apply HA; auto).
      split; [|done]. left. split; [done|]. destruct Hd as [_ HF]. specialize (HV HF). by simplify_eq.
    + intros [[[Hd ->]|(Hs & ds & -> & _)] Hr]; [|by destruct (Hns ds Hs)].
      destruct (proj2 HA Hd) as [Hn ->]. destruct Hd as [? HF]. specialize (HV HF). simplify_eq.
      rewrite decide_False by done. rewrite decide_True by done. by rewrite decide_True.
Qed.

(** ** Bag payload lifetimes *)
Section lifetimes.
  Context {V : Type}.
  Implicit Types (b : list BagEntry) (h : Payloads V).

(** One entry per type; the entries' pointers are the live payloads; every
    payload ever constructed is either live or was destroyed, exactly once. *)
Record bag_inv b h : Prop := {
  inv_keys : NoDup (bag_key <$> b);
  inv_ptrs : exists addrs, bag_ptr <$> b = Some <$> addrs /\ addrs ++ destroyed h ≡ₚ seq 0 (next_addr h) /\
             forall a, is_Some (live h !! a) <-> a ∈ addrs;
}.

Lemma find_bag_entry_Some b key i :
  find_bag_entry b key = Some i ->
  exists l1 e l2, b = l1 ++ e :: l2 /\ i = length l1 /\ bag_key e = key.
Proof.
  revert i. induction b as [|e b IH]; intros i E; simpl in E; [done|].
  case_decide; simplify_eq/=; [by exists [], e, b|].
  destruct (find_bag_entry b key) as [j|]; simplify_eq/=.
  destruct (IH j eq_refl) as (l1 & e' & l2 & -> & -> & ?). by exists (e :: l1), e', l2.
Qed.

Lemma find_bag_entry_None b key : find_bag_entry b key = None <-> key ∉ (bag_key <$> b).
Proof.
  induction b as [|e b IH]; simpl; [set_solver|]. case_decide; [set_solver|].
  destruct (find_bag_entry b key); set_solver.
Qed.

Lemma find_bag_entry_mid l1 e l2 : bag_key e ∉ (bag_key <$> l1) -> find_bag_entry (l1 ++ e :: l2) (bag_key e) = Some (length l1).
Proof.
  induction l1 as [|x l1 IH]; intros Hn; simpl; [by rewrite decide_True|].
  rewrite decide_False by set_solver. by rewrite IH by set_solver.
Qed.

Lemma fmap_Some_split (l1 : list (option nat)) x l2 (addrs : list nat) :
  l1 ++ x :: l2 = Some <$> addrs -> exists a1 a a2, addrs = a1 ++ a :: a2 /\ l1 = Some <$> a1 /\ x = Some a /\ l2 = Some <$> a2.
Proof.
  intros E. symmetry in E. apply fmap_app_inv in E as (a1 & a2 & -> & E2 & ->).
  destruct a2 as [|a a2]; [done|]. simplify_eq/=. by exists a1, a, a2.
Qed.

Lemma seq_grow (l : list nat) n : l ≡ₚ seq 0 n -> l ++ [n] ≡ₚ seq 0 (S n).
Proof. intros E. by rewrite seq_S, E. Qed.

Lemma bag_set_inv b h key ctor :
  bag_inv b h -> bag_inv (fst (snd (bag_set b h key ctor))) (snd (snd (bag_set b h key ctor))).
Proof.
  intros Hinv. pose proof Hinv as [Hk (addrs & Hp & HP & HL)]. unfold bag_set.
  destruct (find_bag_entry b key) as [i|] eqn:Ef; destruct ctor as [v|e]; try done.
  - apply find_bag_entry_Some in Ef as (l1 & en & l2 & -> & -> & <-).
    rewrite list_lookup_middle by done. simpl. rewrite insert_app_r_alt, Nat.sub_diag by lia. simpl.
    rewrite fmap_app, fmap_cons in Hp. apply fmap_Some_split in Hp as (a1 & a & a2 & -> & E1 & E2 & E3).
    rewrite E2. simpl. split; [by rewrite fmap_app, fmap_cons in Hk |- *|].
    exists (a1 ++ next_addr h :: a2). simpl. split_and!.
    + rewrite !fmap_app, !fmap_cons. simpl. by rewrite E1, E3.
    + etrans; [|exact (seq_grow _ _ HP)]. rewrite <- ?app_assoc. simpl. solve_Permutation.
    + intros a'. assert (a ∈ seq 0 (next_addr h)) as Ha by (rewrite <- HP; set_solver).
      apply elem_of_seq in Ha. assert (a ∉ a1 ++ a2) as Hn.
      { pose proof (NoDup_seq 0 (next_addr h)) as HN. rewrite <- HP, <- app_assoc in HN.
        apply NoDup_app in HN as (_ & N1 & N2). inv N2. set_solver. }
      destruct (decide (a' = a)) as [->|Hne].
      { rewrite lookup_delete_eq. split; [by intros []|]. set_solver by lia. }
      rewrite lookup_delete_ne by done. destruct (decide (a' = next_addr h)) as [->|Hne'].
      { rewrite lookup_insert_eq. set_solver. }
      rewrite lookup_insert_ne by done. rewrite HL. set_solver.
  - simpl. split.
    + rewrite fmap_app. simpl. apply NoDup_app. split_and!; [done| |apply NoDup_singleton].
      intros k Hk1 Hk2%list_elem_of_singleton. subst. by apply find_bag_entry_None in Ef.
    + exists (addrs ++ [next_addr h]). split_and!.
      * rewrite !fmap_app. simpl. by rewrite Hp.
      * etrans; [|exact (seq_grow _ _ HP)]. rewrite <- ?app_assoc. simpl. solve_Permutation.
      * intros a'. destruct (decide (a' = next_addr h)) as [->|Hne].
        { simpl. rewrite lookup_insert_eq. set_solver. }
        simpl. rewrite lookup_insert_ne by done. rewrite HL. set_solver.
Qed.

(** ** Contexts through the middleware chain: set, move, and the final destructors *)
Inductive bag_op := SetPayload (key : nat) (ctor : result exn V) | MoveContext.

Definition no_payloads : Payloads V := {| live := ∅; next_addr := 0; destroyed := [] |}.

(** [moved] are the bags of the moved-from contexts, which are destroyed too. *)
Fixpoint bag_life (ops : list bag_op) b h (moved : list (list BagEntry)) : Payloads V :=
  match ops with
  | [] => fold_left (fun h b => bag_destroy b h) (b :: moved) h
  | SetPayload key ctor :: ops => let '(_, (b, h)) := bag_set b h key ctor in bag_life ops b h moved
  | MoveContext :: ops => let '(to, from) := bag_move b in bag_life ops to h (from :: moved)
  end.

Lemma bag_destroy_inert b h : Forall (fun e => bag_ptr e = None) b -> bag_destroy b h = h.
Proof. unfold bag_destroy. induction 1 as [|e b He HF IH]; simpl; [done|]. by rewrite He. Qed.

Lemma bag_destroy_all b h addrs :
  bag_ptr <$> b = Some <$> addrs ->
  destroyed (bag_destroy b h) = destroyed h ++ addrs /\ next_addr (bag_destroy b h) = next_addr h /\
  forall a, is_Some (live (bag_destroy b h) !! a) <-> is_Some (live h !! a) /\ a ∉ addrs.
Proof.
  unfold bag_destroy. revert h addrs. induction b as [|e b IH]; intros h [|x addrs] E; try discriminate E.
  - simpl. rewrite app_nil_r. set_solver.
  - injection E as E0 E1. simpl. rewrite E0. simpl. destruct (IH (destroy h x) addrs E1) as (D1 & D2 & D3).
    rewrite D1, D2. simpl. rewrite <- app_assoc. split_and!; [done|done|]. intros a. rewrite D3. simpl.
    destruct (decide (a = x)) as [->|Hne]; [rewrite lookup_delete_eq|rewrite lookup_delete_ne by done].
    + split; [intros [[] _]; done|set_solver].
    + set_solver.
Qed.

Lemma bag_life_inv ops b h moved :
  bag_inv b h -> Forall (Forall (fun e => bag_ptr e = None)) moved ->
  let h' := bag_life ops b h moved in destroyed h' ≡ₚ seq 0 (next_addr h') /\ live h' = ∅.
Proof.
  revert b h moved. induction ops as [|[key ctor|] ops IH]; intros b h moved Hinv Hm; simpl.
  - destruct Hinv as [_ (addrs & Hp & HP & HL)].
    destruct (bag_destroy_all b h addrs Hp) as (D1 & D2 & D3).
    assert (forall h0, fold_left (fun h b => bag_destroy b h) moved h0 = h0) as ->.
    { induction Hm as [|bm moved Hb Hm IHm]; intros h0; simpl; [done|]. rewrite bag_destroy_inert by done. apply IHm. }
    rewrite D1, D2. split; [rewrite <- HP; apply Permutation_app_comm|].
    apply map_eq. intros a. rewrite lookup_empty. apply eq_None_not_Some. rewrite D3, HL. naive_solver.
  - pose proof (bag_set_inv b h key ctor Hinv) as Hi. destruct (bag_set b h key ctor) as [r [b' h']]. by apply IH.
  - apply IH; [|constructor; [|done]].
    + rewrite map_id. done.
    + apply Forall_map, Forall_true. done.
Qed.

(** Payload lifetimes: over any sequence of [set]s (including ones whose
    constructor throws) and moves of a request context, destroying the final and
    every moved-from context runs the destructor of each payload ever stored
    exactly once, and leaves none alive. *)
Theorem bag_destroyed_once (ops : list bag_op) :
  let h := bag_life ops [] no_payloads [] in destroyed h ≡ₚ seq 0 (next_addr h) /\ live h = ∅.
Proof.
  apply bag_life_inv; [|constructor]. split; [constructor|]. exists []. split_and!; [done|done|].
  intros a. simpl. rewrite lookup_empty. split; [by intros []|set_solver].
Qed.

(** The pointer stored for a type. *)
Definition stored b key : option nat := i ← find_bag_entry b key; e ← b !! i; bag_ptr e.

Lemma bag_get_stored b h key : bag_get b h key = stored b key ≫= fun a => live h !! a.
Proof.
  unfold bag_get, stored. destruct (find_bag_entry b key) as [i|]; [|done]. simpl. by destruct (b !! i).
Qed.

Lemma stored_cons e b key : stored (e :: b) key = if decide (bag_key e = key) then bag_ptr e else stored b key.
Proof. unfold stored. simpl. case_decide; [done|]. by destruct (find_bag_entry b key). Qed.

Lemma stored_other l1 e e' l2 key :
  bag_key e' = bag_key e -> key <> bag_key e -> stored (l1 ++ e' :: l2) key = stored (l1 ++ e :: l2) key.
Proof.
  intros He Hk. induction l1 as [|x l1 IH]; simpl; rewrite !stored_cons; [|by rewrite IH].
  by rewrite !decide_False by congruence.
Qed.

Lemma stored_mid l1 e l2 key : bag_key e = key -> key ∉ (bag_key <$> l1) -> stored (l1 ++ e :: l2) key = bag_ptr e.
Proof.
  intros <- Hn. induction l1 as [|x l1 IH]; simpl; rewrite stored_cons; [by rewrite decide_True|].
  rewrite decide_False by set_solver. apply IH. set_solver.
Qed.

Lemma stored_elem b key a : stored b key = Some a -> Some a ∈ (bag_ptr <$> b).
Proof.
  induction b as [|x b IH]; [done|]. rewrite stored_cons. case_decide; simpl; set_solver.
Qed.

Lemma stored_skip l1 e l2 key : key <> bag_key e -> stored (l1 ++ e :: l2) key = stored (l1 ++ l2) key.
Proof.
  intros Hk. induction l1 as [|x l1 IH]; simpl; rewrite stored_cons; [by rewrite decide_False|].
  by rewrite stored_cons, IH.
Qed.

(** [set] then [get]: a successful [set] is what the next [get] of that type
    returns, other types are unaffected, and a throwing constructor changes
    nothing (the strong guarantee). *)
Theorem bag_set_get b h key ctor key' :
  bag_inv b h ->
  let '(r, (b', h')) := bag_set b h key ctor in
  match ctor with
  | Ok v => r = Ok tt /\ bag_get b' h' key' = if decide (key' = key) then Some v else bag_get b h key'
  | Err e => r = Err e /\ b' = b /\ h' = h
  end.
Proof.
  intros [Hk (addrs & Hp & HP & HL)]. unfold bag_set.
  assert (forall k a, stored b k = Some a -> a <> next_addr h) as Hfresh.
  { intros k a Ha%stored_elem. rewrite Hp in Ha. assert (a ∈ seq 0 (next_addr h)) as Hs by (rewrite <- HP; set_solver).
    apply elem_of_seq in Hs. lia. }
  destruct (find_bag_entry b key) as [i|] eqn:Ef; destruct ctor as [v|e]; try done; simpl; (split; [done|]);
    rewrite !bag_get_stored; simpl.
  - apply find_bag_entry_Some in Ef as (l1 & en & l2 & -> & -> & <-).
    rewrite list_lookup_middle by done. simpl. rewrite insert_app_r_alt, Nat.sub_diag by lia. simpl.
    rewrite fmap_app, fmap_cons in Hk. rewrite fmap_app, fmap_cons in Hp. apply fmap_Some_split in Hp as (a1 & a & a2 & -> & E1 & E2 & E3).
    rewrite E2. simpl. assert (a ∈ seq 0 (next_addr h)) as Ha by (rewrite <- HP; set_solver). apply elem_of_seq in Ha.
    set (en' := {| bag_key := bag_key en; bag_ptr := Some (next_addr h) |}). case_decide as Hd; [subst key'|].
    + rewrite (stored_mid l1 en' l2) by (done || (apply NoDup_app in Hk; set_solver)). simpl.
      by rewrite lookup_delete_ne, lookup_insert_eq by lia.
    + rewrite (stored_other l1 en en') by done. destruct (stored (l1 ++ en :: l2) key') as [a'|] eqn:Es; [|done].
      simpl. specialize (Hfresh _ _ Es). rewrite stored_skip in Es by done. apply stored_elem in Es.
      rewrite fmap_app, E1, E3 in Es. assert (a <> a') as Hne.
      { pose proof (NoDup_seq 0 (next_addr h)) as HN. rewrite <- HP, <- app_assoc in HN.
        apply NoDup_app in HN as (_ & N1 & N2). inv N2. set_solver. }
      by rewrite lookup_delete_ne, lookup_insert_ne by done.
  - apply find_bag_entry_None in Ef. set (en' := {| bag_key := key; bag_ptr := Some (next_addr h) |}).
    case_decide as Hd; [subst key'|].
    + rewrite (stored_mid b en' []) by done. simpl. by rewrite lookup_insert_eq.
    + rewrite stored_skip, app_nil_r by done. destruct (stored b key') as [a'|] eqn:Es; [|done].
      simpl. by rewrite lookup_insert_ne by (symmetry; eauto).
Qed.

End lifetimes.

Arguments bag_op V : clear implicits.

(** ** Witnesses *)
Definition sample_request : Request (list (bytes * bytes)) :=
  {| req_method := HttpMethod.get; req_version := HttpVersion.http_1_1;
     req_target := B "/search?" ++ encode_query [(B "q", B "a&b"); (B "n", B "3")];
     req_headers := headers_owned; req_body := EmptyPayload |}.

Lemma accessors_pure_witness : fst (raw_query (request_context sample_request) (B "q")) = Some (B "a&b").
Proof.
  destruct (accessors_pure (request_context sample_request) (B "q") (request_context_wf sample_request)) as (_ & -> & _).
  reflexivity.
Defined.

Lemma query_roundtrip_witness : fst (raw_query (request_context sample_request) (B "n")) = Some (B "3").
Proof.
  apply (query_roundtrip sample_request (B "/search") [(B "q", B "a&b"); (B "n", B "3")] (B "n")).
  - apply (bool_decide_unpack _). vm_compute. exact I.
  - reflexivity.
Defined.

Lemma bag_set_get_witness :
  let '(r, (b, h)) := bag_set [] (no_payloads : Payloads nat) 5 (Ok 42) in bag_get b h 5 = Some 42.
Proof.
  apply (bag_set_get [] (no_payloads : Payloads nat) 5 (Ok 42) 5).
  split; [constructor|]. exists []. split_and!; [done|done|].
  intros a. simpl. rewrite lookup_empty. split; [by intros []|set_solver].
Defined.

Example convert_int8_overflow : convert_integral true (-128) 127 (B "128") = None /\
  convert_integral true (-128) 127 (B "-128") = Some (-128)%Z /\ convert_integral false 0 255 (B "-1") = None.
Proof. split_and!; reflexivity. Qed.
