(* ===== verification/BodyParse.v ===== *)
(** * Buffered body parsers ([types/body/body.cpp])

    [read_json], [read_form] and [read_multipart]: drain the body under the
    limit, then parse.  jsoncpp's reader is a parameter. *)

From S2P Require Import Prelude Url Headers HttpTypes.

(** What a reader returns: [None] would be the drain loop running out of fuel,
    which [drain_total] excludes. *)
Abbreviation Reading A := (option (result http_error A * Body)).

(** [if (!d) co_return std::unexpected(...)], then the parser. *)
Definition with_drained {A} (body : Body) (limit : nat) (parse : bytes -> result http_error A) : Reading A :=
  '(d, body) ← drain body limit;
  Some (match d with Err e => Err e | Ok d => parse d end, body).

Section json.
  (** [Json::parseFromStream]: the root value, or the error text. *)
  Context {Json : Type} (parseFromStream : bytes -> result bytes Json).

Definition read_json (body : Body) (limit : nat) : Reading Json :=
  with_drained body limit (fun d =>
    match parseFromStream d with
    | Err err => Err (JsonParseError err)
    | Ok root => Ok root
    end).

End json.

(** ** Forms *)
Definition form_pair (out : gmap bytes bytes) (pair : bytes) : result http_error (gmap bytes bytes) :=
  let '(rk, rv) := split_pair pair in
  if bool_decide (rk = []) then Err (FormParseError (B "empty key"))
  else match url_decode rk true, url_decode rv true with
       | Some k, Some v => Ok (<[k := v]> out)
       | _, _ => Err (FormParseError (B "invalid percent-escape"))
       end.

Definition read_form (body : Body) (limit : nat) : Reading (gmap bytes bytes) :=
  with_drained body limit (fun body => amp_run form_pair body ∅).

(** ** Multipart *)
Record MultipartField := { name : bytes; filename : bytes; content_type : bytes; value : bytes }.

Definition empty_field : MultipartField := {| name := []; filename := []; content_type := []; value := [] |}.

(** [a += 32] on ['A'..'Z']. *)
Definition fold_case (c : ascii) : ascii :=
  if (65 <=? code c) && (code c <=? 90) then ascii_of_nat (code c + 32) else c.

Definition ci_starts (l p : bytes) : bool :=
  if decide (length l < length p) then false
  else bool_decide (map fold_case (take (length p) l) = map fold_case p).

Definition is_alpha (c : ascii) : bool :=
  ((97 <=? code c) && (code c <=? 122)) || ((65 <=? code c) && (code c <=? 90)).

(** The [for (;;)] of the [param] lambda: the position past ['='], or [None]
    when the key is not found.  Each round starts one byte further right. *)
Fixpoint param_pos (fuel : nat) (line key : bytes) (p : nat) : option nat :=
  match fuel with
  | 0 => None
  | S fuel =>
      p ← find_sub key line p;
      let after := p + length key in
      let boundary_before := (p =? 0) || match line !! (p - 1) with Some c => negb (is_alpha c) | None => true end in
      let eq_after := (after <? length line) && bool_decide (line !! after = Some "="%char) in
      if boundary_before && eq_after then Some (after + 1)
      else param_pos fuel line key (S p)
  end.

Definition param (line key : bytes) : bytes :=
  match param_pos (S (S (length line))) line key 0 with
  | None => []
  | Some p =>
      if (p <? length line) && bool_decide (line !! p = Some quote) then
        let p := p + 1 in
        match find_char quote line p with
        | None => []
        | Some e => substr line p (e - p)
        end
      else []
  end.

(** [while (!v.empty() && (v.front() == ' ' || v.front() == '\t')) v.remove_prefix(1);] *)
Fixpoint skip_blanks (v : bytes) : bytes :=
  match v with
  | c :: v' => if bool_decide (c = " "%char) || bool_decide (c = "009"%char) then skip_blanks v' else v
  | [] => []
  end.

Definition header_line (field : MultipartField) (line : bytes) : MultipartField :=
  if ci_starts line (B "content-disposition:") then
    {| name := param line (B "name"); filename := param line (B "filename");
       content_type := content_type field; value := value field |}
  else if ci_starts line (B "content-type:") then
    let v := match find_char ":" line 0 with
             | Some colon => substr_from line (colon + 1)
             | None => substr_from line 0   (* npos + 1 *)
             end in
    {| name := name field; filename := filename field; content_type := skip_blanks v; value := value field |}
  else field.

Fixpoint header_lines (fuel : nat) (header_block : bytes) (hp : nat) (field : MultipartField) : MultipartField :=
  match fuel with
  | 0 => field
  | S fuel =>
      if decide (hp < length header_block) then
        let eol := find_sub crlf header_block hp in
        let line := match eol with
                    | None => substr header_block hp (length header_block - hp)
                    | Some eol => substr header_block hp (eol - hp)
                    end in
        let field := header_line field line in
        match eol with
        | None => field
        | Some eol => header_lines fuel header_block (eol + 2) field
        end
      else field
  end.

(** The part loop; [None] stands for fuel running out. *)
Fixpoint multipart_loop (fuel : nat) (body delim : bytes) (pos : nat) (out : list MultipartField)
    : option (result http_error (list MultipartField)) :=
  match fuel with
  | 0 => None
  | S fuel =>
      if decide (pos < length body) then
        if (pos + 2 <=? length body) && bool_decide (body !! pos = Some "-"%char) && bool_decide (body !! (pos + 1) = Some "-"%char)
        then Some (Ok out)
        else
          let pos := if (pos + 1 <? length body) && bool_decide (body !! pos = Some "013"%char) &&
                        bool_decide (body !! (pos + 1) = Some "010"%char)
                     then pos + 2 else pos in
          match find_sub (crlf ++ crlf) body pos with
          | None => Some (Err (MultipartParseError (B "unterminated headers")))
          | Some header_end =>
              let header_block := substr body pos (header_end - pos) in
              let body_start := header_end + 4 in
              match find_sub (crlf ++ delim) body body_start with
              | None => Some (Err (MultipartParseError (B "unterminated part")))
              | Some next =>
                  let part_body := substr body body_start (next - body_start) in
                  let field := header_lines (length header_block) header_block 0 empty_field in
                  let field := {| name := name field; filename := filename field;
                                  content_type := content_type field; value := part_body |} in
                  multipart_loop fuel body delim (next + 2 + length delim) (out ++ [field])
              end
          end
      else Some (Ok out)
  end.

Definition parse_multipart (boundary body : bytes) : option (result http_error (list MultipartField)) :=
  let delim := B "--" ++ boundary in
  match find_sub delim body 0 with
  | None => Some (Err (MultipartParseError (B "no boundary found")))
  | Some pos => multipart_loop (S (length body)) body delim (pos + length delim) []
  end.

Definition read_multipart (body : Body) (limit : nat) (boundary : bytes) : Reading (list MultipartField) :=
  if bool_decide (boundary = []) then Some (Err (MultipartParseError (B "empty boundary")), body)
  else
    '(d, body) ← drain body limit;
    match d with
    | Err e => Some (Err e, body)
    | Ok d => r ← parse_multipart boundary d; Some (r, body)
    end.

(** ** Termination *)
Lemma multipart_loop_total fuel body delim pos out :
  length body < pos + fuel -> 0 < fuel -> exists r, multipart_loop fuel body delim pos out = Some r.
Proof.
  revert pos out. induction fuel as [|fuel IH]; intros pos out Hf H0; [lia|].
  cbn [multipart_loop]. case_decide; [|eauto]. destruct (_ && _ && _); [eauto|].
  set (pos' := if _ && _ && _ then pos + 2 else pos).
  assert (pos <= pos') by (unfold pos'; destruct (_ && _ && _); lia).
  destruct (find_sub (crlf ++ crlf) body pos') as [he|] eqn:E1; [|eauto].
  destruct (find_sub (crlf ++ delim) body (he + 4)) as [nx|] eqn:E2; [|eauto].
  unfold find_sub in E1, E2. case_decide; [|done]. case_decide; [|done].
  destruct (find_sub_index _ (drop pos' body)); simplify_eq/=.
  destruct (find_sub_index _ (drop _ body)); simplify_eq/=. apply IH; lia.
Qed.

(** ** A reference encoder *)
Definition disposition (f : MultipartField) : bytes :=
  B "Content-Disposition: form-data; name=" ++ quote :: name f ++ quote :: B "; filename=" ++ quote :: filename f ++ [quote].

Definition type_line (f : MultipartField) : bytes := B "Content-Type: " ++ content_type f.

Definition part_header (f : MultipartField) : bytes := disposition f ++ crlf ++ type_line f.

Definition encode_part (delim : bytes) (f : MultipartField) : bytes :=
  crlf ++ part_header f ++ (crlf ++ crlf) ++ value f ++ (crlf ++ delim).

Definition encode_multipart (boundary : bytes) (fs : list MultipartField) : bytes :=
  let delim := B "--" ++ boundary in
  delim ++ concat (map (encode_part delim) fs) ++ B "--" ++ crlf.

(** Fields the format can carry: no line break or quote in the header values,
    a name without the text [filename], and a value that does not contain the
    delimiter line. *)
Record field_ok (delim : bytes) (f : MultipartField) : Prop := {
  ok_name : quote ∉ name f /\ "013"%char ∉ name f /\ find_sub_index (B "filename") (name f) = None;
  ok_filename : quote ∉ filename f /\ "013"%char ∉ filename f;
  ok_type : "013"%char ∉ content_type f /\ skip_blanks (content_type f) = content_type f;
  ok_value : find_sub_index (crlf ++ delim) (value f ++ crlf ++ delim) = Some (length (value f));
}.

Lemma CR_not_in_disposition delim f : field_ok delim f -> "013"%char ∉ disposition f.
Proof.
  intros [(_ & H1 & _) [_ H2] _ _]. unfold disposition.
  assert ("013"%char ∉ B "Content-Disposition: form-data; name=") by (apply (bool_decide_unpack _); vm_compute; exact I).
  assert ("013"%char ∉ B "; filename=") by (apply (bool_decide_unpack _); vm_compute; exact I).
  unfold quote. set_solver.
Qed.

Lemma CR_not_in_type_line delim f : field_ok delim f -> "013"%char ∉ type_line f.
Proof.
  intros [_ _ [H1 _] _]. unfold type_line.
  assert ("013"%char ∉ B "Content-Type: ") by (apply (bool_decide_unpack _); vm_compute; exact I). set_solver.
Qed.

(** ** The header parameters *)
Lemma quoted_at line p v rest :
  drop p line = quote :: v ++ quote :: rest -> quote ∉ v ->
  (if (p <? length line) && bool_decide (line !! p = Some quote) then
     match find_char quote line (p + 1) with
     | None => [] | Some e => substr line (p + 1) (e - (p + 1)) end
   else []) = v.
Proof.
  intros Hd Hv. assert (p < length line) as Hl.
  { apply (f_equal length) in Hd. rewrite length_drop in Hd. simpl in Hd. lia. }
  rewrite (proj2 (Nat.ltb_lt _ _)) by done.
  assert (line !! p = Some quote) as Hp by (by rewrite <- (Nat.add_0_r p), <- lookup_drop, Hd).
  rewrite bool_decide_true by done. simpl.
  assert (drop (p + 1) line = v ++ quote :: rest) as Hd1 by (by rewrite <- drop_drop, Hd).
  unfold find_char. rewrite Hd1, find_index_app by done. simpl. unfold substr.
  rewrite Hd1. replace (p + 1 + length v - (p + 1)) with (length v) by lia. by rewrite take_app_length.
Qed.

Lemma param_name f rest :
  quote ∉ name f ->
  param (B "Content-Disposition: form-data; name=" ++ quote :: name f ++ quote :: rest) (B "name") = name f.
Proof.
  intros Hq. unfold param. set (line := _ ++ _).
  assert (param_pos (S (S (length line))) line (B "name") 0 = Some 37) as ->.
  { cbn [param_pos]. rewrite (find_sub_at _ _ _ line) by (done || lia).
    assert (find_sub_index (B "name") line = Some 32) as -> by reflexivity. reflexivity. }
  by apply (quoted_at line 37 (name f) rest).
Qed.

Lemma param_filename delim f :
  field_ok delim f -> param (disposition f) (B "filename") = filename f.
Proof.
  intros [(Hq & _ & Hn) [Hq2 _] _ _]. unfold param.
  set (line := disposition f).
  assert (line = (B "Content-Disposition: form-data; name=" ++ [quote]) ++ name f ++
                 (quote :: B "; filename=" ++ quote :: filename f ++ [quote])) as Hline by reflexivity.
  assert (find_sub_index (B "filename") line = Some (41 + length (name f))) as Ef.
  { unfold line, disposition.
    rewrite find_sub_skip_none by (done || (apply (bool_decide_unpack _); vm_compute; exact I)).
    rewrite find_sub_skip_none by (done || (apply (bool_decide_unpack _); vm_compute; exact I)).
    assert (find_sub_index (B "filename") (B "; filename=" ++ quote :: filename f ++ [quote]) = Some 2) as -> by reflexivity.
    cbn [fmap option_fmap option_map]. f_equal. change (length (B "Content-Disposition: form-data; name=")) with 37. lia. }
  assert (drop (50 + length (name f)) line = quote :: filename f ++ quote :: []) as Hd.
  { rewrite Hline. replace (50 + length (name f)) with (38 + (length (name f) + 12)) by lia. by rewrite !drop_past by done. }
  assert (drop (40 + length (name f)) line = " "%char :: B "filename=" ++ quote :: filename f ++ [quote]) as Hd0.
  { rewrite Hline. replace (40 + length (name f)) with (38 + (length (name f) + 2)) by lia. by rewrite !drop_past by done. }
  assert (param_pos (S (S (length line))) line (B "filename") 0 = Some (50 + length (name f))) as ->.
  { cbn [param_pos]. rewrite (find_sub_at _ _ _ line) by (done || lia). rewrite Ef.
    cbn [fmap option_fmap option_map mbind option_bind].
    replace (0 + (41 + length (name f)) - 1) with (40 + length (name f)) by lia.
    assert (line !! (40 + length (name f)) = Some " "%char) as -> by
      (by rewrite <- (Nat.add_0_r (40 + _)), <- lookup_drop, Hd0).
    assert (line !! (0 + (41 + length (name f)) + length (B "filename")) = Some "="%char) as Heq.
    { replace (0 + (41 + length (name f)) + length (B "filename")) with (40 + length (name f) + 9) by (simpl; lia).
      by rewrite <- lookup_drop, Hd0. }
    rewrite Heq. pose proof (lookup_lt_Some _ _ _ Heq) as Hlt. rewrite (proj2 (Nat.ltb_lt _ _) Hlt).
    rewrite bool_decide_true by done. rewrite orb_true_r. simpl. f_equal. lia. }
  by apply (quoted_at line _ (filename f) []).
Qed.

Lemma header_line_disposition delim f g :
  field_ok delim f ->
  header_line g (disposition f) =
  {| name := name f; filename := filename f; content_type := content_type g; value := value g |}.
Proof.
  intros Hok. unfold header_line.
  assert (ci_starts (disposition f) (B "content-disposition:") = true) as ->.
  { unfold ci_starts. rewrite decide_False; [reflexivity|]. unfold disposition. rewrite length_app. simpl. lia. }
  rewrite (param_filename delim) by done. unfold disposition. rewrite param_name by apply Hok. done.
Qed.

Lemma header_line_type delim f g :
  field_ok delim f ->
  header_line g (type_line f) =
  {| name := name g; filename := filename g; content_type := content_type f; value := value g |}.
Proof.
  intros Hok. unfold header_line.
  assert (ci_starts (type_line f) (B "content-disposition:") = false) as ->.
  { unfold ci_starts. case_decide; [done|]. apply bool_decide_eq_false. intros E.
    apply (f_equal (fun l => l !! 8)) in E. unfold type_line in E. simpl in E. done. }
  assert (ci_starts (type_line f) (B "content-type:") = true) as ->.
  { unfold ci_starts. rewrite decide_False; [reflexivity|]. unfold type_line. rewrite length_app. simpl. lia. }
  change (find_char ":" (type_line f) 0) with (Some 12). cbv iota.
  change (substr_from (type_line f) (12 + 1)) with (" "%char :: content_type f).
  cbn [skip_blanks]. by rewrite bool_decide_true, orb_true_l, (proj2 (ok_type _ _ Hok)) by done.
Qed.

Lemma header_lines_spec delim f :
  field_ok delim f ->
  header_lines (length (part_header f)) (part_header f) 0 empty_field =
  {| name := name f; filename := filename f; content_type := content_type f; value := [] |}.
Proof.
  intros Hok. set (d := disposition f). set (t := type_line f).
  assert (length (part_header f) = S (S (length d + length t))) as Hlen.
  { unfold part_header. rewrite !length_app. fold d t. simpl. lia. }
  assert (0 < length t) as Ht by (unfold t, type_line; rewrite length_app; simpl; lia).
  rewrite Hlen. cbn [header_lines]. rewrite !Hlen. rewrite decide_True by lia.
  rewrite (find_sub_at _ _ _ (d ++ crlf ++ t)) by (done || lia).
  assert (find_sub_index crlf (d ++ crlf ++ t) = Some (length d)) as ->.
  { unfold crlf at 1. rewrite find_sub_skip by (by eapply CR_not_in_disposition).
    rewrite find_sub_here by done. simpl. f_equal. lia. }
  cbn [fmap option_fmap option_map].
  assert (substr (part_header f) 0 (0 + length d - 0) = d) as ->.
  { unfold substr, part_header. rewrite Nat.sub_0_r. simpl. fold d t. by rewrite ?drop_0, take_app_length. }
  assert (drop (0 + length d + 2) (part_header f) = t) as Hdrop.
  { change (0 + length d + 2) with (length d + 2). unfold part_header. fold d t.
    by rewrite (drop_past d _ (length d) 2). }
  rewrite decide_True by lia. rewrite (find_sub_at _ _ _ t) by (done || lia).
  unfold crlf. rewrite find_sub_absent by (by eapply CR_not_in_type_line).
  cbn [fmap option_fmap option_map]. unfold substr. rewrite Hdrop, take_ge by lia.
  unfold d, t. rewrite (header_line_disposition delim), (header_line_type delim) by done. done.
Qed.

(** ** One part *)
Lemma find_header_end delim f rest :
  field_ok delim f ->
  find_sub_index (crlf ++ crlf) (part_header f ++ (crlf ++ crlf) ++ rest) = Some (length (part_header f)).
Proof.
  intros Hok. unfold part_header. pose proof (CR_not_in_disposition _ _ Hok) as H1.
  pose proof (CR_not_in_type_line _ _ Hok) as H2.
  change (type_line f) with ("C"%char :: (B "ontent-Type: " ++ content_type f)) in *.
  rewrite <- !(app_assoc (disposition f)), <- (app_assoc crlf ("C"%char :: _)), find_blank_line by done.
  rewrite !length_app. simpl. f_equal.
Qed.

Lemma multipart_step fuel body delim pos out f rest :
  field_ok delim f -> drop pos body = encode_part delim f ++ rest ->
  multipart_loop (S fuel) body delim pos out =
  multipart_loop fuel body delim (pos + length (encode_part delim f)) (out ++ [f]).
Proof.
  intros Hok Hd. pose proof (f_equal length Hd) as Hlen. rewrite length_drop, length_app in Hlen.
  assert (length (encode_part delim f) = 2 + length (part_header f) + 4 + length (value f) + 2 + length delim) as HL
    by (unfold encode_part; rewrite !length_app; simpl; lia).
  assert (forall k, body !! (pos + k) = (encode_part delim f ++ rest) !! k) as Hlk by (intros k; by rewrite <- lookup_drop, Hd).
  cbn [multipart_loop]. rewrite decide_True by lia.
  pose proof (Hlk 0) as L0. pose proof (Hlk 1) as L1. rewrite Nat.add_0_r in L0. simpl in L0, L1. rewrite L0, L1.
  rewrite andb_false_r. cbv iota. rewrite (proj2 (Nat.ltb_lt _ _)) by lia. rewrite !bool_decide_true by done. cbv iota.
  simpl andb. cbv iota.
  set (h := part_header f) in *. set (v := value f) in *.
  assert (drop (pos + 2) body = h ++ (crlf ++ crlf) ++ v ++ (crlf ++ delim) ++ rest) as Hd2.
  { rewrite <- drop_drop, Hd. unfold encode_part. rewrite <- !app_assoc. reflexivity. }
  rewrite (find_sub_at _ _ _ _ Hd2) by lia.
  rewrite (find_header_end delim f) by done. fold h. cbn [fmap option_fmap option_map].
  assert (drop (pos + 2 + length h + 4) body = v ++ (crlf ++ delim) ++ rest) as Hd3.
  { replace (pos + 2 + length h + 4) with ((pos + 2) + (length h + 4)) by lia. rewrite <- drop_drop, Hd2.
    by rewrite drop_past. }
  rewrite (find_sub_at _ _ _ _ Hd3) by lia. rewrite find_sub_first by apply Hok.
  cbn [fmap option_fmap option_map]. unfold substr. rewrite Hd2, Hd3.
  replace (pos + 2 + length h - (pos + 2)) with (length h) by lia. rewrite take_app_length.
  replace (pos + 2 + length h + 4 + length v - (pos + 2 + length h + 4)) with (length v) by lia. rewrite take_app_length.
  pose proof (header_lines_spec delim f Hok) as HH. fold h in HH. rewrite HH. cbn [name filename content_type].
  f_equal; [lia|]. unfold v. by destruct f.
Qed.

Lemma multipart_loop_parts fs fuel body delim pos out :
  Forall (field_ok delim) fs -> length fs < fuel ->
  drop pos body = concat (map (encode_part delim) fs) ++ B "--" ++ crlf ->
  multipart_loop fuel body delim pos out = Some (Ok (out ++ fs)).
Proof.
  intros HF. revert fuel pos out. induction HF as [|f fs Hf HF IH]; intros [|fuel] pos out Hl Hd; simpl in Hl; try lia.
  - assert (forall k, body !! (pos + k) = (B "--" ++ crlf) !! k) as Hlk by (intros k; by rewrite <- lookup_drop, Hd).
    pose proof (Hlk 0) as L0. pose proof (Hlk 1) as L1. rewrite Nat.add_0_r in L0.
    apply (f_equal length) in Hd. rewrite length_drop in Hd. simpl in Hd, L0, L1.
    cbn [multipart_loop]. rewrite decide_True by lia. rewrite (proj2 (Nat.leb_le _ _)) by lia.
    rewrite L0, L1. simpl. by rewrite app_nil_r.
  - cbn [map concat] in Hd. rewrite <- app_assoc in Hd.
    rewrite (multipart_step _ _ _ _ _ _ _ Hf Hd).
    rewrite IH; [by rewrite <- app_assoc|lia|]. rewrite <- drop_drop, Hd.
    rewrite <- (Nat.add_0_r (length (encode_part delim f))), drop_past by done. done.
Qed.

Lemma encode_parts_length delim fs : length fs <= length (concat (map (encode_part delim) fs)).
Proof.
  induction fs as [|f fs IH]; simpl; [lia|]. rewrite !length_app in *. simpl. lia.
Qed.

(** ** Properties *)

(** Multipart parsing terminates on every input: the fuel of the part loop
    never runs out, so a reader always answers with fields or a typed error, and
    an empty boundary or an over-limit body is refused before any parsing. *)
Theorem read_multipart_total body limit boundary :
  exists r body', read_multipart body limit boundary = Some (r, body') /\
    (boundary = [] -> r = Err (MultipartParseError (B "empty boundary")) /\ body' = body) /\
    (boundary <> [] -> limit < length (remaining body) -> r = Err (BodyLimitExceeded (N.of_nat limit))).
Proof.
  unfold read_multipart. case_bool_decide as Hb; [do 2 eexists; split; [done|]; split; [done|congruence]|].
  rewrite drain_total. cbn [mbind option_bind]. case_decide.
  - unfold parse_multipart. destruct (find_sub (B "--" ++ boundary) (remaining body) 0) as [pos|].
    + destruct (multipart_loop_total (S (length (remaining body))) (remaining body) (B "--" ++ boundary)
                  (pos + length (B "--" ++ boundary)) []) as [r ->]; [lia|lia|].
      do 2 eexists. split; [done|]. split; [done|]. lia.
    + do 2 eexists. split; [done|]. split; [done|]. lia.
  - do 2 eexists. split; [done|]. by split.
Qed.

(** C39. Multipart round trip: a body built from any list of representable
    fields — names, file names, content types and arbitrary binary values that
    do not contain the delimiter line — parses back to exactly those fields, in
    order. *)
Theorem read_multipart_roundtrip body limit boundary fs :
  boundary <> [] -> Forall (field_ok (B "--" ++ boundary)) fs ->
  remaining body = encode_multipart boundary fs -> length (remaining body) <= limit ->
  fst <$> read_multipart body limit boundary = Some (Ok fs).
Proof.
  intros Hb HF Hr Hl. unfold read_multipart. rewrite bool_decide_false by done.
  rewrite drain_total, decide_True by done. cbn [mbind option_bind]. unfold parse_multipart.
  set (delim := B "--" ++ boundary) in *. rewrite Hr.
  assert (encode_multipart boundary fs = delim ++ concat (map (encode_part delim) fs) ++ B "--" ++ crlf) as He by done.
  rewrite He. unfold find_sub. rewrite decide_True by lia. rewrite drop_0, find_sub_here by apply starts_with_app_true.
  cbn [fmap option_fmap option_map]. rewrite (multipart_loop_parts fs); [done|done| |].
  - pose proof (encode_parts_length delim fs). rewrite !length_app. lia.
  - rewrite (Nat.add_comm 0). by rewrite drop_past.
Qed.

Lemma form_pair_encode m kv :
  fst kv <> [] -> form_pair m (encode_pair kv) = Ok (<[fst kv := snd kv]> m).
Proof.
  intros Hk. unfold form_pair. rewrite split_encode_pair.
  rewrite bool_decide_false by (by destruct (fst kv)).
  by rewrite !(proj2 (url_decode_spec _ _ _) (pct_encode_Decodes _ _)).
Qed.

Lemma form_pairs_encode kvs m :
  Forall (fun kv => fst kv <> []) kvs ->
  fold_result form_pair (map encode_pair kvs) m = Ok (foldl (fun m kv => <[fst kv := snd kv]> m) m kvs).
Proof.
  intros HF. revert m. induction HF as [|kv kvs Hk HF IH]; intros m; [done|].
  cbn [map fold_result]. rewrite form_pair_encode by done. cbn [mbind result_bind]. by rewrite IH.
Qed.

(** Form round trip: a body of percent-encoded pairs with non-empty keys,
    within the limit, parses to the map in which a repeated key keeps its last
    value. *)
Theorem read_form_roundtrip body limit kvs :
  Forall (fun kv => fst kv <> []) kvs ->
  remaining body = encode_query kvs -> length (remaining body) <= limit ->
  fst <$> read_form body limit = Some (Ok (foldl (fun m kv => <[fst kv := snd kv]> m) ∅ kvs)).
Proof.
  intros HF Hr Hl. unfold read_form, with_drained. rewrite drain_total, decide_True by done. simpl.
  by rewrite Hr, amp_run_fold, amp_pieces_encode, form_pairs_encode.
Qed.

(** ** Witnesses *)
Definition sample_field : MultipartField :=
  {| name := B "upload"; filename := B "a.bin"; content_type := B "image/png"; value := crlf ++ B "--no" |}.

Lemma read_multipart_roundtrip_witness :
  fst <$> read_multipart (body_owned (encode_multipart (B "xyz") [sample_field; sample_field])) 1000 (B "xyz") =
  Some (Ok [sample_field; sample_field]).
Proof.
  assert (field_ok (B "--" ++ B "xyz") sample_field) as Hok.
  { split; split_and?; try reflexivity; apply (bool_decide_unpack _); vm_compute; exact I. }
  apply (read_multipart_roundtrip (body_owned (encode_multipart (B "xyz") [sample_field; sample_field])) 1000);
    [done|by repeat (apply Forall_cons_2; [exact Hok|])|reflexivity|apply Nat.leb_le; vm_compute; reflexivity].
Defined.

Lemma read_form_roundtrip_witness :
  fst <$> read_form (body_owned (encode_query [(B "a", B "1"); (B "a", B "2")])) 100 =
  Some (Ok {[ B "a" := B "2" ]}).
Proof.
  etransitivity; [apply (read_form_roundtrip _ 100 [(B "a", B "1"); (B "a", B "2")])|].
  - repeat constructor; done.
  - reflexivity.
  - apply Nat.leb_le. vm_compute. reflexivity.
  - reflexivity.
Defined.

(** The parameter scan is not quoting-aware: a name that contains the text
    [filename=] is taken for the parameter. *)
Example param_spoofed :
  param (B "Content-Disposition: form-data; name=" ++ quote :: B "x;filename=" ++ quote :: B "; filename=" ++ quote :: B "real" ++ [quote])
    (B "filename") = B "; filename=".
Proof. reflexivity. Qed.
