(* ===== verification/Router.v ===== *)
(** * Controllers, middleware, groups and dispatch ([routing/*])

    A coroutine returning a [Response] is a function of the application's world
    [W] (everything user code may read or change), run to completion when it is
    awaited: it returns the new world with a response or the exception that
    escaped.  Handlers, middlewares and hooks are arbitrary such functions. *)

From S2P Require Import Prelude Url Headers HttpTypes Routing RequestContext.

Section routing.
  Context {F W : Type} `{BeastFields F}.

Definition AsyncResponse : Type := W -> W * result exn (Response F).

(** [AsyncOutcome<Response, Es...>]: the awaited value is an [expected]. *)
Definition AsyncOutcome : Type := W -> W * result exn (result http_error (Response F)).

Definition ContextHandler : Type := RequestContext F -> AsyncResponse.
Definition NextHandler : Type := ContextHandler.
Definition Middleware : Type := RequestContext F -> NextHandler -> AsyncResponse.

(** ** Middleware composition *)
Definition wrap_with_middleware (inner : ContextHandler) (middlewares : list Middleware) : ContextHandler :=
  fold_left (fun inner mw => fun ctx => mw ctx inner) (reverse middlewares) inner.

Definition collapse_outcome (outcome : result http_error (Response F)) : result exn (Response F) :=
  match outcome with
  | Ok r => Ok r
  | Err e => to_http_response e
  end.

(** [co_await] an outcome, then collapse it. *)
Definition await_outcome (f : RequestContext F -> AsyncOutcome) : ContextHandler := fun ctx w =>
  match f ctx w with
  | (w, Ok outcome) => (w, collapse_outcome outcome)
  | (w, Err e) => (w, Err e)
  end.

(** ** Controllers *)

(** [BakeFn]: given the dynamic types of the controller, the chain or the
    exception of a failed [dynamic_pointer_cast]. *)
Record LocalRoute := {
  route_method : HttpMethod.t;
  route_path : bytes;
  route_bake : list nat -> list Middleware -> result exn ContextHandler;
}.

(** [ctrl_types]: the dynamic type of the controller and its bases. *)
Record HttpController := {
  ctrl_types : list nat;
  configured : bool;
  baked : bool;
  local_routes : list LocalRoute;
  middlewares : list Middleware;
}.

Definition add_middleware (c : HttpController) (mw : Middleware) : result exn HttpController :=
  if baked c then Err (LogicError (B "HttpController: add_middleware after bake"))
  else Ok {| ctrl_types := ctrl_types c; configured := configured c; baked := baked c;
             local_routes := local_routes c; middlewares := middlewares c ++ [mw] |}.

(** The fold over the argument pack. *)
Definition add_basic_middleware (c : HttpController) (mws : list Middleware) : result exn HttpController :=
  fold_left (fun r mw => c ← r; add_middleware c mw) mws (Ok c).

Definition push_route (c : HttpController) (method : HttpMethod.t) (path : bytes)
    (bake : list nat -> list Middleware -> result exn ContextHandler) : result exn HttpController :=
  if baked c then Err (LogicError (B "HttpController: route registration after bake"))
  else Ok {| ctrl_types := ctrl_types c; configured := configured c; baked := baked c;
             local_routes := local_routes c ++ [{| route_method := method; route_path := path; route_bake := bake |}];
             middlewares := middlewares c |}.

(** [typed_self<ControllerT>]: the cast succeeds on the controller's type and its bases. *)
Definition typed_self (self : list nat) (controller_t : nat) : result exn unit :=
  if bool_decide (controller_t ∈ self) then Ok tt
  else Err (LogicError (B "HttpController: registered member function does not belong to the baked controller type")).

Definition member_route (c : HttpController) (method : HttpMethod.t) (path : bytes)
    (controller_t : nat) (m : ContextHandler) : result exn HttpController :=
  push_route c method path (fun self mws =>
    _ ← typed_self self controller_t;
    let inner := fun ctx => m ctx in
    Ok (wrap_with_middleware inner mws)).

Definition member_outcome_route (c : HttpController) (method : HttpMethod.t) (path : bytes)
    (controller_t : nat) (m : RequestContext F -> AsyncOutcome) : result exn HttpController :=
  push_route c method path (fun self mws =>
    _ ← typed_self self controller_t;
    let inner := await_outcome m in
    Ok (wrap_with_middleware inner mws)).

(** A free callable in either return shape. *)
Definition callable_route (c : HttpController) (method : HttpMethod.t) (path : bytes)
    (f : (RequestContext F -> AsyncOutcome) + ContextHandler) : result exn HttpController :=
  push_route c method path (fun _ mws =>
    let inner := match f with inl f => await_outcome f | inr f => f end in
    Ok (wrap_with_middleware inner mws)).

(** The three overloads every verb has. *)
Inductive RouteShape :=
| MemberResponse (controller_t : nat) (m : ContextHandler)
| MemberOutcome (controller_t : nat) (m : RequestContext F -> AsyncOutcome)
| Callable (f : (RequestContext F -> AsyncOutcome) + ContextHandler).

Definition verb (method : HttpMethod.t) (c : HttpController) (path : bytes) (shape : RouteShape) : result exn HttpController :=
  match shape with
  | MemberResponse t m => member_route c method path t m
  | MemberOutcome t m => member_outcome_route c method path t m
  | Callable f => callable_route c method path f
  end.

Definition Get := verb HttpMethod.get.
Definition Post := verb HttpMethod.post.
Definition Put := verb HttpMethod.put.
Definition Patch := verb HttpMethod.patch.
Definition Delete := verb HttpMethod.del.
Definition Head := verb HttpMethod.head.
Definition Options := verb HttpMethod.options.

(** ** Baking *)
Definition set_configured (c : HttpController) : HttpController :=
  {| ctrl_types := ctrl_types c; configured := true; baked := baked c;
     local_routes := local_routes c; middlewares := middlewares c |}.
Definition set_baked (c : HttpController) : HttpController :=
  {| ctrl_types := ctrl_types c; configured := configured c; baked := true;
     local_routes := local_routes c; middlewares := middlewares c |}.
Definition clear_routes (c : HttpController) : HttpController :=
  {| ctrl_types := ctrl_types c; configured := configured c; baked := baked c;
     local_routes := []; middlewares := middlewares c |}.

(** The loop of [bake_into]: the registry keeps the routes added before a throw. *)
Fixpoint bake_routes (registry : RouteRegistry ContextHandler) (c : HttpController) (prefix : bytes)
    (routes : list LocalRoute) : result exn unit * RouteRegistry ContextHandler :=
  match routes with
  | [] => (Ok tt, registry)
  | r :: routes =>
      match route_bake r (ctrl_types c) (middlewares c) with
      | Err e => (Err e, registry)
      | Ok handler =>
          match add_route registry (route_method r) (join_path prefix (route_path r)) (Some handler) with
          | Err e => (Err e, registry)
          | Ok registry => bake_routes registry c prefix routes
          end
      end
  end.

(** [ctrl] is the pointee, or [None] for a null pointer; [configure_routes] is
    the controller's virtual method, with the state an exception leaves. *)
Definition bake_into (configure_routes : HttpController -> result exn unit * HttpController)
    (registry : RouteRegistry ContextHandler) (ctrl : option HttpController) (prefix : bytes)
    : result exn unit * (RouteRegistry ContextHandler * option HttpController) :=
  match ctrl with
  | None => (Err (InvalidArgument (B "ControllerBaker: null controller")), (registry, None))
  | Some c =>
      if baked c then (Err (LogicError (B "HttpController: controller already baked")), (registry, Some c))
      else
        let '(r, c) := if negb (configured c)
                       then let '(r, c) := configure_routes c in
                            (r, match r with Ok _ => set_configured c | Err _ => c end)
                       else (Ok tt, c) in
        match r with
        | Err e => (Err e, (registry, Some c))
        | Ok _ =>
            let c := set_baked c in
            let '(r, registry) := bake_routes registry c prefix (local_routes c) in
            match r with
            | Err e => (Err e, (registry, Some c))
            | Ok _ => (Ok tt, (registry, Some (clear_routes c)))
            end
        end
  end.

(** ** Groups: a prefix over a shared registry and controller list *)
Record GroupBinding := { prefix : bytes }.

Definition group_binding (p : bytes) : GroupBinding := {| prefix := p |}.

Definition group_add_controller (g : GroupBinding)
    (configure_routes : HttpController -> result exn unit * HttpController)
    (registry : RouteRegistry ContextHandler) (controllers : list (option HttpController)) (ctrl : option HttpController)
    : result exn GroupBinding * (RouteRegistry ContextHandler * list (option HttpController)) :=
  let '(r, (registry, base)) := bake_into configure_routes registry ctrl (prefix g) in
  match r with
  | Err e => (Err e, (registry, controllers))
  | Ok _ => (Ok g, (registry, controllers ++ [base]))
  end.

Definition in_group (g : GroupBinding) (sub_prefix : bytes) : GroupBinding :=
  group_binding (join_path (prefix g) sub_prefix).

(** ** Dispatch *)
Record RequestInfo := { info_method : HttpMethod.t; info_target : bytes }.

(** A hook changes the world and may throw. *)
Record Hooks := {
  on_request : option (RequestContext F -> W -> W * result exn unit);
  on_response : option (RequestInfo -> Response F -> W -> W * result exn unit);
  on_unhandled_exception : option (exn -> W -> W * result exn unit);
}.

Definition no_hooks : Hooks := {| on_request := None; on_response := None; on_unhandled_exception := None |}.

Definition set_path_params (ctx : RequestContext F) (ps : list (bytes * bytes)) : RequestContext F :=
  fold_left (fun ctx '(name, value) => set_path_param ctx name value) ps ctx.

(** [if (hooks_.on_response) hooks_.on_response(info, r);] *)
Definition fire_response (hooks : Hooks) (info : RequestInfo) (r : Response F) (w : W) : W * result exn unit :=
  match on_response hooks with Some f => f info r w | None => (w, Ok tt) end.

Definition dispatch_with_hooks (hooks : Hooks) (registry : RouteRegistry ContextHandler) (ctx : RequestContext F) : AsyncResponse :=
  fun w =>
  let '(w, r) := match on_request hooks with Some f => f ctx w | None => (w, Ok tt) end in
  match r with
  | Err e => (w, Err e)
  | Ok _ =>
      let info := {| info_method := method ctx; info_target := target ctx |} in
      let '(p, ctx) := path ctx in
      match find_route registry (method ctx) p with
      | Err e =>
          match to_http_response e with
          | Err e => (w, Err e)
          | Ok r => let '(w, f) := fire_response hooks info r w in
                    (w, match f with Ok _ => Ok r | Err e => Err e end)
          end
      | Ok resolved =>
          let ctx := set_path_params ctx (path_params resolved) in
          let '(w, tried) :=
            let '(w, r) := handler resolved ctx w in
            match r with
            | Err e => (w, Err e)
            | Ok r => let '(w, f) := fire_response hooks info r w in
                      (w, match f with Ok _ => Ok r | Err e => Err e end)
            end in
          match tried with
          | Ok r => (w, Ok r)
          | Err e =>
              let '(w, f) := match on_unhandled_exception hooks with Some f => f e w | None => (w, Ok tt) end in
              (w, match f with Ok _ => Err e | Err e' => Err e' end)
          end
      end
  end.

Definition has_hooks (hooks : Hooks) : bool :=
  match on_request hooks, on_response hooks, on_unhandled_exception hooks with
  | None, None, None => false
  | _, _, _ => true
  end.

Definition dispatch (hooks : Hooks) (registry : RouteRegistry ContextHandler) (ctx : RequestContext F) : AsyncResponse :=
  if has_hooks hooks then dispatch_with_hooks hooks registry ctx
  else
    let '(p, ctx) := path ctx in
    match find_route registry (method ctx) p with
    | Err e => fun w => (w, to_http_response e)
    | Ok resolved => handler resolved (set_path_params ctx (path_params resolved))
    end.

End routing.

Arguments Hooks F W : clear implicits.
Arguments HttpController F W : clear implicits.
Arguments LocalRoute F W : clear implicits.
Arguments Middleware F W : clear implicits.
Arguments ContextHandler F W : clear implicits.
Arguments RouteShape F W : clear implicits.

Section properties.
  Context {F W : Type} `{BeastFields F}.
  Implicit Types (ctx : RequestContext F) (w : W) (c : HttpController F W) (hooks : Hooks F W)
    (registry : RouteRegistry (ContextHandler F W)).

Lemma wrap_cons (inner : ContextHandler F W) mw mws :
  wrap_with_middleware inner (mw :: mws) = fun ctx => mw ctx (wrap_with_middleware inner mws).
Proof. unfold wrap_with_middleware. by rewrite reverse_cons, fold_left_app. Qed.

(** Middlewares nest in the order they were added, the first outermost: the
    loop over the reversed span computes the right fold of the chain. *)
Theorem middleware_order (inner : ContextHandler F W) mws :
  wrap_with_middleware inner mws = fold_right (fun mw next => fun ctx => mw ctx next) inner mws.
Proof. induction mws as [|mw mws IH]; [done|]. by rewrite wrap_cons, IH. Qed.

(** ** Dispatch *)
Lemma set_path_params_spec ctx ps :
  request (set_path_params ctx ps) = request ctx /\
  ctx_path_params (set_path_params ctx ps) = ctx_path_params ctx ++ ps /\
  (ctx_wf ctx -> ctx_wf (set_path_params ctx ps)).
Proof.
  unfold set_path_params. revert ctx. induction ps as [|[k v] ps IH]; intros ctx; simpl; [by rewrite app_nil_r|].
  destruct (IH (set_path_param ctx k v)) as (E1 & E2 & E3). rewrite E1, E2. simpl. rewrite <- app_assoc.
  split_and!; [done|done|]. intros Hw. apply E3. by destruct Hw.
Qed.

Lemma path_params_kept ctx : ctx_path_params (snd (path ctx)) = ctx_path_params ctx.
Proof. unfold path, ensure_split. destruct (cached_path ctx); [done|]. by destruct (find_char _ _ _). Qed.

(** What a request that reaches the router gets: the outcome of routing on its
    method and its target up to the first ['?']. *)
Definition routed registry ctx : result http_error (ResolvedRoute (ContextHandler F W)) :=
  find_route registry (method ctx) (fst (split_target (target ctx))).

Lemma path_routed registry ctx :
  ctx_wf ctx ->
  find_route registry (method (snd (path ctx))) (fst (path ctx)) = routed registry ctx.
Proof.
  intros (P1 & _ & P3)%path_spec. unfold routed, method. by rewrite P1, P3.
Qed.

Lemma to_http_response_ok (e : http_error) : exists r : Response F, to_http_response e = Ok r /\ resp_status r = documented_status e.
Proof. destruct e; simpl; eexists; by split. Qed.

(** C4. Dispatch without hooks runs the handler that routing resolves, on the
    same request with the captures appended to its path parameters; a miss runs
    nothing, leaves the world alone and answers with the error's documented
    status (404 or 405). *)
Theorem dispatch_correct registry ctx w :
  ctx_wf ctx ->
  match routed registry ctx with
  | Ok resolved => exists ctx', dispatch no_hooks registry ctx w = handler resolved ctx' w /\
      request ctx' = request ctx /\ ctx_wf ctx' /\
      ctx_path_params ctx' = ctx_path_params ctx ++ path_params resolved
  | Err e => exists r, dispatch no_hooks registry ctx w = (w, Ok r) /\ resp_status r = documented_status e
  end.
Proof.
  intros Hw. pose proof (path_routed registry ctx Hw) as Hr. pose proof (path_params_kept ctx) as Hp.
  destruct (path_spec ctx Hw) as (_ & P2 & P3). unfold dispatch. change (has_hooks no_hooks) with false. cbv iota.
  destruct (path ctx) as [p ctx1]. cbn [fst snd] in *. rewrite Hr.
  destruct (routed registry ctx) as [resolved|e].
  - exists (set_path_params ctx1 (path_params resolved)).
    destruct (set_path_params_spec ctx1 (path_params resolved)) as (E1 & E2 & E3).
    rewrite E1, E2, P3, Hp. auto.
  - destruct (to_http_response_ok e) as (r & -> & Hs). by exists r.
Qed.

(** Hooks that never throw, as world transformers. *)
Record TotalHooks hooks (on_req : RequestContext F -> W -> W) (on_resp : RequestInfo -> Response F -> W -> W)
    (on_exn : exn -> W -> W) : Prop := {
  total_request ctx w : match on_request hooks with Some f => f ctx w | None => (w, Ok tt) end = (on_req ctx w, Ok tt);
  total_response i r w : fire_response hooks i r w = (on_resp i r w, Ok tt);
  total_exn e w : match on_unhandled_exception hooks with Some f => f e w | None => (w, Ok tt) end = (on_exn e w, Ok tt);
}.

Lemma dispatch_hookless_eq hooks registry ctx w :
  has_hooks hooks = false -> dispatch hooks registry ctx w = dispatch_with_hooks hooks registry ctx w.
Proof.
  intros Hh. unfold dispatch. rewrite Hh. unfold has_hooks in Hh. unfold dispatch_with_hooks, fire_response.
  destruct (on_request hooks), (on_response hooks), (on_unhandled_exception hooks); try done.
  destruct (path ctx) as [p ctx1]. destruct (find_route registry (method ctx1) p) as [resolved|e].
  - by destruct (handler resolved _ w) as [w' [r|e]].
  - by destruct (to_http_response e).
Qed.

Lemma dispatch_any hooks registry ctx w : dispatch hooks registry ctx w = dispatch_with_hooks hooks registry ctx w.
Proof.
  destruct (has_hooks hooks) eqn:Hh; [|by apply dispatch_hookless_eq]. unfold dispatch. by rewrite Hh.
Qed.

(** The hookless fast path agrees with the full dispatch body it skips: with
    no hook set, both return the same response, exception and world. *)
Theorem dispatch_fast_path registry ctx w :
  dispatch no_hooks registry ctx w = dispatch_with_hooks no_hooks registry ctx w.
Proof. by apply dispatch_hookless_eq. Qed.

(** The hook contract, for hooks that do not throw: [on_request] runs first;
    the outcome is the one of hookless dispatch; [on_response] fires exactly for
    handler successes and routing misses, [on_unhandled_exception] exactly when
    the handler throws, and the exception is rethrown. *)
Theorem dispatch_hooks_contract hooks registry ctx w on_req on_resp on_exn :
  TotalHooks hooks on_req on_resp on_exn ->
  dispatch hooks registry ctx w =
    let '(w', r) := dispatch no_hooks registry ctx (on_req ctx w) in
    match r with
    | Ok resp => (on_resp {| info_method := method ctx; info_target := target ctx |} resp w', Ok resp)
    | Err e => (on_exn e w', Err e)
    end.
Proof.
  intros [H1 H2 H3]. rewrite dispatch_any. unfold dispatch_with_hooks, dispatch.
  change (has_hooks no_hooks) with false. cbv iota. rewrite H1.
  destruct (path ctx) as [p ctx1]. destruct (find_route registry (method ctx1) p) as [resolved|e].
  - destruct (handler resolved _ _) as [w' [r|e]]; [by rewrite H2|by rewrite H3].
  - destruct (to_http_response_ok e) as (r & -> & _). by rewrite H2.
Qed.

(** ** Baking *)
Lemma bake_routes_app registry c prefix rs1 rs2 registry' :
  bake_routes registry c prefix (rs1 ++ rs2) = (Ok tt, registry') ->
  exists registry1, bake_routes registry c prefix rs1 = (Ok tt, registry1) /\
                    bake_routes registry1 c prefix rs2 = (Ok tt, registry').
Proof.
  revert registry. induction rs1 as [|r rs1 IH]; intros registry E; simpl in *; [eauto|].
  destruct (route_bake r _ _); [|done]. destruct (add_route _ _ _ _); [|done]. eauto.
Qed.

Lemma add_route_conflicts {H0} (r r' : RouteRegistry H0) m p h :
  add_route r m p h = Ok r' -> norm r' = norm r /\ exists cs, conflicts r' = conflicts r ++ cs.
Proof.
  intros (_ & _ & _ & h' & segs & _ & _ & HA)%add_route_outcome.
  destruct HA; simpl; (split; [done|]); [exists []; by rewrite app_nil_r..|by eexists].
Qed.

Lemma bake_routes_conflicts registry c prefix rs registry' :
  bake_routes registry c prefix rs = (Ok tt, registry') ->
  norm registry' = norm registry /\ exists cs, conflicts registry' = conflicts registry ++ cs.
Proof.
  revert registry. induction rs as [|r rs IH]; intros registry E; simpl in *.
  - simplify_eq. split; [done|]. exists []. by rewrite app_nil_r.
  - destruct (route_bake r _ _); [|done]. destruct (add_route _ _ _ _) as [r1|] eqn:Ea; [|done].
    apply add_route_conflicts in Ea as [N1 [cs1 C1]]. apply IH in E as [N2 [cs2 C2]].
    split; [congruence|]. exists (cs1 ++ cs2). by rewrite C2, C1, app_assoc.
Qed.

Lemma bake_routes_wf registry c prefix rs registry' :
  registry_wf registry -> bake_routes registry c prefix rs = (Ok tt, registry') -> registry_wf registry'.
Proof.
  revert registry. induction rs as [|r rs IH]; intros registry Hw E; simpl in *; [by simplify_eq|].
  destruct (route_bake r _ _); [|done]. destruct (add_route _ _ _ _) as [r1|] eqn:Ea; [|done].
  eapply IH, E. by eapply add_route_wf_lemma.
Qed.

(** An exact resolution survives the rest of the bake. *)
Lemma bake_routes_keeps registry c prefix rs registry' m q rr :
  bake_routes registry c prefix rs = (Ok tt, registry') ->
  is_Some (exact registry !! normalize_owned (norm registry) q) ->
  find_route registry m q = Ok rr -> find_route registry' m q = Ok rr.
Proof.
  revert registry. induction rs as [|r rs IH]; intros registry E Hs Hf; simpl in *; [by simplify_eq|].
  destruct (route_bake r _ _); [|done]. destruct (add_route _ _ _ _) as [r1|] eqn:Ea; [|done].
  pose proof (add_route_conflicts _ _ _ _ _ Ea) as [N1 _].
  eapply IH; [done| |by eapply add_route_preserves_lemma].
  rewrite N1. apply add_route_outcome in Ea as (_ & _ & _ & h' & segs & _ & _ & HA).
  destruct HA; simpl; try done. destruct Hs as [s Hs].
  destruct (decide (normalize_owned (norm registry) (join_path prefix (route_path r)) = normalize_owned (norm registry) q)) as [->|Hne].
  - rewrite lookup_insert_eq. by eexists.
  - rewrite lookup_insert_ne by done. by eexists.
Qed.

Lemma add_route_exact {H0} (r r' : RouteRegistry H0) m p oh segs :
  add_route r m p oh = Ok r' -> parse_segments (normalize_owned (norm r) p) = Ok segs ->
  existsb is_param segs = false -> is_Some (exact r' !! normalize_owned (norm r) p).
Proof.
  intros (_ & _ & _ & h' & segs' & _ & Hps & HA)%add_route_outcome Hps' Hl. rewrite Hps in Hps'. simplify_eq.
  destruct HA as [slots _ _ _|l1 slots l2 Hp _ _ _|d Ht]; simpl; [|congruence|].
  - rewrite lookup_insert_eq. by eexists.
  - rewrite Hl in Ht. destruct Ht as (slots & -> & _). by eexists.
Qed.

Lemma bake_routes_resolves registry c prefix rs1 r rs2 registry' h segs q :
  registry_wf registry -> bake_routes registry c prefix (rs1 ++ r :: rs2) = (Ok tt, registry') ->
  conflicts registry' = conflicts registry ->
  route_bake r (ctrl_types c) (middlewares c) = Ok h ->
  parse_segments (normalize_owned (norm registry) (join_path prefix (route_path r))) = Ok segs ->
  existsb is_param segs = false ->
  normalize_owned (norm registry) q = normalize_owned (norm registry) (join_path prefix (route_path r)) ->
  find_route registry' (route_method r) q = Ok {| handler := h; path_params := [] |}.
Proof.
  intros Hw Hb Hc Hh Hps Hl Hq. apply bake_routes_app in Hb as (reg1 & Hb1 & Hb2). simpl in Hb2. rewrite Hh in Hb2.
  pose proof (bake_routes_conflicts _ _ _ _ _ Hb1) as [N1 [cs1 C1]].
  destruct (add_route reg1 _ _ _) as [reg2|e] eqn:Ea; [|done].
  pose proof (add_route_conflicts _ _ _ _ _ Ea) as [N2 [cs2 C2]].
  pose proof (bake_routes_conflicts _ _ _ _ _ Hb2) as [_ [cs3 C3]].
  rewrite C3, C2, C1, <- !app_assoc in Hc. apply app_self_nil in Hc.
  apply app_eq_nil in Hc as [-> [-> ->]%app_eq_nil]. rewrite app_nil_r in C2.
  rewrite <- N1 in Hps, Hq. eapply bake_routes_keeps; [done| |].
  - rewrite N2, Hq. by eapply add_route_exact.
  - eapply (add_route_resolves_lemma reg1); [by eapply bake_routes_wf|done|done|done|]. by rewrite Hl.
Qed.

(** Baking a controller serves its routes: a successful bake without new
    conflicts makes every literal route the controller declared in
    [configure_routes] resolve, under the group prefix, to its handler wrapped in
    the controller's middleware; the controller is then baked and drained, and a
    second bake is refused without touching the registry. *)
Theorem bake_serves_routes conf registry c prefix registry' c' rs1 r rs2 h segs q :
  registry_wf registry -> configured c = false ->
  bake_into conf registry (Some c) prefix = (Ok tt, (registry', Some c')) ->
  conflicts registry' = conflicts registry ->
  let c1 := snd (conf c) in
  local_routes c1 = rs1 ++ r :: rs2 -> route_bake r (ctrl_types c1) (middlewares c1) = Ok h ->
  parse_segments (normalize_owned (norm registry) (join_path prefix (route_path r))) = Ok segs ->
  existsb is_param segs = false ->
  normalize_owned (norm registry) q = normalize_owned (norm registry) (join_path prefix (route_path r)) ->
  find_route registry' (route_method r) q = Ok {| handler := h; path_params := [] |} /\
  baked c' = true /\ local_routes c' = [] /\
  bake_into conf registry' (Some c') prefix =
    (Err (LogicError (B "HttpController: controller already baked")), (registry', Some c')).
Proof.
  intros Hw Hcf Hb Hc c1 Hrs Hh Hps Hl Hq. unfold bake_into in Hb. rewrite Hcf in Hb.
  destruct (baked c); [done|]. simpl in Hb. subst c1. destruct (conf c) as [[[]|e] c1]; simpl in *; [|done].
  destruct (bake_routes registry (set_baked (set_configured c1)) prefix (local_routes c1)) as [[[]|e] reg'] eqn:Eb; [|done].
  simplify_eq. split; [|done]. rewrite Hrs in Eb.
  by eapply (bake_routes_resolves registry (set_baked (set_configured c1))).
Qed.

End properties.

(** ** Witnesses: one controller, one literal route, one middleware *)
Section witnesses.

Definition plain := list (bytes * bytes).

(** The world counts handler runs; the middleware counts by tens. *)
Definition sample_handler : ContextHandler plain nat := fun _ w => (S w, Ok response).
Definition sample_mw : Middleware plain nat := fun ctx next w => next ctx (10 + w).

Definition sample_controller : HttpController plain nat :=
  {| ctrl_types := [4]; configured := false; baked := false; local_routes := []; middlewares := [sample_mw] |}.

Definition sample_configure (c : HttpController plain nat) : result exn unit * HttpController plain nat :=
  match Get c (B "/ping") (MemberResponse 4 sample_handler) with Ok c => (Ok tt, c) | Err e => (Err e, c) end.

Definition sample_empty : RouteRegistry (ContextHandler plain nat) := route_registry PathNormalization.none.

Definition sample_baked : RouteRegistry (ContextHandler plain nat) :=
  fst (snd (bake_into sample_configure sample_empty (Some sample_controller) (B "/api/"))).

Definition ping_request : Request plain :=
  {| req_method := HttpMethod.get; req_version := HttpVersion.http_1_1; req_target := B "/api/ping?x=1";
     req_headers := headers_owned; req_body := EmptyPayload |}.

Lemma bake_serves_routes_witness :
  find_route sample_baked HttpMethod.get (B "/api/ping") =
  Ok {| handler := wrap_with_middleware sample_handler [sample_mw]; path_params := [] |}.
Proof.
  refine (proj1 (bake_serves_routes sample_configure sample_empty sample_controller (B "/api/") sample_baked _
            [] (hd {| route_method := HttpMethod.get; route_path := []; route_bake := fun _ _ => Err BadVariantAccess |}
                   (local_routes (snd (sample_configure sample_controller)))) []
            (wrap_with_middleware sample_handler [sample_mw]) _ (B "/api/ping") _ _ _ _ _ _ _ _ _)).
  - apply route_registry_wf.
  - reflexivity.
  - reflexivity.
  - reflexivity.
  - reflexivity.
  - reflexivity.
  - reflexivity.
  - reflexivity.
  - reflexivity.
Defined.

Lemma dispatch_correct_witness : exists ctx',
  dispatch no_hooks sample_baked (request_context ping_request) 0 =
  wrap_with_middleware sample_handler [sample_mw] ctx' 0.
Proof.
  pose proof (dispatch_correct sample_baked (request_context ping_request) 0 (request_context_wf ping_request)) as Hd.
  change (routed sample_baked (request_context ping_request))
    with (Ok (E := http_error) {| handler := wrap_with_middleware sample_handler [sample_mw]; path_params := [] |}) in Hd.
  destruct Hd as (ctx' & Hd & _). by exists ctx'.
Defined.

Definition counting_hooks : Hooks plain nat :=
  {| on_request := Some (fun _ w => (100 + w, Ok tt)); on_response := None; on_unhandled_exception := None |}.

Lemma dispatch_hooks_contract_witness :
  dispatch counting_hooks sample_baked (request_context ping_request) 0 = (111, Ok response).
Proof.
  etransitivity; [apply (dispatch_hooks_contract counting_hooks sample_baked (request_context ping_request) 0
                    (fun _ w => 100 + w) (fun _ _ w => w) (fun _ w => w)); by split|].
  reflexivity.
Defined.

End witnesses.
