(* ===== verification/Http11.v ===== *)
(** * The HTTP/1.1 driver ([drivers/http11])

    The keep-alive session loop, the response serializer and the glue to Beast.
    Beast itself is a parameter: its incremental parser ([BeastParser]), its
    reason phrases and its case-insensitive comparison ([BeastHttp]).  The socket
    is a script: the outcomes of the successive reads and of the successive
    writes; what the loop hands to [async_write] is recorded. *)

From S2P Require Import Prelude Url Headers HttpTypes Routing RequestContext Router.

(** [boost::beast::http::error] as far as the driver distinguishes it. *)
Inductive beast_error :=
| need_more | end_of_stream | partial_message | header_limit | body_limit
| bad_line_ending | bad_method | bad_target | bad_version | bad_field | bad_value
| bad_content_length | bad_transfer_encoding | bad_chunk | bad_chunk_extension | bad_obs_fold
| transport_error (code : nat).

#[global] Instance beast_error_eq_dec : EqDecision beast_error.
Proof. solve_decision. Defined.

Definition is_malformed_request (ec : beast_error) : bool :=
  bool_decide (ec ∈ [bad_line_ending; bad_method; bad_target; bad_version; bad_field; bad_value;
                     bad_content_length; bad_transfer_encoding; bad_chunk; bad_chunk_extension; bad_obs_fold]).

Record Http11Config := {
  max_header_bytes : N;
  max_body_bytes : N;
  header_timeout : Z;
  body_timeout : Z;
  idle_timeout : Z;
}.

(** The member initializers, in bytes and milliseconds. *)
Definition http11_config_default : Http11Config :=
  {| max_header_bytes := 16 * 1024; max_body_bytes := 16 * 1024 * 1024;
     header_timeout := 10000; body_timeout := 30000; idle_timeout := 60000 |}.

(** [obsolete_reason], [iequals], and the verbs of Beast. *)
Class BeastHttp (V : Type) := {
  obsolete_reason : N -> bytes;
  iequals : bytes -> bytes -> bool;
  verb_eq_dec :: EqDecision V;
  v_get : V; v_post : V; v_put : V; v_patch : V; v_delete : V; v_head : V; v_options : V;
}.

(** A parsed message, as [parser.get()] exposes it. *)
Record BeastRequest (F V : Type) := {
  br_fields : F;
  br_method : V;
  br_version : N;
  br_target : bytes;
  br_body : bytes;
  br_keep_alive : bool;
}.
Arguments br_fields {F V}.
Arguments br_method {F V}.
Arguments br_version {F V}.
Arguments br_target {F V}.
Arguments br_body {F V}.
Arguments br_keep_alive {F V}.

(** [request_parser] driven by [put] in eager mode: [p_put] returns the new
    parser state, the number of bytes it consumed and the error code. *)
Class BeastParser (P F V : Type) := {
  p_new : N -> N -> P;
  p_is_done : P -> bool;
  p_got_some : P -> bool;
  p_is_header_done : P -> bool;
  p_put : P -> bytes -> P * nat * option beast_error;
  p_get : P -> BeastRequest F V;
}.

(** What Beast documents of them: bytes that were received stay received, and a complete
    header stays complete while the message is not. *)
Class BeastParserLaws (P F V : Type) `{BeastParser P F V} := {
  put_got_some p data : p_got_some p = true -> p_got_some (p_put p data).1.1 = true;
  put_header_done p data : p_is_done p = false -> p_is_header_done p = true -> p_is_header_done (p_put p data).1.1 = true;
}.

(** ** Requests in *)
Section build.
  Context {F V : Type} `{BeastFields F, BeastHttp V}.

Definition build_request_context (req : BeastRequest F V) : RequestContext F :=
  request_context
    {| req_method := method_from_beast v_get v_post v_put v_patch v_delete v_head v_options (br_method req);
       req_version := HttpVersion.version_from_beast (br_version req);
       req_target := br_target req;
       req_headers := view_of_beast (br_fields req);
       req_body := body_beast_view (br_body req) |}.

End build.

(** ** Responses out *)
Section serialize.
  Context {F V : Type} `{BeastFields F, BeastHttp V}.

(** The header pass: the text so far and whether [Date] and [Server] were seen. *)
Definition header_pass (st : bytes * bool * bool) (kv : bytes * bytes) : bytes * bool * bool :=
  let '(out, has_date, has_server) := st in
  let '(name, value) := kv in
  let '(has_date, has_server) :=
    if negb has_date && iequals name (B "Date") then (true, has_server)
    else if negb has_server && iequals name (B "Server") then (has_date, true)
    else (has_date, has_server) in
  (out ++ name ++ B ": " ++ value ++ crlf, has_date, has_server).

(** [date] is what [imf_fixdate_now] returns. *)
Definition serialize_response (date : bytes) (resp : Response F) (out : bytes) : bytes :=
  let out := out ++ (match resp_version resp with HttpVersion.http_1_0 => B "HTTP/1.0 " | _ => B "HTTP/1.1 " end) in
  let code := HttpStatus.status_code (resp_status resp) in
  let out := out ++ to_decimal code in
  let out := out ++ B " " in
  let out := out ++ obsolete_reason code ++ crlf in
  let '(out, has_date, has_server) := fold_left header_pass (iterate (resp_headers resp)) (out, false, false) in
  let out := if has_date then out else out ++ B "Date: " ++ date ++ crlf in
  let out := if has_server then out else out ++ B "Server: Menagerie" ++ crlf in
  let body := default [] (buffered_view (resp_body resp)) in
  let out := out ++ B "Content-Length: " ++ to_decimal (N.of_nat (length body)) ++ crlf in
  let out := if resp_keep_alive resp then out else out ++ B "Connection: close" ++ crlf in
  out ++ crlf ++ body.

End serialize.

(** ** The session loop *)

(** The outcome of one [async_read_some]. *)
Inductive read_event :=
| ReadBytes (data : bytes)
| ReadEof
| ReadError (code : nat).

Record Session := {
  buffer : bytes;                  (* read, not yet consumed *)
  outbuf : bytes;                  (* serialized, not yet written *)
  written : list bytes;            (* the buffers handed to [async_write], in order *)
  reads : list read_event;         (* the outcomes of the reads still to come *)
  write_errors : list bool;        (* for each write still to come, whether it fails *)
  deadlines : list Z;              (* the timeouts armed, in order *)
  is_closed : bool;
}.

Definition session (reads : list read_event) (write_errors : list bool) : Session :=
  {| buffer := []; outbuf := []; written := []; reads := reads; write_errors := write_errors;
     deadlines := []; is_closed := false |}.

Definition set_buffer (s : Session) (b : bytes) : Session :=
  {| buffer := b; outbuf := outbuf s; written := written s; reads := reads s;
     write_errors := write_errors s; deadlines := deadlines s; is_closed := is_closed s |}.
Definition set_outbuf (s : Session) (o : bytes) : Session :=
  {| buffer := buffer s; outbuf := o; written := written s; reads := reads s;
     write_errors := write_errors s; deadlines := deadlines s; is_closed := is_closed s |}.
Definition set_reads (s : Session) (r : list read_event) : Session :=
  {| buffer := buffer s; outbuf := outbuf s; written := written s; reads := r;
     write_errors := write_errors s; deadlines := deadlines s; is_closed := is_closed s |}.
Definition set_deadline_after (s : Session) (t : Z) : Session :=
  {| buffer := buffer s; outbuf := outbuf s; written := written s; reads := reads s;
     write_errors := write_errors s; deadlines := deadlines s ++ [t]; is_closed := is_closed s |}.
Definition async_close (s : Session) : Session :=
  {| buffer := buffer s; outbuf := outbuf s; written := written s; reads := reads s;
     write_errors := write_errors s; deadlines := deadlines s; is_closed := true |}.

(** [co_await async_write(outbuf); outbuf.clear();] with the write's error flag. *)
Definition flush (s : Session) : Session * bool :=
  ({| buffer := buffer s; outbuf := []; written := written s ++ [outbuf s]; reads := reads s;
      write_errors := tail (write_errors s); deadlines := deadlines s; is_closed := is_closed s |},
   default false (head (write_errors s))).

Section serve.
  Context {P F V W : Type} `{BeastFields F, !BeastHttp V, !BeastParser P F V}.
  Context (cfg : Http11Config) (hooks : Hooks F W) (registry : RouteRegistry (ContextHandler F W)).
  (** [imf_fixdate_now()] may change from one response to the next; it is a function of the world. *)
  Context (date : W -> bytes).

(** Feeding the buffered bytes to the parser; the middle component is the way
    the loop is left, if it is: [Some None] when the message is complete,
    [Some (Some e)] on an error. *)
Definition put_buffered (parser : P) (s : Session) : P * option (option beast_error) * Session :=
  if 0 <? length (buffer s) then
    let '(parser, parsed, pec) := p_put parser (buffer s) in
    let s := set_buffer s (drop parsed (buffer s)) in
    match pec with
    | Some e => if decide (e = need_more) then (parser, if p_is_done parser then Some None else None, s)
                else (parser, Some (Some e), s)
    | None => (parser, if p_is_done parser then Some None else None, s)
    end
  else (parser, None, s).

(** About to park mid-message: arm the phase deadline, once per phase. *)
Definition arm_phase (parser : P) (header_deadline_set body_deadline_set : bool) (s : Session) : Session * bool * bool :=
  if p_got_some parser then
    if p_is_header_done parser && negb body_deadline_set
    then (set_deadline_after s (body_timeout cfg), header_deadline_set, true)
    else if negb (p_is_header_done parser) && negb header_deadline_set
    then (set_deadline_after s (header_timeout cfg), true, body_deadline_set)
    else (s, header_deadline_set, body_deadline_set)
  else (s, header_deadline_set, body_deadline_set).

(** The read loop of one message: the parser, the error that ended it and the
    session; [None] while the connection waits for bytes that never come (or the
    fuel runs out). *)
Fixpoint read_message (fuel : nat) (parser : P) (header_deadline_set body_deadline_set : bool) (s : Session)
    : option (P * option beast_error * Session) :=
  match fuel with
  | 0 => None
  | S fuel =>
      if p_is_done parser then Some (parser, None, s)
      else
        let '(parser, stop, s) := put_buffered parser s in
        match stop with
        | Some ec => Some (parser, ec, s)
        | None =>
            let '(s, header_deadline_set, body_deadline_set) :=
              arm_phase parser header_deadline_set body_deadline_set s in
            match reads s with
            | [] => None
            | ReadBytes data :: rest =>
                read_message fuel parser header_deadline_set body_deadline_set
                  (set_buffer (set_reads s rest) (buffer s ++ data))
            | ReadEof :: rest =>
                Some (parser, Some (if p_got_some parser then partial_message else end_of_stream), set_reads s rest)
            | ReadError code :: rest => Some (parser, Some (transport_error code), set_reads s rest)
            end
        end
  end.

(** The error responses the driver writes itself. *)
Definition driver_error (ec : beast_error) : option (result exn (Response F)) :=
  if decide (ec = end_of_stream) then None
  else if decide (ec = header_limit) then Some (rf_bad_request (B "Request Header Fields Too Large"))
  else if decide (ec = body_limit) then Some (rf_payload_too_large (B "Payload Too Large"))
  else if is_malformed_request ec then Some (rf_bad_request (B "Bad Request"))
  else None.

Definition max_batch : nat := 256 * 1024.

(** When the batch is written out. *)
Definition flush_now (keep_alive : bool) (s : Session) : bool :=
  negb keep_alive || (length (buffer s) =? 0) || (max_batch <=? length (outbuf s)).

(** One iteration of [while (true)]; the flag tells whether the loop goes on.
    [policy] is the flush condition. *)
Definition serve_step (policy : bool -> Session -> bool) (fuel : nat) (w : W) (s : Session) : option (result exn (W * Session * bool)) :=
  let parser := p_new (max_header_bytes cfg `mod` 2 ^ 32)%N (max_body_bytes cfg) in
  let header_deadline_set := 0 <? length (buffer s) in
  let s := set_deadline_after s (if header_deadline_set then header_timeout cfg else idle_timeout cfg) in
  '(parser, ec, s) ← read_message fuel parser header_deadline_set false s;
  Some (match ec with
  | Some ec =>
      match driver_error ec with
      | None => Ok (w, s, false)
      | Some r => r ← r; Ok (w, set_outbuf s (serialize_response (V := V) (date w) (with_keep_alive r false) (outbuf s)), false)
      end
  | None =>
      let req := p_get parser in
      let '(w, outcome) := dispatch hooks registry (build_request_context req) w in
      response ← match outcome with
                 | Ok r => Ok r
                 | Err _ => r ← rf_internal_error (B "Internal Server Error"); Ok (with_keep_alive r false)
                 end;
      let keep_alive := resp_keep_alive response && br_keep_alive req in
      let response := with_version (with_keep_alive response keep_alive) HttpVersion.http_1_1 in
      let s := set_outbuf s (serialize_response (V := V) (date w) response (outbuf s)) in
      if policy keep_alive s then
        let '(s, write_ec) := flush s in
        Ok (w, s, negb (write_ec || negb keep_alive))
      else Ok (w, s, true)
  end).

Fixpoint serve_loop (policy : bool -> Session -> bool) (fuel : nat) (w : W) (s : Session) : option (result exn (W * Session)) :=
  match fuel with
  | 0 => None
  | S n =>
      r ← serve_step policy fuel w s;
      match r with
      | Err e => Some (Err e)
      | Ok (w, s, true) => serve_loop policy n w s
      | Ok (w, s, false) => Some (Ok (w, s))
      end
  end.

Definition serve_with (policy : bool -> Session -> bool) (fuel : nat) (w : W) (s : Session)
    : option (result exn (W * Session)) :=
  r ← serve_loop policy fuel w s;
  Some ('(w, s) ← r;
        let s := if bool_decide (outbuf s = []) then s else fst (flush s) in
        Ok (w, async_close s)).

Definition serve := serve_with flush_now.

(** Reference: a server that writes every response as soon as it is ready. *)
Definition serve_unbatched := serve_with (fun _ _ => true).

End serve.

(** Beast documents [iequals] as ASCII case-insensitive equality. *)
Class BeastHttpLaws (V : Type) `{BeastHttp V} := {
  iequals_spec a b : iequals a b = does_equal a b;
}.

(** ** The text of a response *)
Section text.
  Context {F V : Type} `{BeastFields F, BeastHttp V}.
  Implicit Types resp : Response F.

Definition line (l : bytes) : bytes := l ++ crlf.
Definition header_text (kv : bytes * bytes) : bytes := fst kv ++ B ": " ++ snd kv.

Definition names_header (n : bytes) (kvs : list (bytes * bytes)) : bool := existsb (fun kv => does_equal (fst kv) n) kvs.

Definition resp_payload resp : bytes := default [] (buffered_view (resp_body resp)).

Definition status_line resp : bytes :=
  (match resp_version resp with HttpVersion.http_1_0 => B "HTTP/1.0 " | _ => B "HTTP/1.1 " end) ++
  to_decimal (HttpStatus.status_code (resp_status resp)) ++ B " " ++
  obsolete_reason (HttpStatus.status_code (resp_status resp)).

(** The header lines of a response, as a list. *)
Definition head_lines (date : bytes) resp : list bytes :=
  let kvs := iterate (resp_headers resp) in
  [status_line resp] ++ map header_text kvs ++
  (if names_header (B "Date") kvs then [] else [B "Date: " ++ date]) ++
  (if names_header (B "Server") kvs then [] else [B "Server: Menagerie"]) ++
  [B "Content-Length: " ++ to_decimal (N.of_nat (length (resp_payload resp)))] ++
  (if resp_keep_alive resp then [] else [B "Connection: close"]).

Lemma does_equal_date_server n : does_equal n (B "Date") = true -> does_equal n (B "Server") = false.
Proof.
  intros E. destruct (does_equal n (B "Server")) eqn:E2; [|done].
  apply does_equal_spec in E, E2. rewrite E in E2. by vm_compute in E2.
Qed.

Lemma header_pass_one `{!BeastHttpLaws V} out d sv kv :
  header_pass (out, d, sv) kv =
  (out ++ line (header_text kv), d || does_equal (fst kv) (B "Date"), sv || does_equal (fst kv) (B "Server")).
Proof.
  destruct kv as [n v]. unfold header_pass, line, header_text. cbn [fst snd]. rewrite !iequals_spec.
  pose proof (does_equal_date_server n) as Hn.
  rewrite <- !app_assoc.
  destruct (does_equal n (B "Date")); [rewrite Hn by done|destruct (does_equal n (B "Server"))]; by destruct d, sv.
Qed.

Lemma header_pass_fold `{!BeastHttpLaws V} kvs out d sv :
  fold_left header_pass kvs (out, d, sv) =
  (out ++ concat (map line (map header_text kvs)),
   d || names_header (B "Date") kvs, sv || names_header (B "Server") kvs).
Proof.
  revert out d sv. induction kvs as [|kv kvs IH]; intros out d sv.
  - simpl. by rewrite app_nil_r, !orb_false_r.
  - cbn [fold_left map concat]. rewrite header_pass_one, IH. unfold names_header. cbn [existsb].
    by rewrite !orb_assoc, app_assoc.
Qed.

Lemma serialize_lines `{!BeastHttpLaws V} date resp out :
  serialize_response (V := V) date resp out =
  out ++ concat (map line (head_lines date resp)) ++ crlf ++ resp_payload resp.
Proof.
  unfold serialize_response. rewrite header_pass_fold. unfold head_lines, status_line, resp_payload. cbn [orb].
  destruct (names_header (B "Date") _), (names_header (B "Server") _), (resp_keep_alive resp);
    rewrite ?map_app, ?concat_app; cbn [map concat]; unfold line; rewrite <- ?app_assoc, ?app_nil_r;
    rewrite <- ?app_assoc; done.
Qed.

(** ** Framing *)

(** A non-empty header line without a carriage return. *)
Definition plain_line (l : bytes) : Prop := l <> [] /\ "013"%char ∉ l.

Lemma find_blank_skip l x t :
  "013"%char ∉ l -> x <> "013"%char ->
  find_sub_index (crlf ++ crlf) (line l ++ x :: t) =
  (fun i => length (line l) + i) <$> find_sub_index (crlf ++ crlf) (x :: t).
Proof.
  intros Hl Hx. unfold line. rewrite <- app_assoc. unfold crlf. simpl app. rewrite find_sub_skip by done.
  rewrite find_sub_next by (simpl; by rewrite (bool_decide_false ("013"%char = x)) by done).
  rewrite (find_sub_next _ "010"%char) by done. destruct (find_sub_index _ (x :: t)); [|done].
  simpl. f_equal. rewrite length_app. simpl. lia.
Qed.

Lemma find_blank_after_lines ls rest :
  ls <> [] -> Forall plain_line ls ->
  find_sub_index (crlf ++ crlf) (concat (map line ls) ++ crlf ++ rest) = Some (length (concat (map line ls)) - 2).
Proof.
  intros Hne HF. induction HF as [|l ls [Hl HCR] HF IH]; [done|]. cbn [map concat]. rewrite <- app_assoc.
  destruct ls as [|l' ls].
  - cbn [map concat app]. unfold line. rewrite <- app_assoc. unfold crlf. simpl app. rewrite find_sub_skip by done.
    rewrite find_sub_here by done. simpl. f_equal. rewrite !length_app. simpl. lia.
  - assert (exists x t, concat (map line (l' :: ls)) ++ crlf ++ rest = x :: t /\ x <> "013"%char) as (x & t & Ex & Hx).
    { apply Forall_cons in HF as [[Hl' HCR'] _]. destruct l' as [|x l']; [done|]. eexists x, _. split; [done|]. set_solver. }
    rewrite Ex, find_blank_skip by done. rewrite <- Ex, IH by done. simpl. f_equal.
    assert (2 <= length (line l' ++ concat (map line ls))) by (unfold line; rewrite !length_app; simpl; lia).
    rewrite (length_app (line l)). lia.
Qed.

Lemma concat_lines_length ls : ls <> [] -> 2 <= length (concat (map line ls)).
Proof. destruct ls as [|l ls]; [done|]. intros _. simpl. unfold line. rewrite !length_app. simpl. lia. Qed.

(** C17. Framing: when no header line contains a carriage return, a client that
    reads up to the first blank line finds the header block with a
    [Content-Length] line of the payload's size, and the bytes after it are the
    payload followed by whatever was sent next. *)
Theorem serialize_framing `{!BeastHttpLaws V} date resp next :
  Forall plain_line (head_lines date resp) ->
  exists i,
    find_sub_index (crlf ++ crlf) (serialize_response (V := V) date resp [] ++ next) = Some i /\
    take (i + 2) (serialize_response (V := V) date resp []) = concat (map line (head_lines date resp)) /\
    drop (i + 4) (serialize_response (V := V) date resp [] ++ next) = resp_payload resp ++ next /\
    B "Content-Length: " ++ to_decimal (N.of_nat (length (resp_payload resp))) ∈ head_lines date resp.
Proof.
  intros HF. rewrite !serialize_lines, app_nil_l. rewrite <- !app_assoc.
  assert (head_lines date resp <> []) as Hne by (unfold head_lines; by simpl).
  pose proof (concat_lines_length _ Hne) as Hlen. eexists. split; [by apply find_blank_after_lines|].
  split_and!.
  - replace (length (concat (map line (head_lines date resp))) - 2 + 2) with (length (concat (map line (head_lines date resp)))) by lia.
    by rewrite take_app_length.
  - replace (length (concat (map line (head_lines date resp))) - 2 + 4) with (length (concat (map line (head_lines date resp))) + 2) by lia.
    by rewrite drop_past.
  - unfold head_lines. rewrite !elem_of_app. right. right. right. right. left. by left.
Qed.

(** A [Content-Length] header that the handler set is not replaced: the
    header block then carries it and, after it, the computed one. *)
Theorem content_length_repeated date resp v :
  (B "Content-Length", v) ∈ iterate (resp_headers resp) ->
  exists l1 l2 l3, head_lines date resp =
    l1 ++ [B "Content-Length: " ++ v] ++ l2 ++
    [B "Content-Length: " ++ to_decimal (N.of_nat (length (resp_payload resp)))] ++ l3.
Proof.
  intros Hv. apply list_elem_of_split in Hv as (k1 & k2 & E). unfold head_lines.
  set (D := if names_header (B "Date") _ then _ else _). set (S := if names_header (B "Server") _ then _ else _).
  set (C := if resp_keep_alive resp then _ else _). clearbody D S C. rewrite E, map_app.
  exists ([status_line resp] ++ map header_text k1), (map header_text k2 ++ D ++ S), C.
  rewrite <- !app_assoc. reflexivity.
Qed.
End text.

(** ** The session *)
Section session.
  Context {P F V W : Type} `{BeastFields F, !BeastHttp V, !BeastParser P F V, !BeastHttpLaws V}.
  Context (cfg : Http11Config) (hooks : Hooks F W) (registry : RouteRegistry (ContextHandler F W)).
  Context (date : W -> bytes).
  Implicit Types s : Session.

(** Everything the session has produced so far, written or not. *)
Definition stream s : bytes := concat (written s) ++ outbuf s.

(** Two sessions that differ only in how the produced bytes are batched, both
    with no failing write to come. *)
Record same_stream (s t : Session) : Prop := {
  same_buffer : buffer s = buffer t;
  same_reads : reads s = reads t;
  same_deadlines : deadlines s = deadlines t;
  same_closed : is_closed s = is_closed t;
  same_bytes : stream s = stream t;
  no_failures : write_errors s = [] /\ write_errors t = [];
}.

(** The input side of [s] with the output side of [t]. *)
Definition graft s t : Session :=
  {| buffer := buffer s; outbuf := outbuf t; written := written t; reads := reads s;
     write_errors := write_errors t; deadlines := deadlines s; is_closed := is_closed t |}.

Lemma put_buffered_graft p s t :
  put_buffered (P := P) (F := F) (V := V) p (graft s t) =
  (let '(p', st, s') := put_buffered (P := P) (F := F) (V := V) p s in (p', st, graft s' t)).
Proof.
  unfold put_buffered. simpl. destruct (0 <? length (buffer s)); [|done].
  destruct (p_put p (buffer s)) as [[p1 n] [e|]]; [|done]. by case_decide.
Qed.

Lemma arm_phase_graft p h b s t :
  arm_phase (P := P) (F := F) (V := V) cfg p h b (graft s t) =
  (let '(s', h', b') := arm_phase (P := P) (F := F) (V := V) cfg p h b s in (graft s' t, h', b')).
Proof. unfold arm_phase. destruct (p_got_some p), (p_is_header_done p), h, b; done. Qed.

(** Reading a message neither looks at nor changes the output side. *)
Lemma read_message_graft fuel p h b s t :
  read_message (P := P) (F := F) (V := V) cfg fuel p h b (graft s t) =
  (fun '(p', ec, s') => (p', ec, graft s' t)) <$> read_message (P := P) (F := F) (V := V) cfg fuel p h b s.
Proof.
  revert p h b s. induction fuel as [|fuel IH]; intros p h b s; [done|]. cbn [read_message].
  destruct (p_is_done p); [done|]. rewrite put_buffered_graft.
  destruct (put_buffered p s) as [[p1 [ec|]] s1]; [done|]. rewrite arm_phase_graft.
  destruct (arm_phase cfg p1 h b s1) as [[s2 h2] b2]. cbn [graft reads buffer].
  destruct (reads s2) as [|[data| |code] rest]; [done| |done|done].
  apply (IH p1 h2 b2 (set_buffer (set_reads s2 rest) (buffer s2 ++ data))).
Qed.

Lemma put_buffered_outside p s p' st s' :
  put_buffered (P := P) (F := F) (V := V) p s = (p', st, s') ->
  outbuf s' = outbuf s /\ written s' = written s /\ write_errors s' = write_errors s /\
  is_closed s' = is_closed s /\ deadlines s' = deadlines s.
Proof.
  unfold put_buffered. destruct (0 <? length (buffer s)); [|by intros [= <- <- <-]].
  destruct (p_put p (buffer s)) as [[p1 n] [e|]]; [case_decide|]; by intros [= <- <- <-].
Qed.

Lemma arm_phase_outside p h b s s' h' b' :
  arm_phase (P := P) (F := F) (V := V) cfg p h b s = (s', h', b') ->
  outbuf s' = outbuf s /\ written s' = written s /\ write_errors s' = write_errors s /\ is_closed s' = is_closed s /\
  exists l, deadlines s' = deadlines s ++ l /\ length l + Nat.b2n h + Nat.b2n b = Nat.b2n h' + Nat.b2n b'.
Proof.
  unfold arm_phase. destruct (p_got_some p), (p_is_header_done p), h, b; intros [= <- <- <-]; simpl;
    split_and!; try done; first [by exists []; rewrite app_nil_r | by eexists [_]].
Qed.

Lemma read_message_outside fuel p h b s p' ec s' :
  read_message (P := P) (F := F) (V := V) cfg fuel p h b s = Some (p', ec, s') ->
  outbuf s' = outbuf s /\ written s' = written s /\ write_errors s' = write_errors s /\ is_closed s' = is_closed s /\
  exists l, deadlines s' = deadlines s ++ l /\ length l + Nat.b2n h + Nat.b2n b <= 2.
Proof.
  assert (forall x y, Nat.b2n x + Nat.b2n y <= 2) as Hbb by (intros [] []; simpl; lia).
  revert p h b s. induction fuel as [|fuel IH]; intros p h b s E; [done|]. cbn [read_message] in E.
  destruct (p_is_done p).
  { simplify_eq. split_and!; try done. exists []. rewrite app_nil_r. split; [done|]. apply Hbb. }
  destruct (put_buffered p s) as [[p1 st] s1] eqn:Ep. apply put_buffered_outside in Ep as (O1 & W1 & E1 & C1 & D1).
  destruct st as [ec1|].
  { simplify_eq. split_and!; try done. exists []. rewrite app_nil_r. split; [done|]. apply Hbb. }
  destruct (arm_phase cfg p1 h b s1) as [[s2 h2] b2] eqn:Ea.
  apply arm_phase_outside in Ea as (O2 & W2 & E2 & C2 & l & D2 & HL). specialize (Hbb h2 b2).
  rewrite D1 in D2. rewrite O1 in O2. rewrite W1 in W2. rewrite E1 in E2. rewrite C1 in C2.
  destruct (reads s2) as [|[data| |code] rest]; [done| | |].
  - apply IH in E as (O3 & W3 & E3 & C3 & l' & D3 & HL'). simpl in *. rewrite O3, W3, E3, C3, D3, D2.
    split_and!; try done. exists (l ++ l'). rewrite app_assoc, length_app. split; [done|lia].
  - simplify_eq. simpl. split_and!; try done. exists l. split; [done|lia].
  - simplify_eq. simpl. split_and!; try done. exists l. split; [done|lia].
Qed.

(** Flushing or not flushing yields the same stream, and the same decision to
    go on when a closing session is always flushed. *)
Lemma flush_same pol1 pol2 (w : W) ka s t :
  (forall s, pol1 false s = true) -> (forall s, pol2 false s = true) -> same_stream s t ->
  match (if pol1 ka s then let '(s, write_ec) := flush s in Ok (w, s, negb (write_ec || negb ka)) else Ok (E := exn) (w, s, true)),
        (if pol2 ka t then let '(s, write_ec) := flush t in Ok (w, s, negb (write_ec || negb ka)) else Ok (E := exn) (w, t, true)) with
  | Ok (w1, s1, c1), Ok (w2, s2, c2) => w1 = w2 /\ c1 = c2 /\ same_stream s1 s2
  | _, _ => False
  end.
Proof.
  intros Hp1 Hp2 [H1 H2 H3 H4 H5 [H6 H7]]. unfold flush. rewrite H6, H7. unfold stream in H5.
  destruct ka; [destruct (pol1 true s), (pol2 true t)|rewrite Hp1, Hp2]; simpl; split_and!; try done;
    split; simpl; try done; unfold stream; simpl; rewrite ?concat_app; simpl; rewrite ?app_nil_r; done.
Qed.

Lemma serialize_append d (r : Response F) out : serialize_response (V := V) d r out = out ++ serialize_response (V := V) d r [].
Proof. by rewrite !serialize_lines. Qed.

Lemma same_stream_graft s t : same_stream s t -> t = graft s t.
Proof. intros [H1 H2 H3 H4 _ _]. destruct s, t. unfold graft; simpl in *. by subst. Qed.

Lemma driver_error_ok ec : match driver_error (F := F) ec with Some r => exists r', r = Ok r' | None => True end.
Proof.
  unfold driver_error. repeat (case_decide; [done || (simpl; by eexists)|]).
  destruct (is_malformed_request ec); [simpl; by eexists|done].
Qed.

(** Two policies that both flush before closing step alike. *)
Lemma serve_step_same pol1 pol2 fuel w s t :
  (forall s, pol1 false s = true) -> (forall s, pol2 false s = true) -> same_stream s t ->
  match serve_step (P := P) (V := V) cfg hooks registry date pol1 fuel w s,
        serve_step (P := P) (V := V) cfg hooks registry date pol2 fuel w t with
  | None, None => True
  | Some (Ok (w1, s1, c1)), Some (Ok (w2, s2, c2)) => w1 = w2 /\ c1 = c2 /\ same_stream s1 s2
  | _, _ => False
  end.
Proof.
  intros Hp1 Hp2 Hst. pose proof (same_stream_graft _ _ Hst) as Hg. unfold serve_step.
  rewrite <- (same_buffer _ _ Hst).
  set (s0 := set_deadline_after s _). set (t0 := set_deadline_after t _).
  assert (t0 = graft s0 t) as -> by (unfold s0, t0; rewrite Hg at 1; done).
  rewrite read_message_graft.
  destruct (read_message cfg fuel _ _ _ s0) as [[[p ec] s1]|] eqn:Er; [|done]. cbn [fmap option_fmap option_map mbind option_bind].
  apply read_message_outside in Er as (O1 & W1 & E1 & C1 & _).
  assert (same_stream s1 (graft s1 t)) as Hst1.
  { destruct Hst as [_ _ _ HC HS [HN1 HN2]]. unfold stream in HS.
    split; simpl; try done; [by rewrite C1|unfold stream; simpl; by rewrite O1, W1|by rewrite E1]. }
  set (t1 := graft s1 t) in *. clearbody t1. clear Hst Hg O1 W1 E1 C1 s0 t. destruct ec as [ec|].
  - pose proof (driver_error_ok ec) as Hd. destruct (driver_error ec) as [r|]; [|done]. destruct Hd as [r' ->].
    simpl. split_and!; try done. destruct Hst1. split; simpl; try done.
    unfold stream in *. simpl. rewrite (serialize_append _ _ (outbuf s1)), (serialize_append _ _ (outbuf t1)).
    rewrite !app_assoc. by f_equal.
  - destruct (dispatch hooks registry _ w) as [w' outcome].
    set (respr := match outcome with Ok r => Ok r | Err _ => _ end).
    assert (exists r, respr = Ok r) as [r ->] by (unfold respr; destruct outcome; simpl; by eexists).
    cbn [mbind result_bind]. set (ka := resp_keep_alive r && _).
    set (txt := with_version _ _). set (s2 := set_outbuf s1 _). set (t2 := set_outbuf t1 _).
    assert (same_stream s2 t2) as Hst2.
    { destruct Hst1. split; simpl; try done. unfold stream in *. simpl.
      rewrite (serialize_append _ _ (outbuf s1)), (serialize_append _ _ (outbuf t1)), !app_assoc. by f_equal. }
    by apply flush_same.
Qed.

Lemma serve_loop_same pol1 pol2 fuel w s t :
  (forall s, pol1 false s = true) -> (forall s, pol2 false s = true) -> same_stream s t ->
  match serve_loop (P := P) (V := V) cfg hooks registry date pol1 fuel w s,
        serve_loop (P := P) (V := V) cfg hooks registry date pol2 fuel w t with
  | None, None => True
  | Some (Ok (w1, s1)), Some (Ok (w2, s2)) => w1 = w2 /\ same_stream s1 s2
  | _, _ => False
  end.
Proof.
  intros Hp1 Hp2. revert w s t. induction fuel as [|fuel IH]; intros w s t Hst; [done|]. cbn [serve_loop].
  pose proof (serve_step_same pol1 pol2 (S fuel) w s t Hp1 Hp2 Hst) as HS.
  destruct (serve_step cfg hooks registry date pol1 _ w s) as [[[[w1 s1] c1]|e1]|],
           (serve_step cfg hooks registry date pol2 _ w t) as [[[[w2 s2] c2]|e2]|]; try done.
  destruct HS as (-> & -> & HS). cbn [mbind option_bind]. destruct c2; [by apply IH|done].
Qed.

(** Leaving the loop: whatever is batched goes out, then the connection closes. *)
Definition finish s : Session := async_close (if bool_decide (outbuf s = []) then s else fst (flush s)).

Lemma finish_stream s : concat (written (finish s)) = stream s /\ outbuf (finish s) = [] /\ is_closed (finish s) = true.
Proof.
  unfold finish, stream. case_bool_decide as Ho; simpl.
  - by rewrite Ho, app_nil_r.
  - by rewrite concat_app, concat_cons, app_nil_r.
Qed.

(** C14. Response batching is invisible on the wire: as long as no write fails, a
    session that flushes lazily sends byte for byte what a server writing every
    response at once would send, makes the same reads, arms the same deadlines
    and leaves the application in the same state; it ends with nothing unsent
    and the connection closed, and it waits for input exactly when the other
    does. *)
Theorem batching_invisible fuel w s :
  write_errors s = [] ->
  match serve (P := P) (V := V) cfg hooks registry date fuel w s,
        serve_unbatched (P := P) (V := V) cfg hooks registry date fuel w s with
  | None, None => True
  | Some (Ok (w1, s1)), Some (Ok (w2, s2)) =>
      w1 = w2 /\ concat (written s1) = concat (written s2) /\ reads s1 = reads s2 /\
      deadlines s1 = deadlines s2 /\ outbuf s1 = [] /\ is_closed s1 = true
  | _, _ => False
  end.
Proof.
  intros Hw. unfold serve, serve_unbatched, serve_with.
  assert (same_stream s s) as Hs by (by split).
  pose proof (serve_loop_same flush_now (fun _ _ => true) fuel w s s (fun _ => eq_refl) (fun _ => eq_refl) Hs) as HL.
  destruct (serve_loop cfg hooks registry date flush_now fuel w s) as [[[w1 s1]|e1]|],
           (serve_loop cfg hooks registry date (fun _ _ => true) fuel w s) as [[[w2 s2]|e2]|]; try done.
  destruct HL as [-> [H1 H2 H3 H4 H5 H6]]. cbn [mbind option_bind result_bind].
  destruct (finish_stream s1) as (F1 & F2 & F3). destruct (finish_stream s2) as (G1 & _). unfold finish in *.
  split_and!; try done; [by rewrite F1, G1| |]; by repeat case_bool_decide.
Qed.

(** ** Deadlines *)

(** What the parser knows of the message when the coroutine parks. *)
Inductive read_phase := AwaitsFirstByte | AwaitsHeader | AwaitsBody.

#[local] Instance read_phase_eq_dec : EqDecision read_phase.
Proof. solve_decision. Defined.

Definition phase_of (p : P) : read_phase :=
  if p_got_some (F := F) (V := V) p then if p_is_header_done (F := F) (V := V) p then AwaitsBody else AwaitsHeader
  else AwaitsFirstByte.

Definition phase_rank (ph : read_phase) : nat := match ph with AwaitsFirstByte => 0 | AwaitsHeader => 1 | AwaitsBody => 2 end.

(** The reads the coroutine parks in while it reads one message: the parser and the
    session at each of them, the last one possibly never answered. *)
Fixpoint parks (fuel : nat) (p : P) (h b : bool) s : list (P * Session) :=
  match fuel with
  | 0 => []
  | S fuel =>
      if p_is_done p then []
      else match put_buffered (P := P) (F := F) (V := V) p s with
           | (_, Some _, _) => []
           | (p1, None, s1) =>
               let '(s2, h2, b2) := arm_phase (P := P) (F := F) (V := V) cfg p1 h b s1 in
               (p1, s2) :: match reads s2 with
                           | ReadBytes data :: rest => parks fuel p1 h2 b2 (set_buffer (set_reads s2 rest) (buffer s2 ++ data))
                           | _ => []
                           end
           end
  end.

(** The deadlines that belong to a series of phases parked in: the header's and then the
    body's, each once, unless armed before. *)
Definition armed (h b : bool) (phases : list read_phase) : list Z :=
  (if negb h && bool_decide (AwaitsHeader ∈ phases) then [header_timeout cfg] else []) ++
  (if negb b && bool_decide (AwaitsBody ∈ phases) then [body_timeout cfg] else []).

Definition phases_of (l : list (P * Session)) : list read_phase := phase_of ∘ fst <$> l.

Lemma put_buffered_phase `{!BeastParserLaws P F V} p s p1 st s1 :
  p_is_done (F := F) (V := V) p = false -> put_buffered (P := P) (F := F) (V := V) p s = (p1, st, s1) ->
  phase_rank (phase_of p) <= phase_rank (phase_of p1).
Proof.
  intros Hd. unfold put_buffered. destruct (0 <? _); [|by intros [= <- <- <-]].
  pose proof (put_got_some p (buffer s)) as H1. pose proof (put_header_done p (buffer s) Hd) as H2.
  destruct (p_put p (buffer s)) as [[p' n] pec]. cbn [fst] in *. intros E.
  assert (p1 = p') as -> by (destruct pec; [case_decide|]; by simplify_eq). unfold phase_of.
  destruct (p_got_some p); [rewrite H1 by done|simpl; lia]. destruct (p_is_header_done p); [by rewrite H2|].
  destruct (p_is_header_done p'); simpl; lia.
Qed.

(** Phases only advance. *)
Lemma parks_advance `{!BeastParserLaws P F V} fuel p h b s x :
  x ∈ parks fuel p h b s -> phase_rank (phase_of p) <= phase_rank (phase_of x.1).
Proof.
  revert p h b s. induction fuel as [|fuel IH]; intros p h b s; cbn [parks]; [by intros ?%elem_of_nil|].
  destruct (p_is_done p) eqn:Hd; [by intros ?%elem_of_nil|]. destruct (put_buffered p s) as [[p1 [ec|]] s1] eqn:Ep; [by intros ?%elem_of_nil|].
  pose proof (put_buffered_phase p s p1 None s1 Hd Ep) as Hr. destruct (arm_phase cfg p1 h b s1) as [[s2 h2] b2].
  intros [->|Hx]%elem_of_cons; [done|]. destruct (reads s2) as [|[data| |code] rest]; try by apply elem_of_nil in Hx.
  apply IH in Hx. lia.
Qed.

(** Arming follows the phase. *)
Lemma arm_phase_spec p h b s :
  arm_phase (P := P) (F := F) (V := V) cfg p h b s =
  ({| buffer := buffer s; outbuf := outbuf s; written := written s; reads := reads s; write_errors := write_errors s;
      deadlines := deadlines s ++ armed h b [phase_of p]; is_closed := is_closed s |},
   h || bool_decide (phase_of p = AwaitsHeader), b || bool_decide (phase_of p = AwaitsBody)).
Proof.
  unfold arm_phase, armed, phase_of. destruct s. destruct (p_got_some p), (p_is_header_done p), h, b; cbn;
    unfold set_deadline_after; cbn; by rewrite ?app_nil_r.
Qed.

Lemma armed_cons h b ph phs :
  (ph = AwaitsBody -> AwaitsHeader ∉ phs) ->
  armed h b (ph :: phs) = armed h b [ph] ++ armed (h || bool_decide (ph = AwaitsHeader)) (b || bool_decide (ph = AwaitsBody)) phs.
Proof.
  intros Hb. unfold armed. destruct ph.
  - rewrite !orb_false_r. assert (E1 : AwaitsHeader ∈ AwaitsFirstByte :: phs <-> AwaitsHeader ∈ phs) by set_solver.
    assert (E2 : AwaitsBody ∈ AwaitsFirstByte :: phs <-> AwaitsBody ∈ phs) by set_solver.
    rewrite (bool_decide_ext _ _ E1), (bool_decide_ext _ _ E2).
    by rewrite !(bool_decide_false (_ ∈ [AwaitsFirstByte])), !andb_false_r by set_solver.
  - rewrite orb_true_r, orb_false_r. rewrite !(bool_decide_true (AwaitsHeader ∈ _)) by set_solver.
    assert (E : (AwaitsBody ∈ AwaitsHeader :: phs) <-> AwaitsBody ∈ phs) by set_solver.
    rewrite (bool_decide_ext _ _ E), (bool_decide_false (AwaitsBody ∈ [AwaitsHeader])), !andb_false_r by set_solver.
    by destruct h; simpl; rewrite ?app_nil_r.
  - specialize (Hb eq_refl). rewrite orb_false_r, orb_true_r. rewrite !(bool_decide_true (AwaitsBody ∈ _)) by set_solver.
    rewrite !(bool_decide_false (AwaitsHeader ∈ _)), !andb_false_r by set_solver. by rewrite app_nil_r.
Qed.

(** The last deadline armed is that of the furthest phase. *)
Lemma armed_last h phs ph :
  ph ∈ phs -> Forall (fun q => phase_rank q <= phase_rank ph) phs ->
  last (armed h false phs) =
    match ph with AwaitsFirstByte => None | AwaitsHeader => if h then None else Some (header_timeout cfg) | AwaitsBody => Some (body_timeout cfg) end.
Proof.
  intros Hin HF. rewrite Forall_forall in HF. unfold armed. destruct ph.
  - rewrite (bool_decide_false (AwaitsHeader ∈ phs)), (bool_decide_false (AwaitsBody ∈ phs)), !andb_false_r; [done|..];
      intros Hx%HF; simpl in Hx; lia.
  - rewrite (bool_decide_true (AwaitsHeader ∈ phs)), (bool_decide_false (AwaitsBody ∈ phs)); [by destruct h| |done].
    intros Hx%HF; simpl in Hx; lia.
  - rewrite (bool_decide_true (AwaitsBody ∈ phs)) by done. cbn [negb andb]. by rewrite last_snoc.
Qed.

(** The deadlines armed up to each park. *)
Lemma parks_deadlines `{!BeastParserLaws P F V} fuel p h b s i p' s' :
  parks fuel p h b s !! i = Some (p', s') ->
  deadlines s' = deadlines s ++ armed h b (take (S i) (phases_of (parks fuel p h b s))) /\
  outbuf s' = outbuf s /\ Forall (fun ph => phase_rank ph <= phase_rank (phase_of p')) (take (S i) (phases_of (parks fuel p h b s))).
Proof.
  revert p h b s i. induction fuel as [|fuel IH]; intros p h b s i; cbn [parks]; [done|].
  destruct (p_is_done p) eqn:Hd; [done|]. destruct (put_buffered p s) as [[p1 [ec|]] s1] eqn:Ep; [done|].
  pose proof (put_buffered_outside p s _ _ _ Ep) as (O1 & _ & _ & _ & D1). rewrite arm_phase_spec.
  set (h2 := h || _). set (b2 := b || _). set (s2 := {| buffer := buffer s1 |}).
  set (rest := match reads s2 with ReadBytes data :: rest => _ | _ => _ end). unfold phases_of. cbn [fmap list_fmap fst compose].
  assert (HF : Forall (fun ph => phase_rank (phase_of p1) <= phase_rank ph) (phases_of rest)).
  { unfold phases_of. rewrite Forall_fmap, Forall_forall. intros x Hx. cbn. unfold rest in Hx.
    destruct (reads s2) as [|[data| |code] r]; try by apply elem_of_nil in Hx. by eapply parks_advance. }
  assert (HB : forall n, phase_of p1 = AwaitsBody -> AwaitsHeader ∉ take n (phases_of rest)).
  { intros n E Hin. apply elem_of_take in Hin as (j & Hj & _). rewrite Forall_lookup in HF. specialize (HF j _ Hj).
    rewrite E in HF. simpl in HF. lia. }
  destruct i as [|i]; cbn [lookup list_lookup].
  - intros [= <- <-]. cbn [take]. rewrite take_0. unfold s2. cbn [deadlines outbuf]. rewrite D1.
    split_and!; [done|done|by repeat constructor].
  - intros Hi. cbn [take]. change (phase_of ∘ fst <$> rest) with (phases_of rest). change (phase_of (p1, s2).1) with (phase_of p1).
    rewrite armed_cons by (intros ?; by apply HB). unfold rest in Hi |- *.
    destruct (reads s2) as [|[data| |code] r]; try done.
    pose proof (parks_advance fuel p1 h2 b2 _ _ (list_elem_of_lookup_2 _ _ _ Hi)) as Ha. apply IH in Hi as (-> & O2 & HR). split_and!.
    + unfold s2. cbn [deadlines set_buffer set_reads]. by rewrite D1, app_assoc.
    + by rewrite O2.
    + by constructor.
Qed.

(** A message that comes to an end has parked where [parks] says; one that does not waits in
    its last park, when the fuel exceeds the number of reads. *)
Lemma read_message_parks fuel p h b s :
  length (reads s) < fuel ->
  match read_message (P := P) (F := F) (V := V) cfg fuel p h b s with
  | Some (_, _, s') => deadlines s' = default (deadlines s) (deadlines ∘ snd <$> last (parks fuel p h b s))
  | None => exists p' s', last (parks fuel p h b s) = Some (p', s') /\ reads s' = []
  end.
Proof.
  revert p h b s. induction fuel as [|fuel IH]; intros p h b s Hf; [lia|]. cbn [read_message parks].
  destruct (p_is_done p); [done|]. destruct (put_buffered p s) as [[p1 [ec|]] s1] eqn:Ep.
  { by apply put_buffered_outside in Ep as (_ & _ & _ & _ & ->). }
  assert (Hr : reads s1 = reads s).
  { unfold put_buffered in Ep. destruct (0 <? _); [|by simplify_eq]. destruct (p_put p (buffer s)) as [[p2 n] [e|]]; [case_decide|]; by simplify_eq. }
  rewrite arm_phase_spec. set (h2 := h || _). set (b2 := b || _). set (s2 := {| buffer := buffer s1 |}).
  assert (Hr2 : reads s2 = reads s) by (unfold s2; cbn; congruence). rewrite Hr2.
  destruct (reads s) as [|[data| |code] rest]; [by eexists _, _| |done|done].
  specialize (IH p1 h2 b2 (set_buffer (set_reads s2 rest) (buffer s2 ++ data)) ltac:(cbn in *; lia)).
  set (s3 := set_buffer _ _) in *. destruct (parks fuel p1 h2 b2 s3) as [|x l] eqn:Ex.
  2: { rewrite last_cons_cons. destruct (last (x :: l)) eqn:El; [exact IH|by apply last_None in El]. }
  destruct (read_message cfg fuel p1 h2 b2 s3) as [[[? ?] s']|]; [exact IH|]. by destruct IH as (? & ? & ? & _).
Qed.

Lemma serve_step_deadlines policy fuel w s :
  let h := 0 <? length (buffer s) in
  let s0 := set_deadline_after s (if h then header_timeout cfg else idle_timeout cfg) in
  let m := read_message (P := P) (F := F) (V := V) cfg fuel (p_new (max_header_bytes cfg `mod` 2 ^ 32)%N (max_body_bytes cfg)) h false s0 in
  match serve_step (P := P) (V := V) cfg hooks registry date policy fuel w s with
  | None => m = None
  | Some (Ok (_, s', _)) => exists p ec s1, m = Some (p, ec, s1) /\ deadlines s' = deadlines s1
  | Some (Err _) => False
  end.
Proof.
  cbv zeta. unfold serve_step.
  destruct (read_message cfg fuel _ _ false _) as [[[p ec] s1]|]; [|done]. cbn [mbind option_bind]. destruct ec as [ec|].
  - pose proof (driver_error_ok ec) as Hd. destruct (driver_error ec) as [r|]; [|by eexists _, _, _].
    destruct Hd as [r' ->]. by eexists _, _, _.
  - destruct (dispatch hooks registry _ w) as [w1 outcome].
    destruct outcome; cbn [mbind result_bind]; simpl; destruct (policy _ _); by eexists _, _, _.
Qed.

(** C37. The deadline in force whenever the connection waits for bytes of a message is the one of
    the phase the message is in, armed once when the phase is first waited in and never moved,
    however slowly the bytes come: before the first byte the idle timeout (the header timeout
    when bytes of the message were already buffered), then the header timeout until the header
    is complete, then the body timeout. A message that has parked in certain phases has
    armed, after its initial deadline, exactly the deadlines of those phases, in that
    order, so one that never parks midway arms one only. This holds at every wait, also of
    a message that never completes; one that does keeps the last deadline for dispatch
    and write. The only way for the loop not to come to an end is the last wait, for
    bytes that do not come. *)
Theorem deadlines_per_message `{!BeastParserLaws P F V} policy fuel w s :
  length (reads s) < fuel ->
  let buffered := 0 <? length (buffer s) in
  let initial := if buffered then header_timeout cfg else idle_timeout cfg in
  let waits := parks fuel (p_new (max_header_bytes cfg `mod` 2 ^ 32)%N (max_body_bytes cfg)) buffered false (set_deadline_after s initial) in
  (forall i p' s', waits !! i = Some (p', s') ->
     deadlines s' = deadlines s ++ initial :: armed buffered false (take (S i) (phases_of waits)) /\
     last (deadlines s') =
       Some match phase_of p' with AwaitsFirstByte => initial | AwaitsHeader => header_timeout cfg | AwaitsBody => body_timeout cfg end) /\
  match serve_step (P := P) (V := V) cfg hooks registry date policy fuel w s with
  | Some (Ok (_, s', _)) => deadlines s' = deadlines s ++ initial :: armed buffered false (phases_of waits)
  | Some (Err _) => False
  | None => exists p' s', last waits = Some (p', s') /\ reads s' = []
  end.
Proof.
  intros Hf buffered initial waits. set (s0 := set_deadline_after s initial) in *.
  assert (HD : forall i p' s', waits !! i = Some (p', s') ->
    deadlines s' = deadlines s ++ initial :: armed buffered false (take (S i) (phases_of waits))).
  { intros i p' s' Hi. destruct (parks_deadlines fuel _ buffered false s0 i p' s' Hi) as (-> & _). unfold s0. cbn. by rewrite <- app_assoc. }
  split.
  - intros i p' s' Hi. split; [by apply (HD i p' s')|]. rewrite (HD i p' s' Hi). rewrite last_app, last_cons.
    destruct (parks_deadlines fuel _ buffered false s0 i p' s' Hi) as (_ & _ & HF). fold waits in HF.
    assert (Hin : phase_of p' ∈ take (S i) (phases_of waits)).
    { apply list_elem_of_lookup. exists i. rewrite lookup_take_lt by lia. unfold phases_of. by rewrite list_lookup_fmap, Hi. }
    set (phs := take (S i) (phases_of waits)) in *. clearbody phs. rewrite (armed_last buffered phs (phase_of p') Hin HF).
    unfold initial. by destruct (phase_of p'), buffered.
  - pose proof (serve_step_deadlines policy fuel w s) as HS. cbv zeta in HS. fold buffered initial s0 in HS.
    pose proof (read_message_parks fuel (p_new (max_header_bytes cfg `mod` 2 ^ 32)%N (max_body_bytes cfg)) buffered false s0 Hf) as HR. fold waits in HR.
    destruct (serve_step cfg hooks registry date policy fuel w s) as [[[[w' s'] c]|e]|]; [|done|by rewrite HS in HR].
    destruct HS as (p & ec & s1 & Em & ->). rewrite Em in HR. rewrite HR. destruct (last waits) as [[p' s2]|] eqn:El; cbn.
    + rewrite last_lookup in El. rewrite (HD _ p' s2 El). rewrite take_ge; [done|]. unfold phases_of. rewrite length_fmap. lia.
    + apply last_None in El. rewrite El. change (phases_of []) with (@nil read_phase). unfold armed. by rewrite !(bool_decide_false (_ ∈ [])), !andb_false_r by apply not_elem_of_nil.
Qed.

(** A handler that lets an exception escape is answered with 500 on a
    closing connection, and the response is on its way before the loop ends. *)
Theorem handler_exception_closes fuel w s p s1 w' e :
  read_message (P := P) (F := F) (V := V) cfg fuel (p_new (max_header_bytes cfg `mod` 2 ^ 32)%N (max_body_bytes cfg))
    (0 <? length (buffer s)) false
    (set_deadline_after s (if 0 <? length (buffer s) then header_timeout cfg else idle_timeout cfg)) = Some (p, None, s1) ->
  dispatch hooks registry (build_request_context (p_get p)) w = (w', Err e) ->
  exists r s', serve_step (P := P) (V := V) cfg hooks registry date flush_now fuel w s = Some (Ok (w', s', false)) /\
    resp_status r = HttpStatus.internal_server_error /\ resp_keep_alive r = false /\
    outbuf s' = [] /\ concat (written s') = stream s ++ serialize_response (V := V) (date w') r [].
Proof.
  intros Er Ed. unfold serve_step. rewrite Er. cbn [mbind option_bind]. rewrite Ed.
  apply read_message_outside in Er as (O1 & W1 & _). simpl in O1, W1.
  assert (exists r0 : Response F, rf_internal_error (B "Internal Server Error") = Ok r0 /\
            resp_status r0 = HttpStatus.internal_server_error) as (r0 & -> & Hs0) by (eexists; split; reflexivity).
  unfold flush_now, flush. cbn [mbind result_bind].
  change (resp_keep_alive (with_keep_alive r0 false)) with false. cbn [andb negb orb].
  rewrite orb_true_r. cbn [negb]. exists (with_version (with_keep_alive (with_keep_alive r0 false) false) HttpVersion.http_1_1).
  eexists. split_and!; [reflexivity|exact Hs0|reflexivity|reflexivity|].
  unfold stream. simpl. by rewrite serialize_append, concat_app, W1, O1, concat_cons, app_nil_r, app_assoc.
Qed.
End session.

(** ** Witnesses: a line-based parser over the sample controller *)
#[global] Instance sample_http : BeastHttp nat := {
  obsolete_reason _ := B "Reason"; iequals := does_equal;
  v_get := 1; v_post := 2; v_put := 3; v_patch := 4; v_delete := 5; v_head := 6; v_options := 7;
}.

#[global] Instance sample_http_laws : BeastHttpLaws nat.
Proof. by split. Qed.

(** A request is one line: its target. *)
Record LineParser := { lp_text : bytes; lp_done : bool }.

#[global] Instance line_parser : BeastParser LineParser plain nat := {
  p_new _ _ := {| lp_text := []; lp_done := false |};
  p_is_done := lp_done;
  p_got_some p := negb (bool_decide (lp_text p = []));
  p_is_header_done := lp_done;
  p_put p data :=
    match find_index "010" data with
    | Some i => ({| lp_text := lp_text p ++ take i data; lp_done := true |}, S i, None)
    | None => ({| lp_text := lp_text p ++ data; lp_done := false |}, length data, Some need_more)
    end;
  p_get p := {| br_fields := []; br_method := 1; br_version := 11; br_target := lp_text p; br_body := [];
                br_keep_alive := true |};
}.

Definition ping_line : bytes := B "/api/ping" ++ newline.

(** Two pipelined requests, the second arriving in two pieces, then a clean close. *)
Definition ping_session : Session := session [ReadBytes (ping_line ++ B "/api"); ReadBytes (B "/ping" ++ newline); ReadEof] [].

Definition sample_date (w : nat) : bytes := B "today".

Definition served : option (result exn (nat * Session)) :=
  serve (P := LineParser) (V := nat) http11_config_default no_hooks sample_baked sample_date 10 0 ping_session.

Lemma serialize_framing_witness :
  exists i, find_sub_index (crlf ++ crlf)
              (serialize_response (F := plain) (V := nat) (B "today") (response_with_body response (B "hi")) [] ++ B "next") = Some i.
Proof.
  edestruct (serialize_framing (F := plain) (V := nat) (B "today") (response_with_body response (B "hi")) (B "next")) as (i & Hi & _).
  - repeat (apply Forall_cons_2; [split; [discriminate|apply (bool_decide_unpack _); vm_compute; exact I]|]). apply Forall_nil_2.
  - exists i. exact Hi.
Defined.

Lemma content_length_repeated_witness : exists l1 l2 l3,
  head_lines (F := plain) (V := nat) (B "today") (with_headers response (OwnedBacking [(B "Content-Length", B "9")])) =
  l1 ++ [B "Content-Length: 9"] ++ l2 ++ [B "Content-Length: 0"] ++ l3.
Proof.
  apply (content_length_repeated (F := plain) (V := nat) (B "today")
           (with_headers response (OwnedBacking [(B "Content-Length", B "9")])) (B "9")).
  by left.
Defined.

Example served_in_one_batch :
  match served with Some (Ok (w, s)) => w = 22 /\ outbuf s = [] /\ length (written s) = 1 | _ => False end.
Proof. vm_compute. split_and!; reflexivity. Qed.

Lemma batching_invisible_witness : exists w s, served = Some (Ok (w, s)) /\ outbuf s = [] /\ is_closed s = true.
Proof.
  pose proof (batching_invisible (P := LineParser) (V := nat) http11_config_default no_hooks sample_baked sample_date 10 0
                ping_session eq_refl) as HB.
  fold served in HB. destruct served as [[[w s]|e]|] eqn:Es; [|by vm_compute in Es|by vm_compute in Es].
  destruct (serve_unbatched _ _ _ _ _ _ _) as [[[w2 s2]|e2]|]; [|done|done].
  exists w, s. split; [done|]. apply HB.
Defined.

(** Messages of a header line and three bytes of body; the state is what was read. *)
Definition body_part (t : bytes) : bytes := match find_index "010" t with Some i => drop (S i) t | None => [] end.
Definition framed_done (t : bytes) : bool := 3 <=? length (body_part t).

Fixpoint feed (t data : bytes) (n : nat) : bytes * nat * option beast_error :=
  match data with
  | [] => (t, n, Some need_more)
  | c :: rest => if framed_done (t ++ [c]) then (t ++ [c], S n, None) else feed (t ++ [c]) rest (S n)
  end.

Definition framed_parser : BeastParser bytes plain nat := {|
  p_new _ _ := [];
  p_is_done := framed_done;
  p_got_some t := negb (bool_decide (t = []));
  p_is_header_done t := contains_char "010" t;
  p_put t data := feed t data 0;
  p_get t := {| br_fields := []; br_method := 1; br_version := 11; br_target := t; br_body := body_part t; br_keep_alive := true |};
|}.

Lemma feed_extends t data n : exists u, (feed t data n).1.1 = t ++ u.
Proof.
  revert t n. induction data as [|c data IH]; intros t n; cbn [feed]; [exists []; by rewrite app_nil_r|].
  destruct (framed_done _); [by eexists|]. destruct (IH (t ++ [c]) (S n)) as [u ->]. exists (c :: u). by rewrite <- app_assoc.
Qed.

Lemma framed_parser_laws : BeastParserLaws (H := framed_parser) bytes plain nat.
Proof.
  split; cbn.
  - intros t data. destruct (feed_extends t data 0) as [u ->]. rewrite !negb_true_iff, !bool_decide_eq_false. by destruct t.
  - intros t data _. destruct (feed_extends t data 0) as [u ->]. unfold contains_char. rewrite !bool_decide_eq_true. set_solver.
Qed.

(** A trickler: half a header line, its end, then one byte of the body, and silence. *)
Definition trickle : Session := session [ReadBytes (B "/a"); ReadBytes (B "pi" ++ newline); ReadBytes (B "x")] [].

Lemma deadlines_per_message_witness : exists p' s',
  last (parks (BeastParser0 := framed_parser) http11_config_default 10 [] false false
          (set_deadline_after trickle 60000)) = Some (p', s') /\
  deadlines s' = [60000; 10000; 30000]%Z /\
  serve_step (BeastParser0 := framed_parser) (V := nat) http11_config_default no_hooks sample_baked sample_date flush_now 10 0 trickle = None.
Proof.
  destruct (deadlines_per_message (BeastParser0 := framed_parser) (BeastParserLaws0 := framed_parser_laws) (V := nat) http11_config_default
    no_hooks sample_baked sample_date flush_now 10 0 trickle) as [H1 H2]; [vm_compute; lia|].
  assert (HN : serve_step (BeastParser0 := framed_parser) (V := nat) http11_config_default no_hooks sample_baked sample_date flush_now 10 0
    trickle = None) by (vm_compute; reflexivity).
  rewrite HN in H2. destruct H2 as (p' & s' & Hl & _). exists p', s'. split; [exact Hl|]. split; [|exact HN].
  rewrite last_lookup in Hl. destruct (H1 _ p' s' Hl) as [HD _]. rewrite HD. vm_compute. reflexivity.
Defined.

(** A registry whose handler throws. *)
Definition throwing : RouteRegistry (ContextHandler plain nat) :=
  {| frozen := true; norm := PathNormalization.none;
     exact := {[ B "/api/ping" := <[1 := Some (fun _ w => (w, Err (UserException 3)))]> no_slots ]};
     parametric := []; conflicts := [] |}.

Lemma handler_exception_closes_witness : exists r s',
  serve_step (P := LineParser) (V := nat) http11_config_default no_hooks throwing sample_date flush_now 10 0 ping_session =
    Some (Ok (0, s', false)) /\ resp_status r = HttpStatus.internal_server_error /\ outbuf (s' : Session) = [] /\
  resp_keep_alive (r : Response plain) = false.
Proof.
  edestruct (handler_exception_closes (P := LineParser) (V := nat) http11_config_default no_hooks throwing sample_date 10 0
               ping_session) as (r & s' & H1 & H2 & H3 & H4 & _); [reflexivity|reflexivity|].
  exists r, s'. auto.
Defined.
