(* ===== verification/Config.v ===== *)
(** * Server configuration ([config/*]) and its mapping to listeners
      ([server/attach_default_listeners])

    The configuration records with their validation, fluent builders and string
    codecs, and the table that turns listener configurations into listeners with
    their protocol drivers.  Durations are integers of milliseconds.  jsoncpp's
    object type is a parameter ([JsonObject]). *)

From S2P Require Import Prelude Url Headers HttpTypes Routing RequestContext Router Http11.

(** [throw std::invalid_argument(...)] or nothing. *)
Abbreviation check := (result exn unit).

(** ** Timeouts *)
Record Timeouts := { timeouts_header : Z; timeouts_body : Z; timeouts_idle : Z }.

(** The private default constructor's member initializers. *)
Definition timeouts_default : Timeouts := {| timeouts_header := 10000; timeouts_body := 30000; timeouts_idle := 60000 |}.

Definition timeouts_validate (t : Timeouts) : check :=
  if (timeouts_header t <=? 0)%Z then Err (InvalidArgument (B "timeouts.header_ms must be positive"))
  else if (timeouts_body t <=? 0)%Z then Err (InvalidArgument (B "timeouts.body_ms must be positive"))
  else if (timeouts_idle t <=? 0)%Z then Err (InvalidArgument (B "timeouts.idle_ms must be positive"))
  else Ok tt.

Definition timeouts_set_header (t : Timeouts) (v : Z) : Timeouts :=
  {| timeouts_header := v; timeouts_body := timeouts_body t; timeouts_idle := timeouts_idle t |}.
Definition timeouts_set_body (t : Timeouts) (v : Z) : Timeouts :=
  {| timeouts_header := timeouts_header t; timeouts_body := v; timeouts_idle := timeouts_idle t |}.
Definition timeouts_set_idle (t : Timeouts) (v : Z) : Timeouts :=
  {| timeouts_header := timeouts_header t; timeouts_body := timeouts_body t; timeouts_idle := v |}.

Definition timeouts_finalize (t : Timeouts) : result exn Timeouts := _ ← timeouts_validate t; Ok t.

(** ** TLS *)
Module MinVersion.
Inductive t := tls12 | tls13.
#[global] Instance eq_dec : EqDecision t.
Proof. solve_decision. Defined.
Definition to_string_view (v : t) : bytes := match v with tls13 => B "tls13" | tls12 => B "tls12" end.
End MinVersion.

Record TlsConfig := {
  cert_file : bytes;
  key_file : bytes;
  key_passphrase : bytes;
  dh_params_file : bytes;
  ca_file : bytes;
  min_version : MinVersion.t;
  session_cache : bool;
  require_client_cert : bool;
}.

Definition tls_default : TlsConfig :=
  {| cert_file := []; key_file := []; key_passphrase := []; dh_params_file := []; ca_file := [];
     min_version := MinVersion.tls12; session_cache := true; require_client_cert := false |}.

Definition tls_validate (t : TlsConfig) : check :=
  if bool_decide (cert_file t = []) then Err (InvalidArgument (B "tls.cert_file must be set"))
  else if bool_decide (key_file t = []) then Err (InvalidArgument (B "tls.key_file must be set"))
  else if require_client_cert t && bool_decide (ca_file t = []) then
    Err (InvalidArgument (B "tls.ca_file must be set when tls.require_client_cert is true"))
  else Ok tt.

Definition tls_finalize (t : TlsConfig) : result exn TlsConfig := _ ← tls_validate t; Ok t.

(** ** Listeners *)
Module Protocol.
Inductive t := http1 | http2 | http3.
#[global] Instance eq_dec : EqDecision t.
Proof. solve_decision. Defined.
Definition to_string_view (p : t) : bytes :=
  match p with http1 => B "http1" | http2 => B "http2" | http3 => B "http3" end.
End Protocol.

Module Transport.
Inductive t := tcp | tls | quic.
#[global] Instance eq_dec : EqDecision t.
Proof. solve_decision. Defined.
Definition to_string_view (x : t) : bytes := match x with tcp => B "tcp" | tls => B "tls" | quic => B "quic" end.
End Transport.

Record ListenerConfig := {
  bind_address : bytes;
  port : N;
  transport : Transport.t;
  protocols : list Protocol.t;
  listener_tls : option TlsConfig;
}.

Definition listener_default : ListenerConfig :=
  {| bind_address := B "0.0.0.0"; port := 8080; transport := Transport.tcp; protocols := []; listener_tls := None |}.

(** The two nested index loops: some [i < j] with equal entries. *)
Fixpoint has_duplicate (ps : list Protocol.t) : bool :=
  match ps with
  | [] => false
  | p :: ps => existsb (fun q => bool_decide (p = q)) ps || has_duplicate ps
  end.

Definition listener_validate (l : ListenerConfig) : check :=
  if bool_decide (bind_address l = []) then Err (InvalidArgument (B "listener.bind must not be empty"))
  else if has_duplicate (protocols l) then Err (InvalidArgument (B "listener.protocols must not contain duplicates"))
  else
    let has_h3 := existsb (fun p => bool_decide (p = Protocol.http3)) (protocols l) in
    _ ← (if decide (transport l = Transport.quic) then
           if negb (bool_decide (protocols l = [])) && (negb (length (protocols l) =? 1) || negb has_h3)
           then Err (InvalidArgument (B "listener.protocols: quic transport carries exactly [" ++ quoted "http3" ++ B "]"))
           else Ok tt
         else if has_h3 then Err (InvalidArgument (B "listener.protocols: http3 requires the quic transport"))
         else Ok tt);
    if decide (transport l = Transport.tcp) then
      match listener_tls l with
      | Some _ => Err (InvalidArgument (B "listener.tls: only valid for tls/quic transports"))
      | None => Ok tt
      end
    else
      match listener_tls l with
      | None => Err (InvalidArgument (B "listener.tls: required for tls/quic transports"))
      | Some tls => tls_validate tls
      end.

Definition effective_protocols (l : ListenerConfig) : list Protocol.t :=
  if bool_decide (protocols l = []) then
    [if decide (transport l = Transport.quic) then Protocol.http3 else Protocol.http1]
  else protocols l.

Definition listener_set_bind_address (l : ListenerConfig) (v : bytes) : ListenerConfig :=
  {| bind_address := v; port := port l; transport := transport l; protocols := protocols l; listener_tls := listener_tls l |}.
Definition listener_set_port (l : ListenerConfig) (v : N) : ListenerConfig :=
  {| bind_address := bind_address l; port := v; transport := transport l; protocols := protocols l; listener_tls := listener_tls l |}.
Definition listener_set_transport (l : ListenerConfig) (v : Transport.t) : ListenerConfig :=
  {| bind_address := bind_address l; port := port l; transport := v; protocols := protocols l; listener_tls := listener_tls l |}.
Definition listener_set_protocols (l : ListenerConfig) (v : list Protocol.t) : ListenerConfig :=
  {| bind_address := bind_address l; port := port l; transport := transport l; protocols := v; listener_tls := listener_tls l |}.
Definition listener_set_tls (l : ListenerConfig) (v : TlsConfig) : ListenerConfig :=
  {| bind_address := bind_address l; port := port l; transport := transport l; protocols := protocols l; listener_tls := Some v |}.

Definition listener_finalize (l : ListenerConfig) : result exn ListenerConfig := _ ← listener_validate l; Ok l.

(** ** The server *)
Module ConfigNormalization.
Inductive t := none | collapse_trailing_slash | collapse_multi_slash.
#[global] Instance eq_dec : EqDecision t.
Proof. solve_decision. Defined.
Definition to_string_view (p : t) : bytes :=
  match p with
  | none => B "none"
  | collapse_multi_slash => B "collapse_multi_slash"
  | collapse_trailing_slash => B "collapse_trailing_slash"
  end.
End ConfigNormalization.

Record ServerConfig := {
  cfg_listeners : list ListenerConfig;
  threads : N;
  timeouts : Timeouts;
  body_limit : N;
  request_arena_size : N;
  drain_timeout : Z;
  path_normalization : ConfigNormalization.t;
}.

Definition server_config_default : ServerConfig :=
  {| cfg_listeners := []; threads := 1; timeouts := timeouts_default; body_limit := 16 * 1024 * 1024;
     request_arena_size := 8192; drain_timeout := 30000;
     path_normalization := ConfigNormalization.collapse_trailing_slash |}.

Fixpoint validate_listeners (ls : list ListenerConfig) : check :=
  match ls with
  | [] => Ok tt
  | l :: ls => _ ← listener_validate l; validate_listeners ls
  end.

Definition server_validate (c : ServerConfig) : check :=
  if (threads c =? 0)%N then Err (InvalidArgument (B "server.threads must be >= 1"))
  else if (body_limit c =? 0)%N then Err (InvalidArgument (B "server.body_limit must be positive"))
  else if (request_arena_size c =? 0)%N then Err (InvalidArgument (B "server.request_arena_size must be positive"))
  else if (drain_timeout c <? 0)%Z then Err (InvalidArgument (B "server.drain_timeout_ms must be non-negative"))
  else _ ← timeouts_validate (timeouts c); validate_listeners (cfg_listeners c).

Definition server_add_listener (c : ServerConfig) (l : ListenerConfig) : ServerConfig :=
  {| cfg_listeners := cfg_listeners c ++ [l]; threads := threads c; timeouts := timeouts c; body_limit := body_limit c;
     request_arena_size := request_arena_size c; drain_timeout := drain_timeout c;
     path_normalization := path_normalization c |}.
Definition server_set_threads (c : ServerConfig) (v : N) : ServerConfig :=
  {| cfg_listeners := cfg_listeners c; threads := v; timeouts := timeouts c; body_limit := body_limit c;
     request_arena_size := request_arena_size c; drain_timeout := drain_timeout c;
     path_normalization := path_normalization c |}.
Definition server_set_timeouts (c : ServerConfig) (v : Timeouts) : ServerConfig :=
  {| cfg_listeners := cfg_listeners c; threads := threads c; timeouts := v; body_limit := body_limit c;
     request_arena_size := request_arena_size c; drain_timeout := drain_timeout c;
     path_normalization := path_normalization c |}.
Definition server_set_body_limit (c : ServerConfig) (v : N) : ServerConfig :=
  {| cfg_listeners := cfg_listeners c; threads := threads c; timeouts := timeouts c; body_limit := v;
     request_arena_size := request_arena_size c; drain_timeout := drain_timeout c;
     path_normalization := path_normalization c |}.

Definition server_finalize (c : ServerConfig) : result exn ServerConfig := _ ← server_validate c; Ok c.

(** [Server::map_normalization] *)
Definition map_normalization (n : ConfigNormalization.t) : PathNormalization.t :=
  match n with
  | ConfigNormalization.none => PathNormalization.none
  | ConfigNormalization.collapse_multi_slash => PathNormalization.collapse_multi_slash
  | ConfigNormalization.collapse_trailing_slash => PathNormalization.collapse_trailing_slash
  end.

(** ** String codecs over a JSON object *)
Class JsonObject (J : Type) := {
  json_member : J -> bytes -> bool;
  json_as_string : J -> bytes -> result exn bytes;      (* [in[k].asString()] *)
  json_set_string : J -> bytes -> bytes -> J;           (* [out[k] = std::string{...}] *)
}.

Class JsonObjectLaws (J : Type) `{JsonObject J} := {
  json_member_set o k v : json_member (json_set_string o k v) k = true;
  json_string_set o k v : json_as_string (json_set_string o k v) k = Ok v;
}.

Section codecs.
  Context {J : Type} `{JsonObject J}.

Definition write_protocol (out : J) (key : bytes) (v : Protocol.t) : J := json_set_string out key (Protocol.to_string_view v).
Definition write_transport (out : J) (key : bytes) (v : Transport.t) : J := json_set_string out key (Transport.to_string_view v).
Definition write_min_version (out : J) (key : bytes) (v : MinVersion.t) : J := json_set_string out key (MinVersion.to_string_view v).
Definition write_normalization (out : J) (key : bytes) (v : ConfigNormalization.t) : J :=
  json_set_string out key (ConfigNormalization.to_string_view v).

Definition unknown_value (k kind raw expected : bytes) : exn :=
  InvalidArgument (B "config field '" ++ k ++ B "': unknown " ++ kind ++ B " '" ++ raw ++ B "' (expected " ++ expected ++ B ")").

(** [read_field]: whether the field was present, and its new value. *)
Definition read_protocol (inp : J) (k : bytes) (v : Protocol.t) : result exn (bool * Protocol.t) :=
  if negb (json_member inp k) then Ok (false, v)
  else
    raw ← json_as_string inp k;
    if bool_decide (raw = B "http1") then Ok (true, Protocol.http1)
    else if bool_decide (raw = B "http2") then Ok (true, Protocol.http2)
    else if bool_decide (raw = B "http3") then Ok (true, Protocol.http3)
    else Err (unknown_value k (B "protocol") raw (quoted "http1" ++ B "|" ++ quoted "http2" ++ B "|" ++ quoted "http3")).

Definition read_transport (inp : J) (k : bytes) (v : Transport.t) : result exn (bool * Transport.t) :=
  if negb (json_member inp k) then Ok (false, v)
  else
    raw ← json_as_string inp k;
    if bool_decide (raw = B "tcp") then Ok (true, Transport.tcp)
    else if bool_decide (raw = B "tls") then Ok (true, Transport.tls)
    else if bool_decide (raw = B "quic") then Ok (true, Transport.quic)
    else Err (unknown_value k (B "transport") raw (quoted "tcp" ++ B "|" ++ quoted "tls" ++ B "|" ++ quoted "quic")).

Definition read_min_version (inp : J) (k : bytes) (v : MinVersion.t) : result exn (bool * MinVersion.t) :=
  if negb (json_member inp k) then Ok (false, v)
  else
    raw ← json_as_string inp k;
    if bool_decide (raw = B "tls12") then Ok (true, MinVersion.tls12)
    else if bool_decide (raw = B "tls13") then Ok (true, MinVersion.tls13)
    else Err (unknown_value k (B "min_version") raw (quoted "tls12" ++ B " or " ++ quoted "tls13")).

Definition read_normalization (inp : J) (k : bytes) (v : ConfigNormalization.t) : result exn (bool * ConfigNormalization.t) :=
  if negb (json_member inp k) then Ok (false, v)
  else
    raw ← json_as_string inp k;
    if bool_decide (raw = B "none") then Ok (true, ConfigNormalization.none)
    else if bool_decide (raw = B "collapse_trailing_slash") then Ok (true, ConfigNormalization.collapse_trailing_slash)
    else if bool_decide (raw = B "collapse_multi_slash") then Ok (true, ConfigNormalization.collapse_multi_slash)
    else Err (unknown_value k (B "path_normalization") raw (quoted "none" ++ B "|" ++ quoted "collapse_trailing_slash" ++ B "|" ++ quoted "collapse_multi_slash")).

End codecs.

(** ** Listeners from configurations *)

(** A driver and the protocol it serves ([id()]). *)
Inductive Driver := Http11Driver (cfg : Http11Config) | Http2Driver | Http3Driver.

Definition driver_id (d : Driver) : Protocol.t :=
  match d with Http11Driver _ => Protocol.http1 | Http2Driver => Protocol.http2 | Http3Driver => Protocol.http3 end.

(** What [add_tcp_listener], [add_tls_listener] and [add_quic_listener] append. *)
Inductive Listener :=
| TcpListener (host : bytes) (p : N) (driver : Driver)
| TlsListener (host : bytes) (p : N) (tls : TlsConfig) (drivers : list Driver)
| QuicListener (host : bytes) (p : N) (tls : TlsConfig) (driver : Driver).

Definition listener_drivers (l : Listener) : list Driver :=
  match l with TcpListener _ _ d => [d] | TlsListener _ _ _ ds => ds | QuicListener _ _ _ d => [d] end.

Definition make_http11_config (cfg : ServerConfig) : Http11Config :=
  {| max_header_bytes := max_header_bytes http11_config_default;
     max_body_bytes := body_limit cfg;
     header_timeout := timeouts_header (timeouts cfg);
     body_timeout := timeouts_body (timeouts cfg);
     idle_timeout := timeouts_idle (timeouts cfg) |}.

Definition throw_unsupported (l : ListenerConfig) (ps : list Protocol.t) : exn :=
  InvalidArgument (B "attach_default_listeners: unsupported (transport, protocols) combination: " ++
    Transport.to_string_view (transport l) ++ B " + [" ++ join_with (B ", ") (map Protocol.to_string_view ps) ++ B "]").

(** [*listener.tls()] of a disengaged optional is undefined; [None] stands for it. *)
Definition attach_one (cfg : ServerConfig) (l : ListenerConfig) : option (result exn Listener) :=
  let ps := effective_protocols l in
  let h1 := Http11Driver (make_http11_config cfg) in
  match transport l with
  | Transport.tcp =>
      if decide (ps = [Protocol.http1]) then Some (Ok (TcpListener (bind_address l) (port l) h1))
      else Some (Err (throw_unsupported l ps))
  | Transport.tls =>
      if decide (ps = [Protocol.http1]) then
        tls ← listener_tls l; Some (Ok (TlsListener (bind_address l) (port l) tls [h1]))
      else if decide (ps = [Protocol.http2]) then
        tls ← listener_tls l; Some (Ok (TlsListener (bind_address l) (port l) tls [Http2Driver]))
      else if decide (ps = [Protocol.http1; Protocol.http2]) then
        tls ← listener_tls l; Some (Ok (TlsListener (bind_address l) (port l) tls [h1; Http2Driver]))
      else if decide (ps = [Protocol.http2; Protocol.http1]) then
        tls ← listener_tls l; Some (Ok (TlsListener (bind_address l) (port l) tls [Http2Driver; h1]))
      else Some (Err (throw_unsupported l ps))
  | Transport.quic =>
      if decide (ps = [Protocol.http3]) then
        tls ← listener_tls l; Some (Ok (QuicListener (bind_address l) (port l) tls Http3Driver))
      else Some (Err (throw_unsupported l ps))
  end.

(** The loop: listeners added before a throw stay added. *)
Fixpoint attach_listeners (cfg : ServerConfig) (ls : list ListenerConfig) (out : list Listener)
    : option (result exn unit * list Listener) :=
  match ls with
  | [] => Some (Ok tt, out)
  | l :: ls =>
      r ← attach_one cfg l;
      match r with
      | Err e => Some (Err e, out)
      | Ok listener => attach_listeners cfg ls (out ++ [listener])
      end
  end.

Definition attach_default_listeners (cfg : ServerConfig) : option (result exn unit * list Listener) :=
  attach_listeners cfg (cfg_listeners cfg) [].

(** ** Properties *)

(** What [listener_validate] accepts, as a proposition. *)
Record listener_valid (l : ListenerConfig) : Prop := {
  valid_bind : bind_address l <> [];
  valid_nodup : NoDup (protocols l);
  valid_h3 : match transport l with
             | Transport.quic => protocols l = [] \/ protocols l = [Protocol.http3]
             | _ => Protocol.http3 ∉ protocols l
             end;
  valid_tls : match transport l, listener_tls l with
              | Transport.tcp, None => True
              | Transport.tcp, Some _ | _, None => False
              | _, Some t => cert_file t <> [] /\ key_file t <> [] /\ (require_client_cert t = true -> ca_file t <> [])
              end;
}.

Lemma has_duplicate_spec ps : has_duplicate ps = false <-> NoDup ps.
Proof.
  induction ps as [|p ps IH]; simpl; [split; [constructor|done]|].
  rewrite orb_false_iff, NoDup_cons, IH, <- not_true_iff_false, existsb_exists. f_equiv.
  split; intros Hn Hx; apply Hn.
  - exists p. rewrite bool_decide_true by done. by rewrite <- list_elem_of_In.
  - destruct Hx as (q & Hq & E%bool_decide_eq_true). subst. by rewrite list_elem_of_In.
Qed.

Lemma has_h3_spec ps : existsb (fun p => bool_decide (p = Protocol.http3)) ps = bool_decide (Protocol.http3 ∈ ps).
Proof.
  apply eq_true_iff_eq. rewrite existsb_exists, bool_decide_eq_true. split.
  - intros (p & Hp & E%bool_decide_eq_true). subst. by rewrite list_elem_of_In.
  - intros Hp. exists Protocol.http3. rewrite bool_decide_true by done. by rewrite <- list_elem_of_In.
Qed.

Lemma tls_validate_spec t :
  tls_validate t = Ok tt <-> cert_file t <> [] /\ key_file t <> [] /\ (require_client_cert t = true -> ca_file t <> []).
Proof.
  unfold tls_validate. repeat case_bool_decide; destruct (require_client_cert t); simpl; naive_solver.
Qed.

Lemma quic_protocols ps :
  NoDup ps -> negb (bool_decide (ps = [])) && (negb (length ps =? 1) || negb (bool_decide (Protocol.http3 ∈ ps))) = false <->
  ps = [] \/ ps = [Protocol.http3].
Proof.
  intros _. destruct ps as [|p [|q ps]]; simpl; [naive_solver| |naive_solver].
  destruct p; simpl; (repeat case_bool_decide); split; intros; try done; try (set_solver); naive_solver set_solver.
Qed.

Lemma listener_validate_spec l : listener_validate l = Ok tt <-> listener_valid l.
Proof.
  unfold listener_validate. rewrite has_h3_spec. split.
  - case_bool_decide as Hb; [done|]. destruct (has_duplicate (protocols l)) eqn:Ed; [done|]. apply has_duplicate_spec in Ed.
    pose proof (quic_protocols _ Ed) as HQ.
    destruct (transport l) eqn:Et; simpl.
    + destruct (bool_decide_reflect (Protocol.http3 ∈ protocols l)) as [H3|H3]; simpl; [done|]. destruct (listener_tls l) eqn:El; [done|].
      intros _. split; rewrite ?Et, ?El; done.
    + destruct (bool_decide_reflect (Protocol.http3 ∈ protocols l)) as [H3|H3]; simpl; [done|]. destruct (listener_tls l) as [t|] eqn:El; [|done].
      intros HT%tls_validate_spec. split; rewrite ?Et, ?El; done.
    + destruct (_ && _) eqn:Eq; simpl; [done|]. destruct (listener_tls l) as [t|] eqn:El; [|done].
      intros HT%tls_validate_spec. split; rewrite ?Et, ?El; try done. by apply HQ.
  - intros [H1 H2 H3 H4]. rewrite bool_decide_false by done. rewrite (proj2 (has_duplicate_spec _) H2).
    pose proof (quic_protocols _ H2) as HQ.
    destruct (transport l) eqn:Et; simpl in *.
    + rewrite bool_decide_false by done. by destruct (listener_tls l).
    + rewrite bool_decide_false by done. destruct (listener_tls l); [|done]. by apply tls_validate_spec.
    + rewrite (proj2 HQ H3). destruct (listener_tls l); [|done]. by apply tls_validate_spec.
Qed.

(** Duplicate-free lists over the two stream protocols. *)
Lemma stream_protocols ps :
  NoDup ps -> Protocol.http3 ∉ ps ->
  ps ∈ [[]; [Protocol.http1]; [Protocol.http2]; [Protocol.http1; Protocol.http2]; [Protocol.http2; Protocol.http1]].
Proof.
  intros HN H3. destruct ps as [|p1 [|p2 [|p3 ps]]].
  - set_solver.
  - destruct p1; set_solver.
  - repeat setoid_rewrite NoDup_cons in HN. destruct p1, p2; set_solver.
  - exfalso. repeat setoid_rewrite NoDup_cons in HN. destruct p1, p2, p3; set_solver.
Qed.

(** Every validated listener configuration is served, except exactly those
    asking for HTTP/2 over plain TCP: attaching never dereferences missing TLS
    material, and the listener's drivers serve the effective protocols in the
    configured (ALPN preference) order. *)
Theorem validated_listener_attaches cfg l :
  listener_validate l = Ok tt ->
  (exists listener, attach_one cfg l = Some (Ok listener) /\ map driver_id (listener_drivers listener) = effective_protocols l) \/
  (transport l = Transport.tcp /\ Protocol.http2 ∈ protocols l /\
   attach_one cfg l = Some (Err (throw_unsupported l (effective_protocols l)))).
Proof.
  intros [_ HN H3 HT]%listener_validate_spec. unfold attach_one, effective_protocols.
  destruct (transport l) eqn:Et; [| |].
  - pose proof (stream_protocols _ HN H3) as HP. rewrite !elem_of_cons in HP.
    destruct HP as [E|[E|[E|[E|[E|E]]]]]; [..|by apply elem_of_nil in E]; rewrite E; simpl;
      first [by left; eexists | right; split_and!; [done|set_solver|done]].
  - destruct (listener_tls l) as [t|]; [|done].
    pose proof (stream_protocols _ HN H3) as HP. rewrite !elem_of_cons in HP.
    destruct HP as [E|[E|[E|[E|[E|E]]]]]; [..|by apply elem_of_nil in E]; rewrite E; simpl; by left; eexists.
  - destruct (listener_tls l) as [t|]; [|done]. destruct H3 as [E|E]; rewrite E; simpl; by left; eexists.
Qed.

(** [ServerConfig::validate] accepts exactly the configurations with at
    least one thread, positive limits and timeouts, a non-negative drain timeout
    and valid listeners; [finalize] returns the built value unchanged. *)
Theorem server_finalize_correct c c' :
  server_finalize c = Ok c' <->
  c' = c /\ (0 < threads c)%N /\ (0 < body_limit c)%N /\ (0 < request_arena_size c)%N /\ (0 <= drain_timeout c)%Z /\
  (0 < timeouts_header (timeouts c) /\ 0 < timeouts_body (timeouts c) /\ 0 < timeouts_idle (timeouts c))%Z /\
  Forall listener_valid (cfg_listeners c).
Proof.
  assert (forall ls, validate_listeners ls = Ok tt <-> Forall listener_valid ls) as HV.
  { induction ls as [|l ls IH]; simpl; [by split|]. rewrite Forall_cons, <- IH, <- listener_validate_spec.
    destruct (listener_validate l) as [[]|e]; simpl; naive_solver. }
  unfold server_finalize, server_validate, timeouts_validate. rewrite <- HV.
  destruct (N.eqb_spec (threads c) 0); [naive_solver lia|].
  destruct (N.eqb_spec (body_limit c) 0); [naive_solver lia|].
  destruct (N.eqb_spec (request_arena_size c) 0); [naive_solver lia|].
  destruct (Z.ltb_spec (drain_timeout c) 0); [naive_solver lia|].
  destruct (Z.leb_spec (timeouts_header (timeouts c)) 0); [naive_solver lia|].
  destruct (Z.leb_spec (timeouts_body (timeouts c)) 0); [naive_solver lia|].
  destruct (Z.leb_spec (timeouts_idle (timeouts c)) 0); [naive_solver lia|]. simpl.
  destruct (validate_listeners (cfg_listeners c)) as [[]|e]; naive_solver lia.
Qed.

(** The enum codecs round-trip through JSON, and an unknown string is an
    [invalid_argument], never a silent default. *)
Theorem codecs_roundtrip {J} `{JsonObject J, !JsonObjectLaws J} (o : J) k p t m n p0 t0 m0 n0 raw :
  read_protocol (write_protocol o k p) k p0 = Ok (true, p) /\
  read_transport (write_transport o k t) k t0 = Ok (true, t) /\
  read_min_version (write_min_version o k m) k m0 = Ok (true, m) /\
  read_normalization (write_normalization o k n) k n0 = Ok (true, n) /\
  ((forall p, raw <> Protocol.to_string_view p) ->
   exists what, read_protocol (json_set_string o k raw) k p0 = Err (InvalidArgument what)).
Proof.
  unfold read_protocol, read_transport, read_min_version, read_normalization,
    write_protocol, write_transport, write_min_version, write_normalization.
  rewrite !json_member_set, !json_string_set.
  split_and!; [by destruct p|by destruct t|by destruct m|by destruct n|]. intros Hr. simpl.
  pose proof (Hr Protocol.http1). pose proof (Hr Protocol.http2). pose proof (Hr Protocol.http3).
  rewrite !bool_decide_false by done. by eexists.
Qed.

(** ** Witnesses *)
#[global] Instance strings_json : JsonObject (gmap bytes bytes) := {
  json_member o k := bool_decide (is_Some (o !! k));
  json_as_string o k := match o !! k with Some v => Ok v | None => Err (LogicError (B "not a string")) end;
  json_set_string o k v := <[k := v]> o;
}.

#[global] Instance strings_json_laws : JsonObjectLaws (gmap bytes bytes).
Proof. split; intros; simpl; rewrite lookup_insert_eq; [by rewrite bool_decide_true|done]. Qed.

Definition sample_tls_listener : ListenerConfig :=
  {| bind_address := B "127.0.0.1"; port := 8443; transport := Transport.tls; protocols := [Protocol.http2; Protocol.http1];
     listener_tls := Some {| cert_file := B "c.pem"; key_file := B "k.pem"; key_passphrase := []; dh_params_file := [];
                             ca_file := []; min_version := MinVersion.tls13; session_cache := true; require_client_cert := false |} |}.

Lemma validated_listener_attaches_witness :
  exists listener, attach_one server_config_default sample_tls_listener = Some (Ok listener) /\
    map driver_id (listener_drivers listener) = [Protocol.http2; Protocol.http1].
Proof.
  destruct (validated_listener_attaches server_config_default sample_tls_listener eq_refl) as [HA|(H & _)]; [exact HA|discriminate].
Defined.

Lemma codecs_roundtrip_witness : exists what,
  read_protocol (json_set_string (∅ : gmap bytes bytes) (B "p") (B "spdy")) (B "p") Protocol.http1 = Err (InvalidArgument what).
Proof.
  apply (codecs_roundtrip (∅ : gmap bytes bytes) (B "p") Protocol.http1 Transport.tcp MinVersion.tls12 ConfigNormalization.none
           Protocol.http1 Transport.tcp MinVersion.tls12 ConfigNormalization.none (B "spdy")).
  intros []; discriminate.
Defined.
