(* ===== verification/Pangolin.v ===== *)
(** * serialization-pangolin: configurations to JSON and back

    [ConfigInterface] walks a class's field descriptors: [serialize] validates and writes every field
    its policy allows, [deserialize] reads into a builder's members and finalizes it
    (config/). The [write_field] and [read_field] overloads are pairs of functions per type,
    the codecs (formats/json). [Json::Value] is JsonCpp's and a parameter: a class
    of its operations, and the documented laws the round trip relies on. *)

From S2P Require Import Prelude StringMap.

#[local] Open Scope Z_scope.

(** ** JsonCpp values *)
Class JsonLib (J : Type) := {
  jnull : J;
  jobject : J;
  jstring : bytes -> J;
  jint : Z -> J;
  juint : Z -> J;
  jbool : bool -> J;
  jarray : list J -> J;
  is_object : J -> bool;
  jfind : J -> bytes -> result exn (option J);   (* [isMember(k)], and then [in[k]] *)
  jset : J -> bytes -> J -> J;                   (* [out[k] = v] *)
  as_string : J -> result exn bytes;
  as_int : J -> result exn Z;
  as_int64 : J -> result exn Z;
  as_uint : J -> result exn Z;
  as_uint64 : J -> result exn Z;
  as_bool : J -> result exn bool;
  elements : J -> option (list J);               (* [isArray()], and the elements *)
  member_names : J -> result exn (list bytes)
}.

(** What a key can be set in: the null value, which becomes an object, and objects. *)
Class JsonLaws (J : Type) `{JsonLib J} := {
  fillable : J -> Prop;
  fillable_null : fillable jnull;
  fillable_object : fillable jobject;
  fillable_set o k v : fillable o -> fillable (jset o k v);
  find_null k : jfind jnull k = Ok None;
  find_object k : jfind jobject k = Ok None;
  find_set_eq o k v : fillable o -> jfind (jset o k v) k = Ok (Some v);
  find_set_ne o k k' v : fillable o -> k' <> k -> jfind (jset o k v) k' = jfind o k';
  set_is_object o k v : fillable o -> is_object (jset o k v) = true;
  string_back s : as_string (jstring s) = Ok s;
  int_back z : - 2 ^ 31 <= z < 2 ^ 31 -> as_int (jint z) = Ok z;
  int64_back z : - 2 ^ 63 <= z < 2 ^ 63 -> as_int64 (jint z) = Ok z;
  uint_of_int_back z : 0 <= z < 2 ^ 31 -> as_uint (jint z) = Ok z;
  uint64_back z : 0 <= z < 2 ^ 64 -> as_uint64 (juint z) = Ok z;
  bool_back b : as_bool (jbool b) = Ok b;
  array_back l : elements (jarray l) = Some l
}.

(** The member names of an object are the keys that were set, in whatever order. *)
Class JsonNames (J : Type) `{JsonLaws J} := {
  names_object : member_names jobject = Ok [];
  names_set o k v ns : fillable o -> member_names o = Ok ns ->
    exists ns', member_names (jset o k v) = Ok ns' /\ forall x, x ∈ ns' <-> x = k \/ x ∈ ns
}.

Section pangolin.
Context {J : Type} `{JsonLib J}.

(** ** Codecs

    [read_field] tells whether the key was present, and the member's new value. *)
Record codec (T : Type) := {
  write_field : J -> bytes -> T -> result exn J;
  read_field : J -> bytes -> T -> result exn (bool * T)
}.
#[global] Arguments write_field {T} _ _ _ _.
#[global] Arguments read_field {T} _ _ _ _.

(** The shape of the scalar overloads: a missing key leaves the member alone. *)
Definition read_present {T} (convert : J -> result exn T) (inp : J) (k : bytes) (v : T) : result exn (bool * T) :=
  found ← jfind inp k;
  match found with None => Ok (false, v) | Some j => x ← convert j; Ok (true, x) end.

Definition scalar_codec {T} (make : T -> J) (convert : J -> result exn T) : codec T :=
  {| write_field out k v := Ok (jset out k (make v)); read_field := read_present convert |}.

Definition string_codec : codec bytes := scalar_codec jstring as_string.
Definition int_codec : codec Z := scalar_codec jint as_int.
Definition size_codec : codec Z := scalar_codec juint as_uint64.
Definition bool_codec : codec bool := scalar_codec jbool as_bool.

(** [std::filesystem::path], by its string form. *)
Definition path_codec : codec bytes := string_codec.

(** A [uint16_t] promotes to [int] when it is written; reading rejects larger values. *)
Definition u16_codec : codec Z :=
  {| write_field out k v := Ok (jset out k (jint v));
     read_field inp k v :=
       read_present (fun j =>
         raw ← as_uint j;
         if 65535 <? raw then
           Err (InvalidArgument (B "config field '" ++ k ++ B "': value " ++ to_decimal (Z.to_N raw) ++ B " exceeds 65535"))
         else Ok raw) inp k v |}.

(** Durations as their tick count, enums as their underlying integer. *)
Definition duration_codec : codec Z := scalar_codec jint as_int64.

Definition enum_codec {E} (code : E -> Z) (of_code : Z -> E) : codec E :=
  {| write_field out k v := Ok (jset out k (jint (code v)));
     read_field := read_present (fun j => z ← as_int j; Ok (of_code z)) |}.

(** [std::map<std::string, std::string>]: written in the order of its keys, read by assignment. *)
Fixpoint write_pairs (obj : J) (m : list (bytes * bytes)) : J :=
  match m with [] => obj | (k, v) :: m => write_pairs (jset obj k (jstring v)) m end.

Fixpoint read_pairs (obj : J) (names : list bytes) (m : list (bytes * bytes)) : result exn (list (bytes * bytes)) :=
  match names with
  | [] => Ok m
  | k :: names =>
      found ← jfind obj k;
      v ← as_string (default jnull found);
      read_pairs obj names (map_set m k v)
  end.

Definition map_codec : codec (list (bytes * bytes)) :=
  {| write_field out k m := Ok (jset out k (write_pairs jobject m));
     read_field := read_present (fun j => names ← member_names j; read_pairs j names []) |}.

(** [std::optional<T>]: nothing is written for an empty one. [blank] is [T{}]. *)
Definition optional_codec {T} (c : codec T) (blank : T) : codec (option T) :=
  {| write_field out k v := match v with Some x => write_field c out k x | None => Ok out end;
     read_field inp k v :=
       found ← jfind inp k;
       match found with
       | None => Ok (false, v)
       | Some _ => r ← read_field c inp k blank;
                   let '(present, x) := r in if (present : bool) then Ok (true, Some x) else Ok (false, v)
       end |}.

(** [std::vector<T>] of scalars: each element goes through a one-key object. *)
Fixpoint write_elements {T} (c : codec T) (v : list T) : result exn (list J) :=
  match v with
  | [] => Ok []
  | x :: v =>
      wrap ← write_field c jobject (B "v") x;
      found ← jfind wrap (B "v");
      rest ← write_elements c v;
      Ok (default jnull found :: rest)
  end.

Fixpoint read_elements {T} (c : codec T) (blank : T) (items : list J) : result exn (list T) :=
  match items with
  | [] => Ok []
  | item :: items =>
      r ← read_field c (jset jobject (B "v") item) (B "v") blank;
      rest ← read_elements c blank items;
      let '(present, x) := r in Ok (if (present : bool) then x :: rest else rest)
  end.

Definition expected_array (k : bytes) : exn := InvalidArgument (B "config field '" ++ k ++ B "': expected a JSON array").

Definition vector_codec {T} (c : codec T) (blank : T) : codec (list T) :=
  {| write_field out k v := items ← write_elements c v; Ok (jset out k (jarray items));
     read_field inp k v :=
       read_present (fun arr => match elements arr with None => Err (expected_array k) | Some items => read_elements c blank items end) inp k v |}.

(** ** Field descriptors and the walk *)
Inductive FieldPolicy := Normal | Secret | Excluded | ReadOnly.

Record Field (C : Type) := {
  f_type : Type;
  f_get : C -> f_type;
  f_put : C -> f_type -> C;
  f_name : bytes;
  f_policy : FieldPolicy;
  f_codec : codec f_type
}.

Record ConfigType (C : Type) := {
  fields : list (Field C);
  validate : C -> result exn unit;
  builder : C;
  finalize : C -> result exn C
}.
#[global] Arguments f_type {C} _.
#[global] Arguments f_get {C} _ _.
#[global] Arguments f_put {C} _ _ _.
#[global] Arguments f_name {C} _.
#[global] Arguments f_policy {C} _.
#[global] Arguments f_codec {C} _.
#[global] Arguments fields {C} _.
#[global] Arguments validate {C} _ _.
#[global] Arguments builder {C} _.
#[global] Arguments finalize {C} _ _.

Definition serialize_one_field {C} (out : J) (d : C) (f : Field C) : result exn J :=
  match f_policy f with
  | Secret | Excluded => Ok out
  | Normal | ReadOnly => write_field (f_codec f) out (f_name f) (f_get f d)
  end.

Fixpoint serialize_fields {C} (out : J) (d : C) (fs : list (Field C)) : result exn J :=
  match fs with [] => Ok out | f :: fs => out ← serialize_one_field out d f; serialize_fields out d fs end.

Definition serialize {C} (t : ConfigType C) (d : C) : result exn J :=
  _ ← validate t d; serialize_fields jnull d (fields t).

Definition deserialize_one_field {C} (inp : J) (b : C) (f : Field C) : result exn C :=
  match f_policy f with
  | Excluded | ReadOnly => Ok b
  | Normal | Secret => r ← read_field (f_codec f) inp (f_name f) (f_get f b); Ok (f_put f b r.2)
  end.

Fixpoint deserialize_fields {C} (inp : J) (b : C) (fs : list (Field C)) : result exn C :=
  match fs with [] => Ok b | f :: fs => b ← deserialize_one_field inp b f; deserialize_fields inp b fs end.

Definition deserialize {C} (t : ConfigType C) (inp : J) : result exn C :=
  b ← deserialize_fields inp (builder t) (fields t); finalize t b.

(** ** Nested configurations *)
Definition nested_codec {C} (t : ConfigType C) : codec C :=
  {| write_field out k v := j ← serialize t v; Ok (jset out k j);
     read_field := read_present (deserialize t) |}.

Definition optional_nested_codec {C} (t : ConfigType C) : codec (option C) :=
  {| write_field out k v := match v with Some x => write_field (nested_codec t) out k x | None => Ok out end;
     read_field := read_present (fun j => x ← deserialize t j; Ok (Some x)) |}.

Definition vector_nested_codec {C} (t : ConfigType C) : codec (list C) :=
  {| write_field out k v := items ← mapM (serialize t) v; Ok (jset out k (jarray items));
     read_field inp k v :=
       read_present (fun arr => match elements arr with None => Err (expected_array k) | Some items => mapM (deserialize t) items end) inp k v |}.

End pangolin.

(** ** Round trips *)
Section facts.
Context {J : Type} `{JL : JsonLib J, !JsonLaws J}.

(** Written under a key, the value [v] is read back as [r]; [None]: nothing is written. *)
Definition reads_back {T} (c : codec T) (v : T) (r : option T) : Prop :=
  forall out k, fillable out -> exists out', write_field c out k v = Ok out' /\ fillable out' /\
    (forall k', k' <> k -> jfind out' k' = jfind out k') /\
    match r with
    | None => out' = out
    | Some v' => exists j, out' = jset out k j /\ forall inp k d, jfind inp k = Ok (Some j) -> read_field c inp k d = Ok (true, v')
    end.

(** A missing key leaves the member alone. *)
Definition skips_absent {T} (c : codec T) : Prop :=
  forall inp k d, jfind inp k = Ok None -> read_field c inp k d = Ok (false, d).

Lemma read_present_absent {T} (f : J -> result exn T) inp k d : jfind inp k = Ok None -> read_present f inp k d = Ok (false, d).
Proof. intros E. unfold read_present. by rewrite E. Qed.

Lemma read_present_found {T} (f : J -> result exn T) inp k d j x : jfind inp k = Ok (Some j) -> f j = Ok x -> read_present f inp k d = Ok (true, x).
Proof. intros E Ef. unfold read_present. rewrite E. cbn. by rewrite Ef. Qed.

(** Setting one key with something that converts back. *)
Lemma set_reads_back {T} (c : codec T) v v' j :
  (forall out k, write_field c out k v = Ok (jset out k j)) ->
  (forall inp k d, jfind inp k = Ok (Some j) -> read_field c inp k d = Ok (true, v')) -> reads_back c v (Some v').
Proof.
  intros Hw Hr out k Ho. exists (jset out k j). split_and!; [apply Hw|by apply fillable_set|intros k' Hk; by apply find_set_ne|].
  exists j. split; [done|]. intros inp k0 d. apply Hr.
Qed.

Lemma scalar_reads_back {T} (make : T -> J) convert v : convert (make v) = Ok v -> reads_back (scalar_codec make convert) v (Some v).
Proof. intros Hv. apply (set_reads_back _ _ _ (make v)); [done|]. intros inp k d E. by eapply read_present_found. Qed.

Lemma string_reads_back s : reads_back string_codec s (Some s).
Proof. apply scalar_reads_back, string_back. Qed.

Lemma int_reads_back z : - 2 ^ 31 <= z < 2 ^ 31 -> reads_back int_codec z (Some z).
Proof. intros. by apply scalar_reads_back, int_back. Qed.

Lemma size_reads_back z : 0 <= z < 2 ^ 64 -> reads_back size_codec z (Some z).
Proof. intros. by apply scalar_reads_back, uint64_back. Qed.

Lemma bool_reads_back b : reads_back bool_codec b (Some b).
Proof. apply scalar_reads_back, bool_back. Qed.

Lemma duration_reads_back z : - 2 ^ 63 <= z < 2 ^ 63 -> reads_back duration_codec z (Some z).
Proof. intros. by apply scalar_reads_back, int64_back. Qed.

Lemma u16_reads_back z : 0 <= z < 2 ^ 16 -> reads_back u16_codec z (Some z).
Proof.
  intros Hz. apply (set_reads_back _ _ _ (jint z)); [done|]. intros inp k d E. eapply read_present_found; [exact E|].
  rewrite uint_of_int_back by lia. cbn. destruct (Z.ltb_spec 65535 z); [lia|done].
Qed.

Lemma enum_reads_back {E} (code : E -> Z) of_code v :
  - 2 ^ 31 <= code v < 2 ^ 31 -> of_code (code v) = v -> reads_back (enum_codec code of_code) v (Some v).
Proof.
  intros Hc Hv. apply (set_reads_back _ _ _ (jint (code v))); [done|]. intros inp k d E'. eapply read_present_found; [exact E'|].
  rewrite int_back by done. cbn. by rewrite Hv.
Qed.

Lemma optional_none_back {T} (c : codec T) blank : reads_back (optional_codec c blank) None None.
Proof. intros out k Ho. by exists out. Qed.

Lemma optional_some_back {T} (c : codec T) blank v v' : reads_back c v (Some v') -> reads_back (optional_codec c blank) (Some v) (Some (Some v')).
Proof.
  intros Hc out k Ho. destruct (Hc out k Ho) as (out' & Hw & Hf & Hk & j & -> & Hr). exists (jset out k j). split_and!; try done.
  exists j. split; [done|]. intros inp k0 d E. cbn. rewrite E. cbn. by rewrite (Hr inp k0 blank E).
Qed.

Lemma elements_read_back {T} (c : codec T) blank vs vs' :
  Forall2 (fun v v' => reads_back c v (Some v')) vs vs' ->
  exists items, write_elements c vs = Ok items /\ read_elements c blank items = Ok vs'.
Proof.
  induction 1 as [|v v' vs vs' Hv _ (items & Hw & Hr)]; [by exists []|].
  destruct (Hv jobject (B "v") fillable_object) as (out' & Ho & _ & _ & j & -> & Hj).
  exists (j :: items). cbn [write_elements read_elements]. rewrite Ho. cbn. rewrite find_set_eq by apply fillable_object. cbn. rewrite Hw. cbn. split; [done|].
  rewrite (Hj (jset jobject (B "v") j) (B "v") blank) by (apply find_set_eq, fillable_object). cbn. by rewrite Hr.
Qed.

Lemma vector_reads_back {T} (c : codec T) blank vs vs' :
  Forall2 (fun v v' => reads_back c v (Some v')) vs vs' -> reads_back (vector_codec c blank) vs (Some vs').
Proof.
  intros (items & Hw & Hr)%(elements_read_back c blank). apply (set_reads_back _ _ _ (jarray items)).
  - intros out k. cbn. by rewrite Hw.
  - intros inp k d E. eapply read_present_found; [exact E|]. by rewrite array_back.
Qed.

(** *** Maps *)
Lemma write_pairs_spec `{!JsonNames J} m obj ns :
  ordered m -> fillable obj -> member_names obj = Ok ns ->
  fillable (write_pairs obj m) /\
  (exists ns', member_names (write_pairs obj m) = Ok ns' /\ forall x, x ∈ ns' <-> x ∈ m.*1 \/ x ∈ ns) /\
  forall k, jfind (write_pairs obj m) k = match assoc m k with Some v => Ok (Some (jstring v)) | None => jfind obj k end.
Proof.
  intros Hm. revert obj ns. induction Hm as [|[k v] m Hs IH Hk]; intros obj ns Ho Hn.
  - split_and!; [done| |done]. exists ns. split; [done|]. cbn. set_solver.
  - destruct (names_set obj k (jstring v) ns Ho Hn) as (ns1 & Hn1 & Hx1).
    destruct (IH (jset obj k (jstring v)) ns1) as (Hf & (ns' & Hn' & Hx') & Hj); [by apply fillable_set|done|].
    cbn [write_pairs assoc fmap list_fmap fst]. split_and!; [done| |].
    + exists ns'. split; [done|]. intros x. rewrite Hx', Hx1, elem_of_cons. naive_solver.
    + intros k'. rewrite Hj. case_bool_decide as E; [subst|].
      * rewrite assoc_below by exact Hk. by apply find_set_eq.
      * case_match; [done|]. by apply find_set_ne.
Qed.

Lemma read_pairs_spec m obj names acc :
  ordered m -> ordered acc -> (forall k, k ∈ names -> exists v, assoc m k = Some v) ->
  (forall k v, assoc m k = Some v -> jfind obj k = Ok (Some (jstring v))) ->
  exists r, read_pairs obj names acc = Ok r /\ ordered r /\
    forall k, assoc r k = if bool_decide (k ∈ names) then assoc m k else assoc acc k.
Proof.
  intros Hm Ha Hn Hj. revert acc Ha. induction names as [|k names IH]; intros acc Ha; [by exists acc|].
  destruct (Hn k ltac:(left)) as [v Hv]. cbn [read_pairs]. rewrite (Hj k v Hv). cbn. rewrite string_back. cbn.
  destruct (IH ltac:(intros; apply Hn; by right) (map_set acc k v)) as (r & Hr & Ho & Hk); [by apply map_set_ordered|].
  exists r. split_and!; [done|done|]. intros k'. rewrite Hk, assoc_map_set by done.
  destruct (decide (k' ∈ names)).
  - rewrite !bool_decide_true; [done|by right|done].
  - rewrite (bool_decide_false (k' ∈ names)) by done. case_bool_decide as E; [subst; rewrite bool_decide_true by left; done|].
    rewrite bool_decide_false; [done|]. rewrite elem_of_cons. naive_solver.
Qed.

Lemma map_reads_back `{!JsonNames J} m : ordered m -> reads_back map_codec m (Some m).
Proof.
  intros Hm. destruct (write_pairs_spec m jobject [] Hm fillable_object names_object) as (Hf & (ns & Hn & Hx) & Hj).
  apply (set_reads_back _ _ _ (write_pairs jobject m)); [done|]. intros inp k d E. eapply read_present_found; [exact E|].
  rewrite Hn. cbn -[read_pairs].
  destruct (read_pairs_spec m (write_pairs jobject m) ns []) as (r & Hr & Ho & Hk); [done|constructor| | |].
  - intros x [[[k' v] [-> Hin]]%list_elem_of_fmap|[]%elem_of_nil]%Hx. exists v. by apply assoc_elem.
  - intros x v Hv. by rewrite Hj, Hv.
  - rewrite Hr. f_equal. apply ordered_ext; [done..|]. intros x. rewrite Hk. case_bool_decide as Hin; [done|].
    destruct (assoc m x) as [v|] eqn:Ev; [|done]. destruct Hin. apply Hx. left. apply assoc_elem in Ev; [|done].
    apply list_elem_of_fmap. by exists (x, v).
Qed.

(** *** The walk *)

(** Field [f] of [d] goes through a document as the update [g] of the builder. *)
Definition field_back {C} (d : C) (f : Field C) (g : C -> C) : Prop :=
  forall out, fillable out -> jfind out (f_name f) = Ok None ->
  exists out', serialize_one_field out d f = Ok out' /\ fillable out' /\ (is_object out = true -> is_object out' = true) /\
    (forall k, k <> f_name f -> jfind out' k = jfind out k) /\
    forall inp, jfind inp (f_name f) = jfind out' (f_name f) -> forall b, deserialize_one_field inp b f = Ok (g b).

Definition lawful {C} (f : Field (J := J) C) : Prop := forall b, f_put f b (f_get f b) = b.

Lemma normal_back {C} (d : C) (f : Field C) v' :
  f_policy f = Normal -> reads_back (f_codec f) (f_get f d) (Some v') -> field_back d f (fun b => f_put f b v').
Proof.
  intros Hp Hc out Ho _. destruct (Hc out (f_name f) Ho) as (out' & Hw & Hf & Hk & j & -> & Hr).
  exists (jset out (f_name f) j). unfold serialize_one_field, deserialize_one_field. rewrite Hp. split_and!; try done; [intros _; by apply set_is_object|].
  intros inp E b. rewrite find_set_eq in E by done. by rewrite (Hr inp (f_name f) (f_get f b) E).
Qed.

Lemma unwritten_back {C} (d : C) (f : Field C) :
  f_policy f = Normal -> lawful f -> skips_absent (f_codec f) -> reads_back (f_codec f) (f_get f d) None -> field_back d f (fun b => b).
Proof.
  intros Hp Hl Hs Hc out Ho Hn. destruct (Hc out (f_name f) Ho) as (out' & Hw & Hf & Hk & ->).
  exists out. unfold serialize_one_field, deserialize_one_field. rewrite Hp. split_and!; try done.
  intros inp E b. rewrite Hn in E. rewrite (Hs _ _ _ E). cbn. by rewrite Hl.
Qed.

Lemma secret_back {C} (d : C) (f : Field C) :
  f_policy f = Secret -> lawful f -> skips_absent (f_codec f) -> field_back d f (fun b => b).
Proof.
  intros Hp Hl Hs out Ho Hn. exists out. unfold serialize_one_field, deserialize_one_field. rewrite Hp. split_and!; try done.
  intros inp E b. rewrite Hn in E. rewrite (Hs _ _ _ E). cbn. by rewrite Hl.
Qed.

Lemma excluded_back {C} (d : C) (f : Field C) : f_policy f = Excluded -> field_back d f (fun b => b).
Proof. intros Hp out Ho Hn. exists out. unfold serialize_one_field, deserialize_one_field. by rewrite Hp. Qed.

Lemma fields_back {C} (d : C) fs gs :
  Forall2 (field_back d) fs gs -> NoDup (f_name <$> fs) ->
  forall out, fillable out -> (forall f, f ∈ fs -> jfind out (f_name f) = Ok None) ->
  exists out', serialize_fields out d fs = Ok out' /\ fillable out' /\ (is_object out = true -> is_object out' = true) /\
    (forall k, k ∉ f_name <$> fs -> jfind out' k = jfind out k) /\
    forall b, deserialize_fields out' b fs = Ok (fold_left (fun b g => g b) gs b).
Proof.
  intros HF. induction HF as [|f g fs gs Hf HF IH]; intros HN out Ho Hn; [by exists out|].
  cbn in HN. apply NoDup_cons in HN as [Hnf HN]. destruct (Hf out Ho (Hn f ltac:(by left))) as (out1 & Hw & Hfill & Hobj & Hk & Hr).
  destruct (IH HN out1 Hfill) as (out' & Hw' & Hfill' & Hobj' & Hk' & Hr').
  { intros f' Hf'. rewrite Hk; [apply Hn; by right|]. intros Heq. apply Hnf. rewrite <- Heq. by apply list_elem_of_fmap_2. }
  exists out'. cbn [serialize_fields deserialize_fields]. rewrite Hw. cbn. split_and!; [done|done|by auto| |].
  - intros k Hkn. apply not_elem_of_cons in Hkn as [Hk1 Hk2]. by rewrite Hk', Hk.
  - intros b. rewrite (Hr out'); [|by apply Hk']. cbn. by rewrite Hr'.
Qed.

(** Serializing a valid configuration and deserializing the document gives what [finalize] makes of
    the builder with every field's update applied. *)
Theorem serialize_roundtrip {C} (t : ConfigType C) d gs :
  validate t d = Ok tt -> Forall2 (field_back d) (fields t) gs -> NoDup (f_name <$> fields t) ->
  exists j, serialize t d = Ok j /\ fillable j /\ deserialize t j = finalize t (fold_left (fun b g => g b) gs (builder t)).
Proof.
  intros Hv HF HN. destruct (fields_back d (fields t) gs HF HN jnull fillable_null) as (out & Hw & Hf & _ & _ & Hr).
  { intros f _. apply find_null. }
  exists out. unfold serialize, deserialize. rewrite Hv. cbn. rewrite Hw. split_and!; [done|done|]. by rewrite Hr.
Qed.

(** The document is an object once the first field is written. *)
Lemma serialize_object {C} (t : ConfigType C) d gs f fs j :
  fields t = f :: fs -> f_policy f = Normal -> (exists v, reads_back (f_codec f) (f_get f d) (Some v)) ->
  Forall2 (field_back d) (fields t) gs -> NoDup (f_name <$> fields t) -> serialize t d = Ok j -> is_object j = true.
Proof.
  intros Ef Hp (v & Hv) HF HN Hs. unfold serialize in Hs. destruct (validate t d) as [[]|]; [|done]. cbn in Hs. rewrite Ef in HF, HN, Hs.
  destruct (Hv jnull (f_name f) fillable_null) as (out1 & Hw & Hfill & Hk & j1 & -> & _). cbn in Hs, HN. unfold serialize_one_field in Hs.
  rewrite Hp, Hw in Hs. cbn in Hs. apply Forall2_cons_inv_l in HF as (g & gs' & _ & HF & _). apply NoDup_cons in HN as [Hnf HN].
  destruct (fields_back d fs gs' HF HN _ Hfill) as (out' & Hw' & _ & Hobj & _).
  - intros f' Hf'. rewrite Hk; [apply find_null|]. intros Heq. apply Hnf. rewrite <- Heq. by apply list_elem_of_fmap_2.
  - rewrite Hw' in Hs. simplify_eq. by apply Hobj, set_is_object, fillable_null.
Qed.

(** A configuration type whose value [v] comes back as [v']. *)
Definition type_back {C} (t : ConfigType C) (v v' : C) : Prop := exists j, serialize t v = Ok j /\ deserialize t j = Ok v'.

Lemma nested_reads_back {C} (t : ConfigType C) v v' : type_back t v v' -> reads_back (nested_codec t) v (Some v').
Proof.
  intros (j & Hs & Hd). apply (set_reads_back _ _ _ j); [intros out k; cbn; by rewrite Hs|].
  intros inp k d E. by eapply read_present_found.
Qed.

Lemma optional_nested_reads_back {C} (t : ConfigType C) v v' :
  type_back t v v' -> reads_back (optional_nested_codec t) (Some v) (Some (Some v')).
Proof.
  intros (j & Hs & Hd). apply (set_reads_back _ _ _ j); [intros out k; cbn; by rewrite Hs|].
  intros inp k d E. eapply read_present_found; [exact E|]. by rewrite Hd.
Qed.

Lemma optional_nested_none {C} (t : ConfigType C) : reads_back (optional_nested_codec t) None None.
Proof. intros out k Ho. by exists out. Qed.

Lemma vector_nested_reads_back {C} (t : ConfigType C) vs vs' :
  Forall2 (type_back t) vs vs' -> reads_back (vector_nested_codec t) vs (Some vs').
Proof.
  intros HF. assert (exists items, mapM (serialize t) vs = Ok items /\ mapM (deserialize t) items = Ok vs') as (items & Hw & Hr).
  { induction HF as [|v v' vs vs' (j & Hs & Hd) _ (items & Hw & Hr)]; [by exists []|]. exists (j :: items). cbn.
    rewrite Hs. cbn. rewrite Hw. cbn. rewrite Hd. cbn. by rewrite Hr. }
  apply (set_reads_back _ _ _ (jarray items)); [intros out k; cbn; by rewrite Hw|].
  intros inp k d E. eapply read_present_found; [exact E|]. by rewrite array_back.
Qed.

End facts.
