(* ===== verification/ConfigJson.v ===== *)
(** * The server configuration as JSON, and its loader

    The field descriptors of the four configuration classes ([config/]: [Timeouts], [TlsConfig],
    [ListenerConfig], [ServerConfig]) over the codecs of [Pangolin], and
    config/load_server_config: [dump_server_config], [load_server_config] and the conversion of
    its three errors to responses. The file system and JsonCpp's parser are parameters. *)

From S2P Require Import Prelude Headers HttpTypes Config Pangolin.

#[local] Open Scope Z_scope.

Section config_json.
Context {J : Type} `{JL : JsonLib J}.

(** The string enums' overloads, on a JsonCpp value. [isMember] throws on a value that is
    neither null nor an object. *)
#[local] Instance json_object : JsonObject J := {
  json_member inp k := match jfind inp k with Ok (Some _) => true | _ => false end;
  json_as_string inp k := found ← jfind inp k; as_string (default jnull found);
  json_set_string out k s := jset out k (jstring s)
}.

Definition own_codec {T} (write : J -> bytes -> T -> J) (read : J -> bytes -> T -> result exn (bool * T)) : codec T :=
  {| write_field out k v := Ok (write out k v); read_field inp k v := _ ← jfind inp k; read inp k v |}.

Definition protocol_codec : codec (J := J) Protocol.t := own_codec write_protocol read_protocol.
Definition transport_codec : codec (J := J) Transport.t := own_codec write_transport read_transport.
Definition min_version_codec : codec (J := J) MinVersion.t := own_codec write_min_version read_min_version.
Definition normalization_codec : codec (J := J) ConfigNormalization.t := own_codec write_normalization read_normalization.

(** The unsigned members are [N] in the records. *)
Definition unsigned_codec (c : codec (J := J) Z) : codec N :=
  {| write_field out k v := write_field c out k (Z.of_N v);
     read_field inp k v := r ← read_field c inp k (Z.of_N v); Ok (r.1, Z.to_N r.2) |}.

(** ** The descriptors *)
Definition field {C T : Type} (get : C -> T) (put : C -> T -> C) (name : bytes) (p : FieldPolicy) (c : codec (J := J) T) : Field C :=
  {| f_type := T; f_get := get; f_put := put; f_name := name; f_policy := p; f_codec := c |}.

Definition timeouts_fields : list (Field (J := J) Timeouts) :=
  [field timeouts_header timeouts_set_header (B "header_ms") Normal duration_codec;
   field timeouts_body timeouts_set_body (B "body_ms") Normal duration_codec;
   field timeouts_idle timeouts_set_idle (B "idle_ms") Normal duration_codec].

Definition timeouts_type : ConfigType (J := J) Timeouts :=
  {| fields := timeouts_fields; validate := timeouts_validate; builder := timeouts_default; finalize := timeouts_finalize |}.

(** Assignment to one member of a [TlsConfig]. *)
Definition tls_put_cert (t : TlsConfig) v := Build_TlsConfig v (key_file t) (key_passphrase t) (dh_params_file t) (ca_file t) (min_version t) (session_cache t) (require_client_cert t).
Definition tls_put_key (t : TlsConfig) v := Build_TlsConfig (cert_file t) v (key_passphrase t) (dh_params_file t) (ca_file t) (min_version t) (session_cache t) (require_client_cert t).
Definition tls_put_passphrase (t : TlsConfig) v := Build_TlsConfig (cert_file t) (key_file t) v (dh_params_file t) (ca_file t) (min_version t) (session_cache t) (require_client_cert t).
Definition tls_put_dh (t : TlsConfig) v := Build_TlsConfig (cert_file t) (key_file t) (key_passphrase t) v (ca_file t) (min_version t) (session_cache t) (require_client_cert t).
Definition tls_put_ca (t : TlsConfig) v := Build_TlsConfig (cert_file t) (key_file t) (key_passphrase t) (dh_params_file t) v (min_version t) (session_cache t) (require_client_cert t).
Definition tls_put_version (t : TlsConfig) v := Build_TlsConfig (cert_file t) (key_file t) (key_passphrase t) (dh_params_file t) (ca_file t) v (session_cache t) (require_client_cert t).
Definition tls_put_cache (t : TlsConfig) v := Build_TlsConfig (cert_file t) (key_file t) (key_passphrase t) (dh_params_file t) (ca_file t) (min_version t) v (require_client_cert t).
Definition tls_put_require (t : TlsConfig) v := Build_TlsConfig (cert_file t) (key_file t) (key_passphrase t) (dh_params_file t) (ca_file t) (min_version t) (session_cache t) v.

Definition tls_fields : list (Field (J := J) TlsConfig) :=
  [field cert_file tls_put_cert (B "cert_file") Normal string_codec;
   field key_file tls_put_key (B "key_file") Normal string_codec;
   field key_passphrase tls_put_passphrase (B "key_passphrase") Secret string_codec;
   field dh_params_file tls_put_dh (B "dh_params_file") Normal string_codec;
   field ca_file tls_put_ca (B "ca_file") Normal string_codec;
   field min_version tls_put_version (B "min_version") Normal min_version_codec;
   field session_cache tls_put_cache (B "session_cache") Normal bool_codec;
   field require_client_cert tls_put_require (B "require_client_cert") Normal bool_codec].

Definition tls_type : ConfigType (J := J) TlsConfig :=
  {| fields := tls_fields; validate := tls_validate; builder := tls_default; finalize := tls_finalize |}.

Definition listener_put_tls (l : ListenerConfig) (v : option TlsConfig) : ListenerConfig :=
  Build_ListenerConfig (bind_address l) (port l) (transport l) (protocols l) v.

Definition listener_fields : list (Field (J := J) ListenerConfig) :=
  [field bind_address listener_set_bind_address (B "bind") Normal string_codec;
   field port listener_set_port (B "port") Normal (unsigned_codec u16_codec);
   field transport listener_set_transport (B "transport") Normal transport_codec;
   field protocols listener_set_protocols (B "protocols") Normal (vector_codec protocol_codec Protocol.http1);
   field listener_tls listener_put_tls (B "tls") Normal (optional_nested_codec tls_type)].

Definition listener_type : ConfigType (J := J) ListenerConfig :=
  {| fields := listener_fields; validate := listener_validate; builder := listener_default; finalize := listener_finalize |}.

Definition server_put_listeners (c : ServerConfig) v := Build_ServerConfig v (threads c) (timeouts c) (body_limit c) (request_arena_size c) (drain_timeout c) (path_normalization c).
Definition server_put_arena (c : ServerConfig) v := Build_ServerConfig (cfg_listeners c) (threads c) (timeouts c) (body_limit c) v (drain_timeout c) (path_normalization c).
Definition server_put_drain (c : ServerConfig) v := Build_ServerConfig (cfg_listeners c) (threads c) (timeouts c) (body_limit c) (request_arena_size c) v (path_normalization c).
Definition server_put_normalization (c : ServerConfig) v := Build_ServerConfig (cfg_listeners c) (threads c) (timeouts c) (body_limit c) (request_arena_size c) (drain_timeout c) v.

Definition server_fields : list (Field (J := J) ServerConfig) :=
  [field cfg_listeners server_put_listeners (B "listeners") Normal (vector_nested_codec listener_type);
   field threads server_set_threads (B "threads") Normal (unsigned_codec size_codec);
   field timeouts server_set_timeouts (B "timeouts") Normal (nested_codec timeouts_type);
   field body_limit server_set_body_limit (B "body_limit") Normal (unsigned_codec size_codec);
   field request_arena_size server_put_arena (B "request_arena_size") Normal (unsigned_codec size_codec);
   field drain_timeout server_put_drain (B "drain_timeout_ms") Normal duration_codec;
   field path_normalization server_put_normalization (B "path_normalization") Normal normalization_codec].

Definition server_type : ConfigType (J := J) ServerConfig :=
  {| fields := server_fields; validate := server_validate; builder := server_config_default; finalize := server_finalize |}.

(** ** Loading and dumping *)
Definition dump_server_config (cfg : ServerConfig) : result exn J := serialize server_type cfg.

Inductive ConfigError :=
| ConfigFileError (path reason : bytes)
| ConfigParseError (path : bytes) (line : Z) (detail : bytes)
| ConfigSchemaError (path field_path detail : bytes).

(** jsoncpp formats parse failures as ["* Line 3, Column 5\n  ..."]. *)
Definition parse_error_line (errs : bytes) : Z :=
  match find_sub (B "Line ") errs 0%nat with
  | None => 0
  | Some pos => match from_chars false 0 (2 ^ 64 - 1) (drop (pos + 5)%nat errs) with Some (line, _) => line | None => 0 end
  end.

(** What the file system and the parser answer. *)
Record Environment := {
  is_regular_file : bytes -> bool * option bytes;      (* and the message of the error code, when it is set *)
  open_file : bytes -> result bytes bytes;             (* [errno]'s message, or the contents *)
  parse_stream : bytes -> result exn (result bytes J)  (* [errs], or the root *)
}.

Definition load_server_config (env : Environment) (path : bytes) : result exn (result ConfigError ServerConfig) :=
  match is_regular_file env path with
  | (false, ec) => Ok (Err (ConfigFileError path (default (B "not a regular file") ec)))
  | (true, _) =>
      match open_file env path with
      | Err m => Ok (Err (ConfigFileError path m))
      | Ok contents =>
          parsed ← parse_stream env contents;
          match parsed with
          | Err errs => Ok (Err (ConfigParseError path (parse_error_line errs) errs))
          | Ok root =>
              if negb (is_object root) then Ok (Err (ConfigSchemaError path [] (B "top-level JSON value must be an object")))
              else match deserialize server_type root with
                   | Ok c => Ok (Ok c)
                   | Err (JsonError w) => Ok (Err (ConfigSchemaError path [] (B "type mismatch: " ++ w)))
                   | Err (InvalidArgument w) => Ok (Err (ConfigSchemaError path [] w))
                   | Err e => Err e
                   end
          end
      end
  end.

End config_json.

(** The three [to_http_response] overloads. *)
Definition config_error_response {F : Type} `{BeastFields F} (e : ConfigError) : result exn (Response F) :=
  match e with
  | ConfigFileError path reason => rf_internal_error (B "Config file error: " ++ path ++ B ": " ++ reason)
  | ConfigParseError path line detail =>
      rf_internal_error (B "Config parse error: " ++ path ++ B " line " ++ to_decimal (Z.to_N line) ++ B ": " ++ detail)
  | ConfigSchemaError path field_path detail =>
      rf_internal_error (B "Config schema error: " ++ path ++
        (if bool_decide (field_path = []) then [] else B " field " ++ field_path) ++ B ": " ++ detail)
  end.

(** ** What goes through a document *)

(** The passphrase is a secret: it is not dumped. *)
Definition without_passphrase (t : TlsConfig) : TlsConfig := tls_put_passphrase t [].
Definition listener_without_passphrase (l : ListenerConfig) : ListenerConfig :=
  listener_put_tls l (without_passphrase <$> listener_tls l).
Definition without_passphrases (c : ServerConfig) : ServerConfig :=
  server_put_listeners c (listener_without_passphrase <$> cfg_listeners c).

(** The ranges of the members' C++ types. *)
Definition timeouts_in_range (t : Timeouts) : Prop :=
  - 2 ^ 63 <= timeouts_header t < 2 ^ 63 /\ - 2 ^ 63 <= timeouts_body t < 2 ^ 63 /\ - 2 ^ 63 <= timeouts_idle t < 2 ^ 63.
Definition in_range (c : ServerConfig) : Prop :=
  Z.of_N (threads c) < 2 ^ 64 /\ Z.of_N (body_limit c) < 2 ^ 64 /\ Z.of_N (request_arena_size c) < 2 ^ 64 /\
  - 2 ^ 63 <= drain_timeout c < 2 ^ 63 /\ timeouts_in_range (timeouts c) /\
  Forall (fun l => Z.of_N (port l) < 2 ^ 16) (cfg_listeners c).

Section facts.
Context {J : Type} `{JL : JsonLib J, !JsonLaws J}.

(** Own overloads write a string under the key and read it back by name. *)
Lemma own_reads_back {T} (write : J -> bytes -> T -> J) read (name : T -> bytes) v :
  (forall out k, write out k v = jset out k (jstring (name v))) ->
  (forall inp k d, jfind inp k = Ok (Some (jstring (name v))) -> read inp k d = Ok (true, v)) ->
  reads_back (own_codec write read) v (Some v).
Proof.
  intros Hw Hr. apply (set_reads_back _ _ _ (jstring (name v))); [intros; cbn; by rewrite Hw|].
  intros inp k d E. cbn. rewrite E. cbn. by apply Hr.
Qed.

Lemma protocol_reads_back v : reads_back protocol_codec v (Some v).
Proof. destruct v; apply (own_reads_back _ _ Protocol.to_string_view); try done; intros inp k d E; unfold read_protocol; cbn; rewrite E; cbn; by rewrite string_back. Qed.

Lemma transport_reads_back v : reads_back transport_codec v (Some v).
Proof. destruct v; apply (own_reads_back _ _ Transport.to_string_view); try done; intros inp k d E; unfold read_transport; cbn; rewrite E; cbn; by rewrite string_back. Qed.

Lemma min_version_reads_back v : reads_back min_version_codec v (Some v).
Proof. destruct v; apply (own_reads_back _ _ MinVersion.to_string_view); try done; intros inp k d E; unfold read_min_version; cbn; rewrite E; cbn; by rewrite string_back. Qed.

Lemma normalization_reads_back v : reads_back normalization_codec v (Some v).
Proof. destruct v; apply (own_reads_back _ _ ConfigNormalization.to_string_view); try done; intros inp k d E; unfold read_normalization; cbn; rewrite E; cbn; by rewrite string_back. Qed.

Lemma unsigned_reads_back (c : codec (J := J) Z) v : reads_back c (Z.of_N v) (Some (Z.of_N v)) -> reads_back (unsigned_codec c) v (Some v).
Proof.
  intros Hc out k Ho. destruct (Hc out k Ho) as (out' & Hw & Hf & Hk & j & -> & Hr). exists (jset out k j). split_and!; try done.
  exists j. split; [done|]. intros inp k0 d E. cbn. rewrite (Hr inp k0 _ E). cbn. by rewrite N2Z.id.
Qed.


Lemma field_written {C T} (get : C -> T) put name (c : codec (J := J) T) d v :
  reads_back c (get d) (Some v) -> field_back d (field get put name Normal c) (fun b => put b v).
Proof. intros Hc. by apply (normal_back d (field get put name Normal c) v). Qed.

Lemma protocols_read_back ps : reads_back (vector_codec protocol_codec Protocol.http1) ps (Some ps).
Proof. apply vector_reads_back. induction ps; constructor; [apply protocol_reads_back|done]. Qed.

(** *** The four classes *)
Lemma timeouts_back t : timeouts_validate t = Ok tt -> timeouts_in_range t -> type_back timeouts_type t t.
Proof.
  intros Hv (Hh & Hb & Hi). edestruct (serialize_roundtrip timeouts_type t) as (j & Hs & _ & Hd); [exact Hv| | |].
  - repeat (apply Forall2_cons; split; [by apply normal_back, duration_reads_back|]). by apply Forall2_nil.
  - by apply (bool_decide_unpack _).
  - exists j. split; [done|]. rewrite Hd. trans (timeouts_finalize t); [by destruct t|]. unfold timeouts_finalize. by rewrite Hv.
Qed.

(** What [validate] checks of the TLS block does not involve the passphrase. *)
Lemma tls_validate_without t : tls_validate (without_passphrase t) = tls_validate t.
Proof. by destruct t. Qed.

Lemma tls_back t : tls_validate t = Ok tt -> type_back tls_type t (without_passphrase t).
Proof.
  intros Hv. edestruct (serialize_roundtrip tls_type t) as (j & Hs & _ & Hd); [exact Hv| | |].
  - do 2 (apply Forall2_cons; split; [by apply normal_back, string_reads_back|]).
    apply Forall2_cons; split; [apply secret_back; [done|by intros []|intros inp k d; apply read_present_absent]|].
    do 2 (apply Forall2_cons; split; [by apply normal_back, string_reads_back|]).
    apply Forall2_cons; split; [by apply normal_back, min_version_reads_back|].
    do 2 (apply Forall2_cons; split; [by apply normal_back, bool_reads_back|]). by apply Forall2_nil.
  - by apply (bool_decide_unpack _).
  - exists j. split; [done|]. rewrite Hd. trans (tls_finalize (without_passphrase t)); [by destruct t|]. unfold tls_finalize.
    by rewrite tls_validate_without, Hv.
Qed.

Lemma listener_validate_tls l t : listener_validate l = Ok tt -> listener_tls l = Some t -> tls_validate t = Ok tt.
Proof.
  unfold listener_validate. intros Hv Ht. rewrite Ht in Hv. repeat (case_match; try done); by simplify_eq/=.
Qed.

Lemma listener_validate_without l : listener_validate (listener_without_passphrase l) = listener_validate l.
Proof. destruct l as [b p tr ps [t|]]; [|done]. unfold listener_validate. cbn. by rewrite tls_validate_without. Qed.

Lemma listener_back l :
  listener_validate l = Ok tt -> Z.of_N (port l) < 2 ^ 16 -> type_back listener_type l (listener_without_passphrase l).
Proof.
  intros Hv Hp. edestruct (serialize_roundtrip listener_type l) as (j & Hs & _ & Hd); [exact Hv| | |].
  - apply Forall2_cons; split; [by apply normal_back, string_reads_back|].
    apply Forall2_cons; split; [apply normal_back, unsigned_reads_back, u16_reads_back; [done|cbn; lia]|].
    apply Forall2_cons; split; [by apply normal_back, transport_reads_back|].
    apply Forall2_cons; split.
    { apply field_written, protocols_read_back. }
    apply Forall2_cons; split; [|by apply Forall2_nil].
    instantiate (1 := fun b => match listener_tls l with Some t => listener_put_tls b (Some (without_passphrase t)) | None => b end).
    destruct (listener_tls l) as [t|] eqn:Et.
    + apply field_written. rewrite Et. by apply optional_nested_reads_back, tls_back, (listener_validate_tls l).
    + apply unwritten_back; [done|by intros []|intros inp k d; apply read_present_absent|]. cbn. rewrite Et. apply optional_nested_none.
  - by apply (bool_decide_unpack _).
  - exists j. split; [done|]. rewrite Hd. trans (listener_finalize (listener_without_passphrase l)); [by destruct l as [? ? ? ? []]|].
    unfold listener_finalize. by rewrite listener_validate_without, Hv.
Qed.

Lemma validate_listeners_all ls : validate_listeners ls = Ok tt -> Forall (fun l => listener_validate l = Ok tt) ls.
Proof.
  induction ls as [|l ls IH]; [constructor|]. cbn. destruct (listener_validate l) as [[]|] eqn:E; [|done]. intros H. constructor; auto.
Qed.

Lemma validate_listeners_without ls : validate_listeners (listener_without_passphrase <$> ls) = validate_listeners ls.
Proof. induction ls as [|l ls IH]; [done|]. cbn. rewrite listener_validate_without. by destruct (listener_validate l). Qed.

Lemma server_validate_without c : server_validate (without_passphrases c) = server_validate c.
Proof. unfold server_validate. cbn. by rewrite validate_listeners_without. Qed.

Lemma server_validate_parts c : server_validate c = Ok tt ->
  timeouts_validate (timeouts c) = Ok tt /\ Forall (fun l => listener_validate l = Ok tt) (cfg_listeners c).
Proof.
  unfold server_validate. intros Hv. repeat (case_match; try done). destruct (timeouts_validate _) as [[]|]; [|done].
  split; [done|]. by apply validate_listeners_all.
Qed.

Definition server_updates (c : ServerConfig) : list (ServerConfig -> ServerConfig) :=
  [fun b => server_put_listeners b (listener_without_passphrase <$> cfg_listeners c);
   fun b => server_set_threads b (threads c);
   fun b => server_set_timeouts b (timeouts c);
   fun b => server_set_body_limit b (body_limit c);
   fun b => server_put_arena b (request_arena_size c);
   fun b => server_put_drain b (drain_timeout c);
   fun b => server_put_normalization b (path_normalization c)].

Lemma listeners_read_back c : server_validate c = Ok tt -> in_range c ->
  reads_back (vector_nested_codec listener_type) (cfg_listeners c) (Some (listener_without_passphrase <$> cfg_listeners c)).
Proof.
  intros [_ Hl]%server_validate_parts (_ & _ & _ & _ & _ & Hp). apply vector_nested_reads_back, Forall2_fmap_r, Forall_Forall2_diag.
  induction Hl as [|l ls Hl _ IH]; [constructor|]. apply Forall_cons in Hp as []. constructor; [by apply listener_back|auto].
Qed.

Lemma server_fields_back c : server_validate c = Ok tt -> in_range c -> Forall2 (field_back c) server_fields (server_updates c).
Proof.
  intros Hv Hr. destruct (server_validate_parts c Hv) as [Ht _]. pose proof Hr as (H1 & H2 & H3 & H4 & H5 & _).
  repeat (apply Forall2_cons; split; [apply field_written|]); [| | | | | | |by apply Forall2_nil].
  - by apply listeners_read_back.
  - apply unsigned_reads_back, size_reads_back. lia.
  - by apply nested_reads_back, timeouts_back.
  - apply unsigned_reads_back, size_reads_back. lia.
  - apply unsigned_reads_back, size_reads_back. lia.
  - by apply duration_reads_back.
  - apply normalization_reads_back.
Qed.

Lemma server_back c : server_validate c = Ok tt -> in_range c ->
  exists j, dump_server_config c = Ok j /\ is_object j = true /\ deserialize server_type j = Ok (without_passphrases c).
Proof.
  intros Hv Hr. pose proof (server_fields_back c Hv Hr) as HF.
  assert (NoDup (f_name <$> fields server_type)) as HN by by apply (bool_decide_unpack _).
  destruct (serialize_roundtrip server_type c _ Hv HF HN) as (j & Hs & _ & Hd). exists j. split_and!; [done| |].
  - eapply (serialize_object server_type c _ _ _ j); [done|done| |exact HF|done|done]. eexists. by apply listeners_read_back.
  - rewrite Hd. trans (server_finalize (without_passphrases c)); [by destruct c|]. unfold server_finalize. by rewrite server_validate_without, Hv.
Qed.

(** C32. A valid server configuration, its members in the ranges of their types, dumps to a document;
    a file that parses to that document loads as the same configuration, less the TLS
    passphrases, which are secrets and are not written. *)
Theorem dump_load_roundtrip c : server_validate c = Ok tt -> in_range c ->
  exists j, dump_server_config c = Ok j /\
    forall env path contents ec, is_regular_file env path = (true, ec) -> open_file env path = Ok contents ->
      parse_stream env contents = Ok (Ok j) -> load_server_config env path = Ok (Ok (without_passphrases c)).
Proof.
  intros Hv Hr. destruct (server_back c Hv Hr) as (j & Hd & Ho & Hs). exists j. split; [done|].
  intros env path contents ec E1 E2 E3. unfold load_server_config. rewrite E1, E2, E3. cbn -[deserialize]. by rewrite Ho, Hs.
Qed.

End facts.

(** ** What the loader can throw *)

(** The exceptions that [load_server_config] turns into a [ConfigSchemaError]. *)
Definition config_exn (e : exn) : bool := match e with JsonError _ | InvalidArgument _ => true | _ => false end.
Definition tame {A} (r : result exn A) : Prop := match r with Ok _ => True | Err e => config_exn e = true end.

(** JsonCpp's accessors throw [Json::Exception]s. *)
Class JsonThrows (J : Type) `{JsonLib J} := {
  find_tame j k : tame (jfind j k);
  as_string_tame j : tame (as_string j);
  as_int64_tame j : tame (as_int64 j);
  as_uint_tame j : tame (as_uint j);
  as_uint64_tame j : tame (as_uint64 j);
  as_bool_tame j : tame (as_bool j)
}.

Create HintDb tame.

Section throws.
Context {J : Type} `{JL : JsonLib J, !JsonThrows J}.

Lemma tame_bind {A B} (r : result exn A) (f : A -> result exn B) : tame r -> (forall x, tame (f x)) -> tame (r ≫= f).
Proof. destruct r; [intros _ Hf; apply Hf|by intros]. Qed.

Lemma tame_ok {A} (x : A) : tame (Ok x).
Proof. done. Qed.

Hint Resolve find_tame as_string_tame as_int64_tame as_uint_tame as_uint64_tame as_bool_tame tame_ok : tame.

Definition tame_codec {T} (c : codec (J := J) T) : Prop := forall inp k d, tame (read_field c inp k d).

Lemma read_present_tame {T} (f : J -> result exn T) inp k d : (forall j, tame (f j)) -> tame (read_present f inp k d).
Proof. intros Hf. apply tame_bind; [auto with tame|]. intros [j|]; [apply tame_bind; auto with tame|done]. Qed.

Lemma scalar_tame {T} (make : T -> J) f : (forall j, tame (f j)) -> tame_codec (scalar_codec make f).
Proof. intros Hf inp k d. by apply read_present_tame. Qed.

Lemma u16_tame : tame_codec (unsigned_codec u16_codec).
Proof.
  intros inp k d. apply tame_bind; [|done]. apply read_present_tame. intros j. apply tame_bind; [auto with tame|].
  intros raw. by case_match.
Qed.

Lemma unsigned_tame c : tame_codec c -> tame_codec (unsigned_codec c).
Proof. intros Hc inp k d. apply tame_bind; [apply Hc|done]. Qed.

Lemma own_tame {T} w (r : J -> bytes -> T -> result exn (bool * T)) : (forall inp k d, tame (r inp k d)) -> tame_codec (own_codec w r).
Proof. intros Hr inp k d. apply tame_bind; auto with tame. Qed.

Ltac read_tame :=
  apply own_tame; intros inp k d; unfold read_protocol, read_transport, read_min_version, read_normalization; case_match; [done|];
  apply tame_bind; [apply tame_bind; auto with tame|]; intros raw; repeat case_match; done.

Lemma protocol_tame : tame_codec protocol_codec.
Proof. read_tame. Qed.
Lemma transport_tame : tame_codec transport_codec.
Proof. read_tame. Qed.
Lemma min_version_tame : tame_codec min_version_codec.
Proof. read_tame. Qed.
Lemma normalization_tame : tame_codec normalization_codec.
Proof. read_tame. Qed.

Lemma vector_tame {T} (c : codec T) blank : tame_codec c -> tame_codec (vector_codec c blank).
Proof.
  intros Hc inp k d. apply read_present_tame. intros arr. destruct (elements arr) as [xs|]; [|done].
  induction xs as [|x xs IH]; [done|]. apply tame_bind; [apply Hc|]. intros [p y]. by apply tame_bind.
Qed.

(** Every field read by tame codecs, and a tame [finalize]. *)
Lemma deserialize_tame {C} (t : ConfigType C) j :
  Forall (fun f => tame_codec (f_codec f)) (fields t) -> (forall b, tame (finalize t b)) -> tame (deserialize t j).
Proof.
  intros HF Hfin. apply tame_bind; [|done]. generalize (builder t). induction HF as [|f fs Hf _ IH]; intros b; [done|].
  apply tame_bind; [|done]. unfold deserialize_one_field. case_match; try done; (apply tame_bind; [apply Hf|done]).
Qed.

Lemma mapM_tame {A B} (f : A -> result exn B) l : (forall x, tame (f x)) -> tame (mapM f l).
Proof. intros Hf. induction l as [|x l IH]; [done|]. apply tame_bind; [done|]. intros y. by apply tame_bind. Qed.

Hint Resolve u16_tame protocol_tame transport_tame min_version_tame normalization_tame vector_tame : tame.

Lemma timeouts_tame j : tame (deserialize timeouts_type j).
Proof.
  apply deserialize_tame; [repeat constructor; apply scalar_tame; auto with tame|].
  intros b. cbn. unfold timeouts_finalize, timeouts_validate. by repeat case_match.
Qed.

Lemma tls_validate_tame t : tame (tls_validate t).
Proof. unfold tls_validate. by repeat case_match. Qed.

Lemma tls_tame j : tame (deserialize tls_type j).
Proof.
  apply deserialize_tame; [repeat constructor; try apply scalar_tame; cbn; auto with tame|].
  intros b. apply tame_bind; [apply tls_validate_tame|done].
Qed.

Lemma listener_validate_tame l : tame (listener_validate l).
Proof. unfold listener_validate. repeat (case_match; try done; cbn); apply tls_validate_tame. Qed.

Lemma listener_tame j : tame (deserialize listener_type j).
Proof.
  apply deserialize_tame; [repeat constructor; cbn; auto with tame|].
  - apply scalar_tame; auto with tame.
  - intros inp k d. apply read_present_tame. intros x. apply tame_bind; [apply tls_tame|done].
  - intros b. apply tame_bind; [apply listener_validate_tame|done].
Qed.

Lemma server_validate_tame c : tame (server_validate c).
Proof.
  unfold server_validate. repeat (case_match; [done|]). apply tame_bind; [unfold timeouts_validate; by repeat case_match|].
  intros _. induction (cfg_listeners c); [done|]. apply tame_bind; [apply listener_validate_tame|done].
Qed.

Lemma server_tame j : tame (deserialize server_type j).
Proof.
  apply deserialize_tame; [repeat constructor; cbn; auto with tame|].
  all: try (apply unsigned_tame); try (apply scalar_tame; auto with tame).
  - intros inp k d. apply read_present_tame. intros arr. case_match; [|done]. apply mapM_tame, listener_tame.
  - intros inp k d. apply read_present_tame. intros x. apply timeouts_tame.
  - intros b. apply tame_bind; [apply server_validate_tame|done].
Qed.

Lemma deserialized_valid (j : J) c : deserialize server_type j = Ok c -> server_validate c = Ok tt.
Proof.
  unfold deserialize. destruct (deserialize_fields _ _ _) as [b|]; [|done]. cbn. unfold server_finalize.
  destruct (server_validate b) as [[]|] eqn:E; cbn; intros; by simplify_eq.
Qed.

(** C33. When the parser does not throw, the loader returns a value: a configuration that passes
    [validate], or one of the three errors, each naming the path it was given. *)
Theorem load_outcome (env : Environment (J := J)) path : (forall s, exists r, parse_stream env s = Ok r) ->
  exists r, load_server_config env path = Ok r /\
    match r with
    | Ok c => server_validate c = Ok tt
    | Err (ConfigFileError p _) | Err (ConfigParseError p _ _) | Err (ConfigSchemaError p _ _) => p = path
    end.
Proof.
  intros Hparse. unfold load_server_config. destruct (is_regular_file env path) as [[] ec]; [|by eexists].
  destruct (open_file env path) as [contents|m]; [|by eexists]. destruct (Hparse contents) as [[root|errs] ->]; [|by eexists].
  cbn -[deserialize]. destruct (is_object root); [|by eexists]. pose proof (server_tame root) as Ht.
  destruct (deserialize server_type root) as [c|[]] eqn:E; try done; cbn; [|by eexists..].
  eexists. split; [done|]. by eapply deserialized_valid.
Qed.

End throws.

(** Every configuration error renders, as a 500. *)
Lemma config_error_is_500 {F : Type} `{BeastFields F} e :
  exists r : Response F, config_error_response e = Ok r /\ resp_status r = HttpStatus.internal_server_error.
Proof. destruct e; eexists; split; reflexivity. Qed.

(** ** A JSON value type *)
Module Value.
Inductive t :=
| Null | Bool (b : bool) | Int (z : Z) | UInt (z : Z) | Str (s : bytes) | Arr (items : list t) | Obj (members : list (bytes * t)).

Fixpoint lookup (m : list (bytes * t)) (k : bytes) : option t :=
  match m with [] => None | (k', v) :: m => if bool_decide (k = k') then Some v else lookup m k end.

Definition mismatch {A} : result exn A := Err (JsonError (B "Value is not convertible")).

#[global] Instance lib : JsonLib t := {
  jnull := Null; jobject := Obj []; jstring := Str; jint := Int; juint := UInt; jbool := Bool; jarray := Arr;
  is_object j := match j with Obj _ => true | _ => false end;
  jfind j k := match j with Null => Ok None | Obj m => Ok (lookup m k) | _ => mismatch end;
  jset j k v := match j with Obj m => Obj ((k, v) :: m) | _ => Obj [(k, v)] end;
  as_string j := match j with Str s => Ok s | _ => mismatch end;
  as_int j := match j with Int z | UInt z => if bool_decide (- 2 ^ 31 <= z < 2 ^ 31) then Ok z else mismatch | _ => mismatch end;
  as_int64 j := match j with Int z | UInt z => if bool_decide (- 2 ^ 63 <= z < 2 ^ 63) then Ok z else mismatch | _ => mismatch end;
  as_uint j := match j with Int z | UInt z => if bool_decide (0 <= z < 2 ^ 32) then Ok z else mismatch | _ => mismatch end;
  as_uint64 j := match j with Int z | UInt z => if bool_decide (0 <= z < 2 ^ 64) then Ok z else mismatch | _ => mismatch end;
  as_bool j := match j with Bool b => Ok b | _ => mismatch end;
  elements j := match j with Arr l => Some l | _ => None end;
  member_names j := match j with Null => Ok [] | Obj m => Ok (map fst m) | _ => mismatch end
}.

#[global] Instance laws : JsonLaws t.
Proof.
  refine {| fillable j := match j with Null | Obj _ => True | _ => False end |}; try done.
  - by intros [].
  - intros [] k v Ho; try done; cbn; by rewrite bool_decide_true.
  - intros [] k k' v Ho Hk; try done; cbn; by rewrite bool_decide_false.
  - by intros [].
  - intros z Hz. cbn. by rewrite bool_decide_true.
  - intros z Hz. cbn. by rewrite bool_decide_true.
  - intros z Hz. cbn. rewrite bool_decide_true; [done|lia].
  - intros z Hz. cbn. by rewrite bool_decide_true.
Qed.

#[global] Instance names : JsonNames t.
Proof.
  split; [done|]. intros [] k v ns Ho Hn; cbn in *; simplify_eq/=; try done; eexists; (split; [done|]); set_solver.
Qed.

#[global] Instance throws : JsonThrows t.
Proof. split; intros j; try intros k; destruct j; cbn; by try case_match. Qed.
End Value.

(** A configuration with a TLS listener, a secret and an explicit protocol list. *)
Definition sample : ServerConfig :=
  server_add_listener (server_add_listener server_config_default listener_default)
    (Build_ListenerConfig (B "::1") 8443 Transport.tls [Protocol.http2; Protocol.http1]
      (Some (tls_put_passphrase (tls_put_key (tls_put_cert tls_default (B "c.pem")) (B "k.pem")) (B "hunter2")))).

Lemma sample_in_range : in_range sample.
Proof. unfold in_range, timeouts_in_range. cbn. split_and!; try lia. repeat constructor; cbn; lia. Qed.

Lemma dump_load_roundtrip_witness :
  exists j : Value.t, dump_server_config sample = Ok j /\
    load_server_config {| is_regular_file _ := (true, None); open_file _ := Ok []; parse_stream _ := Ok (Ok j) |} (B "s.json")
      = Ok (Ok (without_passphrases sample)).
Proof.
  destruct (dump_load_roundtrip (J := Value.t) sample) as (j & Hd & Hl); [by vm_compute|exact sample_in_range|].
  exists j. split; [exact Hd|]. by eapply Hl.
Defined.

Lemma load_outcome_witness : exists r,
  load_server_config (J := Value.t) {| is_regular_file _ := (true, None); open_file _ := Ok (B "["); parse_stream _ := Ok (Err (B "* Line 3, Column 5")) |} (B "s.json") = Ok r
  /\ r = Err (ConfigParseError (B "s.json") 3 (B "* Line 3, Column 5")).
Proof.
  edestruct (load_outcome (J := Value.t) {| is_regular_file _ := (true, None); open_file _ := Ok (B "["); parse_stream _ := Ok (Err (B "* Line 3, Column 5")) |} (B "s.json")) as (r & Hr & _).
  - intros s. by eexists.
  - exists r. split; [exact Hr|]. cbn in Hr. injection Hr as <-. by vm_compute.
Defined.
