(* ===== verification/Server.v ===== *)
(** * Server lifecycle, connection tracking and the accept loops
      ([server/server], [listeners/*], [chrono_utils.hpp])

    Concurrency is explicit: the shared atomics are fields of a state, every
    thread has a program counter, and one step is one atomic access, in any
    interleaving. *)

From S2P Require Import Prelude Clock Url Headers HttpTypes Routing RequestContext Router Http11 Config.

(** ** The connection tracker *)
Module ConnectionTracker.

(** What the sweep and the drain see of an entry: whether its [weak_ptr] still
    locks, and the deadline it then reads. *)
Record Entry := { conn : nat; alive : bool; deadline : Z }.

(** [releasing] counts the handles between the erase (under the lock) and the
    decrement that follows it. *)
Record State := { in_flight : nat; stop : bool; entries : list Entry; releasing : nat; next_conn : nat }.

Definition init : State := {| in_flight := 0; stop := false; entries := []; releasing := 0; next_conn := 0 |}.

Definition register_connection (s : State) (dl : Z) : State :=
  {| in_flight := S (in_flight s); stop := stop s;
     entries := entries s ++ [{| conn := next_conn s; alive := true; deadline := dl |}];
     releasing := releasing s; next_conn := S (next_conn s) |}.

(** The two atomic actions of [Handle::release] for the entry of connection [c]. *)
Definition release_erase (s : State) (c : nat) : State :=
  {| in_flight := in_flight s; stop := stop s; entries := filter (fun e => conn e <> c) (entries s);
     releasing := S (releasing s); next_conn := next_conn s |}.

Definition release_decrement (s : State) : State :=
  {| in_flight := in_flight s - 1; stop := stop s; entries := entries s;
     releasing := releasing s - 1; next_conn := next_conn s |}.

Definition stop_tracker (s : State) : State :=
  {| in_flight := in_flight s; stop := true; entries := entries s; releasing := releasing s; next_conn := next_conn s |}.

(** One tick of [sweep]: the connections it cancels, or [None] when it exits. *)
Definition sweep_tick (s : option State) (timer_error : bool) (now : Z) : option (list nat) :=
  match s with
  | None => None
  | Some s =>
      if stop s || timer_error then None
      else Some (conn <$> filter (fun e => alive e = true /\ (deadline e <= now)%Z) (entries s))
  end.

(** The poll of [drain_until], over the successive observations of the counter
    and the clock; the survivors are then cancelled. *)
Fixpoint drain_poll (dl : Z) (samples : list (nat * Z)) : option nat :=
  match samples with
  | [] => None
  | (n, now) :: samples => if (0 <? n) && (now <? dl)%Z then S <$> drain_poll dl samples else Some 0
  end.

Definition drain_cancels (s : State) : list nat := conn <$> filter (fun e => alive e = true) (entries s).

(** Any interleaving of registrations and releases: a handle erases its own
    entry once, later it decrements the counter. *)
Inductive step : State -> State -> Prop :=
| step_register s dl : step s (register_connection s dl)
| step_erase s e : e ∈ entries s -> step s (release_erase s (conn e))
| step_decrement s : 0 < releasing s -> step s (release_decrement s)
| step_stop s : step s (stop_tracker s)
| step_deadline s e dl : e ∈ entries s ->      (* [set_deadline_after] on a live connection *)
    step s {| in_flight := in_flight s; stop := stop s;
              entries := (fun x => if decide (conn x = conn e) then {| conn := conn x; alive := alive x; deadline := dl |} else x) <$> entries s;
              releasing := releasing s; next_conn := next_conn s |}.

Record inv (s : State) : Prop := {
  inv_count : in_flight s = length (entries s) + releasing s;
  inv_nodup : NoDup (conn <$> entries s);
  inv_fresh : Forall (fun e => conn e < next_conn s) (entries s);
}.

End ConnectionTracker.

(** ** The accept loop ([TcpListener::run], [TlsListener::run]) *)

(** What the loop meets: the cancellation state at its top, or the outcome of
    one [async_accept]. *)
Inductive accept_event := Cancelled | Accepted | Aborted | Fatal | Transient.

Record AcceptLoop := {
  next_exec : nat;
  consecutive_errors : N;      (* [unsigned], 32 bits *)
  accepts_on : list nat;       (* the executor each [async_accept] was started on *)
  served_on : list nat;        (* the executor of each connection handed to a driver *)
  sleeps : list Z;             (* the backoff waits *)
  acceptor_open : bool;
}.

Definition accept_loop_start : AcceptLoop :=
  {| next_exec := 0; consecutive_errors := 0; accepts_on := []; served_on := []; sleeps := []; acceptor_open := true |}.

Definition uint32 (n : N) : N := n mod 2 ^ 32.

Definition close_acceptor (l : AcceptLoop) : AcceptLoop :=
  {| next_exec := next_exec l; consecutive_errors := consecutive_errors l; accepts_on := accepts_on l;
     served_on := served_on l; sleeps := sleeps l; acceptor_open := false |}.

(** One [async_accept]: the strand is taken and the index advanced before its outcome is known. *)
Definition begin_accept (execs : nat) (l : AcceptLoop) : nat * AcceptLoop :=
  (next_exec l,
   {| next_exec := (next_exec l + 1) mod execs; consecutive_errors := consecutive_errors l;
      accepts_on := accepts_on l ++ [next_exec l]; served_on := served_on l; sleeps := sleeps l;
      acceptor_open := acceptor_open l |}).

Definition accept_error (l : AcceptLoop) : AcceptLoop :=
  let n := uint32 (consecutive_errors l + 1) in
  {| next_exec := next_exec l; consecutive_errors := n; accepts_on := accepts_on l; served_on := served_on l;
     sleeps := if (2 <? n)%N then sleeps l ++ [exponential_backoff (n - 3) 1 1024] else sleeps l;
     acceptor_open := acceptor_open l |}.

Definition accept_ok (strand : nat) (l : AcceptLoop) : AcceptLoop :=
  {| next_exec := next_exec l; consecutive_errors := 0; accepts_on := accepts_on l; served_on := served_on l ++ [strand];
     sleeps := sleeps l; acceptor_open := acceptor_open l |}.

(** The loop over a finite script; running out of script leaves it waiting in [async_accept]. *)
Fixpoint run (execs : nat) (events : list accept_event) (l : AcceptLoop) : AcceptLoop :=
  match events with
  | [] => l
  | Cancelled :: _ => close_acceptor l
  | ev :: events =>
      let '(strand, l) := begin_accept execs l in
      match ev with
      | Aborted | Fatal => close_acceptor l
      | Transient => run execs events (accept_error l)
      | _ => run execs events (accept_ok strand l)
      end
  end.

(** ** ALPN *)

(** [append_alpns]: [static_cast<char>(alpn.size())] and the id. *)
Definition append_alpn (wire alpn : bytes) : bytes := wire ++ [ascii_of_nat (length alpn)] ++ alpn.

Definition build_alpn_wire (alpns : list bytes) : bytes := fold_left append_alpn alpns [].

(** Reference: reading a length-prefixed list back. *)
Fixpoint parse_alpn (fuel : nat) (wire : bytes) : option (list bytes) :=
  match fuel, wire with
  | _, [] => Some []
  | 0, _ => None
  | S fuel, n :: wire =>
      if decide (code n <= length wire) then cons (take (code n) wire) <$> parse_alpn fuel (drop (code n) wire) else None
  end.

(** [try_serve<I>]: the first driver whose [id()] is the negotiated protocol. *)
Fixpoint try_serve (drivers : list Driver) (proto : Protocol.t) : option Driver :=
  match drivers with
  | [] => None
  | d :: drivers => if decide (driver_id d = proto) then Some d else try_serve drivers proto
  end.

(** ** Setup *)
Inductive server_error :=
| ServerLogicError (what : bytes)
| ServerInvalidArgument (what : bytes)
| RouteConflictAggregate (cs : list RouteConflictError)
| ListenerBindError (failures : list bytes).

Definition bind_error_message (failures : list bytes) : bytes :=
  fold_left (fun msg f => msg ++ newline ++ B "  " ++ f) failures
    (to_decimal (N.of_nat (length failures)) ++ B " listener bind failure(s):").

Module Phase.
Inductive t := build | starting | running | stopping | stopped.
#[global] Instance eq_dec : EqDecision t.
Proof. solve_decision. Defined.
End Phase.

(** A listener as [setup] uses it: its address and the outcome of [bind()]. *)
Record BoundListener := { listener_address : bytes; listener_bind : result bytes unit }.

Record ServerState (H : Type) := {
  phase : Phase.t;
  srv_registry : RouteRegistry H;
  srv_listeners : list BoundListener;
  srv_observers : list nat;
}.
Arguments phase {H}.
Arguments srv_registry {H}.
Arguments srv_listeners {H}.
Arguments srv_observers {H}.

Section setup.
  Context {H : Type}.

Definition require_build (s : ServerState H) (what : bytes) : result server_error unit :=
  if decide (phase s = Phase.build) then Ok tt
  else Err (ServerLogicError (B "Server::" ++ what ++ B ": registration/setup after setup() (registry frozen)")).

Definition add_observer (s : ServerState H) (obs : option nat) : result server_error (ServerState H) :=
  _ ← require_build s (B "add_observer");
  match obs with
  | None => Err (ServerInvalidArgument (B "Server::add_observer: null observer"))
  | Some o => Ok {| phase := phase s; srv_registry := srv_registry s; srv_listeners := srv_listeners s;
                    srv_observers := srv_observers s ++ [o] |}
  end.

Definition add_listener (s : ServerState H) (what : bytes) (l : BoundListener) : result server_error (ServerState H) :=
  _ ← require_build s what;
  Ok {| phase := phase s; srv_registry := srv_registry s; srv_listeners := srv_listeners s ++ [l];
        srv_observers := srv_observers s |}.

(** The bind loop: every listener is tried. *)
Definition bind_all (ls : list BoundListener) : list bytes :=
  fold_left (fun failures l => match listener_bind l with
                               | Ok _ => failures
                               | Err what => failures ++ [listener_address l ++ em_dash ++ what]
                               end) ls [].

(** [setup()] up to the store of [starting]; the state is the one the call leaves. *)
Definition setup_begin (s : ServerState H) : result server_error unit * ServerState H :=
  match require_build s (B "setup") with
  | Err e => (Err e, s)
  | Ok _ =>
      if bool_decide (length (srv_listeners s) = 0) then (Err (ServerLogicError (B "Server::setup: no listeners added")), s)
      else
        let '(cs, registry) := freeze (srv_registry s) in
        let s := {| phase := phase s; srv_registry := registry; srv_listeners := srv_listeners s;
                    srv_observers := srv_observers s |} in
        if negb (bool_decide (length cs = 0)) then (Err (RouteConflictAggregate cs), s)
        else
          let failures := bind_all (srv_listeners s) in
          if negb (bool_decide (length failures = 0)) then
            (Err (ListenerBindError failures),
             {| phase := phase s; srv_registry := srv_registry s; srv_listeners := []; srv_observers := srv_observers s |})
          else (Ok tt, {| phase := Phase.starting; srv_registry := srv_registry s; srv_listeners := srv_listeners s;
                          srv_observers := srv_observers s |})
  end.

End setup.

(** ** Graceful shutdown *)
Inductive shutdown_event :=
| CancelAccept (listener : nat)
| AcceptLoopsDone
| Drained (listener : nat)
| Unwound
| ShutdownStarted (obs : nat)
| UnhandledException (obs : nat) (e : exn)
| ShutdownComplete (obs : nat)
| Latched.

Definition fan_unhandled_exception (observers : list nat) (e : exn) : list shutdown_event :=
  (fun o => UnhandledException o e) <$> observers.

(** [on_shutdown_started] of one observer, with what it throws if it does. *)
Definition shutdown_observer (observers : list nat) (throws : nat -> option exn) (o : nat) : list shutdown_event :=
  ShutdownStarted o :: match throws o with Some e => fan_unhandled_exception observers e | None => [] end.

(** The events of [graceful_shutdown]; [early] is an exception out of phase 1.5
    to 2.5 (the number of events of those phases that had happened, and the
    exception). *)
Definition graceful_shutdown (listeners observers : list nat) (throws : nat -> option exn) (early : option (nat * exn))
    : list shutdown_event :=
  let phase1 := CancelAccept <$> listeners in
  let waiting := [AcceptLoopsDone] ++ (Drained <$> listeners) ++ [Unwound] in
  let observing := (observers ≫= shutdown_observer observers throws) ++ (ShutdownComplete <$> observers) in
  phase1 ++
  match early with
  | Some (n, e) => take n waiting ++ fan_unhandled_exception observers e
  | None => waiting ++ observing
  end ++ [Latched].

(** ** [setup] against concurrent [stop]s *)
Module Lifecycle.

(** The program counter of one [stop()] call: before its first CAS; having seen
    [starting]; before its second CAS; having won the second CAS; about to spawn
    the shutdown; returned; returned with its request latched for [setup]. *)
Inductive stop_pc := StopEntry | StopLatch | StopRecheck | StopClear | StopBegin | StopDone | StopLatched.

(** [setup()]: not begun; [starting] stored; [running] stored; inside its own
    call of [stop()]; returned. *)
Inductive setup_pc := SetupBuild | SetupStarting | SetupRunning | SetupStops (pc : stop_pc) | SetupDone.

Record State := {
  mode : Phase.t;
  stop_requested : bool;
  begun : nat;                    (* shutdown coroutines spawned *)
  setup : setup_pc;
  stops : list stop_pc;           (* the [stop()] calls made so far *)
}.

Definition init : State :=
  {| mode := Phase.build; stop_requested := false; begun := 0; setup := SetupBuild; stops := [] |}.

(** One atomic access of a [stop()] call. *)
Definition stop_step (pc : stop_pc) (s : State) : stop_pc * State :=
  let upd m r b := {| mode := m; stop_requested := r; begun := b; setup := setup s; stops := stops s |} in
  match pc with
  | StopEntry =>
      match mode s with
      | Phase.running => (StopBegin, upd Phase.stopping (stop_requested s) (begun s))
      | Phase.starting => (StopLatch, s)
      | _ => (StopDone, s)
      end
  | StopLatch => (StopRecheck, upd (mode s) true (begun s))
  | StopRecheck =>
      match mode s with
      | Phase.running => (StopClear, upd Phase.stopping (stop_requested s) (begun s))
      | _ => (StopLatched, s)
      end
  | StopClear => (StopBegin, upd (mode s) false (begun s))
  | StopBegin => (StopDone, upd (mode s) (stop_requested s) (S (begun s)))
  | StopDone => (StopDone, s)
  | StopLatched => (StopLatched, s)
  end.

Definition with_setup (s : State) (pc : setup_pc) : State :=
  {| mode := mode s; stop_requested := stop_requested s; begun := begun s; setup := pc; stops := stops s |}.
Definition with_mode (s : State) (m : Phase.t) : State :=
  {| mode := m; stop_requested := stop_requested s; begun := begun s; setup := setup s; stops := stops s |}.

(** One atomic access of [setup()]. *)
Definition setup_step (s : State) : State :=
  match setup s with
  | SetupBuild => with_setup (with_mode s Phase.starting) SetupStarting
  | SetupStarting => with_setup (with_mode s Phase.running) SetupRunning
  | SetupRunning =>
      let s' := {| mode := mode s; stop_requested := false; begun := begun s; setup := setup s; stops := stops s |} in
      with_setup s' (if stop_requested s then SetupStops StopEntry else SetupDone)
  | SetupStops StopDone | SetupStops StopLatched => with_setup s SetupDone
  | SetupStops pc => let '(pc, s) := stop_step pc s in with_setup s (SetupStops pc)
  | SetupDone => s
  end.

Inductive step : State -> State -> Prop :=
| step_setup s : step s (setup_step s)
| step_call s : step s {| mode := mode s; stop_requested := stop_requested s; begun := begun s; setup := setup s;
                          stops := stops s ++ [StopEntry] |}
| step_stop s i pc : stops s !! i = Some pc ->
    step s (let '(pc, s') := stop_step pc s in
            {| mode := mode s'; stop_requested := stop_requested s'; begun := begun s'; setup := setup s';
               stops := <[i := pc]> (stops s) |})
| step_complete s : mode s = Phase.stopping -> 0 < begun s -> step s (with_mode s Phase.stopped).

Definition reachable : State -> Prop := rtc step init.

(** A call that has won its CAS still owes the spawn of the shutdown. *)
Definition owes (pc : stop_pc) : nat := match pc with StopClear | StopBegin => 1 | _ => 0 end.
Definition setup_owes (pc : setup_pc) : nat := match pc with SetupStops pc => owes pc | _ => 0 end.
Definition total_owed (s : State) : nat := setup_owes (setup s) + sum_list_with owes (stops s).

Definition shutting (m : Phase.t) : bool := match m with Phase.stopping | Phase.stopped => true | _ => false end.

(** A request that is neither honored nor under way must be visible to [setup]. *)
Definition pending (s : State) : Prop :=
  shutting (mode s) = true \/
  (stop_requested s = true /\ (setup s = SetupStarting \/ setup s = SetupRunning)) \/
  setup s = SetupStops StopEntry.

Record inv (s : State) : Prop := {
  inv_setup : match setup s with
              | SetupBuild => mode s = Phase.build
              | SetupStarting => mode s = Phase.starting
              | SetupStops pc => (pc = StopEntry /\ (mode s = Phase.running \/ shutting (mode s) = true)) \/
                                 ((pc = StopBegin \/ pc = StopDone) /\ shutting (mode s) = true)
              | _ => mode s = Phase.running \/ shutting (mode s) = true
              end;
  inv_once : begun s + total_owed s = if shutting (mode s) then 1 else 0;
  inv_build : mode s = Phase.build -> Forall (fun pc => pc = StopEntry \/ pc = StopDone) (stops s);
  inv_latched : Forall (fun pc => pc = StopLatched -> pending s) (stops s);
  inv_recheck : Forall (fun pc => pc = StopRecheck -> mode s = Phase.starting -> stop_requested s = true) (stops s);
}.

Lemma sum_owes_insert (l : list stop_pc) i pc pc' :
  l !! i = Some pc -> sum_list_with owes (<[i := pc']> l) + owes pc = sum_list_with owes l + owes pc'.
Proof.
  revert i. induction l as [|x l IH]; intros [|i] E; simplify_eq/=; [lia|]. specialize (IH i E). lia.
Qed.

Lemma sum_owes_ge (l : list stop_pc) i pc : l !! i = Some pc -> owes pc <= sum_list_with owes l.
Proof. revert i. induction l as [|x l IH]; intros [|i] E; simplify_eq/=; [lia|]. specialize (IH i E). lia. Qed.

Lemma inv_init : inv init.
Proof. split; simpl; try done; constructor. Qed.

(** A property of all calls after one of them moved. *)
Lemma Forall_moved (Q Q' : stop_pc -> Prop) l i pc' :
  Forall Q l -> (forall pc, Q pc -> Q' pc) -> Q' pc' -> Forall Q' (<[i := pc']> l).
Proof. intros HF HQ HQ'. apply Forall_insert; [|done]. eapply Forall_impl; eauto. Qed.

Lemma pending_mono s s' :
  (shutting (mode s) = true -> shutting (mode s') = true) ->
  (stop_requested s = true -> setup s = SetupStarting \/ setup s = SetupRunning -> pending s') ->
  (setup s = SetupStops StopEntry -> pending s') -> pending s -> pending s'.
Proof. intros H1 H2 H3 [H|[[Hr Hs]|H]]; [left; auto|by apply H2|by apply H3]. Qed.

Lemma inv_mode_starting s : inv s -> mode s = Phase.starting -> setup s = SetupStarting.
Proof.
  intros [Hs _ _ _ _] Hm. rewrite Hm in Hs. destruct (setup s) as [| | |pc|]; naive_solver.
Qed.

Lemma inv_owed_shutting s : inv s -> 0 < total_owed s -> shutting (mode s) = true.
Proof. intros Hi Ho. pose proof (inv_once _ Hi) as H1. destruct (shutting (mode s)); [done|lia]. Qed.

(** The invariant after [setup] moved out of its build phase. *)
Lemma inv_setup_move s m r b pc :
  let s' := {| mode := m; stop_requested := r; begun := b; setup := pc; stops := stops s |} in
  inv s -> m = Phase.running \/ shutting m = true ->
  match pc with
  | SetupBuild | SetupStarting => False
  | SetupStops pc => (pc = StopEntry /\ (m = Phase.running \/ shutting m = true)) \/
                     ((pc = StopBegin \/ pc = StopDone) /\ shutting m = true)
  | _ => m = Phase.running \/ shutting m = true
  end ->
  b + setup_owes pc + sum_list_with owes (stops s) = (if shutting m then 1 else 0) ->
  (pending s -> pending s') -> inv s'.
Proof.
  intros s' [Hs H1 Hb Hl Hr] Hm Hpc Ho Hp. split; unfold s'; simpl.
  - by destruct pc.
  - unfold total_owed. simpl. lia.
  - intros ->. destruct Hm; done.
  - eapply Forall_impl; [apply Hl|]. intros q HQ E. auto.
  - apply Forall_true. intros q _ ->. destruct Hm; done.
Qed.

Lemma inv_step_setup s : inv s -> inv (setup_step s).
Proof.
  intros Hinv. pose proof Hinv as [Hs H1 Hb Hl Hr]. unfold total_owed in H1. unfold setup_step.
  destruct (setup s) as [| | |pc|] eqn:Es; simpl in H1; [| | | |done].
  - split; simpl; try done; [unfold total_owed; simpl; by rewrite Hs in H1|..];
      (eapply Forall_impl; [apply (Hb Hs)|]; by intros pc [-> | ->]).
  - rewrite Hs in H1. apply (inv_setup_move s _ _ _ _ Hinv); simpl; [by left|by left|simpl in H1; lia|].
    intros [Hx|[[Hx _]|Hx]]; [by rewrite Hs in Hx| |congruence]. right. left. simpl. auto.
  - apply (inv_setup_move s _ _ _ _ Hinv); simpl; [done|..].
    + destruct (stop_requested s); [left|]; done.
    + destruct (stop_requested s); simpl; lia.
    + destruct (stop_requested s) eqn:Ef; [by right; right|].
      intros [Hx|[[Hx _]|Hx]]; [by left|congruence..].
  - destruct Hs as [[-> [Hm|Hm]]|[[-> | ->] Hm]]; simpl in *.
    + rewrite Hm in *. apply (inv_setup_move s _ _ _ _ Hinv); simpl in *; [by right|by right; auto|lia|by left].
    + assert (stop_step StopEntry s = (StopDone, s)) as E by (simpl; by destruct (mode s)). simpl in E. rewrite E.
      apply (inv_setup_move s _ _ _ _ Hinv); simpl in *; [by right|by right; auto|lia|by left].
    + apply (inv_setup_move s _ _ _ _ Hinv); simpl in *; [by right|by right; auto|lia|by left].
    + apply (inv_setup_move s _ _ _ _ Hinv); simpl in *; [by right|by right; auto|lia|by left].
Qed.

(** The invariant after call [i] moved to [pc'], changing the shared fields. *)
Lemma inv_move s i pc pc' m r b :
  let s' := {| mode := m; stop_requested := r; begun := b; setup := setup s; stops := <[i := pc']> (stops s) |} in
  inv s -> stops s !! i = Some pc ->
  (m = mode s \/ (mode s = Phase.running /\ shutting m = true)) ->
  b + total_owed s + owes pc' = (if shutting m then 1 else 0) + owes pc ->
  (m = Phase.build -> pc' = StopEntry \/ pc' = StopDone) ->
  (pending s -> pending s') -> (pc' = StopLatched -> pending s') ->
  (m = Phase.starting -> stop_requested s = true -> r = true) -> (pc' = StopRecheck -> m = Phase.starting -> r = true) ->
  inv s'.
Proof.
  intros s' [Hs H1 Hb Hl Hr] Hi Hm Ho Hbuild Hp Hp' Hst Hst'.
  pose proof (sum_owes_insert _ _ _ pc' Hi) as Hsum.
  split; unfold s'; simpl.
  - destruct Hm as [-> |[Hm Hsh]]; [done|]. rewrite Hm in Hs. destruct (setup s) as [| | |x|]; simpl in *; naive_solver.
  - unfold total_owed in *. simpl. lia.
  - intros E. apply (Forall_moved (fun pc => pc = StopEntry \/ pc = StopDone)); auto.
    apply Hb. destruct Hm as [<- |[_ Hsh]]; [done|]. by rewrite E in Hsh.
  - eapply (Forall_moved _ _ _ _ _ Hl); [|done]. intros q HQ E. auto.
  - eapply (Forall_moved _ _ _ _ _ Hr); [|done]. intros q HQ E Em.
    apply Hst; [done|]. apply HQ; [done|]. destruct Hm as [<- |[_ Hsh]]; [done|]. by rewrite Em in Hsh.
Qed.

Lemma inv_step_stop s i pc :
  inv s -> stops s !! i = Some pc ->
  inv (let '(pc, s') := stop_step pc s in
       {| mode := mode s'; stop_requested := stop_requested s'; begun := begun s'; setup := setup s';
          stops := <[i := pc]> (stops s) |}).
Proof.
  intros Hinv Hi. pose proof (inv_once _ Hinv) as H1.
  assert (0 < owes pc -> shutting (mode s) = true) as Hown.
  { intros Ho. apply inv_owed_shutting; [done|]. pose proof (sum_owes_ge _ _ _ Hi). unfold total_owed. lia. }
  assert (mode s = Phase.build -> pc = StopEntry \/ pc = StopDone) as Hpcb.
  { intros Hm. pose proof (inv_build _ Hinv Hm) as Hb. rewrite Forall_lookup in Hb. eauto. }
  pose proof (inv_mode_starting _ Hinv) as Hst.
  assert (forall m r b l, shutting m = true ->
    pending {| mode := m; stop_requested := r; begun := b; setup := setup s; stops := l |}) as Hsh by (intros; by left).
  assert (forall r b l, (stop_requested s = true -> r = true) -> pending s ->
    pending {| mode := mode s; stop_requested := r; begun := b; setup := setup s; stops := l |}) as Hkeep.
  { intros r b l Hr [Hx|[[Hx Hy]|Hx]]; [by left|right; left; simpl; auto|by right; right]. }
  destruct pc; cbn [stop_step owes] in *; cbn [mode stop_requested begun setup].
  - destruct (mode s) eqn:Em; cbn [mode stop_requested begun setup]; rewrite ?Em;
      (apply (inv_move s i StopEntry _ _ _ _ Hinv Hi); rewrite ?Em; cbn [owes shutting] in *;
       [auto|lia|done || auto|rewrite <- ?Em; auto|done|auto|done]).
  - apply (inv_move s i StopLatch _ _ _ _ Hinv Hi); cbn [owes] in *; [by left|lia| |auto|done|auto|auto].
    intros Hm. destruct (Hpcb Hm); done.
  - destruct (mode s) eqn:Em; cbn [mode stop_requested begun setup]; rewrite ?Em;
      try (destruct (Hpcb eq_refl); done);
      (apply (inv_move s i StopRecheck _ _ _ _ Hinv Hi); rewrite ?Em; cbn [owes shutting] in *;
       [auto|lia|done || auto|rewrite <- ?Em; auto| |auto|done]); intros _; try (by left).
    right. left. simpl. split; [|auto]. pose proof (inv_recheck _ Hinv) as HR. rewrite Forall_lookup in HR. eauto.
  - apply (inv_move s i StopClear _ _ _ _ Hinv Hi); cbn [owes] in *; [by left|lia| |auto|done| |done].
    + intros Hm. destruct (Hpcb Hm); done.
    + intros Hm. rewrite Hm in Hown. by specialize (Hown ltac:(lia)).
  - apply (inv_move s i StopBegin _ _ _ _ Hinv Hi); cbn [owes] in *; [by left|lia| |auto|done|auto|done]. auto.
  - apply (inv_move s i StopDone _ _ _ _ Hinv Hi); cbn [owes]; [by left|lia|auto|auto|done|auto|done].
  - apply (inv_move s i StopLatched _ _ _ _ Hinv Hi); cbn [owes]; [by left|lia| |auto| |auto|done].
    { intros Hm. destruct (Hpcb Hm); done. }
    intros _. pose proof (inv_latched _ Hinv) as HL. rewrite Forall_lookup in HL. apply Hkeep; eauto.
Qed.

Lemma inv_step s s' : inv s -> step s s' -> inv s'.
Proof.
  intros Hinv Hst. destruct Hst as [s|s|s i pc Hi|s Hm Hb].
  - by apply inv_step_setup.
  - destruct Hinv as [H1 H2 H3 H4 H5]. split; simpl; auto.
    + unfold total_owed in *. simpl. rewrite sum_list_with_app. simpl. lia.
    + intros E. apply Forall_app. split; [auto|]. by repeat constructor; left.
    + apply Forall_app. split; [exact H4|]. by repeat constructor.
    + apply Forall_app. split; [exact H5|]. by repeat constructor.
  - by apply inv_step_stop.
  - destruct Hinv as [H1 H2 H3 H4 H5]. rewrite Hm in *. split; simpl; auto; try done.
    + destruct (setup s) as [| | |pc|]; naive_solver.
    + eapply Forall_impl; [exact H4|]. intros pc _ _. by left.
    + by apply Forall_true.
Qed.

Lemma inv_reachable s : reachable s -> inv s.
Proof. apply rtc_preserves; [apply inv_step|apply inv_init]. Qed.

(** C20. No stop is lost and none is doubled: in every interleaving of [setup]
    with any number of concurrent [stop]s, at most one graceful shutdown is
    spawned; and once [setup] and all calls have returned, a request that arrived
    while the server was starting has been honored — the server is stopping (or
    stopped) with exactly one shutdown spawned. *)
Theorem stop_honored s :
  reachable s ->
  begun s <= 1 /\
  (setup s = SetupDone -> Forall (fun pc => pc = StopDone \/ pc = StopLatched) (stops s) ->
   (StopLatched ∈ stops s -> shutting (mode s) = true) /\ (shutting (mode s) = true -> begun s = 1)).
Proof.
  intros Hi%inv_reachable. pose proof (inv_once _ Hi) as H1. split; [destruct (shutting (mode s)); lia|].
  intros Hs HF. split.
  - intros HL. pose proof (inv_latched _ Hi) as HL'. rewrite Forall_forall in HL'.
    destruct (HL' _ HL eq_refl) as [Hx|[[_ Hx]|Hx]]; [done|destruct Hx; congruence|congruence].
  - intros Hm. rewrite Hm in H1. unfold total_owed in H1. rewrite Hs in H1. simpl in H1.
    assert (sum_list_with owes (stops s) = 0) as E; [|lia].
    clear -HF. induction HF as [|pc l [-> | ->] HF IH]; simpl; lia.
Qed.

(** A [stop()] that races [setup]: it sees [starting], latches, finds the server
    still starting and returns; [setup] then honors it. *)
Definition raced : State :=
  {| mode := Phase.stopping; stop_requested := false; begun := 1; setup := SetupDone; stops := [StopLatched] |}.

Lemma raced_reachable : reachable raced.
Proof.
  unfold reachable. eapply rtc_l; [apply step_setup|]. eapply rtc_l; [apply step_call|].
  do 3 (eapply rtc_l; [apply (step_stop _ 0); reflexivity|]). cbn.
  do 6 (eapply rtc_l; [apply step_setup|]). apply rtc_refl.
Qed.

Lemma stop_honored_witness : shutting (mode raced) = true /\ begun raced = 1.
Proof.
  destruct (stop_honored raced raced_reachable) as (_ & HS).
  destruct HS as [HL HB]; [reflexivity|by repeat constructor; right|].
  split; [apply HL; by left|apply HB; reflexivity].
Defined.

End Lifecycle.

(** ** Properties of the tracker *)
Section tracker.
  Import ConnectionTracker.
  Implicit Types s : ConnectionTracker.State.

Lemma tracker_erase_length (es : list Entry) e :
  NoDup (conn <$> es) -> e ∈ es -> S (length (filter (fun x => conn x <> conn e) es)) = length es.
Proof.
  induction es as [|x es IH]; intros HN He; [by apply elem_of_nil in He|].
  rewrite fmap_cons, NoDup_cons in HN. destruct HN as [Hx HN]. rewrite filter_cons. apply elem_of_cons in He as [->|He].
  - rewrite decide_False by (intros []; done). simpl. do 2 f_equal. rewrite filter_all; [done|].
    apply Forall_forall. intros y Hy E. apply Hx. rewrite <- E. by apply list_elem_of_fmap_2.
  - rewrite decide_True; [simpl; by rewrite IH|]. intros E. apply Hx. rewrite E. by apply list_elem_of_fmap_2.
Qed.

Lemma tracker_inv_step s s' : ConnectionTracker.inv s -> ConnectionTracker.step s s' -> ConnectionTracker.inv s'.
Proof.
  intros [H1 H2 H3] Hst. destruct Hst as [s dl|s e He|s Hr|s|s e dl He].
  - split; simpl.
    + rewrite length_app. simpl. lia.
    + rewrite fmap_app. apply NoDup_app. split_and!; [done| |apply NoDup_singleton].
      intros c Hc Hc2%list_elem_of_singleton. simpl in Hc2. subst. apply list_elem_of_fmap in Hc as (x & Ex & Hx).
      rewrite Forall_forall in H3. specialize (H3 _ Hx). lia.
    + apply Forall_app. split; [|repeat constructor; simpl; lia].
      eapply Forall_impl; [exact H3|]. simpl. lia.
  - split; simpl.
    + pose proof (tracker_erase_length _ _ H2 He). lia.
    + eapply sublist_NoDup; [exact H2|]. apply fmap_sublist, sublist_filter.
    + by apply Forall_filter.
  - split; simpl; [lia|done|done].
  - by split.
  - split; simpl; [by rewrite length_fmap| |].
    + rewrite <- list_fmap_compose. erewrite list_fmap_ext; [exact H2|]. intros i x _. simpl. by case_decide.
    + apply Forall_fmap. eapply Forall_impl; [exact H3|]. intros x. simpl. by case_decide.
Qed.

Lemma tracker_inv_reachable s : rtc ConnectionTracker.step ConnectionTracker.init s -> ConnectionTracker.inv s.
Proof.
  apply rtc_preserves; [apply tracker_inv_step|]. split; simpl; [done|constructor|constructor].
Qed.

(** C38. The in-flight counter never under-counts: over any interleaving of
    registrations and two-step releases it is the number of tracked entries plus
    the handles in the middle of releasing, so reading zero — what shutdown polls
    for — means no connection is tracked and none is still unwinding; and one
    sweep tick cancels exactly the live connections whose deadline has passed. *)
Theorem tracker_sound s now :
  rtc ConnectionTracker.step ConnectionTracker.init s ->
  in_flight s = length (entries s) + releasing s /\
  (in_flight s = 0 -> entries s = [] /\ releasing s = 0) /\
  (stop s = false -> exists cs, sweep_tick (Some s) false now = Some cs /\
     forall e, e ∈ entries s -> (conn e ∈ cs <-> alive e = true /\ (deadline e <= now)%Z)).
Proof.
  intros [H1 H2 H3]%tracker_inv_reachable. split_and!; [done| |].
  - intros H0. destruct (entries s); simpl in *; [split; [done|lia]|lia].
  - intros Hs. simpl. rewrite Hs. eexists. split; [done|]. intros e He. rewrite list_elem_of_fmap. split.
    + intros (x & Ex & Hx). apply list_elem_of_filter in Hx as [Hx Hin].
      apply list_elem_of_lookup in He as [i Hi], Hin as [j Hj].
      assert (i = j) as ->.
      { eapply NoDup_lookup; [exact H2|by rewrite list_lookup_fmap, Hi|by rewrite list_lookup_fmap, Hj, Ex]. }
      by simplify_eq.
    + intros He'. exists e. split; [done|]. by apply list_elem_of_filter.
Qed.

Lemma tracker_sound_witness :
  exists s, rtc ConnectionTracker.step ConnectionTracker.init s /\ in_flight s = 1 /\
    (in_flight s = 0 -> entries s = [] /\ releasing s = 0).
Proof.
  exists (release_erase (register_connection ConnectionTracker.init 5) 0).
  assert (rtc ConnectionTracker.step ConnectionTracker.init (release_erase (register_connection ConnectionTracker.init 5) 0)) as Hr.
  { eapply rtc_l; [apply (step_register _ 5)|]. eapply rtc_l; [|apply rtc_refl].
    apply (step_erase _ {| conn := 0; alive := true; deadline := 5 |}). by left. }
  split; [exact Hr|]. split; [reflexivity|].
  apply (tracker_sound _ 0 Hr).
Defined.
End tracker.

(** ** Properties of the accept loops *)
(** The executor after [k] accepts. *)
Lemma begin_accept_next execs n l :
  0 < execs -> next_exec l = n mod execs -> next_exec (snd (begin_accept execs l)) = S n mod execs.
Proof.
  intros He Hn. simpl. rewrite Hn. rewrite Nat.Div0.add_mod_idemp_l by lia. f_equal. lia.
Qed.

Definition terminal (ev : accept_event) : bool := match ev with Cancelled | Aborted | Fatal => true | _ => false end.

Lemma backoff_bounds n : (1 <= exponential_backoff n 1 1024 <= 1024)%Z.
Proof. apply exponential_backoff_bounds; lia. Qed.

Lemma run_invariant execs events l n :
  0 < execs -> next_exec l = n mod execs ->
  accepts_on l = (fun k => k mod execs) <$> seq 0 n ->
  Forall (fun x => 1 <= x <= 1024)%Z (sleeps l) ->
  exists m, accepts_on (run execs events l) = (fun k => k mod execs) <$> seq 0 m /\
    Forall (fun x => 1 <= x <= 1024)%Z (sleeps (run execs events l)) /\
    acceptor_open (run execs events l) = acceptor_open l && negb (existsb terminal events).
Proof.
  intros He. revert l n. induction events as [|ev events IH]; intros l n Hn Ha Hs; simpl.
  { exists n. by rewrite andb_true_r. }
  pose proof (begin_accept_next execs n l He Hn) as Hn'. simpl in Hn'.
  assert (accepts_on l ++ [next_exec l] = (fun k => k mod execs) <$> seq 0 (S n)) as Ha'.
  { rewrite seq_S, fmap_app. simpl. by rewrite Ha, Hn. }
  destruct ev; simpl.
  - exists n. by rewrite andb_false_r.
  - exact (IH (accept_ok (next_exec l) (snd (begin_accept execs l))) (S n) Hn' Ha' Hs).
  - exists (S n). by rewrite andb_false_r.
  - exists (S n). by rewrite andb_false_r.
  - refine (IH (accept_error (snd (begin_accept execs l))) (S n) Hn' Ha' _). simpl. destruct (2 <? _)%N; [|done].
    apply Forall_app. split; [done|]. repeat constructor; apply backoff_bounds.
Qed.

(** The accept loop spreads connections round-robin (the k-th accept runs on
    executor k modulo the number of executors), every backoff wait lies between
    1 and 1024 ms, and the acceptor is closed exactly when the loop met a
    cancellation, an abort or a fatal error — on every way out. *)
Theorem accept_loop_correct execs events :
  0 < execs ->
  let l := run execs events accept_loop_start in
  (exists m, accepts_on l = (fun k => k mod execs) <$> seq 0 m) /\
  Forall (fun x => 1 <= x <= 1024)%Z (sleeps l) /\
  acceptor_open l = negb (existsb terminal events).
Proof.
  intros He l. destruct (run_invariant execs events accept_loop_start 0 He) as (m & H1 & H2 & H3);
    [simpl; by rewrite Nat.Div0.mod_0_l by lia|done|constructor|].
  split_and!; [by exists m|done|done].
Qed.

Lemma accept_loop_correct_witness :
  let l := run 2 [Accepted; Transient; Transient; Transient; Transient; Accepted; Cancelled] accept_loop_start in
  sleeps l = [1; 2]%Z /\ Forall (fun x => 1 <= x <= 1024)%Z (sleeps l) /\ accepts_on l = [0; 1; 0; 1; 0; 1].
Proof.
  split; [reflexivity|]. split; [|reflexivity].
  apply (accept_loop_correct 2 [Accepted; Transient; Transient; Transient; Transient; Accepted; Cancelled]). lia.
Defined.

(** ** ALPN *)
Lemma append_alpn_fold alpns wire : fold_left append_alpn alpns wire = wire ++ fold_left append_alpn alpns [].
Proof.
  revert wire. induction alpns as [|a alpns IH]; intros wire; simpl; [by rewrite app_nil_r|].
  rewrite IH, (IH (append_alpn [] a)). unfold append_alpn. by rewrite <- !app_assoc.
Qed.

(** The advertised ALPN list is well-formed: reading the length-prefixed wire
    back gives the drivers' protocol ids in order, for ids of up to 255 bytes. *)
Theorem alpn_roundtrip alpns :
  Forall (fun a => length a < 256) alpns ->
  parse_alpn (length (build_alpn_wire alpns)) (build_alpn_wire alpns) = Some alpns.
Proof.
  assert (forall fuel, Forall (fun a => length a < 256) alpns -> length (build_alpn_wire alpns) <= fuel ->
            parse_alpn fuel (build_alpn_wire alpns) = Some alpns) as HG; [|auto].
  unfold build_alpn_wire. induction alpns as [|a alpns IH]; intros fuel HF Hl; [by destruct fuel|].
  apply Forall_cons in HF as [Ha HF]. cbn [fold_left] in *. rewrite append_alpn_fold in Hl |- *.
  change (append_alpn [] a) with (ascii_of_nat (length a) :: a) in *.
  rewrite !length_app in Hl. simpl in Hl. destruct fuel as [|fuel]; [lia|].
  simpl. assert (code (ascii_of_nat (length a)) = length a) as -> by (by apply nat_ascii_embedding).
  rewrite decide_True by (rewrite length_app; lia). rewrite take_app_length, drop_app_length, IH by (done || lia). done.
Qed.

Lemma alpn_roundtrip_witness :
  parse_alpn 12 (build_alpn_wire [B "h2"; B "http/1.1"]) = Some [B "h2"; B "http/1.1"].
Proof. apply (alpn_roundtrip [B "h2"; B "http/1.1"]). repeat constructor; simpl; lia. Defined.

(** ** Setup *)
Definition bind_failure (l : BoundListener) : option bytes :=
  match listener_bind l with Ok _ => None | Err what => Some (listener_address l ++ em_dash ++ what) end.

Lemma bind_all_omap ls : bind_all ls = omap bind_failure ls.
Proof.
  unfold bind_all. cut (forall acc, fold_left (fun failures l => match listener_bind l with
      | Ok _ => failures | Err what => failures ++ [listener_address l ++ em_dash ++ what] end) ls acc =
    acc ++ omap bind_failure ls); [intros ->; done|].
  induction ls as [|l ls IH]; intros acc; simpl; [by rewrite app_nil_r|].
  rewrite IH. unfold bind_failure at 2. destruct (listener_bind l); [done|]. by rewrite <- app_assoc.
Qed.

(** [setup] starts the server exactly when it is in the build phase with at
    least one listener, no route conflict and every bind successful; otherwise it
    leaves the phase alone and reports all conflicts at once, or every failed
    bind in order (having tried them all) with the listener set cleared. *)
Theorem setup_begin_correct {H} (s : ServerState H) :
  match setup_begin s with
  | (Ok _, s') =>
      phase s = Phase.build /\ srv_listeners s <> [] /\ conflicts (srv_registry s) = [] /\
      Forall (fun l => bind_failure l = None) (srv_listeners s) /\
      phase s' = Phase.starting /\ frozen (srv_registry s') = true /\ srv_listeners s' = srv_listeners s
  | (Err (ListenerBindError failures), s') =>
      failures = omap bind_failure (srv_listeners s) /\ failures <> [] /\ srv_listeners s' = [] /\ phase s' = phase s
  | (Err (RouteConflictAggregate cs), s') =>
      cs = conflicts (srv_registry s) /\ cs <> [] /\ srv_listeners s' = srv_listeners s /\ phase s' = phase s
  | (Err _, s') => s' = s /\ (phase s <> Phase.build \/ srv_listeners s = [])
  end.
Proof.
  unfold setup_begin, require_build. case_decide as Hp; [|by split; [|left]].
  destruct (srv_listeners s) as [|l ls] eqn:El; [by split; [|right]|]. rewrite bool_decide_false by done. simpl.
  destruct (conflicts (srv_registry s)) as [|c cs] eqn:Ec; [|done]. simpl. rewrite bind_all_omap.
  destruct (omap bind_failure (l :: ls)) as [|f fs] eqn:Ef; simpl; [|done].
  split_and!; try done. clear -Ef. revert Ef. generalize (l :: ls). intros xs Ef. induction xs as [|x xs IH]; [constructor|].
  simpl in Ef. destruct (bind_failure x) eqn:Ex; [done|]. constructor; auto.
Qed.
