(* ===== verification/Host.v ===== *)
(** * What surrounds the server's core

    Construction and destruction of [Server], waiting for it, its observers at setup and the
    accept loops it spawns (server/server.cpp); [run_standalone], which owns the worker threads
    (run_standalone.cpp); a TLS session and the TLS context (tls_listener/). *)

From S2P Require Import Prelude Config Server.

(** ** Construction and counters *)

Definition server_create (execs : list nat) : result server_error (list nat) :=
  if bool_decide (execs = []) then Err (ServerInvalidArgument (B "Server: at least one executor is required")) else Ok execs.

Definition total_in_flight (listeners : list N) : N := fold_left (fun n l => ((n + l) mod 2 ^ 64)%N) listeners 0%N.

(** ** Observers at setup *)
Inductive setup_event := SetupComplete (obs : nat) | SetupException (obs : nat) (e : exn).

Definition fan_setup_exception (observers : list nat) (e : exn) : list setup_event := (fun o => SetupException o e) <$> observers.

(** One after the other; what one throws goes to all of them. *)
Fixpoint notify_setup_loop (observers : list nat) (throws : nat -> option exn) (rest : list nat) : list setup_event :=
  match rest with
  | [] => []
  | o :: rest =>
      SetupComplete o :: match throws o with Some e => fan_setup_exception observers e | None => [] end ++
      notify_setup_loop observers throws rest
  end.
Definition notify_setup_observers (observers : list nat) (throws : nat -> option exn) : list setup_event :=
  notify_setup_loop observers throws observers.

(** ** The accept loops [setup] spawns

    Loop [i] runs on a strand of executor [i mod n]; its completion handler reports what escaped
    and counts it out. *)
Record Loops := { run_strands : list nat; live_accept_loops : nat; finished_loops : list nat; reported : list (nat * exn) }.

Definition spawn_loops (execs listeners : nat) : Loops :=
  {| run_strands := (fun i => i mod execs) <$> seq 0 listeners; live_accept_loops := listeners; finished_loops := []; reported := [] |}.
Definition loop_finished (observers : list nat) (i : nat) (escaped : option exn) (s : Loops) : Loops :=
  {| run_strands := run_strands s; live_accept_loops := live_accept_loops s - 1; finished_loops := i :: finished_loops s;
     reported := reported s ++ match escaped with Some e => (fun o => (o, e)) <$> observers | None => [] end |}.

(** ** Waiting for the server *)

(** The predicate of the condition variable. *)
Definition wait_until_stopped (shutdown_complete : bool) (p : Phase.t) : bool := shutdown_complete || bool_decide (p = Phase.build).

Definition POLL_TICK : Z := 5.
Definition MAX_POLL_TICK : Z := 320.
Definition next_delay (delay : Z) : Z := Z.min (delay * 2) MAX_POLL_TICK.

(** [async_wait_stopped] over the states it reads: the waits made, and whether it returned. *)
Fixpoint async_wait_loop (delay : Z) (readings : list Phase.t) : list Z * bool :=
  match readings with
  | [] => ([], false)
  | p :: readings =>
      if bool_decide (p = Phase.stopped) || bool_decide (p = Phase.build) then ([], true)
      else let '(slept, returned) := async_wait_loop (next_delay delay) readings in (delay :: slept, returned)
  end.
Definition async_wait_stopped (readings : list Phase.t) : list Z * bool := async_wait_loop POLL_TICK readings.

(** The destructor: nothing in [build] and [stopped]; otherwise [stop()], and a wait that ends
    only if the shutdown coroutine can run, on an executor that is still driven. [None]: it
    never returns. *)
Definition server_destructor (p : Phase.t) (driven : bool) : option Phase.t :=
  match p with
  | Phase.build | Phase.stopped => Some p
  | Phase.running | Phase.stopping => if driven then Some Phase.stopped else None
  | Phase.starting => None   (* the request is latched, and [setup] is gone *)
  end.

(** ** [run_standalone] *)
Inductive run_event :=
| MakeContext (i : nat) | Configure | StartWorker (i : nat) | SetupServer | ArmSignals | WaitStopped
| ResetGuard (i : nat) | StopContext (i : nat) | JoinWorker (i : nat) | DestroyServer.
Inductive run_outcome := Returned | Threw (e : exn) | Hung.

Definition stop_all (threads : nat) : list run_event := (ResetGuard <$> seq 0 threads) ++ (StopContext <$> seq 0 threads).

(** Scope exit: the workers are joined first, then the server is destroyed, in the phase it is in
    and with no context driven any more. *)
Definition leave_scope (threads : nat) (workers : bool) (p : Phase.t) (o : run_outcome) : list run_event * run_outcome :=
  ((if workers then JoinWorker <$> seq 0 threads else []) ++ [DestroyServer],
   match server_destructor p false with Some _ => o | None => Hung end).

(** [configure], [setup] and [arm] are what the three calls do; a failing [setup] leaves the
    phase it gives. *)
Definition run_standalone (threads : nat) (configure : result exn unit) (setup : result (exn * Phase.t) unit) (arm : result exn unit)
    : list run_event * run_outcome :=
  if threads =? 0 then ([], Threw (InvalidArgument (B "run_standalone: threads must be >= 1"))) else
  let made := MakeContext <$> seq 0 threads in
  match configure with
  | Err e => let '(evs, o) := leave_scope threads false Phase.build (Threw e) in (made ++ [Configure] ++ evs, o)
  | Ok _ =>
      let started := made ++ [Configure] ++ (StartWorker <$> seq 0 threads) ++ [SetupServer] in
      match setup with
      | Err (e, p) => let '(evs, o) := leave_scope threads true p (Threw e) in (started ++ stop_all threads ++ evs, o)
      | Ok _ =>
          match arm with
          | Err e => let '(evs, o) := leave_scope threads true Phase.running (Threw e) in (started ++ [ArmSignals] ++ stop_all threads ++ evs, o)
          | Ok _ =>
              let '(evs, o) := leave_scope threads true Phase.stopped Returned in
              (started ++ [ArmSignals; WaitStopped] ++ stop_all threads ++ evs, o)
          end
      end
  end.

(** ** TLS sessions *)

(** The accept loop is TcpListener's. *)
Definition tls_run : nat -> list accept_event -> AcceptLoop -> AcceptLoop := run.

(** What one accepted connection does: the handshake (an error code or an exception), the driver
    of the negotiated protocol, and [async_close] when there was none. An exception, out of the
    handshake or of the driver, ends the session. *)
Inductive session_event := Served (d : Driver) | Closed.
Definition tls_session (handshake : result exn bool) (drivers : list Driver) (proto : Protocol.t) : list session_event :=
  match handshake with
  | Err _ => []
  | Ok true => [Closed]
  | Ok false =>
      match try_serve drivers proto with
      | Some d => [Served d]
      | None => [Closed]
      end
  end.

(** ** The TLS context *)
Inductive ssl_option := default_workarounds | no_sslv2 | no_sslv3 | no_tlsv1 | no_tlsv1_1 | no_tlsv1_2 | no_compression | single_dh_use.
#[global] Instance ssl_option_eq_dec : EqDecision ssl_option.
Proof. solve_decision. Defined.

Record ssl_context := {
  options : list ssl_option; ciphers : bytes; password : option bytes; certificate : option bytes; private_key : option bytes;
  tmp_dh : option bytes; verify_peer : bool; verify_file : option bytes; session_cache_server : bool; alpn : bytes }.

Definition cipher_list : bytes :=
  B "ECDHE-ECDSA-AES128-GCM-SHA256:ECDHE-RSA-AES128-GCM-SHA256:" ++
  B "ECDHE-ECDSA-AES256-GCM-SHA384:ECDHE-RSA-AES256-GCM-SHA384:" ++
  B "ECDHE-ECDSA-CHACHA20-POLY1305:ECDHE-RSA-CHACHA20-POLY1305".

Definition tls_options (v : MinVersion.t) : list ssl_option :=
  [default_workarounds; no_sslv2; no_sslv3; no_tlsv1; no_tlsv1_1; no_compression; single_dh_use] ++
  (if decide (v = MinVersion.tls13) then [no_tlsv1_2] else []).

Definition when_set (s : bytes) : option bytes := if bool_decide (s = []) then None else Some s.

Section tls_context.
(** The calls of OpenSSL that can fail: setting the cipher list, and loading a file. *)
Context (set_ciphers : bytes -> result exn unit) (load : bytes -> result exn unit).

Definition load_optional (file : option bytes) : result exn unit := match file with Some f => load f | None => Ok tt end.

Definition build_ssl_context (cfg : TlsConfig) (advertised_alpn_wire : bytes) : result exn ssl_context :=
  _ ← set_ciphers cipher_list;
  _ ← load (cert_file cfg);
  _ ← load (key_file cfg);
  _ ← load_optional (when_set (dh_params_file cfg));
  let ca := if require_client_cert cfg then when_set (ca_file cfg) else None in
  _ ← load_optional ca;
  Ok {| options := tls_options (min_version cfg); ciphers := cipher_list; password := when_set (key_passphrase cfg);
        certificate := Some (cert_file cfg); private_key := Some (key_file cfg); tmp_dh := when_set (dh_params_file cfg);
        verify_peer := require_client_cert cfg; verify_file := ca; session_cache_server := session_cache cfg;
        alpn := advertised_alpn_wire |}.
End tls_context.

Inductive alpn_result := AlpnOk (selected : bytes) | AlpnFatal.

(** The callback on the advertised and the offered list, in wire form. [SSL_select_next_proto] is
    OpenSSL's: the protocol it negotiates, if it does. *)
Definition alpn_select_cb (SSL_select_next_proto : bytes -> bytes -> option bytes) (advertised offered : bytes) : alpn_result :=
  match SSL_select_next_proto advertised offered with Some p => AlpnOk p | None => AlpnFatal end.

(** ** Theorems *)

Lemma total_from n ls : fold_left (fun n l => ((n + l) mod 2 ^ 64)%N) ls (n mod 2 ^ 64)%N = ((n + foldr N.add 0 ls) mod 2 ^ 64)%N.
Proof.
  revert n. induction ls as [|l ls IH]; intros n; cbn [fold_left foldr]; [by rewrite N.add_0_r|].
  rewrite N.Div0.add_mod_idemp_l, IH. f_equal. lia.
Qed.

(** The total is the sum of the listeners' counters while that fits 64 bits: it is zero exactly
    when nothing is in flight. *)
Theorem total_in_flight_zero ls : (foldr N.add 0 ls < 2 ^ 64)%N -> (total_in_flight ls = 0%N <-> Forall (fun l => l = 0%N) ls).
Proof.
  intros H. unfold total_in_flight. change 0%N with (0 mod 2 ^ 64)%N at 1. rewrite total_from, N.add_0_l, N.mod_small by done.
  clear H. induction ls as [|l ls IH]; cbn; [by split|]. rewrite Forall_cons, <- IH. lia.
Qed.

Definition completed (e : setup_event) : option nat := match e with SetupComplete o => Some o | _ => None end.

Lemma fan_not_completed observers e : omap completed (fan_setup_exception observers e) = [].
Proof. unfold fan_setup_exception. induction observers; done. Qed.

(** Every observer is notified once, in the order they were added, whatever the others throw;
    and everything thrown reaches every observer. *)
Theorem setup_observers_all observers throws :
  omap completed (notify_setup_observers observers throws) = observers /\
  forall o e, o ∈ observers -> throws o = Some e ->
    forall p, p ∈ observers -> SetupException p e ∈ notify_setup_observers observers throws.
Proof.
  unfold notify_setup_observers.
  assert (forall rest, omap completed (notify_setup_loop observers throws rest) = rest /\
    forall o e, o ∈ rest -> throws o = Some e -> forall p, p ∈ observers -> SetupException p e ∈ notify_setup_loop observers throws rest) as H; [|apply H].
  induction rest as [|r rest [IH1 IH2]]; [by split; [|intros o e []%not_elem_of_nil]|]. cbn. split.
  - rewrite omap_app, IH1. destruct (throws r); [by rewrite fan_not_completed|done].
  - intros o e [->|Ho]%elem_of_cons HT p Hp; right; apply elem_of_app.
    + left. rewrite HT. apply list_elem_of_fmap. eauto.
    + right. eauto.
Qed.

(** *** Accept loops *)
Definition finish_loops (observers : list nat) (done_loops : list (nat * option exn)) (s : Loops) : Loops :=
  foldl (fun s d => loop_finished observers (fst d) (snd d) s) s done_loops.

Lemma finish_loops_spec observers ds s :
  live_accept_loops (finish_loops observers ds s) = live_accept_loops s - length ds /\
  finished_loops (finish_loops observers ds s) = rev (fst <$> ds) ++ finished_loops s.
Proof.
  revert s. induction ds as [|d ds IH]; intros s; [cbn; split; [lia|done]|].
  change (finish_loops observers (d :: ds) s) with (finish_loops observers ds (loop_finished observers d.1 d.2 s)).
  destruct (IH (loop_finished observers d.1 d.2 s)) as [-> ->]. cbn. split; [lia|]. by rewrite <- app_assoc.
Qed.

(** The counter the shutdown waits for reaches zero exactly when every spawned loop has finished. *)
Theorem live_loops_zero observers execs n ds :
  NoDup (fst <$> ds) -> Forall (fun i => i < n) (fst <$> ds) ->
  (live_accept_loops (finish_loops observers ds (spawn_loops execs n)) = 0 <-> forall i, i < n -> i ∈ fst <$> ds).
Proof.
  intros HN HF. destruct (finish_loops_spec observers ds (spawn_loops execs n)) as [-> _]. cbn.
  assert (HS : fst <$> ds ⊆+ seq 0 n).
  { apply NoDup_submseteq; [done|]. intros i Hi. rewrite Forall_forall in HF. apply elem_of_seq. specialize (HF i Hi). lia. }
  pose proof (submseteq_length _ _ HS) as HL. rewrite length_fmap, length_seq in HL. split.
  - intros E i Hi. assert (fst <$> ds ≡ₚ seq 0 n) as ->; [|apply elem_of_seq; lia].
    apply submseteq_length_Permutation; [done|]. rewrite length_fmap, length_seq. lia.
  - intros HA. assert (seq 0 n ⊆+ fst <$> ds) as HS2.
    { apply NoDup_submseteq; [apply NoDup_seq|]. intros i Hi%elem_of_seq. apply HA. lia. }
    apply submseteq_length in HS2. rewrite length_fmap, length_seq in HS2. lia.
Qed.

(** *** Waiting *)
Definition poll_delay (n : nat) : Z := Z.min (POLL_TICK * 2 ^ Z.of_nat n) MAX_POLL_TICK.

Lemma poll_delay_next n : next_delay (poll_delay n) = poll_delay (S n).
Proof.
  unfold next_delay, poll_delay, POLL_TICK, MAX_POLL_TICK. rewrite Nat2Z.inj_succ, Z.pow_succ_r by lia. lia.
Qed.

Definition settled (p : Phase.t) : Prop := p = Phase.stopped \/ p = Phase.build.
#[global] Instance settled_dec p : Decision (settled p).
Proof. unfold settled. solve_decision. Defined.

Lemma async_wait_from n before p rest :
  Forall (fun q => ~ settled q) before -> settled p ->
  async_wait_loop (poll_delay n) (before ++ p :: rest) = (poll_delay <$> seq n (length before), true).
Proof.
  intros HF HP. revert n. induction HF as [|q before Hq HF IH]; intros n; cbn.
  - by destruct HP as [->| ->].
  - unfold settled in Hq. rewrite !bool_decide_eq_false_2 by tauto. cbn. rewrite poll_delay_next, IH. done.
Qed.

(** The poll returns at the first reading of a settled state, after waits of 5, 10, 20, ... ms
    that never exceed 320 ms. *)
Theorem async_wait_stopped_correct before p rest :
  Forall (fun q => ~ settled q) before -> settled p ->
  async_wait_stopped (before ++ p :: rest) = (poll_delay <$> seq 0 (length before), true) /\
  Forall (fun d => (5 <= d <= 320)%Z) (fst (async_wait_stopped (before ++ p :: rest))).
Proof.
  intros HF HP. unfold async_wait_stopped. change POLL_TICK with (poll_delay 0). rewrite async_wait_from by done. split; [done|].
  cbn [fst]. apply Forall_fmap, Forall_true. intros n. unfold poll_delay, POLL_TICK, MAX_POLL_TICK. cbn.
  pose proof (Z.pow_pos_nonneg 2 (Z.of_nat n) ltac:(lia) ltac:(lia)). lia.
Qed.

(** *** The standalone runner *)

Definition is_join (e : run_event) : bool := match e with JoinWorker _ => true | _ => false end.

Lemma no_joins (P : nat -> run_event) l : (forall i, is_join (P i) = false) -> Forall (fun e => is_join e = false) (P <$> l).
Proof. intros H. apply Forall_fmap, Forall_true. done. Qed.

Definition start_events (threads : nat) : list run_event :=
  (MakeContext <$> seq 0 threads) ++ [Configure] ++ (StartWorker <$> seq 0 threads) ++ [SetupServer].

Lemma start_no_joins threads : Forall (fun e => is_join e = false) (start_events threads).
Proof. unfold start_events. rewrite !Forall_app. split_and!; try (by apply no_joins); by repeat constructor. Qed.

Lemma start_starts threads i : i < threads -> StartWorker i ∈ start_events threads.
Proof.
  intros H. unfold start_events. rewrite !elem_of_app. right. right. left. apply list_elem_of_fmap. exists i. split; [done|]. apply elem_of_seq. lia.
Qed.

Lemma joined threads (i : nat) tail : i < threads -> JoinWorker i ∈ (JoinWorker <$> seq 0 threads) ++ tail.
Proof. intros H. apply elem_of_app. left. apply list_elem_of_fmap. exists i. split; [done|]. apply elem_of_seq. lia. Qed.

(** Whatever fails after the workers were started, each of them is joined, and only after every
    context was stopped: joining does not wait on a running loop. *)
Theorem standalone_joins threads setup arm i :
  i < threads ->
  exists pre post, fst (run_standalone threads (Ok tt) setup arm) = pre ++ stop_all threads ++ post /\
    StartWorker i ∈ pre /\ Forall (fun e => is_join e = false) pre /\ JoinWorker i ∈ post.
Proof.
  intros H. unfold run_standalone. rewrite (proj2 (Nat.eqb_neq threads 0)) by lia. cbn zeta. fold (start_events threads).
  pose proof (start_no_joins threads) as HJ. pose proof (start_starts threads i H) as HS.
  destruct setup as [[]|[e p]]; [destruct arm as [[]|e]|]; cbn [fst leave_scope].
  - exists (start_events threads ++ [ArmSignals; WaitStopped]). eexists. rewrite <- app_assoc. split_and!; [done| |apply Forall_app; split; [done|by repeat constructor]|by apply joined].
    apply elem_of_app. by left.
  - exists (start_events threads ++ [ArmSignals]). eexists. rewrite <- app_assoc. split_and!; [done| |apply Forall_app; split; [done|by repeat constructor]|by apply joined].
    apply elem_of_app. by left.
  - exists (start_events threads). eexists. split_and!; [done|done|done|by apply joined].
Qed.

(** The runner unwinds when [setup] fails before it leaves the build phase, and returns when the
    server was stopped. It hangs exactly when the server is destroyed while active: after the
    workers are joined nothing can run its shutdown. *)
Theorem standalone_hangs threads configure setup arm :
  snd (run_standalone threads configure setup arm) = Hung <->
  threads <> 0 /\ configure = Ok tt /\
  ((exists e p, setup = Err (e, p) /\ p <> Phase.build /\ p <> Phase.stopped) \/ (setup = Ok tt /\ exists e, arm = Err e)).
Proof.
  unfold run_standalone. destruct (Nat.eqb_spec threads 0) as [->|Hn]; cbn; [split; [done|by intros []]|].
  destruct configure as [[]|e]; cbn; [|split; [done|naive_solver]].
  destruct setup as [[]|[e p]]; cbn; [destruct arm as [[]|e]; cbn|].
  - split; [done|]. intros (_ & _ & [(e & p & E & _)|(_ & e & E)]); done.
  - split; [|done]. intros _. split_and!; [done..|]. right. eauto.
  - destruct p; cbn; (split; [try done|naive_solver]); intros _; split_and!; try done; left; eauto.
Qed.

(** A signal set that cannot be created after a successful setup leaves the caller blocked. *)
Example standalone_signal_failure e : snd (run_standalone 2 (Ok tt) (Ok tt) (Err e)) = Hung.
Proof. reflexivity. Qed.

(** *** TLS *)

(** A session is served by a driver of the negotiated protocol or closed, never both. *)
Theorem tls_session_correct handshake drivers proto :
  match tls_session handshake drivers proto with
  | [Served d] => handshake = Ok false /\ d ∈ drivers /\ driver_id d = proto
  | [Closed] => handshake = Ok true \/ (handshake = Ok false /\ Forall (fun d => driver_id d <> proto) drivers)
  | [] => exists e, handshake = Err e
  | _ => False
  end.
Proof.
  unfold tls_session. destruct handshake as [[]|e]; [by left| |by eauto].
  assert (H : match try_serve drivers proto with Some d => d ∈ drivers /\ driver_id d = proto | None => Forall (fun d => driver_id d <> proto) drivers end).
  { induction drivers as [|d drivers IH]; cbn; [constructor|]. case_decide; [split; [by left|done]|].
    destruct (try_serve drivers proto); [split; [by right; apply IH|apply IH]|by constructor]. }
  destruct (try_serve drivers proto); [done|by right].
Qed.

(** The context of a valid configuration refuses everything below TLS 1.2, TLS 1.2 too exactly
    when 1.3 is the minimum, and asks for a client certificate exactly when configured, then with
    the authorities to check it against. *)
Theorem build_ssl_context_correct set_ciphers load cfg wire ctx :
  tls_validate cfg = Ok tt -> build_ssl_context set_ciphers load cfg wire = Ok ctx ->
  (forall o, o ∈ [no_sslv2; no_sslv3; no_tlsv1; no_tlsv1_1; no_compression] -> o ∈ options ctx) /\
  (no_tlsv1_2 ∈ options ctx <-> min_version cfg = MinVersion.tls13) /\
  verify_peer ctx = require_client_cert cfg /\ (verify_peer ctx = true -> verify_file ctx = Some (ca_file cfg) /\ ca_file cfg <> []) /\
  load (cert_file cfg) = Ok tt /\ load (key_file cfg) = Ok tt.
Proof.
  unfold tls_validate. do 2 (case_bool_decide; [done|]). destruct (require_client_cert cfg && bool_decide (ca_file cfg = [])) eqn:HC; [done|].
  intros _. unfold build_ssl_context. destruct (set_ciphers cipher_list) as [[]|]; cbn [mbind result_bind]; [|done].
  destruct (load (cert_file cfg)) as [[]|]; cbn [mbind result_bind]; [|done]. destruct (load (key_file cfg)) as [[]|]; cbn [mbind result_bind]; [|done].
  destruct (load_optional load (when_set (dh_params_file cfg))) as [[]|]; cbn [mbind result_bind]; [|done].
  destruct (load_optional load _) as [[]|]; cbn [mbind result_bind]; [|done]. intros [= <-]. cbn.
  split_and!; try done.
  - intros o. unfold tls_options. set_solver.
  - unfold tls_options. case_decide; [set_solver|]. set_solver.
  - intros HR. rewrite HR in HC |- *. cbn in HC. apply bool_decide_eq_false in HC. unfold when_set. by rewrite bool_decide_eq_false_2.
Qed.

Section alpn.
(** OpenSSL selects the first of the server's protocols that the client offers, from well-formed lists. *)
Context (SSL_select_next_proto : bytes -> bytes -> option bytes).
Hypothesis select_first : forall server client ss cs,
  parse_alpn (length server) server = Some ss -> parse_alpn (length client) client = Some cs ->
  SSL_select_next_proto server client = List.find (fun p => bool_decide (p ∈ cs)) ss.

(** A client that offers one of the drivers' protocols gets the first of them, and any other
    client is refused. *)
Theorem alpn_negotiates alpns offers :
  Forall (fun a => length a < 256) alpns -> Forall (fun a => length a < 256) offers ->
  match alpn_select_cb SSL_select_next_proto (build_alpn_wire alpns) (build_alpn_wire offers) with
  | AlpnOk p => p ∈ alpns /\ p ∈ offers
  | AlpnFatal => forall p, p ∈ alpns -> p ∉ offers
  end.
Proof.
  intros HA HO. unfold alpn_select_cb.
  rewrite (select_first _ _ alpns offers) by (by apply alpn_roundtrip). destruct (List.find _ alpns) as [p|] eqn:E.
  - apply List.find_some in E as [H1 H2]. split; [by apply list_elem_of_In|by apply bool_decide_eq_true in H2].
  - intros p Hp Ho. apply list_elem_of_In in Hp. pose proof (List.find_none _ _ E p Hp) as HN. by apply bool_decide_eq_false in HN.
Qed.
End alpn.

(** The hypothesis holds of the selection written out. *)
Lemma alpn_negotiates_witness :
  let select server client :=
    match parse_alpn (length server) server, parse_alpn (length client) client with
    | Some ss, Some cs => List.find (fun p => bool_decide (p ∈ cs)) ss
    | _, _ => None
    end in
  match alpn_select_cb select (build_alpn_wire [B "h2"; B "http/1.1"]) (build_alpn_wire [B "http/1.1"; B "spdy"]) with
  | AlpnOk p => p ∈ [B "h2"; B "http/1.1"] /\ p ∈ [B "http/1.1"; B "spdy"]
  | AlpnFatal => forall p, p ∈ [B "h2"; B "http/1.1"] -> p ∉ [B "http/1.1"; B "spdy"]
  end.
Proof.
  cbn zeta. apply alpn_negotiates.
  - intros server client ss cs -> ->. reflexivity.
  - repeat constructor; vm_compute; lia.
  - repeat constructor; vm_compute; lia.
Defined.
