(* ===== verification/SqlText.v ===== *)
(** * SQL text: string targets, number printing and the PostgreSQL dialect

    The lowest layer of the database component: what SQL is written into
    ([std::string], or the fixed-capacity [beaver::InlineString]), how sizes are
    printed at compile time ([beaver::constexpr_to_string]), the values a query
    carries ([FieldValue]) and how [PostgresDialect] quotes identifiers and
    formats literals. Every [operator+=] is one append, which may throw. *)

From S2P Require Import Prelude.

(** ** The [Appendable] concept: what SQL text is appended to *)
Class Appendable (T : Type) := {
  empty_text : T;
  append_sv : T -> bytes -> result exn T;
  append_c : T -> ascii -> result exn T;
  text_of : T -> bytes
}.

(** A length within an optional bound. *)
Definition within (cap : option nat) (n : nat) : bool := match cap with None => true | Some k => n <=? k end.

(** What appending promises: it appends exactly its argument while the total
    length stays within the capacity, and throws [std::out_of_range] beyond. *)
Class AppendableLaws (T : Type) `{Appendable T} := {
  capacity : option nat;
  text_ok : T -> Prop;
  text_ok_empty : text_ok empty_text;
  text_of_empty : text_of empty_text = [];
  text_within t : text_ok t -> within capacity (length (text_of t)) = true;
  append_sv_spec t s : text_ok t ->
    if within capacity (length (text_of t) + length s) then
      exists t', append_sv t s = Ok t' /\ text_ok t' /\ text_of t' = text_of t ++ s
    else exists w, append_sv t s = Err (OutOfRange w);
  append_c_spec t c : text_ok t ->
    if within capacity (length (text_of t) + 1) then
      exists t', append_c t c = Ok t' /\ text_ok t' /\ text_of t' = text_of t ++ [c]
    else exists w, append_c t c = Err (OutOfRange w)
}.

(** [std::string] and [std::pmr::string]: appending always succeeds. *)
#[export] Instance std_string : Appendable bytes := {|
  empty_text := [];
  append_sv t s := Ok (t ++ s);
  append_c t c := Ok (t ++ [c]);
  text_of t := t
|}.

(** ** [beaver::InlineString<Capacity>] *)
Definition NUL : ascii := "000"%char.

Record InlineString (Capacity : nat) := { size_ : nat; data_ : bytes }.
Arguments size_ {_}. Arguments data_ {_}.

Section inline_string.
Context {Capacity : nat}.
Implicit Types s : InlineString Capacity.

Definition inline_string : InlineString Capacity := {| size_ := 0; data_ := replicate (S Capacity) NUL |}.

(** Copies [sv] over the storage from [pos] on: the loops that assign [data_[pos + i]]. *)
Fixpoint write_at (data : bytes) (pos : nat) (sv : bytes) : bytes :=
  match sv with
  | [] => data
  | c :: sv' => write_at (<[pos := c]> data) (S pos) sv'
  end.

Definition inline_append_sv s (sv : bytes) : result exn (InlineString Capacity) :=
  if decide (Capacity < size_ s + length sv) then
    Err (OutOfRange (B "InlineString: capacity exceeded on string_view append"))
  else Ok {| size_ := size_ s + length sv; data_ := write_at (data_ s) (size_ s) sv |}.

Definition inline_append_c s (c : ascii) : result exn (InlineString Capacity) :=
  if decide (Capacity <= size_ s) then
    Err (OutOfRange (B "InlineString: capacity exceeded on char append"))
  else Ok {| size_ := S (size_ s); data_ := <[size_ s := c]> (data_ s) |}.

(** [assign] at run time: silently truncates to the capacity and terminates. *)
Definition inline_assign s (sv : bytes) : InlineString Capacity :=
  let n := Nat.min (length sv) Capacity in
  {| size_ := n; data_ := <[n := NUL]> (write_at (data_ s) 0 (take n sv)) |}.

Definition inline_clear s : InlineString Capacity := {| size_ := 0; data_ := <[0 := NUL]> (data_ s) |}.

Definition inline_view s : bytes := take (size_ s) (data_ s).
Definition inline_empty s : bool := size_ s =? 0.

(** What a C function reads through [c_str()]: up to the first NUL. *)
Definition inline_c_str s : bytes := default (data_ s) ((fun i => take i (data_ s)) <$> find_index NUL (data_ s)).

End inline_string.
Arguments inline_string : clear implicits.

#[export] Instance inline_appendable (n : nat) : Appendable (InlineString n) := {|
  empty_text := inline_string n;
  append_sv := inline_append_sv;
  append_c := inline_append_c;
  text_of := inline_view
|}.

(** ** [beaver::constexpr_to_string]: decimal text, two digits per division *)

(** The lookup table: the text [00 01 02 ... 99]. *)
Definition digit_table : bytes :=
  B "00010203040506070809" ++ B "10111213141516171819" ++ B "20212223242526272829" ++ B "30313233343536373839" ++
  B "40414243444546474849" ++ B "50515253545556575859" ++ B "60616263646566676869" ++ B "70717273747576777879" ++
  B "80818283848586878889" ++ B "90919293949596979899".

Definition digits_at (i : N) : ascii := default NUL (digit_table !! N.to_nat i).

(** The extraction loop; [buffer] holds what was written so far, in order. *)
Fixpoint pairs_loop (fuel : nat) (temp : N) (buffer : bytes) : option (N * bytes) :=
  if (temp <? 100)%N then Some (temp, buffer) else
  match fuel with
  | 0 => None
  | S fuel =>
      let idx := (temp mod 100 * 2)%N in
      pairs_loop fuel (temp / 100) (buffer ++ [digits_at (idx + 1); digits_at idx])
  end.

Definition constexpr_buffer (value : N) : option bytes :=
  st ← pairs_loop (N.size_nat value) value [];
  let '(temp, buffer) := st in
  Some (if (10 <=? temp)%N then
          let idx := (temp * 2)%N in buffer ++ [digits_at (idx + 1); digits_at idx]
        else buffer ++ [digit_char temp]).

Definition constexpr_to_string (value : N) : option bytes :=
  if (value =? 0)%N then Some (B "0") else reverse <$> constexpr_buffer value.

(** ** Field values

    The alternatives of the [FieldValue] variant. Integers are mathematical
    integers within their width (see [field_value_ok] in PgWire); a [float] or [double] is
    its IEEE bit pattern; the two byte-sequence alternatives and the two string
    alternatives differ in ownership only. *)
Inductive FieldValue :=
| FvNull
| FvBool (b : bool)
| FvChar (c : ascii)
| FvInt16 (i : Z)
| FvInt32 (i : Z)
| FvInt64 (i : Z)
| FvUint16 (i : Z)
| FvUint32 (i : Z)
| FvUint64 (i : Z)
| FvFloat (bits : Z)
| FvDouble (bits : Z)
| FvString (s : bytes)
| FvStringView (s : bytes)
| FvBytes (data : bytes)
| FvByteSpan (data : bytes).

#[export] Instance field_value_eq_dec : EqDecision FieldValue.
Proof. solve_decision. Defined.

(** [std::to_chars] for the floating types (shortest round-trip text), which is
    not modelled: a parameter. *)
Class FloatText := { float_chars : Z -> bytes; double_chars : Z -> bytes }.

(** ** [PostgresDialect] *)
Section dialect.
Context {T : Type} `{Appendable T}.

Definition escape_char (out : T) (c : ascii) : result exn T :=
  if decide (c = "'"%char) then append_sv out (B "''")
  else if decide (c = "\"%char) then append_sv out (B "\\")
  else append_c out c.

Fixpoint escape_string (out : T) (str : bytes) : result exn T :=
  match str with
  | [] => Ok out
  | c :: str' => out' ← escape_char out c; escape_string out' str'
  end.

Fixpoint escape_identifier (out : T) (name : bytes) : result exn T :=
  match name with
  | [] => Ok out
  | c :: name' =>
      out' ← (if decide (c = quote) then append_sv out [quote; quote] else append_c out c);
      escape_identifier out' name'
  end.

Definition quote_identifier (query : T) (name : bytes) : result exn T :=
  q1 ← append_c query quote;
  q2 ← escape_identifier q1 name;
  append_c q2 quote.

(** [constexpr_to_string] never fails on a [std::size_t] (see
    [constexpr_to_string_decimal]); the default below is unreachable. *)
Definition size_text (n : nat) : bytes := default [] (constexpr_to_string (N.of_nat n)).

Definition placeholder (query : T) (index : nat) : result exn T :=
  q ← append_c query "$"%char; append_sv q (size_text index).

Definition limit_clause (query : T) (limit offset : nat) : result exn T :=
  q ← append_sv query (B " LIMIT ");
  q ← append_sv q (size_text limit);
  if decide (0 < offset) then
    q ← append_sv q (B " OFFSET ");
    append_sv q (size_text offset)
  else Ok q.

Definition hex_chars (n : nat) : ascii := nth n (B "0123456789abcdef") NUL.

Definition hex_byte (c : ascii) : bytes := [hex_chars (code c / 16); hex_chars (code c mod 16)].

Definition format_binary_data (data : bytes) : bytes := B "'\x" ++ (data ≫= hex_byte) ++ B "'".

Definition format_bool (query : T) (v : bool) : result exn T := append_sv query (if v then B "TRUE" else B "FALSE").

Definition format_char (query : T) (v : ascii) : result exn T :=
  q ← append_sv query (B "'"); q ← escape_char q v; append_sv q (B "'").

Definition format_integral (query : T) (v : Z) : result exn T := append_sv query (to_decimal_Z v).

Definition format_string_value (query : T) (v : bytes) : result exn T :=
  q ← append_sv query (B "'"); q ← escape_string q v; append_sv q (B "'").

Context `{FloatText}.

Definition format_value (query : T) (value : FieldValue) : result exn T :=
  match value with
  | FvNull => append_sv query (B "NULL")
  | FvBool v => format_bool query v
  | FvChar v => format_char query v
  | FvFloat v => append_sv query (float_chars v)
  | FvDouble v => append_sv query (double_chars v)
  | FvInt16 v | FvInt32 v | FvInt64 v | FvUint16 v | FvUint32 v | FvUint64 v => format_integral query v
  | FvString v | FvStringView v => format_string_value query v
  | FvBytes v | FvByteSpan v => append_sv query (format_binary_data v)
  end.

End dialect.

(** ** Number printing *)
Lemma dec_digits_acc fuel n acc : dec_digits fuel n acc = dec_digits fuel n [] ++ acc.
Proof.
  revert n acc. induction fuel as [|fuel IH]; intros n acc; cbn [dec_digits]; [done|].
  destruct (n / 10 =? 0)%N; [done|]. rewrite IH, (IH _ [_]). by rewrite <- app_assoc.
Qed.

Lemma dec_digits_fuel f f' n :
  (n < 2 ^ N.of_nat f)%N -> (n < 2 ^ N.of_nat f')%N -> dec_digits f n [] = dec_digits f' n [].
Proof.
  revert f' n. induction f as [|f IH]; intros f' n Hf Hf'.
  - assert (n = 0)%N as -> by (simpl in Hf; lia). by destruct f'.
  - destruct f' as [|f']; [assert (n = 0)%N as -> by (simpl in Hf'; lia); done|].
    cbn [dec_digits]. destruct (N.eqb_spec (n / 10) 0); [done|].
    rewrite (dec_digits_acc f), (dec_digits_acc f'). f_equal.
    rewrite Nat2N.inj_succ, N.pow_succ_r' in Hf, Hf'. apply IH; apply N.Div0.div_lt_upper_bound; lia.
Qed.

(** The defining equation of decimal text. *)
Lemma to_decimal_step n :
  to_decimal n = if (n <? 10)%N then [digit_char n] else to_decimal (n / 10) ++ [digit_char (n mod 10)].
Proof.
  unfold to_decimal at 1. destruct (N.ltb_spec n 10) as [Hn|Hn].
  - assert (n mod 10 = n)%N as Hm by (by apply N.mod_small). assert (n / 10 = 0)%N as Hd by (by apply N.div_small).
    destruct (N.size_nat n); cbn [dec_digits]; rewrite Hm; [done|]. by rewrite Hd.
  - assert (1 <= n / 10)%N by (apply N.div_le_lower_bound; lia).
    pose proof (N_lt_pow2_size n) as Hs. destruct (N.size_nat n) as [|k]; [simpl in Hs; lia|].
    cbn [dec_digits]. destruct (N.eqb_spec (n / 10) 0); [lia|]. rewrite dec_digits_acc. f_equal.
    rewrite Nat2N.inj_succ, N.pow_succ_r' in Hs.
    apply dec_digits_fuel; [apply N.Div0.div_lt_upper_bound; lia|apply N_lt_pow2_size].
Qed.

Lemma to_decimal_small n : (n < 10)%N -> to_decimal n = [digit_char n].
Proof. intros Hn. rewrite to_decimal_step. by destruct (N.ltb_spec n 10); [|lia]. Qed.

Lemma to_decimal_pair n :
  (10 <= n < 100)%N -> to_decimal n = [digit_char (n / 10); digit_char (n mod 10)].
Proof.
  intros Hn. rewrite to_decimal_step. destruct (N.ltb_spec n 10); [lia|].
  rewrite to_decimal_small; [done|]. apply N.Div0.div_lt_upper_bound. lia.
Qed.

Lemma to_decimal_100 n :
  (100 <= n)%N -> to_decimal n = to_decimal (n / 100) ++ [digit_char (n mod 100 / 10); digit_char (n mod 100 mod 10)].
Proof.
  intros Hn. rewrite to_decimal_step. destruct (N.ltb_spec n 10); [lia|].
  rewrite (to_decimal_step (n / 10)).
  assert (10 <= n / 10)%N by (apply N.div_le_lower_bound; lia).
  destruct (N.ltb_spec (n / 10) 10); [lia|]. rewrite N.Div0.div_div, <- app_assoc. simpl. do 4 f_equal.
  - rewrite <- (N.mul_comm 10 10) at 1. change 100%N with (10 * 10)%N.
    rewrite N.Div0.mod_mul_r, N.mul_comm, N.div_add by lia.
    rewrite (N.div_small (n mod 10) 10) by (by apply N.mod_upper_bound). lia.
  - change 100%N with (10 * 10)%N. rewrite N.Div0.mod_mul_r, N.mul_comm, N.Div0.mod_add, N.Div0.mod_mod. done.
Qed.

Lemma length_to_decimal k n : (n < 10 ^ N.of_nat (S k))%N -> length (to_decimal n) <= S k.
Proof.
  revert n. induction k as [|k IH]; intros n Hn.
  - rewrite to_decimal_small by (simpl in Hn; lia). done.
  - rewrite to_decimal_step. destruct (n <? 10)%N; [simpl; lia|]. rewrite length_app. simpl.
    rewrite Nat2N.inj_succ, N.pow_succ_r' in Hn.
    assert (length (to_decimal (n / 10)) <= S k) by (apply IH, N.Div0.div_lt_upper_bound, Hn). lia.
Qed.

Lemma digit_table_spec i :
  (i < 100)%N -> digits_at (i * 2) = digit_char (i / 10) /\ digits_at (i * 2 + 1) = digit_char (i mod 10).
Proof.
  intros Hi.
  assert (H : Forall (fun k => let i := N.of_nat k in
    digits_at (i * 2) = digit_char (i / 10) /\ digits_at (i * 2 + 1) = digit_char (i mod 10)) (seq 0 100)).
  { apply Forall_forall. intros k Hk. apply elem_of_seq in Hk.
    do 100 (destruct k as [|k]; [split; reflexivity|]). lia. }
  rewrite Forall_forall in H. specialize (H (N.to_nat i)). rewrite N2Nat.id in H. apply H, elem_of_seq. lia.
Qed.

Lemma pairs_loop_spec fuel temp buffer :
  (temp < 2 ^ N.of_nat fuel)%N ->
  exists t buf, pairs_loop fuel temp buffer = Some (t, buf) /\ (t < 100)%N /\ (temp <> 0 -> t <> 0)%N /\
    to_decimal temp ++ reverse buffer = to_decimal t ++ reverse buf.
Proof.
  revert temp buffer. induction fuel as [|fuel IH]; intros temp buffer Ht; cbn [pairs_loop].
  - assert (temp = 0)%N as -> by (simpl in Ht; lia). simpl. eexists _, _. split_and!; [done|lia|done|done].
  - destruct (N.ltb_spec temp 100) as [Hlt|Hge]; [eexists _, _; split_and!; done|].
    rewrite Nat2N.inj_succ, N.pow_succ_r' in Ht.
    assert (1 <= temp / 100)%N by (apply N.div_le_lower_bound; lia).
    destruct (IH (temp / 100)%N (buffer ++ [digits_at (temp mod 100 * 2 + 1); digits_at (temp mod 100 * 2)]))
      as (t & buf & H1 & H2 & H3 & H4).
    { apply N.Div0.div_lt_upper_bound. lia. }
    exists t, buf. split_and!; [done|done|intros _; apply H3; lia|]. rewrite <- H4, reverse_app. simpl.
    destruct (digit_table_spec (temp mod 100)) as [-> ->]; [by apply N.mod_upper_bound|].
    rewrite (to_decimal_100 temp) by done. by rewrite <- !app_assoc.
Qed.

Lemma constexpr_to_string_lemma value : constexpr_to_string value = Some (to_decimal value).
Proof.
  unfold constexpr_to_string, constexpr_buffer. destruct (N.eqb_spec value 0) as [->|Hv]; [done|].
  destruct (pairs_loop_spec (N.size_nat value) value []) as (t & buf & -> & Ht & Ht0 & Hd); [apply N_lt_pow2_size|].
  simpl. rewrite app_nil_r in Hd. rewrite Hd.
  destruct (N.leb_spec 10 t) as [H10|H10]; simpl; rewrite reverse_app; do 2 f_equal.
  - destruct (digit_table_spec t) as [-> ->]; [done|]. by rewrite to_decimal_pair.
  - by rewrite to_decimal_small.
Qed.

Lemma size_text_decimal n : size_text n = to_decimal (N.of_nat n).
Proof. unfold size_text. by rewrite constexpr_to_string_lemma. Qed.

(** [constexpr_to_string] prints every [std::size_t] in decimal, and its
    twenty-byte buffer is never overrun. *)
Theorem constexpr_to_string_decimal value :
  (value < 2 ^ 64)%N ->
  constexpr_to_string value = Some (to_decimal value) /\ length (to_decimal value) <= 20.
Proof.
  intros Hv. split; [apply constexpr_to_string_lemma|]. apply length_to_decimal.
  eapply N.lt_le_trans; [exact Hv|]. by vm_compute.
Qed.

Lemma constexpr_to_string_decimal_witness :
  constexpr_to_string 18446744073709551615 = Some (B "18446744073709551615") /\
  length (to_decimal 18446744073709551615) <= 20.
Proof. apply (constexpr_to_string_decimal 18446744073709551615). by vm_compute. Defined.

(** ** Appending, as an interface *)
#[export] Instance std_string_laws : AppendableLaws bytes.
Proof. refine {| capacity := None; text_ok _ := True |}; simpl; eauto. Defined.

Section inline_string_facts.
Context {n : nat}.
Implicit Types s : InlineString n.

(** Storage that was only ever appended to: in bounds, and zero past the end. *)
Definition inline_ok s : Prop :=
  size_ s <= n /\ length (data_ s) = S n /\ drop (size_ s) (data_ s) = replicate (S n - size_ s) NUL.

Lemma write_at_spec data pos sv :
  pos + length sv <= length data ->
  length (write_at data pos sv) = length data /\
  take (pos + length sv) (write_at data pos sv) = take pos data ++ sv /\
  drop (pos + length sv) (write_at data pos sv) = drop (pos + length sv) data.
Proof.
  revert data pos. induction sv as [|c sv IH]; intros data pos Hl; simpl in *.
  - rewrite Nat.add_0_r, app_nil_r. done.
  - destruct (IH (<[pos := c]> data) (S pos)) as (H1 & H2 & H3); [rewrite length_insert; lia|].
    rewrite length_insert in H1. replace (pos + S (length sv)) with (S pos + length sv) by lia.
    split_and!; [done| |].
    + rewrite H2. rewrite take_S_r with (x := c) by (apply list_lookup_insert_eq; lia).
      rewrite take_insert_ge by lia. by rewrite <- app_assoc.
    + rewrite H3. by rewrite drop_insert_lt by lia.
Qed.

Lemma length_inline_view s : inline_ok s -> length (inline_view s) = size_ s.
Proof. intros (H1 & H2 & _). unfold inline_view. rewrite length_take. lia. Qed.

Lemma inline_append_sv_spec s sv :
  inline_ok s ->
  if length (inline_view s) + length sv <=? n then
    exists s', inline_append_sv s sv = Ok s' /\ inline_ok s' /\ inline_view s' = inline_view s ++ sv
  else exists w, inline_append_sv s sv = Err (OutOfRange w).
Proof.
  intros Hok. rewrite length_inline_view by done. destruct Hok as (H1 & H2 & H3). unfold inline_append_sv.
  destruct (Nat.leb_spec (size_ s + length sv) n) as [Hle|Hgt].
  - rewrite decide_False by lia. eexists; split; [done|].
    destruct (write_at_spec (data_ s) (size_ s) sv) as (L1 & L2 & L3); [lia|].
    split; [split_and!; simpl; [lia|lia|]|unfold inline_view; simpl; by rewrite L2].
    rewrite L3, <- drop_drop, H3, drop_replicate. f_equal. lia.
  - rewrite decide_True by lia. eauto.
Qed.

Lemma inline_append_c_spec s c :
  inline_ok s ->
  if length (inline_view s) + 1 <=? n then
    exists s', inline_append_c s c = Ok s' /\ inline_ok s' /\ inline_view s' = inline_view s ++ [c]
  else exists w, inline_append_c s c = Err (OutOfRange w).
Proof.
  intros Hok. rewrite length_inline_view by done. destruct Hok as (H1 & H2 & H3). unfold inline_append_c.
  destruct (Nat.leb_spec (size_ s + 1) n) as [Hle|Hgt].
  - rewrite decide_False by lia. eexists; split; [done|].
    split; [split_and!; simpl; [lia|by rewrite length_insert|]|unfold inline_view; simpl].
    + rewrite drop_insert_lt by lia. replace (S (size_ s)) with (size_ s + 1) by lia.
      rewrite <- drop_drop, H3, drop_replicate. f_equal. lia.
    + rewrite take_S_r with (x := c) by (apply list_lookup_insert_eq; lia). by rewrite take_insert_ge by lia.
  - rewrite decide_True by lia. eauto.
Qed.

(** Append-only text without a NUL is what a C function reads. *)
Lemma inline_c_str_view s : inline_ok s -> NUL ∉ inline_view s -> inline_c_str s = inline_view s.
Proof.
  intros (H1 & H2 & H3) Hn. unfold inline_c_str.
  assert (Ed : data_ s = inline_view s ++ NUL :: replicate (n - size_ s) NUL).
  { rewrite <- (take_drop (size_ s) (data_ s)) at 1. rewrite H3. by replace (S n - size_ s) with (S (n - size_ s)) by lia. }
  rewrite Ed, find_index_app by done. simpl. by rewrite take_app_length.
Qed.

End inline_string_facts.

#[export] Instance inline_string_laws (n : nat) : AppendableLaws (InlineString n).
Proof.
  refine {| capacity := Some n; text_ok := inline_ok |}.
  - split_and!; [simpl; lia|apply length_replicate|done].
  - done.
  - intros t Ht. simpl. rewrite length_inline_view by done. apply Nat.leb_le, Ht.
  - intros t s Ht. exact (inline_append_sv_spec t s Ht).
  - intros t c Ht. exact (inline_append_c_spec t c Ht).
Defined.

(** [f] appends exactly [s]: within the capacity it succeeds and writes [s],
    beyond it throws. *)
Section appends.
Context {T : Type} `{AppendableLaws T}.

Definition Appends (f : T -> result exn T) (s : bytes) : Prop := forall t, text_ok t ->
  if within capacity (length (text_of t) + length s) then
    exists t', f t = Ok t' /\ text_ok t' /\ text_of t' = text_of t ++ s
  else exists w, f t = Err (OutOfRange w).

Lemma Appends_sv s : Appends (fun t => append_sv t s) s.
Proof. intros t Ht. by apply append_sv_spec. Qed.

Lemma Appends_c c : Appends (fun t => append_c t c) [c].
Proof. intros t Ht. by apply append_c_spec. Qed.

Lemma within_mono cap a b : a <= b -> within cap b = true -> within cap a = true.
Proof. destruct cap; simpl; [|done]. rewrite !Nat.leb_le. lia. Qed.

Lemma Appends_ret : Appends (fun t => Ok t) [].
Proof.
  intros t Ht. simpl. rewrite Nat.add_0_r, text_within by done. exists t. by rewrite app_nil_r.
Qed.

Lemma Appends_bind f g s1 s2 : Appends f s1 -> Appends g s2 -> Appends (fun t => t' ← f t; g t') (s1 ++ s2).
Proof.
  intros Hf Hg t Ht. specialize (Hf t Ht). rewrite length_app, Nat.add_assoc.
  destruct (within capacity (length (text_of t) + length s1)) eqn:E1.
  - destruct Hf as (t' & -> & Ht' & Et). specialize (Hg t' Ht'). simpl.
    rewrite Et, length_app in Hg. by rewrite app_assoc.
  - destruct Hf as [w Hf]. rewrite Hf. simpl.
    destruct (within capacity (length (text_of t) + length s1 + length s2)) eqn:E2; [|by exists w].
    apply (within_mono _ (length (text_of t) + length s1)) in E2; [congruence|lia].
Qed.

(** What each dialect function writes. *)
Definition escaped_char (c : ascii) : bytes :=
  if decide (c = "'"%char) then B "''" else if decide (c = "\"%char) then B "\\" else [c].

Definition quoted_name (name : bytes) : bytes :=
  quote :: (name ≫= fun c => if decide (c = quote) then [quote; quote] else [c]) ++ [quote].

Lemma escape_char_appends c : Appends (fun t => escape_char t c) (escaped_char c).
Proof.
  unfold escape_char, escaped_char. destruct (decide (c = "'"%char)); [apply Appends_sv|].
  destruct (decide (c = "\"%char)); [apply Appends_sv|apply Appends_c].
Qed.

Lemma escape_string_appends s : Appends (fun t => escape_string t s) (s ≫= escaped_char).
Proof.
  induction s as [|c s IH]; [apply Appends_ret|]. cbn [escape_string mbind list_bind].
  apply Appends_bind; [apply escape_char_appends|done].
Qed.

Lemma quote_identifier_appends name : Appends (fun t => quote_identifier t name) (quoted_name name).
Proof.
  change (quoted_name name) with ([quote] ++ ((name ≫= fun c => if decide (c = quote) then [quote; quote] else [c]) ++ [quote])).
  apply (Appends_bind (fun t => append_c t quote)); [apply Appends_c|].
  apply (Appends_bind (fun t => escape_identifier t name)); [|apply Appends_c].
  induction name as [|c name IH]; [apply Appends_ret|]. cbn [escape_identifier mbind list_bind].
  apply Appends_bind; [|done]. destruct (decide (c = quote)); [apply Appends_sv|apply Appends_c].
Qed.

Lemma placeholder_appends i : Appends (fun t => placeholder t i) ("$"%char :: to_decimal (N.of_nat i)).
Proof.
  rewrite <- size_text_decimal. apply (Appends_bind (fun t => append_c t "$"%char) _ ["$"%char]);
    [apply Appends_c|apply Appends_sv].
Qed.

Definition limit_text (limit offset : nat) : bytes :=
  B " LIMIT " ++ to_decimal (N.of_nat limit) ++
  (if decide (0 < offset) then B " OFFSET " ++ to_decimal (N.of_nat offset) else []).

Lemma limit_clause_appends limit offset : Appends (fun t => limit_clause t limit offset) (limit_text limit offset).
Proof.
  unfold limit_text. rewrite <- !size_text_decimal.
  apply (Appends_bind (fun t => append_sv t (B " LIMIT "))); [apply Appends_sv|].
  apply (Appends_bind (fun t => append_sv t (size_text limit))); [apply Appends_sv|].
  destruct (decide (0 < offset)); [|apply Appends_ret].
  apply (Appends_bind (fun t => append_sv t (B " OFFSET "))); apply Appends_sv.
Qed.

Context `{FloatText}.

Definition value_text (v : FieldValue) : bytes :=
  match v with
  | FvNull => B "NULL"
  | FvBool b => if b then B "TRUE" else B "FALSE"
  | FvChar c => B "'" ++ escaped_char c ++ B "'"
  | FvFloat b => float_chars b
  | FvDouble b => double_chars b
  | FvInt16 i | FvInt32 i | FvInt64 i | FvUint16 i | FvUint32 i | FvUint64 i => to_decimal_Z i
  | FvString s | FvStringView s => B "'" ++ (s ≫= escaped_char) ++ B "'"
  | FvBytes d | FvByteSpan d => format_binary_data d
  end.

Lemma format_value_appends v : Appends (fun t => format_value t v) (value_text v).
Proof.
  assert (Hq : forall f s, Appends f s -> Appends (fun t => q ← append_sv t (B "'"); q ← f q; append_sv q (B "'")) (B "'" ++ s ++ B "'")).
  { intros f s Hf. apply Appends_bind; [apply Appends_sv|]. apply Appends_bind; [done|apply Appends_sv]. }
  destruct v; cbn [format_value value_text]; try apply Appends_sv.
  - apply Hq, escape_char_appends.
  - apply Hq, escape_string_appends.
  - apply Hq, escape_string_appends.
Qed.

End appends.

#[export] Hint Resolve Appends_sv Appends_c Appends_ret quote_identifier_appends placeholder_appends
  limit_clause_appends format_value_appends : menagerie.

(** Writing into an empty [std::string]. *)
Lemma Appends_std (f : bytes -> result exn bytes) s q : Appends f s -> f [] = Ok q -> q = s.
Proof. intros Hf Hq. destruct (Hf [] I) as (q' & E & _ & Et). rewrite Hq in E. by injection E as ->. Qed.

(** ** How PostgreSQL reads the quoted text back

    The lexical rule for a quoted identifier and, with
    [standard_conforming_strings] on (the server's default), for a string
    constant: the text runs to the first delimiter that is not doubled, and a
    doubled delimiter stands for one. *)
Fixpoint delimited (q : ascii) (s : bytes) : option (bytes * bytes) :=
  match s with
  | [] => None
  | c :: s' =>
      if decide (c = q) then
        match s' with
        | c' :: s'' => if decide (c' = q) then prod_map (cons q) id <$> delimited q s'' else Some ([], s')
        | [] => Some ([], [])
        end
      else prod_map (cons c) id <$> delimited q s'
  end.

Definition read_delimited (q : ascii) (s : bytes) : option (bytes * bytes) :=
  match s with c :: s' => if decide (c = q) then delimited q s' else None | [] => None end.

Definition doubled (q : ascii) (s : bytes) : bytes := s ≫= fun c => if decide (c = q) then [q; q] else [c].

Lemma delimited_doubled q s rest :
  head rest <> Some q -> delimited q (doubled q s ++ q :: rest) = Some (s, rest).
Proof.
  intros Hr. induction s as [|c s IH].
  - simpl. rewrite decide_True by done. destruct rest as [|r rest]; [done|]. by rewrite decide_False by (simpl in Hr; congruence).
  - unfold doubled in *. cbn [mbind list_bind]. destruct (decide (c = q)) as [->|Hc].
    + simpl app. cbn [delimited]. rewrite !decide_True by done. by rewrite IH.
    + simpl app. cbn [delimited]. rewrite decide_False by done. by rewrite IH.
Qed.

Lemma doubled_absent q s : q ∉ s -> doubled q s = s.
Proof.
  unfold doubled. induction s as [|c s IH]; intros Hq; [done|]. cbn [mbind list_bind].
  rewrite decide_False by set_solver. simpl. f_equal. apply IH. set_solver.
Qed.

Lemma escaped_doubled s : (s ≫= escaped_char) = doubled "'" (doubled "\" s).
Proof.
  unfold doubled, escaped_char. induction s as [|c s IH]; [done|]. cbn [mbind list_bind]. rewrite bind_app, IH. f_equal.
  repeat case_decide; subst; try done. simpl. by rewrite decide_False.
Qed.

(** A quoted identifier cannot be broken out of: whatever the name contains, the
    server reads exactly that name back, and the text after it is untouched. *)
Theorem quote_identifier_contained name rest q :
  quote_identifier ([] : bytes) name = Ok q -> head rest <> Some quote ->
  read_delimited quote (q ++ rest) = Some (name, rest).
Proof.
  intros Hq Hr. apply (Appends_std (fun t => quote_identifier t name) (quoted_name name)) in Hq as ->; [|apply quote_identifier_appends].
  unfold quoted_name. cbn [app read_delimited]. rewrite decide_True, <- app_assoc by done. by apply delimited_doubled.
Qed.

Lemma quote_identifier_contained_witness :
  let name := B "a" ++ [quote] ++ B "; DROP TABLE t; --" in
  read_delimited quote (quoted_name name ++ B " FROM t") = Some (name, B " FROM t").
Proof. by apply (quote_identifier_contained _ (B " FROM t")). Defined.

(** C29. A formatted string literal cannot be broken out of either: it ends at its own
    closing quote whatever the string contains. The constant read back is the
    string itself when it has no backslash, and the string with every backslash
    doubled otherwise. *)
Theorem string_literal_contained `{FloatText} s rest q :
  format_value ([] : bytes) (FvString s) = Ok q -> head rest <> Some "'"%char ->
  read_delimited "'" (q ++ rest) = Some (doubled "\" s, rest) /\
  ("\"%char ∉ s -> read_delimited "'" (q ++ rest) = Some (s, rest)).
Proof.
  intros Hq Hr. apply (Appends_std (fun t => format_value t (FvString s)) (value_text (FvString s))) in Hq as ->; [|apply format_value_appends].
  simpl. rewrite escaped_doubled.
  assert (Hd : read_delimited "'" ("'"%char :: (doubled "'" (doubled "\" s) ++ ["'"%char]) ++ rest) = Some (doubled "\" s, rest)).
  { cbn [read_delimited]. rewrite decide_True, <- app_assoc by done. by apply delimited_doubled. }
  split; [exact Hd|]. intros Hb. rewrite (doubled_absent "\" s) in Hd |- * by done. exact Hd.
Qed.

Definition no_floats : FloatText := {| float_chars _ := B "0"; double_chars _ := B "0" |}.

Lemma string_literal_contained_witness :
  read_delimited "'" (B "'O''Brien'); --" ) = Some (B "O'Brien", B "); --") /\
  read_delimited "'" (B "'C:\\tmp'") = Some (B "C:\\tmp", []).
Proof.
  split.
  - apply (string_literal_contained (H := no_floats) (B "O'Brien") (B "); --") (B "'O''Brien'")); [done|done|].
    by vm_compute; intros H; repeat (apply elem_of_cons in H as [[=]|H]); apply elem_of_nil in H.
  - apply (string_literal_contained (H := no_floats) (B "C:\tmp") [] (B "'C:\\tmp'")); done.
Defined.

(** After [assign] or [clear], a shorter text is no longer NUL-terminated where it
    ends: [c_str()] then shows stale bytes, while [view()] does not. *)
Example inline_c_str_stale :
  let s := inline_clear (inline_assign (inline_string 8) (B "hello")) in
  (inline_view <$> inline_append_c s "x"%char : result exn bytes) = Ok (B "x") /\
  (inline_c_str <$> inline_append_c s "x"%char : result exn bytes) = Ok (B "xello").
Proof. by vm_compute. Qed.
