(* ===== verification/SqlSchema.v ===== *)
(** * Table schemas, records and the INSERT/UPDATE builders

    The primitives the query layer is built on: the PostgreSQL type names, the
    runtime table schema with its name index, records over a schema, and the
    builders that turn records into INSERT rows. *)

From S2P Require Import Prelude SqlText.

(** ** PostgreSQL type names ([SqlTypeRegistry]) *)

(** [SingleParamStorage]: the characters of [PREFIX(N)], digit by digit, and its
    advertised length. *)
Definition single_param_value (prefix : bytes) (n : N) : bytes :=
  prefix ++ B "(" ++
  (if (10000 <=? n)%N then [digit_char (n / 10000 mod 10)] else []) ++
  (if (1000 <=? n)%N then [digit_char (n / 1000 mod 10)] else []) ++
  (if (100 <=? n)%N then [digit_char (n / 100 mod 10)] else []) ++
  (if (10 <=? n)%N then [digit_char (n / 10 mod 10)] else []) ++
  [digit_char (n mod 10)] ++ B ")".

Definition digit_count (n : N) : nat :=
  if (n <? 10)%N then 1 else if (n <? 100)%N then 2 else if (n <? 1000)%N then 3 else if (n <? 10000)%N then 4 else 5.

(** A [std::string_view] over the first [length] bytes of a zero-padded array. *)
Definition array_view (size : nat) (value : bytes) (length : nat) : bytes :=
  take length (value ++ replicate (size - List.length value) NUL).

Definition single_param (prefix : bytes) (n : N) : bytes :=
  array_view 32 (single_param_value prefix n) (length prefix + 1 + digit_count n + 1).

Definition numeric_value (precision scale : N) : bytes :=
  B "NUMERIC(" ++
  (if (10 <=? precision)%N then [digit_char (precision / 10)] else []) ++ [digit_char (precision mod 10)] ++
  B "," ++
  (if (10 <=? scale)%N then [digit_char (scale / 10)] else []) ++ [digit_char (scale mod 10)] ++
  B ")".

Definition numeric (precision scale : N) : bytes :=
  array_view 16 (numeric_value precision scale) (8 + digit_count precision + 1 + digit_count scale + 1).

Definition timestamptz_p (p : N) : bytes :=
  array_view 32 (B "TIMESTAMP(" ++ [digit_char p] ++ B ") WITH TIME ZONE") 30.

(** The C++ types a field can be declared with, and [sql_type_for] PostgreSQL. *)
Inductive CppType :=
| CppBool | CppChar | CppInt16 | CppInt32 | CppInt64 | CppUint16 | CppUint32 | CppUint64
| CppFloat | CppDouble | CppString | CppStringView | CppBytes | CppByteSpan.

Definition sql_type_for (ty : CppType) : bytes :=
  match ty with
  | CppBool => B "BOOLEAN"
  | CppChar => single_param (B "CHAR") 1
  | CppInt16 => B "SMALLINT"
  | CppInt32 | CppUint16 => B "INTEGER"
  | CppInt64 | CppUint32 => B "BIGINT"
  | CppUint64 => numeric 20 0
  | CppFloat => B "REAL"
  | CppDouble => B "DOUBLE PRECISION"
  | CppString | CppStringView => B "TEXT"
  | CppBytes | CppByteSpan => B "BYTEA"
  end.

Inductive Providers := NoProvider | PostgreSQL.

(** ** [DynamicFieldSchema] and [DynamicTable] *)
Record DynamicFieldSchema := {
  field_name : bytes;
  db_type : bytes;
  is_nullable : bool;
  is_primary_key : bool;
  is_foreign_key : bool;
  is_unique : bool;
  is_indexed : bool;
  foreign_table : bytes;
  foreign_column : bytes;
  default_value : bytes;
  max_length : nat
}.

Definition dynamic_field_schema (name ty : bytes) : DynamicFieldSchema := {|
  field_name := name; db_type := ty; is_nullable := true; is_primary_key := false; is_foreign_key := false;
  is_unique := false; is_indexed := false; foreign_table := []; foreign_column := []; default_value := [];
  max_length := 0 |}.

Record DynamicTable := {
  table_name : bytes;
  fields : list DynamicFieldSchema;
  field_index : gmap bytes nat;
  provider : Providers
}.

Definition dynamic_table (name : bytes) : DynamicTable :=
  {| table_name := name; fields := []; field_index := ∅; provider := NoProvider |}.

Definition dynamic_table_for (name : bytes) (p : Providers) : DynamicTable :=
  {| table_name := name; fields := []; field_index := ∅; provider := p |}.

Definition add_field (t : DynamicTable) (name ty : bytes) : DynamicTable :=
  let fs := fields t ++ [dynamic_field_schema name ty] in
  {| table_name := table_name t; fields := fs; field_index := <[name := length fs - 1]> (field_index t);
     provider := provider t |}.

(** The overload that infers the SQL type from the stored provider. *)
Definition add_field_inferred (t : DynamicTable) (ty : CppType) (name : bytes) : result exn DynamicTable :=
  match provider t with
  | NoProvider => Err (LogicError (B "Cannot infer SQL type: DynamicTable has no provider set. " ++
                                   B "Use DynamicTable(name, provider) constructor."))
  | PostgreSQL => Ok (add_field t name (sql_type_for ty))
  end.

Definition get_field_schema (t : DynamicTable) (name : bytes) : option DynamicFieldSchema :=
  i ← field_index t !! name; fields t !! i.

(** The builders mutate the schema the index points at, and do nothing for an
    unknown name. *)
Definition update_field (t : DynamicTable) (name : bytes) (f : DynamicFieldSchema -> DynamicFieldSchema) : DynamicTable :=
  match field_index t !! name with
  | Some i => {| table_name := table_name t; fields := alter f i (fields t); field_index := field_index t;
                 provider := provider t |}
  | None => t
  end.

Definition primary_key (t : DynamicTable) (name : bytes) : DynamicTable :=
  update_field t name (fun f => {|
    field_name := field_name f; db_type := db_type f; is_nullable := false; is_primary_key := true;
    is_foreign_key := is_foreign_key f; is_unique := is_unique f; is_indexed := is_indexed f;
    foreign_table := foreign_table f; foreign_column := foreign_column f; default_value := default_value f;
    max_length := max_length f |}).

Definition nullable (t : DynamicTable) (name : bytes) (is_null : bool) : DynamicTable :=
  update_field t name (fun f => {|
    field_name := field_name f; db_type := db_type f; is_nullable := is_null; is_primary_key := is_primary_key f;
    is_foreign_key := is_foreign_key f; is_unique := is_unique f; is_indexed := is_indexed f;
    foreign_table := foreign_table f; foreign_column := foreign_column f; default_value := default_value f;
    max_length := max_length f |}).

Definition foreign_key (t : DynamicTable) (name ref_table ref_column : bytes) : DynamicTable :=
  update_field t name (fun f => {|
    field_name := field_name f; db_type := db_type f; is_nullable := is_nullable f; is_primary_key := is_primary_key f;
    is_foreign_key := true; is_unique := is_unique f; is_indexed := is_indexed f;
    foreign_table := ref_table; foreign_column := ref_column; default_value := default_value f;
    max_length := max_length f |}).

Definition unique (t : DynamicTable) (name : bytes) : DynamicTable :=
  update_field t name (fun f => {|
    field_name := field_name f; db_type := db_type f; is_nullable := is_nullable f; is_primary_key := is_primary_key f;
    is_foreign_key := is_foreign_key f; is_unique := true; is_indexed := is_indexed f;
    foreign_table := foreign_table f; foreign_column := foreign_column f; default_value := default_value f;
    max_length := max_length f |}).

Definition indexed (t : DynamicTable) (name : bytes) : DynamicTable :=
  update_field t name (fun f => {|
    field_name := field_name f; db_type := db_type f; is_nullable := is_nullable f; is_primary_key := is_primary_key f;
    is_foreign_key := is_foreign_key f; is_unique := is_unique f; is_indexed := true;
    foreign_table := foreign_table f; foreign_column := foreign_column f; default_value := default_value f;
    max_length := max_length f |}).

Definition field_names (t : DynamicTable) : list bytes := field_name <$> fields t.

(** [DynamicTable::column]: the (name, table) of a column reference. [std::runtime_error]
    is rendered as its own constructor of the error type below. *)
Inductive schema_error := UnknownColumn (what : bytes) | SchemaExn (e : exn).

Definition column (t : DynamicTable) (name : bytes) : result schema_error (bytes * bytes) :=
  match get_field_schema t name with
  | Some f => Ok (field_name f, table_name t)
  | None => Err (UnknownColumn (B "Unknown column: " ++ name ++ B " in table " ++ table_name t))
  end.

(** ** [Record] and [Field] *)
Record Field := { field_value : FieldValue; field_schema : DynamicFieldSchema }.

Record Rec := { rec_schema : DynamicTable; rec_fields : list Field; rec_index : gmap bytes nat }.

(** The constructor's loop: index the name at the current size, then append. *)
Fixpoint record_loop (schemas : list DynamicFieldSchema) (fs : list Field) (idx : gmap bytes nat)
  : list Field * gmap bytes nat :=
  match schemas with
  | [] => (fs, idx)
  | s :: schemas' =>
      record_loop schemas' (fs ++ [{| field_value := FvNull; field_schema := s |}]) (<[field_name s := length fs]> idx)
  end.

Definition record (schema : option DynamicTable) : result exn Rec :=
  match schema with
  | None => Err (InvalidArgument (B "Schema cannot be null"))
  | Some t => let '(fs, idx) := record_loop (fields t) [] ∅ in
              Ok {| rec_schema := t; rec_fields := fs; rec_index := idx |}
  end.

Definition get_field (r : Rec) (name : bytes) : option Field := i ← rec_index r !! name; rec_fields r !! i.

(** [operator[]] and [at] *)
Definition record_get (r : Rec) (name : bytes) : result exn Field :=
  match get_field r name with
  | Some f => Ok f
  | None => Err (OutOfRange (B "Field not found: " ++ name))
  end.

Definition record_at (r : Rec) (i : nat) : result exn Field :=
  match rec_fields r !! i with
  | Some f => Ok f
  | None => Err (OutOfRange (B "Field index out of range. Index is " ++ to_decimal (N.of_nat i) ++
                             B " when size is " ++ to_decimal (N.of_nat (length (rec_fields r)))))
  end.

(** [record[name].set(value)]: assignment through the returned reference. *)
Definition record_set (r : Rec) (name : bytes) (v : FieldValue) : result exn Rec :=
  match rec_index r !! name with
  | Some i => Ok {| rec_schema := rec_schema r;
                    rec_fields := alter (fun f => {| field_value := v; field_schema := field_schema f |}) i (rec_fields r);
                    rec_index := rec_index r |}
  | None => Err (OutOfRange (B "Field not found: " ++ name))
  end.

Definition field_is_null (f : Field) : bool := match field_value f with FvNull => true | _ => false end.

(** ** [InsertExpr] *)

(** The listing of a record's fields in the error message: at most 32 names. *)
Fixpoint defined_names (total : nat) (fs : list Field) (defined : bytes) (listed : nat) : bytes :=
  match fs with
  | [] => defined
  | f :: fs' =>
      if listed =? 32 then defined ++ B ", ... (" ++ to_decimal (N.of_nat total) ++ B " fields total)"
      else defined_names total fs' ((if listed =? 0 then defined else defined ++ B ", ") ++ field_name (field_schema f))
             (S listed)
  end.

Definition throw_missing_insert_column (col : bytes) (r : Rec) (row_index : nat) : exn :=
  let names := defined_names (length (rec_fields r)) (rec_fields r) [] 0 in
  let defined := if bool_decide (names = []) then B "<none>" else names in
  OutOfRange (B "INSERT row " ++ to_decimal (N.of_nat row_index) ++ B ": into(...) asks for column " ++
    [quote] ++ col ++ [quote] ++ B ", but the Record passed carries schema " ++
    [quote] ++ table_name (rec_schema r) ++ [quote] ++ B ", which defines no such field (defines: " ++ defined ++ B ")").

Record InsertBody := { insert_columns : list bytes; insert_rows : list (list FieldValue) }.

Definition insert_into : InsertBody := {| insert_columns := []; insert_rows := [] |}.

Definition into (e : InsertBody) (cols : list bytes) : InsertBody :=
  {| insert_columns := cols; insert_rows := insert_rows e |}.

Definition push_row (e : InsertBody) (row : list FieldValue) : InsertBody :=
  {| insert_columns := insert_columns e; insert_rows := insert_rows e ++ [row] |}.

Definition insert_values := push_row.

(** [values(const Record&)]: reads each column, and throws on the first the
    record's schema does not define. *)
Fixpoint read_columns (cols : list bytes) (r : Rec) (row_index : nat) (row : list FieldValue)
  : result exn (list FieldValue) :=
  match cols with
  | [] => Ok row
  | col :: cols' =>
      match get_field r col with
      | None => Err (throw_missing_insert_column col r row_index)
      | Some f => read_columns cols' r row_index (row ++ [field_value f])
      end
  end.

Definition values_record (e : InsertBody) (r : Rec) : result exn InsertBody :=
  row ← read_columns (insert_columns e) r (length (insert_rows e)) [];
  Ok (push_row e row).

(** [values(Record&&)]: the same, moving each value out of the record; what a
    moved-from value becomes is not specified, so it is a parameter. *)
Section moved.
Context (moved_from : FieldValue -> FieldValue).

Fixpoint take_columns (cols : list bytes) (r : Rec) (row_index : nat) (row : list FieldValue)
  : result exn (list FieldValue) * Rec :=
  match cols with
  | [] => (Ok row, r)
  | col :: cols' =>
      match rec_index r !! col with
      | None => (Err (throw_missing_insert_column col r row_index), r)
      | Some i =>
          match rec_fields r !! i with
          | None => (Err (throw_missing_insert_column col r row_index), r)
          | Some f =>
              let r' := {| rec_schema := rec_schema r;
                           rec_fields := <[i := {| field_value := moved_from (field_value f);
                                                   field_schema := field_schema f |}]> (rec_fields r);
                           rec_index := rec_index r |} in
              take_columns cols' r' row_index (row ++ [field_value f])
          end
      end
  end.

Definition values_record_move (e : InsertBody) (r : Rec) : result exn InsertBody :=
  row ← fst (take_columns (insert_columns e) r (length (insert_rows e)) []);
  Ok (push_row e row).

End moved.

(** [batch]: one row per record; on a failure the rows before it are kept. *)
Fixpoint batch (e : InsertBody) (rs : list Rec) : result exn unit * InsertBody :=
  match rs with
  | [] => (Ok tt, e)
  | r :: rs' =>
      match values_record e r with
      | Ok e' => batch e' rs'
      | Err x => (Err x, e)
      end
  end.

(** ** [UpdateExpr::set] *)
Definition update_set (assignments : list (bytes * FieldValue)) (col : bytes) (v : FieldValue) : list (bytes * FieldValue) :=
  assignments ++ [(col, v)].

Definition update_set_all (assignments assigns : list (bytes * FieldValue)) : list (bytes * FieldValue) :=
  fold_left (fun acc a => acc ++ [a]) assigns assignments.

(** ** Type names *)
Lemma array_view_exact size value n : n = length value -> array_view size value n = value.
Proof. intros ->. unfold array_view. by rewrite take_app_length. Qed.

Lemma decimal_5 n : (n < 100000)%N ->
  to_decimal n =
  (if (10000 <=? n)%N then [digit_char (n / 10000 mod 10)] else []) ++
  (if (1000 <=? n)%N then [digit_char (n / 1000 mod 10)] else []) ++
  (if (100 <=? n)%N then [digit_char (n / 100 mod 10)] else []) ++
  (if (10 <=? n)%N then [digit_char (n / 10 mod 10)] else []) ++ [digit_char (n mod 10)].
Proof.
  assert (Hs : forall k, to_decimal k = (if (10 <=? k)%N then to_decimal (k / 10) else []) ++ [digit_char (k mod 10)]).
  { intros k. rewrite to_decimal_step at 1. destruct (N.ltb_spec k 10), (N.leb_spec 10 k); try lia; [|done].
    by rewrite N.mod_small. }
  assert (Hd : forall m, (m <> 0)%N -> forall k, (10 <=? k / m)%N = (10 * m <=? k)%N).
  { intros m Hm k. destruct (N.leb_spec (10 * m) k) as [L|L].
    - apply N.leb_le, N.div_le_lower_bound; [done|lia].
    - apply N.leb_gt, N.Div0.div_lt_upper_bound; lia. }
  intros Hn. rewrite Hs, (Hs (n / 10)%N), (Hs (n / 10 / 10)%N), (Hs (n / 10 / 10 / 10)%N), (Hs (n / 10 / 10 / 10 / 10)%N).
  rewrite !N.Div0.div_div. change (10 * 10 * 10 * 10)%N with 10000%N. change (10 * 10 * 10)%N with 1000%N.
  change (10 * 10)%N with 100%N.
  rewrite (Hd 10%N), (Hd 100%N), (Hd 1000%N), (Hd 10000%N) by done.
  change (10 * 10)%N with 100%N. change (10 * 100)%N with 1000%N. change (10 * 1000)%N with 10000%N.
  change (10 * 10000)%N with 100000%N.
  destruct (N.leb_spec 100000 n); [lia|].
  destruct (N.leb_spec 10 n), (N.leb_spec 100 n), (N.leb_spec 1000 n), (N.leb_spec 10000 n);
    try lia; by rewrite <- ?app_assoc.
Qed.

Lemma digit_count_length n : (n < 100000)%N -> digit_count n = length (to_decimal n).
Proof.
  intros Hn. rewrite decimal_5, !length_app by done. unfold digit_count. simpl.
  destruct (N.ltb_spec n 10), (N.ltb_spec n 100), (N.ltb_spec n 1000), (N.ltb_spec n 10000),
    (N.leb_spec 10 n), (N.leb_spec 100 n), (N.leb_spec 1000 n), (N.leb_spec 10000 n); done || lia.
Qed.

(** The compile-time type names are the SQL ones: [PREFIX(N)] for a parameter of
    up to five digits and [NUMERIC(P,S)] for two-digit precision and scale, and
    their characters fit the storage arrays. *)
Theorem type_names_exact prefix n p s :
  (n <= 99999)%N -> length prefix <= 9 -> (p <= 99)%N -> (s <= 99)%N ->
  single_param prefix n = prefix ++ B "(" ++ to_decimal n ++ B ")" /\ length (single_param_value prefix n) <= 32 /\
  numeric p s = B "NUMERIC(" ++ to_decimal p ++ B "," ++ to_decimal s ++ B ")" /\ length (numeric_value p s) <= 16.
Proof.
  intros Hn Hl Hp Hs.
  assert (E1 : single_param_value prefix n = prefix ++ B "(" ++ to_decimal n ++ B ")").
  { unfold single_param_value. rewrite (decimal_5 n) by lia. by rewrite <- !app_assoc. }
  assert (E2 : forall k, (k <= 99)%N ->
    (if (10 <=? k)%N then [digit_char (k / 10)] else []) ++ [digit_char (k mod 10)] = to_decimal k).
  { intros k Hk. destruct (N.leb_spec 10 k); [by rewrite to_decimal_pair by lia|].
    rewrite to_decimal_small, N.mod_small by lia. done. }
  assert (E3 : numeric_value p s = B "NUMERIC(" ++ to_decimal p ++ B "," ++ to_decimal s ++ B ")").
  { unfold numeric_value. rewrite <- (E2 p), <- (E2 s) by done. by rewrite <- !app_assoc. }
  assert (length (to_decimal n) <= 5) by (apply (length_to_decimal 4); lia).
  assert (length (to_decimal p) <= 2) by (apply (length_to_decimal 1); lia).
  assert (length (to_decimal s) <= 2) by (apply (length_to_decimal 1); lia).
  unfold single_param, numeric. rewrite !digit_count_length by lia. rewrite E1, E3.
  assert (L1 : length (prefix ++ B "(" ++ to_decimal n ++ B ")") = length prefix + 1 + length (to_decimal n) + 1)
    by (rewrite !length_app; change (length (B "(")) with 1; change (length (B ")")) with 1; lia).
  assert (L2 : length (B "NUMERIC(" ++ to_decimal p ++ B "," ++ to_decimal s ++ B ")") =
    8 + length (to_decimal p) + 1 + length (to_decimal s) + 1).
  { rewrite !length_app. change (length (B "NUMERIC(")) with 8. change (length (B ",")) with 1.
    change (length (B ")")) with 1. lia. }
  split_and!; [by apply array_view_exact|lia|by apply array_view_exact|lia].
Qed.

Lemma type_names_exact_witness :
  single_param (B "VARCHAR") 255 = B "VARCHAR(255)" /\ numeric 20 0 = B "NUMERIC(20,0)".
Proof.
  destruct (type_names_exact (B "VARCHAR") 255 20 0) as (H1 & _ & H3 & _); [done|simpl; lia|done|done|].
  split; [exact H1|exact H3].
Defined.

(** The type name [TIMESTAMP(P) WITH TIME ZONE] is advertised as thirty bytes but
    has twenty-seven: its view ends in three NUL bytes, for every precision. *)
Theorem timestamptz_trailing_nuls p :
  timestamptz_p p = (B "TIMESTAMP(" ++ [digit_char p] ++ B ") WITH TIME ZONE") ++ [NUL; NUL; NUL].
Proof. reflexivity. Qed.

(** ** Schemas *)

(** The schemas client code can build. *)
Inductive Built : DynamicTable -> Prop :=
| built_new name p : Built (dynamic_table_for name p)
| built_add t name ty : Built t -> Built (add_field t name ty)
| built_primary_key t name : Built t -> Built (primary_key t name)
| built_nullable t name b : Built t -> Built (nullable t name b)
| built_foreign_key t name rt rc : Built t -> Built (foreign_key t name rt rc)
| built_unique t name : Built t -> Built (unique t name)
| built_indexed t name : Built t -> Built (indexed t name).

(** The index of the last element named [name]. *)
Fixpoint last_named (names : list bytes) (name : bytes) (i : nat) : option nat :=
  match names with
  | [] => None
  | n :: names' =>
      match last_named names' name (S i) with
      | Some j => Some j
      | None => if decide (n = name) then Some i else None
      end
  end.

Lemma last_named_app a b name i :
  last_named (a ++ b) name i =
  match last_named b name (i + length a) with Some j => Some j | None => last_named a name i end.
Proof.
  revert i. induction a as [|x a IH]; intros i; simpl.
  - rewrite Nat.add_0_r. by destruct (last_named b name i).
  - rewrite IH. replace (S i + length a) with (i + S (length a)) by lia.
    by destruct (last_named b name (i + S (length a))).
Qed.

Lemma last_named_lookup names name i j :
  last_named names name i = Some j -> i <= j /\ names !! (j - i) = Some name.
Proof.
  revert i. induction names as [|n names IH]; intros i E; simpl in E; [done|].
  destruct (last_named names name (S i)) as [k|] eqn:Ek; simplify_eq.
  - destruct (IH (S i) Ek) as [H1 H2]. split; [lia|]. by replace (j - i) with (S (j - S i)) by lia.
  - case_decide; simplify_eq. split; [lia|]. by rewrite Nat.sub_diag.
Qed.

Lemma last_named_None names name i : last_named names name i = None <-> name ∉ names.
Proof.
  revert i. induction names as [|n names IH]; intros i; simpl; [set_solver|].
  destruct (last_named names name (S i)) as [k|] eqn:Ek.
  - apply last_named_lookup in Ek as [_ Ek]. apply list_elem_of_lookup_2 in Ek. set_solver.
  - apply IH in Ek. case_decide; set_solver.
Qed.

Definition index_exact (names : list bytes) (idx : gmap bytes nat) : Prop :=
  forall name, idx !! name = last_named names name 0.

Lemma index_exact_snoc names idx name :
  index_exact names idx -> index_exact (names ++ [name]) (<[name := length names]> idx).
Proof.
  intros HI k. rewrite last_named_app. simpl. case_decide as E; subst.
  - by rewrite lookup_insert_eq.
  - by rewrite lookup_insert_ne, HI by done.
Qed.

Lemma fmap_alter_same {A C} (g : A -> C) (f : A -> A) (i : nat) (l : list A) : (forall x, g (f x) = g x) -> g <$> alter f i l = g <$> l.
Proof.
  intros Hg. revert i. induction l as [|x l IH]; intros [|i]; [done|done|by csimpl; rewrite Hg|].
  csimpl. f_equal. apply IH.
Qed.

Lemma update_field_names t name f :
  (forall x, field_name (f x) = field_name x) ->
  field_names (update_field t name f) = field_names t /\ field_index (update_field t name f) = field_index t.
Proof.
  intros Hf. unfold update_field, field_names. destruct (field_index t !! name); [|done]. simpl. by rewrite fmap_alter_same.
Qed.

Lemma built_index t : Built t -> index_exact (field_names t) (field_index t).
Proof.
  assert (Hu : forall t name f, (forall x, field_name (f x) = field_name x) ->
    index_exact (field_names t) (field_index t) ->
    index_exact (field_names (update_field t name f)) (field_index (update_field t name f))).
  { intros u name f Hf. by destruct (update_field_names u name f Hf) as [-> ->]. }
  induction 1; try by apply Hu.
  - intros k. apply lookup_empty.
  - unfold add_field, field_names. simpl. rewrite fmap_app, length_app. simpl.
    replace (length (fields t) + 1 - 1) with (length (field_name <$> fields t)) by (rewrite length_fmap; lia).
    by apply index_exact_snoc.
Qed.

Lemma record_loop_index schemas fs idx :
  index_exact ((fun f => field_name (field_schema f)) <$> fs) idx ->
  let '(fs', idx') := record_loop schemas fs idx in
  fs' = fs ++ ((fun s => {| field_value := FvNull; field_schema := s |}) <$> schemas) /\
  index_exact ((fun f => field_name (field_schema f)) <$> fs') idx'.
Proof.
  revert fs idx. induction schemas as [|s schemas IH]; intros fs idx HI; simpl.
  - by rewrite app_nil_r.
  - specialize (IH (fs ++ [{| field_value := FvNull; field_schema := s |}]) (<[field_name s := length fs]> idx)).
    destruct (record_loop schemas _ _) as [fs' idx']. rewrite <- app_assoc in IH. apply IH.
    rewrite fmap_app. simpl. rewrite <- (length_fmap (fun f => field_name (field_schema f)) fs). by apply index_exact_snoc.
Qed.

(** ** Records *)

(** Well-formed records: the name index points at the last field so named. *)
Definition record_wf (r : Rec) : Prop :=
  index_exact ((fun f => field_name (field_schema f)) <$> rec_fields r) (rec_index r).

Lemma record_wf_new t r : record (Some t) = Ok r ->
  record_wf r /\ rec_schema r = t /\ rec_fields r = (fun s => {| field_value := FvNull; field_schema := s |}) <$> fields t.
Proof.
  unfold record. pose proof (record_loop_index (fields t) [] ∅) as H.
  destruct (record_loop (fields t) [] ∅) as [fs idx]. intros [= <-]. simpl.
  destruct H as [H1 H2]; [intros k; by rewrite lookup_empty|]. done.
Qed.

Lemma get_field_named r name : record_wf r ->
  match get_field r name with
  | Some f => field_name (field_schema f) = name /\ f ∈ rec_fields r
  | None => name ∉ (fun f => field_name (field_schema f)) <$> rec_fields r
  end.
Proof.
  intros Hw. unfold get_field. rewrite Hw. destruct (last_named _ name 0) as [j|] eqn:E; simpl.
  - apply last_named_lookup in E as [_ E]. rewrite Nat.sub_0_r, list_lookup_fmap in E.
    destruct (rec_fields r !! j) as [f|] eqn:Ef; [|done]. simpl in *. simplify_eq.
    split; [done|]. by eapply list_elem_of_lookup_2.
  - by apply last_named_None in E.
Qed.

(** Schema and record lookups agree: a record over any schema client code can
    build answers exactly the names its schema declares, with that schema's last
    declaration of the name and a null value, and [operator[]] throws otherwise. *)
Theorem record_fields_declared t r name :
  Built t -> record (Some t) = Ok r ->
  match get_field_schema t name with
  | Some s => get_field r name = Some {| field_value := FvNull; field_schema := s |} /\ field_name s = name /\
              record_get r name = Ok {| field_value := FvNull; field_schema := s |}
  | None => name ∉ field_names t /\ get_field r name = None /\ record_get r name = Err (OutOfRange (B "Field not found: " ++ name))
  end.
Proof.
  intros Hb Hr. destruct (record_wf_new t r Hr) as (Hw & _ & Hf). pose proof (built_index t Hb name) as Ht.
  assert (Hn : (fun f => field_name (field_schema f)) <$> rec_fields r = field_names t).
  { rewrite Hf, <- list_fmap_compose. done. }
  unfold record_get, get_field_schema, get_field. rewrite (Hw name), Hn, Ht, Hf.
  destruct (last_named (field_names t) name 0) as [j|] eqn:E; simpl; [|by apply last_named_None in E].
  rewrite list_lookup_fmap. apply last_named_lookup in E as [_ E]. rewrite Nat.sub_0_r in E.
  unfold field_names in E. rewrite list_lookup_fmap in E. destruct (fields t !! j) as [s|]; [|done].
  simpl in *. by simplify_eq.
Qed.

Definition sample_table : DynamicTable :=
  nullable (primary_key (add_field (add_field (dynamic_table (B "users")) (B "id") (B "INTEGER")) (B "name") (B "TEXT")) (B "id")) (B "name") false.

Lemma sample_built : Built sample_table.
Proof. repeat constructor. Qed.

Lemma record_fields_declared_witness :
  exists r, record (Some sample_table) = Ok r /\ is_Some (get_field r (B "id")) /\ get_field r (B "age") = None.
Proof.
  eexists. split; [reflexivity|].
  pose proof (record_fields_declared sample_table _ (B "id") sample_built eq_refl) as [H1 _].
  pose proof (record_fields_declared sample_table _ (B "age") sample_built eq_refl) as (_ & H2 & _).
  split; [rewrite H1; eauto|exact H2].
Defined.

(** ** INSERT rows *)
Lemma read_columns_spec cols r k row :
  match read_columns cols r k row with
  | Ok out => exists fs, mapM (get_field r) cols = Some fs /\ out = row ++ (field_value <$> fs)
  | Err x => exists pre col post fs, cols = pre ++ col :: post /\ mapM (get_field r) pre = Some fs /\
      get_field r col = None /\ x = throw_missing_insert_column col r k
  end.
Proof.
  revert row. induction cols as [|c cols IH]; intros row; simpl.
  - exists []. by rewrite app_nil_r.
  - destruct (get_field r c) as [f|] eqn:E.
    + specialize (IH (row ++ [field_value f])). destruct (read_columns cols r k (row ++ [field_value f])) as [out|x].
      * destruct IH as (fs & H1 & ->). exists (f :: fs). simpl. rewrite H1. simpl. by rewrite <- app_assoc.
      * destruct IH as (pre & col & post & fs & -> & H2 & H3 & H4). exists (c :: pre), col, post, (f :: fs).
        split_and!; [done| |done|done]. simpl. by rewrite E, H2.
    + exists [], c, cols, []. done.
Qed.

(** A record row: [values(record)] appends one row holding, in [into(...)] order,
    the record's value for each column; when a column is missing it throws for
    the first such one, naming the row, and the rows appended so far are kept. *)
Theorem insert_record_row e r :
  match values_record e r with
  | Ok e' => exists fs, mapM (get_field r) (insert_columns e) = Some fs /\
      insert_rows e' = insert_rows e ++ [field_value <$> fs] /\ insert_columns e' = insert_columns e
  | Err x => exists pre col post, insert_columns e = pre ++ col :: post /\ is_Some (mapM (get_field r) pre) /\
      get_field r col = None /\ x = throw_missing_insert_column col r (length (insert_rows e)) /\
      batch e [r] = (Err x, e)
  end.
Proof.
  pose proof (read_columns_spec (insert_columns e) r (length (insert_rows e)) []) as H. unfold batch, values_record.
  destruct (read_columns _ _ _ _) as [row|x]; simpl.
  - destruct H as (fs & H1 & ->). eauto.
  - destruct H as (pre & col & post & fs & H1 & H2 & H3 & H4). exists pre, col, post. eauto 10.
Qed.

Lemma take_columns_spec moved cols r k row :
  record_wf r -> NoDup cols -> fst (take_columns moved cols r k row) = read_columns cols r k row.
Proof.
  intros Hw0 Hnd.
  assert (G : forall r', record_wf r' ->
    (forall c, c ∈ cols -> get_field r' c = get_field r c) ->
    (forall c, throw_missing_insert_column c r' k = throw_missing_insert_column c r k) ->
    fst (take_columns moved cols r' k row) = read_columns cols r k row).
  { clear Hw0. revert row Hnd. induction cols as [|c cols IH]; intros row Hnd r' Hw Hg Ht; [done|].
    apply NoDup_cons in Hnd as [Hc Hnd]. pose proof (Hg c ltac:(set_solver)) as Ec. simpl. unfold get_field at 1 in Ec.
    pose proof (Hw c) as Hi. destruct (rec_index r' !! c) as [i|] eqn:Ei; simpl in Ec; [|by rewrite <- Ec, Ht].
    destruct (rec_fields r' !! i) as [f|] eqn:Ef; rewrite <- Ec; [|by rewrite Ht].
    assert (Hn : (fun f => field_name (field_schema f)) <$> <[i := {| field_value := moved (field_value f); field_schema := field_schema f |}]> (rec_fields r')
                 = (fun f => field_name (field_schema f)) <$> rec_fields r').
    { rewrite list_fmap_insert. apply list_insert_id. by rewrite list_lookup_fmap, Ef. }
    apply IH; [done|by unfold record_wf; simpl; rewrite Hn| |].
    - intros c' Hc'. rewrite <- (Hg c') by set_solver. unfold get_field. simpl.
      destruct (rec_index r' !! c') as [i'|] eqn:Ei'; [|done]. simpl.
      rewrite list_lookup_insert_ne; [done|]. intros <-.
      rewrite (Hw c') in Ei'. symmetry in Hi. apply last_named_lookup in Hi as [_ Hi], Ei' as [_ Ei']. congruence.
    - intros c'. rewrite <- (Ht c'). unfold throw_missing_insert_column. simpl. rewrite length_insert.
      assert (Hd : forall fs fs' tot d l, (fun f => field_name (field_schema f)) <$> fs = (fun f => field_name (field_schema f)) <$> fs' ->
        defined_names tot fs d l = defined_names tot fs' d l).
      { induction fs as [|a fs IHfs]; intros [|b fs'] tot d l E; simpl in E; try done. injection E as E1 E2. simpl.
        rewrite E1. destruct (l =? 32); [done|]. by apply IHfs. }
      by rewrite (Hd _ _ _ _ _ Hn). }
  by apply G.
Qed.

(** Moving the record in changes nothing for the row, whatever a moved-from value
    becomes, as long as no column is listed twice. *)
Theorem insert_record_move_agrees moved e r :
  record_wf r -> NoDup (insert_columns e) -> values_record_move moved e r = values_record e r.
Proof. intros Hw Hn. unfold values_record_move, values_record. by rewrite take_columns_spec. Qed.

Lemma insert_record_move_agrees_witness :
  exists r, record (Some sample_table) = Ok r /\
  values_record_move (fun _ => FvNull) (into insert_into [B "name"; B "id"]) r =
  values_record (into insert_into [B "name"; B "id"]) r.
Proof.
  eexists. split; [reflexivity|]. apply insert_record_move_agrees.
  - exact (proj1 (record_wf_new sample_table _ eq_refl)).
  - apply (bool_decide_unpack _). by vm_compute.
Defined.
