(* ===== verification/SqlQuery.v ===== *)
(** * Query expressions and the SQL compiler

    The expression tree ([query/expressions]), the visitor that walks it
    ([QueryVisitor]) and emits SQL ([SqlGeneratorVisitor]), and the compiler's two
    entry points. Each [visit] overload is one definition over the generator's
    state; a child's [accept] is a computation passed in. The rvalue and const
    overloads of a node emit the same text and collect the same parameters, so one
    definition stands for both. *)

From S2P Require Import Prelude SqlText SqlSchema.

(** ** The expression tree *)
Inductive BinaryOp :=
| OpEqual | OpNotEqual | OpLess | OpLessEqual | OpGreater | OpGreaterEqual | OpAnd | OpOr | OpLike | OpNotLike | OpIn.

Inductive UnaryOp := OpNot | OpIsNull | OpIsNotNull.
Inductive JoinType := INNER | LEFT | RIGHT | FULL | CROSS.
Inductive SetOperation := UNION | UNION_ALL | INTERSECT | EXCEPT.
Inductive OrderDirection := ASC | DESC.
Inductive AggregateFn := SUM | AVG | MAX | MIN.

(** A field of a compile-time table: name, C++ type and the constraint tags. *)
Record StaticField := {
  static_name : bytes; static_type : CppType; static_primary_key : bool; static_nullable : bool; static_unique : bool
}.

(** The [IsTable] alternatives: a possibly null table pointer, a name, a
    compile-time table. *)
Inductive TableRef :=
| DynTable (t : option DynamicTable)
| NamedTable (name : bytes)
| StatTable (name : bytes) (fs : list StaticField).

Inductive Expr :=
| ColumnRef (name table alias : bytes)
| Literal (value : FieldValue) (alias : bytes)
| NullLiteral
| ParamPlaceholder
| AllColumns (table : bytes)
| BinaryExpr (left right : Expr) (op : BinaryOp)
| UnaryExpr (operand : Expr) (op : UnaryOp)
| BetweenExpr (operand lower upper : Expr)
| InListExpr (operand : Expr) (values : list Expr)
| Subquery (query : Expr) (alias : bytes)
| ExistsExpr (query : Expr)
| CountExpr (col : Expr) (distinct : bool) (alias : bytes)
| AggregateExpr (fn : AggregateFn) (col : Expr) (alias : bytes)
| OrderBy (col : Expr) (dir : OrderDirection)
| SelectExpr (columns : list Expr) (distinct : bool)
| FromTableExpr (select : Expr) (table : TableRef) (alias : bytes)
| FromCteExpr (select : Expr) (cte_name : bytes) (cte_query : Expr) (recursive : bool)
| WhereExpr (query condition : Expr)
| GroupByColumnExpr (query : Expr) (columns : list Expr)
| GroupByQueryExpr (query criteria : Expr)
| HavingExpr (query condition : Expr)
| OrderByExpr (query : Expr) (orders : list Expr)
| LimitExpr (query : Expr) (count offset : nat)
| JoinExpr (query on_condition : Expr) (table : TableRef) (type : JoinType) (alias : bytes)
| InsertExpr (table : TableRef) (body : InsertBody)
| UpdateExpr (table : TableRef) (assignments : list (bytes * FieldValue))
| UpdateWhereExpr (update condition : Expr)
| DeleteExpr (table : TableRef)
| DeleteWhereExpr (del condition : Expr)
| SetOpExpr (left right : Expr) (op : SetOperation)
| CaseExpr (when_clauses : list (Expr * Expr)) (alias : bytes)
| CaseExprWithElse (when_clauses : list (Expr * Expr)) (else_clause : Expr) (alias : bytes)
| CteExpr (name : bytes) (query : Expr) (recursive : bool)
| CreateTableExpr (table : TableRef) (if_not_exists : bool)
| DropTableExpr (table : TableRef) (if_exists cascade : bool).

(** ** The parameter sink interface

    [ParamSink::push] binds a value and returns its 1-based index. *)
Class ParamSink (K : Type) := { sink_push : K -> FieldValue -> K * nat; sink_size : K -> nat }.

Class ParamSinkLaws (K : Type) `{ParamSink K} := {
  sink_push_index k v : snd (sink_push k v) = S (sink_size k);
  sink_push_size k v : sink_size (fst (sink_push k v)) = S (sink_size k)
}.

Inductive ParamMode := Inline | Tuple | Sink.

(** ** [SqlGeneratorVisitor]: the hooks *)
Section generator.
Context {T K : Type} `{Appendable T} `{ParamSink K} `{FloatText}.
Context (mode : ParamMode).

(** The visitor's members; [sink_] is only dereferenced in [Sink] mode. *)
Record Visitor := { sql : T; sink : K; param_count : nat }.

(** A hook or a [visit]: the visitor afterwards and the captured parameters, or
    the exception an append threw. *)
Definition Gen : Type := Visitor -> result exn (Visitor * list FieldValue).

Definition emit (f : T -> result exn T) : Gen := fun v =>
  s ← f (sql v); Ok ({| sql := s; sink := sink v; param_count := param_count v |}, []).

Definition text (s : bytes) : Gen := emit (fun t => append_sv t s).

Definition nothing : Gen := fun v => Ok (v, []).

(** Sequencing; [cat_params] concatenates what was captured, in [Tuple] mode. *)
Definition cat_params (a b : list FieldValue) : list FieldValue := match mode with Tuple => a ++ b | _ => [] end.

Definition seq_gen (a b : Gen) : Gen := fun v =>
  '(v1, p1) ← a v; '(v2, p2) ← b v1; Ok (v2, cat_params p1 p2).

(** A node that drops what its children captured ([no_params]). *)
Definition no_params (a : Gen) : Gen := fun v => '(v1, _) ← a v; Ok (v1, []).

Definition capture_param (x : FieldValue) : list FieldValue := match mode with Tuple => [x] | _ => [] end.

Declare Scope gen_scope.
Delimit Scope gen_scope with gen.
Infix ";>" := seq_gen (at level 60, right associativity) : gen_scope.
Local Open Scope gen_scope.

Definition visit_alias_impl (alias : bytes) : Gen :=
  match alias with
  | [] => nothing
  | _ => text (B " AS ") ;> emit (fun t => quote_identifier t alias)
  end.

Definition visit_table_name_impl (name : bytes) : Gen :=
  match name with
  | [] => nothing
  | _ => emit (fun t => quote_identifier t name)
  end.

Definition visit_table_impl (t : TableRef) : Gen :=
  match t with
  | DynTable None => nothing
  | DynTable (Some t) => emit (fun q => quote_identifier q (table_name t))
  | NamedTable name | StatTable name _ => visit_table_name_impl name
  end.

Definition visit_column_impl (name table alias : bytes) : Gen :=
  match table with
  | [] => nothing
  | _ => visit_table_name_impl table ;> text (B ".")
  end ;>
  emit (fun t => quote_identifier t name) ;>
  visit_alias_impl alias.

Definition visit_all_columns_impl (table : bytes) : Gen :=
  match table with
  | [] => nothing
  | _ => visit_table_name_impl table ;> text (B ".")
  end ;>
  text (B "*").

Definition visit_value_impl (x : FieldValue) : Gen := fun v =>
  match mode with
  | Inline => emit (fun t => format_value t x) v
  | Tuple =>
      let count := S (param_count v) in
      emit (fun t => placeholder t count) {| sql := sql v; sink := sink v; param_count := count |}
  | Sink =>
      let '(k, idx) := sink_push (sink v) x in
      emit (fun t => placeholder t idx) {| sql := sql v; sink := k; param_count := param_count v |}
  end.

Definition visit_param_placeholder_impl : Gen := fun v =>
  let count := S (param_count v) in
  emit (fun t => placeholder t count) {| sql := sql v; sink := sink v; param_count := count |}.

Definition binary_op_text (op : BinaryOp) : bytes :=
  match op with
  | OpEqual => B " = "
  | OpNotEqual => B " != "
  | OpLess => B " < "
  | OpLessEqual => B " <= "
  | OpGreater => B " > "
  | OpGreaterEqual => B " >= "
  | OpAnd => B " AND "
  | OpOr => B " OR "
  | OpLike => B " LIKE "
  | OpNotLike => B " NOT LIKE "
  | OpIn => B " IN "
  end.

Definition unary_op_text (op : UnaryOp) : bytes :=
  match op with OpNot => B "NOT " | OpIsNull => B " IS NULL" | OpIsNotNull => B " IS NOT NULL" end.

Definition is_postfix (op : UnaryOp) : bool := match op with OpNot => false | _ => true end.

Definition order_direction_text (d : OrderDirection) : bytes := match d with ASC => B " ASC" | DESC => B " DESC" end.

Definition join_text (j : JoinType) : bytes :=
  match j with
  | INNER => B " INNER JOIN "
  | LEFT => B " LEFT JOIN "
  | RIGHT => B " RIGHT JOIN "
  | FULL => B " FULL OUTER JOIN "
  | CROSS => B " CROSS JOIN "
  end.

Definition set_op_text (op : SetOperation) : bytes :=
  match op with
  | UNION => B " UNION "
  | UNION_ALL => B " UNION ALL "
  | INTERSECT => B " INTERSECT "
  | EXCEPT => B " EXCEPT "
  end.

Definition aggregate_text (fn : AggregateFn) : bytes :=
  match fn with SUM => B "SUM(" | AVG => B "AVG(" | MAX => B "MAX(" | MIN => B "MIN(" end.

Definition visit_aggregate_end (alias : bytes) : Gen := text (B ")") ;> visit_alias_impl alias.

(** A comma-separated list: the [bool first] loops. *)
Fixpoint separated (items : list Gen) (first : bool) : Gen :=
  match items with
  | [] => nothing
  | g :: items' => (if first then nothing else text (B ", ")) ;> g ;> separated items' false
  end.

Definition visit_insert_columns (columns : list bytes) : Gen :=
  text (B " (") ;> separated (map (fun col => emit (fun t => quote_identifier t col)) columns) true ;> text (B ") VALUES ").

Definition visit_insert_values (rows : list (list FieldValue)) : Gen :=
  separated (map (fun row => text (B "(") ;> separated (map visit_value_impl row) true ;> text (B ")")) rows) true.

Definition visit_update_set (assignments : list (bytes * FieldValue)) : Gen :=
  text (B " SET ") ;>
  separated (map (fun a => emit (fun t => quote_identifier t (fst a)) ;> text (B " = ") ;> visit_value_impl (snd a)) assignments) true.

(** One column definition of CREATE TABLE, runtime and compile-time schemas. *)
Definition flag (b : bool) (s : bytes) : Gen := if b then text s else nothing.

Definition visit_dynamic_field (f : DynamicFieldSchema) : Gen :=
  emit (fun t => quote_identifier t (field_name f)) ;> text (B " ") ;> text (db_type f) ;>
  flag (is_primary_key f) (B " PRIMARY KEY") ;>
  flag (negb (is_nullable f) && negb (is_primary_key f)) (B " NOT NULL") ;>
  flag (is_unique f && negb (is_primary_key f)) (B " UNIQUE") ;>
  match default_value f with [] => nothing | d => text (B " DEFAULT ") ;> text d end ;>
  match foreign_table f with
  | [] => nothing
  | ft => if is_foreign_key f then
            text (B " REFERENCES ") ;> emit (fun t => quote_identifier t ft) ;> text (B "(") ;>
            emit (fun t => quote_identifier t (foreign_column f)) ;> text (B ")")
          else nothing
  end.

Definition visit_static_field (f : StaticField) : Gen :=
  emit (fun t => quote_identifier t (static_name f)) ;> text (B " ") ;> text (sql_type_for (static_type f)) ;>
  flag (static_primary_key f) (B " PRIMARY KEY") ;>
  flag (negb (static_nullable f) && negb (static_primary_key f)) (B " NOT NULL") ;>
  flag (static_unique f && negb (static_primary_key f)) (B " UNIQUE").

Definition visit_create_table_columns (t : TableRef) : Gen :=
  match t with
  | DynTable None => nothing
  | DynTable (Some t) => text (B " (") ;> separated (map visit_dynamic_field (fields t)) true ;> text (B ")")
  | StatTable _ fs => text (B " (") ;> separated (map visit_static_field fs) true ;> text (B ")")
  | NamedTable _ => nothing (* no overload: rejected by the compiler *)
  end.

(** The hooks with a fixed text. Those that do nothing are left out. *)
Definition visit_null_impl : Gen := text (B "NULL").
Definition visit_binary_expr_start : Gen := text (B "(").
Definition visit_binary_expr_end : Gen := text (B ")").
Definition visit_subquery_start : Gen := text (B "(").
Definition visit_subquery_end : Gen := text (B ")").
Definition visit_exists_start : Gen := text (B "EXISTS (").
Definition visit_exists_end : Gen := text (B ")").
Definition visit_between_impl : Gen := text (B " BETWEEN ").
Definition visit_and_impl : Gen := text (B " AND ").
Definition visit_in_list_start : Gen := text (B " IN (").
Definition visit_in_list_end : Gen := text (B ")").
Definition visit_from_start : Gen := text (B " FROM ").
Definition visit_where_start : Gen := text (B " WHERE ").
Definition visit_group_by_start : Gen := text (B " GROUP BY ").
Definition visit_having_start : Gen := text (B " HAVING ").
Definition visit_order_by_start : Gen := text (B " ORDER BY ").
Definition visit_join_on : Gen := text (B " ON ").
Definition visit_insert_start : Gen := text (B "INSERT INTO ").
Definition visit_update_start : Gen := text (B "UPDATE ").
Definition visit_delete_start : Gen := text (B "DELETE FROM ").
Definition visit_case_start : Gen := text (B "CASE").
Definition visit_case_end : Gen := text (B " END").
Definition visit_when_start : Gen := text (B " WHEN ").
Definition visit_when_then : Gen := text (B " THEN ").
Definition visit_else_start : Gen := text (B " ELSE ").
Definition visit_cte_as_start : Gen := text (B " AS (").
Definition visit_cte_as_end : Gen := text (B ")").
Definition visit_cte_end : Gen := text (B " ").
Definition visit_column_separator : Gen := text (B ", ").

Definition visit_count_impl (distinct : bool) : Gen := text (B "COUNT(") ;> flag distinct (B "DISTINCT ").
Definition visit_select_start (distinct : bool) : Gen := text (B "SELECT ") ;> flag distinct (B "DISTINCT ").
Definition visit_cte_start (recursive : bool) : Gen := text (B "WITH ") ;> flag recursive (B "RECURSIVE ").
Definition visit_create_table_start (if_not_exists : bool) : Gen := text (B "CREATE TABLE ") ;> flag if_not_exists (B "IF NOT EXISTS ").
Definition visit_drop_table_start (if_exists : bool) : Gen := text (B "DROP TABLE ") ;> flag if_exists (B "IF EXISTS ").
Definition visit_drop_table_end (cascade : bool) : Gen := flag cascade (B " CASCADE").
Definition visit_limit_impl (limit offset : nat) : Gen := emit (fun t => limit_clause t limit offset).
Definition visit_cte_name_impl (name : bytes) : Gen := emit (fun t => quote_identifier t name).

(** ** [QueryVisitor]: one definition per node *)
Definition visit_column (name table alias : bytes) : Gen := no_params (visit_column_impl name table alias).

Definition visit_literal (x : FieldValue) (alias : bytes) : Gen := fun v =>
  '(v1, _) ← (visit_value_impl x ;> visit_alias_impl alias) v; Ok (v1, capture_param x).

Definition visit_null : Gen := no_params visit_null_impl.
Definition visit_param_placeholder : Gen := no_params visit_param_placeholder_impl.
Definition visit_all_columns (table : bytes) : Gen := no_params (visit_all_columns_impl table).

Definition visit_binary (left right : Gen) (op : BinaryOp) : Gen :=
  visit_binary_expr_start ;> left ;> text (binary_op_text op) ;> right ;> visit_binary_expr_end.

Definition visit_unary (operand : Gen) (op : UnaryOp) : Gen :=
  if is_postfix op then operand ;> text (unary_op_text op) else text (unary_op_text op) ;> operand.

Definition visit_between (operand lower upper : Gen) : Gen :=
  operand ;> visit_between_impl ;> lower ;> visit_and_impl ;> upper.

(** [visit_tuple_elements]: recursion over the pack, a separator before every
    element but the first. *)
Fixpoint visit_tuple_elements (elems : list Gen) (first : bool) : Gen :=
  match elems with
  | [] => nothing
  | e :: elems' => (if first then nothing else visit_column_separator) ;> e ;> visit_tuple_elements elems' false
  end.

Definition visit_in_list (operand : Gen) (values : list Gen) : Gen :=
  operand ;> visit_in_list_start ;> visit_tuple_elements values true ;> visit_in_list_end.

Definition visit_subquery (query : Gen) (alias : bytes) : Gen :=
  visit_subquery_start ;> query ;> visit_subquery_end ;> visit_alias_impl alias.

Definition visit_exists (query : Gen) : Gen := visit_exists_start ;> query ;> visit_exists_end.

Definition visit_count (col : Gen) (is_all : bool) (distinct : bool) (alias : bytes) : Gen :=
  no_params (visit_count_impl distinct ;>
             (if is_all then visit_all_columns_impl [] else col) ;> visit_aggregate_end alias).

Definition visit_aggregate (fn : AggregateFn) (col : Gen) (alias : bytes) : Gen :=
  no_params (text (aggregate_text fn) ;> col ;> visit_aggregate_end alias).

Definition visit_order_by_item (col : Gen) (d : OrderDirection) : Gen := no_params (col ;> text (order_direction_text d)).

Definition visit_select (columns : list Gen) (distinct : bool) : Gen :=
  visit_select_start distinct ;> visit_tuple_elements columns true.

Definition visit_from_table (select : Gen) (table : TableRef) (alias : bytes) : Gen :=
  select ;> visit_from_start ;> visit_table_impl table ;> visit_alias_impl alias.

Definition visit_cte (name : bytes) (query : Gen) (recursive : bool) : Gen :=
  visit_cte_start recursive ;> visit_cte_name_impl name ;> visit_cte_as_start ;> query ;> visit_cte_as_end ;> visit_cte_end.

Definition visit_from_cte (select : Gen) (name : bytes) (query : Gen) (recursive : bool) : Gen :=
  visit_cte name query recursive ;> select ;> visit_from_start ;> visit_table_name_impl name.

Definition visit_where (query condition : Gen) : Gen := query ;> visit_where_start ;> condition.

Definition visit_group_by_columns (query : Gen) (columns : list Gen) : Gen :=
  query ;> visit_group_by_start ;> visit_tuple_elements columns true.

Definition visit_group_by_query (query criteria : Gen) : Gen := query ;> visit_group_by_start ;> criteria.

Definition visit_having (query condition : Gen) : Gen := query ;> visit_having_start ;> condition.

Definition visit_order_by (query : Gen) (orders : list Gen) : Gen :=
  query ;> visit_order_by_start ;> visit_tuple_elements orders true.

Definition visit_limit (query : Gen) (count offset : nat) : Gen := query ;> visit_limit_impl count offset.

Definition visit_join (query on_condition : Gen) (table : TableRef) (type : JoinType) (alias : bytes) : Gen :=
  query ;> text (join_text type) ;> visit_table_impl table ;> visit_alias_impl alias ;> visit_join_on ;> on_condition.

Definition visit_insert (table : TableRef) (body : InsertBody) : Gen :=
  no_params (visit_insert_start ;> visit_table_impl table ;> visit_insert_columns (insert_columns body) ;>
             visit_insert_values (insert_rows body)).

Definition visit_update (table : TableRef) (assignments : list (bytes * FieldValue)) : Gen :=
  no_params (visit_update_start ;> visit_table_impl table ;> visit_update_set assignments).

Definition visit_update_where (update condition : Gen) : Gen := update ;> visit_where_start ;> condition.

Definition visit_delete (table : TableRef) : Gen := no_params (visit_delete_start ;> visit_table_impl table).

Definition visit_delete_where (del condition : Gen) : Gen := del ;> visit_where_start ;> condition.

Definition visit_set_op (left right : Gen) (op : SetOperation) : Gen := left ;> text (set_op_text op) ;> right.

Definition visit_single_when (when : Gen * Gen) : Gen := visit_when_start ;> fst when ;> visit_when_then ;> snd when.

Fixpoint visit_when_clauses (whens : list (Gen * Gen)) : Gen :=
  match whens with
  | [] => nothing
  | w :: whens' => visit_single_when w ;> visit_when_clauses whens'
  end.

Definition visit_case (whens : list (Gen * Gen)) (alias : bytes) : Gen :=
  visit_case_start ;> visit_when_clauses whens ;> visit_case_end ;> visit_alias_impl alias.

Definition visit_case_else (whens : list (Gen * Gen)) (els : Gen) (alias : bytes) : Gen :=
  visit_case_start ;> visit_when_clauses whens ;> visit_else_start ;> els ;> visit_case_end ;> visit_alias_impl alias.

Definition visit_create_table (table : TableRef) (if_not_exists : bool) : Gen :=
  no_params (visit_create_table_start if_not_exists ;> visit_table_impl table ;>
             visit_create_table_columns table).

Definition visit_drop_table (table : TableRef) (if_exists cascade : bool) : Gen :=
  no_params (visit_drop_table_start if_exists ;> visit_table_impl table ;> visit_drop_table_end cascade).

Definition is_all_columns (e : Expr) : bool := match e with AllColumns _ => true | _ => false end.

(** [accept]: the double dispatch. *)
Fixpoint visit (e : Expr) : Gen :=
  match e with
  | ColumnRef name table alias => visit_column name table alias
  | Literal x alias => visit_literal x alias
  | NullLiteral => visit_null
  | ParamPlaceholder => visit_param_placeholder
  | AllColumns table => visit_all_columns table
  | BinaryExpr l r op => visit_binary (visit l) (visit r) op
  | UnaryExpr x op => visit_unary (visit x) op
  | BetweenExpr x lo up => visit_between (visit x) (visit lo) (visit up)
  | InListExpr x vs => visit_in_list (visit x) (map visit vs)
  | Subquery q alias => visit_subquery (visit q) alias
  | ExistsExpr q => visit_exists (visit q)
  | CountExpr c distinct alias => visit_count (visit c) (is_all_columns c) distinct alias
  | AggregateExpr fn c alias => visit_aggregate fn (visit c) alias
  | OrderBy c d => visit_order_by_item (visit c) d
  | SelectExpr cs distinct => visit_select (map visit cs) distinct
  | FromTableExpr s t alias => visit_from_table (visit s) t alias
  | FromCteExpr s name q recursive => visit_from_cte (visit s) name (visit q) recursive
  | WhereExpr q c => visit_where (visit q) (visit c)
  | GroupByColumnExpr q cs => visit_group_by_columns (visit q) (map visit cs)
  | GroupByQueryExpr q c => visit_group_by_query (visit q) (visit c)
  | HavingExpr q c => visit_having (visit q) (visit c)
  | OrderByExpr q os => visit_order_by (visit q) (map visit os)
  | LimitExpr q count offset => visit_limit (visit q) count offset
  | JoinExpr q c t type alias => visit_join (visit q) (visit c) t type alias
  | InsertExpr t body => visit_insert t body
  | UpdateExpr t assignments => visit_update t assignments
  | UpdateWhereExpr u c => visit_update_where (visit u) (visit c)
  | DeleteExpr t => visit_delete t
  | DeleteWhereExpr d c => visit_delete_where (visit d) (visit c)
  | SetOpExpr l r op => visit_set_op (visit l) (visit r) op
  | CaseExpr ws alias => visit_case (map (fun w => (visit (fst w), visit (snd w))) ws) alias
  | CaseExprWithElse ws els alias => visit_case_else (map (fun w => (visit (fst w), visit (snd w))) ws) (visit els) alias
  | CteExpr name q recursive => visit_cte name (visit q) recursive
  | CreateTableExpr t if_not_exists => visit_create_table t if_not_exists
  | DropTableExpr t if_exists cascade => visit_drop_table t if_exists cascade
  end.

End generator.
Arguments Visitor T K : clear implicits.
Arguments Gen T K : clear implicits.

(** ** [QueryCompiler] *)

(** [compile_static]: no sink; the SQL goes into an [InlineString<MaxLen>], and the
    captured tuple is returned. *)
#[export] Instance no_sink : ParamSink unit := {| sink_push k _ := (k, 1); sink_size _ := 0 |}.

Definition compile_static `{FloatText} (mode : ParamMode) (max_len : nat) (e : Expr)
  : result exn (InlineString max_len * list FieldValue) :=
  '(v, params) ← visit mode e {| sql := inline_string max_len; sink := tt; param_count := 0 |};
  Ok (sql v, params).

(** [compile_dynamic]: a growing string, and in [Sink] mode the dialect's sink. *)
Definition compile_dynamic `{FloatText} {K} `{ParamSink K} (mode : ParamMode) (fresh : K) (e : Expr)
  : result exn (bytes * K) :=
  '(v, _) ← visit mode e {| sql := [] : bytes; sink := fresh; param_count := 0 |};
  Ok (sql v, sink v).

(** ** Induction over expressions *)
Section expr_induction.
Context (P : Expr -> Prop).
Context (H_column : forall n t a, P (ColumnRef n t a)) (H_literal : forall x a, P (Literal x a)) (H_null : P NullLiteral)
  (H_hole : P ParamPlaceholder) (H_all : forall t, P (AllColumns t))
  (H_binary : forall l r op, P l -> P r -> P (BinaryExpr l r op)) (H_unary : forall e op, P e -> P (UnaryExpr e op))
  (H_between : forall e l u, P e -> P l -> P u -> P (BetweenExpr e l u))
  (H_in : forall e vs, P e -> Forall P vs -> P (InListExpr e vs)) (H_sub : forall q a, P q -> P (Subquery q a))
  (H_exists : forall q, P q -> P (ExistsExpr q)) (H_count : forall c d a, P c -> P (CountExpr c d a))
  (H_agg : forall f c a, P c -> P (AggregateExpr f c a)) (H_order : forall c d, P c -> P (OrderBy c d))
  (H_select : forall cs d, Forall P cs -> P (SelectExpr cs d)) (H_from : forall s t a, P s -> P (FromTableExpr s t a))
  (H_from_cte : forall s n q r, P s -> P q -> P (FromCteExpr s n q r)) (H_where : forall q c, P q -> P c -> P (WhereExpr q c))
  (H_group : forall q cs, P q -> Forall P cs -> P (GroupByColumnExpr q cs))
  (H_groupq : forall q c, P q -> P c -> P (GroupByQueryExpr q c)) (H_having : forall q c, P q -> P c -> P (HavingExpr q c))
  (H_orderby : forall q os, P q -> Forall P os -> P (OrderByExpr q os)) (H_limit : forall q c o, P q -> P (LimitExpr q c o))
  (H_join : forall q c t ty a, P q -> P c -> P (JoinExpr q c t ty a)) (H_insert : forall t b, P (InsertExpr t b))
  (H_update : forall t l, P (UpdateExpr t l)) (H_updatew : forall u c, P u -> P c -> P (UpdateWhereExpr u c))
  (H_delete : forall t, P (DeleteExpr t)) (H_deletew : forall d c, P d -> P c -> P (DeleteWhereExpr d c))
  (H_setop : forall l r op, P l -> P r -> P (SetOpExpr l r op))
  (H_case : forall ws a, Forall (fun w => P (fst w) /\ P (snd w)) ws -> P (CaseExpr ws a))
  (H_casee : forall ws e a, Forall (fun w => P (fst w) /\ P (snd w)) ws -> P e -> P (CaseExprWithElse ws e a))
  (H_cte : forall n q r, P q -> P (CteExpr n q r)) (H_create : forall t b, P (CreateTableExpr t b))
  (H_drop : forall t a b, P (DropTableExpr t a b)).

Fixpoint expr_ind (e : Expr) : P e :=
  let fix all (es : list Expr) : Forall P es :=
    match es with [] => Forall_nil_2 P | e :: es' => Forall_cons_2 P e es' (expr_ind e) (all es') end in
  let fix pairs (ws : list (Expr * Expr)) : Forall (fun w => P (fst w) /\ P (snd w)) ws :=
    match ws with
    | [] => Forall_nil_2 _
    | (c, v) :: ws' => Forall_cons_2 (fun w => P (fst w) /\ P (snd w)) (c, v) ws' (conj (expr_ind c) (expr_ind v)) (pairs ws')
    end in
  match e with
  | ColumnRef n t a => H_column n t a
  | Literal x a => H_literal x a
  | NullLiteral => H_null
  | ParamPlaceholder => H_hole
  | AllColumns t => H_all t
  | BinaryExpr l r op => H_binary l r op (expr_ind l) (expr_ind r)
  | UnaryExpr x op => H_unary x op (expr_ind x)
  | BetweenExpr x l u => H_between x l u (expr_ind x) (expr_ind l) (expr_ind u)
  | InListExpr x vs => H_in x vs (expr_ind x) (all vs)
  | Subquery q a => H_sub q a (expr_ind q)
  | ExistsExpr q => H_exists q (expr_ind q)
  | CountExpr c d a => H_count c d a (expr_ind c)
  | AggregateExpr f c a => H_agg f c a (expr_ind c)
  | OrderBy c d => H_order c d (expr_ind c)
  | SelectExpr cs d => H_select cs d (all cs)
  | FromTableExpr s t a => H_from s t a (expr_ind s)
  | FromCteExpr s n q r => H_from_cte s n q r (expr_ind s) (expr_ind q)
  | WhereExpr q c => H_where q c (expr_ind q) (expr_ind c)
  | GroupByColumnExpr q cs => H_group q cs (expr_ind q) (all cs)
  | GroupByQueryExpr q c => H_groupq q c (expr_ind q) (expr_ind c)
  | HavingExpr q c => H_having q c (expr_ind q) (expr_ind c)
  | OrderByExpr q os => H_orderby q os (expr_ind q) (all os)
  | LimitExpr q c o => H_limit q c o (expr_ind q)
  | JoinExpr q c t ty a => H_join q c t ty a (expr_ind q) (expr_ind c)
  | InsertExpr t b => H_insert t b
  | UpdateExpr t l => H_update t l
  | UpdateWhereExpr u c => H_updatew u c (expr_ind u) (expr_ind c)
  | DeleteExpr t => H_delete t
  | DeleteWhereExpr d c => H_deletew d c (expr_ind d) (expr_ind c)
  | SetOpExpr l r op => H_setop l r op (expr_ind l) (expr_ind r)
  | CaseExpr ws a => H_case ws a (pairs ws)
  | CaseExprWithElse ws x a => H_casee ws x a (pairs ws) (expr_ind x)
  | CteExpr n q r => H_cte n q r (expr_ind q)
  | CreateTableExpr t b => H_create t b
  | DropTableExpr t a b => H_drop t a b
  end.
End expr_induction.

(** ** The reference semantics: a template

    What a query means as text, independently of how values are passed: literal
    text, the places values go, and explicit placeholders. *)
Inductive piece := PText (s : bytes) | PValue (x : FieldValue) | PHole.

Definition tx (s : string) : list piece := [PText (B s)].
Definition name_piece (n : bytes) : list piece := [PText (quoted_name n)].

Fixpoint comma (first : bool) (items : list (list piece)) : list piece :=
  match items with
  | [] => []
  | i :: items' => (if first then [] else tx ", ") ++ i ++ comma false items'
  end.

Definition alias_pieces (alias : bytes) : list piece := match alias with [] => [] | _ => tx " AS " ++ name_piece alias end.
Definition table_name_pieces (n : bytes) : list piece := match n with [] => [] | _ => name_piece n end.

Definition table_pieces (t : TableRef) : list piece :=
  match t with
  | DynTable None => []
  | DynTable (Some t) => name_piece (table_name t)
  | NamedTable n | StatTable n _ => table_name_pieces n
  end.

Definition qualifier (t : bytes) : list piece := match t with [] => [] | _ => name_piece t ++ tx "." end.
Definition when (b : bool) (s : string) : list piece := if b then tx s else [].
Definition flagged (s : string) (b : bool) (t : string) : list piece := tx s ++ when b t.

Definition dynamic_field_pieces (f : DynamicFieldSchema) : list piece :=
  name_piece (field_name f) ++ tx " " ++ [PText (db_type f)] ++ when (is_primary_key f) " PRIMARY KEY" ++
  when (negb (is_nullable f) && negb (is_primary_key f)) " NOT NULL" ++
  when (is_unique f && negb (is_primary_key f)) " UNIQUE" ++
  match default_value f with [] => [] | d => tx " DEFAULT " ++ [PText d] end ++
  match foreign_table f with
  | [] => []
  | ft => if is_foreign_key f then tx " REFERENCES " ++ name_piece ft ++ tx "(" ++ name_piece (foreign_column f) ++ tx ")"
          else []
  end.

Definition static_field_pieces (f : StaticField) : list piece :=
  name_piece (static_name f) ++ tx " " ++ [PText (sql_type_for (static_type f))] ++ when (static_primary_key f) " PRIMARY KEY" ++
  when (negb (static_nullable f) && negb (static_primary_key f)) " NOT NULL" ++
  when (static_unique f && negb (static_primary_key f)) " UNIQUE".

Definition create_columns_pieces (t : TableRef) : list piece :=
  match t with
  | DynTable (Some t) => tx " (" ++ comma true (map dynamic_field_pieces (fields t)) ++ tx ")"
  | StatTable _ fs => tx " (" ++ comma true (map static_field_pieces fs) ++ tx ")"
  | _ => []
  end.

Definition insert_pieces (b : InsertBody) : list piece :=
  tx " (" ++ comma true (map name_piece (insert_columns b)) ++ tx ") VALUES " ++
  comma true (map (fun row => tx "(" ++ comma true (map (fun x => [PValue x]) row) ++ tx ")") (insert_rows b)).

Definition update_pieces (l : list (bytes * FieldValue)) : list piece :=
  tx " SET " ++ comma true (map (fun a => name_piece (fst a) ++ tx " = " ++ [PValue (snd a)]) l).

Fixpoint template (e : Expr) : list piece :=
  match e with
  | ColumnRef n t a => qualifier t ++ name_piece n ++ alias_pieces a
  | Literal x a => [PValue x] ++ alias_pieces a
  | NullLiteral => tx "NULL"
  | ParamPlaceholder => [PHole]
  | AllColumns t => qualifier t ++ tx "*"
  | BinaryExpr l r op => tx "(" ++ template l ++ [PText (binary_op_text op)] ++ template r ++ tx ")"
  | UnaryExpr x op => if is_postfix op then template x ++ [PText (unary_op_text op)] else [PText (unary_op_text op)] ++ template x
  | BetweenExpr x l u => template x ++ tx " BETWEEN " ++ template l ++ tx " AND " ++ template u
  | InListExpr x vs => template x ++ tx " IN (" ++ comma true (map template vs) ++ tx ")"
  | Subquery q a => tx "(" ++ template q ++ tx ")" ++ alias_pieces a
  | ExistsExpr q => tx "EXISTS (" ++ template q ++ tx ")"
  | CountExpr c d a => flagged "COUNT(" d "DISTINCT " ++ (if is_all_columns c then tx "*" else template c) ++ tx ")" ++ alias_pieces a
  | AggregateExpr f c a => [PText (aggregate_text f)] ++ template c ++ tx ")" ++ alias_pieces a
  | OrderBy c d => template c ++ [PText (order_direction_text d)]
  | SelectExpr cs d => flagged "SELECT " d "DISTINCT " ++ comma true (map template cs)
  | FromTableExpr s t a => template s ++ tx " FROM " ++ table_pieces t ++ alias_pieces a
  | FromCteExpr s n q r =>
      (flagged "WITH " r "RECURSIVE " ++ name_piece n ++ tx " AS (" ++ template q ++ tx ")" ++ tx " ") ++
      template s ++ tx " FROM " ++ table_name_pieces n
  | WhereExpr q c | UpdateWhereExpr q c | DeleteWhereExpr q c => template q ++ tx " WHERE " ++ template c
  | GroupByColumnExpr q cs => template q ++ tx " GROUP BY " ++ comma true (map template cs)
  | GroupByQueryExpr q c => template q ++ tx " GROUP BY " ++ template c
  | HavingExpr q c => template q ++ tx " HAVING " ++ template c
  | OrderByExpr q os => template q ++ tx " ORDER BY " ++ comma true (map template os)
  | LimitExpr q c o => template q ++ [PText (limit_text c o)]
  | JoinExpr q c t ty a =>
      template q ++ [PText (join_text ty)] ++ table_pieces t ++ alias_pieces a ++ tx " ON " ++ template c
  | InsertExpr t b => tx "INSERT INTO " ++ table_pieces t ++ insert_pieces b
  | UpdateExpr t l => tx "UPDATE " ++ table_pieces t ++ update_pieces l
  | DeleteExpr t => tx "DELETE FROM " ++ table_pieces t
  | SetOpExpr l r op => template l ++ [PText (set_op_text op)] ++ template r
  | CaseExpr ws a =>
      tx "CASE" ++ concat (map (fun w => tx " WHEN " ++ template (fst w) ++ tx " THEN " ++ template (snd w)) ws) ++
      tx " END" ++ alias_pieces a
  | CaseExprWithElse ws x a =>
      tx "CASE" ++ concat (map (fun w => tx " WHEN " ++ template (fst w) ++ tx " THEN " ++ template (snd w)) ws) ++
      tx " ELSE " ++ template x ++ tx " END" ++ alias_pieces a
  | CteExpr n q r => flagged "WITH " r "RECURSIVE " ++ name_piece n ++ tx " AS (" ++ template q ++ tx ")" ++ tx " "
  | CreateTableExpr t b => flagged "CREATE TABLE " b "IF NOT EXISTS " ++ table_pieces t ++ create_columns_pieces t
  | DropTableExpr t a b => flagged "DROP TABLE " a "IF EXISTS " ++ table_pieces t ++ when b " CASCADE"
  end.

(** The values [Tuple] mode hands back: those of the literals, in visiting order,
    but not the rows of an INSERT or the assignments of an UPDATE. *)
Fixpoint captured (e : Expr) : list FieldValue :=
  match e with
  | Literal x _ => [x]
  | BinaryExpr a b _ | WhereExpr a b | GroupByQueryExpr a b | HavingExpr a b | JoinExpr a b _ _ _
  | UpdateWhereExpr a b | DeleteWhereExpr a b | SetOpExpr a b _ => captured a ++ captured b
  | UnaryExpr x _ | Subquery x _ | ExistsExpr x | FromTableExpr x _ _ | LimitExpr x _ _ | CteExpr _ x _ => captured x
  | BetweenExpr x l u => captured x ++ captured l ++ captured u
  | InListExpr x vs => captured x ++ concat (map captured vs)
  | SelectExpr cs _ => concat (map captured cs)
  | FromCteExpr s _ q _ => captured q ++ captured s
  | GroupByColumnExpr q cs => captured q ++ concat (map captured cs)
  | OrderByExpr q os => captured q ++ concat (map captured os)
  | CaseExpr ws _ => concat (map (fun w => captured (fst w) ++ captured (snd w)) ws)
  | CaseExprWithElse ws x _ => concat (map (fun w => captured (fst w) ++ captured (snd w)) ws) ++ captured x
  | _ => []
  end.

(** ** The generator implements the template *)
Section generator_spec.
Context {T K : Type} `{AppendableLaws T} `{ParamSink K} `{FloatText}.
Context (mode : ParamMode).

(** Writing out a template: values as the mode prescribes. *)
Fixpoint render (ps : list piece) (k : K) (c : nat) : bytes * K * nat :=
  match ps with
  | [] => ([], k, c)
  | PText s :: ps' => let '(t, k', c') := render ps' k c in (s ++ t, k', c')
  | PValue x :: ps' =>
      match mode with
      | Inline => let '(t, k', c') := render ps' k c in (value_text x ++ t, k', c')
      | Tuple => let '(t, k', c') := render ps' k (S c) in ("$"%char :: to_decimal (N.of_nat (S c)) ++ t, k', c')
      | Sink =>
          let '(t, k', c') := render ps' (fst (sink_push k x)) c in
          ("$"%char :: to_decimal (N.of_nat (snd (sink_push k x))) ++ t, k', c')
      end
  | PHole :: ps' => let '(t, k', c') := render ps' k (S c) in ("$"%char :: to_decimal (N.of_nat (S c)) ++ t, k', c')
  end.

Lemma render_app p q k c :
  render (p ++ q) k c =
  let '(t1, k1, c1) := render p k c in let '(t2, k2, c2) := render q k1 c1 in (t1 ++ t2, k2, c2).
Proof.
  revert k c. induction p as [|x p IH]; intros k c; simpl; [by destruct (render q k c) as [[? ?] ?]|].
  destruct x; simpl; [|destruct mode|]; rewrite IH;
    match goal with |- context [render p ?a ?b] => destruct (render p a b) as [[t1 k1] c1] end;
    destruct (render q k1 c1) as [[t2 k2] c2]; cbn [app]; by rewrite <- ?app_assoc.
Qed.

Definition Emits (g : Gen T K) (ps : list piece) (cs : list FieldValue) : Prop := forall v, text_ok (sql v) ->
  let '(s, k, c) := render ps (sink v) (param_count v) in
  if within capacity (length (text_of (sql v)) + length s) then
    exists t', g v = Ok ({| sql := t'; sink := k; param_count := c |}, match mode with Tuple => cs | _ => [] end) /\
      text_ok t' /\ text_of t' = text_of (sql v) ++ s
  else exists w, g v = Err (OutOfRange w).

Lemma Emits_emit f s : Appends f s -> Emits (emit f) [PText s] [].
Proof.
  intros Hf v Hv. simpl. rewrite app_nil_r. specialize (Hf (sql v) Hv). unfold emit. destruct (within _ _).
  - destruct Hf as (t' & -> & Ht & Et). exists t'. simpl. by destruct mode.
  - destruct Hf as [w ->]. by exists w.
Qed.

Lemma Emits_text s : Emits (text s) [PText s] [].
Proof. apply Emits_emit, Appends_sv. Qed.

Lemma Emits_name n : Emits (emit (fun t => quote_identifier t n)) (name_piece n) [].
Proof. apply Emits_emit, quote_identifier_appends. Qed.

Lemma Emits_nothing : Emits nothing [] [].
Proof.
  intros v Hv. simpl. rewrite Nat.add_0_r, text_within by done. exists (sql v). rewrite app_nil_r.
  destruct v; by destruct mode.
Qed.

Lemma Emits_seq a b p1 c1 p2 c2 : Emits a p1 c1 -> Emits b p2 c2 -> Emits (seq_gen mode a b) (p1 ++ p2) (c1 ++ c2).
Proof.
  intros Ha Hb v Hv. rewrite render_app. specialize (Ha v Hv). unfold seq_gen.
  destruct (render p1 (sink v) (param_count v)) as [[t1 k1] n1].
  destruct (within capacity (length (text_of (sql v)) + length t1)) eqn:E1.
  - destruct Ha as (t' & -> & Ht & Et). cbn [mbind result_bind].
    specialize (Hb {| sql := t'; sink := k1; param_count := n1 |} Ht). cbn [sql sink param_count] in Hb.
    destruct (render p2 k1 n1) as [[t2 k2] n2]. rewrite Et, length_app in Hb. rewrite length_app, Nat.add_assoc.
    destruct (within capacity (length (text_of (sql v)) + length t1 + length t2)).
    + destruct Hb as (t'' & -> & Ht' & Et'). exists t''. split_and!; [by destruct mode|done|by rewrite Et', app_assoc].
    + destruct Hb as [w ->]. by exists w.
  - destruct Ha as [w ->]. cbn [mbind result_bind]. destruct (render p2 k1 n1) as [[t2 k2] n2].
    rewrite length_app, Nat.add_assoc.
    destruct (within capacity (length (text_of (sql v)) + length t1 + length t2)) eqn:E2; [|by exists w].
    apply (within_mono _ (length (text_of (sql v)) + length t1)) in E2; [congruence|lia].
Qed.

Lemma Emits_no_params g ps cs : Emits g ps cs -> Emits (no_params g) ps [].
Proof.
  intros Hg v Hv. specialize (Hg v Hv). unfold no_params. destruct (render ps _ _) as [[s k] c]. destruct (within _ _).
  - destruct Hg as (t' & -> & Ht & Et). exists t'. simpl. by destruct mode.
  - destruct Hg as [w ->]. by exists w.
Qed.

(** A counted placeholder. *)
Lemma Emits_placeholder i (x : K * nat) (v : Visitor T K) :
  text_ok (sql v) ->
  if within capacity (length (text_of (sql v)) + length ("$"%char :: to_decimal (N.of_nat i))) then
    exists t', emit (fun t => placeholder t i) {| sql := sql v; sink := fst x; param_count := snd x |} =
      Ok ({| sql := t'; sink := fst x; param_count := snd x |}, []) /\
      text_ok t' /\ text_of t' = text_of (sql v) ++ "$"%char :: to_decimal (N.of_nat i)
  else exists w, emit (fun t => placeholder t i) {| sql := sql v; sink := fst x; param_count := snd x |} = Err (OutOfRange w).
Proof.
  intros Hv. pose proof (placeholder_appends i (sql v) Hv) as Hf. unfold emit. cbn [sql sink param_count].
  destruct (within _ _).
  - destruct Hf as (t' & -> & Ht & Et). by exists t'.
  - destruct Hf as [w ->]. by exists w.
Qed.

Lemma Emits_value x : Emits (visit_value_impl mode x) [PValue x] [].
Proof.
  intros v Hv. unfold visit_value_impl. destruct mode eqn:Em; simpl render; rewrite Em, ?app_nil_r.
  - pose proof (Emits_emit _ _ (format_value_appends x) v Hv) as Hf. rewrite Em in Hf. simpl in Hf. by rewrite app_nil_r in Hf.
  - pose proof (Emits_placeholder (S (param_count v)) (sink v, S (param_count v)) v Hv) as Hf. done.
  - pose proof (Emits_placeholder (snd (sink_push (sink v) x)) (fst (sink_push (sink v) x), param_count v) v Hv) as Hf.
    by destruct (sink_push (sink v) x) as [k idx].
Qed.

Lemma Emits_hole : Emits visit_param_placeholder_impl [PHole] [].
Proof.
  intros v Hv. unfold visit_param_placeholder_impl. simpl render. rewrite app_nil_r.
  pose proof (Emits_placeholder (S (param_count v)) (sink v, S (param_count v)) v Hv) as Hf.
  destruct (within _ _); [|done]. destruct Hf as (t' & E & Hok & Et). exists t'. split_and!; [|done|done].
  simpl in E. rewrite E. by destruct mode.
Qed.

(** Discharging a node's obligation piece by piece. *)
Create HintDb emits.
#[local] Hint Resolve Emits_text Emits_name Emits_nothing Emits_value Emits_hole : emits.

Lemma Emits_seq_nil a b p1 p2 c2 : Emits a p1 [] -> Emits b p2 c2 -> Emits (seq_gen mode a b) (p1 ++ p2) c2.
Proof. apply Emits_seq. Qed.

Lemma Emits_seq_last a b p1 p2 c1 : Emits a p1 c1 -> Emits b p2 [] -> Emits (seq_gen mode a b) (p1 ++ p2) c1.
Proof. intros Ha Hb. rewrite <- (app_nil_r c1). by apply Emits_seq. Qed.

Lemma Emits_flag b s : Emits (flag b (B s)) (when b s) [].
Proof. destruct b; [apply Emits_text|apply Emits_nothing]. Qed.

Lemma Emits_flagged s b t : Emits (seq_gen mode (text (B s)) (flag b (B t))) (flagged s b t) [].
Proof. apply Emits_seq_nil; [apply Emits_text|apply Emits_flag]. Qed.
#[local] Hint Resolve Emits_flag Emits_flagged : emits.

Lemma Emits_table_name n : Emits (visit_table_name_impl n) (table_name_pieces n) [].
Proof. destruct n; [apply Emits_nothing|apply Emits_name]. Qed.
#[local] Hint Resolve Emits_table_name : emits.

Lemma Emits_table t : Emits (visit_table_impl t) (table_pieces t) [].
Proof. destruct t as [[t|]|n|n fs]; simpl; auto with emits. Qed.

Lemma Emits_alias a : Emits (visit_alias_impl mode a) (alias_pieces a) [].
Proof. destruct a; [apply Emits_nothing|]. apply Emits_seq_nil; auto with emits. Qed.
#[local] Hint Resolve Emits_table Emits_alias : emits.

Lemma Emits_qualifier t :
  Emits (match t with [] => nothing | _ => seq_gen mode (visit_table_name_impl t) (text (B ".")) end) (qualifier t) [].
Proof.
  destruct t as [|c t]; [apply Emits_nothing|]. apply Emits_seq_nil; [|apply Emits_text]. apply Emits_name.
Qed.
#[local] Hint Resolve Emits_qualifier : emits.

Ltac emits := repeat (first [apply Emits_seq_nil; [solve [auto with emits]|] | solve [auto with emits]]).

Lemma Emits_separated (items : list (Gen T K)) ps first :
  Forall2 (fun g p => Emits g p []) items ps -> Emits (separated mode items first) (comma first ps) [].
Proof.
  intros HF. revert first. induction HF as [|g p items ps Hg HF IH]; intros first; [apply Emits_nothing|].
  cbn [separated comma]. apply Emits_seq_nil; [destruct first; auto with emits|]. apply Emits_seq_nil; [done|apply IH].
Qed.

Lemma Emits_tuple (items : list (Gen T K)) ps cs first :
  Forall2 (fun g pc => Emits g (fst pc) (snd pc)) items (zip ps cs) -> length ps = length cs ->
  Emits (visit_tuple_elements mode items first) (comma first ps) (concat cs).
Proof.
  revert items cs first. induction ps as [|p ps IH]; intros items [|c cs] first HF Hl; simpl in *; try done.
  - inv HF. apply Emits_nothing.
  - inv HF. cbn [visit_tuple_elements comma]. unfold visit_column_separator.
    apply Emits_seq_nil; [destruct first; auto with emits|]. apply Emits_seq; [done|]. apply IH; [done|lia].
Qed.

Lemma Forall2_map_lr {A B C} (P : B -> C -> Prop) (f : A -> B) (g : A -> C) l :
  (forall x, P (f x) (g x)) -> Forall2 P (map f l) (map g l).
Proof. intros HP. induction l; constructor; auto. Qed.

Lemma Emits_dynamic_field f : Emits (visit_dynamic_field mode f) (dynamic_field_pieces f) [].
Proof.
  unfold visit_dynamic_field, dynamic_field_pieces. emits. apply Emits_seq_nil.
  - destruct (default_value f); emits.
  - destruct (foreign_table f); [emits|]. destruct (is_foreign_key f); emits.
Qed.

Lemma Emits_static_field f : Emits (visit_static_field mode f) (static_field_pieces f) [].
Proof. unfold visit_static_field, static_field_pieces. emits. Qed.

Lemma Emits_create_columns t : Emits (visit_create_table_columns mode t) (create_columns_pieces t) [].
Proof.
  destruct t as [[t|]|n|n fs]; cbn [visit_create_table_columns create_columns_pieces]; [|emits|emits|];
    (apply Emits_seq_nil; [emits|]; apply Emits_seq_nil; [|emits]; apply Emits_separated, Forall2_map_lr).
  - apply Emits_dynamic_field.
  - apply Emits_static_field.
Qed.

Lemma Emits_insert b :
  Emits (seq_gen mode (visit_insert_columns mode (insert_columns b)) (visit_insert_values mode (insert_rows b))) (insert_pieces b) [].
Proof.
  unfold visit_insert_columns, visit_insert_values, insert_pieces.
  assert (E : forall a b c d : list piece, a ++ b ++ c ++ d = (a ++ b ++ c) ++ d) by (intros; by rewrite <- !app_assoc).
  rewrite E. apply Emits_seq_nil.
  - emits. apply Emits_seq_nil; [|emits]. apply Emits_separated, Forall2_map_lr. auto with emits.
  - apply Emits_separated, Forall2_map_lr. intros row. emits. apply Emits_seq_nil; [|emits].
    apply Emits_separated, Forall2_map_lr. auto with emits.
Qed.

Lemma Emits_update l : Emits (visit_update_set mode l) (update_pieces l) [].
Proof.
  unfold visit_update_set, update_pieces. emits. apply Emits_separated, Forall2_map_lr. intros a. emits.
Qed.
#[local] Hint Resolve Emits_create_columns Emits_insert Emits_update : emits.

Lemma Emits_visit_tuple (es : list Expr) :
  Forall (fun e => Emits (visit mode e) (template e) (captured e)) es ->
  Emits (visit_tuple_elements mode (map (visit mode) es) true) (comma true (map template es)) (concat (map captured es)).
Proof.
  intros HF. apply Emits_tuple; [|by rewrite !length_map].
  induction HF as [|e es He HF IH]; simpl; [constructor|]. constructor; [done|exact IH].
Qed.

Lemma Emits_visit_whens (ws : list (Expr * Expr)) :
  Forall (fun w => Emits (visit mode (fst w)) (template (fst w)) (captured (fst w)) /\
                   Emits (visit mode (snd w)) (template (snd w)) (captured (snd w))) ws ->
  Emits (visit_when_clauses mode (map (fun w => (visit mode (fst w), visit mode (snd w))) ws))
    (concat (map (fun w => tx " WHEN " ++ template (fst w) ++ tx " THEN " ++ template (snd w)) ws))
    (concat (map (fun w => captured (fst w) ++ captured (snd w)) ws)).
Proof.
  induction 1 as [|w ws [Hc Hv] HF IH]; [apply Emits_nothing|]. cbn [map concat visit_when_clauses].
  apply Emits_seq; [|exact IH]. unfold visit_single_when, visit_when_start, visit_when_then. cbn [fst snd]. apply Emits_seq_nil; [emits|]. apply Emits_seq; [done|]. by apply Emits_seq_nil; [emits|].
Qed.

Ltac unfold_hooks :=
  unfold visit_null_impl, visit_binary_expr_start, visit_binary_expr_end, visit_subquery_start, visit_subquery_end,
    visit_exists_start, visit_exists_end, visit_between_impl, visit_and_impl, visit_in_list_start, visit_in_list_end,
    visit_from_start, visit_where_start, visit_group_by_start, visit_having_start, visit_order_by_start, visit_join_on,
    visit_insert_start, visit_update_start, visit_delete_start, visit_case_start, visit_case_end, visit_when_start,
    visit_when_then, visit_else_start, visit_cte_start, visit_cte_name_impl, visit_cte_as_start, visit_cte_as_end,
    visit_cte_end, visit_count_impl, visit_select_start, visit_create_table_start, visit_drop_table_start,
    visit_drop_table_end, visit_limit_impl.

Lemma visit_emits e : Emits (visit mode e) (template e) (captured e).
Proof.
  induction e using expr_ind; cbn [visit template captured];
    unfold visit_column, visit_literal, visit_null, visit_param_placeholder, visit_all_columns, visit_binary, visit_unary,
      visit_between, visit_in_list, visit_subquery, visit_exists, visit_count, visit_aggregate, visit_order_by_item,
      visit_select, visit_from_table, visit_from_cte, visit_cte, visit_where, visit_group_by_columns, visit_group_by_query,
      visit_having, visit_order_by, visit_limit, visit_join, visit_insert, visit_update, visit_update_where, visit_delete,
      visit_delete_where, visit_set_op, visit_case, visit_case_else, visit_create_table, visit_drop_table; unfold_hooks.
  - eapply Emits_no_params. emits.
  - intros v Hv. pose proof (Emits_seq_nil _ _ _ _ _ (Emits_value x) (Emits_alias a) v Hv) as Hs.
    destruct (render _ _ _) as [[s k] c]. destruct (within _ _); [|destruct Hs as [w ->]; by exists w].
    destruct Hs as (t' & -> & Ht & Et). exists t'. cbn. by destruct mode.
  - eapply Emits_no_params. emits.
  - eapply Emits_no_params. emits.
  - eapply Emits_no_params. emits.
  - apply Emits_seq_nil; [emits|]. apply Emits_seq; [done|]. apply Emits_seq_nil; [emits|]. apply Emits_seq_last; [done|emits].
  - destruct (is_postfix op); [apply Emits_seq_last|apply Emits_seq_nil]; emits; done.
  - apply Emits_seq; [done|]. apply Emits_seq_nil; [emits|]. apply Emits_seq; [done|]. by apply Emits_seq_nil; [emits|].
  - apply Emits_seq; [done|]. apply Emits_seq_nil; [emits|]. apply Emits_seq_last; [|emits]. by apply Emits_visit_tuple.
  - apply Emits_seq_nil; [emits|]. apply Emits_seq_last; [done|]. emits.
  - apply Emits_seq_nil; [emits|]. apply Emits_seq_last; [done|emits].
  - eapply Emits_no_params. apply Emits_seq_nil; [emits|].
    apply Emits_seq; [|unfold visit_aggregate_end; emits]. instantiate (1 := if is_all_columns e then [] else captured e).
    destruct (is_all_columns e); [|done]. apply (Emits_seq_nil nothing _ [] (tx "*")); emits.
  - eapply Emits_no_params. apply Emits_seq_nil; [emits|]. apply Emits_seq; [done|]. unfold visit_aggregate_end. emits.
  - eapply Emits_no_params. apply Emits_seq_last; [done|emits].
  - apply Emits_seq_nil; [emits|]. by apply Emits_visit_tuple.
  - apply Emits_seq_last; [done|]. emits.
  - apply Emits_seq.
    + do 3 (apply Emits_seq_nil; [emits|]). apply Emits_seq_last; [done|]. emits.
    + apply Emits_seq_last; [done|]. emits.
  - apply Emits_seq; [done|]. by apply Emits_seq_nil; [emits|].
  - apply Emits_seq; [done|]. apply Emits_seq_nil; [emits|]. by apply Emits_visit_tuple.
  - apply Emits_seq; [done|]. by apply Emits_seq_nil; [emits|].
  - apply Emits_seq; [done|]. by apply Emits_seq_nil; [emits|].
  - apply Emits_seq; [done|]. apply Emits_seq_nil; [emits|]. by apply Emits_visit_tuple.
  - apply Emits_seq_last; [done|]. apply Emits_emit, limit_clause_appends.
  - apply Emits_seq; [done|]. do 4 (apply Emits_seq_nil; [emits|]). done.
  - eapply Emits_no_params. emits.
  - apply (Emits_no_params _ _ []). do 2 (apply Emits_seq_nil; [emits|]). apply Emits_update.
  - apply Emits_seq; [done|]. by apply Emits_seq_nil; [emits|].
  - eapply Emits_no_params. emits.
  - apply Emits_seq; [done|]. by apply Emits_seq_nil; [emits|].
  - apply Emits_seq; [done|]. by apply Emits_seq_nil; [emits|].
  - apply Emits_seq_nil; [emits|]. apply Emits_seq_last; [by apply Emits_visit_whens|]. emits.
  - apply Emits_seq_nil; [emits|]. apply Emits_seq; [by apply Emits_visit_whens|]. apply Emits_seq_nil; [emits|].
    apply Emits_seq_last; [done|]. emits.
  - do 3 (apply Emits_seq_nil; [emits|]). apply Emits_seq_last; [done|]. emits.
  - eapply Emits_no_params. emits.
  - eapply Emits_no_params. emits.
Qed.

End generator_spec.

(** ** Reading a template *)
Definition values_of (ps : list piece) : list FieldValue := omap (fun p => match p with PValue x => Some x | _ => None end) ps.

Definition hole_free (ps : list piece) : bool := forallb (fun p => match p with PHole => false | _ => true end) ps.

Definition dollar (i : nat) : bytes := "$"%char :: to_decimal (N.of_nat i).

(** Fill the value slots by [f], numbered from [i]; the explicit placeholders are
    written [$j], [$(j+1)], ... by a numbering of their own. *)
Fixpoint fill (f : nat -> FieldValue -> bytes) (i j : nat) (ps : list piece) : bytes :=
  match ps with
  | [] => []
  | PText s :: ps' => s ++ fill f i j ps'
  | PValue x :: ps' => f i x ++ fill f (S i) j ps'
  | PHole :: ps' => dollar j ++ fill f i (S j) ps'
  end.

(** How many explicit placeholders a template has. *)
Definition holes_of (ps : list piece) : nat := length (omap (fun p => match p with PHole => Some tt | _ => None end) ps).

Definition bind_all {K} `{ParamSink K} (k : K) (xs : list FieldValue) : K := fold_left (fun k x => fst (sink_push k x)) xs k.

Lemma values_of_app p q : values_of (p ++ q) = values_of p ++ values_of q.
Proof. apply omap_app. Qed.

Lemma hole_free_app p q : hole_free (p ++ q) = hole_free p && hole_free q.
Proof. apply forallb_app. Qed.

Section render_facts.
Context {K : Type} `{ParamSink K, !ParamSinkLaws K} `{FloatText}.

Lemma render_inline ps (k : K) c i :
  render Inline ps k c = (fill (fun _ x => value_text x) i (S c) ps, k, c + holes_of ps).
Proof.
  revert i c. induction ps as [|[s|x|] ps IH]; intros i c; cbn [render fill].
  - by rewrite Nat.add_0_r.
  - by rewrite (IH i).
  - by rewrite (IH (S i)).
  - rewrite (IH i). change (holes_of (PHole :: ps)) with (S (holes_of ps)). by rewrite Nat.add_succ_r.
Qed.

Lemma render_sink ps (k : K) c :
  render Sink ps k c =
    (fill (fun i _ => dollar i) (S (sink_size k)) (S c) ps, bind_all k (values_of ps), c + holes_of ps).
Proof.
  revert k c. induction ps as [|[s|x|] ps IH]; intros k c; cbn [render fill]; rewrite ?IH.
  - by rewrite Nat.add_0_r.
  - done.
  - by rewrite sink_push_index, sink_push_size.
  - change (holes_of (PHole :: ps)) with (S (holes_of ps)). by rewrite Nat.add_succ_r.
Qed.

Lemma bind_all_size (k : K) xs : sink_size (bind_all k xs) = sink_size k + length xs.
Proof.
  revert k. induction xs as [|x xs IH]; intros k; simpl; [lia|]. unfold bind_all in *. simpl. rewrite IH, sink_push_size. lia.
Qed.

End render_facts.

Lemma render_tuple {K} `{ParamSink K} `{FloatText} ps (k : K) c j :
  hole_free ps = true ->
  render Tuple ps k c = (fill (fun i _ => dollar i) (S c) j ps, k, c + length (values_of ps)).
Proof.
  revert c. induction ps as [|[s|x|] ps IH]; intros c Hh; simpl in *; [by rewrite Nat.add_0_r|by rewrite IH| |done].
  rewrite IH by done. by rewrite Nat.add_succ_r.
Qed.

(** Running the generator on a growing string, in closed form. *)
Lemma visit_std {K} `{ParamSink K} `{FloatText} mode e (k : K) :
  let '(s, k', c) := render mode (template e) k 0 in
  visit mode e {| sql := [] : bytes; sink := k; param_count := 0 |} =
  Ok ({| sql := s; sink := k'; param_count := c |}, match mode with Tuple => captured e | _ => [] end).
Proof.
  pose proof (visit_emits (T := bytes) mode e {| sql := [] : bytes; sink := k; param_count := 0 |} I) as Hv.
  cbn [sql sink param_count] in Hv. destruct (render mode (template e) k 0) as [[s k'] c].
  destruct Hv as (t' & -> & _ & Et). simpl in Et. by rewrite Et.
Qed.

(** ** Theorems *)

(** C3. Inline and bound compilation of any expression agree, whatever the sink held
    before: both fill the same template, one with the formatted literals and one with
    [$(n+1)], [$(n+2)], ... in order, where [n] is the number of parameters already in
    the sink. The sink then holds the template's values after those, in that order,
    so each of these slots denotes the value the inline text has in its place.
    Explicit placeholders are written [$1], [$2], ... by the visitor's own counter in
    both, independently of the sink: an expression that mixes them with values uses
    one number for both, since neither numbering knows of the other. *)
Theorem sink_parameters_aligned {K} `{ParamSink K, !ParamSinkLaws K} `{FloatText} (k : K) e :
  compile_dynamic Inline k e = Ok (fill (fun _ x => value_text x) 1 1 (template e), k) /\
  compile_dynamic Sink k e =
    Ok (fill (fun i _ => dollar i) (S (sink_size k)) 1 (template e), bind_all k (values_of (template e))) /\
  sink_size (bind_all k (values_of (template e))) = sink_size k + length (values_of (template e)).
Proof.
  unfold compile_dynamic. split_and!.
  - pose proof (visit_std Inline e k) as Hv. rewrite (render_inline _ _ _ 1) in Hv. by rewrite Hv.
  - pose proof (visit_std Sink e k) as Hv. rewrite render_sink in Hv. by rewrite Hv.
  - apply bind_all_size.
Qed.

(** Replacing every value of an expression. *)
Fixpoint map_values (f : FieldValue -> FieldValue) (e : Expr) : Expr :=
  match e with
  | Literal x a => Literal (f x) a
  | BinaryExpr l r op => BinaryExpr (map_values f l) (map_values f r) op
  | UnaryExpr x op => UnaryExpr (map_values f x) op
  | BetweenExpr x l u => BetweenExpr (map_values f x) (map_values f l) (map_values f u)
  | InListExpr x vs => InListExpr (map_values f x) (map (map_values f) vs)
  | Subquery q a => Subquery (map_values f q) a
  | ExistsExpr q => ExistsExpr (map_values f q)
  | CountExpr c d a => CountExpr (map_values f c) d a
  | AggregateExpr fn c a => AggregateExpr fn (map_values f c) a
  | OrderBy c d => OrderBy (map_values f c) d
  | SelectExpr cs d => SelectExpr (map (map_values f) cs) d
  | FromTableExpr s t a => FromTableExpr (map_values f s) t a
  | FromCteExpr s n q r => FromCteExpr (map_values f s) n (map_values f q) r
  | WhereExpr q c => WhereExpr (map_values f q) (map_values f c)
  | GroupByColumnExpr q cs => GroupByColumnExpr (map_values f q) (map (map_values f) cs)
  | GroupByQueryExpr q c => GroupByQueryExpr (map_values f q) (map_values f c)
  | HavingExpr q c => HavingExpr (map_values f q) (map_values f c)
  | OrderByExpr q os => OrderByExpr (map_values f q) (map (map_values f) os)
  | LimitExpr q c o => LimitExpr (map_values f q) c o
  | JoinExpr q c t ty a => JoinExpr (map_values f q) (map_values f c) t ty a
  | InsertExpr t b => InsertExpr t {| insert_columns := insert_columns b; insert_rows := map (map f) (insert_rows b) |}
  | UpdateExpr t l => UpdateExpr t (map (fun a => (fst a, f (snd a))) l)
  | UpdateWhereExpr u c => UpdateWhereExpr (map_values f u) (map_values f c)
  | DeleteWhereExpr d c => DeleteWhereExpr (map_values f d) (map_values f c)
  | SetOpExpr l r op => SetOpExpr (map_values f l) (map_values f r) op
  | CaseExpr ws a => CaseExpr (map (fun w => (map_values f (fst w), map_values f (snd w))) ws) a
  | CaseExprWithElse ws x a => CaseExprWithElse (map (fun w => (map_values f (fst w), map_values f (snd w))) ws) (map_values f x) a
  | CteExpr n q r => CteExpr n (map_values f q) r
  | e => e
  end.

(** An expression with its values forgotten. *)
Definition erase : Expr -> Expr := map_values (fun _ => FvNull).

Definition map_piece (f : FieldValue -> FieldValue) (p : piece) : piece := match p with PValue x => PValue (f x) | p => p end.

Lemma comma_map_pieces f first items : map (map_piece f) (comma first items) = comma first (map (map (map_piece f)) items).
Proof.
  revert first. induction items as [|i items IH]; intros first; simpl; [done|]. rewrite !map_app, IH. by destruct first.
Qed.

Lemma map_pieces_text f ps : values_of ps = [] -> map (map_piece f) ps = ps.
Proof. induction ps as [|[s|x|] ps IH]; simpl; intros E; [done|by rewrite IH|done|by rewrite IH]. Qed.

Lemma values_of_comma first items : Forall (fun i => values_of i = []) items -> values_of (comma first items) = [].
Proof.
  intros HF. revert first. induction HF as [|i items Hi HF IH]; intros first; simpl; [done|].
  rewrite !values_of_app, Hi, IH. by destruct first.
Qed.

Lemma values_of_alias a : values_of (alias_pieces a) = [].
Proof. by destruct a. Qed.
Lemma values_of_qualifier t : values_of (qualifier t) = [].
Proof. by destruct t. Qed.
Lemma values_of_when b s : values_of (when b s) = [].
Proof. by destruct b. Qed.
Lemma values_of_table_name n : values_of (table_name_pieces n) = [].
Proof. by destruct n. Qed.
Lemma values_of_table t : values_of (table_pieces t) = [].
Proof. destruct t as [[t|]|[|]|[|] fs]; done. Qed.

Lemma values_of_flagged s b t : values_of (flagged s b t) = [].
Proof. by destruct b. Qed.

Lemma values_of_create t : values_of (create_columns_pieces t) = [].
Proof.
  destruct t as [[t|]|n|n fs]; cbn [create_columns_pieces]; try done;
    rewrite !values_of_app, values_of_comma; try done; apply Forall_forall; intros p Hp;
    apply list_elem_of_In, in_map_iff in Hp as (x & <- & _).
  - unfold dynamic_field_pieces. rewrite !values_of_app, !values_of_when.
    destruct (default_value x), (foreign_table x), (is_foreign_key x); done.
  - unfold static_field_pieces. by rewrite !values_of_app, !values_of_when.
Qed.

(** Rewriting a template's values distributes over its construction. *)
Lemma map_comma_templates f (es : list Expr) :
  Forall (fun e => template (map_values f e) = map (map_piece f) (template e)) es ->
  comma true (map template (map (map_values f) es)) = map (map_piece f) (comma true (map template es)).
Proof.
  intros HF. rewrite comma_map_pieces, !map_map. f_equal. apply map_ext_Forall. exact HF.
Qed.

Lemma template_whens f (ws : list (Expr * Expr)) :
  Forall (fun w => template (map_values f (fst w)) = map (map_piece f) (template (fst w)) /\
                   template (map_values f (snd w)) = map (map_piece f) (template (snd w))) ws ->
  concat (map (fun w => tx " WHEN " ++ template (fst w) ++ tx " THEN " ++ template (snd w))
            (map (fun w => (map_values f (fst w), map_values f (snd w))) ws)) =
  map (map_piece f) (concat (map (fun w => tx " WHEN " ++ template (fst w) ++ tx " THEN " ++ template (snd w)) ws)).
Proof.
  intros HF. induction HF as [|w ws [H1 H2] HF IH]; [done|]. cbn [map concat fst snd]. rewrite H1, H2, IH.
  by rewrite !map_app.
Qed.

Lemma map_pieces_insert f b :
  insert_pieces {| insert_columns := insert_columns b; insert_rows := map (map f) (insert_rows b) |} =
  map (map_piece f) (insert_pieces b).
Proof.
  unfold insert_pieces. cbn [insert_columns insert_rows]. rewrite !map_app, !comma_map_pieces, !map_map. do 3 f_equal.
  f_equal. apply map_ext. intros row. by rewrite !map_app, comma_map_pieces, !map_map.
Qed.

Lemma map_pieces_update f l : update_pieces (map (fun a => (fst a, f (snd a))) l) = map (map_piece f) (update_pieces l).
Proof. unfold update_pieces. by rewrite map_app, comma_map_pieces, !map_map. Qed.

Lemma template_map_values f e : template (map_values f e) = map (map_piece f) (template e).
Proof.
  assert (Ha := fun a => map_pieces_text f _ (values_of_alias a)).
  assert (Hq := fun t => map_pieces_text f _ (values_of_qualifier t)).
  assert (Hw := fun b s => map_pieces_text f _ (values_of_when b s)).
  assert (Hf := fun s b t => map_pieces_text f _ (values_of_flagged s b t)).
  assert (Hn := fun n => map_pieces_text f _ (values_of_table_name n)).
  assert (Ht := fun t => map_pieces_text f _ (values_of_table t)).
  assert (Hc := fun t => map_pieces_text f _ (values_of_create t)).
  induction e using expr_ind; cbn [template map_values]; rewrite ?map_app, ?Ha, ?Hq, ?Hw, ?Hf, ?Hn, ?Ht, ?Hc;
    rewrite ?map_comma_templates, ?template_whens, ?map_pieces_insert, ?map_pieces_update by done;
    repeat match goal with IH : template (map_values f _) = _ |- _ => rewrite IH; clear IH end; try reflexivity.
  - by destruct (is_postfix op); rewrite map_app.
  - replace (is_all_columns (map_values f e)) with (is_all_columns e) by (by destruct e).
    by destruct (is_all_columns e).
Qed.

Lemma render_sink_independent {K} `{ParamSink K, !ParamSinkLaws K} `{FloatText} f ps (k1 k2 : K) c :
  sink_size k1 = sink_size k2 ->
  fst (fst (render Sink (map (map_piece f) ps) k1 c)) = fst (fst (render Sink ps k2 c)).
Proof.
  revert k1 k2 c. induction ps as [|[s|x|] ps IH]; intros k1 k2 c Hk; simpl; [done| | |].
  - specialize (IH k1 k2 c Hk). destruct (render Sink _ k1 c) as [[? ?] ?], (render Sink ps k2 c) as [[? ?] ?]. simpl in *. congruence.
  - specialize (IH (fst (sink_push k1 (f x))) (fst (sink_push k2 x)) c ltac:(by rewrite !sink_push_size, Hk)).
    destruct (render Sink _ _ c) as [[? ?] ?], (render Sink ps _ c) as [[? ?] ?]. simpl in *. rewrite !sink_push_index, Hk. congruence.
  - specialize (IH k1 k2 (S c) Hk). destruct (render Sink _ k1 (S c)) as [[? ?] ?], (render Sink ps k2 (S c)) as [[? ?] ?]. simpl in *. congruence.
Qed.

Lemma sink_text_erase {K} `{ParamSink K, !ParamSinkLaws K} `{FloatText} (fresh : K) e :
  fst <$> compile_dynamic Sink fresh e = fst <$> compile_dynamic Sink fresh (erase e).
Proof.
  unfold compile_dynamic. pose proof (visit_std Sink e fresh) as H1. pose proof (visit_std Sink (erase e) fresh) as H2.
  pose proof (render_sink_independent (fun _ => FvNull) (template e) fresh fresh 0 eq_refl) as H3.
  rewrite <- template_map_values in H3. change (map_values (fun _ => FvNull) e) with (erase e) in H3.
  destruct (render Sink (template e) fresh 0) as [[? ?] ?], (render Sink (template (erase e)) fresh 0) as [[? ?] ?].
  rewrite H1, H2. simpl in *. congruence.
Qed.

(** C18. Bound parameters never reach the SQL text: two expressions that differ only in
    their values compile to the same statement, whatever the values contain. *)
Theorem sink_text_value_independent {K} `{ParamSink K, !ParamSinkLaws K} `{FloatText} (fresh : K) e1 e2 :
  erase e1 = erase e2 -> fst <$> compile_dynamic Sink fresh e1 = fst <$> compile_dynamic Sink fresh e2.
Proof. intros E. by rewrite (sink_text_erase fresh e1), (sink_text_erase fresh e2), E. Qed.

(** C35. The fixed-capacity path is the growing one with a bound: it succeeds exactly
    when the statement fits, then with the same text (terminated for C), the same
    captured parameters; otherwise it throws [std::out_of_range]. *)
Theorem static_compile_capacity `{FloatText} mode max_len e v params :
  visit mode e {| sql := [] : bytes; sink := tt; param_count := 0 |} = Ok (v, params) ->
  if length (sql v) <=? max_len then
    exists q, compile_static mode max_len e = Ok (q, params) /\ inline_view q = sql v /\
      (NUL ∉ sql v -> inline_c_str q = sql v)
  else exists w, compile_static mode max_len e = Err (OutOfRange w).
Proof.
  intros Hv. pose proof (visit_std mode e tt) as Hs. unfold compile_static.
  pose proof (visit_emits (T := InlineString max_len) mode e {| sql := inline_string max_len; sink := tt; param_count := 0 |}
    text_ok_empty) as He. cbn [sql sink param_count] in He.
  destruct (render mode (template e) tt 0) as [[s k] c]. rewrite Hs in Hv. simplify_eq. cbn [sql].
  change (within capacity (length (text_of (inline_string max_len)) + length s)) with (length s <=? max_len) in He.
  destruct (length s <=? max_len).
  - destruct He as (q & -> & Hok & Et). exists q. split_and!; [done|exact Et|]. intros Hn.
    rewrite inline_c_str_view; [exact Et|exact Hok|]. by replace (inline_view q) with s by (symmetry; exact Et).
  - destruct He as [w ->]. by exists w.
Qed.

(** *** Tuple mode *)

(** Expressions of the shapes the concepts admit whose values are all literals:
    aggregates and orderings hold plain columns, there is no INSERT, UPDATE or
    explicit placeholder. *)
Definition column_like (e : Expr) : bool := match e with ColumnRef _ _ _ | AllColumns _ => true | _ => false end.

Fixpoint literal_values_only (e : Expr) : bool :=
  match e with
  | ParamPlaceholder | InsertExpr _ _ | UpdateExpr _ _ => false
  | CountExpr c _ _ | AggregateExpr _ c _ | OrderBy c _ => column_like c
  | BinaryExpr a b _ | WhereExpr a b | GroupByQueryExpr a b | HavingExpr a b | JoinExpr a b _ _ _
  | UpdateWhereExpr a b | DeleteWhereExpr a b | SetOpExpr a b _ | FromCteExpr a _ b _ =>
      literal_values_only a && literal_values_only b
  | UnaryExpr x _ | Subquery x _ | ExistsExpr x | FromTableExpr x _ _ | LimitExpr x _ _ | CteExpr _ x _ => literal_values_only x
  | BetweenExpr x l u => literal_values_only x && literal_values_only l && literal_values_only u
  | InListExpr x vs | GroupByColumnExpr x vs | OrderByExpr x vs => literal_values_only x && forallb literal_values_only vs
  | SelectExpr cs _ => forallb literal_values_only cs
  | CaseExpr ws _ => forallb (fun w => literal_values_only (fst w) && literal_values_only (snd w)) ws
  | CaseExprWithElse ws x _ =>
      forallb (fun w => literal_values_only (fst w) && literal_values_only (snd w)) ws && literal_values_only x
  | _ => true
  end.

Definition transparent (e : Expr) : Prop :=
  literal_values_only e = true -> values_of (template e) = captured e /\ hole_free (template e) = true.

Lemma transparent_list (es : list Expr) first :
  Forall transparent es -> forallb literal_values_only es = true ->
  values_of (comma first (map template es)) = concat (map captured es) /\ hole_free (comma first (map template es)) = true.
Proof.
  intros HF. revert first. induction HF as [|e es He HF IH]; intros first Hl; [done|].
  cbn [forallb] in Hl. apply andb_true_iff in Hl as [H1 H2]. destruct (He H1) as [E1 E2], (IH false H2) as [E3 E4].
  cbn [map comma concat]. rewrite !values_of_app, !hole_free_app, E1, E2, E3, E4. by destruct first.
Qed.

Lemma transparent_whens (ws : list (Expr * Expr)) :
  Forall (fun w => transparent (fst w) /\ transparent (snd w)) ws ->
  forallb (fun w => literal_values_only (fst w) && literal_values_only (snd w)) ws = true ->
  let ps := concat (map (fun w => tx " WHEN " ++ template (fst w) ++ tx " THEN " ++ template (snd w)) ws) in
  values_of ps = concat (map (fun w => captured (fst w) ++ captured (snd w)) ws) /\ hole_free ps = true.
Proof.
  induction 1 as [|w ws [Hc Hv] HF IH]; intros Hl; [done|]. cbn [forallb] in Hl.
  apply andb_true_iff in Hl as [Hl H3]. apply andb_true_iff in Hl as [H1 H2].
  destruct (Hc H1) as [E1 E2], (Hv H2) as [E3 E4], (IH H3) as [E5 E6]. cbn [map concat].
  rewrite !values_of_app, !hole_free_app, E1, E2, E3, E4. simpl in E5, E6 |- *. rewrite E5, E6. by rewrite <- app_assoc.
Qed.

Lemma hole_free_alias a : hole_free (alias_pieces a) = true.
Proof. by destruct a. Qed.
Lemma hole_free_qualifier t : hole_free (qualifier t) = true.
Proof. by destruct t. Qed.
Lemma hole_free_when b s : hole_free (when b s) = true.
Proof. by destruct b. Qed.
Lemma hole_free_table_name n : hole_free (table_name_pieces n) = true.
Proof. by destruct n. Qed.
Lemma hole_free_table t : hole_free (table_pieces t) = true.
Proof. destruct t as [[t|]|[|]|[|] fs]; done. Qed.

Lemma hole_free_flagged s b t : hole_free (flagged s b t) = true.
Proof. by destruct b. Qed.

Lemma hole_free_comma first items : forallb hole_free items = true -> hole_free (comma first items) = true.
Proof.
  revert first. induction items as [|i items IH]; intros first Hi; [done|]. cbn [forallb] in Hi.
  apply andb_true_iff in Hi as [H1 H2]. cbn [comma]. rewrite !hole_free_app, H1, IH by done. by destruct first.
Qed.

Lemma hole_free_create t : hole_free (create_columns_pieces t) = true.
Proof.
  destruct t as [[t|]|n|n fs]; cbn [create_columns_pieces]; try done;
    rewrite !hole_free_app, hole_free_comma; try done; apply forallb_forall; intros p Hp; apply in_map_iff in Hp as (x & <- & _).
  - unfold dynamic_field_pieces. rewrite !hole_free_app, !hole_free_when.
    destruct (default_value x), (foreign_table x), (is_foreign_key x); done.
  - unfold static_field_pieces. by rewrite !hole_free_app, !hole_free_when.
Qed.

#[local] Hint Rewrite values_of_app hole_free_app values_of_alias values_of_qualifier values_of_when values_of_flagged values_of_table_name
  values_of_table values_of_create hole_free_alias hole_free_qualifier hole_free_when hole_free_flagged hole_free_table_name hole_free_table
  hole_free_create : pieces.

Lemma column_transparent e : column_like e = true -> values_of (template e) = [] /\ hole_free (template e) = true.
Proof. destruct e; try discriminate; intros _; cbn [template]; autorewrite with pieces; done. Qed.

Lemma template_transparent e : transparent e.
Proof.
  induction e using expr_ind; intros Hl; cbn [literal_values_only] in Hl; cbn [template captured];
    repeat match goal with H : _ && _ = true |- _ => apply andb_true_iff in H as [? ?] end;
    repeat match goal with H : transparent ?e, L : literal_values_only ?e = true |- _ => specialize (H L) as [? ?] end;
    try match goal with L : column_like ?e = true |- _ => destruct (column_transparent e L) as [? ?] end;
    try match goal with
    | HF : Forall _ ?es, L : forallb literal_values_only ?es = true |- _ => destruct (transparent_list es true HF L) as [? ?]
    | HF : Forall _ ?ws, L : forallb _ ?ws = true |- _ => destruct (transparent_whens ws HF L) as [? ?]
    end;
    try destruct (is_postfix _); try destruct (is_all_columns _); autorewrite with pieces;
    repeat match goal with E : values_of ?x = _ |- context [values_of ?x] => rewrite E end;
    repeat match goal with E : hole_free ?x = _ |- context [hole_free ?x] => rewrite E end;
    try (split; simpl; by rewrite ?app_nil_r).
Qed.

(** In [Tuple] mode the captured values are the template's, in order, next to a
    text whose slots are numbered [$1], [$2], ...: handing the tuple to the driver
    positionally binds every value to its own slot. *)
Theorem tuple_captures_literals `{FloatText} max_len e :
  let stmt := fill (fun i _ => dollar i) 1 1 (template e) in
  literal_values_only e = true -> length stmt <= max_len ->
  exists q, compile_static Tuple max_len e = Ok (q, values_of (template e)) /\ inline_view q = stmt.
Proof.
  intros stmt Hl Hs. destruct (template_transparent e Hl) as [Ev Hh]. unfold compile_static.
  pose proof (visit_emits (T := InlineString max_len) Tuple e {| sql := inline_string max_len; sink := tt; param_count := 0 |}
    text_ok_empty) as He. cbn [sql sink param_count] in He. rewrite (render_tuple _ _ _ 1) in He by done. fold stmt in He.
  change (within capacity (length (text_of (inline_string max_len)) + length stmt)) with (length stmt <=? max_len) in He.
  rewrite (leb_correct _ _ Hs) in He. destruct He as (q & -> & _ & Et). exists q. rewrite Ev. split; [done|exact Et].
Qed.

Lemma seq_gen_assoc {T K} mode (a b c : Gen T K) v :
  seq_gen mode a (seq_gen mode b c) v = seq_gen mode (seq_gen mode a b) c v.
Proof.
  unfold seq_gen. destruct (a v) as [[v1 p1]|]; [|done]. cbn. destruct (b v1) as [[v2 p2]|]; [|done]. cbn.
  destruct (c v2) as [[v3 p3]|]; [|done]. cbn. destruct mode; cbn; by rewrite ?app_assoc.
Qed.

Lemma seq_gen_ext {T K} mode (a b c : Gen T K) v : (forall w, b w = c w) -> seq_gen mode a b v = seq_gen mode a c v.
Proof. intros E. unfold seq_gen. destruct (a v) as [[v1 p1]|]; [|done]. cbn. by rewrite E. Qed.

(** Set operations are written without parentheses, so the two groupings of a chain
    of them compile to one statement, and the server's own precedence decides. *)
Theorem set_op_grouping_lost {T K} `{Appendable T} `{ParamSink K} `{FloatText} mode a b c op1 op2 (v : Visitor T K) :
  visit mode (SetOpExpr a (SetOpExpr b c op2) op1) v = visit mode (SetOpExpr (SetOpExpr a b op1) c op2) v.
Proof.
  cbn [visit]. unfold visit_set_op. rewrite <- seq_gen_assoc. apply seq_gen_ext. intros w. by rewrite <- seq_gen_assoc.
Qed.

Lemma no_params_none {T K} (g : Gen T K) v r : no_params g v = Ok r -> snd r = [].
Proof. unfold no_params. destruct (g v) as [[v1 p1]|]; [|done]. cbn. by intros [= <-]. Qed.

(** In [Tuple] mode an INSERT or UPDATE numbers a slot per value and captures none
    of the values, so the tuple cannot be bound to the statement. *)
Theorem tuple_dml_uncaptured `{FloatText} max_len t rows l q params :
  compile_static Tuple max_len (InsertExpr t rows) = Ok (q, params) \/
  compile_static Tuple max_len (UpdateExpr t l) = Ok (q, params) ->
  params = [].
Proof.
  unfold compile_static. intros [E|E]; cbn [visit] in E; unfold visit_insert, visit_update in E;
    (destruct (no_params _ _) as [[v p]|] eqn:En; [|done]); cbn in E; simplify_eq; by apply no_params_none in En.
Qed.

(** ** Concrete statements *)

(** The reference sink: a list. *)
#[export] Instance list_sink : ParamSink (list FieldValue) :=
  {| sink_push k x := (k ++ [x], S (length k)); sink_size := length |}.

#[export] Instance list_sink_laws : ParamSinkLaws (list FieldValue).
Proof. constructor; intros k x; simpl; rewrite ?length_app; simpl; lia. Qed.

Definition users : TableRef := NamedTable (B "users").

(** [select(name).from(users).where(age > n && name == s)] *)
Definition sample_query (n : Z) (s : bytes) : Expr :=
  WhereExpr (FromTableExpr (SelectExpr [ColumnRef (B "name") [] []] false) users [])
    (BinaryExpr (BinaryExpr (ColumnRef (B "age") [] []) (Literal (FvInt32 n) []) OpGreater)
       (BinaryExpr (ColumnRef (B "name") [] []) (Literal (FvString s) []) OpEqual) OpAnd).

Definition sample_sql : bytes :=
  B "SELECT " ++ quoted_name (B "name") ++ B " FROM " ++ quoted_name (B "users") ++ B " WHERE ((" ++
  quoted_name (B "age") ++ B " > $1) AND (" ++ quoted_name (B "name") ++ B " = $2))".

Lemma sink_parameters_aligned_witness :
  compile_dynamic (H := no_floats) Sink ([] : list FieldValue) (sample_query 18 (B "Ann")) =
    Ok (sample_sql, [FvInt32 18; FvString (B "Ann")]) /\
  compile_dynamic (H := no_floats) Sink [FvBool true] (BinaryExpr ParamPlaceholder (Literal (FvInt32 7) []) OpEqual) =
    Ok (B "($1 = $2)", [FvBool true; FvInt32 7]).
Proof.
  split.
  - destruct (sink_parameters_aligned (H := list_sink) (H0 := no_floats) ([] : list FieldValue) (sample_query 18 (B "Ann")))
      as (_ & E & _). rewrite E. vm_compute. reflexivity.
  - destruct (sink_parameters_aligned (H := list_sink) (H0 := no_floats) [FvBool true]
      (BinaryExpr ParamPlaceholder (Literal (FvInt32 7) []) OpEqual)) as (_ & E & _). rewrite E. vm_compute. reflexivity.
Defined.

Lemma sink_text_value_independent_witness :
  fst <$> compile_dynamic (H := no_floats) Sink ([] : list FieldValue) (sample_query 18 (B "Ann")) =
  fst <$> compile_dynamic (H := no_floats) Sink ([] : list FieldValue) (sample_query 0 (B "' OR '1'='1")).
Proof.
  apply (sink_text_value_independent (H := list_sink) (H0 := no_floats) ([] : list FieldValue)
           (sample_query 18 (B "Ann")) (sample_query 0 (B "' OR '1'='1"))). reflexivity.
Defined.

Lemma tuple_captures_literals_witness :
  exists q, compile_static (H := no_floats) Tuple 80 (sample_query 18 (B "Ann")) = Ok (q, [FvInt32 18; FvString (B "Ann")]) /\
    inline_view q = sample_sql.
Proof.
  destruct (tuple_captures_literals (H := no_floats) 80 (sample_query 18 (B "Ann")) eq_refl) as (q & E & Ev); [vm_compute; lia|].
  exists q. rewrite E, Ev. split; vm_compute; reflexivity.
Defined.

(** Sixteen bytes are too few for the same statement. *)
Lemma static_compile_capacity_witness :
  exists w, compile_static (H := no_floats) Tuple 16 (sample_query 18 (B "Ann")) = Err (OutOfRange w).
Proof.
  exact (static_compile_capacity (H := no_floats) Tuple 16 (sample_query 18 (B "Ann"))
           {| sql := sample_sql; sink := tt; param_count := 2 |} [FvInt32 18; FvString (B "Ann")] eq_refl).
Defined.

Definition sample_insert : InsertBody :=
  {| insert_columns := [B "age"]; insert_rows := [[FvInt32 1]; [FvInt32 2]] |}.

Lemma tuple_dml_uncaptured_witness :
  (exists q, compile_static (H := no_floats) Tuple 64 (InsertExpr users sample_insert) = Ok (q, []) /\
     inline_view q = B "INSERT INTO " ++ quoted_name (B "users") ++ B " (" ++ quoted_name (B "age") ++ B ") VALUES ($1), ($2)") /\
  forall q params, compile_static (H := no_floats) Tuple 64 (InsertExpr users sample_insert) = Ok (q, params) -> params = [].
Proof.
  split.
  - eexists. split; vm_compute; reflexivity.
  - intros q params E. exact (tuple_dml_uncaptured (H := no_floats) 64 users sample_insert [] q params (or_introl E)).
Defined.

(** Mixing an explicit placeholder with bound literals numbers both from 1. *)
Example placeholder_collides :
  compile_dynamic (H := no_floats) Sink ([] : list FieldValue)
    (BinaryExpr (BinaryExpr (ColumnRef (B "a") [] []) (Literal (FvInt32 7) []) OpEqual)
       (BinaryExpr (ColumnRef (B "b") [] []) ParamPlaceholder OpEqual) OpAnd) =
  Ok (B "((" ++ quoted_name (B "a") ++ B " = $1) AND (" ++ quoted_name (B "b") ++ B " = $1))", [FvInt32 7]).
Proof. reflexivity. Qed.

(** A CROSS JOIN is emitted with an ON clause. *)
Example cross_join_on :
  fst <$> compile_dynamic (H := no_floats) Inline ([] : list FieldValue)
    (JoinExpr (FromTableExpr (SelectExpr [AllColumns []] false) users []) (Literal (FvBool true) []) (NamedTable (B "t")) CROSS []) =
  Ok (B "SELECT * FROM " ++ quoted_name (B "users") ++ B " CROSS JOIN " ++ quoted_name (B "t") ++ B " ON TRUE").
Proof. reflexivity. Qed.
