(* ===== verification/StaticSchema.v ===== *)
(** * Compile-time schemas

    The constraint tags of a field and their extraction from a pack (db_constraints.hpp),
    [StaticFieldSchema], [StaticTable] with its column lookup, and the column types (primitives/).
    A parameter pack is a list; what is only well-formed under a constraint is an option. *)

From S2P Require Import Prelude SqlText SqlSchema SqlQuery.

(** ** Constraints *)
Inductive constraint :=
| PrimaryKey | NotNull | Unique | Indexed
| ForeignKey (table column : bytes) | Default (value : bytes) | MaxLength (n : N) | DbType (sql_type : bytes).
#[global] Instance constraint_eq_dec : EqDecision constraint.
Proof. solve_decision. Defined.

(** [std::is_same_v<Constraints, C> || ...] *)
Definition has_tag (c : constraint) (cs : list constraint) : bool := existsb (fun x => bool_decide (x = c)) cs.

Definition is_foreign_key_constraint (c : constraint) : bool := match c with ForeignKey _ _ => true | _ => false end.
Definition is_default (c : constraint) : bool := match c with Default _ => true | _ => false end.
Definition is_max_length (c : constraint) : bool := match c with MaxLength _ => true | _ => false end.
Definition is_db_type (c : constraint) : bool := match c with DbType _ => true | _ => false end.

(** The recursive templates; [None] is [found = false]. *)
Fixpoint extract_foreign_key (cs : list constraint) : option (bytes * bytes) :=
  match cs with [] => None | ForeignKey t c :: _ => Some (t, c) | _ :: rest => extract_foreign_key rest end.
Fixpoint extract_default (cs : list constraint) : option bytes :=
  match cs with [] => None | Default v :: _ => Some v | _ :: rest => extract_default rest end.
Fixpoint extract_max_length (cs : list constraint) : option N :=
  match cs with [] => None | MaxLength n :: _ => Some n | _ :: rest => extract_max_length rest end.
Fixpoint extract_db_type (cs : list constraint) : option bytes :=
  match cs with [] => None | DbType s :: _ => Some s | _ :: rest => extract_db_type rest end.

(** ** [StaticFieldSchema] *)
Record StaticFieldSchema := { value_type : CppType; schema_name : bytes; constraints : list constraint }.

Definition schema_primary_key (f : StaticFieldSchema) : bool := has_tag PrimaryKey (constraints f).
Definition schema_nullable (f : StaticFieldSchema) : bool := negb (has_tag NotNull (constraints f)).
Definition schema_unique (f : StaticFieldSchema) : bool := has_tag Unique (constraints f).
Definition schema_indexed (f : StaticFieldSchema) : bool := has_tag Indexed (constraints f).
Definition schema_foreign_key (f : StaticFieldSchema) : bool := existsb is_foreign_key_constraint (constraints f).
Definition has_default (f : StaticFieldSchema) : bool := bool_decide (is_Some (extract_default (constraints f))).
Definition has_max_length (f : StaticFieldSchema) : bool := bool_decide (is_Some (extract_max_length (constraints f))).
Definition has_db_type (f : StaticFieldSchema) : bool := bool_decide (is_Some (extract_db_type (constraints f))).
Definition schema_foreign_table (f : StaticFieldSchema) : option bytes := fst <$> extract_foreign_key (constraints f).
Definition schema_foreign_column (f : StaticFieldSchema) : option bytes := snd <$> extract_foreign_key (constraints f).
Definition schema_default_value (f : StaticFieldSchema) : option bytes := extract_default (constraints f).
Definition schema_max_length (f : StaticFieldSchema) : option N := extract_max_length (constraints f).
Definition schema_db_type (f : StaticFieldSchema) : option bytes := extract_db_type (constraints f).

(** What the generator reads of it. *)
Definition generated (f : StaticFieldSchema) : StaticField :=
  {| static_name := schema_name f; static_type := value_type f; static_primary_key := schema_primary_key f;
     static_nullable := schema_nullable f; static_unique := schema_unique f |}.

(** ** Columns *)
Record Column := { column_name : bytes; column_table : bytes; column_alias : bytes }.
Record TypedColumn := { typed_type : CppType; typed_name : bytes; typed_table : bytes; typed_alias : bytes }.
Record AllColumns := { all_table : bytes }.

Definition make_column (name table : bytes) : Column := {| column_name := name; column_table := table; column_alias := [] |}.
Definition set_table (c : Column) (table : bytes) : Column :=
  {| column_name := column_name c; column_table := table; column_alias := column_alias c |}.
Definition set_name (c : Column) (name : bytes) : Column :=
  {| column_name := name; column_table := column_table c; column_alias := column_alias c |}.
Definition column_as (c : Column) (alias : bytes) : Column :=
  let result := make_column (column_name c) (column_table c) in
  {| column_name := column_name result; column_table := column_table result; column_alias := alias |}.

Definition make_typed_column (t : CppType) (name table : bytes) : TypedColumn :=
  {| typed_type := t; typed_name := name; typed_table := table; typed_alias := [] |}.
Definition typed_as (c : TypedColumn) (alias : bytes) : TypedColumn :=
  {| typed_type := typed_type c; typed_name := typed_name c; typed_table := typed_table c; typed_alias := alias |}.
Definition typed_as_column (c : TypedColumn) : Column := make_column (typed_name c) (typed_table c).
Definition all_as_column (a : AllColumns) : Column := make_column (B "*") (all_table a).

(** ** [StaticTable] *)
Record StaticTable := { static_table_name : bytes; schemas : list StaticFieldSchema }.

Definition field_count (t : StaticTable) : nat := length (schemas t).

(** The loop of [find_index]; the number of fields when there is none. *)
Fixpoint find_index_from (i : nat) (names : list bytes) (name : bytes) : nat :=
  match names with
  | [] => i
  | n :: names => if bool_decide (n = name) then i else find_index_from (S i) names name
  end.
Definition find_field_index (t : StaticTable) (name : bytes) : nat := find_index_from 0 (schema_name <$> schemas t) name.

(** [column<Name>()] and [column<I>()]; [None]: rejected by the compiler. *)
Definition column_named (t : StaticTable) (name : bytes) : option TypedColumn :=
  let i := find_field_index t name in
  if i <? field_count t then (fun f => make_typed_column (value_type f) name (static_table_name t)) <$> schemas t !! i else None.
Definition column_at (t : StaticTable) (i : nat) : option TypedColumn :=
  (fun f => make_typed_column (value_type f) (schema_name f) (static_table_name t)) <$> schemas t !! i.

Definition for_each_field {A} (t : StaticTable) (v : StaticFieldSchema -> A) : list A := v <$> schemas t.

(** The table as the generator takes it. *)
Definition table_ref (t : StaticTable) : TableRef := StatTable (static_table_name t) (for_each_field t generated).

(** ** Theorems *)

(** A reference definition of the four extractions: the first match of the pack. *)
Definition first_of {A} (f : constraint -> option A) (cs : list constraint) : option A := head (omap f cs).

Theorem extractions_first cs :
  extract_foreign_key cs = first_of (fun c => match c with ForeignKey t c => Some (t, c) | _ => None end) cs /\
  extract_default cs = first_of (fun c => match c with Default v => Some v | _ => None end) cs /\
  extract_max_length cs = first_of (fun c => match c with MaxLength n => Some n | _ => None end) cs /\
  extract_db_type cs = first_of (fun c => match c with DbType s => Some s | _ => None end) cs.
Proof. induction cs as [|c cs (IH1 & IH2 & IH3 & IH4)]; [done|]. destruct c; cbn; split_and!; done. Qed.

(** The flag that guards an accessor is set exactly when the accessor is well-formed: the fold of
    the trait and the recursive template agree. *)
Theorem foreign_key_accessors f :
  (schema_foreign_key f = true <-> is_Some (schema_foreign_table f)) /\
  (schema_foreign_key f = true <-> is_Some (schema_foreign_column f)).
Proof.
  unfold schema_foreign_key, schema_foreign_table, schema_foreign_column. rewrite !fmap_is_Some.
  assert (existsb is_foreign_key_constraint (constraints f) = true <-> is_Some (extract_foreign_key (constraints f))) as H; [|done].
  induction (constraints f) as [|c cs IH]; cbn; [split; [done|by intros []]|]. destruct c; cbn; auto. split; eauto.
Qed.

Lemma find_index_from_spec i names name :
  match list_find (fun n => n = name) names with
  | Some (k, _) => find_index_from i names name = i + k
  | None => find_index_from i names name = i + length names
  end.
Proof.
  revert i. induction names as [|n names IH]; intros i; cbn; [lia|]. case_decide; [rewrite bool_decide_eq_true_2 by done; lia|].
  rewrite bool_decide_eq_false_2 by done. specialize (IH (S i)). destruct (list_find _ names) as [[k x]|]; cbn; lia.
Qed.

(** A column is found by name exactly when the table has such a field; it has the type of the
    first one, that name and the table's. *)
Theorem column_named_correct t name :
  match column_named t name with
  | Some c => exists i f, schemas t !! i = Some f /\ schema_name f = name /\
      (forall j g, schemas t !! j = Some g -> schema_name g = name -> i <= j) /\
      c = make_typed_column (value_type f) name (static_table_name t) /\ column_at t i = Some c
  | None => forall f, f ∈ schemas t -> schema_name f <> name
  end.
Proof.
  unfold column_named, find_field_index, field_count. pose proof (find_index_from_spec 0 (schema_name <$> schemas t) name) as H.
  destruct (list_find _ (schema_name <$> schemas t)) as [[k x]|] eqn:E; rewrite H, Nat.add_0_l; cbn zeta.
  - apply list_find_Some in E as (Hk & -> & HM). rewrite list_lookup_fmap in Hk. apply fmap_Some in Hk as (f & Hf & Ef).
    rewrite (proj2 (Nat.ltb_lt _ _)) by (by eapply lookup_lt_Some). rewrite Hf. cbn. exists k, f. split_and!; try done.
    + intros j g Hj Hg. destruct (Nat.le_gt_cases k j); [done|]. exfalso.
      apply (HM j (schema_name g)); [by rewrite list_lookup_fmap, Hj|lia|done].
    + unfold column_at. rewrite Hf. cbn. by rewrite Ef.
  - rewrite length_fmap, (proj2 (Nat.ltb_ge _ _)) by done. intros f Hf Ef. apply list_find_None in E. rewrite Forall_fmap, Forall_forall in E.
    by apply (E f).
Qed.

(** Erasing the type of a column keeps what it refers to. *)
Theorem typed_as_column_name c : column_name (typed_as_column c) = typed_name c /\ column_table (typed_as_column c) = typed_table c.
Proof. done. Qed.

(** ... but not its alias. *)
Example typed_as_column_alias : forall t, column_alias (typed_as_column (typed_as (make_typed_column t (B "id") (B "users")) (B "uid"))) = [].
Proof. done. Qed.

Definition parameterized (c : constraint) : bool := is_foreign_key_constraint c || is_default c || is_max_length c || is_db_type c.

Lemma has_tag_simple c cs : parameterized c = false -> has_tag c (filter (fun x => parameterized x = false) cs) = has_tag c cs.
Proof.
  intros Hc. induction cs as [|x cs IH]; [done|]. rewrite filter_cons.
  change (has_tag c (x :: cs)) with (bool_decide (x = c) || has_tag c cs). case_decide as Hx.
  - unfold has_tag in *. cbn [existsb]. by rewrite IH.
  - by rewrite IH, bool_decide_eq_false_2 by congruence.
Qed.

(** The generated CREATE TABLE of a compile-time table does not depend on its foreign keys,
    defaults, lengths and literal SQL types: only the four tags are read. *)
Theorem parameterized_ignored t :
  table_ref {| static_table_name := static_table_name t;
               schemas := (fun f => {| value_type := value_type f; schema_name := schema_name f;
                                       constraints := filter (fun x => parameterized x = false) (constraints f) |}) <$> schemas t |} =
  table_ref t.
Proof.
  unfold table_ref, for_each_field. cbn [static_table_name schemas]. f_equal. rewrite <- list_fmap_compose. apply list_fmap_ext.
  intros i f _. unfold generated, compose, schema_primary_key, schema_nullable, schema_unique. cbn [value_type schema_name constraints].
  by rewrite !has_tag_simple.
Qed.
