(* ===== verification/Builder.v ===== *)
(** * The fluent query builders

    The operators and methods that construct the expression tree ([query/expressions]): literals and
    conditions, [select] and the clauses chained to it, set operations, CASE, CTEs, the data
    and schema statements. The C++ constraints (concepts and feature tags) that decide whether a
    call compiles are boolean predicates, and a builder returns [None] where its
    constraint fails. The trees they build are those of [SqlQuery]. *)

From S2P Require Import Prelude SqlText SqlSchema SqlQuery.

(** ** Concepts *)

(** [IsColumnLike], [IsCondition], [IsAggregate], [IsCaseExpr], [IsLiteral], [IsOrderBy], [IsCteExpr] *)
Definition is_column_like (e : Expr) : bool := match e with ColumnRef _ _ _ | AllColumns _ => true | _ => false end.
Definition is_condition (e : Expr) : bool :=
  match e with BinaryExpr _ _ _ | UnaryExpr _ _ | ExistsExpr _ | InListExpr _ _ | BetweenExpr _ _ _ => true | _ => false end.
Definition is_aggregate (e : Expr) : bool := match e with CountExpr _ _ _ | AggregateExpr _ _ _ => true | _ => false end.
Definition is_case_expr (e : Expr) : bool := match e with CaseExpr _ _ | CaseExprWithElse _ _ _ => true | _ => false end.
Definition is_literal (e : Expr) : bool := match e with Literal _ _ => true | _ => false end.
Definition is_param_placeholder (e : Expr) : bool := match e with ParamPlaceholder => true | _ => false end.
Definition is_order_by (e : Expr) : bool := match e with OrderBy _ _ => true | _ => false end.
Definition is_cte_expr (e : Expr) : bool := match e with CteExpr _ _ _ => true | _ => false end.

(** [IsSelectable], [IsDbOperand] *)
Definition is_selectable (e : Expr) : bool := is_column_like e || is_aggregate e || is_case_expr e || is_literal e.
Definition is_db_operand (e : Expr) : bool :=
  is_column_like e || is_literal e || is_param_placeholder e || is_condition e || is_aggregate e.

(** [IsQuery]: everything that derives from [Expression]. *)
Definition is_query (e : Expr) : bool :=
  match e with ColumnRef _ _ _ | Literal _ _ | NullLiteral | ParamPlaceholder | AllColumns _ | OrderBy _ _ => false | _ => true end.

(** ** Feature tags *)
Inductive Feature := AllowWhere | AllowGroupBy | AllowHaving | AllowJoin | AllowOrderBy | AllowLimit.

#[export] Instance feature_eq_dec : EqDecision Feature.
Proof. solve_decision. Defined.

(** The [AllowedFeatures] packs of the classes' [QueryOperations] bases. *)
Definition from_table_features := [AllowGroupBy; AllowOrderBy; AllowLimit; AllowJoin; AllowWhere].
Definition from_cte_features := [AllowGroupBy; AllowOrderBy; AllowLimit; AllowJoin; AllowWhere].
Definition join_features := [AllowJoin; AllowOrderBy; AllowLimit; AllowWhere; AllowGroupBy].
Definition where_features := [AllowGroupBy; AllowOrderBy; AllowLimit].
Definition group_by_features := [AllowHaving; AllowOrderBy; AllowLimit].
Definition having_features := [AllowOrderBy; AllowLimit].
Definition order_by_features := [AllowLimit].
Definition set_op_features := [AllowOrderBy; AllowLimit].

Definition allowed_features (e : Expr) : list Feature :=
  match e with
  | FromTableExpr _ _ _ => from_table_features
  | FromCteExpr _ _ _ _ => from_cte_features
  | JoinExpr _ _ _ _ _ => join_features
  | WhereExpr _ _ => where_features
  | GroupByColumnExpr _ _ | GroupByQueryExpr _ _ => group_by_features
  | HavingExpr _ _ => having_features
  | OrderByExpr _ _ => order_by_features
  | SetOpExpr _ _ _ => set_op_features
  | _ => []
  end.

Definition has_feature (f : Feature) (e : Expr) : bool := bool_decide (f ∈ allowed_features e).

Definition guarded (b : bool) (e : Expr) : option Expr := if b then Some e else None.

(** ** Leaves *)

(** An argument: already a node, or a raw value. *)
Inductive operand := Node (e : Expr) | Value (v : FieldValue).

Definition lit (v : FieldValue) : Expr := Literal v [].
Definition make_literal_if_needed (o : operand) : Expr := match o with Node e => e | Value v => lit v end.
Definition operand_is_db (o : operand) : bool := match o with Node e => is_db_operand e | Value _ => false end.

Definition col (name table : bytes) : Expr := ColumnRef name table [].
Definition all (table : bytes) : Expr := AllColumns table.

(** [as]: a column is copied, the others are changed in place. *)
Definition as_ (e : Expr) (alias : bytes) : option Expr :=
  match e with
  | ColumnRef n t _ => Some (ColumnRef n t alias)
  | Literal v _ => Some (Literal v alias)
  | CountExpr c d _ => Some (CountExpr c d alias)
  | AggregateExpr f c _ => Some (AggregateExpr f c alias)
  | Subquery q _ => Some (Subquery q alias)
  | CaseExpr ws _ => Some (CaseExpr ws alias)
  | CaseExprWithElse ws x _ => Some (CaseExprWithElse ws x alias)
  | FromTableExpr s t _ => Some (FromTableExpr s t alias)
  | JoinExpr q c t ty _ => Some (JoinExpr q c t ty alias)
  | _ => None
  end.

(** ** Conditions *)

(** The comparison and logical operators: one of the operands must be a database operand. *)
Definition compare (op : BinaryOp) (l r : operand) : option Expr :=
  guarded (operand_is_db l || operand_is_db r) (BinaryExpr (make_literal_if_needed l) (make_literal_if_needed r) op).

Definition op_equal := compare OpEqual.
Definition op_not_equal := compare OpNotEqual.
Definition op_less := compare OpLess.
Definition op_less_equal := compare OpLessEqual.
Definition op_greater := compare OpGreater.
Definition op_greater_equal := compare OpGreaterEqual.
Definition op_and := compare OpAnd.
Definition op_or := compare OpOr.

Definition like (l r : operand) : Expr := BinaryExpr (make_literal_if_needed l) (make_literal_if_needed r) OpLike.
Definition not_like (l r : operand) : Expr := BinaryExpr (make_literal_if_needed l) (make_literal_if_needed r) OpNotLike.

Definition op_not (e : Expr) : option Expr := guarded (is_db_operand e) (UnaryExpr e OpNot).
Definition is_null (e : Expr) : option Expr := guarded (is_db_operand e) (UnaryExpr e OpIsNull).
Definition is_not_null (e : Expr) : option Expr := guarded (is_db_operand e) (UnaryExpr e OpIsNotNull).

(** The two overloads of [in]: a list of values, and a constant column and subquery. *)
Definition in_list (e : Expr) (vs : list operand) : Expr := InListExpr e (map make_literal_if_needed vs).
Definition in_subquery (c sq : Expr) : option Expr :=
  match sq with Subquery _ _ => guarded (is_column_like c) (BinaryExpr c sq OpIn) | _ => None end.

Definition between (e : Expr) (lower upper : operand) : option Expr :=
  guarded (is_db_operand e) (BetweenExpr e (make_literal_if_needed lower) (make_literal_if_needed upper)).

Definition subquery (q : Expr) : option Expr := guarded (is_query q) (Subquery q []).
Definition exists_ (q : Expr) : option Expr := guarded (is_query q) (ExistsExpr q).

(** ** Aggregates and sort keys *)
Definition count (c : Expr) : option Expr := guarded (is_column_like c) (CountExpr c false []).
Definition count_distinct (c : Expr) : option Expr := guarded (is_column_like c) (CountExpr c true []).
Definition count_all : Expr := CountExpr (AllColumns []) false [].
Definition count_all_distinct : Expr := CountExpr (AllColumns []) true [].
Definition aggregate (f : AggregateFn) (c : Expr) : option Expr := guarded (is_column_like c) (AggregateExpr f c []).
Definition sum := aggregate SUM.
Definition avg := aggregate AVG.
Definition max := aggregate MAX.
Definition min := aggregate MIN.
Definition asc (c : Expr) : option Expr := guarded (is_column_like c) (OrderBy c ASC).
Definition desc (c : Expr) : option Expr := guarded (is_column_like c) (OrderBy c DESC).

(** ** CASE *)

(** Every step constructs a new node from the clauses. *)
Definition case_when (cond : Expr) (v : operand) : option Expr :=
  guarded (is_condition cond) (CaseExpr [(cond, make_literal_if_needed v)] []).

Definition add_when_clause (e : Expr) (w : Expr * Expr) : option Expr :=
  match e with
  | CaseExpr ws _ => Some (CaseExpr (ws ++ [w]) [])
  | CaseExprWithElse ws x _ => Some (CaseExprWithElse (ws ++ [w]) x [])
  | _ => None
  end.

Definition when_ (e cond : Expr) (v : operand) : option Expr :=
  if is_condition cond then add_when_clause e (cond, make_literal_if_needed v) else None.

Definition else_ (e : Expr) (v : operand) : option Expr :=
  match e with CaseExpr ws _ => Some (CaseExprWithElse ws (make_literal_if_needed v) []) | _ => None end.

(** ** SELECT and what follows it *)
Definition select (cols : list operand) : option Expr :=
  let es := map make_literal_if_needed cols in guarded (forallb is_selectable es) (SelectExpr es false).

Definition set_distinct (e : Expr) (d : bool) : option Expr :=
  match e with SelectExpr cs _ => Some (SelectExpr cs d) | _ => None end.

Definition select_distinct (cols : list operand) : option Expr := e ← select cols; set_distinct e true.

Definition from_table (e : Expr) (t : TableRef) : option Expr :=
  match e with SelectExpr _ _ => Some (FromTableExpr e t []) | _ => None end.

(** The table of a record's own schema. *)
Definition from_record (e : Expr) (r : Rec) : option Expr := from_table e (DynTable (Some (rec_schema r))).

Definition from_cte (e cte : Expr) : option Expr :=
  match e, cte with SelectExpr _ _, CteExpr n q r => Some (FromCteExpr e n q r) | _, _ => None end.

Definition select_from_schema (t : DynamicTable) : option Expr :=
  from_table (SelectExpr [all (table_name t)] false) (DynTable (Some t)).

Definition where_ (q c : Expr) : option Expr := guarded (has_feature AllowWhere q && is_condition c) (WhereExpr q c).
Definition group_by (q : Expr) (cols : list Expr) : option Expr :=
  guarded (has_feature AllowGroupBy q && forallb is_column_like cols) (GroupByColumnExpr q cols).
Definition group_by_query (q criteria : Expr) : option Expr :=
  guarded (has_feature AllowGroupBy q && is_query criteria) (GroupByQueryExpr q criteria).
Definition having (q c : Expr) : option Expr := guarded (has_feature AllowHaving q && is_condition c) (HavingExpr q c).
Definition order_by (q : Expr) (os : list Expr) : option Expr :=
  guarded (has_feature AllowOrderBy q && forallb is_order_by os) (OrderByExpr q os).
Definition limit (q : Expr) (n : nat) : option Expr := guarded (has_feature AllowLimit q) (LimitExpr q n 0).
Definition offset (e : Expr) (n : nat) : option Expr := match e with LimitExpr q c _ => Some (LimitExpr q c n) | _ => None end.

Record JoinBuilder := { jb_parent : Expr; jb_table : TableRef; jb_type : JoinType; jb_alias : bytes }.

Definition join (q : Expr) (t : TableRef) (ty : JoinType) : option JoinBuilder :=
  if has_feature AllowJoin q then Some {| jb_parent := q; jb_table := t; jb_type := ty; jb_alias := [] |} else None.
Definition join_as (b : JoinBuilder) (alias : bytes) : JoinBuilder :=
  {| jb_parent := jb_parent b; jb_table := jb_table b; jb_type := jb_type b; jb_alias := alias |}.
Definition on (b : JoinBuilder) (c : Expr) : option Expr :=
  guarded (is_condition c) (JoinExpr (jb_parent b) c (jb_table b) (jb_type b) (jb_alias b)).

(** ** Set operations and CTEs *)
Definition set_op (op : SetOperation) (l r : Expr) : option Expr := guarded (is_query l && is_query r) (SetOpExpr l r op).
Definition union_query := set_op UNION.
Definition union_all := set_op UNION_ALL.
Definition intersect := set_op INTERSECT.
Definition except := set_op EXCEPT.

Definition with_ (name : bytes) (q : Expr) : option Expr := guarded (is_query q) (CteExpr name q false).
Definition with_recursive (name : bytes) (q : Expr) : option Expr := guarded (is_query q) (CteExpr name q true).

(** ** UPDATE, DELETE and the schema statements *)
Definition update (t : TableRef) : Expr := UpdateExpr t [].
Definition set_ (e : Expr) (column : bytes) (v : FieldValue) : option Expr :=
  match e with UpdateExpr t l => Some (UpdateExpr t (update_set l column v)) | _ => None end.
Definition update_where (e c : Expr) : option Expr :=
  match e with UpdateExpr _ _ => guarded (is_condition c) (UpdateWhereExpr e c) | _ => None end.

Definition delete_from (t : TableRef) : Expr := DeleteExpr t.
Definition delete_where (e c : Expr) : option Expr :=
  match e with DeleteExpr _ => guarded (is_condition c) (DeleteWhereExpr e c) | _ => None end.

(** A table given by name alone has no columns to create. *)
Definition create_table (t : TableRef) (if_not_exists : bool) : option Expr :=
  match t with NamedTable _ => None | _ => Some (CreateTableExpr t if_not_exists) end.
Definition drop_table (t : TableRef) (if_exists cascade : bool) : Expr := DropTableExpr t if_exists cascade.

(** ** Chains of clauses *)
Inductive call :=
| CJoin (t : TableRef) (ty : JoinType) (alias : option bytes) (c : Expr)
| CWhere (c : Expr)
| CGroupBy (cols : list Expr)
| CGroupByQuery (criteria : Expr)
| CHaving (c : Expr)
| COrderBy (os : list Expr)
| CLimit (n : nat) (offsets : list nat).

Fixpoint offset_all (e : Expr) (ns : list nat) : option Expr :=
  match ns with [] => Some e | n :: ns => e ← offset e n; offset_all e ns end.

Definition apply_call (q : Expr) (k : call) : option Expr :=
  match k with
  | CJoin t ty alias c => b ← join q t ty; on (match alias with Some a => join_as b a | None => b end) c
  | CWhere c => where_ q c
  | CGroupBy cols => group_by q cols
  | CGroupByQuery criteria => group_by_query q criteria
  | CHaving c => having q c
  | COrderBy os => order_by q os
  | CLimit n ns => e ← limit q n; offset_all e ns
  end.

Fixpoint apply_calls (q : Expr) (ks : list call) : option Expr :=
  match ks with [] => Some q | k :: ks => q ← apply_call q k; apply_calls q ks end.

(** *** The reference: SQL's order of clauses *)
Inductive kind := KJoin | KWhere | KGroup | KHaving | KOrder | KLimit.

Definition kind_of (k : call) : kind :=
  match k with
  | CJoin _ _ _ _ => KJoin | CWhere _ => KWhere | CGroupBy _ | CGroupByQuery _ => KGroup | CHaving _ => KHaving
  | COrderBy _ => KOrder | CLimit _ _ => KLimit
  end.

(** Any number of joins, then at most one each of WHERE, GROUP BY with or without HAVING, ORDER BY
    and LIMIT. *)
Definition sql_order (ks : list kind) : Prop :=
  exists j w g o l, ks = replicate j KJoin ++ w ++ g ++ o ++ l /\
    w ∈ [[]; [KWhere]] /\ g ∈ [[]; [KGroup]; [KGroup; KHaving]] /\ o ∈ [[]; [KOrder]] /\ l ∈ [[]; [KLimit]].

(** What the concepts ask of the arguments. *)
Definition args_ok (k : call) : bool :=
  match k with
  | CJoin _ _ _ c | CWhere c | CHaving c => is_condition c
  | CGroupBy cols => forallb is_column_like cols
  | CGroupByQuery q => is_query q
  | COrderBy os => forallb is_order_by os
  | CLimit _ _ => true
  end.

(** What a clause writes. *)
Definition clause_pieces (k : call) : list piece :=
  match k with
  | CJoin t ty alias c => [PText (join_text ty)] ++ table_pieces t ++ alias_pieces (default [] alias) ++ tx " ON " ++ template c
  | CWhere c => tx " WHERE " ++ template c
  | CGroupBy cols => tx " GROUP BY " ++ comma true (map template cols)
  | CGroupByQuery q => tx " GROUP BY " ++ template q
  | CHaving c => tx " HAVING " ++ template c
  | COrderBy os => tx " ORDER BY " ++ comma true (map template os)
  | CLimit n ns => [PText (limit_text n (default 0 (last ns)))]
  end.

(** *** The types as an automaton *)
Definition stage (e : Expr) : option kind :=
  match e with
  | FromTableExpr _ _ _ | FromCteExpr _ _ _ _ | JoinExpr _ _ _ _ _ => Some KJoin
  | WhereExpr _ _ => Some KWhere
  | GroupByColumnExpr _ _ | GroupByQueryExpr _ _ => Some KGroup
  | HavingExpr _ _ => Some KHaving
  | OrderByExpr _ _ => Some KOrder
  | LimitExpr _ _ _ => Some KLimit
  | _ => None
  end.

Definition follows (p k : kind) : bool :=
  match p, k with
  | KJoin, (KJoin | KWhere | KGroup | KOrder | KLimit) | KWhere, (KGroup | KOrder | KLimit)
  | KGroup, (KHaving | KOrder | KLimit) | KHaving, (KOrder | KLimit) | KOrder, KLimit => true
  | _, _ => false
  end.

Fixpoint chain (p : kind) (ks : list kind) : bool := match ks with [] => true | k :: ks => follows p k && chain k ks end.

Lemma offset_all_limit q n m ns : offset_all (LimitExpr q n m) ns = Some (LimitExpr q n (default m (last ns))).
Proof.
  revert m. induction ns as [|a ns IH]; intros m; [done|]. cbn [offset_all offset mbind option_bind]. rewrite IH.
  destruct ns as [|b ns]; [done|]. rewrite last_cons_cons. destruct (last (b :: ns)) eqn:E; [done|]. by apply last_None in E.
Qed.

Definition feature_of (f : Feature) : kind :=
  match f with
  | AllowJoin => KJoin | AllowWhere => KWhere | AllowGroupBy => KGroup | AllowHaving => KHaving | AllowOrderBy => KOrder | AllowLimit => KLimit
  end.

Lemma stage_features q p f : stage q = Some p -> has_feature f q = follows p (feature_of f).
Proof. destruct q; intros; simplify_eq/=; by destruct f. Qed.

Lemma apply_call_stage q k p : stage q = Some p ->
  match apply_call q k with
  | Some e => follows p (kind_of k) = true /\ args_ok k = true /\ stage e = Some (kind_of k) /\ template e = template q ++ clause_pieces k
  | None => follows p (kind_of k) && args_ok k = false
  end.
Proof.
  intros Hp. destruct k as [t ty a c|c|cols|cr|c|os|n ns]; cbn -[template offset_all];
    unfold where_, group_by, group_by_query, having, order_by, limit, join, guarded; rewrite (stage_features q p) by done; cbn [feature_of].
  all: destruct (follows p _); cbn -[template offset_all]; [|done].
  - unfold on, guarded. destruct (is_condition c) eqn:E; [|done]. by destruct a.
  - by destruct (is_condition c).
  - by destruct (forallb _ _).
  - by destruct (is_query cr).
  - by destruct (is_condition c).
  - by destruct (forallb _ _).
  - by rewrite offset_all_limit.
Qed.

Lemma apply_calls_chain ks q p : stage q = Some p ->
  (is_Some (apply_calls q ks) <-> chain p (map kind_of ks) = true /\ Forall (fun k => args_ok k = true) ks) /\
  forall e, apply_calls q ks = Some e -> template e = template q ++ concat (map clause_pieces ks).
Proof.
  revert q p. induction ks as [|k ks IH]; intros q p Hp; cbn [apply_calls map chain].
  - split; [split; [by intros|by eauto]|]. intros e [= <-]. cbn. by rewrite app_nil_r.
  - pose proof (apply_call_stage q k p Hp) as Hk. destruct (apply_call q k) as [q'|]; cbn.
    + destruct Hk as (Hf & Ha & Hs & Ht). destruct (IH q' _ Hs) as [IH1 IH2]. rewrite Hf. split.
      * rewrite IH1, Forall_cons. cbn. tauto.
      * intros e He. rewrite (IH2 e He), Ht. by rewrite <- app_assoc.
    + split; [|done]. split; [by intros []|]. rewrite Forall_cons. intros (Hc & Ha & _).
      apply andb_true_iff in Hc as [Hf _]. by rewrite Hf, Ha in Hk.
Qed.

(** The language of the automaton, from its end. *)
Abbreviation order_tail := [[]; [KOrder]].
Abbreviation limit_tail := [[]; [KLimit]].
Abbreviation group_tail := [[]; [KGroup]; [KGroup; KHaving]].

Lemma chain_limit ks : chain KLimit ks = true -> ks = [].
Proof. by destruct ks as [|[] ks]. Qed.

Lemma chain_order ks : chain KOrder ks = true -> ks ∈ limit_tail.
Proof. destruct ks as [|[] ks]; try done; [by left|]. intros ->%chain_limit. by right; left. Qed.

Lemma chain_having ks : chain KHaving ks = true -> exists o l, ks = o ++ l /\ o ∈ order_tail /\ l ∈ limit_tail.
Proof.
  destruct ks as [|[] ks]; try done; cbn.
  - exists [], []. set_solver.
  - intros H%chain_order. exists [KOrder], ks. set_solver.
  - intros ->%chain_limit. exists [], [KLimit]. set_solver.
Qed.

Lemma chain_group ks : chain KGroup ks = true ->
  exists h o l, ks = h ++ o ++ l /\ h ∈ [[]; [KHaving]] /\ o ∈ order_tail /\ l ∈ limit_tail.
Proof.
  destruct ks as [|[] ks]; try done; intros Hc.
  - exists [], [], []. set_solver.
  - apply chain_having in Hc as (o & l & -> & ? & ?). exists [KHaving], o, l. set_solver.
  - destruct (chain_having (KOrder :: ks) Hc) as (o & l & -> & ? & ?). exists [], o, l. set_solver.
  - destruct (chain_having (KLimit :: ks) Hc) as (o & l & -> & ? & ?). exists [], o, l. set_solver.
Qed.

Lemma chain_where ks : chain KWhere ks = true ->
  exists g o l, ks = g ++ o ++ l /\ g ∈ group_tail /\ o ∈ order_tail /\ l ∈ limit_tail.
Proof.
  destruct ks as [|[] ks]; try done; intros Hc.
  - exists [], [], []. set_solver.
  - apply chain_group in Hc as (h & o & l & -> & ? & ? & ?). exists (KGroup :: h), o, l. set_solver.
  - destruct (chain_having (KOrder :: ks) Hc) as (o & l & -> & ? & ?). exists [], o, l. set_solver.
  - destruct (chain_having (KLimit :: ks) Hc) as (o & l & -> & ? & ?). exists [], o, l. set_solver.
Qed.

Lemma chain_sql_order ks : chain KJoin ks = true <-> sql_order ks.
Proof.
  split.
  - induction ks as [|[] ks IH]; intros Hc; try done.
    + exists 0, [], [], [], []. set_solver.
    + destruct (IH Hc) as (j & w & g & o & l & -> & ? & ? & ? & ?). by exists (S j), w, g, o, l.
    + apply chain_where in Hc as (g & o & l & -> & ? & ? & ?). exists 0, [KWhere], g, o, l. set_solver.
    + destruct (chain_where (KGroup :: ks) Hc) as (g & o & l & -> & ? & ? & ?). exists 0, [], g, o, l. set_solver.
    + destruct (chain_where (KOrder :: ks) Hc) as (g & o & l & -> & ? & ? & ?). exists 0, [], g, o, l. set_solver.
    + destruct (chain_where (KLimit :: ks) Hc) as (g & o & l & -> & ? & ? & ?). exists 0, [], g, o, l. set_solver.
  - intros (j & w & g & o & l & -> & Hw & Hg & Ho & Hl). set_unfold in Hw; set_unfold in Hg; set_unfold in Ho; set_unfold in Hl.
    induction j as [|j IH]; [|exact IH]. naive_solver.
Qed.

(** C27. The types of the builders admit exactly SQL's order of clauses. On a SELECT with its FROM, a
    sequence of clause calls compiles if and only if it is any number of joins followed by at
    most one each of WHERE, GROUP BY (with an optional HAVING), ORDER BY and LIMIT, with
    arguments of the right kinds; and the statement is the SELECT followed by the clauses, in
    that order. *)
Theorem fluent_grammar s ks : stage s = Some KJoin ->
  (is_Some (apply_calls s ks) <-> sql_order (map kind_of ks) /\ Forall (fun k => args_ok k = true) ks) /\
  forall e, apply_calls s ks = Some e -> template e = template s ++ concat (map clause_pieces ks).
Proof. intros Hs. destruct (apply_calls_chain ks s KJoin Hs) as [H1 H2]. by rewrite H1, chain_sql_order. Qed.

(** ** Runs *)
Definition users : Expr := FromTableExpr (SelectExpr [col (B "id") []] false) (NamedTable (B "users")) [].
Definition adults : Expr := BinaryExpr (col (B "age") []) (lit (FvInt32 18)) OpGreater.
Definition sample_calls : list call :=
  [CJoin (NamedTable (B "posts")) LEFT (Some (B "p")) adults; CWhere adults; CGroupBy [col (B "id") []]; CHaving adults;
   COrderBy [OrderBy (col (B "id") []) DESC]; CLimit 10 [20]].

Lemma fluent_grammar_witness : exists e, apply_calls users sample_calls = Some e /\
  template e = template users ++ concat (map clause_pieces sample_calls) /\ apply_calls users [CLimit 1 []; CWhere adults] = None.
Proof.
  destruct (fluent_grammar users sample_calls) as [[_ Hs] Ht]; [reflexivity|]. destruct Hs as [e He].
  - split; [|repeat constructor]. apply chain_sql_order. reflexivity.
  - exists e. split; [exact He|]. split; [exact (Ht e He)|reflexivity].
Defined.

(** The steps of a CASE expression do not keep an alias given earlier. *)
Example case_alias_lost : exists e, (e ← case_when adults (Value (FvInt32 1)); e ← as_ e (B "kind"); else_ e (Value (FvInt32 0))) = Some e /\
  e = CaseExprWithElse [(adults, lit (FvInt32 1))] (lit (FvInt32 0)) [].
Proof. by eexists. Qed.

(** Set operations accept any expression: a query that already has its LIMIT, and even two
    conditions. *)
Example union_unchecked :
  (q ← apply_calls users [CLimit 1 []]; union_query q users) = Some (SetOpExpr (LimitExpr users 1 0) users UNION) /\
  union_query adults adults = Some (SetOpExpr adults adults UNION).
Proof. done. Qed.

(** NOT is written without parentheses: negating a test for NULL and testing a negation read the same. *)
Example not_null_ambiguous : forall e,
  template (UnaryExpr (UnaryExpr e OpNot) OpIsNull) = template (UnaryExpr (UnaryExpr e OpIsNull) OpNot).
Proof. intros e. cbn. done. Qed.
