(* ===== verification/PgWire.v ===== *)
(** * Parameters and results on the PostgreSQL wire

    [elephant::ParamSink] binds values into the parallel arrays libpq takes, and
    [FieldView] decodes the bytes of a result column. Byte order conversions are
    written over the host's endianness; value pointers are references into the two
    backing deques. *)

From S2P Require Import Prelude SqlText SqlSchema SqlQuery.

(** ** Integers in memory *)
Inductive endian := LittleEndian | BigEndian.

Fixpoint le_bytes (w : nat) (z : Z) : bytes :=
  match w with
  | 0 => []
  | S w' => ascii_of_N (Z.to_N (z mod 256)) :: le_bytes w' (z / 256)
  end.

Fixpoint le_value (s : bytes) : Z :=
  match s with
  | [] => 0
  | c :: s' => Z.of_N (N_of_ascii c) + 256 * le_value s'
  end%Z.

Definition byteswap (w : nat) (z : Z) : Z := le_value (rev (le_bytes w z)).

(** Conversions between widths: to unsigned and to two's complement signed. *)
Definition to_unsigned (w : nat) (z : Z) : Z := (z mod 256 ^ Z.of_nat w)%Z.
Definition to_signed (w : nat) (z : Z) : Z :=
  let u := to_unsigned w z in if (2 * u <? 256 ^ Z.of_nat w)%Z then u else (u - 256 ^ Z.of_nat w)%Z.

(** ** Outcomes *)
Inductive decode_error := NullConversion | RuntimeError (what : bytes).

(** A decoder's outcome; [None] is a read outside the value's memory. *)
Abbreviation decoded A := (option (result decode_error A)).
Definition returns {A} (x : A) : decoded A := Some (Ok x).
Definition throws {A} (what : bytes) : decoded A := Some (Err (RuntimeError what)).

Section host.
Context (native : endian).

(** [memcpy] out of and into an integer object. *)
Definition store (w : nat) (z : Z) : bytes :=
  match native with LittleEndian => le_bytes w z | BigEndian => rev (le_bytes w z) end.
Definition load (s : bytes) : Z :=
  match native with LittleEndian => le_value s | BigEndian => le_value (rev s) end.

(** [beaver::ntoh]; [htons], [htonl], [htobe32] and [htobe64] are the same map. *)
Definition ntoh (w : nat) (net : Z) : Z := match native with BigEndian => net | LittleEndian => byteswap w net end.
Definition hton (w : nat) (host : Z) : Z := ntoh w host.

(** ** [Params] *)
Inductive value_ptr := NullPtr | StrPtr (i : nat) | ChunkPtr (i : nat).

Record Params := {
  values : list value_ptr;
  lengths : list Z;
  formats : list Z;
  oids : list Z;
  str_data : list bytes;
  binary_chunks : list bytes
}.

Definition empty_params : Params := {|
  values := []; lengths := []; formats := []; oids := []; str_data := []; binary_chunks := []
|}.

Definition format_text : Z := 0.
Definition format_binary : Z := 1.
Definition oid_int2 : Z := 21.
Definition oid_int4 : Z := 23.
Definition oid_int8 : Z := 20.
Definition oid_float4 : Z := 700.
Definition oid_float8 : Z := 701.
Definition oid_numeric : Z := 1700.
Definition oid_char : Z := 18.
Definition oid_text : Z := 25.
Definition oid_bytea : Z := 17.
Definition oid_bool : Z := 16.

(** Whether [data()] of an empty vector is null, which the standard leaves open. *)
Context (empty_data_null : bool).

(** [static_cast<int>] of a size. *)
Definition int_of_size (n : nat) : Z := to_signed 4 (Z.of_nat n).

(** A fresh chunk holding [data], and the four entries that refer to it. *)
Definition bind_chunk (p : Params) (data : bytes) (len oid : Z) : Params := {|
  values := values p ++ [if empty_data_null && bool_decide (data = []) then NullPtr else ChunkPtr (length (binary_chunks p))];
  lengths := lengths p ++ [len];
  formats := formats p ++ [format_binary];
  oids := oids p ++ [oid];
  str_data := str_data p;
  binary_chunks := binary_chunks p ++ [data]
|}.

(** A fresh string, and the four entries that refer to it. *)
Definition bind_text (p : Params) (s : bytes) (oid : Z) : Params := {|
  values := values p ++ [StrPtr (length (str_data p))];
  lengths := lengths p ++ [int_of_size (length s)];
  formats := formats p ++ [format_text];
  oids := oids p ++ [oid];
  str_data := str_data p ++ [s];
  binary_chunks := binary_chunks p
|}.

Definition bind_null (p : Params) : Params := {|
  values := values p ++ [NullPtr];
  lengths := lengths p ++ [0%Z];
  formats := formats p ++ [0%Z];
  oids := oids p ++ [0%Z];
  str_data := str_data p;
  binary_chunks := binary_chunks p
|}.

Definition bind_bool (p : Params) (b : bool) : Params := bind_chunk p [if b then "001"%char else "000"%char] 1 oid_bool.
Definition bind_char (p : Params) (c : ascii) : Params := bind_chunk p [c] 1 oid_char.
Definition bind_int16 (p : Params) (i : Z) : Params := bind_chunk p (store 2 (hton 2 (to_unsigned 2 i))) 2 oid_int2.
Definition bind_int32 (p : Params) (i : Z) : Params := bind_chunk p (store 4 (hton 4 (to_unsigned 4 i))) 4 oid_int4.
Definition bind_int64 (p : Params) (i : Z) : Params := bind_chunk p (store 8 (hton 8 (to_unsigned 8 i))) 8 oid_int8.
Definition bind_uint16 (p : Params) (i : Z) : Params := bind_chunk p (store 4 (hton 4 i)) 4 oid_int4.
Definition bind_uint32 (p : Params) (i : Z) : Params := bind_chunk p (store 8 (hton 8 i)) 8 oid_int8.
Definition bind_uint64 (p : Params) (i : Z) : Params := bind_text p (to_decimal_Z i) oid_numeric.
Definition bind_float (p : Params) (bits : Z) : Params := bind_chunk p (store 4 (hton 4 bits)) 4 oid_float4.
Definition bind_double (p : Params) (bits : Z) : Params := bind_chunk p (store 8 (hton 8 bits)) 8 oid_float8.
Definition bind_string (p : Params) (s : bytes) : Params := bind_text p s oid_text.
Definition bind_string_view (p : Params) (s : bytes) : Params := bind_text p s oid_text.
Definition bind_byte_span (p : Params) (data : bytes) : Params := bind_chunk p data (int_of_size (length data)) oid_bytea.
Definition bind_byte_vector (p : Params) (data : bytes) : Params := bind_chunk p data (int_of_size (length data)) oid_bytea.

(** [ParamSink::push]: the visit over the variant, then the 1-based index. *)
Definition bind_one (p : Params) (v : FieldValue) : Params :=
  match v with
  | FvNull => bind_null p
  | FvBool b => bind_bool p b
  | FvChar c => bind_char p c
  | FvInt16 i => bind_int16 p i
  | FvInt32 i => bind_int32 p i
  | FvInt64 i => bind_int64 p i
  | FvUint16 i => bind_uint16 p i
  | FvUint32 i => bind_uint32 p i
  | FvUint64 i => bind_uint64 p i
  | FvFloat b => bind_float p b
  | FvDouble b => bind_double p b
  | FvString s => bind_string p s
  | FvStringView s => bind_string_view p s
  | FvBytes d => bind_byte_vector p d
  | FvByteSpan d => bind_byte_span p d
  end.

Definition push (p : Params) (v : FieldValue) : Params * nat :=
  let p' := bind_one p v in (p', length (values p')).

#[local] Instance pg_param_sink : ParamSink Params := {| sink_push := push; sink_size p := length (values p) |}.

(** ** [FieldView] *)

(** [fv_ptr] is the memory readable from [ptr_] on; libpq terminates every value
    with a NUL that the length does not count. *)
Record FieldView := { fv_ptr : bytes; fv_len : nat; fv_is_null : bool; fv_format : Z; fv_oid : Z }.

(** [std::from_chars] for the floating types is not modelled: a parameter. *)
Class FloatParse := { float_of_chars : bytes -> option Z; double_of_chars : bytes -> option Z }.

Section views.
Context `{FloatParse}.
Implicit Types fv : FieldView.

Definition as_sv fv : bytes := take (fv_len fv) (fv_ptr fv).

Definition read_memory (s : bytes) (n : nat) : option bytes := if decide (n <= length s) then Some (take n s) else None.

Definition binary_of fv (oid : Z) : bool := (fv_format fv =? format_binary)%Z && (fv_oid fv =? oid)%Z.

(** [memcpy] of [w] bytes into an unsigned, then [ntoh]. *)
Definition read_be fv (w : nat) : option Z := (fun m => ntoh w (load m)) <$> read_memory (fv_ptr fv) w.

Definition decode_integer_text (signed : bool) (lo hi : Z) fv : decoded Z :=
  match from_chars signed lo hi (as_sv fv) with
  | Some (z, _) => returns z
  | None => throws (B "Failed to parse integer from: " ++ as_sv fv)
  end.

Definition decode_bool fv : decoded bool :=
  if binary_of fv oid_bool then match fv_ptr fv with c :: _ => returns (negb (bool_decide (c = "000"%char))) | [] => None end
  else let sv := as_sv fv in
    returns (bool_decide (sv = B "t") || bool_decide (sv = B "true") || bool_decide (sv = B "1") ||
             bool_decide (sv = B "TRUE") || bool_decide (sv = B "T")).

Definition decode_char fv : decoded ascii :=
  if binary_of fv oid_char then match fv_ptr fv with c :: _ => returns c | [] => None end
  else match as_sv fv with [] => returns "000"%char | c :: _ => returns c end.

Definition decode_int16 fv : decoded Z :=
  if binary_of fv oid_int2 then be ← read_be fv 2; returns (to_signed 2 be)
  else decode_integer_text true (-32768) 32767 fv.

Definition decode_int32 fv : decoded Z :=
  if binary_of fv oid_int4 then be ← read_be fv 4; returns (to_signed 4 be)
  else decode_integer_text true (-2147483648) 2147483647 fv.

Definition decode_int64 fv : decoded Z :=
  if binary_of fv oid_int8 then be ← read_be fv 8; returns (to_signed 8 be)
  else decode_integer_text true (-9223372036854775808) 9223372036854775807 fv.

Definition decode_uint16 fv : decoded Z :=
  if binary_of fv oid_int4 then be ← read_be fv 4; returns (to_unsigned 2 be)
  else if binary_of fv oid_int2 then be ← read_be fv 2; returns be
  else decode_integer_text false 0 65535 fv.

Definition decode_uint32 fv : decoded Z :=
  if binary_of fv oid_int8 then be ← read_be fv 8; returns (to_unsigned 4 be)
  else if binary_of fv oid_int4 then be ← read_be fv 4; returns be
  else decode_integer_text false 0 4294967295 fv.

Definition decode_uint64 fv : decoded Z :=
  if binary_of fv oid_int8 then be ← read_be fv 8; returns be
  else decode_integer_text false 0 18446744073709551615 fv.

(** The bit patterns of the special values: NaN, infinity, minus infinity. *)
Definition special_float (nan inf ninf : Z) (s : bytes) : option Z :=
  if bool_decide (s = B "NaN") || bool_decide (s = B "nan") then Some nan
  else if bool_decide (s = B "Infinity") || bool_decide (s = B "inf") then Some inf
  else if bool_decide (s = B "-Infinity") || bool_decide (s = B "-inf") then Some ninf
  else None.

Definition decode_float fv : decoded Z :=
  if binary_of fv oid_float4 then be ← read_be fv 4; returns be
  else match float_of_chars (as_sv fv) with
       | Some f => returns f
       | None => match special_float 0x7fc00000 0x7f800000 0xff800000 (as_sv fv) with
                 | Some f => returns f
                 | None => throws (B "Failed to parse float: " ++ as_sv fv)
                 end
       end.

Definition decode_double fv : decoded Z :=
  if binary_of fv oid_float8 then be ← read_be fv 8; returns be
  else match double_of_chars (as_sv fv) with
       | Some d => returns d
       | None => match special_float 0x7ff8000000000000 0x7ff0000000000000 0xfff0000000000000 (as_sv fv) with
                 | Some d => returns d
                 | None => throws (B "Failed to parse double: " ++ as_sv fv)
                 end
       end.

Definition decode_string fv : decoded bytes := returns (as_sv fv).
Definition decode_string_view fv : decoded bytes := returns (as_sv fv).

Definition decode_binary_span fv : decoded bytes :=
  if binary_of fv oid_bytea then returns (as_sv fv)
  else throws (B "Cannot decode text-format bytea as span. Use vector<std::uint8_t> instead.").

(** [std::from_chars] for [uint8_t] in base 16 over a window of two bytes: the
    digits are consumed greedily, what follows them is ignored. *)
Definition hex_digit (c : ascii) : option N :=
  let n := N_of_ascii c in
  if ((48 <=? n) && (n <=? 57))%N then Some (n - 48)%N
  else if ((97 <=? n) && (n <=? 102))%N then Some (n - 87)%N
  else if ((65 <=? n) && (n <=? 70))%N then Some (n - 55)%N
  else None.

Definition hex_window (w : bytes) : option ascii :=
  match w with
  | [a; b] => match hex_digit a, hex_digit b with
              | Some x, Some y => Some (ascii_of_N (16 * x + y))
              | Some x, None => Some (ascii_of_N x)
              | None, _ => None
              end
  | _ => None
  end.

(** The loop over [sv], of [n] bytes, in steps of two; the window is read from
    memory whether or not [sv] has a second byte. *)
Fixpoint hex_loop (fuel : nat) (mem : bytes) (n i : nat) (acc : bytes) : decoded bytes :=
  if decide (n <= i) then returns acc else
  match fuel with
  | 0 => None
  | S fuel =>
      w ← read_memory (drop i mem) 2;
      match hex_window w with
      | Some b => hex_loop fuel mem n (i + 2) (acc ++ [b])
      | None => throws (B "Invalid hex in bytea")
      end
  end.

Definition decode_hex_bytea fv : decoded bytes :=
  if starts_with (B "\x") (as_sv fv) then
    let n := length (as_sv fv) - 2 in hex_loop (S n) (drop 2 (fv_ptr fv)) n 0 []
  else throws (B "Unsupported bytea format").

Definition decode_binary_vector fv : decoded bytes :=
  if binary_of fv oid_bytea then returns (as_sv fv) else decode_hex_bytea fv.

(** [as<T>], the type chosen among the variant's alternatives. *)
Inductive FieldType :=
| TyMonostate | TyBool | TyChar | TyInt16 | TyInt32 | TyInt64 | TyUint16 | TyUint32 | TyUint64 | TyFloat | TyDouble
| TyString | TyStringView | TyBytes | TyByteSpan.

Definition lift {A C} (f : A -> C) (d : decoded A) : decoded C := (fun r : result decode_error A => f <$> r) <$> d.

Definition as_type (t : FieldType) fv : decoded FieldValue :=
  match t with
  | TyMonostate => returns FvNull
  | _ =>
    if fv_is_null fv then Some (Err NullConversion) else
    match t with
    | TyMonostate => returns FvNull
    | TyBool => lift FvBool (decode_bool fv)
    | TyChar => lift FvChar (decode_char fv)
    | TyInt16 => lift FvInt16 (decode_int16 fv)
    | TyInt32 => lift FvInt32 (decode_int32 fv)
    | TyInt64 => lift FvInt64 (decode_int64 fv)
    | TyUint16 => lift FvUint16 (decode_uint16 fv)
    | TyUint32 => lift FvUint32 (decode_uint32 fv)
    | TyUint64 => lift FvUint64 (decode_uint64 fv)
    | TyFloat => lift FvFloat (decode_float fv)
    | TyDouble => lift FvDouble (decode_double fv)
    | TyString => lift FvString (decode_string fv)
    | TyStringView => lift FvStringView (decode_string_view fv)
    | TyBytes => lift FvBytes (decode_binary_vector fv)
    | TyByteSpan => lift FvByteSpan (decode_binary_span fv)
    end
  end.

(** [get<T>]: [nullopt] for SQL NULL. *)
Definition get (t : FieldType) fv : decoded (option FieldValue) :=
  if fv_is_null fv then returns None else lift Some (as_type t fv).

(** ** [RowView] and [ResultBlock]: over the accessors of a [PGresult], which belongs to libpq *)
Record PGresult := {
  PQntuples : nat; PQnfields : nat;
  PQgetisnull : nat -> nat -> bool; PQgetvalue : nat -> nat -> bytes; PQgetlength : nat -> nat -> nat;
  PQfformat : nat -> Z; PQftype : nat -> Z; PQfnumber : bytes -> option nat
}.

Definition row_at (res : PGresult) (row col : nat) : FieldView :=
  let is_null := PQgetisnull res row col in
  {| fv_ptr := if is_null then [] else PQgetvalue res row col;
     fv_len := if is_null then 0 else PQgetlength res row col;
     fv_is_null := is_null; fv_format := PQfformat res col; fv_oid := PQftype res col |}.

Definition col_index (res : PGresult) (name : bytes) : result exn nat :=
  match PQfnumber res name with Some idx => Ok idx | None => Err (OutOfRange (B "Column is not found")) end.

Definition result_rows (res : PGresult) : nat := PQntuples res.
Definition result_cols (res : PGresult) : nat := PQnfields res.
Definition result_empty (res : PGresult) : bool := result_rows res =? 0.

Definition result_get_opt (t : FieldType) (res : PGresult) (r c : nat) : decoded (option FieldValue) :=
  let f := row_at res r c in if fv_is_null f then returns None else lift Some (as_type t f).

Definition result_get (t : FieldType) (res : PGresult) (r c : nat) : decoded FieldValue :=
  let f := row_at res r c in if fv_is_null f then throws (B "get() failed") else as_type t f.

End views.
End host.

(** ** Byte order *)
Lemma length_le_bytes w z : length (le_bytes w z) = w.
Proof. revert z. induction w; intros z; simpl; auto. Qed.

Lemma le_value_bytes w z : le_value (le_bytes w z) = to_unsigned w z.
Proof.
  unfold to_unsigned. revert z. induction w as [|w IH]; intros z; cbn [le_bytes le_value]; [by rewrite Z.mod_1_r|].
  rewrite IH. pose proof (Z.mod_pos_bound z 256 ltac:(lia)). rewrite N_ascii_embedding by lia. rewrite Z2N.id by lia.
  rewrite Nat2Z.inj_succ, Z.pow_succ_r by lia.
  rewrite Zmod_rem_mul || rewrite Z.rem_mul_r by lia. lia.
Qed.

Lemma le_value_bound s : (0 <= le_value s < 256 ^ Z.of_nat (length s))%Z.
Proof.
  induction s as [|c s IH]; cbn [le_value length]; [lia|]. pose proof (N_ascii_bounded c).
  rewrite Nat2Z.inj_succ, Z.pow_succ_r by lia. lia.
Qed.

Lemma le_bytes_value s : le_bytes (length s) (le_value s) = s.
Proof.
  induction s as [|c s IH]; cbn [le_value length le_bytes]; [done|]. pose proof (N_ascii_bounded c).
  rewrite (Z.mul_comm 256), Z.mod_add, Z.div_add, Z.mod_small, Z.div_small, N2Z.id, ascii_N_embedding by lia. simpl. by f_equal.
Qed.

(** Converting to network order and copying out gives the big-endian bytes on
    either kind of host, and reading them back inverts that. *)
Lemma store_hton native w z : store native w (hton native w z) = rev (le_bytes w z).
Proof.
  unfold store, hton, ntoh, byteswap. destruct native; [|done].
  rewrite <- (le_bytes_value (rev (le_bytes w z))) at 2. by rewrite length_rev, length_le_bytes.
Qed.

Lemma ntoh_load native s : ntoh native (length s) (load native s) = le_value (rev s).
Proof. unfold ntoh, load, byteswap. destruct native; [|done]. by rewrite le_bytes_value. Qed.

Lemma to_unsigned_small w z : (0 <= z < 256 ^ Z.of_nat w)%Z -> to_unsigned w z = z.
Proof. apply Z.mod_small. Qed.

Lemma to_signed_unsigned w z : to_signed w (to_unsigned w z) = to_signed w z.
Proof. unfold to_signed, to_unsigned. by rewrite Z.mod_mod by lia. Qed.

Lemma to_signed_small w z : (- 256 ^ Z.of_nat w <= 2 * z < 256 ^ Z.of_nat w)%Z -> to_signed w z = z.
Proof.
  intros Hz. unfold to_signed, to_unsigned. destruct (Z.lt_ge_cases z 0).
  - rewrite <- (Z.mod_add z 1), Z.mod_small by lia. destruct (Z.ltb_spec (2 * (z + 1 * 256 ^ Z.of_nat w)) (256 ^ Z.of_nat w)); lia.
  - rewrite Z.mod_small by lia. destruct (Z.ltb_spec (2 * z) (256 ^ Z.of_nat w)); lia.
Qed.

(** ** What a bound parameter denotes *)

(** The bytes behind parameter [i]: a text value ends at its first NUL, whatever
    its recorded length; a binary one has the recorded length. *)
Definition c_string (s : bytes) : bytes := match find_index NUL s with Some i => take i s | None => s end.

Definition param_bytes (p : Params) (i : nat) : option (option bytes) :=
  v ← values p !! i;
  match v with
  | NullPtr => Some None
  | StrPtr k => s ← str_data p !! k; Some (Some (c_string s))
  | ChunkPtr k =>
      c ← binary_chunks p !! k;
      n ← lengths p !! i;
      if decide (0 <= n <= Z.of_nat (length c))%Z then Some (Some (take (Z.to_nat n) c)) else None
  end.

(** A result column holding that value, in the format and of the type it was bound with. *)
Definition echo (p : Params) (i : nat) : option FieldView :=
  f ← formats p !! i;
  o ← oids p !! i;
  b ← param_bytes p i;
  Some match b with
       | None => {| fv_ptr := []; fv_len := 0; fv_is_null := true; fv_format := f; fv_oid := o |}
       | Some s => {| fv_ptr := s ++ [NUL]; fv_len := length s; fv_is_null := false; fv_format := f; fv_oid := o |}
       end.

(** The parallel arrays agree and every pointer is into its deque. *)
Definition ptr_ok (p : Params) (v : value_ptr) : Prop :=
  match v with NullPtr => True | StrPtr k => k < length (str_data p) | ChunkPtr k => k < length (binary_chunks p) end.

Record params_wf (p : Params) : Prop := {
  wf_lengths : length (lengths p) = length (values p);
  wf_formats : length (formats p) = length (values p);
  wf_oids : length (oids p) = length (values p);
  wf_ptrs : Forall (ptr_ok p) (values p)
}.

(** Values of their type's range; byte sequences of a size that fits an [int]. *)
Definition in_range (lo hi z : Z) : bool := (lo <=? z)%Z && (z <=? hi)%Z.

Definition field_value_ok (v : FieldValue) : bool :=
  match v with
  | FvNull | FvBool _ | FvChar _ => true
  | FvInt16 i => in_range (-32768) 32767 i
  | FvInt32 i => in_range (-2147483648) 2147483647 i
  | FvInt64 i => in_range (-9223372036854775808) 9223372036854775807 i
  | FvUint16 i => in_range 0 65535 i
  | FvUint32 i | FvFloat i => in_range 0 4294967295 i
  | FvUint64 i | FvDouble i => in_range 0 18446744073709551615 i
  | FvString _ | FvStringView _ => true
  | FvBytes d | FvByteSpan d => (Z.of_nat (length d) <=? 2147483647)%Z
  end.

Definition type_of (v : FieldValue) : FieldType :=
  match v with
  | FvNull => TyMonostate | FvBool _ => TyBool | FvChar _ => TyChar
  | FvInt16 _ => TyInt16 | FvInt32 _ => TyInt32 | FvInt64 _ => TyInt64
  | FvUint16 _ => TyUint16 | FvUint32 _ => TyUint32 | FvUint64 _ => TyUint64
  | FvFloat _ => TyFloat | FvDouble _ => TyDouble
  | FvString _ => TyString | FvStringView _ => TyStringView | FvBytes _ => TyBytes | FvByteSpan _ => TyByteSpan
  end.

(** SQL NULL goes out for a null value, and for an empty byte sequence where an
    empty vector's [data()] is null. *)
Definition binds_null (empty_data_null : bool) (v : FieldValue) : bool :=
  match v with
  | FvNull => true
  | FvBytes d | FvByteSpan d => empty_data_null && bool_decide (d = [])
  | _ => false
  end.

(** The same column sent in binary format, as every parameterized execution asks for. *)
Definition as_binary (fv : FieldView) : FieldView :=
  {| fv_ptr := fv_ptr fv; fv_len := fv_len fv; fv_is_null := fv_is_null fv; fv_format := format_binary; fv_oid := fv_oid fv |}.

(** What of a value reaches the server: text goes out as a C string. *)
Definition carried (v : FieldValue) : FieldValue :=
  match v with FvString s => FvString (c_string s) | FvStringView s => FvStringView (c_string s) | v => v end.

(** NUMERIC has a binary form of its own; the other types bound as text have none. *)
Definition bound_as_numeric (v : FieldValue) : bool := match v with FvUint64 _ => true | _ => false end.

(** [q] extends [p] by one parameter. *)
Record extends (p q : Params) : Prop := {
  ext_values : exists v, values q = values p ++ [v] /\ ptr_ok q v;
  ext_lengths : exists n, lengths q = lengths p ++ [n];
  ext_formats : exists f, formats q = formats p ++ [f];
  ext_oids : exists o, oids q = oids p ++ [o];
  ext_str : str_data p `prefix_of` str_data q;
  ext_chunks : binary_chunks p `prefix_of` binary_chunks q
}.

Section binding.
Context (native : endian) (empty_data_null : bool).

Lemma bind_chunk_extends p d n o : extends p (bind_chunk empty_data_null p d n o).
Proof.
  split; simpl; eauto; [|by apply prefix_app_r]. eexists. split; [done|].
  destruct (empty_data_null && bool_decide (d = [])); simpl; [done|]. rewrite length_app. simpl. lia.
Qed.

Lemma bind_text_extends p s o : extends p (bind_text p s o).
Proof. split; simpl; eauto; [|by apply prefix_app_r]. eexists. split; [done|]. simpl. rewrite length_app. simpl. lia. Qed.

Lemma bind_one_extends p v : extends p (bind_one native empty_data_null p v).
Proof.
  destruct v; try apply bind_chunk_extends; try apply bind_text_extends. split; simpl; eauto. by eexists.
Qed.

End binding.

Lemma ptr_ok_extends p q v : extends p q -> ptr_ok p v -> ptr_ok q v.
Proof.
  intros [_ _ _ _ Hs%prefix_length Hc%prefix_length]. destruct v; simpl; [done|lia|lia].
Qed.

Lemma extends_wf p q : extends p q -> params_wf p -> params_wf q.
Proof.
  intros He [Hl Hf Ho Hp]. pose proof He as [(v & Hv & Hok) [n Hn] [f Hf'] [o Ho'] _ _].
  split; rewrite ?Hv, ?Hn, ?Hf', ?Ho', ?length_app; simpl; [lia..|].
  apply Forall_app. split; [|by constructor]. eapply Forall_impl; [exact Hp|]. intros x. by apply ptr_ok_extends.
Qed.

Lemma extends_echo p q i fv : extends p q -> params_wf p -> echo p i = Some fv -> echo q i = Some fv.
Proof.
  intros [(v & Hv & _) [n Hn] [f Hf] [o Ho] Hs Hc] [Hl Hf' Ho' Hp] He. unfold echo, param_bytes in *.
  destruct (formats p !! i) as [f0|] eqn:Ef; [|done]. assert (i < length (formats p)) by by eapply lookup_lt_Some.
  rewrite Hf, Ho, Hv, Hn, !lookup_app_l by lia. rewrite Ef. cbn in *. destruct (oids p !! i) as [o0|]; [|done]. cbn in *.
  destruct (values p !! i) as [[|k|k]|]; cbn in *; try done.
  - destruct (str_data p !! k) eqn:E; [|done]. by rewrite (prefix_lookup_Some _ _ _ _ E Hs).
  - destruct (binary_chunks p !! k) eqn:E; [|done]. by rewrite (prefix_lookup_Some _ _ _ _ E Hc).
Qed.

(** ** Decoding what was bound *)
Definition text_view (s : bytes) (o : Z) : FieldView :=
  {| fv_ptr := s ++ [NUL]; fv_len := length s; fv_is_null := false; fv_format := format_text; fv_oid := o |}.
Definition binary_view (d : bytes) (o : Z) : FieldView :=
  {| fv_ptr := d ++ [NUL]; fv_len := length d; fv_is_null := false; fv_format := format_binary; fv_oid := o |}.

Lemma lookup_snoc {A} (l : list A) x n : n = length l -> (l ++ [x]) !! n = Some x.
Proof. intros ->. by rewrite lookup_app_r, Nat.sub_diag by lia. Qed.

Lemma c_string_id s : NUL ∉ s -> c_string s = s.
Proof. intros Hs. unfold c_string. by rewrite (proj2 (find_index_None _ _) Hs). Qed.

Section echo.
Context (empty_data_null : bool).

Lemma echo_text p s o : params_wf p -> echo (bind_text p s o) (length (values p)) = Some (text_view (c_string s) o).
Proof.
  intros [Hl Hf Ho _]. unfold echo, param_bytes. simpl. rewrite !lookup_snoc by lia. cbn. by rewrite lookup_snoc by done.
Qed.

Lemma echo_chunk p d n o :
  params_wf p -> n = Z.of_nat (length d) ->
  echo (bind_chunk empty_data_null p d n o) (length (values p)) =
  Some (if empty_data_null && bool_decide (d = []) then
          {| fv_ptr := []; fv_len := 0; fv_is_null := true; fv_format := format_binary; fv_oid := o |}
        else binary_view d o).
Proof.
  intros [Hl Hf Ho _] ->. unfold echo, param_bytes. simpl. rewrite !lookup_snoc by lia. cbn.
  destruct (empty_data_null && bool_decide (d = [])); cbn; [done|]. rewrite !lookup_snoc by done. cbn.
  rewrite decide_True by lia. cbn. by rewrite Nat2Z.id, take_ge by lia.
Qed.

Lemma echo_nonempty p d n o :
  params_wf p -> d <> [] -> n = Z.of_nat (length d) ->
  echo (bind_chunk empty_data_null p d n o) (length (values p)) = Some (binary_view d o).
Proof. intros Hp Hd Hn. rewrite echo_chunk by done. by rewrite (bool_decide_false (d = [])), andb_false_r. Qed.

End echo.

Section decoding.
Context (native : endian) `{FloatParse}.

Lemma as_sv_binary d o : as_sv (binary_view d o) = d.
Proof. unfold as_sv. simpl. by rewrite take_app_length. Qed.
Lemma as_sv_text s o : as_sv (text_view s o) = s.
Proof. unfold as_sv. simpl. by rewrite take_app_length. Qed.

(** The [w] bytes a sink stores for [z] read back as [z] modulo the width. *)
Lemma read_be_stored w z o : read_be native (binary_view (store native w (hton native w z)) o) w = Some (to_unsigned w z).
Proof.
  rewrite store_hton. unfold read_be, read_memory. simpl. rewrite length_app, length_rev, length_le_bytes.
  rewrite decide_True by (simpl; lia). simpl. f_equal.
  assert (Hl : length (rev (le_bytes w z)) = w) by by rewrite length_rev, length_le_bytes.
  rewrite <- Hl at 2. rewrite take_app_length, <- Hl at 1.
  rewrite ntoh_load, rev_involutive. apply le_value_bytes.
Qed.

Lemma stored_nonempty w z : store native (S w) (hton native (S w) z) <> [].
Proof. rewrite store_hton. intros E%(f_equal length). by rewrite length_rev, length_le_bytes in E. Qed.

Lemma length_stored w z : length (store native w (hton native w z)) = w.
Proof. by rewrite store_hton, length_rev, length_le_bytes. Qed.

Lemma decode_decimal signed lo hi z o :
  (signed = false -> 0 <= z)%Z ->
  decode_integer_text signed lo hi (text_view (to_decimal_Z z) o) =
  if decide (lo <= z <= hi)%Z then returns z else throws (B "Failed to parse integer from: " ++ to_decimal_Z z).
Proof.
  intros Hs. unfold decode_integer_text. rewrite as_sv_text, from_chars_decimal by done. by case_decide.
Qed.

End decoding.

Lemma in_range_spec lo hi z : in_range lo hi z = true <-> (lo <= z <= hi)%Z.
Proof. unfold in_range. rewrite andb_true_iff. lia. Qed.

Lemma nul_free_decimal z : NUL ∉ to_decimal_Z z.
Proof.
  assert (Hd : forall n, NUL ∉ to_decimal n).
  { intros n Hn. pose proof (to_decimal_is_digits n) as HF. rewrite Forall_forall in HF. by specialize (HF _ Hn). }
  unfold to_decimal_Z. destruct (z <? 0)%Z; [|done]. intros [E|Hn]%elem_of_cons; [done|]. by apply Hd in Hn.
Qed.

Lemma echo_null native empty_data_null p :
  params_wf p -> echo (bind_one native empty_data_null p FvNull) (length (values p)) =
    Some {| fv_ptr := []; fv_len := 0; fv_is_null := true; fv_format := 0; fv_oid := 0 |}.
Proof. intros [Hl Hf Ho _]. unfold echo, param_bytes. simpl. by rewrite !lookup_snoc by lia. Qed.

(** A stored integer: the view it comes back in. *)
Lemma echo_stored native empty_data_null p w z n o :
  params_wf p -> n = Z.of_nat (S w) ->
  echo (bind_chunk empty_data_null p (store native (S w) (hton native (S w) z)) n o) (length (values p)) =
  Some (binary_view (store native (S w) (hton native (S w) z)) o).
Proof. intros Hp ->. apply echo_nonempty; [done|apply stored_nonempty|by rewrite length_stored]. Qed.

(** Fixed-width signed and unsigned integers survive the trip. *)
Lemma signed_trip w z : (- 256 ^ Z.of_nat w <= 2 * z < 256 ^ Z.of_nat w)%Z -> to_signed w (to_unsigned w (to_unsigned w z)) = z.
Proof. intros Hz. rewrite !to_signed_unsigned. by apply to_signed_small. Qed.

Lemma unsigned_trip w w' z : (0 <= z < 256 ^ Z.of_nat w)%Z -> w <= w' -> to_unsigned w (to_unsigned w' z) = z.
Proof.
  intros Hz Hw. assert (256 ^ Z.of_nat w <= 256 ^ Z.of_nat w')%Z by (apply Z.pow_le_mono_r; lia).
  rewrite !to_unsigned_small; rewrite ?to_unsigned_small; lia.
Qed.

Lemma int_of_size_small n : (Z.of_nat n <= 2147483647)%Z -> int_of_size n = Z.of_nat n.
Proof. intros Hn. apply to_signed_small. lia. Qed.

Create HintDb pgwire.
#[local] Hint Rewrite @read_be_stored @as_sv_text @as_sv_binary : pgwire.

(** Decoding a view of known format and type. *)
Ltac decode := unfold get; cbn [fv_is_null binary_view text_view type_of as_type];
  unfold decode_bool, decode_char, decode_int16, decode_int32, decode_int64, decode_uint16, decode_uint32, decode_uint64,
    decode_float, decode_double, decode_string, decode_string_view, decode_binary_vector, decode_binary_span, binary_of;
  cbn [fv_format fv_oid binary_view text_view andb Z.eqb]; autorewrite with pgwire.

(** A view that decodes to [v] at [v]'s own type, in the format it was bound with and
    in binary format. *)
Definition Decodes (native : endian) (empty_data_null : bool) `{FloatParse} (v : FieldValue) (fv : FieldView) : Prop :=
  let expected := returns (if binds_null empty_data_null v then None else Some v) in
  get native (type_of v) fv = expected /\ (bound_as_numeric v = false -> get native (type_of v) (as_binary fv) = expected).

Lemma Decodes_binary native empty_data_null `{FloatParse} v d o :
  get native (type_of v) (binary_view d o) = returns (if binds_null empty_data_null v then None else Some v) ->
  Decodes native empty_data_null v (binary_view d o).
Proof. intros E. split; [exact E|intros _; exact E]. Qed.

(** The view of the last bound parameter decodes to the value bound, text up to its first NUL. *)
Lemma bind_one_decodes native empty_data_null `{FloatParse} p v :
  params_wf p -> field_value_ok v = true ->
  exists fv, echo (bind_one native empty_data_null p v) (length (values p)) = Some fv /\
    Decodes native empty_data_null (carried v) fv.
Proof.
  intros Hp Hv. destruct v; cbn [field_value_ok] in Hv; rewrite ?in_range_spec in Hv; eexists;
    (split; [first [by apply echo_null | by apply echo_stored | by apply echo_nonempty | apply echo_text | apply echo_chunk]|]).
  all: try done; cbn [carried].
  all: try (apply int_of_size_small; lia).
  all: try apply Decodes_binary.
  1: by destruct b.
  1-3: decode; cbn -[to_signed to_unsigned]; rewrite signed_trip by (cbn; lia); done.
  1-2: decode; cbn -[to_unsigned]; rewrite unsigned_trip by (cbn; lia); done.
  1: rewrite c_string_id by apply nul_free_decimal; split; [|done]; decode; rewrite decode_decimal by lia; by rewrite decide_True.
  1-2: decode; cbn -[to_unsigned]; rewrite to_unsigned_small by (cbn; lia); done.
  1-2: split; [by decode|intros _]; unfold get; cbn; by rewrite take_app_length.
  all: destruct (empty_data_null && bool_decide (data = [])) eqn:E;
    [unfold Decodes; cbn [binds_null]; by rewrite E|apply Decodes_binary; cbn [binds_null]; rewrite E; by decode].
Qed.

(** The sink meets the compiler's contract: indices count up from 1. *)
#[export] Instance pg_param_sink_laws native empty_data_null : ParamSinkLaws Params (H := pg_param_sink native empty_data_null).
Proof.
  constructor; intros p v; simpl; destruct (bind_one_extends native empty_data_null p v) as [(x & -> & _) _ _ _ _ _];
    rewrite length_app; simpl; lia.
Qed.

Lemma empty_params_wf : params_wf empty_params.
Proof. by split. Qed.

(** Binding a sequence: every value keeps its own position. *)
Lemma bind_all_decodes native empty_data_null `{FloatParse} p xs i x :
  let _ := pg_param_sink native empty_data_null in
  params_wf p -> xs !! i = Some x -> field_value_ok x = true ->
  exists fv, echo (bind_all p xs) (length (values p) + i) = Some fv /\ Decodes native empty_data_null (carried x) fv.
Proof.
  intros sink Hp Hx Hv.
  assert (Hpres : forall ys q j fv, params_wf q -> echo q j = Some fv -> echo (bind_all q ys) j = Some fv).
  { induction ys as [|y ys IH]; intros q j fv Hq Hj; [done|]. pose proof (bind_one_extends native empty_data_null q y) as He.
    apply IH; [by eapply extends_wf|by eapply extends_echo]. }
  revert p i Hp Hx. induction xs as [|y xs IH]; intros p [|i] Hp Hx; [done..| |].
  - injection Hx as ->. destruct (bind_one_decodes native empty_data_null p x Hp Hv) as (fv & He & Hg).
    exists fv. split; [|done]. rewrite Nat.add_0_r. apply (Hpres xs); [|done]. by eapply extends_wf; [apply bind_one_extends|].
  - destruct (bind_one_extends native empty_data_null p y) as [(w & Ev & _) _ _ _ _ _].
    destruct (IH (bind_one native empty_data_null p y) i) as (fv & He & Hg).
    + by eapply extends_wf; [apply bind_one_extends|].
    + done.
    + exists fv. split; [|done]. rewrite Ev, length_app in He. simpl in He.
      by replace (length (values p) + S i) with (length (values p) + 1 + i) by lia.
Qed.

(** ** Theorems *)

(** Pushing a value appends one parameter with the next 1-based index, keeps every
    parameter bound before it as it was, and the bytes, format and type it binds
    decode to the same value, on hosts of either byte order: integers of every
    width and sign, floating bit patterns, byte sequences of less than 2^31 bytes, and
    text, which ends at its first NUL if it has one.
    The same holds when the column comes back in binary format, except for the
    unsigned 64-bit integers bound as NUMERIC text. An empty byte sequence turns into
    SQL NULL where an empty vector has no data pointer. *)
Theorem push_roundtrip native empty_data_null `{FloatParse} p v :
  params_wf p -> field_value_ok v = true ->
  let '(p', idx) := push native empty_data_null p v in
  idx = S (length (values p)) /\ params_wf p' /\
  (forall i fv, echo p i = Some fv -> echo p' i = Some fv) /\
  exists fv, echo p' (idx - 1) = Some fv /\ Decodes native empty_data_null (carried v) fv.
Proof.
  intros Hp Hv. unfold push. pose proof (bind_one_extends native empty_data_null p v) as He.
  pose proof He as [(x & Ex & _) _ _ _ _ _]. rewrite Ex, length_app. simpl. split_and!; [lia|by eapply extends_wf| |].
  - intros i fv. by apply extends_echo.
  - replace (length (values p) + 1 - 1) with (length (values p)) by lia. by apply bind_one_decodes.
Qed.

(** C16. Compiling with bound parameters and executing agree, for every expression: the
    statement has its value slots numbered from [$1] in order, one parameter is bound
    per value, and the parameter behind [$(i+1)] decodes, at the type of the [i]-th
    value, to that value. What is lost on the way is in the statement: a text value
    ends at its first NUL ([carried]), and an empty byte sequence is SQL NULL where
    an empty vector has no data pointer ([binds_null]). Unsigned 64-bit integers go as
    NUMERIC text and decode from the text format only; every other type decodes from
    the binary format as well. Byte sequences are below 2^31 bytes, the largest size an
    [int] length holds, and numbers are of their C++ type's range ([field_value_ok]).
    Explicit placeholders bind nothing and are numbered from [$1] on their own. *)
Theorem compiled_parameters_decode native empty_data_null `{FloatParse} `{FloatText} e :
  exists p, compile_dynamic (H0 := pg_param_sink native empty_data_null) Sink empty_params e =
      Ok (fill (fun i _ => dollar i) 1 1 (template e), p) /\
    length (values p) = length (values_of (template e)) /\
    forall i x, values_of (template e) !! i = Some x -> field_value_ok x = true ->
      exists fv, echo p i = Some fv /\ Decodes native empty_data_null (carried x) fv.
Proof.
  set (sink := pg_param_sink native empty_data_null).
  exists (bind_all (H := sink) empty_params (values_of (template e))). split_and!.
  - unfold compile_dynamic. pose proof (visit_std (H := sink) Sink e empty_params) as Hv.
    rewrite (render_sink (H := sink)) in Hv. by rewrite Hv.
  - apply (bind_all_size (H := sink)).
  - intros i x Hx Hok. apply (bind_all_decodes native empty_data_null empty_params _ i x empty_params_wf Hx Hok).
Qed.

(** ** Text results *)

(** A text column with an integer decodes to it at every integer type whose range
    holds it, whatever the column's declared type, and throws at the others. *)
Theorem integer_text_decodes native z o :
  let tv := text_view (to_decimal_Z z) o in
  let expect lo hi := if decide (lo <= z <= hi)%Z then returns z
                      else throws (B "Failed to parse integer from: " ++ to_decimal_Z z) in
  decode_int16 native tv = expect (-32768)%Z 32767%Z /\ decode_int32 native tv = expect (-2147483648)%Z 2147483647%Z /\
  decode_int64 native tv = expect (-9223372036854775808)%Z 9223372036854775807%Z /\
  (0 <= z -> decode_uint16 native tv = expect 0 65535 /\ decode_uint32 native tv = expect 0 4294967295 /\
    decode_uint64 native tv = expect 0 18446744073709551615)%Z.
Proof. intros tv expect. split_and!; [..|intros Hz; split_and!]; (apply decode_decimal; done || lia). Qed.

Lemma hex_window_byte c : hex_window (hex_byte c) = Some c.
Proof. by destruct c as [[] [] [] [] [] [] [] []]. Qed.

Lemma read_memory_app s t : read_memory (s ++ t) (length s) = Some s.
Proof. unfold read_memory. rewrite length_app, decide_True by lia. by rewrite take_app_length. Qed.

Lemma hex_loop_spec fuel pre data rest acc :
  length data < fuel ->
  hex_loop fuel (pre ++ (data ≫= hex_byte) ++ rest) (length pre + 2 * length data) (length pre) acc = returns (acc ++ data).
Proof.
  revert fuel pre acc. induction data as [|c data IH]; intros [|fuel] pre acc Hf; cbn [hex_loop length] in *; try lia.
  - rewrite decide_True by lia. by rewrite app_nil_r.
  - rewrite decide_False by lia. rewrite drop_app_length. cbn [mbind list_bind]. rewrite <- app_assoc.
    change 2 with (length (hex_byte c)) at 2. rewrite read_memory_app. cbn [mbind option_bind]. rewrite hex_window_byte.
    specialize (IH fuel (pre ++ hex_byte c) (acc ++ [c]) ltac:(lia)). rewrite <- app_assoc, length_app in IH. simpl length in IH.
    rewrite <- app_assoc in IH. simpl in IH |- *. rewrite <- IH. f_equal; lia.
Qed.

Lemma length_hex data : length (data ≫= hex_byte) = 2 * length data.
Proof. induction data as [|c data IH]; [done|]. cbn [mbind list_bind length]. rewrite length_app. simpl. fold (data ≫= hex_byte). lia. Qed.

(** Byte sequences in the server's hexadecimal text format, the form the dialect's
    own literals use, decode to the bytes. *)
Theorem hex_bytea_roundtrip data body o :
  format_binary_data data = B "'" ++ body ++ B "'" -> decode_binary_vector (text_view body o) = returns data.
Proof.
  unfold format_binary_data. intros E. assert (body = B "\x" ++ (data ≫= hex_byte)) as ->.
  { change (B "'\x") with (B "'" ++ B "\x") in E. rewrite <- app_assoc in E. apply app_inv_head in E.
    rewrite app_assoc in E. by apply app_inv_tail in E. }
  pose proof (hex_loop_spec (S (2 * length data)) [] data [NUL] [] ltac:(lia)) as Hl. rewrite <- length_hex in Hl.
  unfold decode_binary_vector, decode_hex_bytea. rewrite as_sv_text. cbn [B text_view fv_ptr].
  revert Hl. generalize (data ≫= hex_byte). intros h Hl. cbn. by rewrite drop_0, Nat.sub_0_r.
Qed.

(** ** Memory safety *)
Definition oid_width (o : Z) : option nat :=
  if (o =? oid_bool)%Z || (o =? oid_char)%Z then Some 1
  else if (o =? oid_int2)%Z then Some 2
  else if (o =? oid_int4)%Z || (o =? oid_float4)%Z then Some 4
  else if (o =? oid_int8)%Z || (o =? oid_float8)%Z then Some 8
  else None.

Lemma hex_loop_defined fuel mem n i acc :
  n < length mem -> n - i < fuel -> is_Some (hex_loop fuel mem n i acc).
Proof.
  revert i acc. induction fuel as [|fuel IH]; intros i acc Hm Hf; [lia|]. cbn [hex_loop].
  destruct (decide (n <= i)); [by eexists|]. unfold read_memory. rewrite length_drop, decide_True by lia.
  cbn [mbind option_bind]. destruct (hex_window _); [apply IH; lia|by eexists].
Qed.

Lemma read_be_defined native fv w content :
  fv_ptr fv = content ++ [NUL] -> length content = w -> is_Some (read_be native fv w).
Proof.
  intros Hp Hl. unfold read_be, read_memory. rewrite Hp, length_app, decide_True by lia. by eexists.
Qed.

(** No decoder reads outside the column's memory, at any target type: the value is
    followed by its terminator, and the server sends binary values of the fixed
    width types at their width. That includes the two-byte window at the end of a
    hexadecimal text of odd length. *)
Theorem decode_in_bounds native `{FloatParse} t fv content :
  fv_ptr fv = content ++ [NUL] -> fv_len fv = length content ->
  (forall w, fv_format fv = format_binary -> oid_width (fv_oid fv) = Some w -> length content = w) ->
  is_Some (as_type native t fv).
Proof.
  intros Hp Hl Hw.
  assert (Hbe : forall w o, binary_of fv o = true -> oid_width o = Some w -> is_Some (read_be native fv w)).
  { intros w o [Hf Ho]%andb_true_iff Ew. eapply read_be_defined; [exact Hp|]. apply Hw; [lia|].
    by replace (fv_oid fv) with o by lia. }
  assert (Hlift : forall A (f : A -> FieldValue) (d : decoded A), is_Some d -> is_Some (lift f d)).
  { intros A f d [x ->]. by eexists. }
  assert (Hint : forall s lo hi, is_Some (decode_integer_text s lo hi fv)).
  { intros s lo hi. unfold decode_integer_text. by destruct (from_chars _ _ _ _) as [[? ?]|]; eexists. }
  unfold as_type. destruct (fv_is_null fv); destruct t; try by eexists. all: apply Hlift.
  - unfold decode_bool. rewrite Hp. destruct (binary_of fv oid_bool); [destruct content|]; by eexists.
  - unfold decode_char. rewrite Hp. destruct (binary_of fv oid_char); [destruct content|destruct (as_sv fv)]; by eexists.
  - unfold decode_int16. destruct (binary_of fv oid_int2) eqn:E; [|done]. destruct (Hbe 2 _ E eq_refl) as [x ->]. by eexists.
  - unfold decode_int32. destruct (binary_of fv oid_int4) eqn:E; [|done]. destruct (Hbe 4 _ E eq_refl) as [x ->]. by eexists.
  - unfold decode_int64. destruct (binary_of fv oid_int8) eqn:E; [|done]. destruct (Hbe 8 _ E eq_refl) as [x ->]. by eexists.
  - unfold decode_uint16. destruct (binary_of fv oid_int4) eqn:E; [destruct (Hbe 4 _ E eq_refl) as [x ->]; by eexists|].
    destruct (binary_of fv oid_int2) eqn:E'; [|done]. destruct (Hbe 2 _ E' eq_refl) as [x ->]. by eexists.
  - unfold decode_uint32. destruct (binary_of fv oid_int8) eqn:E; [destruct (Hbe 8 _ E eq_refl) as [x ->]; by eexists|].
    destruct (binary_of fv oid_int4) eqn:E'; [|done]. destruct (Hbe 4 _ E' eq_refl) as [x ->]. by eexists.
  - unfold decode_uint64. destruct (binary_of fv oid_int8) eqn:E; [|done]. destruct (Hbe 8 _ E eq_refl) as [x ->]. by eexists.
  - unfold decode_float. destruct (binary_of fv oid_float4) eqn:E; [destruct (Hbe 4 _ E eq_refl) as [x ->]; by eexists|].
    destruct (float_of_chars _); [by eexists|]. destruct (special_float _ _ _ _); by eexists.
  - unfold decode_double. destruct (binary_of fv oid_float8) eqn:E; [destruct (Hbe 8 _ E eq_refl) as [x ->]; by eexists|].
    destruct (double_of_chars _); [by eexists|]. destruct (special_float _ _ _ _); by eexists.
  - unfold decode_binary_vector. destruct (binary_of fv oid_bytea); [by eexists|]. unfold decode_hex_bytea.
    assert (Es : as_sv fv = content) by (unfold as_sv; by rewrite Hp, Hl, take_app_length).
    rewrite Es, Hp. destruct (starts_with _ content) eqn:E; [|by eexists]. apply starts_with_spec in E as [t ->].
    apply hex_loop_defined; rewrite ?length_drop, ?length_app; simpl; lia.
  - unfold decode_binary_span. destruct (binary_of fv oid_bytea); by eexists.
Qed.

(** ** Concrete parameters *)
Definition no_parse : FloatParse := {| float_of_chars _ := None; double_of_chars _ := None |}.

Lemma push_roundtrip_witness :
  let p := fst (push LittleEndian true empty_params (FvString (B "Ann"))) in
  exists fv, echo (fst (push LittleEndian true p (FvInt32 (-2)))) 1 = Some fv /\
    get LittleEndian (H := no_parse) TyInt32 fv = returns (Some (FvInt32 (-2))).
Proof.
  destruct (push_roundtrip LittleEndian true (H := no_parse) (fst (push LittleEndian true empty_params (FvString (B "Ann"))))
    (FvInt32 (-2))) as (_ & _ & _ & fv & He & Hd & _).
  - split; try reflexivity. repeat constructor.
  - reflexivity.
  - exists fv. split; [exact He|exact Hd].
Defined.

Lemma compiled_parameters_decode_witness :
  exists p, compile_dynamic (H := no_floats) (H0 := pg_param_sink BigEndian false) Sink empty_params (sample_query 18 (B "Ann")) =
      Ok (sample_sql, p) /\
    exists fv, echo p 1 = Some fv /\ get BigEndian (H := no_parse) TyString fv = returns (Some (FvString (B "Ann"))).
Proof.
  destruct (compiled_parameters_decode BigEndian false (H := no_parse) (H0 := no_floats) (sample_query 18 (B "Ann")))
    as (p & Hc & _ & Hd).
  exists p. split; [rewrite Hc; reflexivity|].
  destruct (Hd 1 (FvString (B "Ann")) eq_refl eq_refl) as (fv & He & Hg & _). exists fv. split; [exact He|exact Hg].
Defined.

Lemma integer_text_decodes_witness :
  decode_uint16 LittleEndian (text_view (B "65535") oid_numeric) = returns 65535%Z /\
  decode_uint16 LittleEndian (text_view (B "65536") oid_numeric) = throws (B "Failed to parse integer from: 65536").
Proof.
  split.
  - destruct (integer_text_decodes LittleEndian 65535 oid_numeric) as (_ & _ & _ & Hu). exact (proj1 (Hu ltac:(lia))).
  - destruct (integer_text_decodes LittleEndian 65536 oid_numeric) as (_ & _ & _ & Hu). exact (proj1 (Hu ltac:(lia))).
Defined.

Lemma hex_bytea_roundtrip_witness :
  decode_binary_vector (text_view (B "\x00ff5c") oid_bytea) = returns ["000"; "255"; "\"]%char.
Proof. apply (hex_bytea_roundtrip ["000"; "255"; "\"]%char (B "\x00ff5c") oid_bytea). reflexivity. Defined.

Lemma decode_in_bounds_witness :
  is_Some (as_type LittleEndian (H := no_parse) TyBytes (text_view (B "\x0") oid_bytea)) /\
  is_Some (as_type LittleEndian (H := no_parse) TyInt32 (binary_view (B "abcd") oid_int4)).
Proof.
  split.
  - by apply (decode_in_bounds LittleEndian (H := no_parse) TyBytes (text_view (B "\x0") oid_bytea) (B "\x0")).
  - apply (decode_in_bounds LittleEndian (H := no_parse) TyInt32 (binary_view (B "abcd") oid_int4) (B "abcd")); [done|done|].
    intros w _ [= <-]. done.
Defined.

(** Text that merely starts with an integer, or a hexadecimal text of odd length,
    is decoded without an error. *)
Example partial_text_accepted :
  decode_int32 LittleEndian (text_view (B "12.5") oid_numeric) = returns 12%Z /\
  decode_binary_vector (text_view (B "\xf") oid_bytea) = returns ["015"%char].
Proof. by vm_compute. Qed.

(** A string with an embedded NUL is cut there. *)
Example nul_truncates :
  exists fv, echo (fst (push LittleEndian true empty_params (FvString ["a"; "000"; "b"]%char))) 0 = Some fv /\
    get LittleEndian (H := no_parse) TyString fv = returns (Some (FvString (B "a"))).
Proof. eexists. by vm_compute. Qed.

(** A NUMERIC column in binary format (here the value 42) is not decoded: its bytes
    are taken for text. *)
Example binary_numeric_rejected :
  decode_uint64 LittleEndian (binary_view ["000"; "001"; "000"; "000"; "000"; "000"; "000"; "000"; "000"; "042"]%char oid_numeric) =
  throws (B "Failed to parse integer from: " ++ ["000"; "001"; "000"; "000"; "000"; "000"; "000"; "000"; "000"; "042"]%char).
Proof. by vm_compute. Qed.
