(* ===== verification/Errors.v ===== *)
(** * Error codes and their extraction from PostgreSQL results

    The three error enums and [ErrorCode] (base/errors/db_error_codes.hpp), the mapping
    of SQLSTATEs and result statuses to them (errors/detail/), and the extraction of
    errors from results and connections (postgres_errors). A [PGresult] or a [PGconn] is
    what libpq's accessors answer about it. *)

From stdpp Require Import finite.
From S2P Require Import Prelude.

(** ** The enums *)
(** Misuse, bad input or configuration on the client side. *)
Module ClientErrorCode.
Inductive t :=
  | Success | InvalidArgument | SyntaxError | InvalidParameter | TypeMismatch | NullConversion | InvalidCast
  | OutOfRange | ConfigurationError | ConnectionStringError | AuthenticationError | InvalidOption
  | MissingParameter | InvalidState | NotConnected | AlreadyConnected | TransactionActive | NoActiveTransaction
  | PoolExhausted | PoolShutdown | WaitTimeout.

#[global] Instance client_eq_dec : EqDecision t.
Proof. solve_decision. Defined.

Definition all : list t :=
  [Success; InvalidArgument; SyntaxError; InvalidParameter; TypeMismatch; NullConversion; InvalidCast;
  OutOfRange; ConfigurationError; ConnectionStringError; AuthenticationError; InvalidOption; MissingParameter;
  InvalidState; NotConnected; AlreadyConnected; TransactionActive; NoActiveTransaction; PoolExhausted;
  PoolShutdown; WaitTimeout].

#[global] Instance client_finite : Finite t.
Proof. refine {| enum := all |}; [by apply (bool_decide_unpack _)|by intros []; apply (bool_decide_unpack _)]. Defined.

Definition to_u16 (c : t) : N :=
  match c with
  | Success => 0%N | InvalidArgument => 100%N | SyntaxError => 101%N | InvalidParameter => 102%N
  | TypeMismatch => 103%N | NullConversion => 104%N | InvalidCast => 105%N | OutOfRange => 106%N
  | ConfigurationError => 200%N | ConnectionStringError => 201%N | AuthenticationError => 202%N
  | InvalidOption => 203%N | MissingParameter => 204%N | InvalidState => 300%N | NotConnected => 301%N
  | AlreadyConnected => 302%N | TransactionActive => 303%N | NoActiveTransaction => 304%N
  | PoolExhausted => 310%N | PoolShutdown => 311%N | WaitTimeout => 312%N
  end.

(** [static_cast] from a stored value, where it names an enumerator. *)
Definition of_u16 (v : N) : option t := find (fun c => to_u16 c =? v)%N all.

Definition to_string (c : t) : bytes :=
  B match c with
    | Success => "Success"
    | InvalidArgument => "InvalidArgument"
    | SyntaxError => "SyntaxError"
    | InvalidParameter => "InvalidParameter"
    | TypeMismatch => "TypeMismatch"
    | NullConversion => "NullConversion"
    | InvalidCast => "InvalidCast"
    | OutOfRange => "OutOfRange"
    | ConfigurationError => "ConfigurationError"
    | ConnectionStringError => "ConnectionStringError"
    | AuthenticationError => "AuthenticationError"
    | InvalidOption => "InvalidOption"
    | MissingParameter => "MissingParameter"
    | InvalidState => "InvalidState"
    | NotConnected => "NotConnected"
    | AlreadyConnected => "AlreadyConnected"
    | TransactionActive => "TransactionActive"
    | NoActiveTransaction => "NoActiveTransaction"
    | PoolExhausted => "PoolExhausted"
    | PoolShutdown => "PoolShutdown"
    | WaitTimeout => "WaitTimeout"
    end%string.

Definition get_description (c : t) : bytes :=
  B match c with
    | Success => "Operation completed successfully"
    | InvalidArgument => "Invalid argument provided to function"
    | SyntaxError => "SQL syntax error in query"
    | InvalidParameter => "Invalid parameter value"
    | TypeMismatch => "Type mismatch between expected and actual value"
    | NullConversion => "Attempted to convert NULL to non-nullable type"
    | InvalidCast => "Invalid type cast operation"
    | OutOfRange => "Value out of valid range"
    | ConfigurationError => "Database configuration error"
    | ConnectionStringError => "Invalid or malformed connection string"
    | AuthenticationError => "Authentication credentials invalid or missing"
    | InvalidOption => "Invalid configuration option"
    | MissingParameter => "Required parameter is missing"
    | InvalidState => "Operation invalid in current state"
    | NotConnected => "Not connected to database"
    | AlreadyConnected => "Already connected to database"
    | TransactionActive => "Transaction already active"
    | NoActiveTransaction => "No active transaction"
    | PoolExhausted => "Connection pool exhausted, no available connections"
    | PoolShutdown => "Connection pool has been shut down"
    | WaitTimeout => "Timed wait on a blocking pool expired before a connection became available"
    end%string.

End ClientErrorCode.

(** Errors the database server reports. *)
Module ServerErrorCode.
Inductive t :=
  | Success | RuntimeError | ConnectionError | ConnectionLost | ConnectionTimeout | ConnectionRefused
  | DeadlockDetected | LockTimeout | StatementTimeout | SerializationFailure | ConstraintViolation
  | UniqueViolation | ForeignKeyViolation | CheckViolation | NotNullViolation | ExclusionViolation | DataError
  | DataTooLong | NumericOverflow | DivisionByZero | InvalidDatetime | InvalidEncoding | InvalidTextFormat
  | AccessError | PermissionDenied | ObjectNotFound | DatabaseNotFound | TableNotFound | ColumnNotFound
  | SchemaNotFound | FunctionNotFound | ResourceError | OutOfMemory | DiskFull | TooManyConnections
  | ConfigurationLimit | QueryTooComplex | TransactionError | TransactionRollback | TransactionAborted
  | InvalidIsolationLevel.

#[global] Instance server_eq_dec : EqDecision t.
Proof. solve_decision. Defined.

Definition all : list t :=
  [Success; RuntimeError; ConnectionError; ConnectionLost; ConnectionTimeout; ConnectionRefused;
  DeadlockDetected; LockTimeout; StatementTimeout; SerializationFailure; ConstraintViolation; UniqueViolation;
  ForeignKeyViolation; CheckViolation; NotNullViolation; ExclusionViolation; DataError; DataTooLong;
  NumericOverflow; DivisionByZero; InvalidDatetime; InvalidEncoding; InvalidTextFormat; AccessError;
  PermissionDenied; ObjectNotFound; DatabaseNotFound; TableNotFound; ColumnNotFound; SchemaNotFound;
  FunctionNotFound; ResourceError; OutOfMemory; DiskFull; TooManyConnections; ConfigurationLimit;
  QueryTooComplex; TransactionError; TransactionRollback; TransactionAborted; InvalidIsolationLevel].

#[global] Instance server_finite : Finite t.
Proof. refine {| enum := all |}; [by apply (bool_decide_unpack _)|by intros []; apply (bool_decide_unpack _)]. Defined.

Definition to_u16 (c : t) : N :=
  match c with
  | Success => 0%N | RuntimeError => 100%N | ConnectionError => 110%N | ConnectionLost => 111%N
  | ConnectionTimeout => 112%N | ConnectionRefused => 113%N | DeadlockDetected => 120%N | LockTimeout => 121%N
  | StatementTimeout => 122%N | SerializationFailure => 123%N | ConstraintViolation => 200%N
  | UniqueViolation => 201%N | ForeignKeyViolation => 202%N | CheckViolation => 203%N
  | NotNullViolation => 204%N | ExclusionViolation => 205%N | DataError => 300%N | DataTooLong => 301%N
  | NumericOverflow => 302%N | DivisionByZero => 303%N | InvalidDatetime => 304%N | InvalidEncoding => 305%N
  | InvalidTextFormat => 306%N | AccessError => 400%N | PermissionDenied => 401%N | ObjectNotFound => 402%N
  | DatabaseNotFound => 403%N | TableNotFound => 404%N | ColumnNotFound => 405%N | SchemaNotFound => 406%N
  | FunctionNotFound => 407%N | ResourceError => 500%N | OutOfMemory => 501%N | DiskFull => 502%N
  | TooManyConnections => 503%N | ConfigurationLimit => 504%N | QueryTooComplex => 505%N
  | TransactionError => 600%N | TransactionRollback => 601%N | TransactionAborted => 602%N
  | InvalidIsolationLevel => 603%N
  end.

(** [static_cast] from a stored value, where it names an enumerator. *)
Definition of_u16 (v : N) : option t := find (fun c => to_u16 c =? v)%N all.

Definition to_string (c : t) : bytes :=
  B match c with
    | Success => "Success"
    | RuntimeError => "RuntimeError"
    | ConnectionError => "ConnectionError"
    | ConnectionLost => "ConnectionLost"
    | ConnectionTimeout => "ConnectionTimeout"
    | ConnectionRefused => "ConnectionRefused"
    | DeadlockDetected => "DeadlockDetected"
    | LockTimeout => "LockTimeout"
    | StatementTimeout => "StatementTimeout"
    | SerializationFailure => "SerializationFailure"
    | ConstraintViolation => "ConstraintViolation"
    | UniqueViolation => "UniqueViolation"
    | ForeignKeyViolation => "ForeignKeyViolation"
    | CheckViolation => "CheckViolation"
    | NotNullViolation => "NotNullViolation"
    | ExclusionViolation => "ExclusionViolation"
    | DataError => "DataError"
    | DataTooLong => "DataTooLong"
    | NumericOverflow => "NumericOverflow"
    | DivisionByZero => "DivisionByZero"
    | InvalidDatetime => "InvalidDatetime"
    | InvalidEncoding => "InvalidEncoding"
    | InvalidTextFormat => "InvalidTextFormat"
    | AccessError => "AccessError"
    | PermissionDenied => "PermissionDenied"
    | ObjectNotFound => "ObjectNotFound"
    | DatabaseNotFound => "DatabaseNotFound"
    | TableNotFound => "TableNotFound"
    | ColumnNotFound => "ColumnNotFound"
    | SchemaNotFound => "SchemaNotFound"
    | FunctionNotFound => "FunctionNotFound"
    | ResourceError => "ResourceError"
    | OutOfMemory => "OutOfMemory"
    | DiskFull => "DiskFull"
    | TooManyConnections => "TooManyConnections"
    | ConfigurationLimit => "ConfigurationLimit"
    | QueryTooComplex => "QueryTooComplex"
    | TransactionError => "TransactionError"
    | TransactionRollback => "TransactionRollback"
    | TransactionAborted => "TransactionAborted"
    | InvalidIsolationLevel => "InvalidIsolationLevel"
    end%string.

Definition get_description (c : t) : bytes :=
  B match c with
    | Success => "Operation completed successfully"
    | RuntimeError => "Runtime error on database server"
    | ConnectionError => "Error establishing connection to database"
    | ConnectionLost => "Connection to database was lost"
    | ConnectionTimeout => "Connection attempt timed out"
    | ConnectionRefused => "Connection refused by database server"
    | DeadlockDetected => "Deadlock detected, transaction aborted"
    | LockTimeout => "Timeout waiting for lock"
    | StatementTimeout => "Statement execution timeout"
    | SerializationFailure => "Transaction serialization failure"
    | ConstraintViolation => "Database constraint violation"
    | UniqueViolation => "Unique constraint violation"
    | ForeignKeyViolation => "Foreign key constraint violation"
    | CheckViolation => "Check constraint violation"
    | NotNullViolation => "NOT NULL constraint violation"
    | ExclusionViolation => "Exclusion constraint violation"
    | DataError => "Data error in query or result"
    | DataTooLong => "Data too long for column"
    | NumericOverflow => "Numeric value overflow"
    | DivisionByZero => "Division by zero"
    | InvalidDatetime => "Invalid datetime value"
    | InvalidEncoding => "Invalid character encoding"
    | InvalidTextFormat => "Invalid text representation"
    | AccessError => "Database access error"
    | PermissionDenied => "Permission denied for operation"
    | ObjectNotFound => "Database object not found"
    | DatabaseNotFound => "Database does not exist"
    | TableNotFound => "Table does not exist"
    | ColumnNotFound => "Column does not exist"
    | SchemaNotFound => "Schema does not exist"
    | FunctionNotFound => "Function does not exist"
    | ResourceError => "Database resource error"
    | OutOfMemory => "Database server out of memory"
    | DiskFull => "Database disk full"
    | TooManyConnections => "Too many database connections"
    | ConfigurationLimit => "Database configuration limit exceeded"
    | QueryTooComplex => "Query too complex to execute"
    | TransactionError => "Transaction error"
    | TransactionRollback => "Transaction rolled back"
    | TransactionAborted => "Transaction aborted"
    | InvalidIsolationLevel => "Invalid transaction isolation level"
    end%string.

End ServerErrorCode.

(** Corruption and broken invariants. *)
Module FatalErrorCode.
Inductive t :=
  | InternalError | CorruptionDetected | ProtocolViolation | AssertionFailure | UnexpectedState.

#[global] Instance fatal_eq_dec : EqDecision t.
Proof. solve_decision. Defined.

Definition all : list t :=
  [InternalError; CorruptionDetected; ProtocolViolation; AssertionFailure; UnexpectedState].

#[global] Instance fatal_finite : Finite t.
Proof. refine {| enum := all |}; [by apply (bool_decide_unpack _)|by intros []; apply (bool_decide_unpack _)]. Defined.

Definition to_u16 (c : t) : N :=
  match c with
  | InternalError => 1%N | CorruptionDetected => 2%N | ProtocolViolation => 3%N | AssertionFailure => 4%N
  | UnexpectedState => 5%N
  end.

(** [static_cast] from a stored value, where it names an enumerator. *)
Definition of_u16 (v : N) : option t := find (fun c => to_u16 c =? v)%N all.

Definition to_string (c : t) : bytes :=
  B match c with
    | InternalError => "InternalError"
    | CorruptionDetected => "CorruptionDetected"
    | ProtocolViolation => "ProtocolViolation"
    | AssertionFailure => "AssertionFailure"
    | UnexpectedState => "UnexpectedState"
    end%string.

Definition get_description (c : t) : bytes :=
  B match c with
    | InternalError => "Internal database driver error"
    | CorruptionDetected => "Data corruption detected"
    | ProtocolViolation => "Database protocol violation"
    | AssertionFailure => "Internal assertion failed"
    | UnexpectedState => "Unexpected internal state"
    end%string.

End FatalErrorCode.

(** ** [ErrorCode] *)
Inductive Category := CatSuccess | CatClient | CatServer | CatFatal.

#[global] Instance category_eq_dec : EqDecision Category.
Proof. solve_decision. Defined.

Record ErrorCode := { category : Category; value : N }.

#[global] Instance error_code_eq_dec : EqDecision ErrorCode.
Proof. solve_decision. Defined.

Definition success : ErrorCode := {| category := CatSuccess; value := 0 |}.
Definition client (c : ClientErrorCode.t) : ErrorCode := {| category := CatClient; value := ClientErrorCode.to_u16 c |}.
Definition server (c : ServerErrorCode.t) : ErrorCode := {| category := CatServer; value := ServerErrorCode.to_u16 c |}.
Definition fatal (c : FatalErrorCode.t) : ErrorCode := {| category := CatFatal; value := FatalErrorCode.to_u16 c |}.

Definition is_success (e : ErrorCode) : bool := bool_decide (category e = CatSuccess).
Definition is_client_error (e : ErrorCode) : bool := bool_decide (category e = CatClient).
Definition is_server_error (e : ErrorCode) : bool := bool_decide (category e = CatServer).
Definition is_fatal_error (e : ErrorCode) : bool := bool_decide (category e = CatFatal).

Definition is_retryable (e : ErrorCode) : bool :=
  (if is_server_error e then
    let code := value e in
    if (100 <=? code) && (code <? 200) then true else
    if (500 <=? code) && (code <? 600) then true else
    if (600 <=? code) && (code <? 700) then (code =? 601) || (code =? 602) else false
  else false)%N.

Definition category_name (e : ErrorCode) : bytes :=
  B match category e with CatSuccess => "success" | CatClient => "client" | CatServer => "server" | CatFatal => "fatal" end%string.

Definition as_client_error (e : ErrorCode) : option ClientErrorCode.t :=
  if is_client_error e then ClientErrorCode.of_u16 (value e) else None.
Definition as_server_error (e : ErrorCode) : option ServerErrorCode.t :=
  if is_server_error e then ServerErrorCode.of_u16 (value e) else None.
Definition as_fatal_error (e : ErrorCode) : option FatalErrorCode.t :=
  if is_fatal_error e then FatalErrorCode.of_u16 (value e) else None.

Definition error_code_eqb (a b : ErrorCode) : bool := bool_decide (category a = category b) && (value a =? value b)%N.
Definition eq_client (e : ErrorCode) (c : ClientErrorCode.t) : bool := is_client_error e && (value e =? ClientErrorCode.to_u16 c)%N.
Definition eq_server (e : ErrorCode) (c : ServerErrorCode.t) : bool := is_server_error e && (value e =? ServerErrorCode.to_u16 c)%N.
Definition eq_fatal (e : ErrorCode) (c : FatalErrorCode.t) : bool := is_fatal_error e && (value e =? FatalErrorCode.to_u16 c)%N.

(** [None] is [std::unreachable]: a value that names no enumerator. *)
Definition name (e : ErrorCode) : option bytes :=
  match category e with
  | CatSuccess => Some (B "Success")
  | CatClient => ClientErrorCode.to_string <$> ClientErrorCode.of_u16 (value e)
  | CatServer => ServerErrorCode.to_string <$> ServerErrorCode.of_u16 (value e)
  | CatFatal => FatalErrorCode.to_string <$> FatalErrorCode.of_u16 (value e)
  end.

Definition description (e : ErrorCode) : option bytes :=
  match category e with
  | CatSuccess => Some (B "Operation completed successfully")
  | CatClient => ClientErrorCode.get_description <$> ClientErrorCode.of_u16 (value e)
  | CatServer => ServerErrorCode.get_description <$> ServerErrorCode.of_u16 (value e)
  | CatFatal => FatalErrorCode.get_description <$> FatalErrorCode.of_u16 (value e)
  end.

(** ** SQLSTATE

    The refinement of each class that has one, then the dispatch. *)
Definition class_08 (sqlstate : bytes) : ErrorCode :=
  let state (s : string) := bool_decide (sqlstate = B s) in
  if state "08000" then server ServerErrorCode.ConnectionError else
  if state "08003" then client ClientErrorCode.NotConnected else
  if state "08006" then server ServerErrorCode.ConnectionLost else
  if state "08P01" then fatal FatalErrorCode.ProtocolViolation else
  server ServerErrorCode.ConnectionError.

Definition class_22 (sqlstate : bytes) : ErrorCode :=
  let state (s : string) := bool_decide (sqlstate = B s) in
  if state "22000" then server ServerErrorCode.DataError else
  if state "22001" then server ServerErrorCode.DataTooLong else
  if state "22003" then server ServerErrorCode.NumericOverflow else
  if state "22007" then server ServerErrorCode.InvalidDatetime else
  if state "22008" then server ServerErrorCode.InvalidDatetime else
  if state "22012" then server ServerErrorCode.DivisionByZero else
  if state "22P02" then server ServerErrorCode.InvalidTextFormat else
  if state "22P03" then server ServerErrorCode.InvalidEncoding else
  if state "22P04" then server ServerErrorCode.InvalidTextFormat else
  server ServerErrorCode.DataError.

Definition class_23 (sqlstate : bytes) : ErrorCode :=
  let state (s : string) := bool_decide (sqlstate = B s) in
  if state "23000" then server ServerErrorCode.ConstraintViolation else
  if state "23001" then server ServerErrorCode.ConstraintViolation else
  if state "23502" then server ServerErrorCode.NotNullViolation else
  if state "23503" then server ServerErrorCode.ForeignKeyViolation else
  if state "23505" then server ServerErrorCode.UniqueViolation else
  if state "23514" then server ServerErrorCode.CheckViolation else
  if state "23P01" then server ServerErrorCode.ExclusionViolation else
  server ServerErrorCode.ConstraintViolation.

Definition class_25 (sqlstate : bytes) : ErrorCode :=
  let state (s : string) := bool_decide (sqlstate = B s) in
  if state "25001" then client ClientErrorCode.TransactionActive else
  if state "25P01" then client ClientErrorCode.NoActiveTransaction else
  if state "25P02" then client ClientErrorCode.TransactionActive else
  if state "25P03" then client ClientErrorCode.NoActiveTransaction else
  client ClientErrorCode.InvalidState.

Definition class_40 (sqlstate : bytes) : ErrorCode :=
  let state (s : string) := bool_decide (sqlstate = B s) in
  if state "40001" then server ServerErrorCode.SerializationFailure else
  if state "40002" then server ServerErrorCode.TransactionAborted else
  if state "40003" then server ServerErrorCode.TransactionAborted else
  if state "40P01" then server ServerErrorCode.DeadlockDetected else
  server ServerErrorCode.TransactionRollback.

Definition class_42 (sqlstate : bytes) : ErrorCode :=
  let state (s : string) := bool_decide (sqlstate = B s) in
  if state "42501" then server ServerErrorCode.PermissionDenied else
  if state "42601" then client ClientErrorCode.SyntaxError else
  if state "42703" then server ServerErrorCode.ColumnNotFound else
  if state "42704" then server ServerErrorCode.ObjectNotFound else
  if state "42804" || state "42846" || state "42P18" then client ClientErrorCode.TypeMismatch else
  if state "42830" then server ServerErrorCode.PermissionDenied else
  if state "42883" then server ServerErrorCode.FunctionNotFound else
  if state "42P01" then server ServerErrorCode.TableNotFound else
  if state "42P02" then client ClientErrorCode.InvalidParameter else
  if state "42P04" then server ServerErrorCode.DatabaseNotFound else
  if state "42P06" || state "42P15" then server ServerErrorCode.SchemaNotFound else
  client ClientErrorCode.SyntaxError.

Definition class_53 (sqlstate : bytes) : ErrorCode :=
  let state (s : string) := bool_decide (sqlstate = B s) in
  if state "53100" then server ServerErrorCode.DiskFull else
  if state "53200" then server ServerErrorCode.OutOfMemory else
  if state "53300" then server ServerErrorCode.TooManyConnections else
  if state "53400" then server ServerErrorCode.ConfigurationLimit else
  server ServerErrorCode.ResourceError.

Definition class_54 (sqlstate : bytes) : ErrorCode :=
  let state (s : string) := bool_decide (sqlstate = B s) in
  if state "54001" then server ServerErrorCode.QueryTooComplex else
  if state "54011" || state "54023" then server ServerErrorCode.TooManyConnections else
  server ServerErrorCode.ConfigurationLimit.

Definition class_55 (sqlstate : bytes) : ErrorCode :=
  let state (s : string) := bool_decide (sqlstate = B s) in
  if state "55P02" || state "55P03" then server ServerErrorCode.LockTimeout else
  client ClientErrorCode.InvalidState.

Definition class_57 (sqlstate : bytes) : ErrorCode :=
  let state (s : string) := bool_decide (sqlstate = B s) in
  if state "57014" then server ServerErrorCode.StatementTimeout else
  if starts_with (B "57P") sqlstate then server ServerErrorCode.ConnectionError else
  server ServerErrorCode.RuntimeError.

Definition class_58 (sqlstate : bytes) : ErrorCode :=
  let state (s : string) := bool_decide (sqlstate = B s) in
  if state "58030" then fatal FatalErrorCode.CorruptionDetected else
  fatal FatalErrorCode.InternalError.

Definition class_P0 (sqlstate : bytes) : ErrorCode :=
  let state (s : string) := bool_decide (sqlstate = B s) in
  if state "P0002" then server ServerErrorCode.ObjectNotFound else
  if state "P0003" then server ServerErrorCode.DataError else
  if state "P0004" then client ClientErrorCode.InvalidParameter else
  server ServerErrorCode.RuntimeError.

Definition class_XX (sqlstate : bytes) : ErrorCode :=
  let state (s : string) := bool_decide (sqlstate = B s) in
  if state "XX001" || state "XX002" then fatal FatalErrorCode.CorruptionDetected else
  fatal FatalErrorCode.InternalError.

Definition map_sqlstate (sqlstate : bytes) : option ErrorCode :=
  if bool_decide (sqlstate = []) || bool_decide (sqlstate = B "00000") then None else
  let error_class := substr sqlstate 0 2 in
  let class (c : string) := bool_decide (error_class = B c) in
  if class "00" then None else
  if class "08" then Some (class_08 sqlstate) else
  if class "0A" then Some (client ClientErrorCode.InvalidOption) else
  if class "20" then Some (server ServerErrorCode.ObjectNotFound) else
  if class "21" then Some (server ServerErrorCode.DataError) else
  if class "22" then Some (class_22 sqlstate) else
  if class "23" then Some (class_23 sqlstate) else
  if class "24" then Some (client ClientErrorCode.InvalidState) else
  if class "25" then Some (class_25 sqlstate) else
  if class "26" then Some (client ClientErrorCode.InvalidArgument) else
  if class "28" then Some (client ClientErrorCode.AuthenticationError) else
  if class "2B" then Some (server ServerErrorCode.ConstraintViolation) else
  if class "2D" then Some (server ServerErrorCode.TransactionError) else
  if class "2F" then Some (server ServerErrorCode.RuntimeError) else
  if class "34" then Some (client ClientErrorCode.InvalidArgument) else
  if class "38" then Some (server ServerErrorCode.RuntimeError) else
  if class "39" then Some (server ServerErrorCode.RuntimeError) else
  if class "3B" then Some (server ServerErrorCode.TransactionError) else
  if class "3D" then Some (server ServerErrorCode.DatabaseNotFound) else
  if class "3F" then Some (server ServerErrorCode.SchemaNotFound) else
  if class "40" then Some (class_40 sqlstate) else
  if class "42" then Some (class_42 sqlstate) else
  if class "44" then Some (server ServerErrorCode.CheckViolation) else
  if class "53" then Some (class_53 sqlstate) else
  if class "54" then Some (class_54 sqlstate) else
  if class "55" then Some (class_55 sqlstate) else
  if class "57" then Some (class_57 sqlstate) else
  if class "58" then Some (class_58 sqlstate) else
  if class "F0" then Some (client ClientErrorCode.ConfigurationError) else
  if class "HV" then Some (server ServerErrorCode.RuntimeError) else
  if class "P0" then Some (class_P0 sqlstate) else
  if class "XX" then Some (class_XX sqlstate) else
  Some (fatal FatalErrorCode.UnexpectedState).

(** ** Results and connections of libpq *)
Inductive ExecStatusType :=
| PGRES_EMPTY_QUERY | PGRES_COMMAND_OK | PGRES_TUPLES_OK | PGRES_COPY_OUT | PGRES_COPY_IN | PGRES_BAD_RESPONSE
| PGRES_NONFATAL_ERROR | PGRES_FATAL_ERROR | PGRES_COPY_BOTH | PGRES_SINGLE_TUPLE | PGRES_PIPELINE_SYNC
| PGRES_PIPELINE_ABORTED | PGRES_TUPLES_CHUNK | PGRES_other (n : N).

(** What [PQresultStatus], [PQresultErrorField] and [PQresultErrorMessage] answer. *)
Record PGresult := {
  status : ExecStatusType;
  diag_sqlstate : option bytes;
  error_message : option bytes;
  diag_detail : option bytes;
  diag_hint : option bytes;
  diag_context : option bytes;
  diag_position : option bytes
}.

Definition map_exec_status (s : ExecStatusType) : option ErrorCode :=
  match s with
  | PGRES_EMPTY_QUERY => Some (client ClientErrorCode.InvalidArgument)
  | PGRES_COMMAND_OK | PGRES_TUPLES_OK | PGRES_COPY_OUT | PGRES_COPY_IN | PGRES_COPY_BOTH | PGRES_SINGLE_TUPLE
  | PGRES_PIPELINE_SYNC | PGRES_TUPLES_CHUNK => None
  | PGRES_PIPELINE_ABORTED => Some (server ServerErrorCode.TransactionAborted)
  | PGRES_BAD_RESPONSE => Some (fatal FatalErrorCode.ProtocolViolation)
  | PGRES_NONFATAL_ERROR | PGRES_FATAL_ERROR => Some (server ServerErrorCode.RuntimeError)
  | PGRES_other _ => Some (fatal FatalErrorCode.UnexpectedState)
  end.

Definition is_success_status (s : ExecStatusType) : bool :=
  match s with
  | PGRES_COMMAND_OK | PGRES_TUPLES_OK | PGRES_COPY_OUT | PGRES_COPY_IN | PGRES_COPY_BOTH | PGRES_SINGLE_TUPLE
  | PGRES_PIPELINE_SYNC => true
  | _ => false
  end.

Record ErrorContext := {
  code : ErrorCode;
  sqlstate : bytes;
  message : bytes;
  detail : bytes;
  hint : bytes;
  context : bytes;
  position : option Z
}.

Definition error_context (e : ErrorCode) : ErrorContext :=
  {| code := e; sqlstate := []; message := []; detail := []; hint := []; context := []; position := None |}.

Definition has_error (c : ErrorContext) : bool := negb (is_success (code c)).

(** [None] where [name] would be undefined. *)
Definition format (c : ErrorContext) : option bytes :=
  if negb (has_error c) then Some (B "Success") else
  n ← name (code c);
  let line (label text : bytes) := if bool_decide (text = []) then [] else "010"%char :: label ++ text in
  Some (B "[" ++ n ++ B "] " ++
        (if bool_decide (sqlstate c = []) then [] else B "SQLSTATE " ++ sqlstate c ++ B ": ") ++
        message c ++ line (B "Detail: ") (detail c) ++ line (B "Hint: ") (hint c) ++ line (B "Context: ") (context c) ++
        match position c with Some p => "010"%char :: B "Position: " ++ to_decimal_Z p | None => [] end).

(** [std::from_chars] into an [int]: the position is set only when it parses. *)
Definition parse_position (pos : option bytes) : option Z :=
  p ← pos; fst <$> from_chars true (-2147483648) 2147483647 p.

(** A null result is [None]. *)
Definition extract_error (result : option PGresult) : option ErrorContext :=
  match result with
  | None => Some (error_context (fatal FatalErrorCode.UnexpectedState))
  | Some r =>
      if is_success_status (status r) then None else
      c ← match diag_sqlstate r with Some s => map_sqlstate s | None => map_exec_status (status r) end;
      let text := default [] in
      Some {| code := c; sqlstate := text (diag_sqlstate r); message := text (error_message r); detail := text (diag_detail r);
              hint := text (diag_hint r); context := text (diag_context r); position := parse_position (diag_position r) |}
  end.

Definition extract_error_code (result : option PGresult) : option ErrorCode :=
  match result with
  | None => Some (fatal FatalErrorCode.UnexpectedState)
  | Some r =>
      if is_success_status (status r) then None else
      match diag_sqlstate r with Some s => map_sqlstate s | None => map_exec_status (status r) end
  end.

Inductive ConnStatusType :=
| CONNECTION_OK | CONNECTION_BAD | CONNECTION_STARTED | CONNECTION_MADE | CONNECTION_AWAITING_RESPONSE | CONNECTION_AUTH_OK
| CONNECTION_SETENV | CONNECTION_SSL_STARTUP | CONNECTION_NEEDED | CONNECTION_CHECK_WRITABLE | CONNECTION_CONSUME
| CONNECTION_GSS_STARTUP | CONNECTION_CHECK_TARGET | CONNECTION_CHECK_STANDBY | CONNECTION_ALLOCATED
| CONNECTION_AUTHENTICATING | CONNECTION_other (n : N).

#[global] Instance conn_status_eq_dec : EqDecision ConnStatusType.
Proof. solve_decision. Defined.

(** What [PQstatus] and [PQerrorMessage] answer. *)
Record PGconn := { conn_status : ConnStatusType; conn_error : option bytes }.

Definition extract_connection_error (conn : option PGconn) : ErrorContext :=
  match conn with
  | None => error_context (client ClientErrorCode.NotConnected)
  | Some c =>
      {| code := if bool_decide (conn_status c = CONNECTION_BAD) then server ServerErrorCode.ConnectionLost
                 else server ServerErrorCode.RuntimeError;
         sqlstate := [];
         message := match conn_error c with Some (ch :: m) => ch :: m | _ => B "Unknown connection error" end;
         detail := []; hint := []; context := []; position := None |}
  end.

Definition check_connection (conn : option PGconn) : ErrorCode :=
  match conn with
  | None => client ClientErrorCode.NotConnected
  | Some c =>
      match conn_status c with
      | CONNECTION_OK => success
      | CONNECTION_BAD => server ServerErrorCode.ConnectionLost
      | CONNECTION_other _ => fatal FatalErrorCode.UnexpectedState
      | _ => client ClientErrorCode.InvalidState
      end
  end.

(** ** The exception hierarchy

    The classes of db_exceptions.hpp, their bases and their overrides of the two virtual
    functions. *)
Module Exceptions.
Inductive t :=
  | database_exception | client_error | invalid_argument_error | syntax_error | invalid_parameter_error
  | type_mismatch_error | null_conversion_error | configuration_error | connection_string_error
  | authentication_error | server_error | runtime_error | connection_error | connection_lost_error
  | connection_timeout_error | deadlock_error | lock_timeout_error | constraint_error | unique_violation_error
  | foreign_key_violation_error | check_violation_error | not_null_violation_error | data_error
  | data_too_long_error | numeric_overflow_error | division_by_zero_error | access_error
  | permission_denied_error | object_not_found_error | resource_error | out_of_memory_error | disk_full_error
  | too_many_connections_error | fatal_error | internal_error | corruption_error.

#[global] Instance exception_eq_dec : EqDecision t.
Proof. solve_decision. Defined.

Definition all : list t :=
  [database_exception; client_error; invalid_argument_error; syntax_error; invalid_parameter_error;
  type_mismatch_error; null_conversion_error; configuration_error; connection_string_error;
  authentication_error; server_error; runtime_error; connection_error; connection_lost_error;
  connection_timeout_error; deadlock_error; lock_timeout_error; constraint_error; unique_violation_error;
  foreign_key_violation_error; check_violation_error; not_null_violation_error; data_error;
  data_too_long_error; numeric_overflow_error; division_by_zero_error; access_error; permission_denied_error;
  object_not_found_error; resource_error; out_of_memory_error; disk_full_error; too_many_connections_error;
  fatal_error; internal_error; corruption_error].

#[global] Instance exception_finite : Finite t.
Proof. refine {| enum := all |}; [by apply (bool_decide_unpack _)|by intros []; apply (bool_decide_unpack _)]. Defined.

Definition base (c : t) : option t :=
  match c with
  | database_exception => None
  | client_error | server_error | fatal_error => Some database_exception
  | invalid_argument_error | configuration_error => Some client_error
  | syntax_error | invalid_parameter_error | type_mismatch_error
  | null_conversion_error => Some invalid_argument_error
  | connection_string_error | authentication_error => Some configuration_error
  | runtime_error | constraint_error | data_error | access_error | resource_error => Some server_error
  | connection_error | deadlock_error | lock_timeout_error => Some runtime_error
  | connection_lost_error | connection_timeout_error => Some connection_error
  | unique_violation_error | foreign_key_violation_error | check_violation_error
  | not_null_violation_error => Some constraint_error
  | data_too_long_error | numeric_overflow_error | division_by_zero_error => Some data_error
  | permission_denied_error | object_not_found_error => Some access_error
  | out_of_memory_error | disk_full_error | too_many_connections_error => Some resource_error
  | internal_error | corruption_error => Some fatal_error
  end.

(** The bases of a class, itself first: the chain a virtual call looks through. *)
Fixpoint chain (fuel : nat) (c : t) : list t :=
  c :: match fuel, base c with S fuel, Some b => chain fuel b | _, _ => [] end.

Definition bases (c : t) : list t := chain 4 c.

Definition overrides_retryable (c : t) : option bool :=
  match c with database_exception => Some false | runtime_error | resource_error => Some true | _ => None end.

Definition is_retryable (c : t) : bool := default false (head (omap overrides_retryable (bases c))).

(** Pure virtual in the root, overridden by every other class. *)
Definition category (c : t) : option bytes :=
  B <$> match c with
    | database_exception => None
    | client_error => Some "client"
    | invalid_argument_error => Some "client.invalid_argument"
    | syntax_error => Some "client.invalid_argument.syntax"
    | invalid_parameter_error => Some "client.invalid_argument.parameter"
    | type_mismatch_error => Some "client.invalid_argument.type"
    | null_conversion_error => Some "client.invalid_argument.null_conversion"
    | configuration_error => Some "client.configuration"
    | connection_string_error => Some "client.configuration.connection_string"
    | authentication_error => Some "client.configuration.auth"
    | server_error => Some "server"
    | runtime_error => Some "server.runtime"
    | connection_error => Some "server.runtime.connection"
    | connection_lost_error => Some "server.runtime.connection.lost"
    | connection_timeout_error => Some "server.runtime.connection.timeout"
    | deadlock_error => Some "server.runtime.deadlock"
    | lock_timeout_error => Some "server.runtime.lock_timeout"
    | constraint_error => Some "server.constraint"
    | unique_violation_error => Some "server.constraint.unique"
    | foreign_key_violation_error => Some "server.constraint.foreign_key"
    | check_violation_error => Some "server.constraint.check"
    | not_null_violation_error => Some "server.constraint.not_null"
    | data_error => Some "server.data"
    | data_too_long_error => Some "server.data.too_long"
    | numeric_overflow_error => Some "server.data.overflow"
    | division_by_zero_error => Some "server.data.division_by_zero"
    | access_error => Some "server.access"
    | permission_denied_error => Some "server.access.permission"
    | object_not_found_error => Some "server.access.not_found"
    | resource_error => Some "server.resource"
    | out_of_memory_error => Some "server.resource.memory"
    | disk_full_error => Some "server.resource.disk"
    | too_many_connections_error => Some "server.resource.connections"
    | fatal_error => Some "fatal"
    | internal_error => Some "fatal.internal"
    | corruption_error => Some "fatal.corruption"
    end%string.

End Exceptions.

(** ** Well-formed codes

    The codes a constructor of [ErrorCode] can build; the stored value then names an
    enumerator, so no [static_cast] back leaves the enum. *)
Inductive constructed : ErrorCode -> Prop :=
| constructed_success : constructed success
| constructed_client c : constructed (client c)
| constructed_server c : constructed (server c)
| constructed_fatal c : constructed (fatal c).
#[export] Hint Constructors constructed : core.

Lemma client_of_to c : ClientErrorCode.of_u16 (ClientErrorCode.to_u16 c) = Some c.
Proof. by destruct c. Qed.
Lemma server_of_to c : ServerErrorCode.of_u16 (ServerErrorCode.to_u16 c) = Some c.
Proof. by destruct c. Qed.
Lemma fatal_of_to c : FatalErrorCode.of_u16 (FatalErrorCode.to_u16 c) = Some c.
Proof. by destruct c. Qed.

#[export] Instance client_to_inj : Inj (=) (=) ClientErrorCode.to_u16.
Proof. intros a b H. apply (inj Some). by rewrite <- !client_of_to, H. Qed.
#[export] Instance server_to_inj : Inj (=) (=) ServerErrorCode.to_u16.
Proof. intros a b H. apply (inj Some). by rewrite <- !server_of_to, H. Qed.
#[export] Instance fatal_to_inj : Inj (=) (=) FatalErrorCode.to_u16.
Proof. intros a b H. apply (inj Some). by rewrite <- !fatal_of_to, H. Qed.

#[export] Instance client_inj : Inj (=) (=) client.
Proof. intros a b [= H]. by apply (inj ClientErrorCode.to_u16). Qed.
#[export] Instance server_inj : Inj (=) (=) server.
Proof. intros a b [= H]. by apply (inj ServerErrorCode.to_u16). Qed.
#[export] Instance fatal_inj : Inj (=) (=) fatal.
Proof. intros a b [= H]. by apply (inj FatalErrorCode.to_u16). Qed.

(** The printed names tell the enumerators of one enum apart. *)
#[export] Instance client_string_inj : Inj (=) (=) ClientErrorCode.to_string.
Proof. intros a b. revert b a. by apply (bool_decide_unpack _); vm_compute. Qed.
#[export] Instance server_string_inj : Inj (=) (=) ServerErrorCode.to_string.
Proof. intros a b. revert b a. by apply (bool_decide_unpack _); vm_compute. Qed.
#[export] Instance fatal_string_inj : Inj (=) (=) FatalErrorCode.to_string.
Proof. intros a b. revert b a. by apply (bool_decide_unpack _); vm_compute. Qed.

Lemma error_code_eqb_spec a b : error_code_eqb a b = true <-> a = b.
Proof.
  unfold error_code_eqb. rewrite andb_true_iff, bool_decide_eq_true, N.eqb_eq.
  split; [destruct a, b; cbn; intros []; by subst|by intros ->].
Qed.

Lemma as_client_self c : as_client_error (client c) = Some c.
Proof. apply client_of_to. Qed.
Lemma as_server_self c : as_server_error (server c) = Some c.
Proof. apply server_of_to. Qed.
Lemma as_fatal_self c : as_fatal_error (fatal c) = Some c.
Proof. apply fatal_of_to. Qed.

Lemma typed_access e : constructed e ->
  (forall c, as_client_error e = Some c <-> e = client c) /\ (forall c, as_server_error e = Some c <-> e = server c) /\
  (forall c, as_fatal_error e = Some c <-> e = fatal c).
Proof.
  intros []; split_and!; intros d; rewrite ?as_client_self, ?as_server_self, ?as_fatal_self; split; intros H;
    try discriminate H; by simplify_eq.
Qed.

Lemma typed_equality e : constructed e ->
  (forall c, eq_client e c = true <-> e = client c) /\ (forall c, eq_server e c = true <-> e = server c) /\
  (forall c, eq_fatal e c = true <-> e = fatal c).
Proof.
  intros He. split_and!; intros c; unfold eq_client, eq_server, eq_fatal, is_client_error, is_server_error, is_fatal_error;
    rewrite andb_true_iff, bool_decide_eq_true, N.eqb_eq; (split; [|by intros ->]);
    intros [? ?]; destruct e; by simplify_eq/=.
Qed.

Lemma names_defined e : constructed e -> exists n d, name e = Some n /\ description e = Some d /\ n <> [] /\ d <> [].
Proof. intros [|[]|[]|[]]; do 2 eexists; split_and!; done. Qed.

Lemma client_name c : name (client c) = Some (ClientErrorCode.to_string c).
Proof. by destruct c. Qed.
Lemma server_name c : name (server c) = Some (ServerErrorCode.to_string c).
Proof. by destruct c. Qed.
Lemma fatal_name c : name (fatal c) = Some (FatalErrorCode.to_string c).
Proof. by destruct c. Qed.

Lemma name_inj_in e e' : constructed e -> constructed e' -> category e = category e' -> name e = name e' -> e = e'.
Proof.
  intros [] [] Hc; try done; rewrite ?client_name, ?server_name, ?fatal_name; intros H;
    f_equal; by apply (inj Some), (inj _) in H.
Qed.

(** An error code keeps exactly the enumerator it was built from: typed access and typed
    comparison recover it and nothing else, equality is equality of category and value,
    its name and description are defined, so the unreachable ends of the switches are
    never reached, and within a category the name identifies the code. *)
Theorem error_code_roundtrip (e : ErrorCode) : constructed e ->
  ((forall c, as_client_error e = Some c <-> e = client c) /\ (forall c, as_server_error e = Some c <-> e = server c) /\
   (forall c, as_fatal_error e = Some c <-> e = fatal c)) /\
  ((forall c, eq_client e c = true <-> e = client c) /\ (forall c, eq_server e c = true <-> e = server c) /\
   (forall c, eq_fatal e c = true <-> e = fatal c)) /\
  (exists n d, name e = Some n /\ description e = Some d /\ n <> [] /\ d <> []) /\
  (forall e', constructed e' -> (error_code_eqb e e' = true <-> e = e') /\
    (category e = category e' -> name e = name e' -> e = e')).
Proof.
  intros He. split_and!; try apply (typed_access e He); try apply (typed_equality e He); [by apply names_defined|].
  intros e' He'. split; [apply error_code_eqb_spec|by apply name_inj_in].
Qed.

(** ** SQLSTATE classification

    The source refers to the appendix of PostgreSQL's error codes. [documented] is that
    table, less the classes 00 to 02, which are no errors: each state with its condition
    name. The classification is judged by it. *)
Definition documented : list (string * string) := [
  ("03000", "sql_statement_not_yet_complete"); ("08000", "connection_exception"); ("08003", "connection_does_not_exist");
  ("08006", "connection_failure"); ("08001", "sqlclient_unable_to_establish_sqlconnection");
  ("08004", "sqlserver_rejected_establishment_of_sqlconnection"); ("08007", "transaction_resolution_unknown");
  ("08P01", "protocol_violation"); ("09000", "triggered_action_exception"); ("0A000", "feature_not_supported");
  ("0B000", "invalid_transaction_initiation"); ("0F000", "locator_exception"); ("0F001", "invalid_locator_specification");
  ("0L000", "invalid_grantor"); ("0LP01", "invalid_grant_operation"); ("0P000", "invalid_role_specification");
  ("0Z000", "diagnostics_exception"); ("0Z002", "stacked_diagnostics_accessed_without_active_handler");
  ("20000", "case_not_found"); ("21000", "cardinality_violation"); ("22000", "data_exception");
  ("2202E", "array_subscript_error"); ("22021", "character_not_in_repertoire"); ("22008", "datetime_field_overflow");
  ("22012", "division_by_zero"); ("22005", "error_in_assignment"); ("2200B", "escape_character_conflict");
  ("22022", "indicator_overflow"); ("22015", "interval_field_overflow"); ("2201E", "invalid_argument_for_logarithm");
  ("22014", "invalid_argument_for_ntile_function"); ("22016", "invalid_argument_for_nth_value_function");
  ("2201F", "invalid_argument_for_power_function"); ("2201G", "invalid_argument_for_width_bucket_function");
  ("22018", "invalid_character_value_for_cast"); ("22007", "invalid_datetime_format"); ("22019", "invalid_escape_character");
  ("2200D", "invalid_escape_octet"); ("22025", "invalid_escape_sequence"); ("22P06", "nonstandard_use_of_escape_character");
  ("22010", "invalid_indicator_parameter_value"); ("22023", "invalid_parameter_value");
  ("22013", "invalid_preceding_or_following_size"); ("2201B", "invalid_regular_expression");
  ("2201W", "invalid_row_count_in_limit_clause"); ("2201X", "invalid_row_count_in_result_offset_clause");
  ("2202H", "invalid_tablesample_argument"); ("2202G", "invalid_tablesample_repeat");
  ("22009", "invalid_time_zone_displacement_value"); ("2200C", "invalid_use_of_escape_character");
  ("2200G", "most_specific_type_mismatch"); ("22004", "null_value_not_allowed");
  ("22002", "null_value_no_indicator_parameter"); ("22003", "numeric_value_out_of_range");
  ("2200H", "sequence_generator_limit_exceeded"); ("22026", "string_data_length_mismatch");
  ("22001", "string_data_right_truncation"); ("22011", "substring_error"); ("22027", "trim_error");
  ("22024", "unterminated_c_string"); ("2200F", "zero_length_character_string"); ("22P01", "floating_point_exception");
  ("22P02", "invalid_text_representation"); ("22P03", "invalid_binary_representation"); ("22P04", "bad_copy_file_format");
  ("22P05", "untranslatable_character"); ("2200L", "not_an_xml_document"); ("2200M", "invalid_xml_document");
  ("2200N", "invalid_xml_content"); ("2200S", "invalid_xml_comment"); ("2200T", "invalid_xml_processing_instruction");
  ("22030", "duplicate_json_object_key_value"); ("22031", "invalid_argument_for_sql_json_datetime_function");
  ("22032", "invalid_json_text"); ("22033", "invalid_sql_json_subscript"); ("22034", "more_than_one_sql_json_item");
  ("22035", "no_sql_json_item"); ("22036", "non_numeric_sql_json_item"); ("22037", "non_unique_keys_in_a_json_object");
  ("22038", "singleton_sql_json_item_required"); ("22039", "sql_json_array_not_found");
  ("2203A", "sql_json_member_not_found"); ("2203B", "sql_json_number_not_found"); ("2203C", "sql_json_object_not_found");
  ("2203D", "too_many_json_array_elements"); ("2203E", "too_many_json_object_members");
  ("2203F", "sql_json_scalar_required"); ("2203G", "sql_json_item_cannot_be_cast_to_target_type");
  ("23000", "integrity_constraint_violation"); ("23001", "restrict_violation"); ("23502", "not_null_violation");
  ("23503", "foreign_key_violation"); ("23505", "unique_violation"); ("23514", "check_violation");
  ("23P01", "exclusion_violation"); ("24000", "invalid_cursor_state"); ("25000", "invalid_transaction_state");
  ("25001", "active_sql_transaction"); ("25002", "branch_transaction_already_active");
  ("25008", "held_cursor_requires_same_isolation_level"); ("25003", "inappropriate_access_mode_for_branch_transaction");
  ("25004", "inappropriate_isolation_level_for_branch_transaction");
  ("25005", "no_active_sql_transaction_for_branch_transaction"); ("25006", "read_only_sql_transaction");
  ("25007", "schema_and_data_statement_mixing_not_supported"); ("25P01", "no_active_sql_transaction");
  ("25P02", "in_failed_sql_transaction"); ("25P03", "idle_in_transaction_session_timeout"); ("25P04", "transaction_timeout");
  ("26000", "invalid_sql_statement_name"); ("27000", "triggered_data_change_violation");
  ("28000", "invalid_authorization_specification"); ("28P01", "invalid_password");
  ("2B000", "dependent_privilege_descriptors_still_exist"); ("2BP01", "dependent_objects_still_exist");
  ("2D000", "invalid_transaction_termination"); ("2F000", "sql_routine_exception");
  ("2F005", "function_executed_no_return_statement"); ("2F002", "modifying_sql_data_not_permitted");
  ("2F003", "prohibited_sql_statement_attempted"); ("2F004", "reading_sql_data_not_permitted");
  ("34000", "invalid_cursor_name"); ("38000", "external_routine_exception"); ("38001", "containing_sql_not_permitted");
  ("38002", "modifying_sql_data_not_permitted"); ("38003", "prohibited_sql_statement_attempted");
  ("38004", "reading_sql_data_not_permitted"); ("39000", "external_routine_invocation_exception");
  ("39001", "invalid_sqlstate_returned"); ("39004", "null_value_not_allowed"); ("39P01", "trigger_protocol_violated");
  ("39P02", "srf_protocol_violated"); ("39P03", "event_trigger_protocol_violated"); ("3B000", "savepoint_exception");
  ("3B001", "invalid_savepoint_specification"); ("3D000", "invalid_catalog_name"); ("3F000", "invalid_schema_name");
  ("40000", "transaction_rollback"); ("40002", "transaction_integrity_constraint_violation");
  ("40001", "serialization_failure"); ("40003", "statement_completion_unknown"); ("40P01", "deadlock_detected");
  ("42000", "syntax_error_or_access_rule_violation"); ("42601", "syntax_error"); ("42501", "insufficient_privilege");
  ("42846", "cannot_coerce"); ("42803", "grouping_error"); ("42P20", "windowing_error"); ("42P19", "invalid_recursion");
  ("42830", "invalid_foreign_key"); ("42602", "invalid_name"); ("42622", "name_too_long"); ("42939", "reserved_name");
  ("42804", "datatype_mismatch"); ("42P18", "indeterminate_datatype"); ("42P21", "collation_mismatch");
  ("42P22", "indeterminate_collation"); ("42809", "wrong_object_type"); ("428C9", "generated_always");
  ("42703", "undefined_column"); ("42883", "undefined_function"); ("42P01", "undefined_table");
  ("42P02", "undefined_parameter"); ("42704", "undefined_object"); ("42701", "duplicate_column");
  ("42P03", "duplicate_cursor"); ("42P04", "duplicate_database"); ("42723", "duplicate_function");
  ("42P05", "duplicate_prepared_statement"); ("42P06", "duplicate_schema"); ("42P07", "duplicate_table");
  ("42712", "duplicate_alias"); ("42710", "duplicate_object"); ("42702", "ambiguous_column");
  ("42725", "ambiguous_function"); ("42P08", "ambiguous_parameter"); ("42P09", "ambiguous_alias");
  ("42P10", "invalid_column_reference"); ("42611", "invalid_column_definition"); ("42P11", "invalid_cursor_definition");
  ("42P12", "invalid_database_definition"); ("42P13", "invalid_function_definition");
  ("42P14", "invalid_prepared_statement_definition"); ("42P15", "invalid_schema_definition");
  ("42P16", "invalid_table_definition"); ("42P17", "invalid_object_definition"); ("44000", "with_check_option_violation");
  ("53000", "insufficient_resources"); ("53100", "disk_full"); ("53200", "out_of_memory"); ("53300", "too_many_connections");
  ("53400", "configuration_limit_exceeded"); ("54000", "program_limit_exceeded"); ("54001", "statement_too_complex");
  ("54011", "too_many_columns"); ("54023", "too_many_arguments"); ("55000", "object_not_in_prerequisite_state");
  ("55006", "object_in_use"); ("55P02", "cant_change_runtime_param"); ("55P03", "lock_not_available");
  ("55P04", "unsafe_new_enum_value_usage"); ("57000", "operator_intervention"); ("57014", "query_canceled");
  ("57P01", "admin_shutdown"); ("57P02", "crash_shutdown"); ("57P03", "cannot_connect_now"); ("57P04", "database_dropped");
  ("57P05", "idle_session_timeout"); ("58000", "system_error"); ("58030", "io_error"); ("58P01", "undefined_file");
  ("58P02", "duplicate_file"); ("F0000", "config_file_error"); ("F0001", "lock_file_exists"); ("HV000", "fdw_error");
  ("HV005", "fdw_column_name_not_found"); ("HV002", "fdw_dynamic_parameter_value_needed");
  ("HV010", "fdw_function_sequence_error"); ("HV021", "fdw_inconsistent_descriptor_information");
  ("HV024", "fdw_invalid_attribute_value"); ("HV007", "fdw_invalid_column_name"); ("HV008", "fdw_invalid_column_number");
  ("HV004", "fdw_invalid_data_type"); ("HV006", "fdw_invalid_data_type_descriptors");
  ("HV091", "fdw_invalid_descriptor_field_identifier"); ("HV00B", "fdw_invalid_handle");
  ("HV00C", "fdw_invalid_option_index"); ("HV00D", "fdw_invalid_option_name");
  ("HV090", "fdw_invalid_string_length_or_buffer_length"); ("HV00A", "fdw_invalid_string_format");
  ("HV009", "fdw_invalid_use_of_null_pointer"); ("HV014", "fdw_too_many_handles"); ("HV001", "fdw_out_of_memory");
  ("HV00P", "fdw_no_schemas"); ("HV00J", "fdw_option_name_not_found"); ("HV00K", "fdw_reply_handle");
  ("HV00Q", "fdw_schema_not_found"); ("HV00R", "fdw_table_not_found"); ("HV00L", "fdw_unable_to_create_execution");
  ("HV00M", "fdw_unable_to_create_reply"); ("HV00N", "fdw_unable_to_establish_connection"); ("P0000", "plpgsql_error");
  ("P0001", "raise_exception"); ("P0002", "no_data_found"); ("P0003", "too_many_rows"); ("P0004", "assert_failure");
  ("XX000", "internal_error"); ("XX001", "data_corrupted"); ("XX002", "index_corrupted") ]%string.

(** The words of a condition name. *)
Fixpoint words (s : bytes) : list bytes :=
  match s with
  | [] => [[]]
  | c :: r => if bool_decide (c = "_"%char) then [] :: words r
              else match words r with w :: ws => (c :: w) :: ws | [] => [[c]] end
  end.

Definition capital (w : bytes) : bytes :=
  match w with [] => [] | c :: r => ascii_of_N (N_of_ascii c - 32) :: r end.

(** The enumerator that a condition should have. Most names agree: the words of the
    condition in camel case, where an undefined thing is a thing not found, an exception is
    an error, and the words that say no more in an error code are left out. [synonyms] are
    the conditions for which the library has another word. *)
Definition library_word (w : bytes) : bytes := if bool_decide (w = B "exception") then B "error" else w.
Definition dropped_words : list bytes := B <$> ["exceeded"; "sql"; "format"]%string.

Definition synonyms : list (string * string) := [
  ("connection_does_not_exist", "NotConnected"); ("connection_failure", "ConnectionLost");
  ("string_data_right_truncation", "DataTooLong"); ("numeric_value_out_of_range", "NumericOverflow");
  ("datetime_field_overflow", "InvalidDatetime"); ("invalid_text_representation", "InvalidTextFormat");
  ("integrity_constraint_violation", "ConstraintViolation"); ("active_sql_transaction", "TransactionActive");
  ("invalid_authorization_specification", "AuthenticationError"); ("invalid_password", "AuthenticationError");
  ("invalid_catalog_name", "DatabaseNotFound"); ("invalid_schema_name", "SchemaNotFound");
  ("insufficient_privilege", "PermissionDenied"); ("datatype_mismatch", "TypeMismatch");
  ("insufficient_resources", "ResourceError"); ("statement_too_complex", "QueryTooComplex");
  ("lock_not_available", "LockTimeout"); ("query_canceled", "StatementTimeout");
  ("config_file_error", "ConfigurationError"); ("data_corrupted", "CorruptionDetected");
  ("index_corrupted", "CorruptionDetected") ]%string.

Definition library_name (condition : string) : bytes :=
  match list_find (fun p => p.1 = condition) synonyms, words (B condition) with
  | Some (_, (_, enumerator)), _ => B enumerator
  | None, w :: ws => if bool_decide (w = B "undefined") then concat (capital <$> ws) ++ B "NotFound"
                     else concat (capital ∘ library_word <$> filter (.∉ dropped_words) (w :: ws))
  | None, [] => []
  end.

Definition enumerators : list bytes :=
  (ClientErrorCode.to_string <$> ClientErrorCode.all) ++ (ServerErrorCode.to_string <$> ServerErrorCode.all) ++
  (FatalErrorCode.to_string <$> FatalErrorCode.all).

Definition sqlstate_class (s : bytes) : bytes := substr s 0 2.

(** The classes and states that share a code with a condition of another class: a case
    without a match and a query without data report a missing object, a cardinality error
    is a data error, dependent objects and a view's check option are constraints, a program
    limit is a limit, an operator's intervention ends the connection, a system error is
    internal or a corruption. The three states of class 42 are duplicates and a bad definition of
    databases and schemas, reported as missing ones. *)
Definition sharing_classes : list bytes := B <$> ["20"; "21"; "2B"; "44"; "54"; "57"; "58"]%string.
Definition sharing_states : list bytes := B <$> ["P0002"; "P0003"; "42P04"; "42P06"; "42P15"]%string.

Definition shares_code (s : bytes) : Prop := sqlstate_class s ∈ sharing_classes \/ s ∈ sharing_states.

(** What passes without a change of the statement: the connection failed, the transaction
    was rolled back by others, the server lacked resources, an operator intervened, or a
    lock was not available. Not a missing connection, a broken protocol, a violated
    constraint or a dropped database. *)
Definition transient_classes : list bytes := B <$> ["08"; "40"; "53"; "57"]%string.
Definition not_transient : list bytes := B <$> ["08003"; "08P01"; "40002"; "57P04"]%string.

Definition transient (s : bytes) : Prop :=
  (sqlstate_class s ∈ transient_classes /\ s ∉ not_transient) \/ s = B "55P03".

(** Errors that the same statement meets again, and that are reported as retryable all the
    same: routines, foreign data, procedures, program limits, and three single states. *)
Definition permanent_classes : list bytes := B <$> ["2F"; "38"; "39"; "54"; "HV"; "P0"]%string.
Definition permanent_respected : list bytes := B <$> ["P0002"; "P0003"; "P0004"]%string.
Definition permanent_states : list bytes := B <$> ["40002"; "55P02"; "57P04"]%string.

Definition retried_in_vain (s : bytes) : Prop :=
  (sqlstate_class s ∈ permanent_classes /\ s ∉ permanent_respected) \/ s ∈ permanent_states.

#[export] Instance transient_dec s : Decision (transient s).
Proof. unfold transient. apply _. Defined.
#[export] Instance retried_in_vain_dec s : Decision (retried_in_vain s).
Proof. unfold retried_in_vain. apply _. Defined.
#[export] Instance shares_code_dec s : Decision (shares_code s).
Proof. unfold shares_code. apply _. Defined.

Definition completion (s : bytes) : Prop := s = [] \/ sqlstate_class s = B "00".

Definition retry_verdict (v : option ErrorCode) : bool := from_option is_retryable false v.

(** The states that a verdict on the class does not decide. *)
Definition single_states : list bytes := not_transient ++ [B "55P03"] ++ permanent_respected ++ permanent_states.

Lemma retryable_single s : s ∈ single_states -> retry_verdict (map_sqlstate s) = bool_decide (transient s \/ retried_in_vain s).
Proof. revert s. apply Forall_forall. repeat constructor. Qed.

Lemma retryable_by_class s : s ∉ single_states ->
  bool_decide (transient s \/ retried_in_vain s) = bool_decide (sqlstate_class s ∈ transient_classes ++ permanent_classes).
Proof.
  intros Hs. apply bool_decide_ext. unfold single_states in Hs. rewrite !elem_of_app, list_elem_of_singleton in Hs.
  unfold transient, retried_in_vain. rewrite elem_of_app. tauto.
Qed.

(** Follows one test of the mapping, the class before the state: a state known
    literally is computed or is one of the listed ones. *)
Ltac map_case s :=
  match goal with
  | |- context [if bool_decide (substr s 0 2 = ?x) then _ else _] => destruct (bool_decide_reflect (substr s 0 2 = x)) as [?Hc|?]
  | |- context [bool_decide (s = ?x)] =>
      destruct (bool_decide_reflect (s = x)) as [->|?];
      [first [reflexivity | exfalso; match goal with H : _ ∉ _ |- _ => by destruct H; apply (bool_decide_unpack _) end]|cbn [orb]]
  | |- context [if starts_with ?x s then _ else _] => destruct (starts_with x s)
  end.

Ltac map_unfold :=
  unfold map_sqlstate, class_08, class_22, class_23, class_25, class_40, class_42, class_53, class_54, class_55, class_57, class_58,
    class_P0, class_XX; cbv zeta.

Lemma map_sqlstate_constructed s e : map_sqlstate s = Some e -> constructed e /\ is_success e = false.
Proof. map_unfold. repeat (case_match; try discriminate); intros [= <-]; auto. Qed.

Lemma map_sqlstate_none s : map_sqlstate s = None <-> completion s.
Proof.
  unfold completion. destruct (decide (s = [])) as [->|Hn]; [split; auto|].
  unfold map_sqlstate. rewrite bool_decide_eq_false_2 by done. cbn [orb].
  destruct (bool_decide_reflect (s = B "00000")) as [->|?]; [split; auto|]. cbv zeta.
  destruct (bool_decide_reflect (substr s 0 2 = B "00")); [tauto|].
  split; [|tauto]. repeat (case_match; try discriminate).
Qed.

Lemma map_sqlstate_retryable s : retry_verdict (map_sqlstate s) = bool_decide (transient s \/ retried_in_vain s).
Proof.
  destruct (decide (s ∈ single_states)) as [Hs|Hs]; [by apply retryable_single|].
  rewrite retryable_by_class by done. unfold sqlstate_class. map_unfold. destruct (bool_decide_reflect (s = [])) as [->|?]; [done|].
  repeat map_case s; try (by rewrite Hc). rewrite bool_decide_eq_false_2; [done|].
  unfold transient_classes, permanent_classes. rewrite !fmap_cons, !fmap_nil, !elem_of_app, !elem_of_cons, !elem_of_nil. tauto.
Qed.

(** The classes of the conditions that have a given enumerator. *)
Definition condition_classes (m : bytes) : list bytes :=
  (fun p => sqlstate_class (B p.1)) <$> filter (fun p => library_name p.2 = m) documented.

Lemma condition_classes_in s n : (s, n) ∈ documented -> sqlstate_class (B s) ∈ condition_classes (library_name n).
Proof. intros H. apply list_elem_of_fmap. exists (s, n). split; [done|]. by apply list_elem_of_filter. Qed.

Definition in_condition_class (s : bytes) (e : ErrorCode) : Prop :=
  shares_code s \/ Forall (.= sqlstate_class s) (from_option condition_classes [] (name e)).

#[export] Instance in_condition_class_dec s e : Decision (in_condition_class s e).
Proof. unfold in_condition_class. apply _. Defined.

Lemma in_condition_class_by s c e : sqlstate_class s = c ->
  c ∈ sharing_classes \/ Forall (.= c) (from_option condition_classes [] (name e)) ->
  bool_decide (in_condition_class s e) = true.
Proof. intros <- H. apply bool_decide_eq_true_2. unfold in_condition_class, shares_code. tauto. Qed.

Lemma map_sqlstate_class s : from_option (fun e => bool_decide (in_condition_class s e)) true (map_sqlstate s) = true.
Proof.
  map_unfold. destruct (bool_decide_reflect (s = [])) as [->|?]; [done|].
  repeat match goal with
  | |- context [if bool_decide (substr s 0 2 = ?x) then _ else _] => destruct (bool_decide_reflect (substr s 0 2 = x)) as [?Hc|?]
  | |- context [bool_decide (s = ?x)] => destruct (bool_decide_reflect (s = x)) as [->|?]; [by vm_compute|cbn [orb]]
  | |- context [if starts_with ?x s then _ else _] => destruct (starts_with x s)
  end; cbn -[in_condition_class]; try done; try (eapply in_condition_class_by; [exact Hc|apply (bool_decide_unpack _); by vm_compute]).
  apply (in_condition_class_by _ _ _ eq_refl). right. constructor.
Qed.

Lemma enumerator_of_class s t n : (t, n) ∈ documented -> map_sqlstate s ≫= name = Some (library_name n) ->
  sqlstate_class s = sqlstate_class (B t) \/ shares_code s.
Proof.
  intros Ht (e & He & Hn)%bind_Some. pose proof (map_sqlstate_class s) as H. rewrite He in H.
  apply bool_decide_eq_true in H as [H|H]; [by right|left]. rewrite Hn in H.
  by rewrite (proj1 (Forall_forall _ _) H _ (condition_classes_in t n Ht)).
Qed.

Lemma documented_named : Forall (fun p => library_name p.2 ∈ enumerators -> map_sqlstate (B p.1) ≫= name = Some (library_name p.2)) documented.
Proof. apply (bool_decide_unpack _). by vm_compute. Qed.

(** C31. The classification of SQLSTATEs, judged by PostgreSQL's table of error conditions. There
    is no error exactly for an empty state or class 00, and otherwise a well-formed error that is
    never the success code. Each documented condition that the library has an enumerator for (the
    condition's name in camel case, or its synonym in [synonyms]) is reported as that enumerator,
    and no state of another class is, except the states of [shares_code]. An error is retryable
    when it is transient in PostgreSQL's terms ([transient]: connection failures, rollbacks, lack
    of resources, interventions, an unavailable lock), so none of these is missed; and besides
    them exactly for the permanent errors of [retried_in_vain], where the mapping disagrees with
    the table: among them too many columns or arguments (54011, 54023) and a parameter that
    cannot be changed (55P02). *)
Theorem map_sqlstate_correct (s : bytes) :
  (map_sqlstate s = None <-> completion s) /\
  (forall e, map_sqlstate s = Some e -> constructed e /\ is_success e = false) /\
  (forall t n, (t, n) ∈ documented -> library_name n ∈ enumerators ->
    map_sqlstate (B t) ≫= name = Some (library_name n) /\
    (map_sqlstate s ≫= name = Some (library_name n) -> sqlstate_class s = sqlstate_class (B t) \/ shares_code s)) /\
  (retry_verdict (map_sqlstate s) = true <-> transient s \/ retried_in_vain s).
Proof.
  split_and!; [apply map_sqlstate_none|apply map_sqlstate_constructed| |].
  - intros t n Hn He. split; [|by apply enumerator_of_class].
    by apply (proj1 (Forall_forall _ _) documented_named (t, n)).
  - rewrite map_sqlstate_retryable. apply bool_decide_eq_true.
Qed.

(** ** Extraction *)
Lemma map_exec_status_constructed s e : map_exec_status s = Some e -> constructed e /\ is_success e = false.
Proof. destruct s; intros [= <-]; auto. Qed.

Lemma map_exec_status_none s : map_exec_status s = None <-> is_success_status s = true \/ s = PGRES_TUPLES_CHUNK.
Proof. destruct s; cbn; split; intuition congruence. Qed.

Lemma format_defined c : constructed (code c) -> is_Some (format c).
Proof.
  intros (n & d & Hn & _)%names_defined. unfold format. rewrite Hn. destruct (has_error c); cbn; eauto.
Qed.

(** When a result counts as an error. *)
Definition no_error (r : PGresult) : Prop :=
  is_success_status (status r) = true \/
  match diag_sqlstate r with Some s => completion s | None => status r = PGRES_TUPLES_CHUNK end.

(** The two extractions agree on every result: the light one gives exactly the code of
    the full one. A result counts as success exactly when its status is a success status
    or, failing that, its SQLSTATE says so; every extracted error carries a well-formed,
    non-success code, the SQLSTATE and diagnostics it was given, and can be printed. *)
Theorem extract_error_correct (r : option PGresult) :
  code <$> extract_error r = extract_error_code r /\
  (extract_error r = None <-> exists x, r = Some x /\ no_error x) /\
  (forall c, extract_error r = Some c ->
    constructed (code c) /\ has_error c = true /\ is_Some (format c) /\
    (forall x, r = Some x -> sqlstate c = default [] (diag_sqlstate x) /\ message c = default [] (error_message x))).
Proof.
  destruct r as [x|]; cbn -[map_sqlstate]; [|].
  2:{ split_and!; [done|split; [done|by intros (? & ? & _)]|]. intros c [= <-]. split_and!; [constructor|done|apply format_defined; constructor|done]. }
  pose proof (map_sqlstate_constructed) as Hm. pose proof (map_exec_status_constructed (status x)) as He.
  split_and!.
  - destruct (is_success_status _); [done|]. by destruct (match diag_sqlstate x with Some _ => _ | None => _ end).
  - unfold no_error. split.
    + intros H. exists x. split; [done|]. destruct (is_success_status _) eqn:Es; [by left|]. right.
      destruct (diag_sqlstate x) as [s|]; [apply map_sqlstate_none; by destruct (map_sqlstate s)|].
      destruct (map_exec_status_none (status x)) as [Hn _]. destruct (map_exec_status _); [done|].
      by destruct (Hn eq_refl); [congruence|].
    + intros (y & [= <-] & [->|H]); [done|]. destruct (is_success_status _); [done|].
      destruct (diag_sqlstate x) as [s|]; [by apply map_sqlstate_none in H as ->|by rewrite H].
  - intros c H. destruct (is_success_status _); [done|]. apply bind_Some in H as (e & Hv & [= <-]). cbn.
    assert (constructed e /\ is_success e = false) as [H1 H2] by (destruct (diag_sqlstate x); eauto).
    split_and!; [done|by unfold has_error; cbn; rewrite H2|by apply format_defined|by intros y [= <-]].
Qed.

(** A connection is reported healthy exactly when libpq says so; the error taken from a
    connection is never the success code and always has a message when there is a
    connection; and on a missing or a lost connection both give the same code. *)
Theorem connection_error_correct (conn : option PGconn) :
  (is_success (check_connection conn) = true <-> exists c, conn = Some c /\ conn_status c = CONNECTION_OK) /\
  constructed (check_connection conn) /\ has_error (extract_connection_error conn) = true /\
  (conn <> None -> message (extract_connection_error conn) <> []) /\
  (conn = None \/ conn_status <$> conn = Some CONNECTION_BAD -> code (extract_connection_error conn) = check_connection conn).
Proof.
  destruct conn as [[st m]|]; cbn; split_and!; try done; auto.
  - destruct st; cbn; split; (intros (? & [= <-] & ?) || intros ?); naive_solver.
  - destruct st; auto.
  - unfold has_error. cbn. by case_bool_decide.
  - intros _. by destruct m as [[|? ?]|].
  - by intros [?|[= ->]].
  - split; [done|by intros (? & ? & ?)].
Qed.

(** A category [a] of [category] names that of [b] or an ancestor of it. *)
Definition dotted_prefix (a b : option bytes) : bool :=
  match a, b with
  | Some a, Some b => bool_decide (a = b) || starts_with (a ++ B ".") b
  | _, _ => false
  end.

(** The dotted categories of the exceptions mirror the class hierarchy: one class
    derives from another exactly when its category extends the other's. Every class has
    one, except the abstract root of them all; and exactly the classes below the runtime
    and the resource errors are retryable. *)
Theorem exception_categories :
  (forall c, last (Exceptions.bases c) = Some Exceptions.database_exception) /\
  (forall c, Exceptions.category c = None <-> c = Exceptions.database_exception) /\
  (forall c d, d <> Exceptions.database_exception ->
    (d ∈ Exceptions.bases c <-> dotted_prefix (Exceptions.category d) (Exceptions.category c) = true)) /\
  (forall c, Exceptions.is_retryable c = true <->
    Exceptions.runtime_error ∈ Exceptions.bases c \/ Exceptions.resource_error ∈ Exceptions.bases c).
Proof. split_and!; apply (bool_decide_unpack _); by vm_compute. Qed.

(** ** Instances *)
Lemma error_code_roundtrip_witness :
  as_server_error (server ServerErrorCode.DeadlockDetected) = Some ServerErrorCode.DeadlockDetected /\
  eq_fatal (server ServerErrorCode.DeadlockDetected) FatalErrorCode.InternalError <> true.
Proof.
  destruct (error_code_roundtrip (server ServerErrorCode.DeadlockDetected)) as ((_ & Hs & _) & (_ & _ & Hf) & _);
    [constructor|]. split; [by apply Hs|by rewrite Hf].
Defined.

(** A code built from the enumerator [Success] of an enum is an error: only the default
    constructor gives success. *)
Example typed_success_is_error :
  is_success (client ClientErrorCode.Success) = false /\ error_code_eqb (client ClientErrorCode.Success) success = false /\
  format (error_context (server ServerErrorCode.Success)) = Some (B "[Success] ").
Proof. by vm_compute. Qed.

(** Duplicate database (42P04) and duplicate schema (42P06) are reported as not found,
    an invalid foreign key (42830) as a denied permission. *)
Example duplicates_reported_missing :
  (map_sqlstate (B "42P04") ≫= description) = Some (B "Database does not exist") /\
  (map_sqlstate (B "42P06") ≫= description) = Some (B "Schema does not exist") /\
  (map_sqlstate (B "42830") ≫= description) = Some (B "Permission denied for operation").
Proof. by vm_compute. Qed.

(** Errors that the same statement meets again are reported as retryable: too many
    columns (54011), an unchangeable parameter (55P02), an exception raised by a
    stored procedure (P0001), a dropped database (57P04). *)
Example permanent_errors_retryable :
  Forall (fun s => retry_verdict (map_sqlstate (B s)) = true) ["54011"; "55P02"; "P0001"; "57P04"]%string.
Proof. repeat constructor. Qed.
