(* ===== verification/ConnectionConfig.v ===== *)
(** * Connection configuration of the PostgreSQL provider

    Credentials, connection options with their builder, validation, and the libpq
    connection string (config/). What libpq reads in such a string is specified by the
    documented keyword/value format; the string is shown to be read back as exactly the
    configured settings. *)

From S2P Require Import Prelude StringMap.

(** ** Escaping *)

(** The loop of [escape_connection_value]: the escaped text, and whether it needs quotes. *)
Fixpoint escape_loop (value : bytes) : bytes * bool :=
  match value with
  | [] => ([], false)
  | c :: rest =>
      let '(escaped, needs_quoting) := escape_loop rest in
      if bool_decide (c = "\"%char) || bool_decide (c = "'"%char) then ("\"%char :: c :: escaped, true)
      else (c :: escaped, bool_decide (c = " "%char) || bool_decide (c = "="%char) || needs_quoting)
  end.

Definition escape_connection_value (value : bytes) : bytes :=
  if bool_decide (value = []) then B "''" else
  let '(escaped, needs_quoting) := escape_loop value in
  if needs_quoting then B "'" ++ escaped ++ B "'" else escaped.

(** ** Enums

    A member can hold any value of the underlying type, by a cast; those without a name are
    [RoleValue] and [SslValue]. The conversions to text end in [std::unreachable()] for them,
    which is [None] here. *)
Inductive NodeRole := PRIMARY | STANDBY_SYNC | STANDBY_ASYNC | ANALYTICS | ARCHIVE | RoleValue (v : Z).
Inductive SslMode := DISABLE | ALLOW | PREFER | REQUIRE | VERIFY_CA | VERIFY_FULL | SslValue (v : Z).

#[global] Instance ssl_mode_eq_dec : EqDecision SslMode.
Proof. solve_decision. Defined.

Definition node_role_to_string (r : NodeRole) : option bytes :=
  B <$> match r with
        | PRIMARY => Some "primary" | STANDBY_SYNC => Some "standby_sync" | STANDBY_ASYNC => Some "standby_async"
        | ANALYTICS => Some "analytics" | ARCHIVE => Some "archive" | RoleValue _ => None
        end%string.

Definition node_role_from_int (v : Z) : NodeRole :=
  match v with 0 => PRIMARY | 1 => STANDBY_SYNC | 2 => STANDBY_ASYNC | 3 => ANALYTICS | 4 => ARCHIVE | _ => PRIMARY end%Z.

Definition ssl_mode_to_string (m : SslMode) : option bytes :=
  B <$> match m with
        | DISABLE => Some "disable" | ALLOW => Some "allow" | PREFER => Some "prefer" | REQUIRE => Some "require"
        | VERIFY_CA => Some "verify-ca" | VERIFY_FULL => Some "verify-full" | SslValue _ => None
        end%string.

Definition ssl_mode_from_int (v : Z) : SslMode :=
  match v with 0 => DISABLE | 1 => ALLOW | 2 => PREFER | 3 => REQUIRE | 4 => VERIFY_CA | 5 => VERIFY_FULL | _ => PREFER end%Z.

(** ** [std::stoi]

    White space, a sign, then as many digits as there are; the rest is ignored. *)
Definition is_space (c : ascii) : bool := (code c =? 32) || ((9 <=? code c) && (code c <=? 13)).

Fixpoint skip_space (s : bytes) : bytes :=
  match s with c :: s' => if is_space c then skip_space s' else s | [] => [] end.

Definition stoi (s : bytes) : result exn Z :=
  let s := skip_space s in
  let negative := bool_decide (head s = Some "-"%char) in
  let signed := negative || bool_decide (head s = Some "+"%char) in
  let '(v, n) := scan_digits (if signed then drop 1 s else s) 0 in
  if n =? 0 then Err (InvalidArgument (B "stoi")) else
  let z := if negative then (- Z.of_N v)%Z else Z.of_N v in
  if decide (-2147483648 <= z <= 2147483647)%Z then Ok z else Err (OutOfRange (B "stoi")).

(** ** [ConnectionCredentials] *)
Record ConnectionCredentials := { host : bytes; port : bytes; dbname : bytes; user : bytes; password : bytes }.

Definition default_credentials : ConnectionCredentials :=
  {| host := B "localhost"; port := B "5432"; dbname := []; user := []; password := [] |}.

Definition validate_port (p : bytes) : result exn unit :=
  if bool_decide (p = []) then Ok tt else
  match stoi p with
  | Ok v => if decide (v < 1 \/ v > 65535)%Z then Err (InvalidArgument (B "Port must be between 1 and 65535")) else Ok tt
  | Err (InvalidArgument w) => Err (InvalidArgument w)
  | Err _ => Err (InvalidArgument (B "Invalid port number"))
  end.

Definition validate_credentials (c : ConnectionCredentials) : result exn unit :=
  if bool_decide (dbname c = []) then Err (InvalidArgument (B "Database name (dbname) must be specified")) else
  if bool_decide (user c = []) then Err (InvalidArgument (B "User must be specified")) else
  validate_port (port c).

Definition credential (key : string) (value : bytes) : bytes :=
  if bool_decide (value = []) then [] else B key ++ escape_connection_value value ++ B " ".

Definition credentials_string (c : ConnectionCredentials) : result exn bytes :=
  _ ← validate_credentials c;
  let result := credential "host=" (host c) ++ credential "port=" (port c) ++ credential "dbname=" (dbname c) ++
                credential "user=" (user c) ++ credential "password=" (password c) in
  Ok (if bool_decide (last result = Some " "%char) then removelast result else result).

(** ** [ConnectionConfig] *)
Record ConnectionConfig := mkConfig {
  credentials : ConnectionCredentials;
  role : NodeRole;
  priority : Z;
  cluster_name : bytes;
  connect_timeout : Z;
  statement_timeout : Z;
  idle_in_transaction_timeout : Z;
  lock_timeout : Z;
  ssl_mode : SslMode;
  ssl_cert : option bytes;
  ssl_key : option bytes;
  ssl_root_cert : option bytes;
  binary_protocol : bool;
  auto_prepare : bool;
  pipeline_mode : bool;
  application_name : bytes;
  search_path : bytes;
  work_mem_mb : N;
  jit : bool;
  extra_options : list (bytes * bytes)
}.

Definition default_config (c : ConnectionCredentials) : ConnectionConfig :=
  {| credentials := c; role := PRIMARY; priority := 0; cluster_name := []; connect_timeout := 30; statement_timeout := 0;
     idle_in_transaction_timeout := 0; lock_timeout := 0; ssl_mode := PREFER; ssl_cert := None; ssl_key := None;
     ssl_root_cert := None; binary_protocol := true; auto_prepare := false; pipeline_mode := true; application_name := [];
     search_path := B "public"; work_mem_mb := 4; jit := true; extra_options := [] |}.

Definition validate (c : ConnectionConfig) : result exn unit :=
  _ ← validate_credentials (credentials c);
  if (bool_decide (ssl_mode c = VERIFY_CA) || bool_decide (ssl_mode c = VERIFY_FULL)) && bool_decide (ssl_root_cert c = None)
  then Err (InvalidArgument (B "ssl_root_cert is required when ssl_mode is VERIFY_CA or VERIFY_FULL")) else
  if negb (eqb (bool_decide (ssl_cert c = None)) (bool_decide (ssl_key c = None)))
  then Err (InvalidArgument (B "ssl_cert and ssl_key must both be specified or both be omitted")) else
  if (connect_timeout c <? 0)%Z then Err (InvalidArgument (B "connect_timeout cannot be negative")) else
  if (priority c <? 0)%Z then Err (InvalidArgument (B "priority cannot be negative")) else
  Ok tt.

Definition optional (key : string) (value : option bytes) : bytes :=
  match value with Some v => B key ++ escape_connection_value v | None => [] end.

Definition extra (kv : bytes * bytes) : bytes := B " " ++ fst kv ++ B "=" ++ escape_connection_value (snd kv).

(** [None]: undefined, since the SSL mode has no text. *)
Definition to_connection_string (c : ConnectionConfig) : result exn (option bytes) :=
  _ ← validate c;
  base ← credentials_string (credentials c);
  Ok ((fun mode => base ++ B " sslmode=" ++ mode ++
      optional " sslcert=" (ssl_cert c) ++ optional " sslkey=" (ssl_key c) ++ optional " sslrootcert=" (ssl_root_cert c) ++
      (if (0 <? connect_timeout c)%Z then B " connect_timeout=" ++ to_decimal_Z (connect_timeout c) else []) ++
      (if bool_decide (application_name c = []) then [] else B " application_name=" ++ escape_connection_value (application_name c)) ++
      mbind extra (extra_options c)) <$> ssl_mode_to_string (ssl_mode c)).

(** ** The builder

    Setters return the updated builder; [finalize] validates. *)
Definition with_credentials (c : ConnectionConfig) (value : ConnectionCredentials) : ConnectionConfig :=
  mkConfig value (role c) (priority c) (cluster_name c) (connect_timeout c) (statement_timeout c)
    (idle_in_transaction_timeout c) (lock_timeout c) (ssl_mode c) (ssl_cert c) (ssl_key c) (ssl_root_cert c)
    (binary_protocol c) (auto_prepare c) (pipeline_mode c) (application_name c) (search_path c) (work_mem_mb c)
    (jit c) (extra_options c).
Definition with_role (c : ConnectionConfig) (value : NodeRole) : ConnectionConfig :=
  mkConfig (credentials c) value (priority c) (cluster_name c) (connect_timeout c) (statement_timeout c)
    (idle_in_transaction_timeout c) (lock_timeout c) (ssl_mode c) (ssl_cert c) (ssl_key c) (ssl_root_cert c)
    (binary_protocol c) (auto_prepare c) (pipeline_mode c) (application_name c) (search_path c) (work_mem_mb c)
    (jit c) (extra_options c).
Definition with_priority (c : ConnectionConfig) (value : Z) : ConnectionConfig :=
  mkConfig (credentials c) (role c) value (cluster_name c) (connect_timeout c) (statement_timeout c)
    (idle_in_transaction_timeout c) (lock_timeout c) (ssl_mode c) (ssl_cert c) (ssl_key c) (ssl_root_cert c)
    (binary_protocol c) (auto_prepare c) (pipeline_mode c) (application_name c) (search_path c) (work_mem_mb c)
    (jit c) (extra_options c).
Definition with_cluster_name (c : ConnectionConfig) (value : bytes) : ConnectionConfig :=
  mkConfig (credentials c) (role c) (priority c) value (connect_timeout c) (statement_timeout c)
    (idle_in_transaction_timeout c) (lock_timeout c) (ssl_mode c) (ssl_cert c) (ssl_key c) (ssl_root_cert c)
    (binary_protocol c) (auto_prepare c) (pipeline_mode c) (application_name c) (search_path c) (work_mem_mb c)
    (jit c) (extra_options c).
Definition with_connect_timeout (c : ConnectionConfig) (value : Z) : ConnectionConfig :=
  mkConfig (credentials c) (role c) (priority c) (cluster_name c) value (statement_timeout c)
    (idle_in_transaction_timeout c) (lock_timeout c) (ssl_mode c) (ssl_cert c) (ssl_key c) (ssl_root_cert c)
    (binary_protocol c) (auto_prepare c) (pipeline_mode c) (application_name c) (search_path c) (work_mem_mb c)
    (jit c) (extra_options c).
Definition with_statement_timeout (c : ConnectionConfig) (value : Z) : ConnectionConfig :=
  mkConfig (credentials c) (role c) (priority c) (cluster_name c) (connect_timeout c) value
    (idle_in_transaction_timeout c) (lock_timeout c) (ssl_mode c) (ssl_cert c) (ssl_key c) (ssl_root_cert c)
    (binary_protocol c) (auto_prepare c) (pipeline_mode c) (application_name c) (search_path c) (work_mem_mb c)
    (jit c) (extra_options c).
Definition with_idle_in_transaction_timeout (c : ConnectionConfig) (value : Z) : ConnectionConfig :=
  mkConfig (credentials c) (role c) (priority c) (cluster_name c) (connect_timeout c) (statement_timeout c) value
    (lock_timeout c) (ssl_mode c) (ssl_cert c) (ssl_key c) (ssl_root_cert c) (binary_protocol c) (auto_prepare c)
    (pipeline_mode c) (application_name c) (search_path c) (work_mem_mb c) (jit c) (extra_options c).
Definition with_lock_timeout (c : ConnectionConfig) (value : Z) : ConnectionConfig :=
  mkConfig (credentials c) (role c) (priority c) (cluster_name c) (connect_timeout c) (statement_timeout c)
    (idle_in_transaction_timeout c) value (ssl_mode c) (ssl_cert c) (ssl_key c) (ssl_root_cert c) (binary_protocol c)
    (auto_prepare c) (pipeline_mode c) (application_name c) (search_path c) (work_mem_mb c) (jit c) (extra_options c).
Definition with_ssl_mode (c : ConnectionConfig) (value : SslMode) : ConnectionConfig :=
  mkConfig (credentials c) (role c) (priority c) (cluster_name c) (connect_timeout c) (statement_timeout c)
    (idle_in_transaction_timeout c) (lock_timeout c) value (ssl_cert c) (ssl_key c) (ssl_root_cert c)
    (binary_protocol c) (auto_prepare c) (pipeline_mode c) (application_name c) (search_path c) (work_mem_mb c)
    (jit c) (extra_options c).
Definition with_ssl_cert (c : ConnectionConfig) (value : bytes) : ConnectionConfig :=
  mkConfig (credentials c) (role c) (priority c) (cluster_name c) (connect_timeout c) (statement_timeout c)
    (idle_in_transaction_timeout c) (lock_timeout c) (ssl_mode c) (Some value) (ssl_key c) (ssl_root_cert c)
    (binary_protocol c) (auto_prepare c) (pipeline_mode c) (application_name c) (search_path c) (work_mem_mb c)
    (jit c) (extra_options c).
Definition with_ssl_key (c : ConnectionConfig) (value : bytes) : ConnectionConfig :=
  mkConfig (credentials c) (role c) (priority c) (cluster_name c) (connect_timeout c) (statement_timeout c)
    (idle_in_transaction_timeout c) (lock_timeout c) (ssl_mode c) (ssl_cert c) (Some value) (ssl_root_cert c)
    (binary_protocol c) (auto_prepare c) (pipeline_mode c) (application_name c) (search_path c) (work_mem_mb c)
    (jit c) (extra_options c).
Definition with_ssl_root_cert (c : ConnectionConfig) (value : bytes) : ConnectionConfig :=
  mkConfig (credentials c) (role c) (priority c) (cluster_name c) (connect_timeout c) (statement_timeout c)
    (idle_in_transaction_timeout c) (lock_timeout c) (ssl_mode c) (ssl_cert c) (ssl_key c) (Some value)
    (binary_protocol c) (auto_prepare c) (pipeline_mode c) (application_name c) (search_path c) (work_mem_mb c)
    (jit c) (extra_options c).
Definition with_binary_protocol (c : ConnectionConfig) (value : bool) : ConnectionConfig :=
  mkConfig (credentials c) (role c) (priority c) (cluster_name c) (connect_timeout c) (statement_timeout c)
    (idle_in_transaction_timeout c) (lock_timeout c) (ssl_mode c) (ssl_cert c) (ssl_key c) (ssl_root_cert c) value
    (auto_prepare c) (pipeline_mode c) (application_name c) (search_path c) (work_mem_mb c) (jit c) (extra_options c).
Definition with_auto_prepare (c : ConnectionConfig) (value : bool) : ConnectionConfig :=
  mkConfig (credentials c) (role c) (priority c) (cluster_name c) (connect_timeout c) (statement_timeout c)
    (idle_in_transaction_timeout c) (lock_timeout c) (ssl_mode c) (ssl_cert c) (ssl_key c) (ssl_root_cert c)
    (binary_protocol c) value (pipeline_mode c) (application_name c) (search_path c) (work_mem_mb c) (jit c)
    (extra_options c).
Definition with_pipeline_mode (c : ConnectionConfig) (value : bool) : ConnectionConfig :=
  mkConfig (credentials c) (role c) (priority c) (cluster_name c) (connect_timeout c) (statement_timeout c)
    (idle_in_transaction_timeout c) (lock_timeout c) (ssl_mode c) (ssl_cert c) (ssl_key c) (ssl_root_cert c)
    (binary_protocol c) (auto_prepare c) value (application_name c) (search_path c) (work_mem_mb c) (jit c)
    (extra_options c).
Definition with_application_name (c : ConnectionConfig) (value : bytes) : ConnectionConfig :=
  mkConfig (credentials c) (role c) (priority c) (cluster_name c) (connect_timeout c) (statement_timeout c)
    (idle_in_transaction_timeout c) (lock_timeout c) (ssl_mode c) (ssl_cert c) (ssl_key c) (ssl_root_cert c)
    (binary_protocol c) (auto_prepare c) (pipeline_mode c) value (search_path c) (work_mem_mb c) (jit c)
    (extra_options c).
Definition with_search_path (c : ConnectionConfig) (value : bytes) : ConnectionConfig :=
  mkConfig (credentials c) (role c) (priority c) (cluster_name c) (connect_timeout c) (statement_timeout c)
    (idle_in_transaction_timeout c) (lock_timeout c) (ssl_mode c) (ssl_cert c) (ssl_key c) (ssl_root_cert c)
    (binary_protocol c) (auto_prepare c) (pipeline_mode c) (application_name c) value (work_mem_mb c) (jit c)
    (extra_options c).
Definition with_work_mem_mb (c : ConnectionConfig) (value : N) : ConnectionConfig :=
  mkConfig (credentials c) (role c) (priority c) (cluster_name c) (connect_timeout c) (statement_timeout c)
    (idle_in_transaction_timeout c) (lock_timeout c) (ssl_mode c) (ssl_cert c) (ssl_key c) (ssl_root_cert c)
    (binary_protocol c) (auto_prepare c) (pipeline_mode c) (application_name c) (search_path c) value (jit c)
    (extra_options c).
Definition with_jit (c : ConnectionConfig) (value : bool) : ConnectionConfig :=
  mkConfig (credentials c) (role c) (priority c) (cluster_name c) (connect_timeout c) (statement_timeout c)
    (idle_in_transaction_timeout c) (lock_timeout c) (ssl_mode c) (ssl_cert c) (ssl_key c) (ssl_root_cert c)
    (binary_protocol c) (auto_prepare c) (pipeline_mode c) (application_name c) (search_path c) (work_mem_mb c) value
    (extra_options c).
Definition with_extra_options (c : ConnectionConfig) (value : list (bytes * bytes)) : ConnectionConfig :=
  mkConfig (credentials c) (role c) (priority c) (cluster_name c) (connect_timeout c) (statement_timeout c)
    (idle_in_transaction_timeout c) (lock_timeout c) (ssl_mode c) (ssl_cert c) (ssl_key c) (ssl_root_cert c)
    (binary_protocol c) (auto_prepare c) (pipeline_mode c) (application_name c) (search_path c) (work_mem_mb c)
    (jit c) value.

Definition with_host (c : ConnectionConfig) (value : bytes) : ConnectionConfig :=
  let k := credentials c in
  with_credentials c {| host := value; port := port k; dbname := dbname k; user := user k; password := password k |}.
Definition with_port (c : ConnectionConfig) (value : bytes) : ConnectionConfig :=
  let k := credentials c in
  with_credentials c {| host := host k; port := value; dbname := dbname k; user := user k; password := password k |}.
Definition with_port_number (c : ConnectionConfig) (value : N) : ConnectionConfig :=
  let k := credentials c in
  with_credentials c {| host := host k; port := to_decimal value; dbname := dbname k; user := user k; password := password k |}.
Definition with_dbname (c : ConnectionConfig) (value : bytes) : ConnectionConfig :=
  let k := credentials c in
  with_credentials c {| host := host k; port := port k; dbname := value; user := user k; password := password k |}.
Definition with_user (c : ConnectionConfig) (value : bytes) : ConnectionConfig :=
  let k := credentials c in
  with_credentials c {| host := host k; port := port k; dbname := dbname k; user := value; password := password k |}.
Definition with_password (c : ConnectionConfig) (value : bytes) : ConnectionConfig :=
  let k := credentials c in
  with_credentials c {| host := host k; port := port k; dbname := dbname k; user := user k; password := value |}.

Definition with_extra_option (c : ConnectionConfig) (key value : bytes) : ConnectionConfig :=
  with_extra_options c (map_set (extra_options c) key value).

Definition finalize (c : ConnectionConfig) : result exn ConnectionConfig := _ ← validate c; Ok c.

(** The presets. *)
Definition builder : ConnectionConfig := default_config default_credentials.

Definition local_dev : result exn ConnectionConfig :=
  finalize (with_connect_timeout (with_ssl_mode (with_port_number (with_host builder (B "localhost")) 5432) DISABLE) 5).

Definition testing : result exn ConnectionConfig :=
  let c := with_port_number (with_host builder (B "localhost")) 5433 in
  let c := with_password (with_user (with_dbname c (B "test_db")) (B "test_user")) (B "test_password") in
  finalize (with_connect_timeout (with_ssl_mode c DISABLE) 10).

Definition production : result exn ConnectionConfig :=
  let c := with_statement_timeout (with_connect_timeout (with_ssl_mode builder VERIFY_FULL) 30) 60 in
  finalize (with_jit (with_pipeline_mode c true) true).

(** ** The keyword/value format

    How libpq documents a connection string: settings are [keyword = value], separated
    by white space, with optional spaces around the equal sign; a value may be in single
    quotes, and a backslash takes the next character literally. *)
Fixpoint read_plain (s : bytes) : bytes * bytes :=
  match s with
  | [] => ([], [])
  | c :: s' =>
      if is_space c then ([], s')
      else if bool_decide (c = "\"%char) then
        match s' with
        | [] => ([], [])
        | d :: s'' => let '(v, rest) := read_plain s'' in (d :: v, rest)
        end
      else let '(v, rest) := read_plain s' in (c :: v, rest)
  end.

Fixpoint read_quoted (s : bytes) : option (bytes * bytes) :=
  match s with
  | [] => None
  | c :: s' =>
      if bool_decide (c = "\"%char) then
        match s' with
        | [] => None
        | d :: s'' => '(v, rest) ← read_quoted s''; Some (d :: v, rest)
        end
      else if bool_decide (c = "'"%char) then Some ([], s')
      else '(v, rest) ← read_quoted s'; Some (c :: v, rest)
  end.

Fixpoint read_keyword (s : bytes) : bytes * bytes :=
  match s with
  | [] => ([], [])
  | c :: s' =>
      if bool_decide (c = "="%char) then ([], s)
      else if is_space c then ([], skip_space s')
      else let '(k, rest) := read_keyword s' in (c :: k, rest)
  end.

Fixpoint conninfo_loop (fuel : nat) (s : bytes) : option (list (bytes * bytes)) :=
  match fuel, skip_space s with
  | _, [] => Some []
  | 0, _ => None
  | S fuel, s =>
      let '(k, rest) := read_keyword s in
      match rest with
      | c :: rest =>
          if bool_decide (c = "="%char) then
            '(v, rest) ← match skip_space rest with
                         | d :: quoted => if bool_decide (d = "'"%char) then read_quoted quoted else Some (read_plain (d :: quoted))
                         | [] => Some ([], [])
                         end;
            settings ← conninfo_loop fuel rest; Some ((k, v) :: settings)
          else None
      | [] => None
      end
  end.

Definition conninfo (s : bytes) : option (list (bytes * bytes)) := conninfo_loop (length s) s.

(** ** Reading back *)

(** Characters that libpq treats as itself inside an escaped value: no white space but
    the blank, and no terminator. *)
Definition plain_char (c : ascii) : bool := negb (code c =? 0) && negb ((9 <=? code c) && (code c <=? 13)).
Definition clean (v : bytes) : Prop := Forall (fun c => plain_char c = true) v.

Definition keyword_char (c : ascii) : bool := negb (is_space c) && negb (bool_decide (c = "="%char)).
Definition keyword (k : bytes) : Prop := k <> [] /\ Forall (fun c => keyword_char c = true) k.

Lemma space_plain c : plain_char c = true -> is_space c = true -> c = " "%char.
Proof.
  unfold plain_char, is_space, code. intros [_ H1]%andb_true_iff H2. assert (E : nat_of_ascii c = 32).
  { apply orb_true_iff in H2 as [H2|H2]; [by apply Nat.eqb_eq|]. by rewrite H2 in H1. }
  rewrite <- (ascii_nat_embedding c), E. done.
Qed.

Lemma read_quoted_escaped v rest : read_quoted (fst (escape_loop v) ++ "'"%char :: rest) = Some (v, rest).
Proof.
  induction v as [|c v IH]; [done|]. cbn [escape_loop]. destruct (escape_loop v) as [e q]. cbn [fst] in *.
  destruct (bool_decide_reflect (c = "\"%char)) as [->|H1]; [cbn; by rewrite IH|].
  destruct (bool_decide_reflect (c = "'"%char)) as [->|H2]; [cbn; by rewrite IH|]. cbn.
  rewrite (bool_decide_eq_false_2 _ H1), (bool_decide_eq_false_2 _ H2). by rewrite IH.
Qed.

(** What follows a value: the end, or a blank. *)
Inductive follows : bytes -> bytes -> Prop :=
| follows_end : follows [] []
| follows_blank rest : follows (" "%char :: rest) rest.

Lemma read_plain_escaped v tail rest :
  snd (escape_loop v) = false -> clean v -> follows tail rest ->
  fst (escape_loop v) = v /\ read_plain (v ++ tail) = (v, rest) /\ head v <> Some "'"%char /\ Forall (fun c => is_space c = false) v.
Proof.
  intros Hq Hv Hf. induction Hv as [|c v Hc Hv IH]; [split_and!; [done|by destruct Hf|done|done]|]. cbn [escape_loop] in *.
  destruct (escape_loop v) as [e q]. destruct (bool_decide_reflect (c = "\"%char)) as [|H1]; [done|].
  destruct (bool_decide_reflect (c = "'"%char)) as [|H2]; [done|]. cbn [fst snd orb] in *.
  apply orb_false_iff in Hq as [[Hb _]%orb_false_iff ->]. destruct IH as (-> & IH & _ & Hs); [done|].
  assert (Hn : is_space c = false).
  { destruct (is_space c) eqn:E; [|done]. apply space_plain in E; [|done]. by subst. }
  split_and!; [done| |cbn; congruence|by constructor]. cbn. rewrite Hn, (bool_decide_eq_false_2 _ H1). by rewrite IH.
Qed.

(** A value as it stands in the string. *)
Definition read_value (s : bytes) : option (bytes * bytes) :=
  match skip_space s with
  | d :: quoted => if bool_decide (d = "'"%char) then read_quoted quoted else Some (read_plain (d :: quoted))
  | [] => Some ([], [])
  end.

Lemma skip_blank tail rest : follows tail rest -> skip_space tail = skip_space rest.
Proof. by destruct 1. Qed.

Lemma read_value_escaped v tail rest :
  clean v -> follows tail rest -> exists rest', read_value (escape_connection_value v ++ tail) = Some (v, rest') /\ skip_space rest' = skip_space rest.
Proof.
  intros Hv Hf. unfold escape_connection_value. destruct (bool_decide_reflect (v = [])) as [->|Hn]; [exists tail; split; [done|by apply skip_blank]|].
  destruct (escape_loop v) as [e [|]] eqn:E.
  - exists tail. split; [|by apply skip_blank]. unfold read_value. cbn. rewrite <- app_assoc. change e with (fst (e, true)). rewrite <- E. apply read_quoted_escaped.
  - destruct (read_plain_escaped v tail rest) as (H1 & H2 & H3 & H4); [by rewrite E|done|done|]. rewrite E in H1. cbn in H1. subst e.
    exists rest. split; [|done]. destruct v as [|c v]; [done|]. unfold read_value. cbn [app skip_space]. inversion H4 as [|? ? Hc _]. subst.
    rewrite Hc, bool_decide_eq_false_2 by (intros ->; by apply H3). f_equal. exact H2.
Qed.

Lemma read_keyword_spec k rest : keyword k -> read_keyword (k ++ "="%char :: rest) = (k, "="%char :: rest).
Proof.
  intros [_ Hk]. induction Hk as [|c k Hc _ IH]; [done|]. cbn. unfold keyword_char in Hc. apply andb_true_iff in Hc as [H1%negb_true_iff H2%negb_true_iff].
  by rewrite H1, H2, IH.
Qed.

Definition setting (kv : bytes * bytes) : bytes := fst kv ++ B "=" ++ escape_connection_value (snd kv).
Definition settings_ok (l : list (bytes * bytes)) : Prop := Forall (fun kv => keyword (fst kv) /\ clean (snd kv)) l.

(** Settings, each preceded by a blank. *)
Definition spread (l : list (bytes * bytes)) : bytes := mbind (fun kv => B " " ++ setting kv) l.

Lemma keyword_start k rest : keyword k -> skip_space (k ++ rest) = k ++ rest.
Proof.
  intros [Hn Hk]. destruct Hk as [|c k Hc _]; [done|]. cbn. unfold keyword_char in Hc. by apply andb_true_iff in Hc as [->%negb_true_iff _].
Qed.

Lemma spread_follows l : exists rest, follows (spread l) rest /\ rest = drop 1 (spread l).
Proof. destruct l as [|kv l]; [by exists []; split; [constructor|]|]. eexists. split; [apply follows_blank|done]. Qed.

Lemma conninfo_skip fuel s s' : skip_space s = skip_space s' -> conninfo_loop fuel s = conninfo_loop fuel s'.
Proof. intros H. destruct fuel; cbn; by rewrite H. Qed.

Lemma conninfo_spread fuel l : settings_ok l -> length l <= fuel -> conninfo_loop fuel (spread l) = Some l.
Proof.
  intros Hl. revert fuel. induction Hl as [|[k v] l [Hk Hv] Hl IH]; intros fuel Hf; [by destruct fuel|]. destruct fuel as [|fuel]; [cbn in Hf; lia|].
  cbn in Hf. cbn [spread mbind list_bind]. fold (spread l). unfold setting. cbn [fst snd] in *.
  rewrite <- !app_assoc. change (B " " ++ ?x) with (" "%char :: x). cbn [conninfo_loop skip_space]. change (is_space " ") with true. cbv iota.
  rewrite keyword_start by done. destruct (k ++ _) as [|a x] eqn:E; [by destruct Hk, k|]. rewrite <- E. change (B "=" ++ ?x) with ("="%char :: x).
  rewrite read_keyword_spec by done. cbv iota beta. rewrite bool_decide_eq_true_2 by done.
  destruct (spread_follows l) as (rest & Hfo & _). destruct (read_value_escaped v (spread l) rest Hv Hfo) as (rest' & Hr & Hs).
  fold (read_value (escape_connection_value v ++ spread l)). rewrite Hr. cbn.
  rewrite (conninfo_skip fuel rest' (spread l)), IH by (lia || (rewrite Hs; symmetry; by apply skip_blank)). done.
Qed.

Lemma spread_length l : settings_ok l -> 2 * length l <= length (spread l).
Proof.
  induction 1 as [|[k v] l _ _ IH]; [done|]. cbn [spread mbind list_bind]. fold (spread l). unfold setting. rewrite !length_app. cbn. lia.
Qed.

(** ** What is configured *)
Definition given (key : string) (value : bytes) : list (bytes * bytes) :=
  if bool_decide (value = []) then [] else [(B key, value)].
Definition given_option (key : string) (value : option bytes) : list (bytes * bytes) :=
  match value with Some v => [(B key, v)] | None => [] end.

Definition credential_settings (c : ConnectionCredentials) : list (bytes * bytes) :=
  given "host" (host c) ++ given "port" (port c) ++ given "dbname" (dbname c) ++ given "user" (user c) ++ given "password" (password c).

Definition option_settings (c : ConnectionConfig) : list (bytes * bytes) :=
  [(B "sslmode", default [] (ssl_mode_to_string (ssl_mode c)))] ++ given_option "sslcert" (ssl_cert c) ++ given_option "sslkey" (ssl_key c) ++
  given_option "sslrootcert" (ssl_root_cert c) ++
  (if (0 <? connect_timeout c)%Z then [(B "connect_timeout", to_decimal_Z (connect_timeout c))] else []) ++
  given "application_name" (application_name c) ++ extra_options c.

Definition settings (c : ConnectionConfig) : list (bytes * bytes) := credential_settings (credentials c) ++ option_settings c.

Lemma spread_app l k : spread (l ++ k) = spread l ++ spread k.
Proof. apply bind_app. Qed.

(** The credentials are written with a trailing blank instead of a leading one. *)
Definition trailing (l : list (bytes * bytes)) : bytes := mbind (fun kv => setting kv ++ B " ") l.

Lemma trailing_spread l : B " " ++ trailing l = spread l ++ B " ".
Proof.
  induction l as [|kv l IH]; [done|]. cbn [spread trailing mbind list_bind]. fold (spread l) (trailing l).
  rewrite <- !app_assoc, <- IH. done.
Qed.

Lemma trailing_credential (key : string) k v : B key = B k ++ B "=" -> credential key v = trailing (given k v).
Proof.
  intros E. unfold credential, given. case_bool_decide; [done|]. cbn. unfold setting. cbn [fst snd]. rewrite E, app_nil_r, <- !app_assoc. done.
Qed.

Lemma trailing_app l k : trailing (l ++ k) = trailing l ++ trailing k.
Proof. apply bind_app. Qed.

Lemma credentials_string_spec c s : credentials_string c = Ok s -> B " " ++ s = spread (credential_settings c).
Proof.
  unfold credentials_string. destruct (validate_credentials c) as [[]|] eqn:Hv; [|done]. cbn [mbind result_bind].
  assert (Hd : dbname c <> []) by (unfold validate_credentials in Hv; by destruct (bool_decide_reflect (dbname c = []))).
  rewrite (trailing_credential _ "host"), (trailing_credential _ "port"), (trailing_credential _ "dbname"), (trailing_credential _ "user"),
    (trailing_credential _ "password") by done. rewrite <- !trailing_app. fold (credential_settings c). intros [= <-].
  pose proof (trailing_spread (credential_settings c)) as Ht.
  destruct (spread (credential_settings c)) as [|b x] eqn:E.
  { unfold credential_settings in E. rewrite !spread_app in E. unfold given at 3 in E. rewrite (bool_decide_eq_false_2 _ Hd) in E.
    apply app_nil in E as [_ E]. apply app_nil in E as [_ E]. by apply app_nil in E as [E _]. }
  injection Ht as <- Ht. rewrite Ht. rewrite last_snoc, bool_decide_eq_true_2 by done. by rewrite removelast_last.
Qed.

Lemma escape_unquoted v : Forall (fun c => is_digit c = true) v -> v <> [] -> escape_connection_value v = v.
Proof.
  intros Hv Hn. unfold escape_connection_value. rewrite bool_decide_eq_false_2 by done.
  assert (H : escape_loop v = (v, false)); [|by rewrite H]. clear Hn. induction Hv as [|c v Hc _ IH]; [done|]. cbn. rewrite IH.
  rewrite !bool_decide_eq_false_2; [done|..]; intros ->; by vm_compute in Hc.
Qed.

Lemma option_settings_spec c mode :
  ssl_mode_to_string (ssl_mode c) = Some mode ->
  B " sslmode=" ++ mode ++ optional " sslcert=" (ssl_cert c) ++ optional " sslkey=" (ssl_key c) ++
  optional " sslrootcert=" (ssl_root_cert c) ++
  (if (0 <? connect_timeout c)%Z then B " connect_timeout=" ++ to_decimal_Z (connect_timeout c) else []) ++
  (if bool_decide (application_name c = []) then [] else B " application_name=" ++ escape_connection_value (application_name c)) ++
  mbind extra (extra_options c) = spread (option_settings c).
Proof.
  intros Hm. unfold option_settings. rewrite !spread_app, Hm. change (default [] (Some mode)) with mode.
  replace (spread [(B "sslmode", mode)]) with (B " sslmode=" ++ mode) by (by destruct (ssl_mode c); cbn in Hm; simplify_eq).
  assert (Ho : forall key k v, B key = B " " ++ B k ++ B "=" -> optional key v = spread (given_option k v)).
  { intros key k [v|] E; [|done]. cbn. rewrite E. unfold setting. cbn [fst snd]. by rewrite app_nil_r, <- !app_assoc. }
  rewrite (Ho _ "sslcert"), (Ho _ "sslkey"), (Ho _ "sslrootcert") by done. rewrite <- !app_assoc. do 5 f_equal.
  f_equal; [|f_equal].
  - destruct (Z.ltb_spec 0 (connect_timeout c)) as [Hz|]; [|done]. cbn. unfold setting. cbn [fst snd]. rewrite app_nil_r.
    unfold to_decimal_Z. rewrite (proj2 (Z.ltb_ge _ _)) by lia. rewrite escape_unquoted; [done|apply to_decimal_is_digits|apply to_decimal_not_nil].
  - unfold given. case_bool_decide; [done|]. cbn. unfold setting. cbn [fst snd]. by rewrite app_nil_r.
Qed.

(** The members the connection string is made of. *)
Definition covered (c : ConnectionConfig) :=
  (credentials c, ssl_mode c, (ssl_cert c, ssl_key c, ssl_root_cert c), connect_timeout c, application_name c, extra_options c).

(** C30. Which settings reach libpq, and that they reach it unchanged. Reading the
    connection string in its documented format, libpq finds host, port, database, user and
    password, the SSL mode and the three SSL files, the connect timeout, the application name and
    the extra options, each exactly when it is set (the mode always, a timeout when it is
    positive), in that order and with the value configured, whatever quotes, backslashes,
    blanks or equal signs it contains. The values must be free of line breaks, tabs and
    terminators, and extra options must have proper keywords. Nothing else of the
    configuration is in the string: the search path, the statement, lock and idle timeouts,
    work_mem, JIT, the protocol switches and the node's role, priority and cluster make no
    difference to it, although its documentation says that it includes all configured
    options. *)
Theorem connection_string_read (c : ConnectionConfig) (s : bytes) :
  to_connection_string c = Ok (Some s) -> settings_ok (settings c) ->
  conninfo s = Some (settings c) /\
  forall c', validate c' = Ok tt -> covered c' = covered c -> to_connection_string c' = Ok (Some s).
Proof.
  intros Hs Hok. split.
  - revert Hs. unfold to_connection_string. destruct (validate c) as [[]|] eqn:Hv; [|done].
    destruct (credentials_string (credentials c)) as [base|] eqn:Hb; [|done].
    cbn [mbind result_bind]. destruct (ssl_mode_to_string (ssl_mode c)) as [mode|] eqn:Hm; [|done]. cbn [fmap option_fmap option_map].
    rewrite (option_settings_spec c mode Hm). intros [= <-]. apply credentials_string_spec in Hb.
    assert (Hs : " "%char :: (base ++ spread (option_settings c)) = spread (settings c)).
    { unfold settings. by rewrite spread_app, <- Hb. }
    unfold conninfo. rewrite (conninfo_skip _ _ (spread (settings c))) by (by rewrite <- Hs).
    apply conninfo_spread; [done|]. pose proof (spread_length _ Hok) as Hl. rewrite <- Hs in Hl. cbn [length] in Hl.
    assert (1 <= length (settings c)) by (unfold settings, option_settings; rewrite length_app; cbn; lia).
    change (length (settings c) <= length (base ++ spread (option_settings c))). lia.
  - intros c' Hv' [= E1 E2 E3 E4 E5 E6 E7 E8]. unfold to_connection_string in *. rewrite Hv', E1, E2, E3, E4, E5, E6, E7, E8.
    by destruct (validate c).
Qed.

(** ** Validation *)
Lemma validate_port_spec p : validate_port p = Ok tt <-> p = [] \/ exists v, stoi p = Ok v /\ (1 <= v <= 65535)%Z.
Proof.
  unfold validate_port. case_bool_decide as Hp; [split; auto|]. destruct (stoi p) as [v|[]] eqn:E; try (split; [done|intros [?|(? & ? & _)]; congruence]).
  case_decide as Hv; split; try done; [intros [?|(w & [= <-] & ?)]; [done|lia]|]. intros _. right. exists v. split; [done|lia].
Qed.

Lemma validate_port_error p e : validate_port p = Err e -> exists w, e = InvalidArgument w.
Proof. unfold validate_port. case_bool_decide; [done|]. destruct (stoi p) as [v|[]]; [case_decide; [|done]|..]; intros [= <-]; eauto. Qed.

(** A configuration is accepted exactly when a database and a user are given, the port is
    empty or starts with a number from 1 to 65535, certificate verification comes with a
    root certificate, certificate and key come together and neither timeout nor priority
    is negative; every rejection is an invalid-argument error, and the conversion to a
    connection string throws exactly for the rejected ones. *)
Theorem validate_correct (c : ConnectionConfig) :
  let k := credentials c in
  (validate c = Ok tt <->
    dbname k <> [] /\ user k <> [] /\ (port k = [] \/ exists v, stoi (port k) = Ok v /\ (1 <= v <= 65535)%Z) /\
    (ssl_mode c = VERIFY_CA \/ ssl_mode c = VERIFY_FULL -> ssl_root_cert c <> None) /\
    (ssl_cert c = None <-> ssl_key c = None) /\ (0 <= connect_timeout c)%Z /\ (0 <= priority c)%Z) /\
  (forall e, validate c = Err e -> exists w, e = InvalidArgument w) /\
  (validate c = Ok tt <-> exists s, to_connection_string c = Ok s).
Proof.
  cbn zeta. split_and!.
  - rewrite <- validate_port_spec. unfold validate, validate_credentials.
    destruct (bool_decide_reflect (dbname (credentials c) = [])); [split; [done|tauto]|].
    destruct (bool_decide_reflect (user (credentials c) = [])); [split; [done|tauto]|].
    destruct (validate_port (port (credentials c))) as [[]|]; [|split; [done|intros (_ & _ & ? & _); congruence]]. cbn [mbind result_bind].
    destruct (Z.ltb_spec (connect_timeout c) 0), (Z.ltb_spec (priority c) 0);
    destruct (bool_decide_reflect (ssl_mode c = VERIFY_CA)), (bool_decide_reflect (ssl_mode c = VERIFY_FULL)),
      (bool_decide_reflect (ssl_root_cert c = None)), (bool_decide_reflect (ssl_cert c = None)), (bool_decide_reflect (ssl_key c = None));
      cbn; (split; [try done; intros _; split_and!; try done; try lia; tauto|intros (_ & _ & _ & ? & ? & ? & ?); try done; try lia; tauto]).
  - intros e. unfold validate. destruct (validate_credentials (credentials c)) as [[]|e'] eqn:E; cbn [mbind result_bind].
    + repeat case_match; intros [= <-]; eauto.
    + intros [= ->]. unfold validate_credentials in E. repeat case_match; simplify_eq; eauto using validate_port_error.
  - unfold to_connection_string, credentials_string. split.
    + intros Hv. rewrite Hv. unfold validate in Hv. destruct (validate_credentials (credentials c)); [|done]. cbn [mbind result_bind]. eauto.
    + intros [s Hs]. by destruct (validate c) as [[]|].
Qed.

(** ** Instances *)
Definition quoted_config : ConnectionConfig :=
  with_extra_option (with_password (with_user (with_dbname builder (B "app db")) (B "o'brien")) (B "a\b='c'")) (B "options") (B "-c x=1").

Lemma connection_string_read_witness :
  exists s, to_connection_string quoted_config = Ok (Some s) /\ conninfo s = Some (settings quoted_config) /\
    (B "password", B "a\b='c'") ∈ settings quoted_config /\
    to_connection_string (with_statement_timeout (with_search_path quoted_config (B "audit")) 5) = Ok (Some s).
Proof.
  destruct (to_connection_string quoted_config) as [[s|]|] eqn:E; [|by vm_compute in E..]. exists s. split; [done|].
  destruct (connection_string_read quoted_config s E) as [H1 H2].
  - unfold settings_ok. repeat (constructor; [split; [split; [done|by repeat constructor]|by repeat constructor]|]). constructor.
  - split; [exact H1|]. split; [cbn; repeat (first [left; reflexivity|right])|]. apply H2; reflexivity.
Defined.

(** The presets for development and production name no database or user, so they always
    throw; the one for tests is accepted. *)
Example presets_throw :
  local_dev = Err (InvalidArgument (B "Database name (dbname) must be specified")) /\
  production = Err (InvalidArgument (B "Database name (dbname) must be specified")) /\
  (exists c, testing = Ok c).
Proof. split_and!; [by vm_compute|by vm_compute|]. eexists. by vm_compute. Qed.

(** Even with credentials, the production preset lacks the root certificate it needs. *)
Example production_unverifiable :
  validate (with_user (with_dbname (with_ssl_mode builder VERIFY_FULL) (B "d")) (B "u")) =
  Err (InvalidArgument (B "ssl_root_cert is required when ssl_mode is VERIFY_CA or VERIFY_FULL")).
Proof. by vm_compute. Qed.

(** A tab in a value is not quoted: libpq ends the value there, and drops it or rejects
    what follows. *)
Example tab_ends_value :
  conninfo (setting (B "password", B "secret" ++ ["009"%char])) = Some [(B "password", B "secret")] /\
  conninfo (setting (B "password", B "my" ++ "009"%char :: B "secret")) = None.
Proof. by vm_compute. Qed.

(** A port with trailing text is accepted. *)
Example port_suffix_accepted : validate_port (B "5432; drop") = Ok tt.
Proof. by vm_compute. Qed.
