(* ===== verification/ConnectionPool.v ===== *)
(** * The PostgreSQL connection pool

    [Connection] with its lifecycle states, [ConnectionHolder], and
    [ConnectionPool]: one mutex-guarded free list and one queue of blocked threads
    and suspended coroutines. Each critical section is one definition over the
    pool's members and the calls in progress; a call that opens a connection does so
    between two of them, with the mutex released. The system is the interleaving of
    those sections. *)

From S2P Require Import Prelude.

(** ** [Connection] *)
Inductive ConnectionState := DISCONNECTED | READY | BROKEN.

#[export] Instance connection_state_eq_dec : EqDecision ConnectionState.
Proof. solve_decision. Defined.

Record Connection := { conn_handle : option nat; conn_state : ConnectionState }.

Definition disconnected : Connection := {| conn_handle := None; conn_state := DISCONNECTED |}.

(** [open]: [raw] is what [PQconnectdb] returned and [ok] whether [PQstatus] is
    good; the second component lists the handles passed to [PQfinish]. *)
Definition conn_open (raw : option nat) (ok : bool) : Connection * list nat :=
  match raw with
  | None => (disconnected, [])
  | Some h => if ok then ({| conn_handle := Some h; conn_state := READY |}, []) else (disconnected, [h])
  end.

Definition conn_ready (c : Connection) : bool := bool_decide (conn_state c = READY).

Definition conn_close (c : Connection) : Connection * list nat :=
  (disconnected, match conn_handle c with Some h => [h] | None => [] end).

Definition conn_verify (c : Connection) (ok : bool) : Connection * bool :=
  if conn_ready c then
    if ok then (c, true) else ({| conn_handle := conn_handle c; conn_state := BROKEN |}, false)
  else (c, false).

(** [exec] tells whether the server completes a statement. *)
Definition run_cleanup (c : Connection) (ok : bool) (exec : bytes -> bool) (sql : option bytes) : Connection * bool :=
  let '(c, alive) := conn_verify c ok in
  if negb alive then (c, false) else
  match sql with
  | None | Some [] => (c, true)
  | Some stmt => if exec stmt then (c, true) else ({| conn_handle := conn_handle c; conn_state := BROKEN |}, false)
  end.

(** Move assignment: the target is closed, the source left disconnected. *)
Definition conn_move_assign (dst src : Connection) : Connection * Connection * list nat :=
  (src, disconnected, snd (conn_close dst)).

(** ** [ConnectionHolder] *)
Inductive CleanupQuery := NoCleanup | ResetAll | DeallocateAll | DiscardTemp | DiscardAll.

Definition to_sql (q : CleanupQuery) : option bytes :=
  match q with
  | NoCleanup => None
  | ResetAll => Some (B "RESET ALL")
  | DeallocateAll => Some (B "DEALLOCATE ALL")
  | DiscardTemp => Some (B "DISCARD TEMP")
  | DiscardAll => Some (B "DISCARD ALL")
  end.

Record Holder := { connection : Connection; cleanup_sql : option bytes }.

Definition set_cleanup (h : Holder) (q : CleanupQuery) : Holder := {| connection := connection h; cleanup_sql := to_sql q |}.

Definition run_cleanup_sql (h : Holder) (ok : bool) (exec : bytes -> bool) (fallback : option bytes) : Holder * bool :=
  let sql := match cleanup_sql h with Some s => Some s | None => fallback end in
  let '(c, b) := run_cleanup (connection h) ok exec sql in
  ({| connection := c; cleanup_sql := None |}, b).

(** ** [PoolConfig] *)
Record PoolConfig := {
  capacity : nat; min_connections : nat; connect_timeout : Z; idle_timeout : Z; health_check_interval : Z; max_lifetime : Z;
  pool_cleanup_sql : bytes
}.

Definition default_pool_config : PoolConfig :=
  {| capacity := 16; min_connections := 2; connect_timeout := 10; idle_timeout := 300; health_check_interval := 30;
     max_lifetime := 3600; pool_cleanup_sql := [] |}.

Definition pool_validate (c : PoolConfig) : result exn unit :=
  if decide (capacity c = 0) then Err (InvalidArgument (B "Pool capacity must be greater than 0"))
  else if decide (capacity c < min_connections c) then Err (InvalidArgument (B "min_connections cannot exceed capacity"))
  else if decide (connect_timeout c <= 0)%Z then Err (InvalidArgument (B "connect_timeout must be positive"))
  else Ok ().

(** ** [ConnectionPool]: the members *)
Inductive Entry := SyncEntry (w : nat) | AsyncEntry (w : nat).

#[export] Instance entry_eq_dec : EqDecision Entry.
Proof. solve_decision. Defined.

Record Pool := { holders : list nat; free : list nat; waiters : list Entry; created : nat; is_shutdown : bool }.

(** ** Calls in progress

    Calls and holders are numbered. A call to [try_acquire] or [acquire] returns; an
    [async_acquire] posts a completion to its executor. *)
Inductive Kind := TryAcquire | Acquire | AsyncAcquire.
Inductive Completion := Success (h : nat) | TimedOut | Aborted.

#[export] Instance kind_eq_dec : EqDecision Kind.
Proof. solve_decision. Defined.

Record Calls := {
  creating : list (nat * Kind);      (* opening a connection, mutex released *)
  blocked : list nat;                (* threads inside the condition wait *)
  notified : list nat;               (* threads whose condition variable was notified *)
  handed : list (nat * nat);         (* blocked threads given a holder, with it *)
  claimed : list nat;                (* async waiters whose [claimed] flag is set *)
  returned : list nat;               (* sync calls that returned *)
  posted : list (nat * Completion);  (* async completions *)
  lent : list nat                    (* holders in a borrower's hands *)
}.

Definition set_free (p : Pool) f : Pool :=
  {| holders := holders p; free := f; waiters := waiters p; created := created p; is_shutdown := is_shutdown p |}.
Definition set_waiters (p : Pool) ws : Pool :=
  {| holders := holders p; free := free p; waiters := ws; created := created p; is_shutdown := is_shutdown p |}.

Definition set_creating (c : Calls) l : Calls :=
  {| creating := l; blocked := blocked c; notified := notified c; handed := handed c; claimed := claimed c; returned := returned c; posted := posted c; lent := lent c |}.
Definition set_blocked (c : Calls) l : Calls :=
  {| creating := creating c; blocked := l; notified := notified c; handed := handed c; claimed := claimed c; returned := returned c; posted := posted c; lent := lent c |}.
Definition set_handed (c : Calls) l : Calls :=
  {| creating := creating c; blocked := blocked c; notified := notified c; handed := l; claimed := claimed c; returned := returned c; posted := posted c; lent := lent c |}.
Definition set_claimed (c : Calls) l : Calls :=
  {| creating := creating c; blocked := blocked c; notified := notified c; handed := handed c; claimed := l; returned := returned c; posted := posted c; lent := lent c |}.
Definition set_lent (c : Calls) l : Calls :=
  {| creating := creating c; blocked := blocked c; notified := notified c; handed := handed c; claimed := claimed c; returned := returned c; posted := posted c; lent := l |}.

(** [cv.notify_one()] on the condition variable of thread [w], the only one that waits on it. *)
Definition notify (w : nat) (c : Calls) : Calls :=
  {| creating := creating c; blocked := blocked c; notified := w :: notified c; handed := handed c; claimed := claimed c;
     returned := returned c; posted := posted c; lent := lent c |}.

(** Call [w] ends: a sync call returns, an async one is posted its outcome. *)
Definition finish (k : Kind) (w : nat) (o : Completion) (c : Calls) : Calls :=
  match k with
  | AsyncAcquire =>
      {| creating := creating c; blocked := blocked c; notified := notified c; handed := handed c; claimed := claimed c;
         returned := returned c; posted := posted c ++ [(w, o)]; lent := lent c |}
  | _ =>
      {| creating := creating c; blocked := blocked c; notified := notified c; handed := handed c; claimed := claimed c;
         returned := returned c ++ [w]; posted := posted c; lent := lent c |}
  end.

(** Call [w] ends with holder [h]. *)
Definition give (k : Kind) (w h : nat) (c : Calls) : Calls :=
  let c := finish k w (Success h) c in set_lent c (h :: lent c).

(** ** The critical sections *)

(** No slot: [try_acquire] gives up, the others queue. A thread evaluates the condition
    before it blocks: on a pool that is shut down it takes its entry back and returns. *)
Definition wait_for_slot (k : Kind) (w : nat) (p : Pool) (c : Calls) : Pool * Calls :=
  match k with
  | TryAcquire => (p, finish k w TimedOut c)
  | Acquire =>
      if is_shutdown p then (p, finish k w TimedOut c)
      else (set_waiters p (waiters p ++ [SyncEntry w]), set_blocked c (w :: blocked c))
  | AsyncAcquire => (set_waiters p (waiters p ++ [AsyncEntry w]), c)
  end.

(** The first section of every acquisition. *)
Definition enter (cap : nat) (k : Kind) (w : nat) (p : Pool) (c : Calls) : Pool * Calls :=
  if is_shutdown p then (p, finish k w Aborted c) else
  match free p with
  | h :: f => (set_free p f, give k w h c)
  | [] => if created p <? cap then (p, set_creating c ((w, k) :: creating c)) else wait_for_slot k w p c
  end.

(** The second section, after [try_create_holder] returned [o]. Only the async
    path looks at the shutdown flag again. *)
Definition finish_create (k : Kind) (w : nat) (o : option nat) (p : Pool) (c : Calls) : Pool * Calls :=
  let c := set_creating c (filter (fun x => fst x <> w) (creating c)) in
  if bool_decide (k = AsyncAcquire) && is_shutdown p then (p, finish k w Aborted c) else
  match o with
  | Some h =>
      ({| holders := holders p ++ [h]; free := free p; waiters := waiters p; created := S (created p); is_shutdown := is_shutdown p |},
       give k w h c)
  | None => wait_for_slot k w p c
  end.

(** The loop of [return_holder]: the first waiter that is not already claimed. *)
Fixpoint next_waiter (claimed : list nat) (ws : list Entry) : list Entry * option Entry :=
  match ws with
  | [] => ([], None)
  | SyncEntry w :: ws' => (ws', Some (SyncEntry w))
  | AsyncEntry w :: ws' => if bool_decide (w ∈ claimed) then next_waiter claimed ws' else (ws', Some (AsyncEntry w))
  end.

(** The borrower gives [h] back, [return_holder]. *)
Definition return_holder (h : nat) (p : Pool) (c : Calls) : Pool * Calls :=
  let c := set_lent c (remove_one h (lent c)) in
  if is_shutdown p then (p, c) else
  let '(ws, e) := next_waiter (claimed c) (waiters p) in
  match e with
  | Some (SyncEntry w) =>
      (set_waiters p ws, notify w (set_handed (set_blocked c (remove_one w (blocked c))) ((w, h) :: handed c)))
  | Some (AsyncEntry w) => (set_waiters p ws, give AsyncAcquire w h (set_claimed c (w :: claimed c)))
  | None => (set_free (set_waiters p ws) (free p ++ [h]), c)
  end.

Definition drop_dead (h : nat) (p : Pool) (c : Calls) : Pool * Calls :=
  let c := set_lent c (remove_one h (lent c)) in
  if is_shutdown p then (p, c) else
  if bool_decide (h ∈ holders p) then
    ({| holders := remove_one h (holders p); free := free p; waiters := waiters p; created := created p - 1;
        is_shutdown := is_shutdown p |}, c)
  else (p, c).

(** [QueuedHolder::reset]: cleanup decides between the two. *)
Definition reset (cfg : PoolConfig) (ok : bool) (exec : bytes -> bool) (hd : Holder) (h : nat) (p : Pool) (c : Calls)
  : Holder * (Pool * Calls) :=
  let '(hd', clean) := run_cleanup_sql hd ok exec (Some (pool_cleanup_sql cfg)) in
  (hd', if clean then return_holder h p c else drop_dead h p c).

(** A blocked thread that was handed a holder resumes. *)
Definition resume (w h : nat) (p : Pool) (c : Calls) : Pool * Calls :=
  (p, give Acquire w h (set_handed c (filter (fun x => fst x <> w) (handed c)))).

(** A blocked thread resumes without one: its timeout elapsed or the pool shut down. *)
Definition wait_expired (w : nat) (p : Pool) (c : Calls) : Pool * Calls :=
  (set_waiters p (filter (fun e => e <> SyncEntry w) (waiters p)),
   finish Acquire w TimedOut (set_blocked c (remove_one w (blocked c)))).

Definition on_async_waiter_timeout (w : nat) (p : Pool) (c : Calls) : Pool * Calls :=
  if bool_decide (w ∈ claimed c) then (p, c) else
  (set_waiters p (filter (fun e => e <> AsyncEntry w) (waiters p)),
   finish AsyncAcquire w TimedOut (set_claimed c (w :: claimed c))).

(** [shutdown]: the flag first, then the drain under the mutex. *)
Definition shutdown_flag (p : Pool) (c : Calls) : Pool * Calls :=
  ({| holders := holders p; free := free p; waiters := waiters p; created := created p; is_shutdown := true |}, c).

Fixpoint abort_waiters (ws : list Entry) (c : Calls) : Calls :=
  match ws with
  | [] => c
  | SyncEntry w :: ws' => abort_waiters ws' (notify w c)
  | AsyncEntry w :: ws' =>
      abort_waiters ws' (if bool_decide (w ∈ claimed c) then c else finish AsyncAcquire w Aborted (set_claimed c (w :: claimed c)))
  end.

Definition shutdown_drain (p : Pool) (c : Calls) : Pool * Calls :=
  ({| holders := []; free := []; waiters := []; created := created p; is_shutdown := is_shutdown p |},
   abort_waiters (waiters p) c).

(** The constructor: one attempt per minimum connection. *)
Fixpoint construct (attempts : list (option nat)) (p : Pool) : Pool :=
  match attempts with
  | [] => p
  | Some h :: rest =>
      construct rest {| holders := holders p ++ [h]; free := free p ++ [h]; waiters := waiters p; created := S (created p);
                        is_shutdown := is_shutdown p |}
  | None :: rest => construct rest p
  end.

Definition empty_pool : Pool := {| holders := []; free := []; waiters := []; created := 0; is_shutdown := false |}.
Definition no_calls : Calls :=
  {| creating := []; blocked := []; notified := []; handed := []; claimed := []; returned := []; posted := []; lent := [] |}.

(** The statistics. *)
Definition free_count (p : Pool) : nat := length (free p).
Definition active_count (p : Pool) : nat := created p - length (free p).
Definition waiter_count (p : Pool) : nat := length (waiters p).

(** ** The system: interleaved critical sections *)

(** [bounded]: the calls that were made with a timeout. *)
Record Sys := { sp : Pool; sc : Calls; next_call : nat; next_holder : nat; drained : bool; bounded : list nat }.

Definition update (s : Sys) (pc : Pool * Calls) : Sys :=
  {| sp := fst pc; sc := snd pc; next_call := next_call s; next_holder := next_holder s; drained := drained s; bounded := bounded s |}.

(** The attempts of the constructor, numbered; a failed one makes no holder. *)
Fixpoint number (i : nat) (attempts : list bool) : list (option nat) :=
  match attempts with
  | [] => []
  | b :: rest => (if b then Some i else None) :: number (S i) rest
  end.

Definition initial (attempts : list bool) : Sys :=
  {| sp := construct (number 0 attempts) empty_pool; sc := no_calls; next_call := 0; next_holder := length attempts;
     drained := false; bounded := [] |}.

(** [may_fail]: opening a connection can fail; [may_race]: two calls can be opening
    connections at the same time. *)
Section system.
Context (cap : nat) (may_fail may_race : bool).

(** What can happen. A thread in the condition wait leaves it when it was made with a
    timeout that elapses, or when it wakes up, notified or spuriously, and finds a
    holder assigned or the pool shut down; a timer exists for calls with a timeout only. *)
Inductive step (s : Sys) : Sys -> Prop :=
| S_enter k (timed : bool) pc :
    enter cap k (next_call s) (sp s) (sc s) = pc ->
    may_race = true \/ creating (snd pc) = creating (sc s) \/ creating (sc s) = [] ->
    step s {| sp := fst pc; sc := snd pc; next_call := S (next_call s); next_holder := next_holder s; drained := drained s;
              bounded := (if timed then [next_call s] else []) ++ bounded s |}
| S_created k w :
    (w, k) ∈ creating (sc s) ->
    step s (let pc := finish_create k w (Some (next_holder s)) (sp s) (sc s) in
            {| sp := fst pc; sc := snd pc; next_call := next_call s; next_holder := S (next_holder s); drained := drained s;
               bounded := bounded s |})
| S_create_failed k w :
    may_fail = true -> (w, k) ∈ creating (sc s) -> step s (update s (finish_create k w None (sp s) (sc s)))
| S_release h : h ∈ lent (sc s) -> step s (update s (return_holder h (sp s) (sc s)))
| S_drop h : h ∈ lent (sc s) -> step s (update s (drop_dead h (sp s) (sc s)))
| S_resume w h : (w, h) ∈ handed (sc s) -> step s (update s (resume w h (sp s) (sc s)))
| S_wait_expired w : w ∈ blocked (sc s) -> w ∈ bounded s \/ is_shutdown (sp s) = true -> step s (update s (wait_expired w (sp s) (sc s)))
| S_timeout w :
    w ∈ bounded s -> AsyncEntry w ∈ waiters (sp s) \/ w ∈ claimed (sc s) ->
    step s (update s (on_async_waiter_timeout w (sp s) (sc s)))
| S_flag : is_shutdown (sp s) = false -> step s (update s (shutdown_flag (sp s) (sc s)))
| S_drain :
    is_shutdown (sp s) = true -> drained s = false ->
    step s (let pc := shutdown_drain (sp s) (sc s) in
            {| sp := fst pc; sc := snd pc; next_call := next_call s; next_holder := next_holder s; drained := true;
               bounded := bounded s |}).


Definition reachable (attempts : list bool) (s : Sys) : Prop := rtc step (initial attempts) s.

End system.

(** ** Counting

    On top of the occurrence counts of the prelude. *)

(** The ids of the waiter queue. *)
Definition sync_ids (ws : list Entry) : list nat := omap (fun e => match e with SyncEntry w => Some w | _ => None end) ws.
Definition async_ids (ws : list Entry) : list nat := omap (fun e => match e with AsyncEntry w => Some w | _ => None end) ws.

Lemma sync_ids_app a b : sync_ids (a ++ b) = sync_ids a ++ sync_ids b.
Proof. apply omap_app. Qed.
Lemma async_ids_app a b : async_ids (a ++ b) = async_ids a ++ async_ids b.
Proof. apply omap_app. Qed.

Lemma async_ids_elem w ws : AsyncEntry w ∈ ws <-> w ∈ async_ids ws.
Proof.
  unfold async_ids. rewrite list_elem_of_omap. split; [by exists (AsyncEntry w)|]. intros ([] & He & [= ->]). done.
Qed.

(** Erasing an element by its id. *)
Lemma cnt_omap_filter {A} `{EqDecision A} (f : A -> option nat) (e : A) l x :
  (forall y, f y = Some x -> f e = Some x -> y = e) ->
  cnt x (omap f (filter (fun y => y <> e) l)) = if decide (f e = Some x) then 0 else cnt x (omap f l).
Proof.
  intros Hf. induction l as [|y l IH]; [by case_decide|]. rewrite filter_cons. cbn [omap list_omap].
  destruct (decide (y <> e)) as [Hne|Heq].
  - cbn [omap list_omap]. destruct (f y) as [u|] eqn:Ey; [|exact IH]. rewrite !cnt_cons. unfold one.
    destruct (Nat.eqb_spec u x) as [->|]; [|rewrite IH; by case_decide].
    case_decide as Hd; [by destruct Hne; apply Hf|]. by rewrite IH.
  - apply dec_stable in Heq as ->. rewrite IH. destruct (f e) as [u|] eqn:Ee; [|done].
    case_decide as Hd; [done|]. rewrite cnt_cons. unfold one. destruct (Nat.eqb_spec u x) as [->|]; [done|]. lia.
Qed.

Lemma cnt_map_filter {A} (f : A -> nat) (l : list A) w x :
  cnt x (f <$> filter (fun y => f y <> w) l) = if w =? x then 0 else cnt x (f <$> l).
Proof.
  induction l as [|y l IH]; [by destruct (w =? x)|]. rewrite filter_cons. destruct (decide (f y <> w)) as [Hne|Heq]; rewrite ?fmap_cons.
  - rewrite !cnt_cons, IH. unfold one. destruct (Nat.eqb_spec w x), (Nat.eqb_spec (f y) x); subst; done || lia.
  - apply dec_stable in Heq as ->. rewrite IH, cnt_cons. unfold one. by destruct (Nat.eqb_spec w x).
Qed.

(** Dropping the pair of a waiter that occurs once drops exactly its holder. *)
Lemma cnt_handed_filter (l : list (nat * nat)) w h x :
  (w, h) ∈ l -> cnt w (fst <$> l) <= 1 ->
  cnt x (snd <$> filter (fun y => fst y <> w) l) + one (h =? x) = cnt x (snd <$> l).
Proof.
  induction l as [|[u g] l IH]; intros Hin Hc; [by apply elem_of_nil in Hin|]. rewrite filter_cons. rewrite fmap_cons in *.
  rewrite cnt_cons in Hc. cbn [fst snd] in *. destruct (decide (u <> w)) as [Hne|Heq]; rewrite ?fmap_cons, !cnt_cons; cbn [fst snd].
  - apply elem_of_cons in Hin as [[= -> ->]|Hin]; [done|]. specialize (IH Hin). lia.
  - apply dec_stable in Heq as ->. unfold one in Hc. rewrite Nat.eqb_refl in Hc.
    assert (Hn : forall g', (w, g') ∉ l).
    { intros g' Hg. assert (w ∈ fst <$> l) as Hw by (apply list_elem_of_fmap; by exists (w, g')). apply cnt_elem in Hw. lia. }
    apply elem_of_cons in Hin as [[= ->]|Hin]; [|by apply Hn in Hin].
    rewrite filter_all; [lia|]. apply Forall_forall. intros [v g'] Hv. simpl. intros ->. by apply Hn in Hv.
Qed.

(** ** The invariant *)

(** Where a call can be, and where a holder can be. *)
Definition call_places (p : Pool) (c : Calls) : list nat :=
  (fst <$> creating c) ++ blocked c ++ async_ids (waiters p) ++ (fst <$> handed c) ++ returned c ++ (fst <$> posted c).
Definition holder_places (p : Pool) (c : Calls) : list nat := free p ++ (snd <$> handed c) ++ lent c.

(** The invariant with a call [cw] and a holder [hh] in hand, taken from one place
    and not yet put into another. *)
Record inv_with (cw hh : list nat) (p : Pool) (c : Calls) (nc nh : nat) (dr : bool) : Prop := {
  inv_calls x : cnt x (call_places p c) + cnt x cw = one (x <? nc);
  inv_sync x : cnt x (sync_ids (waiters p)) <= cnt x (blocked c);
  inv_claimed x : x ∈ claimed c -> x ∈ fst <$> posted c;
  inv_places x : cnt x (holder_places p c) + cnt x hh <= one (x <? nh);
  inv_holders x : cnt x (holders p) <= one (x <? nh);
  inv_live : is_shutdown p = false ->
    (forall x, cnt x (holder_places p c) + cnt x hh = cnt x (holders p)) /\ created p = length (holders p);
  inv_drained : dr = true -> is_shutdown p = true /\ async_ids (waiters p) = []
}.

Definition pool_inv (s : Sys) : Prop := inv_with [] [] (sp s) (sc s) (next_call s) (next_holder s) (drained s).

Lemma cnt_call_places x p c :
  cnt x (call_places p c) =
  cnt x (fst <$> creating c) + cnt x (blocked c) + cnt x (async_ids (waiters p)) + cnt x (fst <$> handed c) +
  cnt x (returned c) + cnt x (fst <$> posted c).
Proof. unfold call_places. rewrite !cnt_app. lia. Qed.

Lemma cnt_holder_places x p c :
  cnt x (holder_places p c) = cnt x (free p) + cnt x (snd <$> handed c) + cnt x (lent c).
Proof. unfold holder_places. rewrite !cnt_app. lia. Qed.

Lemma queued_sync w ws : sync_ids (SyncEntry w :: ws) = w :: sync_ids ws.
Proof. done. Qed.
Lemma queued_sync_async w ws : async_ids (SyncEntry w :: ws) = async_ids ws.
Proof. done. Qed.
Lemma queued_async w ws : async_ids (AsyncEntry w :: ws) = w :: async_ids ws.
Proof. done. Qed.
Lemma queued_async_sync w ws : sync_ids (AsyncEntry w :: ws) = sync_ids ws.
Proof. done. Qed.
Lemma queued_none : sync_ids [] = [] /\ async_ids [] = [].
Proof. done. Qed.

(** Reducing a goal about lists to linear arithmetic. *)
Ltac count := rewrite ?cnt_call_places, ?cnt_holder_places in *;
  cbn [waiters free holders created is_shutdown set_free set_waiters creating blocked handed claimed returned posted lent
       notified notify set_creating set_blocked set_handed set_claimed set_lent finish give fst snd sp sc next_call next_holder drained bounded update] in *;
  rewrite ?fmap_app, ?fmap_cons, ?fmap_nil, ?sync_ids_app, ?async_ids_app, ?queued_sync, ?queued_async, ?queued_sync_async, ?queued_async_sync,
    ?(proj1 queued_none), ?(proj2 queued_none), ?app_nil_r,
    ?cnt_app, ?cnt_cons, ?cnt_nil, ?one_succ in *;
  cbn [fst snd] in *.

(** Notifications move no call and no holder. *)
Lemma inv_notify cw hh p c nc nh dr w : inv_with cw hh p c nc nh dr -> inv_with cw hh p (notify w c) nc nh dr.
Proof. by intros []. Qed.

Section filling.
Context (p : Pool) (c : Calls) (nc nh : nat) (dr : bool).

(** Solving the clauses of an updated state from those of the old one. *)
Ltac clauses H :=
  destruct H as [Hc Hs Hk Hp Hh Hl Hd]; split;
  [ intros ?x; specialize (Hc x) | intros ?x; specialize (Hs x) | intros ?x; specialize (Hk x) | intros ?x; specialize (Hp x)
  | intros ?x; specialize (Hh x) | intros ?Hsh; specialize (Hl Hsh) as [?Hl ?Hcr]; split; [intros ?x; specialize (Hl x)|]
  | intros ?Hdr; try discriminate Hdr; (specialize (Hd Hdr) as [?Hd1 ?Hd2]; split; [done|]) ]; count; try done; try lia; try match goal with E : async_ids _ = [] |- _ => by rewrite E end; try (intros; apply elem_of_app; left; by apply Hk).

Lemma fill_finish k w hh o : inv_with [w] hh p c nc nh dr -> inv_with [] hh p (finish k w o c) nc nh dr.
Proof. intros H. destruct k; clauses H. Qed.

Lemma fill_give k w h : inv_with [w] [h] p c nc nh dr -> inv_with [] [] p (give k w h c) nc nh dr.
Proof. intros H. destruct k; clauses H. Qed.

Lemma fill_free h : inv_with [] [h] p c nc nh dr -> inv_with [] [] (set_free p (free p ++ [h])) c nc nh dr.
Proof. intros H. clauses H. Qed.

Lemma fill_handed w h : inv_with [w] [h] p c nc nh dr -> inv_with [] [] p (set_handed c ((w, h) :: handed c)) nc nh dr.
Proof. intros H. clauses H. Qed.

Lemma fill_async w :
  inv_with [w] [] p c nc nh dr -> dr = false -> inv_with [] [] (set_waiters p (waiters p ++ [AsyncEntry w])) c nc nh dr.
Proof. intros H ->. clauses H. Qed.

Lemma fill_sync w :
  inv_with [w] [] p c nc nh dr ->
  inv_with [] [] (set_waiters p (waiters p ++ [SyncEntry w])) (set_blocked c (w :: blocked c)) nc nh dr.
Proof. intros H. clauses H. Qed.

Lemma fill_creating w k : inv_with [w] [] p c nc nh dr -> inv_with [] [] p (set_creating c ((w, k) :: creating c)) nc nh dr.
Proof. intros H. clauses H. Qed.

(** Taking a call or a holder out of its place. *)
Lemma take_fresh : inv_with [] [] p c nc nh dr -> inv_with [nc] [] p c (S nc) nh dr.
Proof. intros H. clauses H. Qed.

Lemma take_free h f w : free p = h :: f -> inv_with [w] [] p c nc nh dr -> inv_with [w] [h] (set_free p f) c nc nh dr.
Proof. intros E H. clauses H; rewrite E in *; count; lia. Qed.

Lemma take_creating w k :
  (w, k) ∈ creating c -> inv_with [] [] p c nc nh dr ->
  inv_with [w] [] p (set_creating c (filter (fun x => fst x <> w) (creating c))) nc nh dr.
Proof.
  intros Hin H. assert (w ∈ fst <$> creating c) as Hw%cnt_elem by (apply list_elem_of_fmap; by exists (w, k)).
  clauses H. rewrite cnt_map_filter. unfold one in *. destruct (Nat.eqb_spec w x), (x <? nc); subst; lia.
Qed.

Lemma take_lent h : h ∈ lent c -> inv_with [] [] p c nc nh dr -> inv_with [] [h] p (set_lent c (remove_one h (lent c))) nc nh dr.
Proof. intros Hh' H. pose proof (fun x => cnt_remove_one x h (lent c) Hh') as Hr. clauses H; specialize (Hr x); lia. Qed.

Lemma take_blocked w hh : w ∈ blocked c -> inv_with [] hh p c nc nh dr ->
  inv_with [w] hh (set_waiters p (filter (fun e => e <> SyncEntry w) (waiters p))) (set_blocked c (remove_one w (blocked c))) nc nh dr.
Proof.
  intros Hw H. pose proof (fun x => cnt_remove_one x w (blocked c) Hw) as Hr.
  assert (Ea : async_ids (filter (fun e => e <> SyncEntry w) (waiters p)) = async_ids (waiters p)).
  { generalize (waiters p). intros ws. induction ws as [|[u|u] ws IH]; [done|..]; rewrite filter_cons; case_decide; simpl;
      unfold async_ids in *; simpl; congruence. }
  destruct H as [Hc Hs Hk Hp Hh Hl Hd]. split; [intros x; specialize (Hc x); specialize (Hr x); count; rewrite Ea; lia| |done..|].
  - intros x. specialize (Hs x). specialize (Hr x). cbn [waiters set_waiters blocked set_blocked]. unfold sync_ids.
    rewrite cnt_omap_filter by (intros []; naive_solver). unfold one in Hr. case_decide as Hd'; [lia|].
    destruct (Nat.eqb_spec w x); [subst; done|]. unfold sync_ids in Hs. lia.
  - intros Hdr. specialize (Hd Hdr) as [? Hd]. simpl. by rewrite Ea.
Qed.

Lemma take_handed w h :
  (w, h) ∈ handed c -> inv_with [] [] p c nc nh dr ->
  inv_with [w] [h] p (set_handed c (filter (fun x => fst x <> w) (handed c))) nc nh dr.
Proof.
  intros Hin H. assert (Hw : cnt w (fst <$> handed c) <= 1).
  { pose proof (inv_calls _ _ _ _ _ _ _ H w) as Hc. pose proof (one_le (w <? nc)). count. lia. }
  assert (w ∈ fst <$> handed c) as Hw'%cnt_elem by (apply list_elem_of_fmap; by exists (w, h)).
  pose proof (fun x => cnt_handed_filter (handed c) w h x Hin Hw) as Hf.
  clauses H; try (specialize (Hf x); lia). rewrite cnt_map_filter. unfold one in *.
  destruct (Nat.eqb_spec w x), (x <? nc); subst; lia.
Qed.

Lemma pop_sync w ws hh :
  waiters p = SyncEntry w :: ws -> inv_with [] hh p c nc nh dr ->
  inv_with [w] hh (set_waiters p ws) (set_blocked c (remove_one w (blocked c))) nc nh dr.
Proof.
  intros E H. assert (Hw : w ∈ blocked c).
  { apply cnt_elem. pose proof (inv_sync _ _ _ _ _ _ _ H w) as Hs. rewrite E in Hs. count. unfold one in Hs.
    rewrite Nat.eqb_refl in Hs. lia. }
  pose proof (fun x => cnt_remove_one x w (blocked c) Hw) as Hr.
  clauses H; rewrite E in *; count; try (specialize (Hr x); lia); done.
Qed.

(** Shutdown clears the entry of a thread that is still blocked. *)
Lemma forget_sync w ws :
  waiters p = SyncEntry w :: ws -> inv_with [] [] p c nc nh dr -> inv_with [] [] (set_waiters p ws) c nc nh dr.
Proof. intros E H. clauses H; rewrite E in *; count; try lia; done. Qed.

Lemma pop_async w ws hh :
  waiters p = AsyncEntry w :: ws -> inv_with [] hh p c nc nh dr -> inv_with [w] hh (set_waiters p ws) c nc nh dr.
Proof. intros E H. clauses H; rewrite E in *; count; try lia; done. Qed.

Lemma take_async w hh :
  AsyncEntry w ∈ waiters p -> inv_with [] hh p c nc nh dr ->
  inv_with [w] hh (set_waiters p (filter (fun e => e <> AsyncEntry w) (waiters p))) c nc nh dr.
Proof.
  intros Hw%async_ids_elem%cnt_elem H.
  assert (Ea : forall x, cnt x (async_ids (filter (fun e => e <> AsyncEntry w) (waiters p))) =
    if w =? x then 0 else cnt x (async_ids (waiters p))).
  { intros x. unfold async_ids. rewrite cnt_omap_filter by (intros []; naive_solver).
    destruct (Nat.eqb_spec w x); case_decide; naive_solver. }
  assert (Es : sync_ids (filter (fun e => e <> AsyncEntry w) (waiters p)) = sync_ids (waiters p)).
  { generalize (waiters p). intros ws. induction ws as [|[u|u] ws IH]; [done|..]; rewrite filter_cons; case_decide; simpl;
      unfold sync_ids in *; simpl; congruence. }
  clauses H.
  - rewrite Ea. unfold one in *. destruct (Nat.eqb_spec w x), (x <? nc); subst; lia.
  - by rewrite Es.
  - exfalso. match goal with E : async_ids _ = [] |- _ => rewrite E in Hw end. by rewrite cnt_nil in Hw; lia.
Qed.

(** Claiming an async waiter and completing it go together. *)
Lemma fill_claimed w hh o :
  inv_with [w] hh p c nc nh dr -> inv_with [] hh p (finish AsyncAcquire w o (set_claimed c (w :: claimed c))) nc nh dr.
Proof.
  intros H. pose proof (fill_finish AsyncAcquire w hh o H) as [? ? Hk ? ? ? ?]. split; try done.
  intros x [->|Hx]%elem_of_cons; [|by apply Hk]. cbn. rewrite fmap_app. apply elem_of_app. right. by apply list_elem_of_singleton.
Qed.

Lemma fill_claimed_give w h :
  inv_with [w] [h] p c nc nh dr -> inv_with [] [] p (give AsyncAcquire w h (set_claimed c (w :: claimed c))) nc nh dr.
Proof.
  intros H. pose proof (fill_give AsyncAcquire w h H) as [? ? Hk ? ? ? ?]. split; try done.
  intros x [->|Hx]%elem_of_cons; [|by apply Hk]. cbn. rewrite fmap_app. apply elem_of_app. right. by apply list_elem_of_singleton.
Qed.

(** New, discarded and lost holders. *)
Lemma new_holder w :
  inv_with [w] [] p c nc nh dr ->
  inv_with [w] [nh] {| holders := holders p ++ [nh]; free := free p; waiters := waiters p; created := S (created p);
                       is_shutdown := is_shutdown p |} c nc (S nh) dr.
Proof. intros H. clauses H. rewrite length_app. simpl. lia. Qed.

Lemma discard_holder cw : inv_with cw [] p c nc nh dr -> inv_with cw [] p c nc (S nh) dr.
Proof. intros H. clauses H. Qed.

Lemma lose_holder h : is_shutdown p = true -> inv_with [] [h] p c nc nh dr -> inv_with [] [] p c nc nh dr.
Proof. intros E H. clauses H; congruence. Qed.

Lemma erase_holder h :
  inv_with [] [h] p c nc nh dr -> h ∈ holders p ->
  inv_with [] [] {| holders := remove_one h (holders p); free := free p; waiters := waiters p; created := created p - 1;
                    is_shutdown := is_shutdown p |} c nc nh dr.
Proof.
  intros H Hin. pose proof (fun x => cnt_remove_one x h (holders p) Hin) as Hr.
  clauses H; try (specialize (Hr x); lia). rewrite length_remove_one by done. lia.
Qed.

Lemma live_holder h : is_shutdown p = false -> inv_with [] [h] p c nc nh dr -> h ∈ holders p.
Proof.
  intros E H. apply cnt_elem. destruct (inv_live _ _ _ _ _ _ _ H E) as [Hl _]. specialize (Hl h). count.
  unfold one in Hl. rewrite Nat.eqb_refl in Hl. lia.
Qed.

End filling.

(** No queued async waiter is claimed, so the loop of [return_holder] stops at the
    head of the queue. *)
Lemma next_waiter_head hh p c nc nh dr :
  inv_with [] hh p c nc nh dr ->
  next_waiter (claimed c) (waiters p) = match waiters p with [] => ([], None) | e :: ws => (ws, Some e) end.
Proof.
  intros H. destruct (waiters p) as [|[w|w] ws] eqn:E; [done..|]. cbn [next_waiter]. rewrite bool_decide_false; [done|].
  intros Hcl%(inv_claimed _ _ _ _ _ _ _ H)%cnt_elem. pose proof (inv_calls _ _ _ _ _ _ _ H w) as Hc.
  pose proof (one_le (w <? nc)). count. rewrite E in Hc. count. unfold one in Hc at 1. rewrite Nat.eqb_refl in Hc. lia.
Qed.

Lemma wait_preserves p c nc nh dr k w :
  inv_with [w] [] p c nc nh dr -> (k = AsyncAcquire -> dr = false) ->
  let pc := wait_for_slot k w p c in inv_with [] [] (fst pc) (snd pc) nc nh dr.
Proof.
  intros H Hk. destruct k; cbn [wait_for_slot]; [by apply fill_finish| |by apply fill_async; [|apply Hk]].
  destruct (is_shutdown p); [by apply (fill_finish _ _ _ _ _ Acquire)|by apply fill_sync].
Qed.

Section preservation.
Context (p : Pool) (c : Calls) (nc nh : nat) (dr : bool).

Lemma not_drained hh : inv_with [] hh p c nc nh dr -> is_shutdown p = false -> dr = false.
Proof. intros H E. destruct dr; [|done]. destruct (inv_drained _ _ _ _ _ _ _ H eq_refl). congruence. Qed.

Lemma enter_preserves cap k :
  inv_with [] [] p c nc nh dr -> let pc := enter cap k nc p c in inv_with [] [] (fst pc) (snd pc) (S nc) nh dr.
Proof.
  intros H. pose proof (take_fresh _ _ _ _ _ H) as Hf. unfold enter. destruct (is_shutdown p) eqn:E; [by apply fill_finish|].
  destruct (free p) as [|h f] eqn:Ef; [|by apply fill_give, (take_free _ _ _ _ _ h)].
  destruct (created p <? cap); [by apply fill_creating|].
  apply wait_preserves; [done|]. intros _. by eapply not_drained.
Qed.

Lemma finish_create_preserves k w o :
  (w, k) ∈ creating c -> o = None \/ o = Some nh -> inv_with [] [] p c nc nh dr ->
  let pc := finish_create k w o p c in inv_with [] [] (fst pc) (snd pc) nc (if o then S nh else nh) dr.
Proof.
  intros Hin Ho H. pose proof (take_creating _ _ _ _ _ _ _ Hin H) as Ht. unfold finish_create.
  set (c1 := set_creating c _) in *. destruct (bool_decide (k = AsyncAcquire) && is_shutdown p) eqn:E.
  - destruct Ho as [->| ->]; [|apply discard_holder in Ht]; by apply fill_finish.
  - destruct Ho as [->| ->]; [|by apply fill_give, new_holder].
    assert (Hd : k = AsyncAcquire -> dr = false).
    { intros ->. eapply not_drained; [exact H|]. by rewrite bool_decide_true in E. }
    by apply wait_preserves.
Qed.

Lemma return_preserves h :
  h ∈ lent c -> inv_with [] [] p c nc nh dr ->
  let pc := return_holder h p c in inv_with [] [] (fst pc) (snd pc) nc nh dr.
Proof.
  intros Hin H. apply (take_lent _ _ _ _ _ h Hin) in H. unfold return_holder. set (c1 := set_lent c _) in *.
  destruct (is_shutdown p) eqn:E; [by apply (lose_holder _ _ _ _ _ h)|]. rewrite (next_waiter_head _ _ _ _ _ _ H).
  destruct (waiters p) as [|[w|w] ws] eqn:Ew; cbn [fst snd].
  - replace (set_waiters p []) with p by (destruct p; simpl in *; by subst). by apply fill_free.
  - by apply inv_notify, (fill_handed (set_waiters p ws) (set_blocked c1 (remove_one w (blocked c1)))), pop_sync.
  - by apply fill_claimed_give, pop_async.
Qed.

Lemma drop_preserves h :
  h ∈ lent c -> inv_with [] [] p c nc nh dr -> let pc := drop_dead h p c in inv_with [] [] (fst pc) (snd pc) nc nh dr.
Proof.
  intros Hin H. apply (take_lent _ _ _ _ _ h Hin) in H. unfold drop_dead. set (c1 := set_lent c _) in *.
  destruct (is_shutdown p) eqn:E; [by apply (lose_holder _ _ _ _ _ h)|]. pose proof (live_holder _ _ _ _ _ _ E H) as Hh.
  rewrite bool_decide_true by done. rewrite <- E. by apply erase_holder.
Qed.

Lemma wait_expired_preserves w :
  w ∈ blocked c -> inv_with [] [] p c nc nh dr -> let pc := wait_expired w p c in inv_with [] [] (fst pc) (snd pc) nc nh dr.
Proof. intros Hin H. by apply fill_finish, take_blocked. Qed.

Lemma timeout_preserves w :
  AsyncEntry w ∈ waiters p \/ w ∈ claimed c -> inv_with [] [] p c nc nh dr ->
  let pc := on_async_waiter_timeout w p c in inv_with [] [] (fst pc) (snd pc) nc nh dr.
Proof.
  intros Hin H. unfold on_async_waiter_timeout. case_bool_decide as Hc; [done|]. destruct Hin as [Hin|Hin]; [|done].
  by apply fill_claimed, take_async.
Qed.

Lemma flag_preserves :
  inv_with [] [] p c nc nh dr -> let pc := shutdown_flag p c in inv_with [] [] (fst pc) (snd pc) nc nh dr.
Proof. intros [Hc Hs Hk Hp Hh Hl Hd]. split; try done. intros Hdr. by destruct (Hd Hdr). Qed.

End preservation.

Lemma abort_preserves ws p c nc nh dr :
  waiters p = ws -> inv_with [] [] p c nc nh dr -> is_shutdown p = true ->
  inv_with [] [] (set_waiters p []) (abort_waiters ws c) nc nh dr.
Proof.
  revert p c. induction ws as [|[w|w] ws IH]; intros p c E H Hsh; cbn [abort_waiters].
  - by replace (set_waiters p []) with p by (destruct p; simpl in *; by subst).
  - apply (IH (set_waiters p ws)); [done| |done]. by apply inv_notify, (forget_sync _ _ _ _ _ w).
  - destruct (bool_decide (w ∈ claimed c)) eqn:Ec.
    + exfalso. apply bool_decide_eq_true in Ec. pose proof (inv_claimed _ _ _ _ _ _ _ H w Ec) as Hp%cnt_elem.
      pose proof (inv_calls _ _ _ _ _ _ _ H w) as Hc. pose proof (one_le (w <? nc)). count. rewrite E in Hc. count.
      unfold one in Hc at 1. rewrite Nat.eqb_refl in Hc. lia.
    + apply (IH (set_waiters p ws)); [done| |done]. by apply fill_claimed, pop_async.
Qed.

Lemma drain_preserves p c nc nh dr :
  is_shutdown p = true -> inv_with [] [] p c nc nh dr ->
  let pc := shutdown_drain p c in inv_with [] [] (fst pc) (snd pc) nc nh true.
Proof.
  intros Hsh H. pose proof (abort_preserves _ _ _ _ _ _ eq_refl H Hsh) as [Hc Hs Hk Hp Hh Hl Hd].
  split; cbn [shutdown_drain fst snd]; try done.
  - intros x. specialize (Hp x). count. lia.
  - intros x. rewrite cnt_nil. lia.
  - intros E. cbn in E. congruence.
Qed.

Lemma step_preserves cap may_fail may_race s s' : step cap may_fail may_race s s' -> pool_inv s -> pool_inv s'.
Proof.
  unfold pool_inv. intros Hs H. destruct Hs as [k timed pc <- _|k w Hin|k w _ Hin|h Hin|h Hin|w h Hin|w Hin _|w _ Hin|_|Hsh Hd]; cbn.
  - by apply enter_preserves.
  - apply (finish_create_preserves _ _ _ _ _ k w (Some (next_holder s))); auto.
  - apply (finish_create_preserves _ _ _ _ _ k w None); auto.
  - by apply return_preserves.
  - by apply drop_preserves.
  - by apply fill_give, take_handed.
  - by apply wait_expired_preserves.
  - by apply timeout_preserves.
  - by apply flag_preserves.
  - by eapply drain_preserves.
Qed.

(** ** Reachable states *)
Lemma construct_spec attempts p :
  let hs := omap id attempts in
  construct attempts p = {| holders := holders p ++ hs; free := free p ++ hs; waiters := waiters p;
                            created := created p + length hs; is_shutdown := is_shutdown p |}.
Proof.
  revert p. induction attempts as [|[h|] rest IH]; intros p; simpl; [destruct p; simpl; by rewrite !app_nil_r, Nat.add_0_r| |].
  - rewrite IH. simpl. rewrite <- !app_assoc. simpl. by rewrite Nat.add_succ_r.
  - apply IH.
Qed.

Lemma cnt_number x i attempts : cnt x (omap id (number i attempts)) <= one ((i <=? x) && (x <? i + length attempts)).
Proof.
  revert i. induction attempts as [|b rest IH]; intros i; cbn [number length]; [cbn; lia|]. specialize (IH (S i)).
  assert (E : one ((i <=? x) && (x <? i + S (length rest))) = one (i =? x) + one ((S i <=? x) && (x <? S i + length rest))).
  { unfold one. destruct (Nat.leb_spec i x), (Nat.ltb_spec x (i + S (length rest))), (Nat.eqb_spec i x), (Nat.leb_spec (S i) x),
      (Nat.ltb_spec x (S i + length rest)); simpl; lia. }
  rewrite E. destruct b.
  - change (omap id (Some i :: number (S i) rest)) with (i :: omap id (number (S i) rest)). rewrite cnt_cons. lia.
  - change (omap id (None :: number (S i) rest)) with (omap id (number (S i) rest)). lia.
Qed.

Lemma initial_inv attempts : pool_inv (initial attempts).
Proof.
  unfold pool_inv, initial. cbn [sp sc next_call next_holder drained]. rewrite construct_spec. cbn.
  pose proof (fun x => cnt_number x 0 attempts) as Hn. split; try done.
  - intros x. rewrite cnt_holder_places. cbn [free handed no_calls lent fmap list_fmap]. rewrite !cnt_nil. specialize (Hn x).
    cbn [Nat.leb andb Nat.add] in Hn. lia.
  - intros _. split; [|done]. intros x. rewrite cnt_holder_places. cbn [free handed no_calls lent fmap list_fmap holders].
    rewrite !cnt_nil. lia.
Qed.

Lemma reachable_inv cap may_fail may_race attempts s : reachable cap may_fail may_race attempts s -> pool_inv s.
Proof. intros Hr. eapply rtc_preserves; [|apply initial_inv|exact Hr]. intros x y Hx Hs. by eapply step_preserves. Qed.

(** ** Theorems *)

(** C2. A holder is never in two hands: in every interleaving, the free list, the
    hand-offs under way and the borrowers hold pairwise different connections; until
    shutdown those are exactly the pool's holders, and the counters count them. *)
Theorem holders_exclusive cap may_fail may_race attempts s :
  reachable cap may_fail may_race attempts s ->
  NoDup (free (sp s) ++ (snd <$> handed (sc s)) ++ lent (sc s)) /\
  (is_shutdown (sp s) = false ->
     free (sp s) ++ (snd <$> handed (sc s)) ++ lent (sc s) ≡ₚ holders (sp s) /\
     created (sp s) = length (holders (sp s)) /\
     active_count (sp s) = length (handed (sc s)) + length (lent (sc s))).
Proof.
  intros Hr%reachable_inv. split.
  - apply cnt_NoDup. intros x. pose proof (inv_places _ _ _ _ _ _ _ Hr x) as Hp. unfold holder_places in Hp.
    pose proof (one_le (x <? next_holder s)). rewrite cnt_nil in Hp. lia.
  - intros Hsh. destruct (inv_live _ _ _ _ _ _ _ Hr Hsh) as [Hl Hc].
    assert (Hp : free (sp s) ++ (snd <$> handed (sc s)) ++ lent (sc s) ≡ₚ holders (sp s)).
    { apply cnt_perm. intros x. specialize (Hl x). rewrite cnt_nil in Hl. unfold holder_places in Hl. lia. }
    split_and!; [done|done|]. unfold active_count. apply Permutation_length in Hp.
    rewrite !length_app, length_fmap in Hp. lia.
Qed.

(** C15. No call is lost and none completes twice: every acquisition is at exactly one
    of its stages, the two final ones included. *)
Theorem calls_accounted cap may_fail may_race attempts s :
  reachable cap may_fail may_race attempts s ->
  (fst <$> creating (sc s)) ++ blocked (sc s) ++ async_ids (waiters (sp s)) ++ (fst <$> handed (sc s)) ++
  returned (sc s) ++ (fst <$> posted (sc s)) ≡ₚ seq 0 (next_call s).
Proof.
  intros Hr%reachable_inv. apply cnt_perm. intros x. pose proof (inv_calls _ _ _ _ _ _ _ Hr x) as Hc.
  rewrite cnt_nil in Hc. unfold call_places in Hc. rewrite cnt_seq. lia.
Qed.

(** A returned connection goes to the longest-waiting caller, thread or coroutine
    alike, and to nobody else. *)
Theorem release_serves_head cap may_fail may_race attempts s h e ws :
  reachable cap may_fail may_race attempts s -> is_shutdown (sp s) = false -> h ∈ lent (sc s) -> waiters (sp s) = e :: ws ->
  let '(p', c') := return_holder h (sp s) (sc s) in
  waiters p' = ws /\ free p' = free (sp s) /\
  match e with
  | SyncEntry w => handed c' = (w, h) :: handed (sc s) /\ posted c' = posted (sc s)
  | AsyncEntry w => handed c' = handed (sc s) /\ posted c' = posted (sc s) ++ [(w, Success h)]
  end.
Proof.
  intros Hr%reachable_inv Hsh Hin E. unfold return_holder. rewrite Hsh.
  apply (take_lent _ _ _ _ _ h Hin) in Hr. rewrite (next_waiter_head _ _ _ _ _ _ Hr), E. by destruct e.
Qed.

(** *** Shutdown *)


Lemma length_filter_in {A} (f : A -> nat) (l : list A) a : a ∈ l -> length (filter (fun y => f y <> f a) l) < length l.
Proof.
  induction l as [|y l IH]; intros Hin; [by apply elem_of_nil in Hin|]. rewrite filter_cons. simpl.
  apply elem_of_cons in Hin as [->|Hin].
  - rewrite decide_False by tauto. pose proof (length_filter (fun z => f z <> f y) l). lia.
  - specialize (IH Hin). case_decide; simpl; lia.
Qed.



Lemma abort_waiters_spec ws c :
  let c' := abort_waiters ws c in
  blocked c' = blocked c /\ handed c' = handed c /\ creating c' = creating c /\ returned c' = returned c /\
  (forall w, w ∈ notified c \/ SyncEntry w ∈ ws -> w ∈ notified c').
Proof.
  revert c. induction ws as [|[w|w] ws IH]; intros c; cbn [abort_waiters].
  - split_and!; try done. intros w [?|?%elem_of_nil]; done.
  - destruct (IH (notify w c)) as (E1 & E2 & E3 & E4 & H). split_and!; try done. intros u Hu. apply H. cbn.
    destruct Hu as [Hu|[[= ->]|Hu]%elem_of_cons]; [left; by right|left; by left|by right].
  - case_bool_decide.
    + destruct (IH c) as (E1 & E2 & E3 & E4 & H1). split_and!; try done. intros u Hu. apply H1.
      destruct Hu as [Hu|[?|Hu]%elem_of_cons]; [by left|done|by right].
    + destruct (IH (finish AsyncAcquire w Aborted (set_claimed c (w :: claimed c)))) as (E1 & E2 & E3 & E4 & H1).
      split_and!; try done. intros u Hu. apply H1. destruct Hu as [Hu|[?|Hu]%elem_of_cons]; [by left|done|by right].
Qed.

Lemma finish_wakes k w o c : blocked (finish k w o c) = blocked c /\ handed (finish k w o c) = handed c /\ notified (finish k w o c) = notified c.
Proof. by destruct k. Qed.















(** *** Capacity and waiting *)

(** When at most one call opens a connection at a time, the pool stays within its
    capacity. *)
Theorem capacity_kept_serial cap may_fail attempts s :
  length attempts <= cap -> reachable cap may_fail false attempts s -> created (sp s) + length (creating (sc s)) <= cap.
Proof.
  intros Ha Hr. revert Hr. apply (rtc_preserves _ (fun s => created (sp s) + length (creating (sc s)) <= cap)).
  - intros x y Hx Hs.
    destruct Hs as [k timed pc Hpc Hrace|k w Hin|k w _ Hin|h Hin|h Hin|w h Hin|w Hin _|w _ Hin|_|Hsh Hd]; cbn [sp sc update].
    + destruct Hrace as [?|Hrace]; [done|]. subst pc. unfold enter in *. destruct (is_shutdown (sp x)); [by destruct k|].
      destruct (free (sp x)) as [|h f]; [|by destruct k]. destruct (Nat.ltb_spec (created (sp x)) cap);
        [|destruct k; cbn [wait_for_slot]; [done|by destruct (is_shutdown (sp x))|done]].
      cbn in *. destruct Hrace as [Hrace|Hrace]; [|rewrite Hrace; cbn; lia].
      apply (f_equal length) in Hrace. cbn in Hrace. lia.
    + pose proof (length_filter_in fst _ _ Hin) as Hl. cbn [fst] in Hl. unfold finish_create.
      destruct (bool_decide _ && _), k; cbn [fst snd give finish set_lent set_creating wait_for_slot set_blocked set_waiters
        creating created]; lia.
    + pose proof (length_filter_in fst _ _ Hin) as Hl. cbn [fst] in Hl. unfold finish_create.
      destruct (bool_decide _ && _), k; cbn [wait_for_slot]; try destruct (is_shutdown (sp x));
        cbn [fst snd give finish set_lent set_creating set_blocked set_waiters
        creating created]; lia.
    + unfold return_holder. destruct (is_shutdown _); [done|]. destruct (next_waiter _ _) as [ws [[w|w]|]]; done.
    + unfold drop_dead. destruct (is_shutdown _); [done|]. case_bool_decide; [cbn; lia|done].
    + done.
    + done.
    + unfold on_async_waiter_timeout. by case_bool_decide.
    + done.
    + cbn. destruct (abort_waiters_spec (waiters (sp x)) (sc x)) as (_ & _ & -> & _). done.
  - unfold initial. cbn [sp sc]. rewrite construct_spec. cbn [created creating no_calls length empty_pool].
    assert (Hn : forall i, length (omap id (number i attempts)) <= length attempts).
    { clear Ha. induction attempts as [|[] rest IH]; intros i; cbn; [lia|specialize (IH (S i)); cbn in IH; lia|].
      specialize (IH (S i)). cbn in IH. lia. }
    specialize (Hn 0). lia.
Qed.

(** A waiter can only stay queued while no connection is free, as long as opening a
    connection does not fail. *)
Theorem waiters_imply_no_free cap may_race attempts s :
  reachable cap false may_race attempts s -> waiters (sp s) <> [] -> free (sp s) = [].
Proof.
  intros Hr. cut (pool_inv s /\ (waiters (sp s) <> [] -> free (sp s) = [])); [tauto|]. revert Hr.
  apply (rtc_preserves _ (fun s => pool_inv s /\ (waiters (sp s) <> [] -> free (sp s) = []))).
  - intros x y [Hi Hx] Hs. split; [by eapply step_preserves|].
    destruct Hs as [k timed pc <- _|k w Hin|k w ? Hin|h Hin|h Hin|w h Hin|w Hin _|w _ Hin|_|Hsh Hd]; cbn [sp sc update]; try done.
    + unfold enter. destruct (is_shutdown (sp x)); [by destruct k|].
      destruct (free (sp x)) as [|h f] eqn:Ef; [|destruct k; cbn; intros Hw; by specialize (Hx Hw)].
      destruct (created (sp x) <? cap); [done|]. destruct k; cbn [wait_for_slot]; [done|by destruct (is_shutdown (sp x)); cbn|done].
    + unfold finish_create. destruct (bool_decide _ && _); [by destruct k|]. by destruct k; cbn.
    + apply (take_lent _ _ _ _ _ h Hin) in Hi. unfold return_holder. destruct (is_shutdown (sp x)); [done|].
      rewrite (next_waiter_head _ _ _ _ _ _ Hi). destruct (waiters (sp x)) as [|[w|w] ws]; cbn; [done|by intros _; apply Hx..].
    + unfold drop_dead. destruct (is_shutdown (sp x)); [done|]. by case_bool_decide.
    + cbn. intros Hw. apply Hx. intros E. by rewrite E in Hw.
    + unfold on_async_waiter_timeout. case_bool_decide; [done|]. cbn. intros Hw. apply Hx. intros E. by rewrite E in Hw.
  - split; [apply initial_inv|]. unfold initial. cbn [sp]. by rewrite construct_spec.
Qed.

(** *** Cleanup *)

(** Only usable connections re-enter circulation: resetting a holder runs the
    borrower's cleanup or else the pool's, forgets it, keeps the handle, and returns
    the holder exactly if its connection is [READY] afterwards; otherwise the pool
    drops it. *)
Theorem reset_recirculates_ready cfg ok exec hd h p c :
  let stmt := default (pool_cleanup_sql cfg) (cleanup_sql hd) in
  let '(hd', pc) := reset cfg ok exec hd h p c in
  cleanup_sql hd' = None /\ conn_handle (connection hd') = conn_handle (connection hd) /\
  pc = (if conn_ready (connection hd') then return_holder h p c else drop_dead h p c) /\
  conn_ready (connection hd') = conn_ready (connection hd) && ok && (bool_decide (stmt = []) || exec stmt).
Proof.
  unfold reset, run_cleanup_sql, run_cleanup, conn_verify. destruct hd as [cn cl]. cbn.
  replace (match cl with Some s => Some s | None => Some (pool_cleanup_sql cfg) end)
    with (Some (default (pool_cleanup_sql cfg) cl)) by (by destruct cl).
  destruct (conn_ready cn) eqn:Er, ok; cbn; try by rewrite ?Er.
  destruct (default (pool_cleanup_sql cfg) cl) as [|x stmt]; cbn; [by rewrite Er|].
  destruct (exec (x :: stmt)); cbn; by rewrite ?Er.
Qed.

(** ** Runs *)
Ltac run_step t := eapply rtc_l; [t|cbn].

(** Two borrowers, one connection, a thread and a coroutine waiting. *)
Definition busy : Sys := {|
  sp := {| holders := [0]; free := []; waiters := [SyncEntry 1; AsyncEntry 2]; created := 1; is_shutdown := false |};
  sc := {| creating := []; blocked := [1]; notified := []; handed := []; claimed := []; returned := [0]; posted := []; lent := [0] |};
  next_call := 3; next_holder := 1; drained := false; bounded := []
|}.

Lemma busy_reachable : reachable 1 false false [true] busy.
Proof.
  unfold reachable. run_step ltac:(by eapply (S_enter _ _ _ _ TryAcquire false); [reflexivity|right; left]).
  run_step ltac:(by eapply (S_enter _ _ _ _ Acquire false); [reflexivity|right; left]).
  run_step ltac:(by eapply (S_enter _ _ _ _ AsyncAcquire false); [reflexivity|right; left]). apply rtc_refl.
Qed.

Lemma holders_exclusive_witness :
  NoDup (free (sp busy) ++ (snd <$> handed (sc busy)) ++ lent (sc busy)) /\ active_count (sp busy) = 1.
Proof.
  destruct (holders_exclusive 1 false false [true] busy busy_reachable) as [H1 H2]. split; [exact H1|].
  exact (proj2 (proj2 (H2 eq_refl))).
Defined.

Lemma calls_accounted_witness : [1] ++ [2] ++ [] ++ [0] ++ [] ≡ₚ seq 0 3.
Proof. exact (calls_accounted 1 false false [true] busy busy_reachable). Defined.

Lemma release_serves_head_witness :
  let '(p', c') := return_holder 0 (sp busy) (sc busy) in
  waiters p' = [AsyncEntry 2] /\ free p' = [] /\ handed c' = [(1, 0)] /\ posted c' = [].
Proof.
  apply (release_serves_head 1 false false [true] busy 0 (SyncEntry 1) [AsyncEntry 2] busy_reachable eq_refl).
  - left.
  - reflexivity.
Defined.

Lemma capacity_kept_serial_witness : created (sp busy) + length (creating (sc busy)) <= 1.
Proof. apply (capacity_kept_serial 1 false [true] busy); [simpl; lia|exact busy_reachable]. Defined.

Lemma waiters_imply_no_free_witness : free (sp busy) = [].
Proof. apply (waiters_imply_no_free 1 false [true] busy busy_reachable). discriminate. Defined.




(** *** What concurrency breaks *)

(** Two calls that find the pool below capacity both open a connection: the second
    section does not look at the counter again. *)
Example capacity_overshoot : exists s, reachable 1 false true [] s /\ created (sp s) = 2.
Proof.
  eexists. split.
  - unfold reachable. run_step ltac:(by eapply (S_enter _ _ _ _ TryAcquire false); [reflexivity|left]).
    run_step ltac:(by eapply (S_enter _ _ _ _ TryAcquire false); [reflexivity|left]).
    run_step ltac:(apply (S_created _ _ _ _ TryAcquire 0); set_solver).
    run_step ltac:(apply (S_created _ _ _ _ TryAcquire 1); set_solver). apply rtc_refl.
  - reflexivity.
Qed.

(** A connection returned while another call fails to open one is parked; that call
    then queues without looking at the free list again. *)
Example stranded_waiter :
  exists s, reachable 2 true false [true] s /\ free (sp s) = [0] /\ waiters (sp s) = [SyncEntry 1] /\ blocked (sc s) = [1].
Proof.
  eexists. split.
  - unfold reachable. run_step ltac:(by eapply (S_enter _ _ _ _ TryAcquire false); [reflexivity|right; left]).
    run_step ltac:(by eapply (S_enter _ _ _ _ Acquire false); [reflexivity|right; right]).
    run_step ltac:(apply (S_release _ _ _ _ 0); set_solver).
    run_step ltac:(apply (S_create_failed _ _ _ _ Acquire 1); [done|set_solver]). apply rtc_refl.
  - by cbn.
Qed.

(** A dead connection is dropped without waking anybody, though a slot is free. *)
Example drop_wakes_nobody :
  exists s, reachable 1 false false [true] s /\ created (sp s) = 0 /\ waiters (sp s) = [SyncEntry 1; AsyncEntry 2].
Proof.
  eexists. split.
  - unfold reachable; etrans; [exact busy_reachable|]. run_step ltac:(apply (S_drop _ _ _ _ 0); set_solver). apply rtc_refl.
  - by cbn.
Qed.

(** Shutdown between a hand-off and the thread's wake-up destroys the holder the
    thread is about to use. *)
Example handed_holder_destroyed :
  exists s, reachable 1 false false [true] s /\ handed (sc s) = [(1, 0)] /\ holders (sp s) = [].
Proof.
  eexists. split.
  - unfold reachable; etrans; [exact busy_reachable|]. run_step ltac:(apply (S_release _ _ _ _ 0); set_solver).
    run_step ltac:(by apply S_flag). run_step ltac:(by apply S_drain). apply rtc_refl.
  - by cbn.
Qed.
