(* ===== verification/Transaction.v ===== *)
(** * Transactions and savepoints

    [Transaction], [AutoTransaction] and [Savepoint] as state machines over the
    statements they send on a borrowed connection. The server's verdict on a
    statement is a parameter; the world records every statement with it, and the
    holders given back to the pool. *)

From S2P Require Import Prelude SqlText ConnectionPool.

(** ** [TransactionOptions] *)
Inductive IsolationLevel := READ_COMMITTED | REPEATABLE_READ | SERIALIZABLE.
Inductive AccessMode := READ_WRITE | READ_ONLY.

#[export] Instance isolation_eq_dec : EqDecision IsolationLevel.
Proof. solve_decision. Defined.
#[export] Instance access_eq_dec : EqDecision AccessMode.
Proof. solve_decision. Defined.

Definition isolation_to_string (l : IsolationLevel) : bytes :=
  match l with
  | READ_COMMITTED => B "READ COMMITTED"
  | REPEATABLE_READ => B "REPEATABLE READ"
  | SERIALIZABLE => B "SERIALIZABLE"
  end.

Definition access_to_string (m : AccessMode) : bytes :=
  match m with READ_WRITE => B "READ WRITE" | READ_ONLY => B "READ ONLY" end.

Record TransactionOptions := { isolation : IsolationLevel; access : AccessMode; deferrable : bool }.

Definition to_begin_sql (o : TransactionOptions) : result exn bytes :=
  if deferrable o && (negb (bool_decide (isolation o = SERIALIZABLE)) || negb (bool_decide (access o = READ_ONLY))) then
    Err (InvalidArgument (B "DEFERRABLE is only valid with SERIALIZABLE READ ONLY"))
  else
    Ok (B "BEGIN" ++ B " ISOLATION LEVEL " ++ isolation_to_string (isolation o) ++ B " " ++ access_to_string (access o) ++
        (if deferrable o then B " DEFERRABLE" else [])).

(** ** Identifiers *)

(** [std::isalpha] and [std::isalnum] in the "C" locale. *)
Definition is_alpha (c : ascii) : bool :=
  ((65 <=? code c) && (code c <=? 90)) || ((97 <=? code c) && (code c <=? 122)).
Definition is_alnum (c : ascii) : bool := is_alpha c || is_digit c.

Definition is_valid_identifier (name : bytes) : bool :=
  match name with
  | [] => false
  | c :: _ =>
      if 63 <? length name then false
      else if negb (is_alpha c) && negb (bool_decide (c = "_"%char)) then false
      else forallb (fun c => is_alnum c || bool_decide (c = "_"%char)) name
  end.

(** ** The world *)
Record World := {
  sent : list (nat * bytes * bool);  (* connection, statement, whether it succeeded *)
  released : list nat;               (* holders reset, in order *)
  alive : list nat                   (* holders the pool still owns *)
}.

Inductive ClientError :=
  InvalidState | InvalidArgumentError (message : bytes) | ServerError (sql : bytes) | PoolExhausted | PoolShutdown | WaitTimeout.

Inductive TransactionStatus := IDLE | ACTIVE | COMMITTED | ROLLED_BACK | FAILED.

#[export] Instance status_eq_dec : EqDecision TransactionStatus.
Proof. solve_decision. Defined.

(** [tx_holder] is the weak pointer (a holder and its connection share a number). *)
Record Tx := { tx_holder : option nat; tx_conn : option nat; tx_options : TransactionOptions; tx_status : TransactionStatus }.

Record SavepointState := { sv_conn : option nat; sv_name : bytes; sv_active : bool }.

Section transactions.
Context (server : list (nat * bytes * bool) -> nat -> bytes -> bool).

(** [SyncExecutor::execute] for a control statement; without a connection it fails
    and sends nothing. *)
Definition execute_control (conn : option nat) (sql : bytes) (w : World) : result ClientError unit * World :=
  match conn with
  | None => (Err (ServerError sql), w)
  | Some c =>
      let ok := server (sent w) c sql in
      (if ok then Ok () else Err (ServerError sql), {| sent := sent w ++ [(c, sql, ok)]; released := released w; alive := alive w |})
  end.

Definition lock (h : option nat) (w : World) : option nat := h ← h; if bool_decide (h ∈ alive w) then Some h else None.

Definition release_holder (h : nat) (w : World) : World := {| sent := sent w; released := released w ++ [h]; alive := alive w |}.

(** ** [Transaction] *)
Definition transaction (holder : nat) (opts : TransactionOptions) (w : World) : Tx :=
  {| tx_holder := Some holder; tx_conn := lock (Some holder) w; tx_options := opts; tx_status := IDLE |}.

Definition set_status (t : Tx) (s : TransactionStatus) : Tx :=
  {| tx_holder := tx_holder t; tx_conn := tx_conn t; tx_options := tx_options t; tx_status := s |}.

(** A control statement with the status it leads to. *)
Definition control (t : Tx) (sql : bytes) (next : TransactionStatus) (w : World) : result ClientError unit * Tx * World :=
  let '(r, w') := execute_control (tx_conn t) sql w in
  (r, set_status t (match r with Ok _ => next | Err _ => FAILED end), w').

(** [begin] can also throw, from [to_begin_sql]. *)
Definition begin (t : Tx) (w : World) : result exn (result ClientError unit * Tx * World) :=
  if negb (bool_decide (tx_status t = IDLE)) then Ok (Err InvalidState, t, w)
  else sql ← to_begin_sql (tx_options t); Ok (control t sql ACTIVE w).

Definition commit (t : Tx) (w : World) : result ClientError unit * Tx * World :=
  if negb (bool_decide (tx_status t = ACTIVE)) then (Err InvalidState, t, w) else control t (B "COMMIT") COMMITTED w.

Definition rollback (t : Tx) (w : World) : result ClientError unit * Tx * World :=
  if negb (bool_decide (tx_status t = ACTIVE)) then (Err InvalidState, t, w) else control t (B "ROLLBACK") ROLLED_BACK w.

(** [with_sync] and [with_async]: the connection the executor runs on. *)
Definition with_executor (t : Tx) : result ClientError (option nat) :=
  if negb (bool_decide (tx_status t = ACTIVE)) then Err InvalidState else Ok (tx_conn t).

Definition savepoint_sql (verb name : bytes) : bytes := verb ++ [quote] ++ name ++ [quote].

Definition savepoint (t : Tx) (name : bytes) (w : World) : result ClientError SavepointState * World :=
  if negb (bool_decide (tx_status t = ACTIVE)) then (Err InvalidState, w)
  else if negb (is_valid_identifier name) then
    (Err (InvalidArgumentError (B "Invalid savepoint name: '" ++ name ++ B "'")), w)
  else match execute_control (tx_conn t) (savepoint_sql (B "SAVEPOINT ") name) w with
       | (Ok _, w') => (Ok {| sv_conn := tx_conn t; sv_name := name; sv_active := true |}, w')
       | (Err e, w') => (Err e, w')
       end.

Definition is_active (t : Tx) : bool := bool_decide (tx_status t = ACTIVE).
Definition is_finished (t : Tx) : bool := bool_decide (tx_status t = COMMITTED) || bool_decide (tx_status t = ROLLED_BACK).

(** The destructor. *)
Definition destroy (t : Tx) (w : World) : World :=
  match lock (tx_holder t) w with
  | None => w
  | Some h =>
      let w' := if is_active t then snd (execute_control (tx_conn t) (B "ROLLBACK") w) else w in
      release_holder h w'
  end.

(** What a moved-from transaction is left as. *)
Definition moved_from (t : Tx) : Tx := {| tx_holder := None; tx_conn := None; tx_options := tx_options t; tx_status := FAILED |}.

Definition move_construct (src : Tx) : Tx * Tx := (src, moved_from src).

Definition move_assign (dst src : Tx) (w : World) : Tx * Tx * World :=
  let w' := match lock (tx_holder dst) w with Some h => release_holder h w | None => w end in
  (src, moved_from src, w').

(** ** [Savepoint] *)
Definition savepoint_rollback (s : SavepointState) (w : World) : result ClientError unit * World :=
  if negb (sv_active s) then (Err InvalidState, w)
  else execute_control (sv_conn s) (savepoint_sql (B "ROLLBACK TO SAVEPOINT ") (sv_name s)) w.

Definition savepoint_release (s : SavepointState) (w : World) : result ClientError unit * SavepointState * World :=
  if negb (sv_active s) then (Err InvalidState, s, w)
  else let '(r, w') := execute_control (sv_conn s) (savepoint_sql (B "RELEASE SAVEPOINT ") (sv_name s)) w in
       (r, match r with Ok _ => {| sv_conn := sv_conn s; sv_name := sv_name s; sv_active := false |} | Err _ => s end, w').

Definition savepoint_destroy (s : SavepointState) (w : World) : World :=
  if sv_active s then snd (savepoint_release s w) else w.

Definition savepoint_moved_from (s : SavepointState) : SavepointState := {| sv_conn := None; sv_name := []; sv_active := false |}.

Definition savepoint_move_assign (dst src : SavepointState) (w : World) : SavepointState * SavepointState * World :=
  (src, savepoint_moved_from src, savepoint_destroy dst w).

(** A moved-from savepoint keeps no connection; its name is left unspecified by
    [std::string] and no longer read, being inactive. *)
Definition savepoint_move_construct (src : SavepointState) : SavepointState * SavepointState := (src, savepoint_moved_from src).

(** [do_cleanup]: the holders' cleanup statements by number. *)
Definition do_cleanup (t : Tx) (q : CleanupQuery) (w : World) (holders : nat -> Holder) : nat -> Holder :=
  match lock (tx_holder t) w with
  | Some h => fun k => if decide (k = h) then set_cleanup (holders h) q else holders k
  | None => holders
  end.

(** ** [Session]

    [holder] is the weak pointer the pool handed out, [shutdown] the pool's flag when
    the call looks at it. The functions are [noexcept]: an exception from [begin]
    ends the process. *)
Inductive Acquisition := Immediate | Timed | Unbounded.

Definition map_empty_weak_timed (shutdown : bool) : ClientError := if shutdown then PoolShutdown else WaitTimeout.

Definition empty_error (a : Acquisition) (shutdown : bool) : ClientError :=
  match a with Immediate => PoolExhausted | Timed => map_empty_weak_timed shutdown | Unbounded => PoolShutdown end.

Definition session_with_sync (a : Acquisition) (holder : option nat) (shutdown : bool) (w : World) : result ClientError nat :=
  match lock holder w with None => Err (empty_error a shutdown) | Some h => Ok h end.

(** The awaitable [with_async] calls: the pool's completion carries an error code;
    [try_with_async] goes through [try_acquire] as [try_with_sync] does. *)
Definition session_with_async (timed : bool) (c : Completion) : result ClientError nat :=
  match c with
  | Success h => Ok h
  | Aborted => Err PoolShutdown
  | TimedOut => Err (if timed then WaitTimeout else PoolShutdown)
  end.

Inductive AutoOutcome := Started (t : Tx) | Rejected (e : ClientError) | Terminated.

Definition begin_transaction (a : Acquisition) (holder : option nat) (shutdown : bool) (opts : TransactionOptions) (w : World)
  : result ClientError Tx :=
  match lock holder w with
  | None => Err (empty_error a shutdown)
  | Some h => Ok (transaction h opts w)
  end.

Definition begin_auto_transaction (a : Acquisition) (holder : option nat) (shutdown : bool) (opts : TransactionOptions) (w : World)
  : AutoOutcome * World :=
  match begin_transaction a holder shutdown opts w with
  | Err e => (Rejected e, w)
  | Ok tx =>
      match begin tx w with
      | Err _ => (Terminated, w)
      | Ok (Err e, tx', w') => (Rejected e, destroy tx' w')
      | Ok (Ok _, tx', w') => (Started tx', w')
      end
  end.
End transactions.

(** ** Using transactions *)

(** What a client does with a live transaction; [OpExecute] runs a statement on the
    executor that [with_sync] returns. *)
Inductive TxOp := OpBegin | OpCommit | OpRollback | OpSavepoint (name : bytes) | OpExecute (sql : bytes).

(** What it does with its [Transaction] variables: an operation on one, a new one
    move-constructed from it, a move assignment, the end of its lifetime. *)
Inductive TxUse := UseOp (i : nat) (op : TxOp) | UseMove (i : nat) | UseAssign (dst src : nat) | UseDestroy (i : nat).

Section use.
Context (server : list (nat * bytes * bool) -> nat -> bytes -> bool).

(** An exception from [begin] leaves the transaction as it was. *)
Definition run_op (tw : Tx * World) (op : TxOp) : Tx * World :=
  let '(t, w) := tw in
  match op with
  | OpBegin => match begin server t w with Ok (_, t', w') => (t', w') | Err _ => (t, w) end
  | OpCommit => let '(_, t', w') := commit server t w in (t', w')
  | OpRollback => let '(_, t', w') := rollback server t w in (t', w')
  | OpSavepoint name => (t, snd (savepoint server t name w))
  | OpExecute sql => match with_executor t with Ok c => (t, snd (execute_control server c sql w)) | Err _ => (t, w) end
  end.

(** The variables, [None] once destroyed. *)
Notation Vars := (list (option Tx)).

Definition var (vs : Vars) (i : nat) : option Tx := mjoin (vs !! i).

Definition run_use (vw : Vars * World) (u : TxUse) : Vars * World :=
  let '(vs, w) := vw in
  match u with
  | UseOp i op => match var vs i with Some t => let '(t', w') := run_op (t, w) op in (<[i := Some t']> vs, w') | None => (vs, w) end
  | UseMove i =>
      match var vs i with
      | Some t => let '(new, old) := move_construct t in (<[i := Some old]> vs ++ [Some new], w)
      | None => (vs, w)
      end
  | UseAssign i j =>
      match var vs i, var vs j with
      | Some d, Some s =>
          if decide (i = j) then (vs, w)
          else let '(d', s', w') := move_assign d s w in (<[i := Some d']> (<[j := Some s']> vs), w')
      | _, _ => (vs, w)
      end
  | UseDestroy i => match var vs i with Some t => (<[i := None]> vs, destroy server t w) | None => (vs, w) end
  end.

Definition run_uses (us : list TxUse) (vw : Vars * World) : Vars * World := fold_left run_use us vw.

(** The end of every variable's lifetime. *)
Definition destroy_all (vw : Vars * World) : Vars * World := run_uses (UseDestroy <$> seq 0 (length vw.1)) vw.

(** The transaction control statements among those sent on connection [h]. *)
Definition is_control (sql : bytes) : bool :=
  starts_with (B "BEGIN") sql || bool_decide (sql = B "COMMIT") || bool_decide (sql = B "ROLLBACK").

Definition controls (h : nat) (log : list (nat * bytes * bool)) : list (bytes * bool) :=
  omap (fun e => let '(c, sql, ok) := e in if bool_decide (c = h) && is_control sql then Some (sql, ok) else None) log.

Definition times (h : nat) (hs : list nat) : nat := length (filter (fun k => k = h) hs).

(** The client sends no control statement of its own through an executor, and never
    assigns to an active transaction. *)
Definition considerate (vs : Vars) (u : TxUse) : bool :=
  match u with
  | UseOp _ (OpExecute sql) => negb (is_control sql)
  | UseAssign i j => bool_decide (i = j) || negb (from_option is_active false (var vs i))
  | _ => true
  end.

Fixpoint all_considerate (us : list TxUse) (vw : Vars * World) : bool :=
  match us with [] => true | u :: us' => considerate vw.1 u && all_considerate us' (run_use vw u) end.

(** Every BEGIN that succeeded is followed by one COMMIT or ROLLBACK, and nothing else is sent. *)
Definition balanced (opts : TransactionOptions) (l : list (bytes * bool)) : Prop :=
  l = [] \/ exists b, to_begin_sql opts = Ok b /\
    (l = [(b, false)] \/ exists e r, l = [(b, true); (e, r)] /\ (e = B "COMMIT" \/ e = B "ROLLBACK")).

(** What has been sent in each status. *)
Definition sent_in (opts : TransactionOptions) (s : TransactionStatus) (l : list (bytes * bool)) : Prop :=
  match s with
  | IDLE => l = []
  | ACTIVE => exists b, to_begin_sql opts = Ok b /\ l = [(b, true)]
  | _ => balanced opts l
  end.

(** Since [w0], connection [h] was not given back and [l] is what was sent on it. *)
Record since (h : nat) (w0 w : World) (given : nat) (l : list (bytes * bool)) : Prop := {
  si_alive : alive w = alive w0;
  si_released : times h (released w) = times h (released w0) + given;
  si_sent : controls h (sent w) = controls h (sent w0) ++ l
}.

Record owns (h : nat) (opts : TransactionOptions) (w0 : World) (t : Tx) (w : World) : Prop := {
  ow_holder : tx_holder t = Some h;
  ow_conn : tx_conn t = Some h;
  ow_options : tx_options t = opts;
  ow_sent : exists l, since h w0 w 0 l /\ sent_in opts (tx_status t) l
}.

Definition foreign (h : nat) (t : Tx) : Prop := tx_holder t <> Some h /\ tx_conn t <> Some h.

Lemma controls_app h l k : controls h (l ++ k) = controls h l ++ controls h k.
Proof. apply omap_app. Qed.

Lemma controls_one h c sql ok : controls h [(c, sql, ok)] = if bool_decide (c = h) && is_control sql then [(sql, ok)] else [].
Proof. unfold controls. cbn. by destruct (_ && _). Qed.

Lemma times_app h l k : times h (l ++ k) = times h l + times h k.
Proof. unfold times. by rewrite filter_app, length_app. Qed.

Lemma times_one h k : times h [k] = if decide (k = h) then 1 else 0.
Proof. unfold times. rewrite filter_cons, filter_nil. by case_decide. Qed.

Lemma begin_is_control o b : to_begin_sql o = Ok b -> is_control b = true.
Proof. unfold to_begin_sql. destruct (_ && _); [done|]. by intros [= <-]. Qed.

Lemma savepoint_not_control name : is_control (savepoint_sql (B "SAVEPOINT ") name) = false.
Proof. unfold is_control. by rewrite !bool_decide_false by done. Qed.

Lemma since_send h w0 w n l c sql :
  since h w0 w n l ->
  let w' := snd (execute_control server (Some c) sql w) in
  since h w0 w' n (l ++ controls h [(c, sql, server (sent w) c sql)]).
Proof. intros [Ha Hr Hs]. split; cbn [snd execute_control alive released sent]; [done..|]. by rewrite controls_app, Hs, app_assoc. Qed.

Lemma since_foreign h w0 w n l c sql :
  c <> Some h -> since h w0 w n l -> since h w0 (snd (execute_control server c sql w)) n l.
Proof.
  intros Hc Hs. destruct c as [c|]; [|exact Hs]. pose proof (since_send h w0 w n l c sql Hs) as Hn. cbn zeta in Hn.
  rewrite controls_one, bool_decide_false, app_nil_r in Hn by congruence. exact Hn.
Qed.

Lemma since_release h w0 w n l k :
  since h w0 w n l -> since h w0 (release_holder k w) (n + (if decide (k = h) then 1 else 0)) l.
Proof. intros [Ha Hr Hs]. split; cbn [release_holder alive released sent]; [done| |done]. rewrite times_app, times_one, Hr. lia. Qed.

(** Whatever a transaction does, its holder, connection and options stay. *)
Lemma run_op_keeps t w op :
  let t' := fst (run_op (t, w) op) in tx_holder t' = tx_holder t /\ tx_conn t' = tx_conn t /\ tx_options t' = tx_options t.
Proof.
  destruct op; cbn [run_op].
  - unfold begin. destruct (negb _); [done|]. destruct (to_begin_sql _); [|done]. cbn. unfold control.
    by destruct (execute_control _ _ _ _).
  - unfold commit, control. destruct (negb _); [done|]. by destruct (execute_control _ _ _ _).
  - unfold rollback, control. destruct (negb _); [done|]. by destruct (execute_control _ _ _ _).
  - done.
  - by destruct (with_executor t).
Qed.

(** The only thing an operation does to the world is sending at most one statement on the connection. *)
Lemma run_op_world t w op :
  let w' := snd (run_op (t, w) op) in w' = w \/ exists sql, w' = snd (execute_control server (tx_conn t) sql w).
Proof.
  destruct op; cbn [run_op].
  - unfold begin. destruct (negb _); [by left|]. destruct (to_begin_sql _) as [b|]; [|by left]. right. exists b. cbn. unfold control.
    by destruct (execute_control _ _ _ _).
  - unfold commit, control. destruct (negb _); [by left|]. right. exists (B "COMMIT"). by destruct (execute_control _ _ _ _).
  - unfold rollback, control. destruct (negb _); [by left|]. right. exists (B "ROLLBACK"). by destruct (execute_control _ _ _ _).
  - unfold savepoint. destruct (negb _); [by left|]. destruct (negb _); [by left|]. right.
    exists (savepoint_sql (B "SAVEPOINT ") name). by destruct (execute_control _ _ _ _) as [[] ?].
  - unfold with_executor. destruct (negb _); [by left|]. right. by eexists.
Qed.

Lemma foreign_op h w0 t w n l op :
  foreign h t -> since h w0 w n l ->
  let '(t', w') := run_op (t, w) op in foreign h t' /\ since h w0 w' n l.
Proof.
  intros [Hh Hc] Hs. pose proof (run_op_keeps t w op) as (Eh & Ec & _). pose proof (run_op_world t w op) as Hw.
  destruct (run_op (t, w) op) as [t' w']. cbn in *. split; [split; congruence|].
  destruct Hw as [->|[sql ->]]; [done|]. by apply since_foreign.
Qed.

(** A control statement moves the log the way the status moves. *)
Lemma control_owns h opts w0 t w sql next :
  owns h opts w0 t w -> is_control sql = true ->
  (forall l ok, sent_in opts (tx_status t) l -> sent_in opts (if ok : bool then next else FAILED) (l ++ [(sql, ok)])) ->
  let '(_, t', w') := control server t sql next w in owns h opts w0 t' w'.
Proof.
  intros [Hh Hc Ho (l & Hs & Hl)] Hctl Hnext. unfold control, execute_control. rewrite Hc.
  split; [done..|]. cbn [tx_status set_status].
  exists (l ++ [(sql, server (sent w) h sql)]). split.
  - pose proof (since_send h w0 w 0 l h sql Hs) as Hn. cbn zeta in Hn. rewrite controls_one, bool_decide_true, Hctl in Hn by done.
    exact Hn.
  - specialize (Hnext l (server (sent w) h sql) Hl). by destruct (server (sent w) h sql).
Qed.

Lemma execute_owns h opts w0 t w sql :
  owns h opts w0 t w -> is_control sql = false -> owns h opts w0 t (snd (execute_control server (tx_conn t) sql w)).
Proof.
  intros [Hh Hc Ho (l & Hs & Hl)] Hctl. split; [done..|]. exists l. split; [|done]. rewrite Hc.
  pose proof (since_send h w0 w 0 l h sql Hs) as Hn. cbn zeta in Hn. rewrite controls_one, Hctl, andb_false_r, app_nil_r in Hn. exact Hn.
Qed.

Lemma balanced_end opts b l e r :
  to_begin_sql opts = Ok b -> l = [(b, true)] -> e = B "COMMIT" \/ e = B "ROLLBACK" -> balanced opts (l ++ [(e, r)]).
Proof. intros Hb -> He. right. exists b. split; [done|]. right. by exists e, r. Qed.

Lemma run_op_owns h opts w0 t w op :
  (forall sql, op = OpExecute sql -> is_control sql = false) -> owns h opts w0 t w ->
  let '(t', w') := run_op (t, w) op in owns h opts w0 t' w'.
Proof.
  intros Hop Hi. pose proof (ow_options _ _ _ _ _ Hi) as Ho. destruct op as [| | |name|sql]; cbn [run_op].
  - unfold begin. rewrite Ho. destruct (bool_decide (tx_status t = IDLE)) eqn:E; [|done].
    apply bool_decide_eq_true in E. cbn [negb]. destruct (to_begin_sql opts) as [b|] eqn:Hb; [|done]. cbn [mbind result_bind].
    pose proof (control_owns h opts w0 t w b ACTIVE Hi (begin_is_control _ _ Hb)) as Hn. destruct (control server t b ACTIVE w) as [[? ?] ?].
    apply Hn. rewrite E. intros l [] ->; [by exists b|]. right. exists b. split; [done|by left].
  - unfold commit. destruct (bool_decide (tx_status t = ACTIVE)) eqn:E; [|done]. apply bool_decide_eq_true in E. cbn [negb].
    pose proof (control_owns h opts w0 t w (B "COMMIT") COMMITTED Hi eq_refl) as Hn. destruct (control server t _ _ w) as [[? ?] ?].
    apply Hn. rewrite E. intros l [] (b & Hb & Hl); (eapply balanced_end; [done|done|by left]).
  - unfold rollback. destruct (bool_decide (tx_status t = ACTIVE)) eqn:E; [|done]. apply bool_decide_eq_true in E. cbn [negb].
    pose proof (control_owns h opts w0 t w (B "ROLLBACK") ROLLED_BACK Hi eq_refl) as Hn. destruct (control server t _ _ w) as [[? ?] ?].
    apply Hn. rewrite E. intros l [] (b & Hb & Hl); (eapply balanced_end; [done|done|by right]).
  - unfold savepoint. destruct (negb _); [done|]. destruct (negb _); [done|].
    pose proof (execute_owns _ _ _ _ _ _ Hi (savepoint_not_control name)) as Hx.
    destruct (execute_control server _ _ w) as [[] ?]; exact Hx.
  - unfold with_executor. destruct (negb _); [done|]. apply execute_owns; [done|by apply Hop].
Qed.

(** The end of the owner's lifetime: given back once, with everything balanced. *)
Lemma destroy_owns h opts w0 t w :
  h ∈ alive w0 -> owns h opts w0 t w -> exists l, since h w0 (destroy server t w) 1 l /\ balanced opts l.
Proof.
  intros Ha [Hh Hc Ho (l & Hs & Hl)]. unfold destroy. rewrite Hh. unfold lock. cbn [mbind option_bind].
  rewrite (si_alive _ _ _ _ _ Hs), bool_decide_true by done. unfold is_active. case_bool_decide as E.
  - rewrite E in Hl. destruct Hl as (b & Hb & ->). exists ([(b, true)] ++ [(B "ROLLBACK", server (sent w) h (B "ROLLBACK"))]). split.
    + rewrite Hc. pose proof (since_send h w0 w 0 _ h (B "ROLLBACK") Hs) as Hn. cbn zeta in Hn.
      apply (since_release _ _ _ _ _ h) in Hn. rewrite decide_True in Hn by done. rewrite controls_one, bool_decide_true in Hn by done.
      exact Hn.
    + apply (balanced_end _ b); [done|done|by right].
  - exists l. split.
    + apply (since_release _ _ _ _ _ h) in Hs. by rewrite decide_True in Hs.
    + destruct (tx_status t); try done. by left.
Qed.

Lemma lock_Some k w h : lock k w = Some h -> k = Some h.
Proof. unfold lock. destruct k as [k|]; [|done]. cbn. case_bool_decide; [|done]. by intros [= ->]. Qed.

Lemma destroy_foreign h w0 t w n l : foreign h t -> since h w0 w n l -> since h w0 (destroy server t w) n l.
Proof.
  intros [Hh Hc] Hs. unfold destroy. destruct (lock (tx_holder t) w) as [k|] eqn:Ek; [|done]. apply lock_Some in Ek.
  assert (Hk : k <> h) by congruence.
  assert (Hs' : since h w0 (if is_active t then snd (execute_control server (tx_conn t) (B "ROLLBACK") w) else w) n l)
    by (destruct (is_active t); [by apply since_foreign|done]).
  apply (since_release _ _ _ _ _ k) in Hs'. by rewrite decide_False, Nat.add_0_r in Hs'.
Qed.

Lemma moved_from_foreign h t : foreign h (moved_from t).
Proof. done. Qed.

Lemma assign_foreign h w0 d w n l :
  foreign h d -> since h w0 w n l -> since h w0 (match lock (tx_holder d) w with Some k => release_holder k w | None => w end) n l.
Proof.
  intros [Hh _] Hs. destruct (lock (tx_holder d) w) as [k|] eqn:Ek; [|done]. apply lock_Some in Ek.
  apply (since_release _ _ _ _ _ k) in Hs. by rewrite decide_False, Nat.add_0_r in Hs by congruence.
Qed.

(** Connection [h] belongs to one variable, or was given back with everything balanced. *)
Definition all_foreign (h : nat) (vs : Vars) (except : nat -> Prop) : Prop :=
  forall j t, var vs j = Some t -> ~ except j -> foreign h t.

Definition held (h : nat) (opts : TransactionOptions) (w0 : World) (vw : Vars * World) : Prop :=
  (exists i t, var vw.1 i = Some t /\ owns h opts w0 t vw.2 /\ all_foreign h vw.1 (fun j => j = i)) \/
  (exists l, since h w0 vw.2 1 l /\ balanced opts l /\ all_foreign h vw.1 (fun _ => False)).

Lemma var_insert vs i o j : i < length vs -> var (<[i := o]> vs) j = if decide (i = j) then o else var vs j.
Proof.
  intros Hi. unfold var. destruct (decide (i = j)) as [->|Hn]; [|by rewrite list_lookup_insert_ne]. by rewrite list_lookup_insert_eq.
Qed.

Lemma var_bound vs i t : var vs i = Some t -> i < length vs.
Proof. unfold var. destruct (vs !! i) eqn:E; [|done]. intros _. by eapply lookup_lt_Some. Qed.

Lemma var_app vs o j : var (vs ++ [o]) j = if decide (j = length vs) then o else var vs j.
Proof.
  unfold var. destruct (decide (j = length vs)) as [->|Hn]; [by rewrite list_lookup_middle|].
  destruct (decide (j < length vs)); [by rewrite lookup_app_l|]. rewrite !lookup_ge_None_2; [done|lia|]. rewrite length_app. simpl. lia.
Qed.

Lemma all_foreign_insert h vs i o (except : nat -> Prop) (except' : nat -> Prop) :
  i < length vs -> (forall t, o = Some t -> ~ except' i -> foreign h t) ->
  (forall j, j <> i -> except j -> except' j) -> all_foreign h vs except -> all_foreign h (<[i := o]> vs) except'.
Proof.
  intros Hi Ho He Hf j t. rewrite var_insert by done. case_decide as E; [subst; eauto|]. intros Hj Hn.
  apply (Hf j t Hj). intros Hx. by apply Hn, He.
Qed.

Ltac vars := rewrite ?var_app, ?var_insert, ?length_insert by (rewrite ?length_insert; eauto using var_bound);
  repeat case_decide; try done; try lia; try congruence.

Ltac foreigns := eapply all_foreign_insert; [by eauto using var_bound| | |eassumption]; naive_solver.

Lemma held_op h opts w0 vs w i op t :
  (forall sql, op = OpExecute sql -> is_control sql = false) -> var vs i = Some t -> held h opts w0 (vs, w) ->
  held h opts w0 (let '(t', w') := run_op (t, w) op in (<[i := Some t']> vs, w')).
Proof.
  intros Hop Hi [(k & tk & Hk & Hown & Hf)|(l & Hs & Hb & Hf)]; cbn [fst snd] in *.
  - destruct (decide (k = i)) as [->|Hne].
    + assert (tk = t) as -> by congruence. pose proof (run_op_owns h opts w0 t w op Hop Hown) as Hn.
      destruct (run_op (t, w) op) as [t' w']. left. exists i, t'. cbn [fst snd]. split_and!; [vars|done|].
      foreigns.
    + pose proof Hown as [Eh Ec Eo (l & Hs & Hl)].
      pose proof (foreign_op h w0 t w 0 l op (Hf i t Hi (fun E => Hne (eq_sym E))) Hs) as Hn.
      destruct (run_op (t, w) op) as [t' w']. destruct Hn as [Hft Hs']. left. exists k, tk. cbn [fst snd]. split_and!; [vars|..].
      * split; [done..|]. by exists l.
      * foreigns.
  - pose proof (foreign_op h w0 t w 1 l op (Hf i t Hi (fun F => F)) Hs) as Hn.
    destruct (run_op (t, w) op) as [t' w']. destruct Hn as [Hft Hs']. right. exists l. cbn [fst snd]. split_and!; [done..|].
    foreigns.
Qed.

Lemma held_move h opts w0 vs w i t :
  var vs i = Some t -> held h opts w0 (vs, w) -> held h opts w0 (<[i := Some (moved_from t)]> vs ++ [Some t], w).
Proof.
  intros Hi [(k & tk & Hk & Hown & Hf)|(l & Hs & Hb & Hf)]; cbn [fst snd] in *.
  - left. destruct (decide (k = i)) as [->|Hne].
    + assert (tk = t) as -> by congruence. exists (length vs), t. cbn [fst snd]. split_and!; [vars|done|]. intros j tj. vars.
      * intros [= <-] _. done.
      * intros Hj _. apply (Hf j); naive_solver congruence.
    + exists k, tk. cbn [fst snd]. split_and!; [|done|].
      * apply var_bound in Hk as ?. vars.
      * intros j tj. vars; [intros [= <-] _; apply (Hf i); naive_solver congruence|by intros [= <-]|apply Hf].
  - right. exists l. cbn [fst snd]. split_and!; [done..|]. intros j tj. vars; [intros [= <-] _; apply (Hf i); naive_solver congruence|by intros [= <-]|apply Hf].
Qed.

Lemma held_assign h opts w0 vs w i j d s :
  h ∈ alive w0 -> var vs i = Some d -> var vs j = Some s -> i <> j -> is_active d = false -> held h opts w0 (vs, w) ->
  held h opts w0 (let '(d', s', w') := move_assign d s w in (<[i := Some d']> (<[j := Some s']> vs), w')).
Proof.
  intros Ha Hi Hj Hij Hd Hheld. unfold move_assign. cbn zeta.
  destruct Hheld as [(k & tk & Hk & Hown & Hf)|(l & Hs & Hb & Hf)]; cbn [fst snd] in *.
  - pose proof Hown as [Eh Ec Eo (l & Hs & Hl)]. destruct (decide (k = i)) as [->|Hki].
    + assert (tk = d) as -> by congruence. right. exists l. cbn [fst snd]. split_and!.
      * unfold lock. rewrite Eh. cbn [mbind option_bind]. rewrite (si_alive _ _ _ _ _ Hs), bool_decide_true by done.
        apply (since_release _ _ _ _ _ h) in Hs. by rewrite decide_True in Hs.
      * unfold is_active in Hd. apply bool_decide_eq_false in Hd. destruct (tx_status d); try done. by left.
      * intros x tx. vars; [intros [= <-] _; apply (Hf j); naive_solver congruence|by intros [= <-]|].
        intros Hx _. apply (Hf x); naive_solver congruence.
    + left. assert (Hs' := assign_foreign h w0 d w 0 l (Hf i d Hi (fun E => Hki (eq_sym E))) Hs).
      destruct (decide (k = j)) as [->|Hkj].
      * assert (tk = s) as -> by congruence. exists i, s. cbn [fst snd]. split_and!; [vars| |].
        -- split; [done..|]. by exists l.
        -- intros x tx. vars; [by intros [= <-]|]. intros Hx _. apply (Hf x); naive_solver congruence.
      * exists k, tk. cbn [fst snd]. split_and!; [vars| |].
        -- split; [done..|]. by exists l.
        -- intros x tx. vars; [intros [= <-] _; apply (Hf j); naive_solver congruence|by intros [= <-]|apply Hf].
  - right. exists l. cbn [fst snd]. split_and!; [|done|].
    + apply assign_foreign; [apply (Hf i); naive_solver congruence|done].
    + intros x tx. vars; [intros [= <-] _; apply (Hf j); naive_solver congruence|by intros [= <-]|apply Hf].
Qed.

Lemma held_destroy h opts w0 vs w i t :
  h ∈ alive w0 -> var vs i = Some t -> held h opts w0 (vs, w) -> held h opts w0 (<[i := None]> vs, destroy server t w).
Proof.
  intros Ha Hi [(k & tk & Hk & Hown & Hf)|(l & Hs & Hb & Hf)]; cbn [fst snd] in *.
  - destruct (decide (k = i)) as [->|Hne].
    + assert (tk = t) as -> by congruence. destruct (destroy_owns h opts w0 t w Ha Hown) as (l & Hs & Hb).
      right. exists l. cbn [fst snd]. split_and!; [done..|]. foreigns.
    + pose proof Hown as [Eh Ec Eo (l & Hs & Hl)]. left. exists k, tk. cbn [fst snd]. split_and!; [vars| |].
      * split; [done..|]. exists l. split; [|done]. apply destroy_foreign; [|done]. apply (Hf i); congruence.
      * foreigns.
  - right. exists l. cbn [fst snd]. split_and!; [|done|].
    + apply destroy_foreign; [|done]. apply (Hf i); naive_solver congruence.
    + foreigns.
Qed.

Lemma held_use h opts w0 vw u :
  h ∈ alive w0 -> considerate vw.1 u = true -> held h opts w0 vw -> held h opts w0 (run_use vw u).
Proof.
  destruct vw as [vs w]. intros Ha Hc Hh. cbn in Hc. destruct u as [i op|i|i j|i]; cbn [run_use].
  - destruct (var vs i) as [t|] eqn:Hi; [|done]. apply held_op; [|done..]. intros sql ->. by apply negb_true_iff in Hc.
  - destruct (var vs i) as [t|] eqn:Hi; [|done]. by apply held_move.
  - cbn in Hc. destruct (var vs i) as [d|] eqn:Hi; [|done]. destruct (var vs j) as [s|] eqn:Hj; [|done].
    case_decide as E; [done|]. rewrite bool_decide_false in Hc by done. apply held_assign; try done. by apply negb_true_iff in Hc.
  - destruct (var vs i) as [t|] eqn:Hi; [|done]. by apply held_destroy.
Qed.

Lemma held_uses h opts w0 us vw :
  h ∈ alive w0 -> all_considerate us vw = true -> held h opts w0 vw -> held h opts w0 (run_uses us vw).
Proof.
  intros Ha. revert vw. induction us as [|u us IH]; intros vw Hc Hh; [done|]. cbn in Hc. apply andb_true_iff in Hc as [H1 H2].
  by apply IH, held_use.
Qed.

Lemma destroys_considerate ks vw : all_considerate (UseDestroy <$> ks) vw = true.
Proof. revert vw. induction ks; intros vw; cbn; auto. Qed.

(** Destroying keeps what is destroyed so. *)
Lemma destroyed_stays ks vw j : var vw.1 j = None -> var (run_uses (UseDestroy <$> ks) vw).1 j = None.
Proof.
  revert vw. induction ks as [|i ks IH]; intros [vs w] Hj; [done|]. apply IH. cbn. destruct (var vs i) eqn:Hi; [|done].
  cbn in *. rewrite var_insert by eauto using var_bound. by case_decide.
Qed.

Lemma destroyed ks vw j : j ∈ ks -> var (run_uses (UseDestroy <$> ks) vw).1 j = None.
Proof.
  revert vw. induction ks as [|i ks IH]; intros vw Hj; [by apply elem_of_nil in Hj|].
  apply elem_of_cons in Hj as [->|Hj]; [|by apply IH]. apply (destroyed_stays ks (run_use vw (UseDestroy i))).
  destruct vw as [vs w]. cbn. destruct (var vs i) eqn:Hi; [|done]. cbn. rewrite var_insert by eauto using var_bound. by case_decide.
Qed.

Lemma destroy_all_none vw j : var (destroy_all vw).1 j = None.
Proof.
  destruct (decide (j < length vw.1)).
  - apply destroyed, elem_of_seq. lia.
  - apply destroyed_stays. unfold var. by rewrite lookup_ge_None_2 by lia.
Qed.

(** The transactions a session has just handed out. *)
Definition handed_out (given : list (nat * TransactionOptions)) (w : World) : Vars :=
  (fun g => Some (transaction g.1 g.2 w)) <$> given.

Lemma handed_out_held given w h opts :
  NoDup given.*1 -> h ∈ alive w -> (h, opts) ∈ given -> held h opts w (handed_out given w, w).
Proof.
  intros Hnd Ha Hin. left. apply list_elem_of_lookup in Hin as [i Hi]. exists i, (transaction h opts w). cbn. split_and!.
  - unfold var, handed_out. by rewrite list_lookup_fmap, Hi.
  - split; [done| |done|].
    + unfold transaction, lock. cbn. by rewrite bool_decide_true.
    + exists []. split; [|done]. split; [done|lia|by rewrite app_nil_r].
  - intros j t. unfold var, handed_out. rewrite list_lookup_fmap. destruct (given !! j) as [[k o]|] eqn:Ej; [|done]. intros [= <-] Hj.
    assert (k <> h). { intros ->. apply Hj. eapply (NoDup_lookup given.*1); [done|by rewrite list_lookup_fmap, Ej|by rewrite list_lookup_fmap, Hi]. }
    split; cbn [transaction tx_holder tx_conn]; [|intros E%lock_Some]; congruence.
Qed.

(** C5. A client holds transactions on connections of a live pool, each connection in one of them,
    and uses them in any order: it begins, commits and rolls back, sets savepoints,
    executes statements, moves transactions into new variables and by assignment, and
    destroys them, operations that fail, that come in the wrong status or whose options
    make BEGIN throw included. When the last variable is gone, each connection has been
    given back exactly once, and on each the transaction control statements are
    balanced: none, one BEGIN that failed, or one successful BEGIN with exactly one
    COMMIT or ROLLBACK after it, supplied by the destructor where the client gave none.
    Two things are asked of the client ([considerate]): no control statement of its own
    through an executor, and no assignment to a variable whose transaction is active;
    such an assignment gives the connection back with the server transaction open
    ([assigned_over_active]). *)
Theorem transaction_balanced given w us h opts :
  NoDup given.*1 -> Forall (fun g => g.1 ∈ alive w) given -> (h, opts) ∈ given ->
  all_considerate us (handed_out given w, w) = true ->
  let w' := (destroy_all (run_uses us (handed_out given w, w))).2 in
  times h (released w') = S (times h (released w)) /\
  exists l, controls h (sent w') = controls h (sent w) ++ l /\ balanced opts l.
Proof.
  intros Hnd Hal Hin Hc w'. assert (Ha : h ∈ alive w) by exact (proj1 (Forall_forall _ _) Hal _ Hin).
  assert (Hh : held h opts w (destroy_all (run_uses us (handed_out given w, w)))).
  { apply held_uses; [done|apply destroys_considerate|]. apply held_uses; [done..|]. by apply handed_out_held. }
  destruct Hh as [(i & t & Hi & _)|(l & [_ Hr Hs] & Hb & _)]; [by rewrite destroy_all_none in Hi|].
  subst w'. split; [lia|]. by exists l.
Qed.

(** The automatic transaction: without a live connection the caller learns whether
    the pool was shut down, exhausted or slow, and nothing is sent. With one, and
    options the server grammar admits, it starts exactly when BEGIN succeeds, is then
    active, and otherwise the connection goes back. Inadmissible options end the
    process, the exception crossing a [noexcept] function. *)
Theorem begin_auto_outcome a holder shutdown opts w :
  match lock holder w, to_begin_sql opts, begin_auto_transaction server a holder shutdown opts w with
  | None, _, (o, w') => o = Rejected (empty_error a shutdown) /\ w' = w
  | Some _, Err _, (o, _) => o = Terminated
  | Some h, Ok b, (Started t, w') =>
      server (sent w) h b = true /\ tx_status t = ACTIVE /\ tx_conn t = Some h /\ tx_holder t = Some h /\
      sent w' = sent w ++ [(h, b, true)] /\ released w' = released w
  | Some h, Ok b, (Rejected e, w') =>
      server (sent w) h b = false /\ e = ServerError b /\ sent w' = sent w ++ [(h, b, false)] /\ released w' = released w ++ [h]
  | Some _, Ok _, (Terminated, _) => False
  end.
Proof.
  unfold begin_auto_transaction, begin_transaction. destruct (lock holder w) as [h|] eqn:Eh; [|done].
  assert (El : lock (Some h) w = Some h).
  { destruct holder as [k|]; [|done]. unfold lock in *. cbn in *. destruct (bool_decide (k ∈ alive w)) eqn:Ek; simplify_eq.
    by rewrite Ek. }
  unfold begin, transaction. cbn -[lock].
  rewrite bool_decide_true, ?El by done. cbn -[lock].
  destruct (to_begin_sql opts) as [b|e]; [|done]. unfold control, execute_control. cbn -[lock].
  destruct (server (sent w) h b) eqn:E; cbn -[lock]; [done|]. unfold destroy, is_active. cbn -[lock].
  unfold lock in *. cbn in *. by rewrite El.
Qed.

(** ** Savepoints *)

(** What a client does with a live savepoint, before its destructor. *)
Inductive SavepointOp := OpRollbackTo | OpRelease.

Definition run_savepoint_op (sw : SavepointState * World) (op : SavepointOp) : SavepointState * World :=
  let '(s, w) := sw in
  match op with
  | OpRollbackTo => (s, snd (savepoint_rollback server s w))
  | OpRelease => let '(_, s', w') := savepoint_release server s w in (s', w')
  end.

Definition run_savepoint_ops (ops : list SavepointOp) (sw : SavepointState * World) : SavepointState * World :=
  fold_left run_savepoint_op ops sw.

Notation release_sql name := (savepoint_sql (B "RELEASE SAVEPOINT ") name).
Notation rollback_to_sql name := (savepoint_sql (B "ROLLBACK TO SAVEPOINT ") name).

(** Statements that leave the savepoint on the server's stack. *)
Definition keeps (c : nat) (name : bytes) (e : nat * bytes * bool) : Prop :=
  e = (c, release_sql name, false) \/ exists r, e = (c, rollback_to_sql name, r).

(** While active, only such statements have been sent; afterwards exactly one
    successful RELEASE follows them. *)
Definition sp_inv (c : nat) (name : bytes) (w0 : World) (s : SavepointState) (w : World) : Prop :=
  sv_conn s = Some c /\ sv_name s = name /\
  exists pre, Forall (keeps c name) pre /\
    sent w = sent w0 ++ pre ++ (if sv_active s then [] else [(c, release_sql name, true)]).

Lemma savepoint_op_inv c name w0 s w op :
  sp_inv c name w0 s w -> let '(s', w') := run_savepoint_op (s, w) op in sp_inv c name w0 s' w'.
Proof.
  intros (Hc & Hn & pre & HF & Hs). destruct op; unfold run_savepoint_op, savepoint_rollback, savepoint_release.
  - destruct (sv_active s) eqn:Ea; cbn; [|split_and!; [done..|]; exists pre; by rewrite Ea].
    rewrite Hc, Hn. split_and!; [done..|]. cbn. eexists (pre ++ [_]). rewrite Ea, Hs, !app_nil_r, app_assoc. split; [|done].
    apply Forall_app. split; [done|]. constructor; [|done]. right. by eexists.
  - destruct (sv_active s) eqn:Ea; cbn; [|split_and!; [done..|]; exists pre; by rewrite Ea].
    rewrite Hc, Hn. cbn. destruct (server _ _ _) eqn:Es; cbn; split_and!; cbn; try done.
    + exists pre. by rewrite Hs, app_nil_r, app_assoc.
    + eexists (pre ++ [_]). rewrite Ea, Hs, !app_nil_r, app_assoc. split; [|done].
      apply Forall_app. split; [done|]. constructor; [|done]. by left.
Qed.

Lemma savepoint_ops_inv c name w0 ops s w :
  sp_inv c name w0 s w -> sp_inv c name w0 (fst (run_savepoint_ops ops (s, w))) (snd (run_savepoint_ops ops (s, w))).
Proof.
  revert s w. induction ops as [|op ops IH]; intros s w Hi; [exact Hi|]. unfold run_savepoint_ops in *. cbn [fold_left].
  pose proof (savepoint_op_inv _ _ _ _ _ op Hi) as Hn. destruct (run_savepoint_op (s, w) op). by apply IH.
Qed.

(** However a savepoint is used, the last statement it sends is a RELEASE of its own
    name, on the transaction's connection, and no RELEASE before that one succeeded:
    the destructor supplies a missing one, and a released savepoint sends nothing. *)
Theorem savepoint_released_once t name w sv w1 ops :
  savepoint server t name w = (Ok sv, w1) -> 
  exists c, tx_conn t = Some c /\
  let '(s, w2) := run_savepoint_ops ops (sv, w1) in
  exists pre r, sent (savepoint_destroy server s w2) = sent w1 ++ pre ++ [(c, release_sql name, r)] /\
    Forall (keeps c name) pre.
Proof.
  unfold savepoint. destruct (negb _); [done|]. destruct (negb _); [done|]. destruct (tx_conn t) as [c|] eqn:Ec; [|done]. cbn.
  destruct (server _ _ _); [|done]. intros [= <- <-]. exists c. split; [done|].
  match goal with |- context [run_savepoint_ops ops (?s, ?u)] => pose proof (savepoint_ops_inv c name u ops s u) as Hi end.
  destruct (run_savepoint_ops _ _) as [s w2]. destruct Hi as (Hc & Hn & pre & HF & Hs).
  { split_and!; [done..|]. exists []. split; [constructor|]. cbn. by rewrite app_nil_r. }
  exists pre. cbn [fst snd] in *. unfold savepoint_destroy, savepoint_release. destruct (sv_active s) eqn:Ea; cbn [negb].
  - rewrite Hc, Hn. cbn [execute_control]. eexists. cbn [snd sent]. rewrite Hs, app_nil_r. split; [symmetry; apply app_assoc|done].
  - exists true. by rewrite Hs.
Qed.

Lemma valid_identifier_chars name : is_valid_identifier name = true -> quote ∉ name /\ 1 <= length name <= 63.
Proof.
  unfold is_valid_identifier. destruct name as [|x name]; [done|]. destruct (63 <? _) eqn:El; [done|]. destruct (_ && _); [done|].
  intros HF. apply Nat.ltb_ge in El. split; [|cbn [length] in *; lia].
  rewrite forallb_forall in HF. intros Hin%list_elem_of_In%HF. by vm_compute in Hin.
Qed.

Lemma read_quoted name : quote ∉ name -> read_delimited quote ([quote] ++ name ++ [quote]) = Some (name, []).
Proof.
  intros Hq. cbn [app read_delimited]. rewrite decide_True by done. rewrite <- (doubled_absent quote name Hq) at 1.
  by apply delimited_doubled.
Qed.

(** Whatever name a client gives a savepoint, either nothing is sent and the call
    reports the name, or one statement is sent in which the server reads exactly that
    name, short enough for it not to be truncated, and nothing after it. *)
Theorem savepoint_name_contained t c name w :
  tx_status t = ACTIVE -> tx_conn t = Some c ->
  let '(r, w') := savepoint server t name w in
  released w' = released w /\
  if is_valid_identifier name then
    exists q ok, sent w' = sent w ++ [(c, B "SAVEPOINT " ++ q, ok)] /\
      read_delimited quote q = Some (name, []) /\ 1 <= length name <= 63 /\
      r = if ok : bool then Ok {| sv_conn := Some c; sv_name := name; sv_active := true |} else Err (ServerError (B "SAVEPOINT " ++ q))
  else w' = w /\ r = Err (InvalidArgumentError (B "Invalid savepoint name: '" ++ name ++ B "'")).
Proof.
  intros Hs Hc. unfold savepoint. rewrite bool_decide_true by done. cbn [negb].
  destruct (is_valid_identifier name) eqn:Ev; [|done]. apply valid_identifier_chars in Ev as [Hq Hl].
  cbn [negb]. rewrite Hc. unfold execute_control, savepoint_sql.
  destruct (server _ _ _) eqn:E; cbn [sent released]; (split; [done|]); eexists ([quote] ++ name ++ [quote]), _;
    (split_and!; [done|by apply read_quoted|lia|lia|done]).
Qed.
End use.

(** ** Instances *)
Definition obliging : list (nat * bytes * bool) -> nat -> bytes -> bool := fun _ _ _ => true.
Definition read_only_opts : TransactionOptions := {| isolation := SERIALIZABLE; access := READ_ONLY; deferrable := true |}.
Definition fresh_world : World := {| sent := []; released := []; alive := [7] |}.

(** Two connections: one committed after a move, the other assigned to, then left active. *)
Lemma transaction_balanced_witness :
  let w := {| sent := []; released := []; alive := [7; 8] |} in
  let given := [(7, read_only_opts); (8, read_only_opts)] in
  let us := [UseOp 0 OpBegin; UseMove 0; UseOp 2 (OpExecute (B "SELECT 1")); UseOp 2 (OpSavepoint (B "sp")); UseOp 2 OpCommit;
             UseOp 1 OpBegin; UseAssign 2 1; UseOp 1 OpCommit] in
  let w' := (destroy_all obliging (run_uses obliging us (handed_out given w, w))).2 in
  released w' = [7; 8] /\ times 8 (released w') = 1 /\
  exists l, controls 8 (sent w') = l /\ balanced read_only_opts l /\ length l = 2.
Proof.
  intros w given us w'.
  destruct (transaction_balanced obliging given w us 8 read_only_opts) as (Hr & l & Hl & Hb).
  - repeat constructor; set_solver.
  - repeat constructor; set_solver.
  - set_solver.
  - vm_compute. reflexivity.
  - split; [vm_compute; reflexivity|]. split; [exact Hr|]. exists l. split; [exact Hl|]. split; [exact Hb|].
    change (controls 8 (sent w)) with (@nil (bytes * bool)) in Hl. cbn [app] in Hl. rewrite <- Hl. vm_compute. reflexivity.
Defined.

Definition active_tx : Tx := {| tx_holder := Some 7; tx_conn := Some 7; tx_options := read_only_opts; tx_status := ACTIVE |}.

Lemma savepoint_released_once_witness :
  exists sv w1, savepoint obliging active_tx (B "sp") fresh_world = (Ok sv, w1) /\
  let '(s, w2) := run_savepoint_ops obliging [OpRollbackTo; OpRelease; OpRelease] (sv, w1) in
  exists pre r, sent (savepoint_destroy obliging s w2) = sent w1 ++ pre ++ [(7, savepoint_sql (B "RELEASE SAVEPOINT ") (B "sp"), r)] /\
    Forall (keeps 7 (B "sp")) pre.
Proof.
  destruct (savepoint_released_once obliging active_tx (B "sp") fresh_world _ _ [OpRollbackTo; OpRelease; OpRelease] eq_refl)
    as (c & [= <-] & H).
  eexists _, _. split; [reflexivity|exact H].
Defined.

Lemma savepoint_name_contained_witness :
  exists q ok, sent (snd (savepoint obliging active_tx (B "sp_1") fresh_world)) = [(7, B "SAVEPOINT " ++ q, ok)] /\
    read_delimited quote q = Some (B "sp_1", []).
Proof.
  pose proof (savepoint_name_contained obliging active_tx 7 (B "sp_1") fresh_world eq_refl eq_refl) as (_ & q & ok & Hs & Hr & _).
  by exists q, ok.
Defined.

(** Assigning over a live transaction gives its connection back to the pool with the
    server transaction still open, where the destructor would have rolled it back. *)
Example assigned_over_active :
  let src := {| tx_holder := None; tx_conn := None; tx_options := read_only_opts; tx_status := FAILED |} in
  let '(_, _, w1) := move_assign active_tx src fresh_world in
  (sent w1, released w1) = ([], [7]) /\
  sent (destroy obliging active_tx fresh_world) = [(7, B "ROLLBACK", true)].
Proof. vm_compute. done. Qed.
