(* ===== verification/Executor.v ===== *)
(** * The query executors

    [SyncExecutor] and [AsyncExecutor] (capabilities/executors): sending a statement with its
    parameters through libpq, waiting, collecting the result, and the ownership of the
    borrowed connection across moves. libpq and the socket are a class of operations on a
    connection's state, in which a wait for the socket may never come back; the loops of the
    asynchronous path take fuel. The laws are libpq's documented protocol on a connection
    that stays up: a wait ends only when there is something to wait for. They show how much
    fuel is enough. *)

From S2P Require Import Prelude SqlText SqlSchema SqlQuery PgWire Errors ConnectionPool Transaction.

#[local] Open Scope Z_scope.

(** ** libpq *)

(** The connections' states [C] and the results [R]. No parameters: the simple protocol
    ([PQexec], [PQsendQuery]); otherwise [PQexecParams] and [PQsendQueryParams] with binary results. *)
Class Libpq (C R : Type) := {
  pq_conn : C -> PGconn;
  pq_socket : C -> Z;
  pq_setnonblocking : C -> C * bool;
  pq_exec : C -> bytes -> option Params -> C * option R;
  pq_send : C -> bytes -> option Params -> C * bool;
  pq_flush : C -> C * Z;
  pq_consume_input : C -> C * bool;
  pq_is_busy : C -> bool;
  pq_get_result : C -> C * option R;
  async_wait : bool -> C -> option (C * option bytes);  (* writable or readable; [None]: never ready; the error's message *)
  pq_result : R -> Errors.PGresult
}.

Definition with_text (e : ErrorCode) (m d : bytes) : ErrorContext :=
  {| code := e; sqlstate := []; message := m; detail := d; hint := []; context := []; position := None |}.

Section executors.
Context {C R : Type} `{PQ : Libpq C R}.

(** [process_result]: the result block owns the result. *)
Definition process_result (r : R) : result ErrorContext R :=
  match extract_error (Some (pq_result r)) with Some e => Err e | None => Ok r end.

(** [params && !params->values.empty()] *)
Definition bound (params : option Params) : option Params :=
  match params with Some p => if bool_decide (values p = []) then None else Some p | None => None end.

Definition connection_error (c : C) : ErrorContext := extract_connection_error (Some (pq_conn c)).

(** ** [SyncExecutor::execute_impl] *)
Definition sync_execute_impl (conn : option C) (query : bytes) (params : option Params) : option C * result ErrorContext R :=
  let ec := check_connection (pq_conn <$> conn) in
  if negb (is_success ec) then (conn, Err (error_context ec)) else
  match conn with
  | None => (None, Err (error_context ec))
  | Some c =>
      let '(c, res) := pq_exec c query (bound params) in
      (Some c, match res with None => Err (connection_error c) | Some r => process_result r end)
  end.

(** ** [AsyncExecutor] *)

(** [ae_socket]: the descriptor object and whether it is open. *)
Record AsyncExecutor := { ae_conn : option nat; ae_socket : option bool; ae_fd : Z; ae_holder : option nat }.

Definition async_valid (e : AsyncExecutor) : bool :=
  match ae_conn e, ae_socket e with Some _, Some _ => true | _, _ => false end.

(** The text of the [std::runtime_error], or the descriptor. *)
Definition setup_connection (c : C) : C * result bytes Z :=
  if negb (is_success (check_connection (Some (pq_conn c)))) then
    (c, Err (B "AsyncExecutor: " ++ default [] (format (connection_error c))))
  else
    let '(c, ok) := pq_setnonblocking c in
    (c, if negb ok then Err (B "AsyncExecutor: failed to set non-blocking mode - " ++ default [] (conn_error (pq_conn c)))
        else if pq_socket c <? 0 then Err (B "AsyncExecutor: invalid socket descriptor")
        else Ok (pq_socket c)).

Definition socket_open (e : AsyncExecutor) : bool := bool_decide (ae_socket e = Some true).

Definition validate_state (e : AsyncExecutor) (conn : option C) : option ErrorContext :=
  if negb (is_success (check_connection (pq_conn <$> conn))) then
    Some match conn with
         | Some c => connection_error c
         | None => with_text (client ClientErrorCode.NotConnected) (B "Connection is null") []
         end
  else if negb (socket_open e) then
    Some (with_text (client ClientErrorCode.NotConnected) (B "Socket descriptor not available") [])
  else match conn with
       | Some c =>
           if pq_socket c =? ae_fd e then None
           else Some (with_text (client ClientErrorCode.InvalidState) (B "Connection was reset (socket fd changed)")
                  (B "Expected fd " ++ to_decimal_Z (ae_fd e) ++ B ", got " ++ to_decimal_Z (pq_socket c)))
       | None => None
       end.

(** [None] in the loops: out of fuel, or suspended for good. *)
Fixpoint async_flush (fuel : nat) (c : C) : option (C * option ErrorContext) :=
  match fuel with
  | O => None
  | S fuel =>
      let '(c, r) := pq_flush c in
      if r =? 0 then Some (c, None)
      else if r <? 0 then Some (c, Some (connection_error c))
      else
        match async_wait true c with
        | None => None
        | Some (c, Some m) => Some (c, Some (with_text (server ServerErrorCode.RuntimeError) (B "Socket write wait failed") m))
        | Some (c, None) => async_flush fuel c
        end
  end.

Fixpoint async_consume_until_ready (fuel : nat) (c : C) : option (C * option ErrorContext) :=
  match fuel with
  | O => None
  | S fuel =>
      match async_wait false c with
      | None => None
      | Some (c, Some m) => Some (c, Some (with_text (server ServerErrorCode.RuntimeError) (B "Socket read wait failed") m))
      | Some (c, None) =>
          let '(c, ok) := pq_consume_input c in
          if negb ok then Some (c, Some (connection_error c))
          else if negb (pq_is_busy c) then Some (c, None)
          else async_consume_until_ready fuel c
      end
  end.

(** The results after the first are fetched and cleared. *)
Fixpoint drain_results (fuel : nat) (c : C) : option C :=
  match fuel with
  | O => None
  | S fuel => let '(c, extra) := pq_get_result c in match extra with Some _ => drain_results fuel c | None => Some c end
  end.

Definition collect_single_result (fuel : nat) (c : C) : option (C * result ErrorContext R) :=
  let '(c, r) := pq_get_result c in
  match r with
  | None => Some (c, Err (with_text (client ClientErrorCode.InvalidArgument) (B "No result returned from query") []))
  | Some r => c ← drain_results fuel c; Some (c, process_result r)
  end.

Definition async_run (fuel : nat) (c : C) (query : bytes) (params : option Params) : option (C * result ErrorContext R) :=
  let '(c, send_ok) := pq_send c query (bound params) in
  if negb send_ok then Some (c, Err (connection_error c)) else
  flushed ← async_flush fuel c;
  match flushed with
  | (c, Some e) => Some (c, Err e)
  | (c, None) =>
      ready ← async_consume_until_ready fuel c;
      match ready with
      | (c, Some e) => Some (c, Err e)
      | (c, None) => collect_single_result fuel c
      end
  end.

Definition async_execute_impl (fuel : nat) (e : AsyncExecutor) (conn : option C) (query : bytes) (params : option Params)
  : option (option C * result ErrorContext R) :=
  match validate_state e conn, conn with
  | Some err, _ => Some (conn, Err err)
  | None, None => None
  | None, Some c => r ← async_run fuel c query params; Some (Some r.1, r.2)
  end.

(** ** The overloads *)
Record CompiledDynamicQuery := { cq_sql : bytes; cq_packet : option Params; cq_provider : Providers }.

Definition sync_execute_dynamic (conn : option C) (q : CompiledDynamicQuery) : option C * result ErrorContext R :=
  match cq_provider q with
  | PostgreSQL => sync_execute_impl conn (c_string (cq_sql q)) (cq_packet q)
  | NoProvider =>
      (conn, Err {| code := client ClientErrorCode.SyntaxError; sqlstate := []; message := []; detail := []; hint := [];
                    context := B "Wrong provider. Query was compiled not by PostgreSQL"; position := None |})
  end.

Definition async_execute_dynamic (fuel : nat) (e : AsyncExecutor) (conn : option C) (q : CompiledDynamicQuery)
  : option (option C * result ErrorContext R) :=
  match cq_provider q with
  | PostgreSQL => async_execute_impl fuel e conn (c_string (cq_sql q)) (cq_packet q)
  | NoProvider =>
      Some (conn, Err (with_text (client ClientErrorCode.SyntaxError) (B "Query compiled for different provider")
                         (B "Expected PostgreSQL, got different backend")))
  end.

Section variadic.
Context (native : endian) (empty_data_null : bool).

(** [(sink.push(FieldValue{args}), ...); sink.native_packet()] *)
Definition pack (args : list FieldValue) : Params := fold_left (fun p v => (push native empty_data_null p v).1) args empty_params.

Definition sync_execute_args (conn : option C) (query : bytes) (args : list FieldValue) : option C * result ErrorContext R :=
  sync_execute_impl conn (c_string query) (Some (pack args)).

Definition async_execute_args (fuel : nat) (e : AsyncExecutor) (conn : option C) (query : bytes) (args : list FieldValue)
  : option (option C * result ErrorContext R) :=
  async_execute_impl fuel e conn (c_string query) (Some (pack args)).
End variadic.

End executors.

(** ** The protocol *)

(** libpq on a connection that stays up. [answers]: the results the server sends for a statement
    string, at least one; [pending]: those not yet fetched. [unsent]: how many times the server
    still has to make room for what is queued; [unread]: how many arrivals of the answer are
    still to be read. [reading]: the server goes on taking what is sent, without the client
    reading in between. Only then does the socket become writable while something is queued;
    and it becomes readable only while some of the answer is to come. No law ends any other
    wait. The server answers a statement when it has all of it, so sending reads nothing of the answer. *)
Class LibpqLaws (C R : Type) `{Libpq C R} := {
  healthy : C -> Prop;
  answers : C -> bytes -> option Params -> list R;
  pending : C -> list R;
  unsent : C -> nat;
  unread : C -> nat;
  reading : C -> Prop;
  healthy_ok c : healthy c -> conn_status (pq_conn c) = CONNECTION_OK;
  answers_some c q p : healthy c -> answers c q p <> [];
  exec_last c q p : healthy c -> pending c = [] ->
    exists c', pq_exec c q p = (c', last (answers c q p)) /\ healthy c' /\ pending c' = [] /\ pq_socket c' = pq_socket c;
  send_queues c q p : healthy c -> pending c = [] ->
    exists c', pq_send c q p = (c', true) /\ healthy c' /\ pending c' = answers c q p /\ pq_socket c' = pq_socket c /\
      (0 < unread c')%nat;
  flush_sends c : healthy c ->
    exists c' r, pq_flush c = (c', r) /\ healthy c' /\ pending c' = pending c /\ pq_socket c' = pq_socket c /\
      unread c' = unread c /\ (reading c -> reading c') /\ (r = 0 \/ r = 1 /\ (0 < unsent c' <= unsent c)%nat);
  wait_writable c : healthy c -> reading c -> (0 < unsent c)%nat ->
    exists c', async_wait true c = Some (c', None) /\ healthy c' /\ pending c' = pending c /\ pq_socket c' = pq_socket c /\
      reading c' /\ (unsent c' < unsent c)%nat /\ unread c' = unread c;
  wait_readable c : healthy c -> (0 < unread c)%nat ->
    exists c', async_wait false c = Some (c', None) /\ healthy c' /\ pending c' = pending c /\ pq_socket c' = pq_socket c /\
      unread c' = unread c;
  consume_reads c : healthy c -> (0 < unread c)%nat ->
    exists c', pq_consume_input c = (c', true) /\ healthy c' /\ pending c' = pending c /\ pq_socket c' = pq_socket c /\
      (unread c' < unread c)%nat /\ (pq_is_busy c' = true -> 0 < unread c')%nat;
  get_result_next c : healthy c ->
    exists c', pq_get_result c = (c', head (pending c)) /\ healthy c' /\ pending c' = tail (pending c) /\ pq_socket c' = pq_socket c
}.

Section protocol.
Context {C R : Type} `{PQ : Libpq C R, !LibpqLaws C R}.












(** Whatever libpq does, neither executor returns a block made of a failed result. *)
Lemma process_result_clean (r r' : R) : process_result r = Ok r' -> r' = r /\ no_error (pq_result r).
Proof.
  unfold process_result. destruct (extract_error _) eqn:E; [done|]. intros [= <-]. split; [done|].
  apply extract_error_correct in E as (x & Ex & Hx). by simplify_eq.
Qed.

(** The wait for the drain never ends while libpq keeps answering. *)
Lemma drain_diverges c fuel : (forall c', exists c'' r, pq_get_result c' = (c'', Some r)) -> drain_results fuel c = None.
Proof. intros H. revert c. induction fuel as [|fuel IH]; intros c; [done|]. cbn. by destruct (H c) as (c' & r & ->). Qed.

End protocol.

(** ** Ownership of the borrowed connection *)

(** The holders' world, and the descriptors closed by destroyed [stream_descriptor]s: they belong to
    libpq. *)
Record EWorld := { ew_world : World; ew_closed : list Z }.

Definition on_world (f : World -> World) (w : EWorld) : EWorld := {| ew_world := f (ew_world w); ew_closed := ew_closed w |}.

(** [if (auto live = holder_.lock()) live->reset();] *)
Definition give_back (h : option nat) (w : World) : World := match lock h w with Some h => release_holder h w | None => w end.

(** *** [SyncExecutor] *)
Record SyncExecutor := { se_conn : option nat; se_holder : option nat }.

Definition sync_of_conn (conn : option nat) : SyncExecutor := {| se_conn := conn; se_holder := None |}.
Definition sync_of_holder (h : option nat) (w : World) : SyncExecutor := {| se_conn := lock h w; se_holder := h |}.
Definition sync_valid (e : SyncExecutor) : bool := match se_conn e with Some _ => true | None => false end.
Definition sync_emptied (e : SyncExecutor) : SyncExecutor := {| se_conn := None; se_holder := None |}.
Definition sync_move_construct (other : SyncExecutor) : SyncExecutor * SyncExecutor := (other, sync_emptied other).
Definition sync_move_assign (dst src : SyncExecutor) (w : EWorld) : SyncExecutor * SyncExecutor * EWorld :=
  (src, sync_emptied src, on_world (give_back (se_holder dst)) w).
Definition sync_destroy (e : SyncExecutor) (w : EWorld) : EWorld := on_world (give_back (se_holder e)) w.

(** *** [AsyncExecutor] *)

(** Destroying a descriptor object that is still open closes the descriptor. *)
Definition drop_socket (s : option bool) (fd : Z) (w : EWorld) : EWorld :=
  match s with Some true => {| ew_world := ew_world w; ew_closed := ew_closed w ++ [fd] |} | _ => w end.

Definition release_socket (e : AsyncExecutor) : AsyncExecutor :=
  match ae_socket e with
  | Some true => {| ae_conn := ae_conn e; ae_socket := Some false; ae_fd := ae_fd e; ae_holder := ae_holder e |}
  | _ => e
  end.

Definition async_emptied (e : AsyncExecutor) : AsyncExecutor := {| ae_conn := None; ae_socket := None; ae_fd := -1; ae_holder := None |}.
Definition async_move_construct (other : AsyncExecutor) : AsyncExecutor * AsyncExecutor := (other, async_emptied other).

Definition async_move_assign (dst src : AsyncExecutor) (w : EWorld) : AsyncExecutor * AsyncExecutor * EWorld :=
  let dst := release_socket dst in
  let w := on_world (give_back (ae_holder dst)) w in
  (src, async_emptied src, drop_socket (ae_socket dst) (ae_fd dst) w).

Definition async_destroy (e : AsyncExecutor) (w : EWorld) : EWorld :=
  let e := release_socket e in
  let w := on_world (give_back (ae_holder e)) w in
  drop_socket (ae_socket e) (ae_fd e) w.

Section construct.
Context {C R : Type} `{PQ : Libpq C R}.

(** Both constructors; a throw leaves no object, so no destructor runs for the holder. *)
Definition async_construct (conn holder : option nat) (heap : nat -> C) : result bytes AsyncExecutor * (nat -> C) :=
  match conn with
  | None => (Ok {| ae_conn := None; ae_socket := None; ae_fd := -1; ae_holder := holder |}, heap)
  | Some n =>
      let '(c, r) := setup_connection (heap n) in
      (match r with
       | Err m => Err m
       | Ok fd => Ok {| ae_conn := Some n; ae_socket := Some true; ae_fd := fd; ae_holder := holder |}
       end, fun k => if decide (k = n) then c else heap k)
  end.

Definition async_of_conn (conn : option nat) (heap : nat -> C) : result bytes AsyncExecutor * (nat -> C) := async_construct conn None heap.
Definition async_of_holder (h : option nat) (w : World) (heap : nat -> C) : result bytes AsyncExecutor * (nat -> C) :=
  async_construct (lock h w) h heap.
End construct.

(** *** What the two have in common *)
Class Handle (E : Type) := {
  h_holder : E -> option nat;
  h_move : E -> E * E;
  h_assign : E -> E -> EWorld -> E * E * EWorld;
  h_destroy : E -> EWorld -> EWorld
}.

(** A move leaves the source without a holder; assigning and destroying give back the target's,
    and close nothing. *)
Class HandleLaws (E : Type) `{Handle E} := {
  move_holder e : h_holder (h_move e).1 = h_holder e /\ h_holder (h_move e).2 = None;
  assign_holder d s w : let '(d', s', w') := h_assign d s w in
    h_holder d' = h_holder s /\ h_holder s' = None /\ w' = on_world (give_back (h_holder d)) w;
  destroy_holder e w : h_destroy e w = on_world (give_back (h_holder e)) w
}.

#[export] Instance sync_handle : Handle SyncExecutor :=
  {| h_holder := se_holder; h_move := sync_move_construct; h_assign := sync_move_assign; h_destroy := sync_destroy |}.
#[export] Instance async_handle : Handle AsyncExecutor :=
  {| h_holder := ae_holder; h_move := async_move_construct; h_assign := async_move_assign; h_destroy := async_destroy |}.

#[export] Instance sync_handle_laws : HandleLaws SyncExecutor.
Proof. by split. Qed.

#[export] Instance async_handle_laws : HandleLaws AsyncExecutor.
Proof.
  split; [done| |].
  - intros [? [[]|] ? ?] s w; done.
  - intros [? [[]|] ? ?] w; done.
Qed.

(** *** Programs over executor variables *)
Section ownership.
Context {E : Type} `{HE : Handle E, !HandleLaws E}.

Inductive action :=
| Borrow (x : nat) (e : E)          (* a new variable, made from a holder the pool handed out *)
| MoveInto (x y : nat)              (* a new variable [x] moved from [y] *)
| Assign (x y : nat)                (* [x = std::move(y)] *)
| Destroy (x : nat).

(** The live variables, the world, and the holders borrowed so far. *)
Record program := { vars : gmap nat E; pw : EWorld; borrowed : list nat }.

Definition act (a : action) (p : program) : option program :=
  match a with
  | Borrow x e =>
      match vars p !! x with
      | Some _ => None
      | None => Some {| vars := <[x := e]> (vars p); pw := pw p; borrowed := borrowed p ++ option_list (h_holder e) |}
      end
  | MoveInto x y =>
      match vars p !! x, vars p !! y with
      | None, Some e => Some {| vars := <[x := (h_move e).1]> (<[y := (h_move e).2]> (vars p)); pw := pw p; borrowed := borrowed p |}
      | _, _ => None
      end
  | Assign x y =>
      match vars p !! x, vars p !! y with
      | Some d, Some s =>
          if decide (x = y) then Some p
          else let '(d, s, w) := h_assign d s (pw p) in Some {| vars := <[x := d]> (<[y := s]> (vars p)); pw := w; borrowed := borrowed p |}
      | _, _ => None
      end
  | Destroy x =>
      match vars p !! x with
      | Some e => Some {| vars := delete x (vars p); pw := h_destroy e (pw p); borrowed := borrowed p |}
      | None => None
      end
  end.

Fixpoint run (l : list action) (p : program) : option program :=
  match l with [] => Some p | a :: l => p ← act a p; run l p end.

(** The holders the variables have. *)
Definition held (m : gmap nat E) : list nat := omap h_holder (map_to_list m).*2.

Lemma held_insert m x e : held (<[x := e]> m) ≡ₚ option_list (h_holder e) ++ held (delete x m).
Proof.
  unfold held. rewrite <- insert_delete_eq, map_to_list_insert by apply lookup_delete_eq. cbn. by destruct (h_holder e).
Qed.

Lemma held_lookup m x e : m !! x = Some e -> held m ≡ₚ option_list (h_holder e) ++ held (delete x m).
Proof. intros Hx. rewrite <- (insert_id m x e Hx) at 1. apply held_insert. Qed.

Lemma held_fresh m x : m !! x = None -> held (delete x m) = held m.
Proof. intros Hx. by rewrite delete_id. Qed.

Definition start_world (live : list nat) : EWorld := {| ew_world := {| sent := []; released := []; alive := live |}; ew_closed := [] |}.
Definition start_program (live : list nat) : program := {| vars := ∅; pw := start_world live; borrowed := [] |}.

(** Borrowed from the pool, given back, or held by a variable. *)
Definition balanced (live : list nat) (p : program) : Prop :=
  alive (ew_world (pw p)) = live /\ ew_closed (pw p) = [] /\ released (ew_world (pw p)) ++ held (vars p) ≡ₚ borrowed p.

Lemma give_back_balanced live h w : alive w = live -> (forall k, h = Some k -> k ∈ live) ->
  alive (give_back h w) = live /\ released (give_back h w) = released w ++ option_list h.
Proof.
  intros Ha Hl. unfold give_back, lock. destruct h as [k|]; cbn; [|by rewrite app_nil_r].
  rewrite bool_decide_true; [done|]. rewrite Ha. by apply Hl.
Qed.

Lemma held_elem m x e k : m !! x = Some e -> h_holder e = Some k -> k ∈ held m.
Proof. intros Hx Hk. rewrite (held_lookup _ _ _ Hx), Hk. set_solver. Qed.

Lemma live_held live p x (e : E) k :
  balanced live p -> (forall k, k ∈ borrowed p -> k ∈ live) -> vars p !! x = Some e -> h_holder e = Some k -> k ∈ live.
Proof. intros (_ & _ & Hb) Hl Hx Hk. apply Hl. rewrite <- Hb. apply elem_of_app. right. by eapply held_elem. Qed.

(** Both variables of an assignment. *)
Lemma held_two m x y (d e : E) : x <> y -> m !! x = Some d -> m !! y = Some e ->
  held m ≡ₚ option_list (h_holder d) ++ option_list (h_holder e) ++ held (delete y (delete x m)).
Proof.
  intros Hxy Hx Hy. rewrite (held_lookup m x d Hx). by rewrite (held_lookup (delete x m) y e) by by rewrite lookup_delete_ne.
Qed.

Lemma held_assigned m x y (d e : E) : x <> y ->
  held (<[x := d]> (<[y := e]> m)) ≡ₚ option_list (h_holder d) ++ option_list (h_holder e) ++ held (delete y (delete x m)).
Proof. intros Hxy. by rewrite held_insert, delete_insert_ne, held_insert by done. Qed.

Lemma act_balanced live a p p' : balanced live p -> (forall k, k ∈ borrowed p -> k ∈ live) -> act a p = Some p' -> balanced live p'.
Proof.
  intros HB Hl Hact. destruct a as [x v|x y|x y|x]; cbn in Hact.
  - destruct (vars p !! x) eqn:Ex; simplify_eq/=. destruct HB as (Ha & Hc & Hb). split_and!; [done|done|]. cbn. rewrite held_insert, held_fresh by done.
    rewrite <- Hb. solve_Permutation.
  - destruct (vars p !! x) eqn:Ex, (vars p !! y) as [v|] eqn:Ey; simplify_eq/=. destruct HB as (Ha & Hc & Hb). split_and!; [done|done|]. cbn.
    destruct (move_holder v) as [E1 E2]. rewrite held_insert, held_fresh by (rewrite lookup_insert_ne; [done|congruence]).
    rewrite held_insert, E1, E2. cbn. by rewrite <- held_lookup.
  - destruct (vars p !! x) as [d|] eqn:Ex, (vars p !! y) as [v|] eqn:Ey; simplify_eq/=. case_decide as Hxy; simplify_eq; [done|].
    pose proof (assign_holder d v (pw p)) as Has. destruct (h_assign d v (pw p)) as [[d' s'] w']. destruct Has as (E1 & E2 & ->).
    simplify_eq. pose proof HB as (Ha & Hc & Hb). destruct (give_back_balanced live (h_holder d) (ew_world (pw p)) Ha (fun k => live_held live p x d k HB Hl Ex)) as [Ha' Hr'].
    split_and!; [done|done|]. cbn. rewrite Hr', held_assigned, E1, E2 by done. rewrite (held_two _ x y d v) in Hb by done.
    rewrite <- Hb. cbn. solve_Permutation.
  - destruct (vars p !! x) as [v|] eqn:Ex; simplify_eq/=. pose proof HB as (Ha & Hc & Hb).
    destruct (give_back_balanced live (h_holder v) (ew_world (pw p)) Ha (fun k => live_held live p x v k HB Hl Ex)) as [Ha' Hr'].
    unfold balanced. cbn. rewrite destroy_holder. cbn. split_and!; [done|done|]. rewrite Hr'. rewrite (held_lookup _ x v Ex) in Hb.
    rewrite <- Hb. solve_Permutation.
Qed.

Lemma act_borrowed a p p' : act a p = Some p' -> exists l, borrowed p' = borrowed p ++ l.
Proof.
  destruct a; cbn; repeat case_match; intros; simplify_eq; cbn; try (exists []; by rewrite app_nil_r). by eexists.
Qed.

Lemma run_borrowed l p p' : run l p = Some p' -> exists bs, borrowed p' = borrowed p ++ bs.
Proof.
  revert p. induction l as [|a l IH]; intros p; cbn; [intros; simplify_eq; exists []; by rewrite app_nil_r|].
  destruct (act a p) as [p1|] eqn:Ea; [|done]. cbn. intros (bs & Hbs)%IH. destruct (act_borrowed a p p1 Ea) as (l1 & Hl1).
  exists (l1 ++ bs). by rewrite Hbs, Hl1, app_assoc.
Qed.

(** C25. A borrowed connection goes back to the pool exactly once, however the executor is moved
    about: over any sequence of borrowing, move construction, move assignment and destruction, what was
    borrowed is what has been reset and what the variables still hold, and no descriptor
    that belongs to libpq is closed. *)
Theorem executors_give_back l live p :
  run l (start_program live) = Some p -> (forall k, k ∈ borrowed p -> k ∈ live) ->
  released (ew_world (pw p)) ++ held (vars p) ≡ₚ borrowed p /\ ew_closed (pw p) = [] /\
  (vars p = ∅ -> released (ew_world (pw p)) ≡ₚ borrowed p).
Proof.
  intros Hr Hl. assert (balanced live p) as (_ & Hc & Hb).
  { assert (balanced live (start_program live)) as HB by done. revert HB Hr. generalize (start_program live).
    induction l as [|a l IH]; intros q HB; cbn; [by intros [= <-]|]. destruct (act a q) as [q1|] eqn:Ea; [|done]. cbn. intros Hr.
    eapply (IH q1); [|done]. eapply act_balanced; [done| |done]. intros k Hk. apply Hl. destruct (run_borrowed (a :: l) q p) as (bs & ->).
    - cbn. by rewrite Ea.
    - set_solver. }
  split_and!; [done|done|]. intros Hv. rewrite Hv in Hb. by rewrite app_nil_r in Hb.
Qed.

End ownership.

(** A connection that is not up makes the constructor throw. *)
Lemma async_construct_throws {C R : Type} `{PQ : Libpq C R} n w (heap : nat -> C) :
  n ∈ alive w -> conn_status (pq_conn (heap n)) <> CONNECTION_OK -> exists m, (async_of_holder (Some n) w heap).1 = Err m.
Proof.
  intros Hn Hs. unfold async_of_holder, async_construct, lock. cbn. rewrite bool_decide_true by done. unfold setup_connection.
  destruct (is_success _) eqn:E; [|by eexists]. exfalso. apply (connection_error_correct (Some (pq_conn (heap n)))) in E as (c & ? & ?).
  by simplify_eq.
Qed.

(** Executing a compiled query is executing its text with the expression's values as arguments. *)
Lemma compiled_as_variadic {C R : Type} `{PQ : Libpq C R} `{FloatText} native empty_data_null e (conn : option C) :
  exists sql p, compile_dynamic (H0 := pg_param_sink native empty_data_null) Sink empty_params e = Ok (sql, p) /\
    sync_execute_dynamic conn {| cq_sql := sql; cq_packet := Some p; cq_provider := PostgreSQL |}
      = sync_execute_args native empty_data_null conn sql (values_of (template e)) /\
    forall fuel x, async_execute_dynamic fuel x conn {| cq_sql := sql; cq_packet := Some p; cq_provider := PostgreSQL |}
      = async_execute_args native empty_data_null fuel x conn sql (values_of (template e)).
Proof.
  unfold compile_dynamic. pose proof (visit_std (H := pg_param_sink native empty_data_null) Sink e empty_params) as Hv.
  rewrite (render_sink (H := pg_param_sink native empty_data_null)) in Hv. rewrite Hv. cbn [mbind result_bind sql sink].
  eexists _, _. by split_and!.
Qed.

(** ** A libpq to run *)
Module Wire.

(** [w_stuck]: the server is itself blocked on sending and reads no more. *)
Record conn := { w_pending : list Errors.PGresult; w_unsent : nat; w_unread : nat; w_stuck : bool; w_status : ConnStatusType }.

Definition outcome (s : ExecStatusType) (state : option bytes) : Errors.PGresult :=
  {| status := s; diag_sqlstate := state; error_message := None; diag_detail := None; diag_hint := None; diag_context := None; diag_position := None |}.

(** A server that knows one script of two statements; any other is one statement. *)
Definition script (q : bytes) : list Errors.PGresult :=
  if bool_decide (q = B "SELECT 1; SELECT 1/0") then [outcome PGRES_TUPLES_OK None; outcome PGRES_FATAL_ERROR (Some (B "22012"))]
  else [outcome PGRES_TUPLES_OK None].

Definition wire (rs : list Errors.PGresult) (unsent unread : nat) (c : conn) : conn :=
  {| w_pending := rs; w_unsent := unsent; w_unread := unread; w_stuck := w_stuck c; w_status := w_status c |}.

(** A statement leaves in three parts and its answer comes in three; the socket is writable
    when a part was taken or nothing is queued, readable when a part is there. *)
#[global] Instance libpq : Libpq conn Errors.PGresult := {
  pq_conn c := {| conn_status := w_status c; conn_error := None |};
  pq_socket _ := 5;
  pq_setnonblocking c := (c, true);
  pq_exec c q _ := (wire [] 0 0 c, last (script q));
  pq_send c q _ := (wire (script q) 2 3 c, true);
  pq_flush c := (c, if bool_decide (w_unsent c = 0%nat) then 0 else 1);
  pq_consume_input c := (wire (w_pending c) (w_unsent c) (pred (w_unread c)) c, true);
  pq_is_busy c := negb (bool_decide (w_unread c = 0%nat));
  pq_get_result c := (wire (tail (w_pending c)) (w_unsent c) (w_unread c) c, head (w_pending c));
  async_wait writing c :=
    if writing then if w_stuck c then None else Some (wire (w_pending c) (pred (w_unsent c)) (w_unread c) c, None)
    else if bool_decide (w_unread c = 0%nat) then None else Some (c, None);
  pq_result r := r
}.

#[global] Instance libpq_laws : LibpqLaws conn Errors.PGresult.
Proof.
  refine {| healthy c := w_status c = CONNECTION_OK; answers _ q _ := script q; pending := w_pending; unsent := w_unsent;
            unread := w_unread; reading c := w_stuck c = false |}.
  - done.
  - intros c q p _. unfold script. by case_match.
  - intros c q p Hc _. by eexists.
  - intros c q p Hc _. eexists. split_and!; try done. cbn. lia.
  - intros c Hc. eexists _, _. split_and!; try done. case_bool_decide; [by left|right; lia].
  - intros c Hc Hg Hu. cbn. rewrite Hg. eexists. split_and!; try done. cbn. lia.
  - intros c Hc Hu. cbn. rewrite bool_decide_false by lia. by eexists.
  - intros c Hc Hu. eexists. split_and!; try done; cbn; [lia|]. case_bool_decide; [done|lia].
  - intros c Hc. by eexists.
Defined.

Definition idle (stuck : bool) (st : ConnStatusType) : conn :=
  {| w_pending := []; w_unsent := 0; w_unread := 0; w_stuck := stuck; w_status := st |}.
Definition executor : AsyncExecutor := {| ae_conn := Some 7%nat; ae_socket := Some true; ae_fd := 5; ae_holder := Some 7%nat |}.
End Wire.


(** A server that is blocked on sending until the client reads stalls the asynchronous executor
    for good: it waits for the socket to become writable only. Reading, it would go on. *)
Example write_wait_stalls :
  (forall fuel, async_execute_impl (R := Errors.PGresult) fuel Wire.executor (Some (Wire.idle true CONNECTION_OK)) (B "SELECT 1") None = None) /\
  is_Some (async_wait (R := Errors.PGresult) false (Wire.wire [] 2 3 (Wire.idle true CONNECTION_OK))).
Proof. split; [by intros [|fuel]|done]. Qed.

(** The asynchronous executor drops the error of a later statement. *)
Example async_swallows_error :
  (snd <$> async_execute_impl 5 Wire.executor (Some (Wire.idle false CONNECTION_OK)) (B "SELECT 1; SELECT 1/0") None)
    = Some (Ok (Wire.outcome PGRES_TUPLES_OK None)) /\
  exists e, (sync_execute_impl (R := Errors.PGresult) (Some (Wire.idle false CONNECTION_OK)) (B "SELECT 1; SELECT 1/0") None).2 = Err e.
Proof. split; [by vm_compute|]. eexists. by vm_compute. Qed.

(** One borrowed connection, moved twice and assigned over another. *)
Definition moves : list (action (E := AsyncExecutor)) :=
  [Borrow 0 Wire.executor; MoveInto 1 0; Borrow 2 {| ae_conn := Some 8%nat; ae_socket := Some true; ae_fd := 6; ae_holder := Some 8%nat |};
   Assign 2 1; Destroy 0; Destroy 1; Destroy 2].

Lemma executors_give_back_witness :
  exists p, run moves (start_program [7; 8]%nat) = Some p /\ released (ew_world (pw p)) ≡ₚ [7; 8]%nat.
Proof.
  destruct (run moves (start_program [7; 8]%nat)) as [p|] eqn:E; [|vm_compute in E; discriminate]. exists p. split; [reflexivity|].
  destruct (executors_give_back moves [7; 8]%nat p E) as (_ & _ & H).
  - intros k Hk. vm_compute in E. injection E as <-. exact Hk.
  - rewrite H; [|vm_compute in E; injection E as <-; reflexivity]. vm_compute in E. injection E as <-. reflexivity.
Defined.
