(* ===== verification/Disruptor.v ===== *)
(** * The disruptor: a bounded ring between producers and one consumer

    [Sequence], [RingBuffer], [MultiProducerSequencer], [SingleProducerSequencer] and
    [Disruptor]. Every atomic load, store and read-modify-write of a thread is one
    step, and so is every access to a payload slot; the system interleaves the steps
    of any number of producers with those of the consumer. Sequence numbers are
    64-bit and slot generations 32-bit, both with their wrap-around. A thread that
    spins, yields or blocks until a condition holds takes its next step when it does,
    which is what each wait strategy does.

    The invariant is the claim/publish/consume protocol: a position belongs to the
    producer that claimed it until it is published, and a slot is reused only after
    its occupant was consumed. *)

From S2P Require Import Prelude.

Local Open Scope Z_scope.

(** ** Machine integers *)
Definition wrap_int64 (z : Z) : Z := (z + 2 ^ 63) mod 2 ^ 64 - 2 ^ 63.
Definition wrap_int32 (z : Z) : Z := (z + 2 ^ 31) mod 2 ^ 32 - 2 ^ 31.
Definition to_size (z : Z) : Z := z mod 2 ^ 64.

Fixpoint pos_ctz (p : positive) : Z := match p with xO p => 1 + pos_ctz p | _ => 0 end.

(** [std::countr_zero] on 64 bits. *)
Definition countr_zero (z : Z) : Z := match z with Zpos p => pos_ctz p | _ => 64 end.

(** ** [RingBuffer]

    A slot holds a value, or what is left of it: moved-from storage, or none between
    [destroy_at] and [construct_at]. *)
Inductive Slot (T : Type) := Holds (v : T) | MovedFrom | Destroyed.
Arguments Holds {T} v.
Arguments MovedFrom {T}.
Arguments Destroyed {T}.

(** [static_cast<std::size_t>(sequence) & (size - 1)]. *)
Definition slot_index (size sequence : Z) : nat := Z.to_nat (Z.land (to_size sequence) (size - 1)).

(** ** [MultiProducerSequencer] *)
Record MultiProducer := {
  claimed_sequence : Z;
  consumed_sequence : Z;
  capacity : Z;
  generation_shift : Z;
  slot_generations : list Z
}.

Definition multi_producer (buffer_size : Z) : MultiProducer :=
  {| claimed_sequence := -1; consumed_sequence := -1; capacity := buffer_size; generation_shift := countr_zero buffer_size;
     slot_generations := replicate (Z.to_nat buffer_size) (-1) |}.

Definition generation_of (q : MultiProducer) (sequence : Z) : Z := wrap_int32 (Z.shiftr sequence (generation_shift q)).

Definition is_available (q : MultiProducer) (sequence : Z) : bool :=
  bool_decide (slot_generations q !! slot_index (capacity q) sequence = Some (generation_of q sequence)).

Definition publish_slot (q : MultiProducer) (sequence : Z) : MultiProducer :=
  {| claimed_sequence := claimed_sequence q; consumed_sequence := consumed_sequence q; capacity := capacity q;
     generation_shift := generation_shift q;
     slot_generations := <[slot_index (capacity q) sequence := generation_of q sequence]> (slot_generations q) |}.

(** [add_and_get]: the new value, and the sequencer holding it. *)
Definition set_claimed (q : MultiProducer) (z : Z) : MultiProducer :=
  {| claimed_sequence := z; consumed_sequence := consumed_sequence q; capacity := capacity q;
     generation_shift := generation_shift q; slot_generations := slot_generations q |}.

Definition add_and_get (q : MultiProducer) (count : Z) : Z * MultiProducer :=
  let z := wrap_int64 (claimed_sequence q + count) in (z, set_claimed q z).

Definition consume (q : MultiProducer) (sequence : Z) : MultiProducer :=
  {| claimed_sequence := claimed_sequence q; consumed_sequence := sequence; capacity := capacity q;
     generation_shift := generation_shift q; slot_generations := slot_generations q |}.

(** The exit test of [wait_for_capacity]; [try_next] makes it once. *)
Definition has_capacity (q : MultiProducer) (sequence : Z) : bool := sequence - capacity q <=? consumed_sequence q.

Fixpoint scan_loop (q : MultiProducer) (fuel : nat) (seq limit : Z) : Z :=
  match fuel with
  | O => limit
  | S fuel =>
      if seq <=? limit then if is_available q seq then scan_loop q fuel (seq + 1) limit else seq - 1 else limit
  end.

(** Run without interference; the loop makes at most one round per position. *)
Definition scan_published (q : MultiProducer) (lower_bound claimed : Z) : Z :=
  scan_loop q (Z.to_nat (claimed - lower_bound + 1)) lower_bound claimed.

Definition get_published_sequence (q : MultiProducer) (lower_bound : Z) : Z :=
  scan_published q lower_bound (claimed_sequence q).

Definition remaining_capacity (q : MultiProducer) : Z := capacity q - (claimed_sequence q - consumed_sequence q).
Definition approx_size (q : MultiProducer) : Z := claimed_sequence q - consumed_sequence q.

(** ** Threads

    A producer stages [vs], one value for [emplace] and several for a claimed batch,
    into the positions from [first]. [PFill], [PConstruct] and [PPublish] carry how
    many positions are done. *)
Inductive Producer (T : Type) :=
| PTryCapacity (v : T) (current : Z)      (* [try_next], the cursor read *)
| PTryClaim (v : T) (current : Z)         (* capacity seen, CAS next *)
| PWait (first : Z) (vs : list T)         (* claimed, waiting for capacity *)
| PFill (first : Z) (vs : list T) (i : nat)      (* next: [destroy_at] *)
| PConstruct (first : Z) (vs : list T) (i : nat) (* next: [construct_at] *)
| PPublish (first : Z) (vs : list T) (i : nat).  (* next: the release store *)
Arguments PTryCapacity {T} v current.
Arguments PTryClaim {T} v current.
Arguments PWait {T} first vs.
Arguments PFill {T} first vs i.
Arguments PConstruct {T} first vs i.
Arguments PPublish {T} first vs i.

Inductive Consumer (T : Type) :=
| CIdle
| CWait (sequence : Z)                   (* in the wait strategy *)
| CScan (sequence pos limit : Z)         (* in [scan_published] *)
| CTake (sequence : Z)                   (* next: move the payload out *)
| CRelease (sequence : Z) (x : Slot T).  (* next: [consume] *)
Arguments CIdle {T}.
Arguments CWait {T} sequence.
Arguments CScan {T} sequence pos limit.
Arguments CTake {T} sequence.
Arguments CRelease {T} sequence x.

(** [claims] records the values in the order their positions were claimed and
    [pulled] what the consumer got; the program keeps neither. *)
Record State (T : Type) := {
  sequencer : MultiProducer;
  ring : list (Slot T);
  producers : gmap nat (Producer T);
  consumer : Consumer T;
  cached_published : Z;
  claims : list T;
  pulled : list (Slot T)
}.
Arguments sequencer {T} _.
Arguments ring {T} _.
Arguments producers {T} _.
Arguments consumer {T} _.
Arguments cached_published {T} _.
Arguments claims {T} _.
Arguments pulled {T} _.

Section system.
Context {T : Type} (initial_value : T).

Definition initial (buffer_size : Z) : State T :=
  {| sequencer := multi_producer buffer_size; ring := replicate (Z.to_nat buffer_size) (Holds initial_value); producers := ∅;
     consumer := CIdle; cached_published := -1; claims := []; pulled := [] |}.

Definition set_producer (s : State T) (p : nat) (pc : option (Producer T)) : State T :=
  {| sequencer := sequencer s; ring := ring s; producers := partial_alter (fun _ => pc) p (producers s); consumer := consumer s;
     cached_published := cached_published s; claims := claims s; pulled := pulled s |}.
Definition set_sequencer (s : State T) (q : MultiProducer) : State T :=
  {| sequencer := q; ring := ring s; producers := producers s; consumer := consumer s;
     cached_published := cached_published s; claims := claims s; pulled := pulled s |}.
Definition set_ring (s : State T) (r : list (Slot T)) : State T :=
  {| sequencer := sequencer s; ring := r; producers := producers s; consumer := consumer s;
     cached_published := cached_published s; claims := claims s; pulled := pulled s |}.
Definition set_consumer (s : State T) (c : Consumer T) : State T :=
  {| sequencer := sequencer s; ring := ring s; producers := producers s; consumer := c;
     cached_published := cached_published s; claims := claims s; pulled := pulled s |}.
Definition add_claims (s : State T) (vs : list T) : State T :=
  {| sequencer := sequencer s; ring := ring s; producers := producers s; consumer := consumer s;
     cached_published := cached_published s; claims := claims s ++ vs; pulled := pulled s |}.

Definition slot_of (s : State T) (sequence : Z) : nat := slot_index (capacity (sequencer s)) sequence.

(** [next] and [next_batch] up to the capacity wait: the fetch-add. *)
Definition claim (s : State T) (p : nat) (vs : list T) : State T :=
  let n := Z.of_nat (length vs) in
  let '(last, q) := add_and_get (sequencer s) n in
  set_producer (set_sequencer (add_claims s vs) q) p (Some (PWait (last - n + 1) vs)).

(** The compare-and-set of [try_next] when it succeeds. *)
Definition try_claim (s : State T) (p : nat) (v : T) (current : Z) : State T :=
  set_producer (set_sequencer (add_claims s [v]) (set_claimed (sequencer s) (current + 1))) p (Some (PFill (current + 1) [v] 0)).

Definition destroy_at (s : State T) (p : nat) (first : Z) (vs : list T) (i : nat) : State T :=
  set_producer (set_ring s (<[slot_of s (first + Z.of_nat i) := Destroyed]> (ring s))) p (Some (PConstruct first vs i)).

Definition construct_at (s : State T) (p : nat) (first : Z) (vs : list T) (i : nat) (v : T) : State T :=
  set_producer (set_ring s (<[slot_of s (first + Z.of_nat i) := Holds v]> (ring s))) p
    (Some (if (S i =? length vs)%nat then PPublish first vs 0 else PFill first vs (S i))).

(** One store of [publish] or of the loop of [publish_batch]. *)
Definition publish (s : State T) (p : nat) (first : Z) (vs : list T) (i : nat) : State T :=
  set_producer (set_sequencer s (publish_slot (sequencer s) (first + Z.of_nat i))) p
    (if (S i =? length vs)%nat then None else Some (PPublish first vs (S i))).

(** The start of [pull]. *)
Definition pull (s : State T) : State T :=
  let sequence := consumed_sequence (sequencer s) + 1 in
  set_consumer s (if cached_published s <? sequence then CWait sequence else CTake sequence).

(** [scan_published] returned [published]: try again, or remember it and take. *)
Definition scanned (s : State T) (sequence published : Z) : State T :=
  if published <? sequence then set_consumer s (CWait sequence)
  else {| sequencer := sequencer s; ring := ring s; producers := producers s; consumer := CTake sequence;
          cached_published := published; claims := claims s; pulled := pulled s |}.

Definition take_out (s : State T) (sequence : Z) (x : Slot T) : State T :=
  set_consumer (set_ring s (<[slot_of s sequence := MovedFrom]> (ring s))) (CRelease sequence x).

Definition release (s : State T) (sequence : Z) (x : Slot T) : State T :=
  {| sequencer := consume (sequencer s) sequence; ring := ring s; producers := producers s; consumer := CIdle;
     cached_published := cached_published s; claims := claims s; pulled := pulled s ++ [x] |}.

Inductive step (s : State T) : State T -> Prop :=
| S_claim p vs : producers s !! p = None -> vs <> [] -> step s (claim s p vs)
| S_capacity p first vs :
    producers s !! p = Some (PWait first vs) ->
    has_capacity (sequencer s) (first + Z.of_nat (length vs) - 1) = true -> step s (set_producer s p (Some (PFill first vs 0)))
| S_destroy p first vs i : producers s !! p = Some (PFill first vs i) -> step s (destroy_at s p first vs i)
| S_construct p first vs i v :
    producers s !! p = Some (PConstruct first vs i) -> vs !! i = Some v -> step s (construct_at s p first vs i v)
| S_publish p first vs i : producers s !! p = Some (PPublish first vs i) -> step s (publish s p first vs i)
| S_try_read p v :
    producers s !! p = None -> step s (set_producer s p (Some (PTryCapacity v (claimed_sequence (sequencer s)))))
| S_try_full p v current :
    producers s !! p = Some (PTryCapacity v current) -> has_capacity (sequencer s) (current + 1) = false ->
    step s (set_producer s p None)
| S_try_capacity p v current :
    producers s !! p = Some (PTryCapacity v current) -> has_capacity (sequencer s) (current + 1) = true ->
    step s (set_producer s p (Some (PTryClaim v current)))
| S_try_lost p v current : (* also the spurious failure of the weak CAS *)
    producers s !! p = Some (PTryClaim v current) -> step s (set_producer s p None)
| S_try_claim p v current :
    producers s !! p = Some (PTryClaim v current) -> claimed_sequence (sequencer s) = current ->
    step s (try_claim s p v current)
| S_pull : consumer s = CIdle -> step s (pull s)
| S_wait sequence :
    consumer s = CWait sequence -> sequence <= claimed_sequence (sequencer s) ->
    step s (set_consumer s (CScan sequence sequence (claimed_sequence (sequencer s))))
| S_scan sequence pos limit :
    consumer s = CScan sequence pos limit -> pos <= limit -> is_available (sequencer s) pos = true ->
    step s (set_consumer s (CScan sequence (pos + 1) limit))
| S_scan_gap sequence pos limit :
    consumer s = CScan sequence pos limit -> pos <= limit -> is_available (sequencer s) pos = false ->
    step s (scanned s sequence (pos - 1))
| S_scan_end sequence pos limit :
    consumer s = CScan sequence pos limit -> limit < pos -> step s (scanned s sequence limit)
| S_take sequence x :
    consumer s = CTake sequence -> ring s !! slot_of s sequence = Some x -> step s (take_out s sequence x)
| S_release sequence x : consumer s = CRelease sequence x -> step s (release s sequence x).

Definition reachable (buffer_size : Z) (s : State T) : Prop := rtc step (initial buffer_size) s.

(** The slot a thread is about to touch without synchronization. *)
Definition touches (pc : Producer T) : option Z :=
  match pc with
  | PFill first _ i | PConstruct first _ i => Some (first + Z.of_nat i)
  | _ => None
  end.
End system.

(** ** Arithmetic of slots and generations *)
Lemma pow2_pos k : 0 <= k -> 0 < 2 ^ k.
Proof. intros. apply Z.pow_pos_nonneg; lia. Qed.

Lemma countr_zero_pow2 k : 0 <= k -> countr_zero (2 ^ k) = k.
Proof.
  revert k. apply natlike_ind; [done|]. intros k Hk IH. rewrite Z.pow_succ_r by done.
  pose proof (pow2_pos k Hk). destruct (2 ^ k) as [|p|p]; [lia| |lia].
  change (2 * Z.pos p) with (Z.pos p~0). cbn [countr_zero pos_ctz] in *. lia.
Qed.

Lemma wrap_int64_small z : - 2 ^ 63 <= z < 2 ^ 63 -> wrap_int64 z = z.
Proof. intros H. unfold wrap_int64. rewrite Z.mod_small; lia. Qed.

Lemma wrap_int32_pred z : wrap_int32 (z - 1) <> wrap_int32 z.
Proof.
  unfold wrap_int32. intros H.
  assert (E : (z - 1 + 2 ^ 31) mod 2 ^ 32 = (z + 2 ^ 31) mod 2 ^ 32) by lia. clear H.
  pose proof (Z.div_mod (z - 1 + 2 ^ 31) (2 ^ 32) ltac:(lia)). pose proof (Z.div_mod (z + 2 ^ 31) (2 ^ 32) ltac:(lia)). lia.
Qed.

Section arithmetic.
Context (k : Z) (Hk : 0 <= k <= 62).
Notation cap := (2 ^ k).

Lemma cap_pos : 0 < cap.
Proof. apply pow2_pos. lia. Qed.

Lemma slot_index_mod u : 0 <= u < 2 ^ 63 -> slot_index cap u = Z.to_nat (u mod cap).
Proof.
  intros Hu. unfold slot_index, to_size. rewrite Z.mod_small by lia. f_equal.
  rewrite Z.sub_1_r, <- Z.ones_equiv. apply Z.land_ones. lia.
Qed.

Lemma shiftr_pred_cap u : Z.shiftr (u - cap) k = Z.shiftr u k - 1.
Proof.
  rewrite !Z.shiftr_div_pow2 by lia. pose proof cap_pos. replace (u - cap) with (u + (-1) * cap) by lia. rewrite Z.div_add; lia.
Qed.

(** Two positions of one slot that are less than a round apart coincide. *)
Lemma same_slot a b : a mod cap = b mod cap -> - cap < a - b < cap -> a = b.
Proof.
  intros E H. pose proof cap_pos. pose proof (Z.div_mod a cap ltac:(lia)). pose proof (Z.div_mod b cap ltac:(lia)).
  assert (a / cap = b / cap) by nia. nia.
Qed.

Lemma same_slot_nat a b : Z.to_nat (a mod cap) = Z.to_nat (b mod cap) -> a mod cap = b mod cap.
Proof. pose proof cap_pos. intros E. pose proof (Z.mod_pos_bound a cap). pose proof (Z.mod_pos_bound b cap). lia. Qed.

Lemma mod_sub_cap u : (u - cap) mod cap = u mod cap.
Proof. pose proof cap_pos. replace (u - cap) with (u + (-1) * cap) by lia. apply Z.mod_add. lia. Qed.

Lemma mod_range u : 0 <= u mod cap < cap.
Proof. apply Z.mod_pos_bound, cap_pos. Qed.
End arithmetic.

(** ** The protocol invariant *)
Section invariant.
Context {T : Type} (k : Z) (Hk : 0 <= k <= 62).
Notation cap := (2 ^ k).
Notation len l := (Z.of_nat (length l)).
Implicit Types (s : State T) (pc : Producer T) (last : Z -> Z).

(** The positions a producer has claimed and not published, from the first
    component to before the second. *)
Definition owned pc : Z * Z :=
  match pc with
  | PTryCapacity _ _ | PTryClaim _ _ => (0, 0)
  | PWait first vs | PFill first vs _ | PConstruct first vs _ => (first, first + len vs)
  | PPublish first vs i => (first + Z.of_nat i, first + len vs)
  end.

Definition owns (o : option (Producer T)) (u : Z) : Prop :=
  match o with Some pc => fst (owned pc) <= u < snd (owned pc) | None => False end.

Definition staged pc : option (Z * list T) :=
  match pc with
  | PTryCapacity _ _ | PTryClaim _ _ => None
  | PWait first vs | PFill first vs _ | PConstruct first vs _ | PPublish first vs _ => Some (first, vs)
  end.

(** Past the capacity wait. *)
Definition granted pc : bool :=
  match pc with PFill _ _ _ | PConstruct _ _ _ | PPublish _ _ _ => true | _ => false end.

(** Constructed and not yet published. *)
Definition written pc (u : Z) : Prop :=
  match pc with
  | PFill first _ i | PConstruct first _ i => first <= u < first + Z.of_nat i
  | PPublish first vs i => first + Z.of_nat i <= u < first + len vs
  | _ => False
  end.

Definition in_range pc : Prop :=
  match pc with
  | PWait _ vs => vs <> []
  | PFill _ vs i | PConstruct _ vs i | PPublish _ vs i => (i < length vs)%nat
  | _ => True
  end.

Notation claimed s := (claimed_sequence (sequencer s)).
Notation consumed s := (consumed_sequence (sequencer s)).
Notation published last u := (last (u mod cap) = u).
Notation cell u := (Z.to_nat (u mod cap)).

Record producer_ok s last pc : Prop := {
  po_staged first vs : staged pc = Some (first, vs) ->
    0 <= first /\ first + len vs <= claimed s + 1 /\ forall j v, vs !! j = Some v -> claims s !! (Z.to_nat first + j)%nat = Some v;
  po_unpublished u : owns (Some pc) u -> last (u mod cap) < u;
  po_granted first vs : granted pc = true -> staged pc = Some (first, vs) -> first + len vs - 1 <= consumed s + cap;
  po_written u v : written pc u -> claims s !! Z.to_nat u = Some v -> ring s !! cell u = Some (Holds v);
  po_range : in_range pc;
  po_try v current : pc = PTryClaim v current -> current + 1 - cap <= consumed s
}.

Definition consumer_ok s last : Prop :=
  match consumer s with
  | CIdle => True
  | CWait sequence => sequence = consumed s + 1
  | CScan sequence pos limit =>
      sequence = consumed s + 1 /\ sequence <= pos <= limit + 1 /\ sequence <= limit <= claimed s /\
      forall u, sequence <= u < pos -> published last u
  | CTake sequence => sequence = consumed s + 1 /\ published last sequence
  | CRelease sequence x =>
      sequence = consumed s + 1 /\ published last sequence /\ exists v, claims s !! Z.to_nat sequence = Some v /\ x = Holds v
  end.

(** What the slot of a published position contains. *)
Definition content (c : Consumer T) (u : Z) (v : T) : Slot T :=
  match c with CRelease sequence _ => if sequence =? u then MovedFrom else Holds v | _ => Holds v end.

(** [last j] is the position most recently published into slot [j]. *)
Record inv s last : Prop := {
  i_capacity : capacity (sequencer s) = cap;
  i_shift : generation_shift (sequencer s) = k;
  i_ring : length (ring s) = Z.to_nat cap;
  i_generations : length (slot_generations (sequencer s)) = Z.to_nat cap;
  i_claims : len (claims s) = claimed s + 1;
  i_consumed : -1 <= consumed s;
  i_bound : claimed s < 2 ^ 63 - 1;
  i_last j : 0 <= j < cap -> last j mod cap = j /\ consumed s - cap < last j <= consumed s + cap /\ last j <= claimed s;
  i_table j : 0 <= j < cap -> slot_generations (sequencer s) !! Z.to_nat j = Some (wrap_int32 (Z.shiftr (last j) k));
  i_producers p pc : producers s !! p = Some pc -> producer_ok s last pc;
  i_disjoint p p' u : p <> p' -> owns (producers s !! p) u -> owns (producers s !! p') u -> False;
  i_cover u : consumed s < u <= claimed s -> published last u \/ exists p, owns (producers s !! p) u;
  i_data u v : consumed s < u -> published last u -> claims s !! Z.to_nat u = Some v ->
    ring s !! cell u = Some (content (consumer s) u v);
  i_consumer : consumer_ok s last;
  i_cached u : consumed s < u <= cached_published s -> published last u;
  i_pulled : pulled s = Holds <$> take (Z.to_nat (consumed s + 1)) (claims s)
}.

(** *** Consequences *)
Lemma last_of s last u : inv s last ->
  last (u mod cap) mod cap = u mod cap /\ consumed s - cap < last (u mod cap) <= consumed s + cap /\ last (u mod cap) <= claimed s.
Proof. intros Hi. apply (i_last _ _ Hi), mod_range, Hk. Qed.

(** A slot holds the current round or the one before. *)
Lemma two_rounds s last u : inv s last -> consumed s < u <= consumed s + cap -> published last u \/ last (u mod cap) = u - cap.
Proof.
  intros Hi Hu. destruct (last_of _ _ u Hi) as (E & H1 & _).
  destruct (decide (last (u mod cap) <= u - cap)); [right|left]; apply (same_slot k Hk); rewrite ?mod_sub_cap; done || lia.
Qed.

Lemma consumed_claimed s last : inv s last -> consumed s <= claimed s.
Proof.
  intros Hi. pose proof (cap_pos k Hk). destruct (last_of _ _ (consumed s) Hi) as (E & H1 & H2).
  enough (consumed s <= last (consumed s mod cap)) by lia.
  destruct (decide (last (consumed s mod cap) < consumed s)); [|lia].
  apply (same_slot k Hk) in E; lia.
Qed.

(** What is unpublished is ahead of the consumer. *)
Lemma unpublished_ahead s last u : inv s last -> last (u mod cap) < u -> consumed s < u.
Proof.
  intros Hi Hu. pose proof (cap_pos k Hk). destruct (last_of _ _ u Hi) as (E & H1 & _).
  destruct (decide (u - cap < last (u mod cap))); [|lia]. apply (same_slot k Hk) in E; lia.
Qed.

Lemma published_window s last u : inv s last -> published last u -> u <= consumed s + cap /\ u <= claimed s.
Proof. intros Hi Hu. destruct (last_of _ _ u Hi) as (_ & H1 & H2). lia. Qed.

Lemma window_slots s u u' :
  consumed s < u <= consumed s + cap -> consumed s < u' <= consumed s + cap -> u <> u' -> cell u <> cell u'.
Proof. intros Hu Hu' Hn E. apply (same_slot_nat k Hk), (same_slot k Hk) in E; lia. Qed.

Lemma cell_of s last u : inv s last -> 0 <= u <= claimed s + 1 -> slot_of s u = cell u.
Proof.
  intros Hi Hu. unfold slot_of. rewrite (i_capacity _ _ Hi). pose proof (i_bound _ _ Hi). apply slot_index_mod; lia.
Qed.

(** The generation test is exact on the two rounds a slot can hold. *)
Lemma available_published s last u :
  inv s last -> 0 <= u <= claimed s -> published last u \/ last (u mod cap) = u - cap ->
  is_available (sequencer s) u = bool_decide (published last u).
Proof.
  intros Hi Hu Hl. pose proof (cap_pos k Hk). unfold is_available, generation_of. apply bool_decide_ext.
  change (slot_index (capacity (sequencer s)) u) with (slot_of s u). rewrite (cell_of _ _ _ Hi) by lia.
  rewrite (i_table _ _ Hi) by apply (mod_range k Hk). rewrite (i_shift _ _ Hi). split; [|by intros ->].
  intros [= E]. destruct Hl as [Hl|Hl]; [done|]. rewrite Hl, (shiftr_pred_cap k Hk) in E. by apply wrap_int32_pred in E.
Qed.

Lemma owner_ahead s last p u : inv s last -> owns (producers s !! p) u -> consumed s < u <= claimed s /\ last (u mod cap) < u.
Proof.
  intros Hi Hu. destruct (producers s !! p) as [pc|] eqn:Ep; [|done]. pose proof (i_producers _ _ Hi _ _ Ep) as Hp.
  pose proof (po_unpublished _ _ _ Hp _ Hu) as Hl. pose proof (unpublished_ahead _ _ _ Hi Hl).
  enough (u <= claimed s) by done. destruct pc; simpl in Hu; try lia;
    destruct (po_staged _ _ _ Hp _ _ eq_refl) as (_ & Hc & _); lia.
Qed.

(** The positions of a producer past its wait lie in the window. *)
Lemma granted_window s last p pc u :
  inv s last -> producers s !! p = Some pc -> granted pc = true -> owns (Some pc) u -> consumed s < u <= consumed s + cap.
Proof.
  intros Hi Hp Hg Hu. pose proof (i_producers _ _ Hi _ _ Hp) as Ho. rewrite <- Hp in Hu. pose proof (owner_ahead _ _ _ _ Hi Hu).
  rewrite Hp in Hu. split; [lia|]. destruct pc; try done; simpl in Hu; pose proof (po_granted _ _ _ Ho _ _ Hg eq_refl); lia.
Qed.

Lemma written_owned pc u : in_range pc -> written pc u -> owns (Some pc) u /\ granted pc = true.
Proof. destruct pc; simpl; try done; intros; split; try done; lia. Qed.

(** *** Steps of the producers *)
Lemma lookup_alter s p o p' : partial_alter (fun _ => o) p (producers s) !! p' = if decide (p = p') then o else producers s !! p'.
Proof. case_decide; subst; [by rewrite lookup_partial_alter_eq|by rewrite lookup_partial_alter_ne]. Qed.

Lemma producer_ok_frame s s' last pc :
  sequencer s = sequencer s' -> ring s = ring s' -> claims s = claims s' -> producer_ok s last pc -> producer_ok s' last pc.
Proof. intros E1 E2 E3 []. split; rewrite <- ?E1, <- ?E2, <- ?E3; done. Qed.

(** Only the program counter of [p] moves. *)
Lemma set_producer_inv s last p o :
  inv s last -> (forall pc, o = Some pc -> producer_ok s last pc) ->
  (forall u, owns o u -> owns (producers s !! p) u) ->
  (forall u, owns (producers s !! p) u -> owns o u \/ published last u) -> inv (set_producer s p o) last.
Proof.
  intros [] Hok Hsub Hsup. split; try done; cbn.
  - intros p' pc. rewrite lookup_alter. case_decide; subst; intros E; apply (producer_ok_frame s); eauto.
  - intros p1 p2 u Hn. rewrite !lookup_alter. repeat case_decide; subst; try done; eauto.
  - intros u Hu. destruct (i_cover0 u Hu) as [|(p' & Hp')]; [by left|]. destruct (decide (p = p')) as [<-|Hn].
    + destruct (Hsup _ Hp') as [Ho|]; [|by left]. right. exists p. rewrite lookup_alter. by rewrite decide_True.
    + right. exists p'. rewrite lookup_alter. by rewrite decide_False.
Qed.

(** A granted producer writes the slot of a position it owns and has not written. *)
Lemma set_ring_inv s last p pc u x :
  inv s last -> producers s !! p = Some pc -> granted pc = true -> owns (Some pc) u -> ~ written pc u ->
  inv (set_ring s (<[cell u := x]> (ring s))) last.
Proof.
  intros Hi Hp Hg Hu Hw. pose proof (granted_window _ _ _ _ _ Hi Hp Hg Hu) as Hwin.
  assert (Hne : forall u', consumed s < u' <= consumed s + cap -> u <> u' -> <[cell u := x]> (ring s) !! cell u' = ring s !! cell u').
  { intros u' Hu' Hn. apply list_lookup_insert_ne. by apply (window_slots s). }
  pose proof Hi as []. split; try done; cbn.
  - by rewrite length_insert.
  - intros p' pc' Hp'. destruct (i_producers0 _ _ Hp') as []. split; try done. cbn. intros u' v Hw' Hv.
    destruct (written_owned _ _ po_range0 Hw') as [Hu' Hg'].
    rewrite Hne; [by apply po_written0|by eapply granted_window|]. intros <-.
    destruct (decide (p = p')) as [<-|Hn]; [by simplify_eq|]. apply (i_disjoint0 p p' u Hn); by rewrite ?Hp, ?Hp'.
  - intros u' v Hc Hpub Hv. rewrite Hne; [by apply i_data0| |].
    + pose proof (published_window _ _ _ Hi Hpub). lia.
    + intros <-. pose proof (po_unpublished _ _ _ (i_producers0 _ _ Hp) _ Hu). lia.
Qed.

Lemma insert_cell s last u x : inv s last -> <[cell u := x]> (ring s) !! cell u = Some x.
Proof. intros Hi. apply list_lookup_insert_eq. rewrite (i_ring _ _ Hi). pose proof (mod_range k Hk u). lia. Qed.

Lemma capacity_inv s last p first vs :
  inv s last -> producers s !! p = Some (PWait first vs) -> has_capacity (sequencer s) (first + len vs - 1) = true ->
  inv (set_producer s p (Some (PFill first vs 0))) last.
Proof.
  intros Hi Hp Hc. pose proof (i_producers _ _ Hi _ _ Hp) as []. unfold has_capacity in Hc.
  rewrite (i_capacity _ _ Hi) in Hc. apply Z.leb_le in Hc. apply set_producer_inv; [done|..]; rewrite ?Hp; cbn; auto.
  intros pc [= <-]. split; cbn; try done.
  - intros first' vs' _ [= <- <-]. lia.
  - intros u v. lia.
  - simpl in po_range0. destruct vs; [done|]. simpl. lia.
Qed.

Lemma destroy_inv s last p first vs i :
  inv s last -> producers s !! p = Some (PFill first vs i) -> inv (destroy_at s p first vs i) last.
Proof.
  intros Hi Hp. pose proof (i_producers _ _ Hi _ _ Hp) as Ho. pose proof (po_range _ _ _ Ho) as Hr. cbn in Hr.
  destruct (po_staged _ _ _ Ho _ _ eq_refl) as (Hf & Hcl & _). unfold destroy_at. rewrite (cell_of _ _ _ Hi) by lia.
  assert (Hi' : inv (set_ring s (<[cell (first + Z.of_nat i) := Destroyed]> (ring s))) last).
  { eapply set_ring_inv; [done|done|done|cbn; lia|cbn; lia]. }
  apply set_producer_inv; [done|..]; cbn; rewrite ?Hp; cbn; auto.
  intros pc [= <-]. pose proof (i_producers _ _ Hi' _ _ Hp) as []. by split.
Qed.

Lemma construct_inv s last p first vs i v :
  inv s last -> producers s !! p = Some (PConstruct first vs i) -> vs !! i = Some v -> inv (construct_at s p first vs i v) last.
Proof.
  intros Hi Hp Hv. pose proof (i_producers _ _ Hi _ _ Hp) as Ho. pose proof (po_range _ _ _ Ho) as Hr. cbn in Hr.
  destruct (po_staged _ _ _ Ho _ _ eq_refl) as (Hf & Hcl & Hvs). unfold construct_at. rewrite (cell_of _ _ _ Hi) by lia.
  set (u := first + Z.of_nat i).
  assert (Hi' : inv (set_ring s (<[cell u := Holds v]> (ring s))) last).
  { eapply set_ring_inv; [done|done|done|cbn; lia|cbn; lia]. }
  pose proof (i_producers _ _ Hi' _ _ Hp) as [H1 H2 H3 H4 _ _]. cbn in H4.
  assert (H4' : forall u' v', first <= u' < first + Z.of_nat (S i) -> claims s !! Z.to_nat u' = Some v' ->
                  <[cell u := Holds v]> (ring s) !! cell u' = Some (Holds v')).
  { intros u' v' Hu' Hv'. destruct (decide (u' = u)) as [->|Hn]; [|apply H4; [lia|done]].
    rewrite (insert_cell _ _ _ _ Hi). specialize (Hvs _ _ Hv). replace (Z.to_nat u) with (Z.to_nat first + i)%nat in Hv' by lia.
    congruence. }
  destruct (Nat.eqb_spec (S i) (length vs)) as [Es|Es]; apply set_producer_inv; try done; cbn; rewrite ?Hp; cbn; try (intros u'; lia).
  - intros pc [= <-]. split; cbn; try done; [|intros u' v' Hu'; apply H4'; lia|lia]. intros u' Hu'. apply H2. cbn. lia.
  - intros pc [= <-]. split; cbn; try done. lia.
Qed.

(** [u] is published into its slot. *)
Definition bump last (u : Z) : Z -> Z := fun j => if j =? u mod cap then u else last j.

Lemma bump_eq last u : bump last u (u mod cap) = u.
Proof. unfold bump. by rewrite Z.eqb_refl. Qed.

Section bump.
Context s last u (Hi : inv s last) (Hwin : consumed s < u <= consumed s + cap) (Hun : last (u mod cap) < u).

Lemma bump_published u' : consumed s < u' -> published (bump last u) u' <-> u' = u \/ published last u'.
Proof.
  intros Hu'. unfold bump. destruct (Z.eqb_spec (u' mod cap) (u mod cap)) as [E|E].
  - split; [by left|]. intros [->|Hp]; [done|]. rewrite E in Hp. destruct (published_window _ _ u' Hi); [by rewrite E|].
    apply (same_slot k Hk) in E; lia.
  - split; [by right|]. intros [->|]; done.
Qed.

Lemma bump_unpublished u' : last (u' mod cap) < u' -> u' <> u -> bump last u (u' mod cap) < u'.
Proof.
  intros Hu' Hn. unfold bump. destruct (Z.eqb_spec (u' mod cap) (u mod cap)) as [E|E]; [|done].
  pose proof (unpublished_ahead _ _ _ Hi Hu'). destruct (decide (u' <= consumed s + cap)); [|lia]. apply (same_slot k Hk) in E; lia.
Qed.

Lemma bump_producer_ok s' pc :
  consumed s' = consumed s -> claimed s' = claimed s -> ring s' = ring s -> claims s' = claims s ->
  producer_ok s last pc -> ~ owns (Some pc) u -> producer_ok s' (bump last u) pc.
Proof.
  intros E1 E2 E3 E4 [] Hd. split; rewrite ?E1, ?E2, ?E3, ?E4; try done. intros u' Hu'. apply bump_unpublished; [by apply po_unpublished0|].
  by intros ->.
Qed.

Lemma bump_consumer_ok s' :
  consumer s' = consumer s -> consumed s' = consumed s -> claimed s' = claimed s -> claims s' = claims s ->
  consumer_ok s last -> consumer_ok s' (bump last u).
Proof.
  intros E1 E2 E3 E4. unfold consumer_ok. rewrite E1, E2, E3, E4. destruct (consumer s); try done.
  - intros (? & ? & ? & Hpu). split_and!; try done; try lia. intros u' Hu'. apply bump_published; [lia|]. right. by apply Hpu.
  - intros (? & ?). split; [done|]. apply bump_published; [lia|by right].
  - intros (? & ? & ?). split_and!; try done. apply bump_published; [lia|by right].
Qed.
End bump.

Lemma publish_inv s last p first vs i :
  inv s last -> producers s !! p = Some (PPublish first vs i) -> exists last', inv (publish s p first vs i) last'.
Proof.
  intros Hi Hp. pose proof (i_producers _ _ Hi _ _ Hp) as Ho. pose proof (po_range _ _ _ Ho) as Hr. cbn in Hr.
  destruct (po_staged _ _ _ Ho _ _ eq_refl) as (Hf & Hcl & Hvs). set (u := first + Z.of_nat i).
  assert (Hu : owns (Some (PPublish first vs i)) u) by (cbn; lia).
  pose proof (granted_window _ _ _ _ _ Hi Hp eq_refl Hu) as Hwin. pose proof (po_unpublished _ _ _ Ho _ Hu) as Hun.
  pose proof Hi as []. exists (bump last u). split; try done; cbn -[slot_index Nat.eqb].
  - by rewrite length_insert.
  - intros j Hj. unfold bump. destruct (Z.eqb_spec j (u mod cap)) as [->|]; [|by apply i_last0]. split_and!; lia.
  - intros j Hj. fold u. change (slot_index (capacity (sequencer s)) u) with (slot_of s u). rewrite (cell_of _ _ _ Hi) by lia.
    unfold bump. destruct (Z.eqb_spec j (u mod cap)) as [->|Hn].
    + rewrite list_lookup_insert_eq; [by unfold generation_of; rewrite i_shift0|]. rewrite i_generations0. lia.
    + rewrite list_lookup_insert_ne; [by apply i_table0|]. pose proof (mod_range k Hk u). lia.
  - intros p' pc'. rewrite lookup_alter. case_decide as Hd; [subst p'|].
    + destruct (Nat.eqb_spec (S i) (length vs)); [done|]. intros [= <-]. apply (bump_producer_ok s); try done; [|cbn; lia].
      destruct Ho. split; try done; cbn; [|intros u' v Hu'; apply po_written0; cbn; lia|lia]. intros u' Hu'. apply po_unpublished0. cbn. lia.
    + intros Hp'. apply (bump_producer_ok s); try done; [by eapply i_producers0|]. intros Hu'.
      apply (i_disjoint0 p p' u Hd); by rewrite ?Hp, ?Hp'.
  - intros p1 p2 u' Hn. rewrite !lookup_alter. assert (Hsub : owns (if (S i =? length vs)%nat then None else Some (PPublish first vs (S i))) u' ->
      owns (producers s !! p) u') by (rewrite Hp; destruct (_ =? _)%nat; cbn; [done|lia]).
    repeat case_decide; subst; try done; eauto.
  - intros u' Hu'. rewrite (bump_published s) by (done || lia). destruct (decide (u' = u)) as [->|Hn]; [by left; left|].
    destruct (i_cover0 u' Hu') as [|(p' & Hp')]; [by left; right|]. right. exists p'. rewrite lookup_alter. case_decide; subst; [|done].
    rewrite Hp in Hp'. cbn in Hp'. destruct (Nat.eqb_spec (S i) (length vs)); cbn; lia.
  - intros u' v Hc. rewrite (bump_published s) by (done || lia). intros [->|Hpb] Hv; [|by apply i_data0].
    rewrite (po_written _ _ _ Ho u v ltac:(cbn; lia) Hv). unfold content. unfold consumer_ok in i_consumer0.
    destruct (consumer s); try done. destruct (Z.eqb_spec sequence u); [|done]. destruct i_consumer0 as (_ & Hpc & _). subst. lia.
  - by apply (bump_consumer_ok s).
  - intros u' Hu'. apply (bump_published s); [done..|lia|]. right. by apply i_cached0.
Qed.

(** A claim: the block after the cursor goes to a producer that owned nothing. *)
Lemma claims_inv s last p vs pc :
  inv s last -> (forall u, owns (producers s !! p) u -> False) ->
  staged pc = Some (claimed s + 1, vs) -> owned pc = (claimed s + 1, claimed s + 1 + len vs) -> in_range pc ->
  (forall u, written pc u -> False) -> (granted pc = true -> claimed s + len vs <= consumed s + cap) ->
  (forall v current, pc <> PTryClaim v current) -> claimed s + len vs < 2 ^ 63 - 1 ->
  inv (set_producer (set_sequencer (add_claims s vs) (set_claimed (sequencer s) (claimed s + len vs))) p (Some pc)) last.
Proof.
  intros Hi Hno Hst How Hr Hw Hg Htry Hb. pose proof (consumed_claimed _ _ Hi) as Hcc.
  pose proof Hi as []. split; try done; cbn -[slot_index].
  - rewrite length_app. lia.
  - intros j Hj. destruct (i_last0 j Hj) as (? & ? & ?). split_and!; lia.
  - intros p' pc'. rewrite lookup_alter. case_decide; intros E; subst.
    + injection E as ->. split; cbn.
      * intros first' vs'. rewrite Hst. intros [= <- <-]. split_and!; [lia|lia|]. intros j v Hv.
        rewrite lookup_app_r by lia. rewrite <- Hv. f_equal. lia.
      * intros u. rewrite How. cbn. intros Hu. destruct (last_of _ _ u Hi) as (_ & _ & ?). lia.
      * intros first' vs' Hgr. rewrite Hst. intros [= <- <-]. specialize (Hg Hgr). lia.
      * intros u v []%Hw.
      * done.
      * intros v current ->. by destruct (Htry v current).
    + destruct (i_producers0 _ _ E) as []. split; try done; cbn.
      * intros first' vs' E'. destruct (po_staged0 _ _ E') as (? & ? & Hl). split_and!; [done|lia|]. intros j v Hv.
        apply lookup_app_l_Some. by apply Hl.
      * intros u v Hu Hv. apply po_written0; [done|]. destruct (written_owned _ _ po_range0 Hu) as [Hu' _].
        destruct (owner_ahead s last p' u Hi) as [? _]; [by rewrite E|]. rewrite lookup_app_l in Hv by lia. done.
  - intros p1 p2 u Hn. rewrite !lookup_alter. assert (Hnew : forall p', owns (Some pc) u -> owns (producers s !! p') u -> False).
    { intros p' Hu Hu'. cbn in Hu. rewrite How in Hu. cbn in Hu. pose proof (owner_ahead _ _ _ _ Hi Hu'). lia. }
    repeat case_decide; subst; try done; eauto.
  - intros u Hu. destruct (decide (u <= claimed s)) as [Hc|Hc].
    + destruct (i_cover0 u) as [|(p' & Hp')]; [lia|by left|]. right. exists p'. rewrite lookup_alter. case_decide; [|done].
      subst. by destruct (Hno u).
    + right. exists p. rewrite lookup_alter, decide_True by done. cbn. rewrite How. cbn. lia.
  - intros u v Hc Hpu Hv. apply i_data0; try done. destruct (published_window _ _ _ Hi Hpu). rewrite lookup_app_l in Hv by lia. done.
  - unfold consumer_ok in *. cbn. destruct (consumer s); try done.
    + destruct i_consumer0 as (? & ? & ? & ?). split_and!; try done; lia.
    + destruct i_consumer0 as (? & ? & v & Hv & ?). split_and!; try done. exists v. split; [|done]. by apply lookup_app_l_Some.
  - rewrite i_pulled0, take_app_le; [done|]. lia.
Qed.

Lemma claim_inv s last p vs :
  inv s last -> producers s !! p = None -> vs <> [] -> claimed s + len vs < 2 ^ 63 - 1 -> inv (claim s p vs) last.
Proof.
  intros Hi Hp Hvs Hb. unfold claim, add_and_get. pose proof (i_consumed _ _ Hi). pose proof (consumed_claimed _ _ Hi).
  rewrite wrap_int64_small by lia. apply claims_inv; try done; try (by rewrite Hp).
  - cbn. do 2 f_equal. lia.
  - cbn. f_equal; lia.
Qed.

Lemma try_claim_inv s last p v :
  inv s last -> producers s !! p = Some (PTryClaim v (claimed s)) -> claimed s + 1 < 2 ^ 63 - 1 ->
  inv (try_claim s p v (claimed s)) last.
Proof.
  intros Hi Hp Hb. pose proof (po_try _ _ _ (i_producers _ _ Hi _ _ Hp) _ _ eq_refl).
  apply (claims_inv s last p [v]); cbn; rewrite ?Hp; cbn; try done; try lia.
Qed.

Lemma try_inv s last p o :
  inv s last -> (forall u, owns (producers s !! p) u -> False) ->
  (o = None \/ exists v current, o = Some (PTryCapacity v current) \/
     (o = Some (PTryClaim v current) /\ has_capacity (sequencer s) (current + 1) = true)) ->
  inv (set_producer s p o) last.
Proof.
  intros Hi Hno Ho. apply set_producer_inv; [done|..].
  - intros pc ->. destruct Ho as [|(v & c & [E|[E Hc]])]; simplify_eq; split; cbn; try done; try (intros u; lia).
    intros ? ? [= -> ->]. unfold has_capacity in Hc. rewrite (i_capacity _ _ Hi) in Hc. lia.
  - intros u. destruct Ho as [->|(v & c & [->|[-> _]])]; cbn; lia.
  - intros u []%Hno.
Qed.

(** *** Steps of the consumer *)
Lemma set_consumer_inv s last c cached :
  inv s last -> (forall seq x, consumer s = CRelease seq x -> False) -> (forall seq x, c = CRelease seq x -> False) ->
  consumer_ok (set_consumer s c) last -> (forall u, consumed s < u <= cached -> published last u) ->
  inv {| sequencer := sequencer s; ring := ring s; producers := producers s; consumer := c; cached_published := cached;
         claims := claims s; pulled := pulled s |} last.
Proof.
  intros [] Hold Hnew Hc Hca. split; try done; cbn.
  - intros p pc E. apply (producer_ok_frame s); eauto.
  - intros u v Hu Hpu Hv. rewrite (i_data0 u v Hu Hpu Hv). unfold content.
    destruct (consumer s) eqn:E; try (by destruct (Hold _ _ eq_refl)); destruct c; try done; by destruct (Hnew _ _ eq_refl).
Qed.

Lemma pull_inv s last : inv s last -> consumer s = CIdle -> inv (pull s) last.
Proof.
  intros Hi Hc. apply set_consumer_inv; try done; [by rewrite Hc| | |apply (i_cached _ _ Hi)].
  - intros seq x. by destruct (_ <? _).
  - unfold consumer_ok. cbn. destruct (Z.ltb_spec (cached_published s) (consumed s + 1)); cbn; [done|].
    split; [done|]. apply (i_cached _ _ Hi). lia.
Qed.

Lemma wait_inv s last seq :
  inv s last -> consumer s = CWait seq -> seq <= claimed s -> inv (set_consumer s (CScan seq seq (claimed s))) last.
Proof.
  intros Hi Hc Hs. pose proof (i_consumer _ _ Hi) as Ho. unfold consumer_ok in Ho. rewrite Hc in Ho.
  apply set_consumer_inv; try done; [by rewrite Hc| |apply (i_cached _ _ Hi)]. unfold consumer_ok. cbn. split_and!; try lia.
Qed.

(** The scan looks no further than one past the window. *)
Lemma scan_rounds s last seq pos limit :
  inv s last -> consumer s = CScan seq pos limit -> pos <= limit -> published last pos \/ last (pos mod cap) = pos - cap.
Proof.
  intros Hi Hc Hp. pose proof (i_consumer _ _ Hi) as Ho. unfold consumer_ok in Ho. rewrite Hc in Ho.
  destruct Ho as (-> & ? & ? & Hpu). pose proof (cap_pos k Hk).
  destruct (decide (pos <= consumed s + cap)) as [Hw|Hw]; [apply (two_rounds s); [done|lia]|]. right.
  assert (pos - 1 <= consumed s + cap) as Hle.
  { destruct (published_window _ _ (pos - 1) Hi) as [? _]; [apply Hpu; lia|done]. }
  rewrite <- (mod_sub_cap k Hk pos). apply Hpu. lia.
Qed.

Lemma scan_inv s last seq pos limit :
  inv s last -> consumer s = CScan seq pos limit -> pos <= limit -> is_available (sequencer s) pos = true ->
  inv (set_consumer s (CScan seq (pos + 1) limit)) last.
Proof.
  intros Hi Hc Hp Ha. pose proof (scan_rounds _ _ _ _ _ Hi Hc Hp) as Hr. pose proof (i_consumer _ _ Hi) as Ho.
  unfold consumer_ok in Ho. rewrite Hc in Ho. destruct Ho as (Es & ? & ? & Hpu). pose proof (i_consumed _ _ Hi).
  rewrite (available_published _ _ _ Hi) in Ha by (done || lia). apply bool_decide_eq_true in Ha.
  apply set_consumer_inv; try done; [by rewrite Hc| |apply (i_cached _ _ Hi)]. unfold consumer_ok. cbn. split_and!; try lia.
  intros u Hu. destruct (decide (u = pos)) as [->|]; [done|]. apply Hpu. lia.
Qed.

Lemma scanned_inv s last seq pos limit pub :
  inv s last -> consumer s = CScan seq pos limit -> pub < pos -> inv (scanned s seq pub) last.
Proof.
  intros Hi Hc Hp. pose proof (i_consumer _ _ Hi) as Ho. unfold consumer_ok in Ho. rewrite Hc in Ho.
  destruct Ho as (Es & ? & ? & Hpu). unfold scanned. destruct (Z.ltb_spec pub seq).
  - apply set_consumer_inv; try done; [by rewrite Hc|apply (i_cached _ _ Hi)].
  - apply set_consumer_inv; try done; [by rewrite Hc| |intros u Hu; apply Hpu; lia].
    unfold consumer_ok. cbn. split; [done|]. apply Hpu. lia.
Qed.

Lemma claims_lookup s last u : inv s last -> 0 <= u <= claimed s -> exists v, claims s !! Z.to_nat u = Some v.
Proof. intros Hi Hu. apply lookup_lt_is_Some. pose proof (i_claims _ _ Hi). lia. Qed.

Lemma take_inv s last seq x :
  inv s last -> consumer s = CTake seq -> ring s !! slot_of s seq = Some x -> inv (take_out s seq x) last.
Proof.
  intros Hi Hc Hx. pose proof (i_consumer _ _ Hi) as Ho. unfold consumer_ok in Ho. rewrite Hc in Ho. destruct Ho as (Es & Hpub).
  destruct (published_window _ _ _ Hi Hpub) as [Hw Hcl]. pose proof (i_consumed _ _ Hi). pose proof (cap_pos k Hk).
  unfold take_out. rewrite (cell_of _ _ _ Hi) in * by lia. destruct (claims_lookup _ _ seq Hi) as [v Hv]; [lia|].
  rewrite (i_data _ _ Hi seq v ltac:(lia) Hpub Hv) in Hx. unfold content in Hx. rewrite Hc in Hx. injection Hx as <-.
  assert (Hne : forall u y, consumed s < u <= consumed s + cap -> u <> seq ->
                  ring s !! cell u = y -> <[cell seq := MovedFrom]> (ring s) !! cell u = y).
  { intros u y Hu Hn <-. apply list_lookup_insert_ne. apply (window_slots s); lia. }
  pose proof Hi as []. split; try done; cbn.
  - by rewrite length_insert.
  - intros p pc Hp. pose proof (i_producers0 _ _ Hp) as []. split; try done; cbn. intros u v' Hu Hv'.
    destruct (written_owned _ _ po_range0 Hu) as [Hu' Hg']. apply Hne; [by eapply granted_window| |by apply po_written0].
    intros ->. specialize (po_unpublished0 _ Hu'). lia.
  - intros u v' Hu Hpu Hv'. destruct (Z.eqb_spec seq u) as [<-|Hn]; [by apply (insert_cell s last)|].
    apply Hne; [|done|]. { destruct (published_window _ _ _ Hi Hpu). lia. }
    rewrite (i_data0 u v' Hu Hpu Hv'). unfold content. by rewrite Hc.
  - unfold consumer_ok. cbn. split_and!; try done. by exists v.
Qed.

Lemma release_inv s last seq x : inv s last -> consumer s = CRelease seq x -> inv (release s seq x) last.
Proof.
  intros Hi Hc. pose proof (i_consumer _ _ Hi) as Ho. unfold consumer_ok in Ho. rewrite Hc in Ho.
  destruct Ho as (Es & Hpub & v & Hv & ->). destruct (published_window _ _ _ Hi Hpub) as [Hw Hcl]. pose proof (cap_pos k Hk).
  pose proof Hi as []. split; try done; cbn.
  - lia.
  - intros j Hj. destruct (i_last0 j Hj) as (E & ? & ?). split_and!; try done; [|lia].
    destruct (decide (last j = consumed s - cap + 1)) as [El|]; [|lia].
    assert (Ej : j = seq mod cap) by (rewrite <- E, <- (mod_sub_cap k Hk seq); f_equal; lia). rewrite Ej in El. lia.
  - intros p pc Hp. pose proof (i_producers0 _ _ Hp) as []. split; try done; cbn.
    + intros first vs Hg Hs. specialize (po_granted0 _ _ Hg Hs). lia.
    + intros v' c E. specialize (po_try0 _ _ E). lia.
  - intros u Hu. apply i_cover0. lia.
  - intros u v' Hu Hpu Hv'. rewrite (i_data0 u v') by (done || lia). unfold content. rewrite Hc.
    destruct (Z.eqb_spec seq u); [lia|done].
  - intros u Hu. apply i_cached0. lia.
  - rewrite i_pulled0. replace (Z.to_nat (seq + 1)) with (S (Z.to_nat seq)) by lia. replace (Z.to_nat (consumed s + 1)) with (Z.to_nat seq) by lia.
    rewrite (take_S_r _ _ v Hv). by rewrite fmap_app.
Qed.

(** *** Every step *)
Lemma step_inv s s' last : inv s last -> len (claims s') < 2 ^ 63 -> step s s' -> exists last', inv s' last'.
Proof.
  intros Hi Hb Hs. pose proof (i_claims _ _ Hi). destruct Hs as [| | | |p first vs i Hp| | | | | | | | | | | |]; [..|by apply (publish_inv s last)| | | | | | | | | | | |]; exists last.
  - apply claim_inv; try done. revert Hb. unfold claim. cbn. rewrite length_app. lia.
  - by apply capacity_inv.
  - by apply destroy_inv.
  - by apply construct_inv.
  - apply try_inv; [done|by rewrite H0|]. right. eauto.
  - apply try_inv; [done|rewrite H0; cbn; lia|by left].
  - apply try_inv; [done|rewrite H0; cbn; lia|]. right. eauto.
  - apply try_inv; [done|rewrite H0; cbn; lia|by left].
  - subst. apply try_claim_inv; try done. revert Hb. cbn. rewrite length_app. cbn. lia.
  - by apply pull_inv.
  - by apply wait_inv.
  - by eapply scan_inv.
  - eapply scanned_inv; [done|done|lia].
  - eapply scanned_inv; [done|done|lia].
  - by apply take_inv.
  - by apply release_inv.
Qed.

Lemma ring_initial_inv (v : T) : inv (initial v cap) (fun j => j - cap).
Proof.
  pose proof (cap_pos k Hk). split; cbn -[Z.pow]; try done; try lia.
  - apply countr_zero_pow2. lia.
  - apply length_replicate.
  - apply length_replicate.
  - intros j Hj. rewrite (mod_sub_cap k Hk), Z.mod_small by lia. split_and!; lia.
  - intros j Hj. rewrite lookup_replicate_2 by lia. f_equal. rewrite (shiftr_pred_cap k Hk), Z.shiftr_div_pow2, Z.div_small by lia. done.
Qed.

Lemma step_claims s s' : step s s' -> exists vs, claims s' = claims s ++ vs.
Proof.
  intros Hs. destruct Hs; try (exists []; by rewrite app_nil_r); try (by eexists); unfold scanned; exists [];
    rewrite app_nil_r; by destruct (_ <? _).
Qed.

Lemma steps_claims s s' : rtc step s s' -> exists vs, claims s' = claims s ++ vs.
Proof.
  induction 1 as [|s s1 s2 Hs _ (vs & ->)]; [exists []; by rewrite app_nil_r|].
  destruct (step_claims _ _ Hs) as (us & ->). exists (us ++ vs). by rewrite app_assoc.
Qed.

(** The invariant holds as long as the positions fit 64 bits. *)
Lemma steps_inv s s' last : inv s last -> len (claims s') < 2 ^ 63 -> rtc step s s' -> exists last', inv s' last'.
Proof.
  intros Hi Hb Hr. revert last Hi. induction Hr as [|s s1 s2 Hs Hr IH]; [eauto|]. intros last Hi.
  destruct (steps_claims _ _ Hr) as (vs & Ev). rewrite Ev, length_app in Hb.
  destruct (step_inv s s1 last Hi) as (last' & Hi'); [lia|done|]. apply (IH ltac:(rewrite Ev, length_app; lia) _ Hi').
Qed.

Lemma ring_reachable_inv v s : reachable v cap s -> len (claims s) < 2 ^ 63 -> exists last, inv s last.
Proof. intros Hr Hb. by eapply steps_inv; [apply ring_initial_inv| |]. Qed.
End invariant.

(** ** Progress *)
Section progress.
Context {T : Type} (k : Z) (Hk : 0 <= k <= 62).
Notation cap := (2 ^ k).
Notation len l := (Z.of_nat (length l)).
Implicit Types s : State T.

(** No producer waits with a batch larger than the ring. *)
Definition batches_fit (size : Z) s : Prop :=
  forall p first vs, producers s !! p = Some (PWait first vs) -> len vs <= size.

(** [s'] is later than [s] by steps of producer [p] alone, which is at [pc]. *)
Definition advanced p (pc : option (Producer T)) s s' : Prop :=
  rtc step s s' /\ claims s' = claims s /\ consumer s' = consumer s /\
  consumed_sequence (sequencer s') = consumed_sequence (sequencer s) /\
  producers s' !! p = pc /\ forall p', p <> p' -> producers s' !! p' = producers s !! p'.

Lemma advanced_trans p pc s pc' s' s'' : advanced p pc s s' -> advanced p pc' s' s'' -> advanced p pc' s s''.
Proof.
  intros (R1 & E1 & E2 & E3 & _ & E4) (R2 & F1 & F2 & F3 & F4 & F5). split_and!; try congruence; [by etrans|].
  intros p' Hn. rewrite F5 by done. by apply E4.
Qed.

Lemma advanced_one p pc s q r :
  step s (set_producer (set_sequencer (set_ring s r) q) p pc) -> consumed_sequence q = consumed_sequence (sequencer s) ->
  advanced p pc s (set_producer (set_sequencer (set_ring s r) q) p pc).
Proof.
  intros Hs Hq. split_and!; try done; [by apply rtc_once|cbn..].
  - by rewrite lookup_partial_alter_eq.
  - intros p' Hn. by rewrite lookup_partial_alter_ne.
Qed.

Lemma fills s p first vs i :
  producers s !! p = Some (PFill first vs i) -> (i < length vs)%nat -> exists s', advanced p (Some (PPublish first vs 0)) s s'.
Proof.
  remember (length vs - i)%nat as n eqn:En. revert s i En. induction n as [|n IH]; intros s i En Hp Hi; [lia|].
  destruct (lookup_lt_is_Some_2 vs i Hi) as [v Hv].
  pose proof (advanced_one p _ s (sequencer s) _ (S_destroy s p first vs i Hp) eq_refl) as H1.
  set (s1 := set_producer _ p _) in H1.
  assert (Hp1 : producers s1 !! p = Some (PConstruct first vs i)) by apply H1.
  pose proof (advanced_one p _ s1 (sequencer s1) _ (S_construct s1 p first vs i v Hp1 Hv) eq_refl) as H2.
  destruct (Nat.eqb_spec (S i) (length vs)) as [E|E]; [eexists; by eapply advanced_trans|].
  destruct (IH _ (S i) ltac:(lia) ltac:(apply H2) ltac:(lia)) as (s3 & H3). eexists. eapply advanced_trans; [exact H1|].
  by eapply advanced_trans.
Qed.

(** Whoever owns the next position to consume can run up to its publication. *)
Lemma reaches_publish s last p pc :
  inv k s last -> batches_fit cap s -> producers s !! p = Some pc -> owns (Some pc) (consumed_sequence (sequencer s) + 1) ->
  exists s' first vs i, advanced p (Some (PPublish first vs i)) s s' /\
    first + Z.of_nat i = consumed_sequence (sequencer s) + 1.
Proof.
  intros Hi Hf Hp Hu. pose proof (i_producers _ _ _ Hi _ _ Hp) as Ho. pose proof (po_range _ _ _ _ Ho) as Hr.
  assert (Hlo : owns (Some pc) (fst (owned pc))) by (cbn in *; lia).
  rewrite <- Hp in Hlo. pose proof (owner_ahead k Hk _ _ _ _ Hi Hlo) as [Hlo1 _].
  destruct pc as [| |first vs|first vs i|first vs i|first vs i]; cbn in Hu, Hr, Hlo1; try lia.
  - assert (Hc : has_capacity (sequencer s) (first + len vs - 1) = true).
    { unfold has_capacity. rewrite (i_capacity _ _ _ Hi). specialize (Hf _ _ _ Hp). lia. }
    pose proof (advanced_one p _ s (sequencer s) (ring s) (S_capacity s p first vs Hp Hc) eq_refl) as H1.
    destruct (fills (set_producer s p (Some (PFill first vs 0))) p first vs 0) as (s2 & H2); [apply H1|destruct vs; [done|cbn; lia]|].
    exists s2, first, vs, 0%nat. split; [by eapply advanced_trans|lia].
  - destruct (fills s p first vs i Hp Hr) as (s2 & H2). exists s2, first, vs, 0%nat. split; [done|lia].
  - destruct (lookup_lt_is_Some_2 vs i Hr) as [v Hv].
    pose proof (advanced_one p _ s (sequencer s) _ (S_construct s p first vs i v Hp Hv) eq_refl) as H1.
    destruct (Nat.eqb_spec (S i) (length vs)) as [E|E]; [eexists _, first, vs, 0%nat; split; [exact H1|lia]|].
    destruct (fills _ p first vs (S i) ltac:(apply H1) ltac:(lia)) as (s2 & H2). exists s2, first, vs, 0%nat.
    split; [by eapply advanced_trans|lia].
  - exists s, first, vs, i. split; [|lia]. by split_and!.
Qed.

Lemma advanced_inv p pc s s' last : inv k s last -> advanced p pc s s' -> exists last', inv k s' last'.
Proof.
  intros Hi (Hr & Ec & _). eapply (steps_inv k Hk); [done| |done]. rewrite Ec, (i_claims _ _ _ Hi). pose proof (i_bound _ _ _ Hi). lia.
Qed.

(** The next position to consume can be published, without a new claim. *)
Lemma publish_oldest s last :
  inv k s last -> batches_fit cap s -> consumed_sequence (sequencer s) < claimed_sequence (sequencer s) ->
  exists s' last', rtc step s s' /\ inv k s' last' /\ batches_fit cap s' /\ claims s' = claims s /\
    consumed_sequence (sequencer s') = consumed_sequence (sequencer s) /\
    last' ((consumed_sequence (sequencer s) + 1) mod cap) = consumed_sequence (sequencer s) + 1.
Proof.
  intros Hi Hf Hlt. set (u := consumed_sequence (sequencer s) + 1). pose proof (i_consumed _ _ _ Hi).
  destruct (i_cover _ _ _ Hi u) as [Hpub|(p & Hp)]; [lia|exists s, last; by split_and!|].
  destruct (producers s !! p) as [pc|] eqn:Ep; [|done].
  destruct (reaches_publish _ _ _ _ Hi Hf Ep Hp) as (s1 & first & vs & i & H1 & Eu).
  destruct (advanced_inv _ _ _ _ _ Hi H1) as (last1 & Hi1). assert (Hp1 : producers s1 !! p = Some (PPublish first vs i)) by apply H1.
  pose proof (advanced_one p _ s1 (publish_slot (sequencer s1) (first + Z.of_nat i)) (ring s1) (S_publish s1 p first vs i Hp1) eq_refl) as H2.
  pose proof (advanced_trans _ _ _ _ _ _ H1 H2) as H3. destruct (advanced_inv _ _ _ _ _ Hi H3) as (last3 & Hi3).
  destruct H3 as (R & Ec & Eco & Ecs & E3 & Eo). set (s3 := set_producer _ p _) in *. exists s3, last3. split_and!; try done.
  - intros p' f' vs' Hp'. destruct (decide (p = p')) as [<-|Hn]; [rewrite E3 in Hp'; by destruct (_ =? _)%nat|].
    rewrite Eo in Hp' by done. by eapply Hf.
  - pose proof (i_claims _ _ _ Hi3). pose proof (i_claims _ _ _ Hi). rewrite Ec in *.
    destruct (i_cover _ _ _ Hi3 u) as [|(p' & Hp')]; [lia|done|]. exfalso. destruct (decide (p = p')) as [<-|Hn].
    + rewrite E3 in Hp'. destruct (_ =? _)%nat; cbn in Hp'; lia.
    + rewrite Eo in Hp' by done. apply (i_disjoint _ _ _ Hi p p' u Hn); [by rewrite Ep|done].
Qed.

(** *** The consumer *)
Definition taken s s' : Prop :=
  rtc step s s' /\ claims s' = claims s /\ producers s' = producers s /\
  consumed_sequence (sequencer s') = consumed_sequence (sequencer s) + 1.

Lemma taken_after s s1 s2 :
  step s s1 -> claims s1 = claims s -> producers s1 = producers s ->
  consumed_sequence (sequencer s1) = consumed_sequence (sequencer s) -> taken s1 s2 -> taken s s2.
Proof. intros Hs E1 E2 E3 (R & F1 & F2 & F3). split_and!; try congruence. by eapply rtc_l. Qed.

Lemma take_takes s last seq : inv k s last -> consumer s = CTake seq -> exists s', taken s s'.
Proof.
  intros Hi Hc. pose proof (i_consumer _ _ _ Hi) as Ho. unfold consumer_ok in Ho. rewrite Hc in Ho. destruct Ho as [-> Hpub].
  destruct (published_window k Hk _ _ _ Hi Hpub). pose proof (i_consumed _ _ _ Hi).
  destruct (lookup_lt_is_Some_2 (ring s) (slot_of s (consumed_sequence (sequencer s) + 1))) as [x Hx].
  { rewrite (cell_of k Hk _ _ _ Hi), (i_ring _ _ _ Hi) by lia. pose proof (mod_range k Hk (consumed_sequence (sequencer s) + 1)). lia. }
  set (seq := consumed_sequence (sequencer s) + 1) in *. exists (release (take_out s seq x) seq x).
  eapply taken_after; [exact (S_take s _ x Hc Hx)|done..|]. split_and!; [by apply rtc_once, S_release|done..].
Qed.

Lemma scanned_takes s last seq pos limit pub :
  inv k s last -> consumer s = CScan seq pos limit -> step s (scanned s seq pub) -> seq <= pub < pos -> exists s', taken s s'.
Proof.
  intros Hi Hc Hs Hp. pose proof (scanned_inv k _ _ _ _ _ pub Hi Hc ltac:(lia)) as Hi'.
  unfold scanned in *. destruct (Z.ltb_spec pub seq); [lia|].
  destruct (take_takes _ _ seq Hi' eq_refl) as (s' & Ht). exists s'. by eapply taken_after.
Qed.

Lemma scan_takes s last seq pos limit :
  inv k s last -> consumer s = CScan seq pos limit -> last (seq mod cap) = seq -> exists s', taken s s'.
Proof.
  remember (Z.to_nat (limit + 1 - pos)) as n eqn:En. revert s pos En. induction n as [|n IH]; intros s pos En Hi Hc Hpub;
    pose proof (i_consumer _ _ _ Hi) as Ho; unfold consumer_ok in Ho; rewrite Hc in Ho; destruct Ho as (Es & Hpos & Hlim & Hpu);
    pose proof (i_consumed _ _ _ Hi).
  - eapply scanned_takes; [done|done|eapply S_scan_end; [done|lia]|lia].
  - destruct (is_available (sequencer s) pos) eqn:Ea.
    + pose proof (S_scan s _ _ _ Hc ltac:(lia) Ea) as Hs. pose proof (scan_inv k Hk _ _ _ _ _ Hi Hc ltac:(lia) Ea) as Hi'.
      destruct (IH (set_consumer s (CScan seq (pos + 1) limit)) (pos + 1) ltac:(lia) Hi' eq_refl Hpub) as (s' & Ht).
      exists s'. by eapply taken_after.
    + eapply scanned_takes; [done|done|eapply S_scan_gap; [done|lia|done]|]. split; [|lia].
      destruct (decide (pos = seq)) as [->|]; [|lia]. rewrite (available_published k Hk _ _ _ Hi) in Ea by (lia || by left).
      by rewrite bool_decide_true in Ea.
Qed.

Lemma wait_takes s last seq :
  inv k s last -> consumer s = CWait seq -> last (seq mod cap) = seq -> exists s', taken s s'.
Proof.
  intros Hi Hc Hpub. destruct (published_window k Hk _ _ _ Hi Hpub) as [_ Hcl].
  pose proof (wait_inv k _ _ _ Hi Hc Hcl) as Hi'. destruct (scan_takes _ _ _ _ _ Hi' eq_refl Hpub) as (s' & Ht).
  exists s'. eapply taken_after; [by apply (S_wait s seq)|done..].
Qed.

(** A published next position can be consumed from wherever the consumer is. *)
Lemma consumer_takes s last :
  inv k s last -> last ((consumed_sequence (sequencer s) + 1) mod cap) = consumed_sequence (sequencer s) + 1 ->
  exists s', taken s s'.
Proof.
  intros Hi Hpub. pose proof (i_consumer _ _ _ Hi) as Ho. unfold consumer_ok in Ho. destruct (consumer s) eqn:Hc.
  - pose proof (pull_inv k _ _ Hi Hc) as Hi'. assert (exists s', taken (pull s) s') as (s' & Ht).
    { unfold pull in *. destruct (_ <? _); [by eapply wait_takes|by eapply take_takes]. }
    exists s'. eapply taken_after; [by apply S_pull|done..].
  - subst. by eapply wait_takes.
  - destruct Ho as (-> & _). by eapply scan_takes.
  - by eapply take_takes.
  - destruct Ho as (-> & _). exists (release s (consumed_sequence (sequencer s) + 1) x). split_and!; [by apply rtc_once, S_release|done..].
Qed.

Lemma drains s last :
  inv k s last -> batches_fit cap s ->
  exists s' last', rtc step s s' /\ inv k s' last' /\ claims s' = claims s /\
    consumed_sequence (sequencer s') = claimed_sequence (sequencer s').
Proof.
  remember (Z.to_nat (claimed_sequence (sequencer s) - consumed_sequence (sequencer s))) as n eqn:En.
  revert s last En. induction n as [|n IH]; intros s last En Hi Hf; pose proof (consumed_claimed k Hk _ _ Hi).
  { exists s, last. split_and!; try done. lia. }
  destruct (publish_oldest _ _ Hi Hf) as (s1 & last1 & R1 & Hi1 & Hf1 & Ec1 & E1 & Hpub); [lia|]. rewrite <- E1 in Hpub.
  destruct (consumer_takes _ _ Hi1 Hpub) as (s2 & R2 & Ec2 & Ep2 & E2).
  pose proof (i_claims _ _ _ Hi). pose proof (i_bound _ _ _ Hi).
  destruct (steps_inv k Hk s1 s2 last1 Hi1) as (last2 & Hi2); [rewrite Ec2, Ec1; lia|done|].
  pose proof (i_claims _ _ _ Hi2) as Hl2. rewrite Ec2, Ec1 in Hl2.
  destruct (IH s2 last2) as (s3 & last3 & R3 & Hi3 & Ec3 & E3); [lia|done|intros p f vs; rewrite Ep2; apply Hf1|].
  exists s3, last3. split_and!; [by do 2 etrans|done|congruence|done].
Qed.
End progress.


(** ** Theorems *)
Section theorems.
Context {T : Type} (k : Z) (initial_value : T).
Notation cap := (2 ^ k).
Notation len l := (Z.of_nat (length l)).

(** C6. Items come out exactly once, whole, in the order their positions were claimed,
    however the steps of the producers and the consumer interleave: what was pulled
    is a prefix of what was claimed, one item per consumed position. *)
Theorem disruptor_fifo s :
  0 <= k <= 62 -> reachable initial_value cap s -> len (claims s) < 2 ^ 63 ->
  len (pulled s) = consumed_sequence (sequencer s) + 1 /\
  pulled s = Holds <$> take (length (pulled s)) (claims s) /\
  len (pulled s) <= len (claims s).
Proof.
  intros Hk Hr Hb. destruct (ring_reachable_inv k Hk _ _ Hr Hb) as (last & Hi). pose proof (consumed_claimed k Hk _ _ Hi).
  pose proof (i_consumed k _ _ Hi). pose proof (i_claims k _ _ Hi). pose proof (i_pulled k _ _ Hi) as Hp.
  assert (El : length (pulled s) = Z.to_nat (consumed_sequence (sequencer s) + 1)) by (rewrite Hp, length_fmap, length_take; lia).
  rewrite El. split_and!; [lia|done|lia].
Qed.

(** C7. No data race: whenever two threads are about to touch payload slots, destroying,
    constructing or moving out, the slots differ, also across rounds of the ring. *)
Theorem disruptor_race_free s p p' pc pc' u u' seq :
  0 <= k <= 62 -> reachable initial_value cap s -> len (claims s) < 2 ^ 63 ->
  producers s !! p = Some pc -> touches pc = Some u ->
  (p <> p' -> producers s !! p' = Some pc' -> touches pc' = Some u' -> slot_of s u <> slot_of s u') /\
  (consumer s = CTake seq -> slot_of s u <> slot_of s seq).
Proof.
  intros Hk Hr Hb Hp Ht. destruct (ring_reachable_inv k Hk _ _ Hr Hb) as (last & Hi).
  assert (Hown : forall p pc u, producers s !! p = Some pc -> touches pc = Some u -> granted pc = true /\ owns (producers s !! p) u).
  { intros q c w Hq Hw. pose proof (po_range _ _ _ _ (i_producers _ _ _ Hi _ _ Hq)) as Hran. rewrite Hq. 
    destruct c; try done; cbn in Hran, Hw; simplify_eq; cbn; split; (done || lia). }
  destruct (Hown _ _ _ Hp Ht) as [Hg Hu]. destruct (owner_ahead k Hk _ _ _ _ Hi Hu) as [Hu1 Hl].
  pose proof (i_consumed _ _ _ Hi) as Hc0. assert (Hwin := Hu). rewrite Hp in Hwin.
  apply (granted_window k Hk _ _ _ _ _ Hi Hp Hg) in Hwin. rewrite (cell_of k Hk _ _ _ Hi) by lia. split.
  - intros Hn Hp' Ht'. destruct (Hown _ _ _ Hp' Ht') as [Hg' Hu']. destruct (owner_ahead k Hk _ _ _ _ Hi Hu') as [Hu1' _].
    rewrite (cell_of k Hk _ _ _ Hi) by lia. assert (Hwin' := Hu'). rewrite Hp' in Hwin'.
    apply (granted_window k Hk _ _ _ _ _ Hi Hp' Hg') in Hwin'. apply (window_slots k Hk s); [done|done|]. intros <-.
    by apply (i_disjoint _ _ _ Hi p p' u Hn).
  - intros Hc. pose proof (i_consumer _ _ _ Hi) as Ho. unfold consumer_ok in Ho. rewrite Hc in Ho. destruct Ho as [-> Hpub].
    destruct (published_window k Hk _ _ _ Hi Hpub). rewrite (cell_of k Hk _ _ _ Hi) by lia. apply (window_slots k Hk s); [done|lia|].
    intros ->. lia.
Qed.

(** C23. No deadlock and nothing lost: from any reachable state in which no batch exceeds
    the ring, the threads can run, without claiming anything new, until the consumer
    has pulled every item that was claimed. *)
Theorem disruptor_drains s :
  0 <= k <= 62 -> reachable initial_value cap s -> len (claims s) < 2 ^ 63 -> batches_fit cap s ->
  exists s', rtc step s s' /\ claims s' = claims s /\ pulled s' = Holds <$> claims s.
Proof.
  intros Hk Hr Hb Hf. destruct (ring_reachable_inv k Hk _ _ Hr Hb) as (last & Hi).
  destruct (drains k Hk _ _ Hi Hf) as (s' & last' & R & Hi' & Ec & Es). exists s'. split_and!; [done|done|].
  rewrite (i_pulled _ _ _ Hi'), Es, Ec. pose proof (i_claims _ _ _ Hi') as Hl. rewrite Ec in Hl. rewrite take_ge; [done|lia].
Qed.

(** A batch larger than the ring is never granted: its producer waits for the
    consumer to pass positions that the producer itself has not published. *)
Theorem oversized_batch_starves s p first vs :
  0 <= k <= 62 -> reachable initial_value cap s -> len (claims s) < 2 ^ 63 ->
  producers s !! p = Some (PWait first vs) -> cap < len vs ->
  has_capacity (sequencer s) (first + len vs - 1) = false.
Proof.
  intros Hk Hr Hb Hp Hv. destruct (ring_reachable_inv k Hk _ _ Hr Hb) as (last & Hi). pose proof (cap_pos k Hk).
  destruct (owner_ahead k Hk s last p first Hi) as [Hu _]; [rewrite Hp; cbn; lia|].
  unfold has_capacity. rewrite (i_capacity _ _ _ Hi). lia.
Qed.
End theorems.

(** ** A run: one item published, two being written, the consumer about to take *)
Section run.
Let s1 : State nat := claim (initial 0%nat 4) 0 [7%nat].
Let s2 := set_producer s1 0 (Some (PFill 0 [7%nat] 0)).
Let s3 := destroy_at s2 0 0 [7%nat] 0.
Let s4 := construct_at s3 0 0 [7%nat] 0 7%nat.
Let s5 := publish s4 0 0 [7%nat] 0.
Let s6 := claim s5 1 [8%nat].
Let s7 := set_producer s6 1 (Some (PFill 1 [8%nat] 0)).
Let s8 := claim s7 2 [9%nat].
Let s9 := set_producer s8 2 (Some (PFill 2 [9%nat] 0)).
Let s10 := pull s9.
Let s11 := set_consumer s10 (CScan 0 0 2).
Let s12 := set_consumer s11 (CScan 0 1 2).

Definition busy : State nat := scanned s12 0 0.

Lemma ring_busy_reachable : reachable 0%nat (2 ^ 2) busy.
Proof.
  apply (rtc_l _ _ s1); [by apply S_claim|]. apply (rtc_l _ _ s2); [by apply S_capacity|].
  apply (rtc_l _ _ s3); [by apply S_destroy|]. apply (rtc_l _ _ s4); [by apply S_construct|].
  apply (rtc_l _ _ s5); [by apply S_publish|]. apply (rtc_l _ _ s6); [by apply S_claim|].
  apply (rtc_l _ _ s7); [by apply S_capacity|]. apply (rtc_l _ _ s8); [by apply S_claim|].
  apply (rtc_l _ _ s9); [by apply S_capacity|]. apply (rtc_l _ _ s10); [by apply S_pull|].
  apply (rtc_l _ _ s11); [by apply (S_wait s10 0)|]. apply (rtc_l _ _ s12); [by apply (S_scan s11 0 0 2)|].
  apply rtc_once. by apply (S_scan_gap s12 0 1 2).
Qed.
End run.

Lemma disruptor_fifo_witness : pulled busy = Holds <$> take (length (pulled busy)) (claims busy).
Proof. by apply (disruptor_fifo 2 0%nat busy); [|apply ring_busy_reachable|]. Defined.

Lemma disruptor_race_free_witness :
  touches (PFill 1 [8%nat] 0) = Some 1 /\ slot_of busy 1 <> slot_of busy 2 /\ slot_of busy 1 <> slot_of busy 0.
Proof.
  split; [done|].
  pose proof (disruptor_race_free 2 0%nat busy 1 2 (PFill 1 [8%nat] 0) (PFill 2 [9%nat] 0) 1 2 0 ltac:(done) ring_busy_reachable
    ltac:(done) eq_refl eq_refl) as [H1 H2].
  split; [by apply H1|by apply H2].
Defined.

Lemma disruptor_drains_witness : exists s', rtc step busy s' /\ pulled s' = [Holds 7%nat; Holds 8%nat; Holds 9%nat].
Proof.
  destruct (disruptor_drains 2 0%nat busy) as (s' & R & _ & E); try apply ring_busy_reachable; try done.
  - intros p first vs Hp. destruct (decide (p = 1%nat)) as [->|]; [done|]. destruct (decide (p = 2%nat)) as [->|]; [done|].
    destruct (decide (p = 0%nat)) as [->|]; [done|]. exfalso. revert Hp. cbn. 
    rewrite !lookup_partial_alter_ne by done. by rewrite lookup_empty.
  - exists s'. split; [done|exact E].
Defined.

Lemma oversized_batch_starves_witness :
  has_capacity (sequencer (claim (initial 0%nat 2) 0 [1; 2; 3]%nat)) 2 = false.
Proof.
  apply (oversized_batch_starves 1 0%nat (claim (initial 0%nat 2) 0 [1; 2; 3]%nat) 0 0 [1; 2; 3]%nat); try done.
  apply rtc_once. by apply S_claim.
Defined.
