(* ===== verification/RingBuffers.v ===== *)
(** * concurrency-starling: the ring buffers as storage

    [RingBuffer] and [StaticRingBuffer] (disruptor/ring_buffer): sizes, the index computation on
    any 64-bit sequence, reads and writes through references. The protocol that decides who may
    access which element is Disruptor.v. *)

From S2P Require Import Prelude Disruptor.

#[local] Open Scope Z_scope.

(** [std::has_single_bit] *)
Definition has_single_bit (n : Z) : bool := (0 <? n) && (Z.land n (n - 1) =? 0).

Section ring.
Context {T : Type}.

Record RingBuffer := { buffer_size_ : Z; index_mask_ : Z; buffer_ : list T }.

(** The constructor asserts its size; [None] is the failed assertion. [init] is [T{}]. *)
Definition ring_buffer (init : T) (size : Z) : option RingBuffer :=
  if negb (size =? 0) && has_single_bit size
  then Some {| buffer_size_ := size; index_mask_ := size - 1; buffer_ := replicate (Z.to_nat size) init |}
  else None.

Definition ring_index (b : RingBuffer) (sequence : Z) : nat := Z.to_nat (Z.land (to_size sequence) (index_mask_ b)).
(** Reading and assigning through the reference [get] returns; [None] would be out of range. *)
Definition ring_get (b : RingBuffer) (sequence : Z) : option T := buffer_ b !! ring_index b sequence.
Definition ring_set (b : RingBuffer) (sequence : Z) (v : T) : RingBuffer :=
  {| buffer_size_ := buffer_size_ b; index_mask_ := index_mask_ b; buffer_ := <[ring_index b sequence := v]> (buffer_ b) |}.
Definition ring_capacity (b : RingBuffer) : Z := buffer_size_ b.
Definition ring_storage (b : RingBuffer) : list T := buffer_ b.

(** [StaticRingBuffer<T, BufferSize>]: the size is part of the type; [None]: it does not compile. *)
Definition INDEX_MASK (BufferSize : Z) : Z := BufferSize - 1.
Definition static_ring_buffer (init : T) (BufferSize : Z) : option (list T) :=
  if has_single_bit BufferSize then Some (replicate (Z.to_nat BufferSize) init) else None.
Definition static_index (BufferSize sequence : Z) : nat := Z.to_nat (Z.land (to_size sequence) (INDEX_MASK BufferSize)).
Definition static_get (BufferSize : Z) (buffer : list T) (sequence : Z) : option T := buffer !! static_index BufferSize sequence.
Definition static_set (BufferSize : Z) (buffer : list T) (sequence : Z) (v : T) : list T := <[static_index BufferSize sequence := v]> buffer.
Definition static_capacity (BufferSize : Z) : Z := BufferSize.
Definition is_valid_sequence (sequence : Z) : bool := true.

(** ** Theorems *)

(** The bit test accepts exactly the powers of two. *)
Theorem has_single_bit_spec n : has_single_bit n = true <-> exists k, 0 <= k /\ n = 2 ^ k.
Proof.
  unfold has_single_bit. rewrite andb_true_iff, Z.ltb_lt, Z.eqb_eq. split.
  - intros [Hn HL]. exists (Z.log2 n). split; [apply Z.log2_nonneg|]. destruct (Z.log2_spec n Hn) as [H1 H2].
    destruct (decide (n = 2 ^ Z.log2 n)) as [|Hne]; [done|]. exfalso.
    assert (E : Z.log2 (n - 1) = Z.log2 n) by (apply Z.log2_unique; [apply Z.log2_nonneg|lia]).
    assert (Hb : Z.testbit (Z.land n (n - 1)) (Z.log2 n) = true).
    { rewrite Z.land_spec, (Z.bit_log2 n Hn). rewrite <- E at 1. apply Z.bit_log2.
      pose proof (Z.pow_pos_nonneg 2 (Z.log2 n) ltac:(lia) (Z.log2_nonneg n)). lia. }
    rewrite HL, Z.testbit_0_l in Hb. done.
  - intros (k & Hk & ->). pose proof (Z.pow_pos_nonneg 2 k ltac:(lia) Hk). split; [lia|].
    rewrite Z.sub_1_r, <- Z.ones_equiv. rewrite Z.land_ones by done. apply Z.mod_same. lia.
Qed.

(** What the constructor establishes and writes keep. *)
Definition ring_ok (k : Z) (b : RingBuffer) : Prop :=
  0 <= k <= 63 /\ buffer_size_ b = 2 ^ k /\ index_mask_ b = 2 ^ k - 1 /\ Z.of_nat (length (buffer_ b)) = 2 ^ k.

Lemma ring_buffer_ok init size b : size < 2 ^ 64 -> ring_buffer init size = Some b -> exists k, ring_ok k b.
Proof.
  unfold ring_buffer. intros Hs. destruct (negb _); [|done]. cbn. destruct (has_single_bit size) eqn:E; [|done]. intros [= <-].
  apply has_single_bit_spec in E as (k & Hk & ->). exists k. assert (k < 64) by (apply (Z.pow_lt_mono_r_iff 2); lia).
  repeat split; cbn; try lia. rewrite length_replicate. pose proof (Z.pow_nonneg 2 k). lia.
Qed.

Lemma ring_set_ok k b sequence v : ring_ok k b -> ring_ok k (ring_set b sequence v).
Proof. intros (H1 & H2 & H3 & H4). repeat split; cbn; try done; try lia. by rewrite length_insert. Qed.

(** The mask is the remainder, for negative sequences too: [static_cast<std::size_t>] keeps it. *)
Lemma mask_mod k sequence : 0 <= k <= 63 -> Z.land (to_size sequence) (2 ^ k - 1) = sequence mod 2 ^ k.
Proof.
  intros Hk. rewrite Z.sub_1_r, <- Z.ones_equiv, Z.land_ones by lia. unfold to_size.
  replace (2 ^ 64) with (2 ^ k * 2 ^ (64 - k)) by (rewrite <- Z.pow_add_r by lia; f_equal; lia).
  rewrite Z.rem_mul_r by (apply Z.pow_nonzero || apply Z.pow_pos_nonneg; lia).
  rewrite Z.mul_comm, Z.mod_add by (apply Z.pow_nonzero; lia). apply Z.mod_mod, Z.pow_nonzero; lia.
Qed.

Lemma ring_index_mod k b sequence : ring_ok k b -> Z.of_nat (ring_index b sequence) = sequence mod 2 ^ k.
Proof.
  intros (H1 & _ & H3 & _). unfold ring_index. rewrite H3, mask_mod by done.
  pose proof (Z.mod_pos_bound sequence (2 ^ k) (Z.pow_pos_nonneg 2 k ltac:(lia) ltac:(lia))). lia.
Qed.

(** No sequence is out of range; a write is seen through exactly the sequences that differ from
    it by a multiple of the size. *)
Theorem ring_laws k b sequence sequence' v :
  ring_ok k b ->
  is_Some (ring_get b sequence) /\
  ring_get (ring_set b sequence v) sequence' = (if sequence mod 2 ^ k =? sequence' mod 2 ^ k then Some v else ring_get b sequence').
Proof.
  intros HO. pose proof (ring_index_mod k b sequence HO) as H1. pose proof (ring_index_mod k b sequence' HO) as H2.
  assert (HL : forall q, (ring_index b q < length (buffer_ b))%nat).
  { intros q. pose proof (ring_index_mod k b q HO). destruct HO as (Hk & _ & _ & HN).
    pose proof (Z.mod_pos_bound q (2 ^ k) (Z.pow_pos_nonneg 2 k ltac:(lia) ltac:(lia))). lia. }
  split; [by apply lookup_lt_is_Some|]. unfold ring_get. change (ring_index (ring_set b sequence v) sequence') with (ring_index b sequence').
  cbn. destruct (Z.eqb_spec (sequence mod 2 ^ k) (sequence' mod 2 ^ k)) as [E|E].
  - replace (ring_index b sequence') with (ring_index b sequence) by lia. by apply list_lookup_insert_eq.
  - apply list_lookup_insert_ne. lia.
Qed.

(** As many consecutive sequences as the buffer holds have an element each. *)
Theorem ring_window_distinct k b lo i j :
  ring_ok k b -> lo <= i < lo + 2 ^ k -> lo <= j < lo + 2 ^ k -> ring_index b i = ring_index b j -> i = j.
Proof.
  intros HO Hi Hj E. pose proof (ring_index_mod k b i HO) as H1. pose proof (ring_index_mod k b j HO) as H2. rewrite E in H1.
  assert (HP : 0 < 2 ^ k) by (apply Z.pow_pos_nonneg; destruct HO; lia).
  pose proof (Z.div_mod i (2 ^ k)). pose proof (Z.div_mod j (2 ^ k)). assert (i / 2 ^ k = j / 2 ^ k); nia.
Qed.

(** The buffer sized by its type and the one sized at run time hold the same elements. *)
Theorem static_ring_equivalent init size b :
  ring_buffer init size = Some b -> static_ring_buffer init size = Some (buffer_ b) /\
  forall buffer sequence v, buffer = buffer_ b ->
    static_get size buffer sequence = ring_get b sequence /\ static_set size buffer sequence v = buffer_ (ring_set b sequence v).
Proof.
  unfold ring_buffer, static_ring_buffer. destruct (negb _); [|done]. cbn. destruct (has_single_bit size); [|done]. intros [= <-].
  split; [done|]. by intros buffer sequence v ->.
Qed.
End ring.

(** The sequence before the first, -1, is the last element. *)
Example ring_negative : forall b, ring_buffer 0 8 = Some b -> ring_get (ring_set b 7 5) (-1) = Some 5.
Proof. intros b [= <-]. reflexivity. Qed.

Example ring_sizes : has_single_bit 1024 = true /\ has_single_bit 1000 = false /\ INDEX_MASK 1024 = 1023.
Proof. done. Qed.

Lemma ring_laws_witness : exists b, ring_buffer 0 8 = Some b /\ is_Some (ring_get b (-3)) /\
  ring_get (ring_set b (-3) 9) 13 = (if (-3) mod 2 ^ 3 =? 13 mod 2 ^ 3 then Some 9 else ring_get b 13).
Proof. eexists. split; [reflexivity|]. apply (ring_laws 3). repeat split; try done. Defined.
