(* ===== verification/Spsc.v ===== *)
(** * The single-producer fast path of the disruptor

    [SingleProducerSequencer]: no read-modify-write and no per-slot generations, one
    release store publishes a whole block, and the producer remembers how far it may
    claim without reading the consumer's position again. One producer and one
    consumer interleave at their shared accesses; the producer-private counters move
    with the access that precedes them. *)

From S2P Require Import Prelude Disruptor.

Local Open Scope Z_scope.

Record SingleProducer := {
  sp_published : Z;
  sp_consumed : Z;
  sp_claimed : Z;
  cached_capacity_limit : Z;
  sp_capacity : Z
}.

Definition single_producer (buffer_size : Z) : SingleProducer :=
  {| sp_published := -1; sp_consumed := -1; sp_claimed := -1; cached_capacity_limit := wrap_int64 (buffer_size - 1);
     sp_capacity := buffer_size |}.

Definition sp_set_claimed (q : SingleProducer) (z : Z) : SingleProducer :=
  {| sp_published := sp_published q; sp_consumed := sp_consumed q; sp_claimed := z;
     cached_capacity_limit := cached_capacity_limit q; sp_capacity := sp_capacity q |}.

(** The limit computed from a consumed position, in unsigned arithmetic. *)
Definition capacity_limit (q : SingleProducer) (consumed : Z) : Z :=
  Z.min (to_size (to_size consumed + sp_capacity q)) (2 ^ 63 - 1).

(** [wait_for_capacity]: [None] while it spins. *)
Definition sp_wait_for_capacity (q : SingleProducer) (sequence : Z) : option SingleProducer :=
  if cached_capacity_limit q <? sequence then
    if sp_consumed q <? sequence - sp_capacity q then None
    else Some {| sp_published := sp_published q; sp_consumed := sp_consumed q; sp_claimed := sp_claimed q;
                 cached_capacity_limit := capacity_limit q (sp_consumed q); sp_capacity := sp_capacity q |}
  else Some q.

(** [next_batch]; [next] claims one. The first position, and the sequencer. *)
Definition sp_next_batch (q : SingleProducer) (count : Z) : option (Z * SingleProducer) :=
  let last := sp_claimed q + count in
  q' ← sp_wait_for_capacity q last; Some (sp_claimed q + 1, sp_set_claimed q' last).

(** [try_next] reads the consumer's position and ignores the cached limit. *)
Definition sp_try_next (q : SingleProducer) : Z * SingleProducer :=
  let next := sp_claimed q + 1 in
  if sp_consumed q <? next - sp_capacity q then (-1, q) else (next, sp_set_claimed q next).

Definition sp_publish (q : SingleProducer) (sequence : Z) : SingleProducer :=
  {| sp_published := sequence; sp_consumed := sp_consumed q; sp_claimed := sp_claimed q;
     cached_capacity_limit := cached_capacity_limit q; sp_capacity := sp_capacity q |}.

Definition sp_consume (q : SingleProducer) (sequence : Z) : SingleProducer :=
  {| sp_published := sp_published q; sp_consumed := sequence; sp_claimed := sp_claimed q;
     cached_capacity_limit := cached_capacity_limit q; sp_capacity := sp_capacity q |}.

Definition sp_is_available (q : SingleProducer) (sequence : Z) : bool := sequence <=? sp_published q.
Definition sp_remaining_capacity (q : SingleProducer) : Z := sp_capacity q - (sp_published q - sp_consumed q).
Definition sp_approx_size (q : SingleProducer) : Z := sp_published q - sp_consumed q.

(** ** The two threads *)
Inductive SpProducer (T : Type) :=
| SpIdle
| SpFill (first : Z) (vs : list T) (i : nat)
| SpConstruct (first : Z) (vs : list T) (i : nat)
| SpPublish (first : Z) (vs : list T).
Arguments SpIdle {T}.
Arguments SpFill {T} first vs i.
Arguments SpConstruct {T} first vs i.
Arguments SpPublish {T} first vs.

Inductive SpConsumer (T : Type) :=
| ScIdle
| ScWait (sequence : Z)
| ScTake (sequence : Z)
| ScRelease (sequence : Z) (x : Slot T).
Arguments ScIdle {T}.
Arguments ScWait {T} sequence.
Arguments ScTake {T} sequence.
Arguments ScRelease {T} sequence x.

Record SpState (T : Type) := {
  sp_sequencer : SingleProducer;
  sp_ring : list (Slot T);
  sp_producer : SpProducer T;
  sp_consumer : SpConsumer T;
  sp_cached : Z;
  sp_claims : list T;
  sp_pulled : list (Slot T)
}.
Arguments sp_sequencer {T} _.
Arguments sp_ring {T} _.
Arguments sp_producer {T} _.
Arguments sp_consumer {T} _.
Arguments sp_cached {T} _.
Arguments sp_claims {T} _.
Arguments sp_pulled {T} _.

Section system.
Context {T : Type} (initial_value : T).

Definition sp_initial (buffer_size : Z) : SpState T :=
  {| sp_sequencer := single_producer buffer_size; sp_ring := replicate (Z.to_nat buffer_size) (Holds initial_value);
     sp_producer := SpIdle; sp_consumer := ScIdle; sp_cached := -1; sp_claims := []; sp_pulled := [] |}.

(** A successful claim of [vs] from [first]. *)
Definition sp_claim (s : SpState T) (first : Z) (q : SingleProducer) (vs : list T) : SpState T :=
  {| sp_sequencer := q; sp_ring := sp_ring s; sp_producer := SpFill first vs 0; sp_consumer := sp_consumer s;
     sp_cached := sp_cached s; sp_claims := sp_claims s ++ vs; sp_pulled := sp_pulled s |}.

Definition sp_write (s : SpState T) (sequence : Z) (x : Slot T) (pc : SpProducer T) : SpState T :=
  {| sp_sequencer := sp_sequencer s; sp_ring := <[slot_index (sp_capacity (sp_sequencer s)) sequence := x]> (sp_ring s);
     sp_producer := pc; sp_consumer := sp_consumer s; sp_cached := sp_cached s; sp_claims := sp_claims s; sp_pulled := sp_pulled s |}.

Definition sp_publish_batch (s : SpState T) (hi : Z) : SpState T :=
  {| sp_sequencer := sp_publish (sp_sequencer s) hi; sp_ring := sp_ring s; sp_producer := SpIdle; sp_consumer := sp_consumer s;
     sp_cached := sp_cached s; sp_claims := sp_claims s; sp_pulled := sp_pulled s |}.

Definition sp_set_consumer (s : SpState T) (c : SpConsumer T) (cached : Z) : SpState T :=
  {| sp_sequencer := sp_sequencer s; sp_ring := sp_ring s; sp_producer := sp_producer s; sp_consumer := c;
     sp_cached := cached; sp_claims := sp_claims s; sp_pulled := sp_pulled s |}.

Definition sp_pull (s : SpState T) : SpState T :=
  let sequence := sp_consumed (sp_sequencer s) + 1 in
  sp_set_consumer s (if sp_cached s <? sequence then ScWait sequence else ScTake sequence) (sp_cached s).

Definition sp_take (s : SpState T) (sequence : Z) (x : Slot T) : SpState T :=
  {| sp_sequencer := sp_sequencer s; sp_ring := <[slot_index (sp_capacity (sp_sequencer s)) sequence := MovedFrom]> (sp_ring s);
     sp_producer := sp_producer s; sp_consumer := ScRelease sequence x; sp_cached := sp_cached s; sp_claims := sp_claims s;
     sp_pulled := sp_pulled s |}.

Definition sp_release (s : SpState T) (sequence : Z) (x : Slot T) : SpState T :=
  {| sp_sequencer := sp_consume (sp_sequencer s) sequence; sp_ring := sp_ring s; sp_producer := sp_producer s;
     sp_consumer := ScIdle; sp_cached := sp_cached s; sp_claims := sp_claims s; sp_pulled := sp_pulled s ++ [x] |}.

Inductive sp_step (s : SpState T) : SpState T -> Prop :=
| Sp_claim vs first q :
    sp_producer s = SpIdle -> vs <> [] -> sp_next_batch (sp_sequencer s) (Z.of_nat (length vs)) = Some (first, q) ->
    sp_step s (sp_claim s first q vs)
| Sp_try_next v first q :
    sp_producer s = SpIdle -> sp_try_next (sp_sequencer s) = (first, q) -> first <> -1 -> sp_step s (sp_claim s first q [v])
| Sp_destroy first vs i :
    sp_producer s = SpFill first vs i -> sp_step s (sp_write s (first + Z.of_nat i) Destroyed (SpConstruct first vs i))
| Sp_construct first vs i v :
    sp_producer s = SpConstruct first vs i -> vs !! i = Some v ->
    sp_step s (sp_write s (first + Z.of_nat i) (Holds v)
                 (if (S i =? length vs)%nat then SpPublish first vs else SpFill first vs (S i)))
| Sp_publish first vs :
    sp_producer s = SpPublish first vs -> sp_step s (sp_publish_batch s (first + Z.of_nat (length vs) - 1))
| Sp_pull : sp_consumer s = ScIdle -> sp_step s (sp_pull s)
| Sp_wait sequence :
    sp_consumer s = ScWait sequence -> sequence <= sp_published (sp_sequencer s) ->
    sp_step s (sp_set_consumer s (ScTake sequence) (sp_published (sp_sequencer s)))
| Sp_take sequence x :
    sp_consumer s = ScTake sequence -> sp_ring s !! slot_index (sp_capacity (sp_sequencer s)) sequence = Some x ->
    sp_step s (sp_take s sequence x)
| Sp_release sequence x : sp_consumer s = ScRelease sequence x -> sp_step s (sp_release s sequence x).

Definition sp_reachable (buffer_size : Z) (s : SpState T) : Prop := rtc sp_step (sp_initial buffer_size) s.

Definition sp_touches (pc : SpProducer T) : option Z :=
  match pc with SpFill first _ i | SpConstruct first _ i => Some (first + Z.of_nat i) | _ => None end.
End system.

(** ** The invariant *)
Section invariant.
Context {T : Type} (k : Z) (Hk : 0 <= k <= 62).
Notation cap := (2 ^ k).
Notation len l := (Z.of_nat (length l)).
Notation cell u := (Z.to_nat (u mod cap)).
Notation published s := (sp_published (sp_sequencer s)).
Notation consumed s := (sp_consumed (sp_sequencer s)).
Notation claimed s := (sp_claimed (sp_sequencer s)).
Implicit Types s : SpState T.

(** The block being written lies between the published and the claimed position. *)
Definition sp_block s (first : Z) (vs : list T) (i : nat) : Prop :=
  first = published s + 1 /\ first + len vs = claimed s + 1 /\
  (forall j v, vs !! j = Some v -> sp_claims s !! (Z.to_nat first + j)%nat = Some v) /\
  forall u v, first <= u < first + Z.of_nat i -> sp_claims s !! Z.to_nat u = Some v -> sp_ring s !! cell u = Some (Holds v).

Definition sp_producer_ok s : Prop :=
  match sp_producer s with
  | SpIdle => claimed s = published s
  | SpFill first vs i | SpConstruct first vs i => (i < length vs)%nat /\ sp_block s first vs i
  | SpPublish first vs => sp_block s first vs (length vs)
  end.

Definition sp_consumer_ok s : Prop :=
  match sp_consumer s with
  | ScIdle => True
  | ScWait sequence => sequence = consumed s + 1
  | ScTake sequence => sequence = consumed s + 1 /\ sequence <= published s
  | ScRelease sequence x =>
      sequence = consumed s + 1 /\ sequence <= published s /\ exists v, sp_claims s !! Z.to_nat sequence = Some v /\ x = Holds v
  end.

Definition sp_content (c : SpConsumer T) (u : Z) (v : T) : Slot T :=
  match c with ScRelease sequence _ => if sequence =? u then MovedFrom else Holds v | _ => Holds v end.

Record sp_inv s : Prop := {
  si_capacity : sp_capacity (sp_sequencer s) = cap;
  si_ring : length (sp_ring s) = Z.to_nat cap;
  si_claims : len (sp_claims s) = claimed s + 1;
  si_order : -1 <= consumed s <= published s /\ published s <= claimed s;
  si_window : claimed s <= consumed s + cap;
  si_bound : claimed s < 2 ^ 63 - 1;
  si_limit : cached_capacity_limit (sp_sequencer s) <= consumed s + cap;
  si_producer : sp_producer_ok s;
  si_data u v : consumed s < u <= published s -> sp_claims s !! Z.to_nat u = Some v ->
    sp_ring s !! cell u = Some (sp_content (sp_consumer s) u v);
  si_consumer : sp_consumer_ok s;
  si_cached : sp_cached s <= published s;
  si_pulled : sp_pulled s = Holds <$> take (Z.to_nat (consumed s + 1)) (sp_claims s)
}.

Lemma sp_slots s u u' :
  consumed s < u <= consumed s + cap -> consumed s < u' <= consumed s + cap -> u <> u' -> cell u <> cell u'.
Proof. intros Hu Hu' Hn E. apply (same_slot_nat k Hk), (same_slot k Hk) in E; lia. Qed.

Lemma sp_cell s u : sp_inv s -> 0 <= u < 2 ^ 63 -> slot_index (sp_capacity (sp_sequencer s)) u = cell u.
Proof. intros Hi Hu. rewrite (si_capacity _ Hi). by apply slot_index_mod. Qed.

(** The remembered limit never exceeds what the consumer has released. *)
Lemma capacity_limit_spec (q : SingleProducer) :
  sp_capacity q = cap -> -1 <= sp_consumed q < 2 ^ 63 -> capacity_limit q (sp_consumed q) <= sp_consumed q + cap.
Proof.
  intros Hq Hc. unfold capacity_limit, to_size. rewrite Hq. pose proof (cap_pos k Hk).
  assert (Hcap : cap <= 2 ^ 62) by (apply Z.pow_le_mono_r; lia).
  rewrite Z.add_mod_idemp_l by lia. rewrite Z.mod_small by lia. lia.
Qed.

(** A claim that returns fits the ring, from the cached limit or a fresh look. *)
Lemma sp_next_batch_spec s n first q :
  sp_inv s -> 0 < n -> sp_next_batch (sp_sequencer s) n = Some (first, q) ->
  first = claimed s + 1 /\ sp_published q = published s /\ sp_consumed q = consumed s /\ sp_claimed q = claimed s + n /\
  sp_capacity q = cap /\ claimed s + n <= consumed s + cap /\ cached_capacity_limit q <= consumed s + cap.
Proof.
  intros Hi Hn. unfold sp_next_batch, sp_wait_for_capacity. pose proof (si_limit _ Hi). pose proof (si_order _ Hi). pose proof (si_bound _ Hi).
  pose proof (capacity_limit_spec (sp_sequencer s) (si_capacity _ Hi) ltac:(lia)). pose proof (si_capacity _ Hi) as Ec.
  destruct (Z.ltb_spec (cached_capacity_limit (sp_sequencer s)) (claimed s + n)).
  - destruct (Z.ltb_spec (consumed s) (claimed s + n - sp_capacity (sp_sequencer s))); [done|]. intros [= <- <-]. cbn. split_and!; try done; lia.
  - intros [= <- <-]. cbn. split_and!; try done; lia.
Qed.

Lemma sp_claim_inv s first q vs :
  sp_inv s -> sp_producer s = SpIdle -> vs <> [] -> claimed s + len vs < 2 ^ 63 - 1 ->
  first = claimed s + 1 -> sp_published q = published s -> sp_consumed q = consumed s -> sp_claimed q = claimed s + len vs ->
  sp_capacity q = cap -> claimed s + len vs <= consumed s + cap -> cached_capacity_limit q <= consumed s + cap ->
  sp_inv (sp_claim s first q vs).
Proof.
  intros Hi Hp Hvs Hb -> E1 E2 E3 E4 Hw Hl. pose proof (si_claims _ Hi). pose proof (si_order _ Hi).
  pose proof Hi as []. unfold sp_producer_ok in si_producer0. rewrite Hp in si_producer0.
  split; cbn; rewrite ?E1, ?E2, ?E3, ?E4; try done; try lia.
  - rewrite length_app. lia.
  - split; [destruct vs; [done|cbn; lia]|]. unfold sp_block. cbn. rewrite E1, E3. split_and!; [lia|lia| |intros u v; lia].
    intros j v Hv. rewrite lookup_app_r by lia. rewrite <- Hv. f_equal. lia.
  - intros u v Hu Hv. apply si_data0; [done|]. rewrite lookup_app_l in Hv by lia. done.
  - unfold sp_consumer_ok in *. cbn. rewrite E1, E2. destruct (sp_consumer s); try done.
    destruct si_consumer0 as (? & ? & v & Hv & ->). split_and!; try done. exists v. split; [by apply lookup_app_l_Some|done].
  - rewrite si_pulled0, take_app_le by lia. done.
Qed.

(** Writing a claimed, unpublished slot disturbs nothing published. *)
Lemma sp_write_data s u x :
  sp_inv s -> published s < u <= claimed s ->
  forall u' y, consumed s < u' <= claimed s -> u' <> u -> sp_ring s !! cell u' = y -> <[cell u := x]> (sp_ring s) !! cell u' = y.
Proof.
  intros Hi Hu u' y Hu' Hn <-. pose proof (si_order _ Hi). pose proof (si_window _ Hi).
  apply list_lookup_insert_ne, (sp_slots s); lia.
Qed.

Lemma sp_insert s u x : sp_inv s -> <[cell u := x]> (sp_ring s) !! cell u = Some x.
Proof. intros Hi. apply list_lookup_insert_eq. rewrite (si_ring _ Hi). pose proof (mod_range k Hk u). lia. Qed.

Lemma sp_write_inv s u x pc :
  sp_inv s -> published s < u <= claimed s -> sp_producer_ok (sp_write s u x pc) -> sp_inv (sp_write s u x pc).
Proof.
  intros Hi Hu Hok. pose proof (sp_write_data s u x Hi Hu) as Hne. pose proof (si_order _ Hi). pose proof (si_bound _ Hi).
  pose proof Hi as []. split; try done; cbn.
  - by rewrite length_insert.
  - intros u' v Hu' Hv. rewrite (sp_cell _ _ Hi) by lia. apply Hne; [lia|lia|]. by apply si_data0.
Qed.

Lemma sp_destroy_inv s first vs i :
  sp_inv s -> sp_producer s = SpFill first vs i -> sp_inv (sp_write s (first + Z.of_nat i) Destroyed (SpConstruct first vs i)).
Proof.
  intros Hi Hp. pose proof (si_producer _ Hi) as Ho. unfold sp_producer_ok in Ho. rewrite Hp in Ho.
  destruct Ho as (Hlt & E1 & E2 & Hvs & Hw). pose proof (si_bound _ Hi). pose proof (si_order _ Hi).
  apply sp_write_inv; [done|lia|]. unfold sp_producer_ok. cbn. split; [done|]. split_and!; try done. cbn. intros u v Hu Hv.
  rewrite (sp_cell _ _ Hi) by lia. apply (sp_write_data s); try done; try lia. by apply Hw.
Qed.

Lemma sp_construct_inv s first vs i v :
  sp_inv s -> sp_producer s = SpConstruct first vs i -> vs !! i = Some v ->
  sp_inv (sp_write s (first + Z.of_nat i) (Holds v) (if (S i =? length vs)%nat then SpPublish first vs else SpFill first vs (S i))).
Proof.
  intros Hi Hp Hv. pose proof (si_producer _ Hi) as Ho. unfold sp_producer_ok in Ho. rewrite Hp in Ho.
  destruct Ho as (Hlt & E1 & E2 & Hvs & Hw). pose proof (si_bound _ Hi). pose proof (si_order _ Hi).
  apply sp_write_inv; [done|lia|].
  assert (Hb : forall pc, sp_block (sp_write s (first + Z.of_nat i) (Holds v) pc) first vs (S i)).
  { intros pc. split_and!; try done. cbn -[Z.of_nat]. intros u v' Hu Hv'. rewrite (sp_cell _ _ Hi) by lia.
    destruct (decide (u = first + Z.of_nat i)) as [->|Hn].
    - rewrite (sp_insert _ _ _ Hi). specialize (Hvs _ _ Hv).
      replace (Z.to_nat (first + Z.of_nat i)) with (Z.to_nat first + i)%nat in Hv' by lia. congruence.
    - apply (sp_write_data s); try done; try lia. apply Hw; [lia|done]. }
  unfold sp_producer_ok. cbn [sp_write sp_producer]. destruct (Nat.eqb_spec (S i) (length vs)) as [E|E]; [rewrite <- E; apply Hb|].
  split; [lia|apply Hb].
Qed.

Lemma sp_publish_inv s first vs :
  sp_inv s -> sp_producer s = SpPublish first vs -> sp_inv (sp_publish_batch s (first + len vs - 1)).
Proof.
  intros Hi Hp. pose proof (si_producer _ Hi) as Ho. unfold sp_producer_ok in Ho. rewrite Hp in Ho.
  destruct Ho as (E1 & E2 & Hvs & Hw). pose proof (si_order _ Hi). pose proof Hi as [].
  split; try done; cbn; try lia.
  - intros u v Hu Hv. destruct (decide (u <= published s)); [apply si_data0; [lia|done]|]. rewrite (Hw u v) by (done || lia).
    unfold sp_content, sp_consumer_ok in *. destruct (sp_consumer s); try done. destruct (Z.eqb_spec sequence u); [|done]. lia.
  - unfold sp_consumer_ok in *. cbn. destruct (sp_consumer s); try done.
    + destruct si_consumer0 as (? & ?). split; [done|lia].
    + destruct si_consumer0 as (? & ? & ?). split_and!; [done|lia|done].
Qed.

(** *** The consumer *)
Lemma sp_set_consumer_inv s c cached :
  sp_inv s -> (forall seq x, sp_consumer s = ScRelease seq x -> False) -> (forall seq x, c = ScRelease seq x -> False) ->
  sp_consumer_ok (sp_set_consumer s c cached) -> cached <= published s -> sp_inv (sp_set_consumer s c cached).
Proof.
  intros [] Hold Hnew Hc Hca. split; try done; cbn. intros u v Hu Hv. rewrite (si_data0 u v Hu Hv). unfold sp_content.
  destruct (sp_consumer s) eqn:E; try (by destruct (Hold _ _ eq_refl)); destruct c; try done; by destruct (Hnew _ _ eq_refl).
Qed.

Lemma sp_pull_inv s : sp_inv s -> sp_consumer s = ScIdle -> sp_inv (sp_pull s).
Proof.
  intros Hi Hc. pose proof (si_cached _ Hi). apply sp_set_consumer_inv; try done; [by rewrite Hc| |].
  - intros seq x. by destruct (_ <? _).
  - unfold sp_consumer_ok. cbn. destruct (Z.ltb_spec (sp_cached s) (consumed s + 1)); cbn; [done|]. split; [done|lia].
Qed.

Lemma sp_wait_inv s seq :
  sp_inv s -> sp_consumer s = ScWait seq -> seq <= published s -> sp_inv (sp_set_consumer s (ScTake seq) (published s)).
Proof.
  intros Hi Hc Hs. pose proof (si_consumer _ Hi) as Ho. unfold sp_consumer_ok in Ho. rewrite Hc in Ho.
  apply sp_set_consumer_inv; try done. by rewrite Hc.
Qed.

Lemma sp_take_inv s seq x :
  sp_inv s -> sp_consumer s = ScTake seq -> sp_ring s !! slot_index (sp_capacity (sp_sequencer s)) seq = Some x ->
  sp_inv (sp_take s seq x).
Proof.
  intros Hi Hc Hx. pose proof (si_consumer _ Hi) as Ho. unfold sp_consumer_ok in Ho. rewrite Hc in Ho. destruct Ho as [Es Hp].
  pose proof (si_order _ Hi). pose proof (si_bound _ Hi). pose proof (si_claims _ Hi). pose proof (si_window _ Hi).
  destruct (lookup_lt_is_Some_2 (sp_claims s) (Z.to_nat seq)) as [v Hv]; [lia|].
  unfold sp_take. rewrite (sp_cell _ _ Hi) in * by lia.
  rewrite (si_data _ Hi seq v ltac:(lia) Hv) in Hx. unfold sp_content in Hx. rewrite Hc in Hx. injection Hx as <-.
  assert (Hne : forall u y, consumed s < u <= claimed s -> u <> seq -> sp_ring s !! cell u = y ->
                  <[cell seq := MovedFrom]> (sp_ring s) !! cell u = y).
  { intros u y Hu Hn <-. apply list_lookup_insert_ne, (sp_slots s); lia. }
  pose proof Hi as []. split; try done; cbn.
  - by rewrite length_insert.
  - assert (Hblock : forall first vs i, (i <= length vs)%nat -> sp_block s first vs i -> sp_block (sp_take s seq (Holds v)) first vs i).
    { intros first vs i Hle (E1 & E2 & E3 & Hw). split_and!; try done. cbn. intros u v' Hu Hv'.
      rewrite (sp_cell _ _ Hi) by lia. apply Hne; [lia|lia|by apply Hw]. }
    unfold sp_producer_ok in *. unfold sp_take in Hblock. rewrite (sp_cell _ _ Hi) in Hblock by lia. cbn.
    destruct (sp_producer s); try done; [destruct si_producer0..|]; try (split; [done|]); apply Hblock; done || lia.
  - intros u v' Hu Hv'. destruct (Z.eqb_spec seq u) as [<-|Hn]; [by apply sp_insert|]. apply Hne; [lia|lia|].
    rewrite (si_data0 u v') by done. unfold sp_content. by rewrite Hc.
  - unfold sp_consumer_ok. cbn. split_and!; try done. by exists v.
Qed.

Lemma sp_release_inv s seq x : sp_inv s -> sp_consumer s = ScRelease seq x -> sp_inv (sp_release s seq x).
Proof.
  intros Hi Hc. pose proof (si_consumer _ Hi) as Ho. unfold sp_consumer_ok in Ho. rewrite Hc in Ho.
  destruct Ho as (Es & Hp & v & Hv & ->). pose proof Hi as []. split; try done; cbn; try lia.
  - intros u v' Hu Hv'. rewrite (si_data0 u v') by (done || lia). unfold sp_content. rewrite Hc.
    destruct (Z.eqb_spec seq u); [lia|done].
  - rewrite si_pulled0. replace (Z.to_nat (seq + 1)) with (S (Z.to_nat seq)) by lia.
    replace (Z.to_nat (consumed s + 1)) with (Z.to_nat seq) by lia. rewrite (take_S_r _ _ v Hv). by rewrite fmap_app.
Qed.

(** *** Every step *)
Lemma sp_step_inv s s' : sp_inv s -> len (sp_claims s') < 2 ^ 63 -> sp_step s s' -> sp_inv s'.
Proof.
  intros Hi Hb Hs. pose proof (si_claims _ Hi) as Hl. pose proof (si_order _ Hi) as Hor. pose proof (si_capacity _ Hi) as Ec.
  destruct Hs as [vs first q Hp Hvs Hn|v first q Hp Ht Hf| | | | | | |].
  - destruct (sp_next_batch_spec s (len vs) _ _ Hi ltac:(destruct vs; [done|rewrite length_cons; lia]) Hn) as (? & ? & ? & ? & ? & ? & ?).
    apply sp_claim_inv; try done. revert Hb. cbn. rewrite length_app. lia.
  - unfold sp_try_next in Ht. rewrite Ec in Ht. destruct (Z.ltb_spec (consumed s) (claimed s + 1 - cap)); simplify_eq.
    apply sp_claim_inv; try done; cbn; try lia; try apply (si_limit _ Hi). revert Hb. cbn. rewrite length_app. cbn. lia.
  - by apply sp_destroy_inv.
  - by apply sp_construct_inv.
  - by apply sp_publish_inv.
  - by apply sp_pull_inv.
  - by apply sp_wait_inv.
  - by apply sp_take_inv.
  - by apply sp_release_inv.
Qed.

Lemma sp_step_claims s s' : sp_step s s' -> exists vs, sp_claims s' = sp_claims s ++ vs.
Proof. intros Hs. destruct Hs; try (by eexists); exists []; by rewrite app_nil_r. Qed.

Lemma sp_steps_claims s s' : rtc sp_step s s' -> exists vs, sp_claims s' = sp_claims s ++ vs.
Proof.
  induction 1 as [|s s1 s2 Hs _ (vs & ->)]; [exists []; by rewrite app_nil_r|].
  destruct (sp_step_claims _ _ Hs) as (us & ->). exists (us ++ vs). by rewrite app_assoc.
Qed.

Lemma sp_initial_inv (v : T) : sp_inv (sp_initial v cap).
Proof.
  pose proof (cap_pos k Hk). assert (cap <= 2 ^ 62) by (apply Z.pow_le_mono_r; lia).
  split; cbn -[Z.pow]; try done; try lia.
  - apply length_replicate.
  - rewrite wrap_int64_small; lia.
Qed.

Lemma sp_reachable_inv v s : sp_reachable v cap s -> len (sp_claims s) < 2 ^ 63 -> sp_inv s.
Proof.
  intros Hr. assert (Hi := sp_initial_inv v). unfold sp_reachable in Hr. induction Hr as [|s s1 s2 Hs Hr IH]; intros Hb; [done|].
  apply IH; [|done]. destruct (sp_steps_claims _ _ Hr) as (vs & Ev). rewrite Ev, length_app in Hb.
  apply (sp_step_inv s); [done|lia|done].
Qed.
End invariant.

(** ** Theorems *)
Section theorems.
Context {T : Type} (k : Z) (initial_value : T).
Notation cap := (2 ^ k).
Notation len l := (Z.of_nat (length l)).

(** The fast path keeps the disruptor's contract without generations and without
    reading the consumer's position on every claim: items are pulled exactly once, in
    order, the producer never runs more than a ring ahead, and the two threads never
    touch the same slot. *)
Theorem spsc_contract s :
  0 <= k <= 62 -> sp_reachable initial_value cap s -> len (sp_claims s) < 2 ^ 63 ->
  sp_pulled s = Holds <$> take (length (sp_pulled s)) (sp_claims s) /\
  len (sp_pulled s) = sp_consumed (sp_sequencer s) + 1 /\
  len (sp_claims s) <= len (sp_pulled s) + cap /\
  forall u seq, sp_touches (sp_producer s) = Some u -> sp_consumer s = ScTake seq ->
    slot_index (sp_capacity (sp_sequencer s)) u <> slot_index (sp_capacity (sp_sequencer s)) seq.
Proof.
  intros Hk Hr Hb. pose proof (sp_reachable_inv k Hk _ _ Hr Hb) as Hi. pose proof (si_order _ _ Hi). pose proof (si_claims _ _ Hi).
  pose proof (si_window _ _ Hi). pose proof (si_bound _ _ Hi). pose proof (si_pulled _ _ Hi) as Hp.
  assert (El : length (sp_pulled s) = Z.to_nat (sp_consumed (sp_sequencer s) + 1)) by (rewrite Hp, length_fmap, length_take; lia).
  rewrite El. split_and!; [done|lia|lia|]. intros u seq Hu Hc.
  pose proof (si_consumer _ _ Hi) as Hco. unfold sp_consumer_ok in Hco. rewrite Hc in Hco. destruct Hco as [-> Hpub].
  assert (sp_published (sp_sequencer s) < u <= sp_claimed (sp_sequencer s)).
  { pose proof (si_producer _ _ Hi) as Ho. unfold sp_producer_ok, sp_block in Ho.
    destruct (sp_producer s); try done; cbn in Hu; simplify_eq; lia. }
  rewrite !(sp_cell k Hk _ _ Hi) by lia. apply (sp_slots k Hk s); lia.
Qed.
End theorems.

Definition spsc_busy : SpState nat :=
  sp_pull (sp_publish_batch (sp_write (sp_write (sp_claim (sp_initial 0%nat 2) 0 (sp_set_claimed (single_producer 2) 0) [5%nat])
    0 Destroyed (SpConstruct 0 [5%nat] 0)) 0 (Holds 5%nat) (SpPublish 0 [5%nat])) 0).

Lemma spsc_contract_witness :
  sp_pulled spsc_busy = Holds <$> take (length (sp_pulled spsc_busy)) (sp_claims spsc_busy) /\
  Z.of_nat (length (sp_claims spsc_busy)) <= Z.of_nat (length (sp_pulled spsc_busy)) + 2.
Proof.
  destruct (spsc_contract 1 0%nat spsc_busy ltac:(done)) as (H1 & _ & H3 & _); [|done|by split].
  eapply rtc_l; [by apply (Sp_claim _ [5%nat] 0 (sp_set_claimed (single_producer 2) 0))|].
  eapply rtc_l; [by apply (Sp_destroy _ 0 [5%nat] 0)|]. eapply rtc_l; [by apply (Sp_construct _ 0 [5%nat] 0 5%nat)|].
  eapply rtc_l; [by apply (Sp_publish _ 0 [5%nat])|]. by apply rtc_once, Sp_pull.
Defined.
