(* ===== verification/ObjectPool.v ===== *)
(** * The object pool of concurrency-starling

    [Pool<T>] hands out the slots of a fixed arena. An idle slot is a bit of an atomic
    bitmap that any thread may claim without a lock; everything else is guarded by one
    mutex. A caller that finds no idle slot raises the waiter gate, scans once more and
    queues up; a returning borrower publishes its bit and then looks at the gate. The
    model interleaves the threads at their atomic accesses and critical sections, and
    shows that no slot ever has two owners and that no waiter is left behind.

    Sources: pool/pool.hpp and pool/detail (sync_acquire, async_acquire, borrowed,
    reserved_slot, waiter, deadline). *)

From S2P Require Import Prelude.

(** ** Deadlines

    [steady_clock] counts in 64-bit signed nanoseconds. *)
Definition rep_min : Z := -9223372036854775808.
Definition rep_max : Z := 9223372036854775807.

Definition pool_deadline_after (now timeout : Z) : Z :=
  if ((0 <? timeout) && (rep_max - timeout <? now))%Z then rep_max else
  if ((timeout <? 0) && (now <? rep_min - timeout))%Z then rep_min else
  (now + timeout)%Z.

(** ** Words of the bitmap *)
Definition bits_per_word : nat := 64.

Fixpoint positive_ctz (p : positive) : nat :=
  match p with xO p => S (positive_ctz p) | _ => 0 end.

(** [std::countr_zero] of a non-zero word. *)
Definition countr_zero (x : N) : nat := match x with N0 => bits_per_word | Npos p => positive_ctz p end.

(** [bits & (bits - 1)] *)
Definition clear_lowest (x : N) : N := N.land x (N.pred x).

Definition bit_mask (index : nat) : N := N.shiftl 1 (N.of_nat (index mod bits_per_word)).

(** ** Data *)
Inductive SlotState := Vacant | Reserved | Idle | Borrowed | Quarantined.
Inductive AcquireError := Exhausted | Timeout | Cancelled | Shutdown.
Inductive WaiterKind := Sync | Async.

(** The terminal states of a waiter node; a node that is linked is queued. *)
Inductive WaiterState := Assigned (slot : nat) | WTimeout | WCancelled | WShutdown.

Record Waiter := { waiter_id : nat; bounded : bool }.

(** The pool. [completed] holds the terminal state and slot of the nodes that were
    unlinked and whose owner has not looked yet. [lent] and [tokens] are the
    [PoolBorrowed] and [PoolReservedSlot] objects callers hold (the latter with
    [constructed_]); [answers] records what the acquisitions returned. *)
Record Pool := mkPool {
  words : list N;
  states : list SlotState;
  vacant : list nat;
  quarantined : list nat;
  usable_size : Z;
  reserved_count : nat;
  mutex : bool;
  waiters : list Waiter;
  waiter_gate : nat;
  closed : bool;
  completed : list (nat * WaiterState);
  next_waiter : nat;
  lent : list nat;
  tokens : list (nat * bool);
  answers : list (result AcquireError nat)
}.

(** Field updates. *)
Definition set_words (p : Pool) (v : list N) : Pool :=
  mkPool v (states p) (vacant p) (quarantined p) (usable_size p) (reserved_count p) (mutex p) (waiters p)
    (waiter_gate p) (closed p) (completed p) (next_waiter p) (lent p) (tokens p) (answers p).
Definition set_states (p : Pool) (v : list SlotState) : Pool :=
  mkPool (words p) v (vacant p) (quarantined p) (usable_size p) (reserved_count p) (mutex p) (waiters p)
    (waiter_gate p) (closed p) (completed p) (next_waiter p) (lent p) (tokens p) (answers p).
Definition set_vacant (p : Pool) (v : list nat) : Pool :=
  mkPool (words p) (states p) v (quarantined p) (usable_size p) (reserved_count p) (mutex p) (waiters p)
    (waiter_gate p) (closed p) (completed p) (next_waiter p) (lent p) (tokens p) (answers p).
Definition set_quarantined (p : Pool) (v : list nat) : Pool :=
  mkPool (words p) (states p) (vacant p) v (usable_size p) (reserved_count p) (mutex p) (waiters p) (waiter_gate p)
    (closed p) (completed p) (next_waiter p) (lent p) (tokens p) (answers p).
Definition set_usable_size (p : Pool) (v : Z) : Pool :=
  mkPool (words p) (states p) (vacant p) (quarantined p) v (reserved_count p) (mutex p) (waiters p) (waiter_gate p)
    (closed p) (completed p) (next_waiter p) (lent p) (tokens p) (answers p).
Definition set_reserved_count (p : Pool) (v : nat) : Pool :=
  mkPool (words p) (states p) (vacant p) (quarantined p) (usable_size p) v (mutex p) (waiters p) (waiter_gate p)
    (closed p) (completed p) (next_waiter p) (lent p) (tokens p) (answers p).
Definition set_mutex (p : Pool) (v : bool) : Pool :=
  mkPool (words p) (states p) (vacant p) (quarantined p) (usable_size p) (reserved_count p) v (waiters p)
    (waiter_gate p) (closed p) (completed p) (next_waiter p) (lent p) (tokens p) (answers p).
Definition set_waiters (p : Pool) (v : list Waiter) : Pool :=
  mkPool (words p) (states p) (vacant p) (quarantined p) (usable_size p) (reserved_count p) (mutex p) v
    (waiter_gate p) (closed p) (completed p) (next_waiter p) (lent p) (tokens p) (answers p).
Definition set_waiter_gate (p : Pool) (v : nat) : Pool :=
  mkPool (words p) (states p) (vacant p) (quarantined p) (usable_size p) (reserved_count p) (mutex p) (waiters p) v
    (closed p) (completed p) (next_waiter p) (lent p) (tokens p) (answers p).
Definition set_closed (p : Pool) (v : bool) : Pool :=
  mkPool (words p) (states p) (vacant p) (quarantined p) (usable_size p) (reserved_count p) (mutex p) (waiters p)
    (waiter_gate p) v (completed p) (next_waiter p) (lent p) (tokens p) (answers p).
Definition set_completed (p : Pool) (v : list (nat * WaiterState)) : Pool :=
  mkPool (words p) (states p) (vacant p) (quarantined p) (usable_size p) (reserved_count p) (mutex p) (waiters p)
    (waiter_gate p) (closed p) v (next_waiter p) (lent p) (tokens p) (answers p).
Definition set_next_waiter (p : Pool) (v : nat) : Pool :=
  mkPool (words p) (states p) (vacant p) (quarantined p) (usable_size p) (reserved_count p) (mutex p) (waiters p)
    (waiter_gate p) (closed p) (completed p) v (lent p) (tokens p) (answers p).
Definition set_lent (p : Pool) (v : list nat) : Pool :=
  mkPool (words p) (states p) (vacant p) (quarantined p) (usable_size p) (reserved_count p) (mutex p) (waiters p)
    (waiter_gate p) (closed p) (completed p) (next_waiter p) v (tokens p) (answers p).
Definition set_tokens (p : Pool) (v : list (nat * bool)) : Pool :=
  mkPool (words p) (states p) (vacant p) (quarantined p) (usable_size p) (reserved_count p) (mutex p) (waiters p)
    (waiter_gate p) (closed p) (completed p) (next_waiter p) (lent p) v (answers p).
Definition set_answers (p : Pool) (v : list (result AcquireError nat)) : Pool :=
  mkPool (words p) (states p) (vacant p) (quarantined p) (usable_size p) (reserved_count p) (mutex p) (waiters p)
    (waiter_gate p) (closed p) (completed p) (next_waiter p) (lent p) (tokens p) v.

Definition capacity (p : Pool) : nat := length (states p).

(** [Pool::Pool], for a non-zero capacity; a zero one throws. *)
Definition new_pool (capacity : nat) : result exn Pool :=
  if capacity =? 0 then Err (InvalidArgument (B "Pool: capacity must be non-zero")) else
  Ok {| words := replicate (capacity / bits_per_word + if capacity mod bits_per_word =? 0 then 0 else 1) 0%N;
        states := replicate capacity Vacant; vacant := reverse (seq 0 capacity); quarantined := [];
        usable_size := 0; reserved_count := 0; mutex := false; waiters := []; waiter_gate := 0; closed := false;
        completed := []; next_waiter := 0; lent := []; tokens := []; answers := [] |}.

(** [idle_count] and [stats]; [size], [quarantined_count] and [waiter_count] are fields of it. *)
Definition popcount (x : N) : nat := length (filter (fun j => N.testbit x (N.of_nat j) = true) (seq 0 bits_per_word)).
Definition idle_count (p : Pool) : nat := sum_list_with popcount (words p).

Record PoolStats := {
  st_capacity : nat; st_vacant : nat; st_reserved : nat; st_idle : nat; st_borrowed : nat; st_quarantined : nat; st_waiters : nat
}.

Definition stats (p : Pool) : PoolStats :=
  let usable := Z.to_nat (usable_size p) in
  let idle := Nat.min (idle_count p) usable in
  {| st_capacity := capacity p; st_vacant := length (vacant p); st_reserved := reserved_count p; st_idle := idle;
     st_borrowed := usable - idle; st_quarantined := length (quarantined p); st_waiters := length (waiters p) |}.

(** ** Threads

    Where a running call stands. A state is named after the access it is about to make;
    [w] is the word a scan has reached, [b] tells whether the call has a deadline. The
    states of [holds_mutex] own the pool's mutex. *)
Inductive Op :=
| TryStart | TryScan (w : nat) | TryEmpty | TryGot (i : nat)
| AcqStart (k : WaiterKind) (b : bool) | AcqScan (k : WaiterKind) (b : bool) (w : nat) | AcqGot (k : WaiterKind) (b : bool) (i : nat)
| AcqLock (k : WaiterKind) (b : bool) | RegScan (k : WaiterKind) (b : bool) (w : nat)
| Parked (k : WaiterKind) (b : bool) (id : nat) | Deliver (i : nat)
| QuarantineLock (i : nat)
| RelStart (i : nat) | RelGate (i : nat) | RelPublish (i : nat) | RelClosed (i : nat) | RelReclaim (i : nat) | RelRecheck
| HandLock (i : nat) (serving : bool) | HandHeld (i : nat) (serving : bool)
| ServeLock | ServeCheck | ServeScan (w : nat)
| TakeStart | TakeGate | TakeScan (w : nat) | TakeLock (i : nat)
| Sweep (w : nat) | SweepWord (w : nat) (bits : N) | DrainLock | Drain.

Definition holds_mutex (o : Op) : bool :=
  match o with
  | RegScan _ _ _ | HandHeld _ _ | ServeCheck | ServeScan _ | Sweep _ | SweepWord _ _ | Drain => true
  | _ => false
  end.

(** What the outside decides about a step: a deadline has passed, the operation is
    cancelled, its execution context goes away. *)
Inductive Choice := Go | Expire | Cancel | Abandon.

Definition expired (b : bool) (c : Choice) : bool := b && match c with Expire => true | _ => false end.
Definition is_cancel (k : WaiterKind) (c : Choice) : bool := match k, c with Async, Cancel => true | _, _ => false end.

Section operations.
Context (p : Pool).

Definition answer (r : result AcquireError nat) : Pool := set_answers p (answers p ++ [r]).
Definition set_state (i : nat) (s : SlotState) : Pool := set_states p (<[i := s]> (states p)).

(** [publish_bit] *)
Definition publish_bit (i : nat) : Pool :=
  set_words p (alter (fun x => N.lor x (bit_mask i)) (i / bits_per_word) (words p)).

(** One word of [claim_idle]: the exchange that succeeds takes the lowest set bit at
    that moment; a word read as zero is passed. *)
Definition claim_word (w : nat) : option (nat * Pool) :=
  match words p !! w with
  | Some x =>
      if (x =? 0)%N then None else
      let index := w * bits_per_word + countr_zero x in
      Some (index, set_states (set_words p (<[w := clear_lowest x]> (words p))) (<[index := Borrowed]> (states p)))
  | None => None
  end.

(** [reclaim_idle] *)
Definition reclaim_idle (i : nat) : option Pool :=
  match words p !! (i / bits_per_word) with
  | Some x =>
      if N.testbit x (N.of_nat (i mod bits_per_word)) then
        Some (set_states (set_words p (<[i / bits_per_word := N.ldiff x (bit_mask i)]> (words p))) (<[i := Borrowed]> (states p)))
      else None
  | None => None
  end.

Definition quarantine_borrowed (i : nat) : Pool :=
  set_quarantined (set_usable_size (set_states p (<[i := Quarantined]> (states p))) (usable_size p - 1)) (quarantined p ++ [i]).

(** [unlink_waiter]: the node leaves the list, whatever its position. *)
Definition unlink_waiter (id : nat) : Pool :=
  set_waiter_gate (set_waiters p (filter (fun w => waiter_id w <> id) (waiters p))) (waiter_gate p - 1).

End operations.

(** [complete_waiter_locked], the mutex released. *)
Definition complete_waiter (p : Pool) (id : nat) (s : WaiterState) : Pool :=
  let p := unlink_waiter p id in
  set_mutex (set_completed p (completed p ++ [(id, s)])) false.

(** A scan that has reached word [w]. *)
Definition scan (p : Pool) (w : nat) (next : Op) (found : nat -> Pool -> Pool * list Op) (none : Pool * list Op) : option (Pool * list Op) :=
  if w <? length (words p) then
    match claim_word p w with
    | Some (i, p') => Some (found i p')
    | None => Some (p, [next])
    end
  else Some none.

(** A lock acquisition: blocked while the mutex is held. *)
Definition lock (p : Pool) (k : Pool -> Pool * list Op) : option (Pool * list Op) :=
  if mutex p then None else Some (k (set_mutex p true)).

(** A successful acquisition: handed to the caller, or posted to its executor. *)
Definition deliver (k : WaiterKind) (i : nat) (p : Pool) : Pool * list Op :=
  match k with
  | Sync => (set_lent (answer p (Ok i)) (i :: lent p), [])
  | Async => (p, [Deliver i])
  end.

(** One round of [handoff_or_publish_locked] under the mutex; [serving] when the caller
    is [serve_waiters_locked], which goes on with its loop. *)
Definition handoff_or_publish_locked (c : Choice) (p : Pool) (i : nat) (serving : bool) : Pool * list Op :=
  let still_owned p := if serving then (p, [ServeCheck]) else (set_mutex p false, []) in
  if closed p then still_owned (quarantine_borrowed p i) else
  match waiters p with
  | [] => still_owned (publish_bit (set_state p i Idle) i)
  | waiter :: _ =>
      if expired (bounded waiter) c then (complete_waiter p (waiter_id waiter) WTimeout, [HandLock i serving])
      else (complete_waiter p (waiter_id waiter) (Assigned i), if serving then [ServeLock] else [])
  end.

(** A parked waiter whose node was completed takes its outcome; while it is queued, its
    timer, its cancellation slot or its context's shutdown may complete it. *)
Definition parked (c : Choice) (p : Pool) (k : WaiterKind) (b : bool) (id : nat) : option (Pool * list Op) :=
  match list_find (fun e => fst e = id) (completed p) with
  | Some (pos, (_, s)) =>
      let p := set_completed p (delete pos (completed p)) in
      Some match s, k, c with
           | Assigned i, Async, Abandon => (p, [RelStart i])
           | _, Async, Abandon => (p, [])
           | Assigned i, _, _ => (set_lent (answer p (Ok i)) (i :: lent p), [])
           | WTimeout, _, _ => (answer p (Err Timeout), [])
           | WCancelled, _, _ => (answer p (Err Cancelled), [])
           | WShutdown, _, _ => (answer p (Err Shutdown), [])
           end
  | None =>
      if mutex p then None else
      match k, c with
      | Sync, Expire => if b then Some (answer (unlink_waiter p id) (Err Timeout), []) else None
      | Async, Expire => if b then Some (complete_waiter p id WTimeout, [Parked k b id]) else None
      | Async, Cancel => Some (complete_waiter p id WCancelled, [Parked k b id])
      | Async, Abandon => Some (unlink_waiter p id, [])
      | _, _ => None
      end
  end.

(** ** The functions, one step at a time *)

(** [Pool::try_acquire] *)
Definition try_acquire (p : Pool) (o : Op) : option (Pool * list Op) :=
  match o with
  | TryStart => Some (if closed p then (answer p (Err Shutdown), []) else (p, [TryScan 0]))
  | TryScan w => scan p w (TryScan (S w)) (fun i p => (p, [TryGot i])) (p, [TryEmpty])
  | TryEmpty => Some (answer p (Err (if closed p then Shutdown else Exhausted)), [])
  | TryGot i => Some (if closed p then (answer p (Err Shutdown), [QuarantineLock i]) else (set_lent (answer p (Ok i)) (i :: lent p), []))
  | _ => None
  end.

(** [PoolSyncAcquire::acquire] and [initiate_async_acquire] up to the queue. When arming
    the timer of an asynchronous waiter throws, its node is unlinked again. *)
Definition acquire (c : Choice) (p : Pool) (o : Op) : option (Pool * list Op) :=
  match o with
  | AcqStart k b =>
      Some (if is_cancel k c then (answer p (Err Cancelled), []) else
            if closed p then (answer p (Err Shutdown), []) else
            if expired b c then (answer p (Err Timeout), []) else (p, [AcqScan k b 0]))
  | AcqScan k b w => scan p w (AcqScan k b (S w)) (fun i p => (p, [AcqGot k b i])) (p, [AcqLock k b])
  | AcqGot k b i =>
      Some (if closed p then (answer p (Err Shutdown), [QuarantineLock i]) else
            if expired b c then (answer p (Err Timeout), [RelStart i]) else deliver k i p)
  | AcqLock k b =>
      lock p (fun p' =>
        if is_cancel k c then (answer p (Err Cancelled), []) else
        if closed p then (answer p (Err Shutdown), []) else
        if expired b c then (answer p (Err Timeout), []) else (set_waiter_gate p' (waiter_gate p + 1), [RegScan k b 0]))
  | RegScan k b w =>
      scan p w (RegScan k b (S w))
        (fun i p =>
           let p := set_waiter_gate p (waiter_gate p - 1) in
           if expired b c then (answer p (Err Timeout), [HandHeld i false]) else deliver k i (set_mutex p false))
        (match k, b, c with
         | Async, true, Abandon => (set_mutex (set_waiter_gate p (waiter_gate p - 1)) false, [])
         | _, _, _ =>
             let id := next_waiter p in
             (set_mutex (set_next_waiter (set_waiters p (waiters p ++ [{| waiter_id := id; bounded := b |}])) (S id)) false,
              [Parked k b id])
         end)
  | _ => None
  end.

(** [Pool::handoff_or_publish] *)
Definition handoff_or_publish (p : Pool) (o : Op) : option (Pool * list Op) :=
  match o with
  | RelStart i => Some (if closed p then (p, [HandLock i false]) else (p, [RelGate i]))
  | RelGate i => Some (if waiter_gate p =? 0 then (p, [RelPublish i]) else (p, [HandLock i false]))
  | RelPublish i => Some (publish_bit (set_state p i Idle) i, [RelClosed i])
  | RelClosed i => Some (if closed p then (p, [RelReclaim i]) else (p, [RelRecheck]))
  | RelReclaim i => Some (match reclaim_idle p i with Some p => (p, [QuarantineLock i]) | None => (p, []) end)
  | RelRecheck => Some (if waiter_gate p =? 0 then (p, []) else (p, [ServeLock]))
  | _ => None
  end.

(** [Pool::serve_waiters_locked] *)
Definition serve_waiters_locked (p : Pool) (o : Op) : option (Pool * list Op) :=
  match o with
  | ServeLock => lock p (fun p => (p, [ServeCheck]))
  | ServeCheck =>
      Some (if closed p || bool_decide (waiters p = []) then (set_mutex p false, []) else (p, [ServeScan 0]))
  | ServeScan w => scan p w (ServeScan (S w)) (fun i p => (p, [HandHeld i true])) (set_mutex p false, [])
  | _ => None
  end.

(** [Pool::try_take_idle] *)
Definition try_take_idle (p : Pool) (o : Op) : option (Pool * list Op) :=
  match o with
  | TakeStart => Some (if closed p then (p, []) else (p, [TakeGate]))
  | TakeGate => Some (if waiter_gate p =? 0 then (p, [TakeScan 0]) else (p, []))
  | TakeScan w => scan p w (TakeScan (S w)) (fun i p => (p, [TakeLock i])) (p, [])
  | TakeLock i =>
      lock p (fun p' =>
        if closed p then (quarantine_borrowed p i, []) else
        if waiter_gate p =? 0 then
          (set_tokens (set_reserved_count (set_usable_size (set_state p i Reserved) (usable_size p - 1)) (reserved_count p + 1))
             ((i, true) :: tokens p), [])
        else (publish_bit (set_state p' i Idle) i, [ServeCheck]))
  | _ => None
  end.

(** [Pool::shutdown], after the exchange that closes the pool: every word is taken out of
    the bitmap and its slots are quarantined, then the queue is drained. *)
Definition shutdown (c : Choice) (p : Pool) (o : Op) : option (Pool * list Op) :=
  match o with
  | Sweep w =>
      Some (match words p !! w with
            | Some x => (set_words p (<[w := 0%N]> (words p)), [SweepWord w x])
            | None => (p, [Drain])
            end)
  | SweepWord w bits =>
      Some (if (bits =? 0)%N then (p, [Sweep (S w)]) else
            let i := w * bits_per_word + countr_zero bits in
            (quarantine_borrowed p i, [SweepWord w (clear_lowest bits)]))
  | DrainLock => lock p (fun p => (p, [Drain]))
  | Drain =>
      Some (match waiters p with
            | [] => (set_mutex p false, [])
            | waiter :: _ =>
                (complete_waiter p (waiter_id waiter) (if expired (bounded waiter) c then WTimeout else WShutdown), [DrainLock])
            end)
  | _ => None
  end.

(** The next step of a call. *)
Definition exec (c : Choice) (p : Pool) (o : Op) : option (Pool * list Op) :=
  match o with
  | TryStart | TryScan _ | TryEmpty | TryGot _ => try_acquire p o
  | AcqStart _ _ | AcqScan _ _ _ | AcqGot _ _ _ | AcqLock _ _ | RegScan _ _ _ => acquire c p o
  | Parked k b id => parked c p k b id
  | Deliver i => Some match c with Abandon => (p, [RelStart i]) | _ => (set_lent (answer p (Ok i)) (i :: lent p), []) end
  | QuarantineLock i => lock p (fun _ => (quarantine_borrowed p i, []))
  | RelStart _ | RelGate _ | RelPublish _ | RelClosed _ | RelReclaim _ | RelRecheck => handoff_or_publish p o
  | HandLock i s => lock p (fun p => (p, [HandHeld i s]))
  | HandHeld i s => Some (handoff_or_publish_locked c p i s)
  | ServeLock | ServeCheck | ServeScan _ => serve_waiters_locked p o
  | TakeStart | TakeGate | TakeScan _ | TakeLock _ => try_take_idle p o
  | Sweep _ | SweepWord _ _ | DrainLock | Drain => shutdown c p o
  end.

(** ** Calls

    [enter] starts a call: a running operation, or the whole critical section of a call
    that is one. A call on a token its caller does not hold is not made. *)
Inductive Call :=
| TryAcquire | Acquire (k : WaiterKind) (b : bool) | TryReserve | TryTakeQuarantined | TryTakeIdle | CallShutdown
| Release (i : nat) | Quarantine (i : nat) | Construct (i : nat) | Destroy (i : nat) | Publish (i : nat) | Rollback (i : nat).

(** The token of slot [i] among the reserved ones. *)
Definition find_token (p : Pool) (i : nat) : option (nat * bool) :=
  match list_find (fun e => fst e = i) (tokens p) with Some (pos, (_, c)) => Some (pos, c) | None => None end.

Definition try_reserve (p : Pool) : option (Pool * list Op) :=
  if mutex p then None else
  if closed p then Some (p, []) else
  match last (vacant p) with
  | Some i =>
      Some (set_tokens (set_reserved_count (set_vacant (set_state p i Reserved) (removelast (vacant p))) (reserved_count p + 1))
              ((i, false) :: tokens p), [])
  | None => Some (p, [])
  end.

Definition try_take_quarantined (p : Pool) : option (Pool * list Op) :=
  if mutex p then None else
  if closed p then Some (p, []) else
  match last (quarantined p) with
  | Some i =>
      Some (set_tokens (set_reserved_count (set_quarantined (set_state p i Reserved) (removelast (quarantined p)))
              (reserved_count p + 1)) ((i, true) :: tokens p), [])
  | None => Some (p, [])
  end.

(** The exchange of [Pool::shutdown]; a second call returns at once. *)
Definition close (p : Pool) : option (Pool * list Op) :=
  lock p (fun p' => if closed p then (p, []) else (set_closed p' true, [Sweep 0])).

(** [PoolBorrowed]: giving the slot back, or taking it out of circulation. *)
Definition release_now (p : Pool) (i : nat) : option (Pool * list Op) :=
  if bool_decide (i ∈ lent p) then Some (set_lent p (remove_one i (lent p)), [RelStart i]) else None.

Definition quarantine (p : Pool) (i : nat) : option (Pool * list Op) :=
  if bool_decide (i ∈ lent p) && negb (mutex p)
  then Some (quarantine_borrowed (set_lent p (remove_one i (lent p))) i, []) else None.

(** [PoolReservedSlot]: construction, destruction, publication and roll-back. *)
Definition emplace (p : Pool) (i : nat) : option (Pool * list Op) :=
  '(pos, constructed) ← find_token p i;
  if (constructed : bool) then None else Some (set_tokens p (<[pos := (i, true)]> (tokens p)), []).

Definition destroy (p : Pool) (i : nat) : option (Pool * list Op) :=
  '(pos, constructed) ← find_token p i; Some (set_tokens p (<[pos := (i, false)]> (tokens p)), []).

Definition publish (p : Pool) (i : nat) : option (Pool * list Op) :=
  '(pos, constructed) ← find_token p i;
  if negb constructed || mutex p then None else
  if closed p then Some (p, []) else
  Some (set_tokens (set_usable_size (set_reserved_count (set_mutex (set_state p i Borrowed) true) (reserved_count p - 1))
          (usable_size p + 1)) (delete pos (tokens p)), [HandHeld i false]).

Definition rollback (p : Pool) (i : nat) : option (Pool * list Op) :=
  '(pos, _) ← find_token p i;
  if mutex p then None else
  Some (set_tokens (set_reserved_count (set_vacant (set_state p i Vacant) (vacant p ++ [i])) (reserved_count p - 1))
          (delete pos (tokens p)), []).

Definition enter (p : Pool) (call : Call) : option (Pool * list Op) :=
  match call with
  | TryAcquire => Some (p, [TryStart])
  | Acquire k b => Some (p, [AcqStart k b])
  | TryReserve => try_reserve p
  | TryTakeQuarantined => try_take_quarantined p
  | TryTakeIdle => Some (p, [TakeStart])
  | CallShutdown => close p
  | Release i => release_now p i
  | Quarantine i => quarantine p i
  | Construct i => emplace p i
  | Destroy i => destroy p i
  | Publish i => publish p i
  | Rollback i => rollback p i
  end.

(** ** The system *)
Inductive step : Pool * list Op -> Pool * list Op -> Prop :=
| step_op c p l1 o l2 p' os : exec c p o = Some (p', os) -> step (p, l1 ++ o :: l2) (p', l1 ++ os ++ l2)
| step_call call p ops p' os : enter p call = Some (p', os) -> step (p, ops) (p', os ++ ops).

Definition reachable (cap : nat) (s : Pool * list Op) : Prop := exists p, new_pool cap = Ok p /\ rtc step (p, []) s.

(** ** Bits *)
Definition idle_bit (p : Pool) (i : nat) : bool :=
  match words p !! (i / bits_per_word) with Some x => N.testbit x (N.of_nat (i mod bits_per_word)) | None => false end.

Lemma positive_ctz_bit q : N.testbit (Npos q) (N.of_nat (positive_ctz q)) = true.
Proof.
  induction q as [q IH|q IH|]; cbn [positive_ctz]; [done| |done].
  rewrite Nat2N.inj_succ. change (N.pos q~0) with (2 * N.pos q)%N. by rewrite N.testbit_even_succ by lia.
Qed.

Lemma clear_lowest_bit q j :
  N.testbit (clear_lowest (Npos q)) (N.of_nat j) = N.testbit (Npos q) (N.of_nat j) && negb (j =? positive_ctz q).
Proof.
  unfold clear_lowest. rewrite N.land_spec. revert j. induction q as [q IH|q IH|]; intros j; cbn [positive_ctz].
  - change (N.pred (N.pos q~1)) with (2 * N.pos q)%N. change (N.pos q~1) with (2 * N.pos q + 1)%N. destruct j as [|j]; [done|].
    rewrite Nat2N.inj_succ, N.testbit_odd_succ, N.testbit_even_succ by lia. cbn [Nat.eqb negb]. by destruct (N.testbit _ _).
  - replace (N.pred (N.pos q~0)) with (2 * N.pred (N.pos q) + 1)%N by lia. change (N.pos q~0) with (2 * N.pos q)%N.
    destruct j as [|j]; [by rewrite N.testbit_even_0|].
    rewrite Nat2N.inj_succ, N.testbit_odd_succ, N.testbit_even_succ by lia. apply IH.
  - destruct j as [|j]; [done|]. cbn [Nat.eqb negb]. by rewrite N.bits_0, andb_false_r, andb_true_r.
Qed.

Lemma testbit_bound x j : (x < 2 ^ 64)%N -> N.testbit x (N.of_nat j) = true -> j < 64.
Proof.
  intros Hx Hb. destruct (decide (j < 64)) as [|Hj]; [done|]. exfalso. destruct (decide (x = 0%N)) as [->|H0]; [by rewrite N.bits_0 in Hb|].
  rewrite N.bits_above_log2 in Hb; [done|]. apply N.log2_lt_pow2; [lia|]. eapply N.lt_le_trans; [exact Hx|]. apply N.pow_le_mono_r; lia.
Qed.

(** A word is described by its bits. *)
Lemma word_bound x : (forall j, N.testbit x (N.of_nat j) = true -> j < 64) -> (x < 2 ^ 64)%N.
Proof.
  intros H. destruct (decide (x = 0%N)) as [->|H0]; [done|]. apply N.log2_lt_pow2; [lia|].
  pose proof (H (N.to_nat (N.log2 x))) as Hl. rewrite N2Nat.id, N.bit_log2 in Hl by done. specialize (Hl eq_refl). lia.
Qed.

Lemma bit_mask_spec i j : N.testbit (bit_mask i) (N.of_nat j) = (j =? i mod 64).
Proof.
  unfold bit_mask, bits_per_word. rewrite N.shiftl_1_l. destruct (Nat.eqb_spec j (i mod 64)) as [->|Hn]; [apply N.pow2_bits_true|].
  apply N.pow2_bits_false. lia.
Qed.

(** Position of an index in the bitmap. *)
Lemma index_split i w j : j < 64 -> (i = w * 64 + j <-> i / 64 = w /\ i mod 64 = j).
Proof. intros Hj. pose proof (Nat.div_mod_eq i 64). pose proof (Nat.mod_upper_bound i 64). split; [intros ->|]; lia || (split; lia). Qed.

#[local] Arguments cnt : simpl never.
#[local] Arguments idle_bit : simpl never.
#[local] Arguments Nat.div : simpl never.
#[local] Arguments Nat.modulo : simpl never.
#[local] Arguments one : simpl never.

(** A word whose bits are those of [x] filtered by a predicate stays a word. *)
Lemma idle_bit_insert p w x j :
  w < length (words p) ->
  idle_bit (set_words p (<[w := x]> (words p))) j = if j / 64 =? w then N.testbit x (N.of_nat (j mod 64)) else idle_bit p j.
Proof.
  intros Hw. unfold idle_bit, bits_per_word. cbn [words set_words]. destruct (Nat.eqb_spec (j / 64) w) as [->|Hn].
  - by rewrite list_lookup_insert_eq.
  - by rewrite list_lookup_insert_ne.
Qed.

Lemma idle_bit_words p q j : words p = words q -> idle_bit p j = idle_bit q j.
Proof. unfold idle_bit. by intros ->. Qed.

Lemma publish_bit_idle p i j :
  i / 64 < length (words p) -> idle_bit (publish_bit p i) j = idle_bit p j || (j =? i).
Proof.
  intros Hi. unfold publish_bit. destruct (lookup_lt_is_Some_2 (words p) (i / 64) Hi) as [x Hx].
  assert (Ha : alter (fun x => N.lor x (bit_mask i)) (i / 64) (words p) = <[i / 64 := N.lor x (bit_mask i)]> (words p)).
  { apply list_eq. intros k. destruct (decide (i / 64 = k)) as [<-|].
    - by rewrite list_lookup_alter_eq, list_lookup_insert_eq, Hx by done.
    - by rewrite list_lookup_alter_ne, list_lookup_insert_ne. }
  unfold bits_per_word at 1. rewrite Ha, idle_bit_insert by done.
  pose proof (Nat.div_mod_eq i 64). rewrite N.lor_spec, bit_mask_spec. unfold idle_bit, bits_per_word.
  pose proof (Nat.div_mod_eq j 64). destruct (Nat.eqb_spec (j / 64) (i / 64)) as [He|Hn].
  - rewrite He, Hx. f_equal. destruct (Nat.eqb_spec (j mod 64) (i mod 64)), (Nat.eqb_spec j i); subst; done || lia.
  - destruct (Nat.eqb_spec j i); [congruence|]. by rewrite orb_false_r.
Qed.

Definition words_ok (p : Pool) : Prop := Forall (fun x => (x < 2 ^ 64)%N) (words p).

Lemma publish_bit_words p i : words_ok p -> words_ok (publish_bit p i).
Proof.
  unfold words_ok, publish_bit. intros H. cbn. apply Forall_alter; [done|]. intros x Hx Hb.
  apply word_bound. intros j. rewrite N.lor_spec, bit_mask_spec, orb_true_iff, Nat.eqb_eq.
  intros [Hj| ->]; [by eapply testbit_bound|]. by apply Nat.mod_upper_bound.
Qed.

Lemma clear_lowest_bound x : (x < 2 ^ 64)%N -> (clear_lowest x < 2 ^ 64)%N.
Proof.
  intros Hx. destruct x as [|q]; [done|]. apply word_bound. intros j. rewrite clear_lowest_bit, andb_true_iff.
  intros [Hj _]. by eapply testbit_bound.
Qed.

(** The index that the lowest bit of word [w] stands for. *)
Lemma lowest_index w x : (x < 2 ^ 64)%N -> x <> 0%N ->
  let i := w * 64 + countr_zero x in
  i / 64 = w /\ i mod 64 = countr_zero x /\ N.testbit x (N.of_nat (i mod 64)) = true /\
  (forall j, j / 64 = w -> N.testbit (clear_lowest x) (N.of_nat (j mod 64)) = N.testbit x (N.of_nat (j mod 64)) && negb (j =? i)).
Proof.
  intros Hx H0. destruct x as [|q]; [done|]. cbn [countr_zero]. pose proof (positive_ctz_bit q) as Hb.
  pose proof (testbit_bound _ _ Hx Hb) as Hlt. destruct (proj1 (index_split _ w _ Hlt) eq_refl) as [H1 H2].
  split_and!; [done|done|by rewrite H2|]. intros j Hj. rewrite clear_lowest_bit. do 2 f_equal.
  pose proof (index_split j w _ Hlt). destruct (Nat.eqb_spec (j mod 64) (positive_ctz q)), (Nat.eqb_spec j (w * 64 + positive_ctz q)); tauto.
Qed.

Lemma claim_word_spec p w i p' : words_ok p -> claim_word p w = Some (i, p') ->
  i / 64 = w /\ idle_bit p i = true /\ words_ok p' /\ length (words p') = length (words p) /\
  (forall j, idle_bit p' j = idle_bit p j && negb (j =? i)) /\
  p' = set_states (set_words p (words p')) (<[i := Borrowed]> (states p)).
Proof.
  intros Hok H. unfold claim_word in H. destruct (words p !! w) as [x|] eqn:Hx; [|done].
  destruct (N.eqb_spec x 0) as [|H0]; [done|]. injection H as <- <-.
  pose proof (proj1 (Forall_lookup _ _) Hok _ _ Hx) as Hb. destruct (lowest_index w x Hb H0) as (H1 & H2 & H3 & H4). cbn zeta in *.
  assert (Hw : w < length (words p)) by (by eapply lookup_lt_Some).
  unfold bits_per_word in *. split_and!; [done|unfold idle_bit, bits_per_word; by rewrite H1, Hx| | | |done].
  - unfold words_ok. cbn. apply Forall_insert; [done|]. by apply clear_lowest_bound.
  - apply length_insert.
  - intros j. rewrite (idle_bit_words _ (set_words p (<[w := clear_lowest x]> (words p)))), idle_bit_insert by done.
    destruct (Nat.eqb_spec (j / 64) w) as [Hj|Hj]; [rewrite H4 by done; unfold idle_bit, bits_per_word; by rewrite Hj, Hx|].
    destruct (Nat.eqb_spec j (w * 64 + countr_zero x)) as [->|]; [done|]. by rewrite andb_true_r.
Qed.

Lemma reclaim_idle_spec p i : words_ok p ->
  match reclaim_idle p i with
  | Some p' =>
      idle_bit p i = true /\ words_ok p' /\ length (words p') = length (words p) /\
      (forall j, idle_bit p' j = idle_bit p j && negb (j =? i)) /\
      p' = set_states (set_words p (words p')) (<[i := Borrowed]> (states p))
  | None => idle_bit p i = false
  end.
Proof.
  intros Hok. unfold reclaim_idle, bits_per_word. destruct (words p !! (i / 64)) as [x|] eqn:Hx; [|unfold idle_bit, bits_per_word; by rewrite Hx].
  destruct (N.testbit x _) eqn:Hb; [|unfold idle_bit, bits_per_word; by rewrite Hx].
  pose proof (proj1 (Forall_lookup _ _) Hok _ _ Hx : (x < 2 ^ 64)%N) as Hx'. assert (Hw : i / 64 < length (words p)) by (by eapply lookup_lt_Some).
  split_and!; [unfold idle_bit, bits_per_word; by rewrite Hx| | | |done].
  - unfold words_ok. cbn. apply Forall_insert; [done|]. apply word_bound. intros j. rewrite N.ldiff_spec, andb_true_iff.
    intros [Hj _]. by eapply testbit_bound.
  - apply length_insert.
  - intros j. rewrite (idle_bit_words _ (set_words p (<[i / 64 := N.ldiff x (bit_mask i)]> (words p)))), idle_bit_insert by done.
    rewrite N.ldiff_spec, bit_mask_spec. pose proof (Nat.div_mod_eq i 64). pose proof (Nat.div_mod_eq j 64). unfold idle_bit, bits_per_word.
    destruct (Nat.eqb_spec (j / 64) (i / 64)) as [Hj|Hj].
    + rewrite Hj, Hx. do 2 f_equal. destruct (Nat.eqb_spec (j mod 64) (i mod 64)), (Nat.eqb_spec j i); subst; lia || done.
    + destruct (Nat.eqb_spec j i) as [->|]; [done|]. by rewrite andb_true_r.
Qed.

(** ** Ownership

    The slots a running call has claimed and not yet given on, and those a sweep took
    out of the bitmap. *)
Definition op_slot (o : Op) : option nat :=
  match o with
  | TryGot i | AcqGot _ _ i | Deliver i | QuarantineLock i | RelStart i | RelGate i | RelPublish i | HandLock i _ | HandHeld i _
  | TakeLock i => Some i
  | _ => None
  end.

Definition slot_at (i : nat) (o : Op) : nat := match op_slot o with Some j => one (j =? i) | None => 0 end.
Definition swept_at (i : nat) (o : Op) : nat :=
  match o with SweepWord w x => one ((i / bits_per_word =? w) && N.testbit x (N.of_nat (i mod bits_per_word))) | _ => 0 end.
Definition assigned_at (i : nat) (e : nat * WaiterState) : nat :=
  match snd e with Assigned j => one (j =? i) | _ => 0 end.
Definition token_at (i : nat) (e : nat * bool) : nat := one (fst e =? i).

(** How often slot [i] occurs in the places that belong to a slot state. *)
Definition part (p : Pool) (ops : list Op) (s : SlotState) (i : nat) : nat :=
  match s with
  | Vacant => cnt i (vacant p)
  | Reserved => sum_list_with (token_at i) (tokens p)
  | Idle => one (idle_bit p i) + sum_list_with (swept_at i) ops
  | Borrowed => cnt i (lent p) + sum_list_with (assigned_at i) (completed p) + sum_list_with (slot_at i) ops
  | Quarantined => cnt i (quarantined p)
  end.

#[export] Instance slot_state_eq_dec : EqDecision SlotState.
Proof. solve_decision. Defined.

Definition word_count (cap : nat) : nat := cap / bits_per_word + if cap mod bits_per_word =? 0 then 0 else 1.

Record inv_data (p : Pool) (ops : list Op) : Prop := {
  d_len : length (words p) = word_count (capacity p);
  d_words : words_ok p;
  d_sweep : Forall (fun o => match o with SweepWord _ x => (x < 2 ^ 64)%N | _ => True end) ops;
  d_own s i : part p ops s i = one (bool_decide (states p !! i = Some s));
  d_count : Z.of_nat (capacity p) = (Z.of_nat (length (vacant p)) + Z.of_nat (reserved_count p) + Z.of_nat (length (quarantined p)) + usable_size p)%Z;
  d_tokens : reserved_count p = length (tokens p)
}.

Lemma one_true b : 0 < one b -> b = true.
Proof. destruct b; unfold one; lia || done. Qed.

Lemma part_state p ops s i : inv_data p ops -> 0 < part p ops s i -> states p !! i = Some s.
Proof. intros [_ _ _ H _ _] Hp. rewrite H in Hp. by apply one_true, bool_decide_eq_true in Hp. Qed.

Lemma word_index cap i : i < cap -> i / 64 < word_count cap.
Proof.
  intros Hi. unfold word_count, bits_per_word. pose proof (Nat.div_mod_eq i 64). pose proof (Nat.div_mod_eq cap 64).
  pose proof (Nat.mod_upper_bound i 64). pose proof (Nat.mod_upper_bound cap 64). destruct (Nat.eqb_spec (cap mod 64) 0); lia.
Qed.

Lemma part_word p ops s i : inv_data p ops -> 0 < part p ops s i -> i / 64 < length (words p).
Proof. intros Hd Hp. rewrite (d_len _ _ Hd). apply word_index. eapply lookup_lt_Some. by eapply part_state. Qed.

(** Moving slot [i] from the places of one state to those of another. *)
Lemma own_move p ops p' ops' a b i :
  (forall s j, part p ops s j = one (bool_decide (states p !! j = Some s))) -> a <> b ->
  states p' = <[i := b]> (states p) ->
  (forall s j, part p' ops' s j + (if decide (s = a) then one (i =? j) else 0) =
               part p ops s j + (if decide (s = b) then one (i =? j) else 0)) ->
  forall s j, part p' ops' s j = one (bool_decide (states p' !! j = Some s)).
Proof.
  intros H Hab Hs Hp s j. rewrite Hs. assert (Hi : states p !! i = Some a).
  { pose proof (Hp a i) as Ha. rewrite decide_True, decide_False in Ha by done. unfold one at 1 in Ha. rewrite Nat.eqb_refl in Ha.
    rewrite H in Ha. apply (bool_decide_eq_true _), one_true. lia. }
  specialize (Hp s j). rewrite H in Hp. unfold one in Hp |- *. destruct (Nat.eqb_spec i j) as [Hj|Hn]; [subst j|].
  - rewrite list_lookup_insert_eq by (by eapply lookup_lt_Some). rewrite Hi in Hp.
    repeat case_bool_decide; repeat case_decide; simplify_eq; lia.
  - rewrite list_lookup_insert_ne by done. repeat case_decide; lia.
Qed.

Lemma sum_delete {A} (f : A -> nat) l pos x : l !! pos = Some x -> sum_list_with f (delete pos l) + f x = sum_list_with f l.
Proof.
  intros H. rewrite <- (take_drop_middle l pos x H) at 2. rewrite delete_take_drop, !sum_list_with_app. cbn. lia.
Qed.

Lemma sum_insert {A} (f : A -> nat) l pos x y : l !! pos = Some x -> f x = f y -> sum_list_with f (<[pos := y]> l) = sum_list_with f l.
Proof.
  intros H Hf. rewrite insert_take_drop by (by eapply lookup_lt_Some). rewrite <- (take_drop_middle l pos x H) at 3.
  rewrite !sum_list_with_app. cbn. lia.
Qed.

Lemma sum_perm {A} (f : A -> nat) l k : l ≡ₚ k -> sum_list_with f l = sum_list_with f k.
Proof. induction 1; cbn; lia. Qed.

Lemma cnt_last i l x : last l = Some x -> cnt i (removelast l) + one (x =? i) = cnt i l.
Proof.
  intros H. apply last_Some in H as [k ->]. rewrite removelast_last, cnt_app, cnt_cons, cnt_nil. lia.
Qed.

(** ** Inversion of a step *)
Lemma scan_cases p w next found none r : scan p w next found none = Some r ->
  (exists i p', claim_word p w = Some (i, p') /\ found i p' = r) \/
  (claim_word p w = None /\ w < length (words p) /\ (p, [next]) = r) \/ (length (words p) <= w /\ none = r).
Proof.
  unfold scan. destruct (Nat.ltb_spec w (length (words p))); [|intros [= <-]; by right; right].
  destruct (claim_word p w) as [[i p']|]; intros [= <-]; eauto 10.
Qed.

Ltac split_step H :=
  repeat match type of H with
    | scan _ _ _ _ _ = Some _ => apply scan_cases in H as [(?i & ?q & ?Hclaim & H)|[(?Hclaim & ?Hw & H)|(?Hw & H)]]
    | context [match ?x with _ => _ end] =>
        lazymatch x with
        | context [match _ with _ => _ end] => fail
        | _ => destruct x eqn:?
        end
    end; simplify_eq.

Ltac step_cases H :=
  cbn [exec try_acquire acquire handoff_or_publish serve_waiters_locked try_take_idle shutdown] in H; unfold lock, deliver, handoff_or_publish_locked, parked in H; cbv zeta in H; split_step H.

Ltac enter_unfold H :=
  cbn [enter] in H;
  unfold try_reserve, try_take_quarantined, close, release_now, quarantine, emplace, destroy, publish, rollback, lock in H; cbv zeta in H.

(** ** The inventory is preserved *)

(** Steps that leave the arena alone, and only pass a slot between calls and callers. *)
Lemma data_frame p ops p' ops' :
  inv_data p ops -> words p' = words p -> states p' = states p -> vacant p' = vacant p -> quarantined p' = quarantined p ->
  usable_size p' = usable_size p -> reserved_count p' = reserved_count p -> tokens p' = tokens p ->
  Forall (fun o => match o with SweepWord _ x => (x < 2 ^ 64)%N | _ => True end) ops' ->
  (forall i, cnt i (lent p') + sum_list_with (assigned_at i) (completed p') + sum_list_with (slot_at i) ops' =
             cnt i (lent p) + sum_list_with (assigned_at i) (completed p) + sum_list_with (slot_at i) ops) ->
  (forall i, sum_list_with (swept_at i) ops' = sum_list_with (swept_at i) ops) ->
  inv_data p' ops'.
Proof.
  intros [D1 D2 D3 D4 D5 D6] Hw Hs Hv Hq Hu Hr Ht Hf Hb Hi. unfold capacity, words_ok in *.
  split; unfold capacity, words_ok; rewrite ?Hw, ?Hs, ?Hv, ?Hq, ?Hu, ?Hr, ?Ht; try done.
  intros s i. rewrite <- D4. destruct s; cbn; rewrite ?Hv, ?Hq, ?Ht, ?Hi, ?(idle_bit_words p' p) by done; done || apply Hb.
Qed.

Ltac dec_states := repeat first [rewrite decide_True by done | rewrite decide_False by done].

(** A step that moves one slot and leaves the bitmap alone. *)
Lemma data_move p ops p' ops' a b i :
  inv_data p ops -> a <> b -> words p' = words p -> states p' = <[i := b]> (states p) ->
  Forall (fun o => match o with SweepWord _ x => (x < 2 ^ 64)%N | _ => True end) ops' ->
  (forall s j, part p' ops' s j + (if decide (s = a) then one (i =? j) else 0) =
               part p ops s j + (if decide (s = b) then one (i =? j) else 0)) ->
  (Z.of_nat (length (vacant p')) + Z.of_nat (reserved_count p') + Z.of_nat (length (quarantined p')) + usable_size p' =
   Z.of_nat (length (vacant p)) + Z.of_nat (reserved_count p) + Z.of_nat (length (quarantined p)) + usable_size p)%Z ->
  reserved_count p' = length (tokens p') -> inv_data p' ops'.
Proof.
  intros [D1 D2 D3 D4 D5 D6] Hab Hw Hs Hf Hp Hn Ht.
  assert (Ec : capacity p' = capacity p) by (unfold capacity; by rewrite Hs, length_insert).
  split; rewrite ?Ec, ?Hw; try done; [by unfold words_ok; rewrite Hw|by apply (own_move p ops _ _ a b i)|lia].
Qed.

(** Evaluates the parts on both sides of a move. *)
Ltac move_counts p :=
  let s := fresh in let j := fresh "j" in intros s j; destruct s; dec_states; cbn [part];
  try match goal with H : tokens _ !! _ = Some _ |- _ => pose proof (sum_delete (token_at j) _ _ _ H) end;
  try match goal with H : last _ = Some _ |- _ => pose proof (cnt_last j _ _ H) end;
  try match goal with H : _ ∈ lent _ |- _ => pose proof (cnt_remove_one j _ _ H) end;
  try match goal with |- context [idle_bit ?q j] => rewrite (idle_bit_words q p) by done end;
  cbn in *; rewrite ?cnt_app, ?cnt_cons, ?cnt_nil; unfold token_at in *; cbn in *; lia.

(** A claimed bit is owned by the claiming call, for which [RelStart] stands. *)
Lemma data_take p rest q i :
  inv_data p rest -> idle_bit p i = true -> words_ok q -> length (words q) = length (words p) ->
  (forall j, idle_bit q j = idle_bit p j && negb (j =? i)) -> q = set_states (set_words p (words q)) (<[i := Borrowed]> (states p)) ->
  inv_data q (RelStart i :: rest).
Proof.
  intros [D1 D2 D3 D4 D5 D6] Hi Hq Hlen Hb Eq. assert (Ec : capacity q = capacity p) by (rewrite Eq; apply length_insert).
  split; rewrite ?Ec, ?Hlen; try done; [by constructor| |by rewrite Eq..].
  apply (own_move p rest _ _ Idle Borrowed i); [done|done|by rewrite Eq|]. intros s j.
  assert (Ef : vacant q = vacant p /\ tokens q = tokens p /\ quarantined q = quarantined p /\ lent q = lent p /\ completed q = completed p)
    by (by rewrite Eq). destruct Ef as (E1 & E2 & E3 & E4 & E5).
  destruct s; dec_states; cbn [part]; rewrite ?E1, ?E2, ?E3, ?E4, ?E5, ?Hb; cbn; [lia|lia| |lia|lia].
  destruct (Nat.eqb_spec j i) as [->|Hn]; [rewrite Hi, Nat.eqb_refl; unfold one; cbn; lia|].
  rewrite (proj2 (Nat.eqb_neq i j)) by done. rewrite andb_true_r. unfold one. lia.
Qed.

Lemma data_claim p rest w i q : inv_data p rest -> claim_word p w = Some (i, q) -> inv_data q (RelStart i :: rest).
Proof.
  intros Hd Hc. apply claim_word_spec in Hc as (_ & H1 & H2 & H3 & H4 & H5); [|apply Hd]. by eapply data_take.
Qed.

Lemma data_reclaim p rest i q : inv_data p rest -> reclaim_idle p i = Some q -> inv_data q (RelStart i :: rest).
Proof.
  intros Hd Hc. pose proof (reclaim_idle_spec p i (d_words _ _ Hd)) as Hs. rewrite Hc in Hs. destruct Hs as (H1 & H2 & H3 & H4 & H5).
  by eapply data_take.
Qed.

Lemma data_quarantine p rest i : inv_data p (RelStart i :: rest) -> inv_data (quarantine_borrowed p i) rest.
Proof.
  intros Hd. apply (data_move p (RelStart i :: rest) _ _ Borrowed Quarantined i); try done.
  - by apply (Forall_inv_tail (d_sweep _ _ Hd)).
  - move_counts p.
  - cbn. rewrite length_app. cbn. lia.
  - apply Hd.
Qed.

Lemma data_publish p rest i : inv_data p (RelStart i :: rest) -> inv_data (publish_bit (set_state p i Idle) i) rest.
Proof.
  intros Hd. assert (Hw : i / 64 < length (words p)).
  { apply (part_word p (RelStart i :: rest) Borrowed); [done|]. cbn. rewrite Nat.eqb_refl. unfold one. lia. }
  destruct Hd as [D1 D2 D3 D4 D5 D6]. assert (Ec : capacity (publish_bit (set_state p i Idle) i) = capacity p) by apply length_insert.
  split; rewrite ?Ec; try done; [by cbn; rewrite length_alter|by apply publish_bit_words|by inversion D3|].
  apply (own_move p (RelStart i :: rest) _ _ Borrowed Idle i); [done|done|done|]. intros s j.
  assert (Hb : idle_bit p i = false).
  { pose proof (D4 Idle i) as H1. pose proof (D4 Borrowed i) as H2. cbn in H1, H2.
    rewrite Nat.eqb_refl in H2. destruct (idle_bit p i); [|done].
    unfold one in *. repeat case_bool_decide; simplify_eq; lia. }
  destruct s; dec_states; cbn [part]; [cbn; lia|cbn; lia| | |cbn; lia].
  - rewrite publish_bit_idle by done. rewrite (idle_bit_words (set_state p i Idle) p) by done. cbn.
    destruct (Nat.eqb_spec j i) as [->|Hn]; [rewrite Hb, Nat.eqb_refl; unfold one; cbn; lia|].
    rewrite (proj2 (Nat.eqb_neq i j)) by done. rewrite orb_false_r. unfold one. lia.
  - cbn. lia.
Qed.

(** A sweep takes a whole word out of the bitmap, then quarantines its bits one by one. *)
Lemma data_sweep p rest w x :
  inv_data p (Sweep w :: rest) -> words p !! w = Some x -> inv_data (set_words p (<[w := 0%N]> (words p))) (SweepWord w x :: rest).
Proof.
  intros [D1 D2 D3 D4 D5 D6] Hx. assert (Hw : w < length (words p)) by (by eapply lookup_lt_Some).
  pose proof (proj1 (Forall_lookup _ _) D2 _ _ Hx : (x < 2 ^ 64)%N) as Hb.
  split; try done; [by cbn; rewrite length_insert|by apply Forall_insert|by inversion D3; constructor|].
  intros s j. rewrite <- D4. destruct s; cbn [part]; try done. rewrite idle_bit_insert by done. cbn.
  unfold bits_per_word. destruct (Nat.eqb_spec (j / 64) w) as [Hj|Hj]; [|unfold one; cbn; lia].
  unfold idle_bit, bits_per_word. rewrite Hj, Hx. unfold one. cbn. lia.
Qed.

Lemma data_sweep_word p rest w x :
  inv_data p (SweepWord w x :: rest) -> x <> 0%N ->
  inv_data (quarantine_borrowed p (w * 64 + countr_zero x)) (SweepWord w (clear_lowest x) :: rest).
Proof.
  intros [D1 D2 D3 D4 D5 D6] H0. set (i := w * 64 + countr_zero x). inversion D3 as [|? ? Hb Hr]; subst.
  destruct (lowest_index w x Hb H0) as (H1 & H2 & H3 & H4). fold i in H1, H2, H3, H4.
  assert (Ec : capacity (quarantine_borrowed p i) = capacity p) by apply length_insert.
  split; rewrite ?Ec; try done; [by constructor; [apply clear_lowest_bound|]| |cbn; rewrite length_app; cbn; lia].
  apply (own_move p (SweepWord w x :: rest) _ _ Idle Quarantined i); [done|done|done|]. intros s j.
  destruct s; dec_states; cbn [part]; rewrite ?(idle_bit_words (quarantine_borrowed p i) p) by done;
    cbn; rewrite ?cnt_app, ?cnt_cons, ?cnt_nil; try lia.
  unfold bits_per_word. destruct (Nat.eqb_spec (j / 64) w) as [Hj|Hj]; cbn [andb].
  - rewrite H4 by done. destruct (Nat.eqb_spec j i) as [->|Hn]; [rewrite H3, Nat.eqb_refl; unfold one; cbn; lia|].
    rewrite (proj2 (Nat.eqb_neq i j)) by done. rewrite andb_true_r. unfold one. lia.
  - destruct (Nat.eqb_spec i j) as [->|]; [done|]. unfold one. lia.
Qed.

(** ** Tokens of reserved slots *)
Lemma data_reserve_idle p rest i :
  inv_data p (RelStart i :: rest) ->
  inv_data (set_tokens (set_reserved_count (set_usable_size (set_state p i Reserved) (usable_size p - 1)) (reserved_count p + 1))
              ((i, true) :: tokens p)) rest.
Proof.
  intros Hd. apply (data_move p (RelStart i :: rest) _ _ Borrowed Reserved i); try done.
  - by apply (Forall_inv_tail (d_sweep _ _ Hd)).
  - move_counts p.
  - cbn. lia.
  - cbn. rewrite (d_tokens _ _ Hd). lia.
Qed.

(** The step only passes slots on: discharges [data_frame] from [Hd]. *)
Ltac pass_slots Hd :=
  apply (data_frame _ _ _ _ Hd);
  [reflexivity|reflexivity|reflexivity|reflexivity|reflexivity|reflexivity|reflexivity|repeat constructor; assumption
  |let j := fresh "j" in intros j;
   try match goal with H : completed _ !! _ = Some _ |- _ => pose proof (sum_delete (assigned_at j) _ _ _ H) end;
   cbn in *; rewrite ?sum_list_with_app, ?cnt_app, ?cnt_cons; cbn; lia
  |intros; cbn; lia].

(** The slot of the running call, held by the canonical [RelStart]. *)
Ltac hold Hd i rest H :=
  match type of Hd with inv_data ?p _ => assert (H : inv_data p (RelStart i :: rest)) by pass_slots Hd end.

(** The steps that move a slot, by what they do to the arena. *)
Ltac move_slot Hd :=
  match type of Hd with
  | inv_data ?p (_ :: ?rest) =>
      match goal with
      | H : claim_word _ _ = Some (?i, ?q) |- _ =>
          let Hb := fresh in let Hq := fresh in
          assert (Hb : inv_data p rest) by pass_slots Hd; pose proof (data_claim _ _ _ _ _ Hb H) as Hq; pass_slots Hq
      | H : reclaim_idle _ _ = Some ?q |- _ =>
          let Hb := fresh in let Hq := fresh in
          assert (Hb : inv_data p rest) by pass_slots Hd; pose proof (data_reclaim _ _ _ _ Hb H) as Hq; pass_slots Hq
      | |- context [quarantine_borrowed ?p' ?i] =>
          let Hh := fresh in let Hq := fresh in hold Hd i rest Hh; pose proof (data_quarantine _ _ _ Hh) as Hq; pass_slots Hq
      | |- context [publish_bit (set_state ?p' ?i Idle) ?i] =>
          let Hh := fresh in let Hq := fresh in hold Hd i rest Hh; pose proof (data_publish _ _ _ Hh) as Hq; pass_slots Hq
      end
  end.

Lemma data_exec c p o rest r : inv_data p (o :: rest) -> exec c p o = Some r -> inv_data (fst r) (snd r ++ rest).
Proof.
  intros Hd H. assert (Hr := Forall_inv_tail (d_sweep _ _ Hd)).
  destruct o; step_cases H; cbn [app fst snd];
    try match goal with H : list_find _ _ = Some _ |- _ => apply list_find_Some in H as (? & ? & _) end;
    try (by pass_slots Hd); try (by move_slot Hd).
  - hold Hd i rest Hh. by apply data_reserve_idle.
  - by apply data_sweep.
  - match goal with H : (_ =? 0)%N = true |- _ => apply N.eqb_eq in H as -> end. apply (data_frame _ _ _ _ Hd); try done.
    + by repeat constructor.
    + intros j. cbn. by rewrite andb_false_r.
  - apply data_sweep_word; [done|]. by apply N.eqb_neq.
Qed.

Lemma data_perm p ops ops' : ops ≡ₚ ops' -> inv_data p ops -> inv_data p ops'.
Proof.
  intros Hp Hd. apply (data_frame _ _ _ _ Hd); try done; [rewrite <- Hp; apply Hd|intros i..].
  - f_equal. by apply sum_perm.
  - by apply sum_perm.
Qed.

(** Taking the token out of the reserved ones. *)
Lemma find_token_spec p i pos c : find_token p i = Some (pos, c) -> tokens p !! pos = Some (i, c).
Proof.
  unfold find_token. destruct (list_find _ _) as [[n [j b]]|] eqn:E; [|done]. intros [= -> ->].
  apply list_find_Some in E as (H & Hj & _). cbn in Hj. by subst.
Qed.

Lemma length_delete_token (p : Pool) pos i c : tokens p !! pos = Some (i, c) -> S (length (delete pos (tokens p))) = length (tokens p).
Proof.
  intros H. rewrite length_delete by (by eexists). apply lookup_lt_Some in H. lia.
Qed.

(** The constructed flag of a token is not part of the inventory. *)
Lemma data_flag p ops pos i c c' :
  inv_data p ops -> tokens p !! pos = Some (i, c) -> inv_data (set_tokens p (<[pos := (i, c')]> (tokens p))) ops.
Proof.
  intros [D1 D2 D3 D4 D5 D6] H. split; try done; [|by cbn; rewrite length_insert].
  intros s j. rewrite <- D4. destruct s; try done. cbn. by apply (sum_insert _ _ _ (i, c)).
Qed.

Lemma length_removelast_last {A} (l : list A) x : last l = Some x -> S (length (removelast l)) = length l.
Proof. intros H. apply last_Some in H as [k ->]. rewrite removelast_last, length_app. cbn. lia. Qed.

Lemma data_enter p ops call r : inv_data p ops -> enter p call = Some r -> inv_data (fst r) (snd r ++ ops).
Proof.
  intros Hd H. assert (Hr := d_sweep _ _ Hd). pose proof (d_tokens _ _ Hd) as Ht.
  destruct call as [|k b| | | | |i|i|i|i|i|i]; enter_unfold H;
    try (apply bind_Some in H as ([pos c] & Hf%find_token_spec & H));
    split_step H; cbn [app fst snd]; try (by pass_slots Hd);
    try match goal with H : bool_decide _ = true |- _ => apply bool_decide_eq_true in H end.
  - pose proof (length_removelast_last _ _ Heqo). apply (data_move p ops _ _ Vacant Reserved n); try done; [move_counts p|cbn; lia..].
  - pose proof (length_removelast_last _ _ Heqo). apply (data_move p ops _ _ Quarantined Reserved n); try done; [move_counts p|cbn; lia..].
  - apply (data_frame _ _ _ _ Hd); try done; [by constructor|]. intros j. cbn. pose proof (cnt_remove_one j _ _ Heqb). lia.
  - apply andb_true_iff in Heqb as [Hi%bool_decide_eq_true _]. apply (data_move p ops _ _ Borrowed Quarantined i); try done; [move_counts p|].
    cbn. rewrite length_app. cbn. lia.
  - by eapply data_flag.
  - by eapply data_flag.
  - pose proof (length_delete_token _ _ _ _ Hf). apply (data_move p ops _ _ Reserved Borrowed i); try done;
      [by constructor|move_counts p|cbn; lia..].
  - pose proof (length_delete_token _ _ _ _ Hf). apply (data_move p ops _ _ Reserved Vacant i); try done;
      [move_counts p|cbn; rewrite ?length_app; cbn; lia..].
Qed.

Lemma data_new cap p : new_pool cap = Ok p -> inv_data p [].
Proof.
  unfold new_pool. destruct (Nat.eqb_spec cap 0); [done|]. intros [= <-].
  split; try done; unfold capacity; cbn -[word_count].
  - by rewrite !length_replicate.
  - by apply Forall_replicate.
  - intros s i. assert (Hl : replicate cap Vacant !! i = if i <? cap then Some Vacant else None).
    { destruct (Nat.ltb_spec i cap); [by apply lookup_replicate_2|]. apply lookup_ge_None_2. by rewrite length_replicate. }
    rewrite Hl. destruct s; cbn -[Nat.ltb].
    + rewrite (cnt_perm_eq i _ (seq 0 cap)) by apply reverse_Permutation. rewrite cnt_seq. by destruct (i <? cap).
    + by destruct (i <? cap).
    + unfold idle_bit. cbn -[Nat.ltb]. assert (Hz : forall n k, replicate n 0%N !! k = Some 0%N \/ replicate n 0%N !! k = None).
      { intros n' k. destruct (decide (k < n')); [left; by apply lookup_replicate_2|right]. apply lookup_ge_None_2. rewrite length_replicate. lia. }
      edestruct Hz as [-> | ->]; by destruct (i <? cap).
    + by destruct (i <? cap).
    + by destruct (i <? cap).
  - rewrite length_reverse, length_seq, length_replicate. lia.
Qed.

(** ** The mutex, the gate and the queue *)
Definition holder (o : Op) : nat := if holds_mutex o then 1 else 0.
Definition registering (o : Op) : nat := match o with RegScan _ _ _ => 1 | _ => 0 end.
Definition parked_at (id : nat) (o : Op) : nat := match o with Parked _ _ j => one (j =? id) | _ => 0 end.
Definition waiter_at (id : nat) (w : Waiter) : nat := one (waiter_id w =? id).
Definition done_at (id : nat) (e : nat * WaiterState) : nat := one (fst e =? id).

(** One call holds the mutex exactly when it is locked; the gate counts the queue and the
    caller that is registering; every parked call is queued or has its outcome, once. *)
Record inv_sync (p : Pool) (ops : list Op) : Prop := {
  s_lock : sum_list_with holder ops = one (mutex p);
  s_gate : waiter_gate p = length (waiters p) + sum_list_with registering ops;
  s_park id : sum_list_with (parked_at id) ops =
              sum_list_with (waiter_at id) (waiters p) + sum_list_with (done_at id) (completed p);
  s_fresh id : sum_list_with (waiter_at id) (waiters p) + sum_list_with (done_at id) (completed p) <= one (id <? next_waiter p)
}.

Lemma unlink_length id ws : length (filter (fun w => waiter_id w <> id) ws) + sum_list_with (waiter_at id) ws = length ws.
Proof.
  induction ws as [|w ws IH]; [done|]. rewrite filter_cons. cbn. unfold waiter_at at 1, one.
  destruct (Nat.eqb_spec (waiter_id w) id); case_decide; cbn; lia || done.
Qed.

Lemma unlink_sum id j ws :
  sum_list_with (waiter_at j) (filter (fun w => waiter_id w <> id) ws) = if id =? j then 0 else sum_list_with (waiter_at j) ws.
Proof.
  induction ws as [|w ws IH]; [by destruct (id =? j)|]. rewrite filter_cons.
  case_decide as Hd; cbn; rewrite IH; change (waiter_at j w) with (one (waiter_id w =? j)); unfold one;
    destruct (Nat.eqb_spec id j), (Nat.eqb_spec (waiter_id w) j); subst; done || lia || (exfalso; tauto).
Qed.

(** A queued node is queued once, so unlinking takes exactly it. *)
Lemma unlink_once p ops id : inv_sync p ops -> 0 < sum_list_with (waiter_at id) (waiters p) ->
  (forall j, sum_list_with (waiter_at j) (filter (fun w => waiter_id w <> id) (waiters p)) + one (id =? j) = sum_list_with (waiter_at j) (waiters p)) /\
  length (filter (fun w => waiter_id w <> id) (waiters p)) + 1 = length (waiters p).
Proof.
  intros Hs Hid. assert (H1 : sum_list_with (waiter_at id) (waiters p) = 1).
  { pose proof (s_fresh _ _ Hs id) as H. unfold one in H. destruct (id <? next_waiter p); lia. }
  pose proof (unlink_length id (waiters p)). split; [|lia]. intros j. rewrite unlink_sum. unfold one.
  destruct (Nat.eqb_spec id j) as [<-|]; lia.
Qed.

Lemma head_queued p w ws : waiters p = w :: ws -> 0 < sum_list_with (waiter_at (waiter_id w)) (waiters p).
Proof. intros ->. cbn. unfold waiter_at at 1, one. rewrite Nat.eqb_refl. lia. Qed.

(** A parked call that finds no outcome is in the queue. *)
Lemma parked_queued p k b id rest : inv_sync p (Parked k b id :: rest) ->
  list_find (fun e => fst e = id) (completed p) = None -> 0 < sum_list_with (waiter_at id) (waiters p).
Proof.
  intros Hs Hn. pose proof (s_park _ _ Hs id) as H. cbn in H. unfold one in H at 1. rewrite Nat.eqb_refl in H.
  assert (Hz : sum_list_with (done_at id) (completed p) = 0); [|lia]. apply list_find_None in Hn. clear -Hn.
  induction Hn as [|e l He _ IH]; [done|]. cbn. unfold done_at at 1, one. destruct (Nat.eqb_spec (fst e) id); [done|]. lia.
Qed.

(** Steps described by their effect on the counts. *)
Ltac sync_counts p :=
  pose proof (one_le (mutex p));
  cbn -[Nat.ltb] in *; repeat match goal with H : mutex p = _ |- _ => rewrite H in *; clear H end; unfold done_at, waiter_at in *; cbn -[Nat.ltb] in *;
  change (one true) with 1 in *; change (one false) with 0 in *;
  rewrite ?sum_list_with_app, ?length_app, ?one_succ; cbn -[Nat.ltb]; lia.

Ltac sync_step p S3 S4 :=
  let j := fresh "j" in
  split; [sync_counts p|sync_counts p|intros j; specialize (S3 j)|intros j; specialize (S3 j); specialize (S4 j)];
  repeat match goal with H : forall _ : nat, _ = _ |- _ => specialize (H j) end;
  try match goal with H : completed _ !! _ = Some _ |- _ => pose proof (sum_delete (done_at j) _ _ _ H) end;
  sync_counts p.

Lemma sync_exec c p o rest r : inv_sync p (o :: rest) -> inv_data p (o :: rest) -> exec c p o = Some r -> inv_sync (fst r) (snd r ++ rest).
Proof.
  intros Hs Hd H. destruct o; step_cases H; cbn [app fst snd]; pose proof Hs as [S1 S2 S3 S4];
    try match goal with H : list_find _ _ = Some _ |- _ => apply list_find_Some in H as (? & ? & _); simplify_eq/= end;
    try match goal with H : claim_word _ _ = Some _ |- _ => apply claim_word_spec in H as (_ & _ & _ & _ & _ & ->); [|apply Hd] end;
    try match goal with H : reclaim_idle ?p ?i = Some _ |- _ =>
      let Hx := fresh in pose proof (reclaim_idle_spec p i (d_words _ _ Hd)) as Hx; rewrite H in Hx; destruct Hx as (_ & _ & _ & _ & ->) end;
    try match goal with H : waiters p = _ :: _ |- _ => pose proof (unlink_once _ _ _ Hs (head_queued _ _ _ H)) as [? ?] end;
    try match goal with H : list_find _ _ = None |- _ => pose proof (unlink_once _ _ _ Hs (parked_queued _ _ _ _ _ Hs H)) as [? ?] end;
    try (by sync_step p S3 S4).
Qed.

Lemma sync_perm p ops ops' : ops ≡ₚ ops' -> inv_sync p ops -> inv_sync p ops'.
Proof. intros Hp [S1 S2 S3 S4]. split; intros; rewrite <- ?(sum_perm _ _ _ Hp); done. Qed.

Lemma sync_enter p ops call r : inv_sync p ops -> enter p call = Some r -> inv_sync (fst r) (snd r ++ ops).
Proof.
  intros Hs H. destruct call; enter_unfold H; try (apply bind_Some in H as ([pos ?] & _ & H));
    split_step H; cbn [app fst snd]; pose proof Hs as [S1 S2 S3 S4];
    try match goal with H : negb _ || _ = false |- _ => apply orb_false_iff in H as [_ H] end; by sync_step p S3 S4.
Qed.

Lemma sync_new cap p : new_pool cap = Ok p -> inv_sync p [].
Proof. unfold new_pool. destruct (cap =? 0); [done|]. intros [= <-]. by split. Qed.

(** ** No waiter and no slot is forgotten

    [covers i o]: the call [o] will still look at slot [i] on behalf of the waiters.
    [sweeps i o]: the call [o] will still take the idle slot [i] of a closed pool. *)
Definition covers (i : nat) (o : Op) : Prop :=
  match o with
  | RelClosed _ | RelRecheck | ServeLock | ServeCheck | HandLock _ true | HandHeld _ true => True
  | ServeScan w => w <= i / 64
  | _ => False
  end.

Definition sweeps (i : nat) (o : Op) : Prop :=
  match o with
  | RelClosed j | RelReclaim j => j = i
  | Sweep w => w <= i / 64
  | SweepWord w _ => w < i / 64
  | _ => False
  end.

Definition drains (o : Op) : Prop :=
  match o with Sweep _ | SweepWord _ _ | Drain | DrainLock => True | _ => False end.

Record inv_wake (p : Pool) (ops : list Op) : Prop := {
  w_wake i : closed p = false -> waiters p <> [] -> idle_bit p i = true -> Exists (covers i) ops;
  w_reg k b w : RegScan k b w ∈ ops -> closed p = false /\ forall i, i / 64 < w -> idle_bit p i = true -> Exists (covers i) ops;
  w_swept i : closed p = true -> idle_bit p i = true -> Exists (sweeps i) ops;
  w_drain : closed p = true -> waiters p <> [] -> Exists drains ops
}.

Definition none_registering (ops : list Op) : Prop := forall k b w, RegScan k b w ∉ ops.

Lemma registering_none ops : sum_list_with registering ops = 0 -> none_registering ops.
Proof.
  intros H k b w. induction ops as [|o ops IH]; [apply not_elem_of_nil|]. cbn in H. apply not_elem_of_cons. split; [|apply IH; lia].
  intros <-. cbn in H. lia.
Qed.

Lemma holders_registering ops : sum_list_with holder ops = 0 -> none_registering ops.
Proof.
  intros H k b w. induction ops as [|o ops IH]; [apply not_elem_of_nil|]. cbn in H. apply not_elem_of_cons. split; [|apply IH; lia].
  intros <-. cbn in H. lia.
Qed.

(** When the duties of the stepping call are kept, so are those of all. *)
Lemma wake_frame p o rest p' os :
  inv_wake p (o :: rest) -> closed p' = closed p ->
  (waiters p' <> [] -> waiters p <> [] \/ (closed p = false /\ forall i, idle_bit p' i = true -> Exists (covers i) rest)) ->
  (forall i, idle_bit p' i = true ->
     (idle_bit p i = true \/ (closed p = false -> Exists (covers i) os \/ (waiters p' = [] /\ none_registering rest)) /\
                             (closed p = true -> Exists (sweeps i) os)) /\
     (closed p = false -> covers i o -> Exists (covers i) os \/ (waiters p' = [] /\ none_registering rest)) /\
     (closed p = true -> sweeps i o -> Exists (sweeps i) os)) ->
  (drains o -> Exists drains os \/ waiters p' = []) ->
  (forall k b w, RegScan k b w ∈ os -> closed p = false /\
     forall i, i / 64 < w -> idle_bit p' i = true -> Exists (covers i) (os ++ rest)) ->
  inv_wake p' (os ++ rest).
Proof.
  intros [W1 W2 W3 W4] Hc Hw Hb Hd Hr.
  assert (Hkeep : forall i, closed p = false -> idle_bit p' i = true -> (idle_bit p i = true -> Exists (covers i) (o :: rest)) ->
    Exists (covers i) (os ++ rest) \/ (waiters p' = [] /\ none_registering rest)).
  { intros i Ho Hi Hx. destruct (Hb i Hi) as ([H|[H _]] & H1 & _).
    - destruct (proj1 (Exists_cons _ _ _) (Hx H)) as [H2|H2]; [|left; apply Exists_app; by right].
      destruct (H1 Ho H2) as [?|?]; [left; apply Exists_app; by left|by right].
    - destruct (H Ho) as [?|?]; [left; apply Exists_app; by left|by right]. }
  split; rewrite ?Hc.
  - intros i Ho Hne Hi. destruct (Hw Hne) as [Hw'|[_ Hw']]; [|apply Exists_app; right; by apply Hw'].
    destruct (Hkeep i Ho Hi (fun H => W1 i Ho Hw' H)) as [?|[? _]]; done.
  - intros k b w [Hin|Hin]%elem_of_app; [by apply (Hr k b w)|].
    destruct (W2 k b w) as [Ho Hx]; [by right|]. split; [done|]. intros i Hi Hbit.
    destruct (Hkeep i Ho Hbit (Hx i Hi)) as [?|[_ Hn]]; [done|]. by destruct (Hn k b w).
  - intros i Ho Hi. destruct (Hb i Hi) as ([H|[_ H]] & _ & H1); [|apply Exists_app; left; by apply H].
    destruct (proj1 (Exists_cons _ _ _) (W3 i Ho H)) as [H2|H2]; apply Exists_app; [left; by apply H1|by right].
  - intros Ho Hne. destruct (Hw Hne) as [Hw'|[? _]]; [|congruence].
    destruct (proj1 (Exists_cons _ _ _) (W4 Ho Hw')) as [H|H]; apply Exists_app; [|by right]. destruct (Hd H); [by left|done].
Qed.

(** The bits after a step: nothing new, unless the step publishes. *)
Ltac bits_kept :=
  match goal with
  | H : idle_bit ?p ?i = true |- idle_bit ?p ?i = true => exact H
  | Hb : forall j, idle_bit ?q j = _, H : idle_bit ?p' ?i = true |- _ =>
      try rewrite (idle_bit_words p' q) in H by done; rewrite Hb in H; apply andb_true_iff in H as [H _]; exact H
  | H : idle_bit ?p' ?i = true |- idle_bit ?p ?i = true => rewrite (idle_bit_words p' p) in H by done; exact H
  end.

Ltac duties :=
  match goal with
  | |- (_ <> [] -> _ \/ _) =>
      let H := fresh in intros H; left; first [exact H | by intros E; apply H; cbn; rewrite E | match goal with E : waiters _ = waiters _ |- _ => rewrite <- E; exact H end]
  | |- (forall i, idle_bit _ i = true -> _) =>
      let i := fresh "i" in let Hi := fresh in let Hc := fresh in let Hx := fresh in
      intros i Hi; split; [left; bits_kept|split; intros Hc Hx; cbn in Hx;
        first [done | congruence | left; repeat constructor; cbn; done || lia | repeat constructor; cbn; done || lia | idtac]]
  | |- (drains _ -> _) => let H := fresh in intros H; cbn in H; try done; left; by repeat constructor
  | |- (forall k b w, _ ∈ _ -> _) =>
      let H := fresh in intros ? ? ? H; (by apply not_elem_of_nil in H) || (by apply list_elem_of_singleton in H)
  end.

Lemma taken_frame (p q : Pool) i : q = set_states (set_words p (words q)) (<[i := Borrowed]> (states p)) ->
  closed q = closed p /\ waiters q = waiters p.
Proof. intros Eq. by rewrite Eq. Qed.

(** Without the mutex held by another, nobody is registering. *)
Lemma alone_registering p o rest : inv_sync p (o :: rest) -> holds_mutex o = true -> none_registering rest.
Proof.
  intros Hs Ho. apply holders_registering. pose proof (s_lock _ _ Hs) as H. cbn in H. unfold holder in H at 1. rewrite Ho in H.
  pose proof (one_le (mutex p)). lia.
Qed.

Lemma idle_word p i : idle_bit p i = true -> i / 64 < length (words p).
Proof. unfold idle_bit, bits_per_word. intros H. destruct (words p !! _) eqn:E; [|done]. by eapply lookup_lt_Some. Qed.

(** A word that was passed shows no bit. *)
Lemma passed_word p i : claim_word p (i / 64) = None -> idle_bit p i = false.
Proof.
  unfold claim_word, idle_bit, bits_per_word. destruct (words p !! (i / 64)) as [x|]; [|done]. destruct (N.eqb_spec x 0) as [->|]; [|done].
  intros _. apply N.bits_0.
Qed.

(** What a registering caller has passed is covered by others. *)
Lemma reg_covers p k b w rest i : inv_wake p (RegScan k b w :: rest) -> i / 64 < w -> idle_bit p i = true -> Exists (covers i) rest.
Proof.
  intros Hw Hi Hb. destruct (w_reg _ _ Hw k b w) as [_ H]; [by left|]. by destruct (proj1 (Exists_cons _ _ _) (H i Hi Hb)).
Qed.

Lemma published p p' o rest i j :
  inv_data p (o :: rest) -> op_slot o = Some i -> words p' = words (publish_bit p i) -> idle_bit p' j = true ->
  idle_bit p j = true \/ j = i.
Proof.
  intros Hd Ho Ew H. assert (i / 64 < length (words p)).
  { apply (part_word p (o :: rest) Borrowed); [done|]. cbn. unfold slot_at at 1. rewrite Ho, Nat.eqb_refl. unfold one. lia. }
  rewrite (idle_bit_words p' (publish_bit p i)) in H by done. rewrite publish_bit_idle in H by done.
  apply orb_true_iff in H as [H|H%Nat.eqb_eq]; auto.
Qed.

Lemma wake_register p k b rest p' :
  inv_wake p (AcqLock k b :: rest) -> closed p = false -> closed p' = false -> words p' = words p -> waiters p' = waiters p ->
  inv_wake p' (RegScan k b 0 :: rest).
Proof.
  intros Hw Hc Hc' Ew Eq. apply (wake_frame _ _ _ _ [_] Hw); [congruence|rewrite Eq; duties| |duties|].
  - intros i Hi. rewrite (idle_bit_words p' p) in Hi by done. auto.
  - intros ? ? ? [= -> -> ->]%list_elem_of_singleton. split; [done|lia].
Qed.

Lemma wake_register_next p k b w rest :
  inv_wake p (RegScan k b w :: rest) -> claim_word p w = None -> inv_wake p (RegScan k b (S w) :: rest).
Proof.
  intros Hw Hn. apply (wake_frame _ _ _ _ [_] Hw); [done|duties|duties|duties|].
  intros ? ? ? [= -> -> ->]%list_elem_of_singleton. split; [by apply (w_reg _ _ Hw k b w); left|].
  intros i Hi Hb. apply Exists_app. right. apply (reg_covers p k b w); [done| |done].
  destruct (decide (i / 64 = w)) as [<-|]; [by rewrite passed_word in Hb|lia].
Qed.

Lemma wake_park p k b w rest p' id :
  inv_wake p (RegScan k b w :: rest) -> length (words p) <= w -> words p' = words p -> closed p' = closed p ->
  inv_wake p' (Parked k b id :: rest).
Proof.
  intros Hw Hl Ew Ec. apply (wake_frame _ _ _ _ [_] Hw); [done| | |duties|duties].
  - intros _. right. split; [by apply (w_reg _ _ Hw k b w); left|]. intros i Hi.
    rewrite (idle_bit_words p' p) in Hi by done. apply (reg_covers p k b w); [done| |done]. apply idle_word in Hi. lia.
  - intros i Hi. rewrite (idle_bit_words p' p) in Hi by done. auto.
Qed.

(** Publications: the publisher will look again, or nobody waits. *)
Lemma wake_publish_fast p i rest :
  inv_wake p (RelPublish i :: rest) -> inv_data p (RelPublish i :: rest) ->
  inv_wake (publish_bit (set_state p i Idle) i) (RelClosed i :: rest).
Proof.
  intros Hw Hd. apply (wake_frame _ _ _ _ [_] Hw); [done|duties| |duties|duties].
  intros j Hj. split; [|done]. apply (published p _ (RelPublish i) rest i) in Hj; [|done..]. destruct Hj as [Hj| ->]; [by left|right].
  split; intros _; [left|]; by repeat constructor.
Qed.

Lemma wake_publish_locked p o rest p' os :
  inv_wake p (o :: rest) -> ~ drains o -> waiters p' = waiters p -> closed p = false -> closed p' = false -> none_registering os ->
  (forall j, Exists (covers j) os \/ (waiters p' = [] /\ none_registering rest)) -> inv_wake p' (os ++ rest).
Proof.
  intros Hw Ho Eq Hc Hc' Hn Hcov. apply (wake_frame _ _ _ _ _ Hw); [congruence|rewrite Eq; by left| |done|].
  - intros j Hj. split; [right; split; [done|congruence]|split; [done|congruence]].
  - intros ? ? ? Hin. by apply Hn in Hin.
Qed.

(** Steps that end a duty. *)
Lemma wake_reclaim p i rest :
  inv_wake p (RelReclaim i :: rest) -> words_ok p ->
  match reclaim_idle p i with Some q => inv_wake q (QuarantineLock i :: rest) | None => inv_wake p rest end.
Proof.
  intros Hw Hok. pose proof (reclaim_idle_spec p i Hok) as Hr. destruct (reclaim_idle p i) as [q|].
  - destruct Hr as (_ & _ & _ & Hb & [Ec Eq]%taken_frame). apply (wake_frame _ _ _ _ [_] Hw); [done|rewrite Eq; by left| |duties|duties].
    intros j Hj. rewrite Hb in Hj. apply andb_true_iff in Hj as [Hj Hn]. split; [by left|]. split; [done|].
    intros _ Hi. cbn in Hi. subst. by rewrite Nat.eqb_refl in Hn.
  - apply (wake_frame _ _ _ _ [] Hw); [done|duties| |duties|duties]. intros j Hj. split; [by left|]. split; [done|].
    intros _ Hi. cbn in Hi. subst. congruence.
Qed.

Lemma wake_leave p o rest p' :
  inv_wake p (o :: rest) -> words p' = words p -> waiters p' = waiters p -> closed p' = closed p ->
  (forall i, idle_bit p i = true -> closed p = false -> covers i o -> waiters p = [] /\ none_registering rest) ->
  (forall i, idle_bit p i = true -> closed p = true -> ~ sweeps i o) -> (drains o -> waiters p = []) -> inv_wake p' rest.
Proof.
  intros Hw Ew Eq Ec H1 H2 H3. apply (wake_frame _ _ _ _ [] Hw); [done|rewrite Eq; by left| |rewrite Eq; by auto|].
  - intros j Hj. rewrite (idle_bit_words p' p) in Hj by done. rewrite Eq. split; [by left|]. split; [by right; eauto|].
    intros Hc Hs. by apply (H2 j Hj Hc) in Hs.
  - by intros ? ? ? ?%not_elem_of_nil.
Qed.

Lemma wake_sweep p w x rest :
  inv_wake p (Sweep w :: rest) -> words p !! w = Some x -> inv_wake (set_words p (<[w := 0%N]> (words p))) (SweepWord w x :: rest).
Proof.
  intros Hw Hx. assert (w < length (words p)) by (by eapply lookup_lt_Some).
  apply (wake_frame _ _ _ _ [_] Hw); [done|by left| |duties|duties].
  intros j Hj. rewrite idle_bit_insert in Hj by done. destruct (Nat.eqb_spec (j / 64) w); [by rewrite N.bits_0 in Hj|].
  split; [by left|]. split; [done|]. intros _ Hs. cbn in Hs. constructor. cbn. lia.
Qed.

Lemma wake_exec c p o rest r :
  inv_wake p (o :: rest) -> inv_sync p (o :: rest) -> inv_data p (o :: rest) -> exec c p o = Some r -> inv_wake (fst r) (snd r ++ rest).
Proof.
  intros Hw Hs Hd H. destruct o; step_cases H; cbn [fst snd];
    try match goal with H : claim_word _ _ = Some _ |- _ =>
      apply claim_word_spec in H as (? & ? & _ & _ & ? & [? ?]%taken_frame); [|apply Hd] end;
    try (by apply (wake_frame _ _ _ _ _ Hw); [done|duties..]);
    try (by eapply wake_park).
  - by apply (wake_register p).
  - by apply wake_register_next.
  - by apply wake_publish_fast.
  - pose proof (wake_reclaim _ _ _ Hw (d_words _ _ Hd)) as H. by rewrite Heqo in H.
  - pose proof (wake_reclaim _ _ _ Hw (d_words _ _ Hd)) as H. by rewrite Heqo in H.
  - apply (wake_leave _ _ _ _ Hw); try (done || by intros ? ? ? []). intros _ _ _ _. apply Nat.eqb_eq in Heqb. pose proof (s_gate _ _ Hs) as Hg. cbn in Hg.
    split; [apply length_zero_iff_nil; lia|apply registering_none; lia].
  - apply (wake_publish_locked _ _ _ _ [_] Hw); try (done || by intros []); [by intros ? ? ? ?%list_elem_of_singleton|]. intros j. left. by constructor.
  - apply (wake_publish_locked _ _ _ _ [] Hw); try (done || by intros []); [by intros ? ? ? ?%not_elem_of_nil|]. intros j. right.
    split; [done|]. by eapply alone_registering.
  - apply (wake_leave _ _ _ _ Hw); try (done || by intros ? ? ? []). intros _ _ Hc _. rewrite Hc in Heqb. cbn in Heqb. split; [by apply bool_decide_eq_true in Heqb|].
    by eapply alone_registering.
  - apply (wake_frame _ _ _ _ _ Hw); [done|duties| |duties|duties]. intros j Hj. split; [by left|]. split; [|done].
    intros _ Hc. left. constructor. cbn in *. destruct (decide (j / 64 = w)) as [<-|]; [by rewrite passed_word in Hj|lia].
  - apply (wake_leave _ _ _ _ Hw); try (done || by intros ? ? ? []). intros i Hi _ Hc. cbn in Hc. apply idle_word in Hi. lia.
  - apply (wake_publish_locked _ _ _ _ [_] Hw); try (done || by intros []); [by intros ? ? ? ?%list_elem_of_singleton|]. intros j. left. by constructor.
  - by apply wake_sweep.
  - apply (wake_frame _ _ _ _ _ Hw); [done|duties| |duties|duties]. intros j Hj. split; [by left|]. split; [done|].
    intros _ Hc. cbn in Hc. apply idle_word in Hj. apply lookup_ge_None in Heqo. lia.
  - apply (wake_leave _ _ _ _ Hw); by intros ? ? ? [] || done.
Qed.

Lemma wake_perm p ops ops' : ops ≡ₚ ops' -> inv_wake p ops -> inv_wake p ops'.
Proof.
  intros Hp [W1 W2 W3 W4]. split.
  - intros i H1 H2 H3. rewrite <- Hp. by apply W1.
  - intros k b w H. rewrite <- Hp in H. destruct (W2 k b w H) as [Hc Hx]. split; [done|]. intros i H1 H2. rewrite <- Hp. by apply Hx.
  - intros i H1 H2. rewrite <- Hp. by apply W3.
  - intros H1 H2. rewrite <- Hp. by apply W4.
Qed.

Lemma wake_same p ops p' os :
  inv_wake p ops -> words p' = words p -> waiters p' = waiters p -> closed p' = closed p -> none_registering os -> inv_wake p' (os ++ ops).
Proof.
  intros [W1 W2 W3 W4] Ew Eq Ec Hn. split; rewrite ?Eq, ?Ec; intros; rewrite ?(idle_bit_words p' p) in * by done; try (apply Exists_app; right; by auto).
  match goal with H : RegScan _ _ _ ∈ _ |- _ => apply elem_of_app in H as [H|H]; [by apply Hn in H|]; destruct (W2 _ _ _ H) as [? Hx] end.
  split; [done|]. intros i ? Hi. rewrite (idle_bit_words p' p) in Hi by done. apply Exists_app. right. by apply Hx.
Qed.

Lemma wake_enter p ops call r : inv_wake p ops -> inv_sync p ops -> enter p call = Some r -> inv_wake (fst r) (snd r ++ ops).
Proof.
  intros Hw Hs H. destruct call; enter_unfold H; try (apply bind_Some in H as ([pos ?] & _ & H));
    split_step H; cbn [fst snd];
    try (by apply (wake_same p); [..|intros ? ? ? Hin; (by apply not_elem_of_nil in Hin) || (by apply list_elem_of_singleton in Hin)]).
  split; cbn; try done.
  - intros k b w [Hin|Hin]%elem_of_cons; [done|]. exfalso. revert Hin. apply holders_registering. rewrite (s_lock _ _ Hs).
    match goal with H : mutex p = false |- _ => by rewrite H end.
  - intros i _ _. constructor. cbn. lia.
  - intros _ _. by constructor.
Qed.

(** ** Reachable states *)
Record inv (cap : nat) (s : Pool * list Op) : Prop := {
  i_data : inv_data (fst s) (snd s);
  i_sync : inv_sync (fst s) (snd s);
  i_wake : inv_wake (fst s) (snd s);
  i_capacity : capacity (fst s) = cap
}.

Lemma exec_capacity c p o rest r : inv_data p (o :: rest) -> exec c p o = Some r -> capacity (fst r) = capacity p.
Proof.
  intros Hd H. unfold capacity. destruct o; step_cases H; cbn [fst];
    try match goal with H : claim_word _ _ = Some _ |- _ => apply claim_word_spec in H as (_ & _ & _ & _ & _ & ->); [|apply Hd] end;
    try match goal with H : reclaim_idle ?p ?i = Some _ |- _ =>
      let Hx := fresh in pose proof (reclaim_idle_spec p i (d_words _ _ Hd)) as Hx; rewrite H in Hx; destruct Hx as (_ & _ & _ & _ & ->) end;
    cbn; rewrite ?length_insert; done.
Qed.

Lemma enter_capacity p call r : enter p call = Some r -> capacity (fst r) = capacity p.
Proof.
  intros H. unfold capacity. destruct call; enter_unfold H; try (apply bind_Some in H as ([pos ?] & _ & H));
    split_step H; cbn; rewrite ?length_insert; done.
Qed.

Lemma pool_step_inv cap s s' : inv cap s -> step s s' -> inv cap s'.
Proof.
  intros [D S W C] Hst. destruct Hst as [c p l1 o l2 p' os H|call p ops p' os H]; cbn in *.
  - assert (Hp : l1 ++ o :: l2 ≡ₚ o :: (l1 ++ l2)) by (by rewrite Permutation_middle).
    assert (Hq : os ++ (l1 ++ l2) ≡ₚ l1 ++ os ++ l2) by (by rewrite !(assoc app), (comm app os l1)).
    apply (data_perm _ _ _ Hp) in D. apply (sync_perm _ _ _ Hp) in S. apply (wake_perm _ _ _ Hp) in W.
    split; cbn; [apply (data_perm _ _ _ Hq)|apply (sync_perm _ _ _ Hq)|apply (wake_perm _ _ _ Hq)|].
    + by apply (data_exec _ _ _ _ _ D H).
    + by apply (sync_exec _ _ _ _ _ S D H).
    + by apply (wake_exec _ _ _ _ _ W S D H).
    + rewrite <- C. by apply (exec_capacity _ _ _ _ _ D H).
  - split; cbn; [by apply (data_enter _ _ _ _ D H)|by apply (sync_enter _ _ _ _ S H)|by apply (wake_enter _ _ _ _ W S H)|].
    rewrite <- C. by apply (enter_capacity _ _ _ H).
Qed.

Lemma pool_reachable_inv cap s : reachable cap s -> inv cap s.
Proof.
  intros (p & Hn & Hr). eapply rtc_preserves; [intros ? ?; apply pool_step_inv| |exact Hr].
  split; [by eapply data_new|by eapply sync_new| |].
  - unfold new_pool in Hn. destruct (cap =? 0); [done|]. injection Hn as <-. split; try done; [by intros ? ? ? ?%not_elem_of_nil].
  - unfold new_pool in Hn. destruct (cap =? 0); [done|]. injection Hn as <-. apply length_replicate.
Qed.

(** ** Theorems *)

(** Saturating addition on the clock: a deadline is the exact sum where that is
    representable and the nearest end of the range otherwise, and no intermediate result
    leaves the 64-bit range. *)
Theorem deadline_saturates (now timeout : Z) :
  (rep_min <= now <= rep_max)%Z -> (rep_min <= timeout <= rep_max)%Z ->
  pool_deadline_after now timeout = Z.max rep_min (Z.min rep_max (now + timeout)) /\
  (0 < timeout -> rep_min <= rep_max - timeout <= rep_max)%Z /\ (timeout < 0 -> rep_min <= rep_min - timeout <= rep_max)%Z.
Proof.
  unfold pool_deadline_after. intros Hn Ht. assert (rep_min = -9223372036854775808 /\ rep_max = 9223372036854775807)%Z as [E1 E2] by done.
  destruct (Z.ltb_spec 0 timeout), (Z.ltb_spec (rep_max - timeout) now), (Z.ltb_spec timeout 0), (Z.ltb_spec now (rep_min - timeout));
    cbn [andb]; lia.
Qed.

Lemma token_ids i ts : cnt i (fst <$> ts) = sum_list_with (token_at i) ts.
Proof. induction ts as [|[j c] ts IH]; [done|]. rewrite fmap_cons, cnt_cons, IH. done. Qed.

Lemma cnt_bounded_length l n : (forall x, cnt x l <= one (x <? n)) -> length l <= n.
Proof.
  intros H. rewrite <- (length_seq n 0). apply NoDup_incl_length; [apply NoDup_ListNoDup, cnt_NoDup; intros x; pose proof (one_le (x <? n)); specialize (H x); lia|].
  intros x Hx. apply list_elem_of_In, cnt_elem in Hx. apply in_seq. specialize (H x). unfold one in H. destruct (Nat.ltb_spec x n); lia.
Qed.

Lemma part_exclusive p ops s i : inv_data p ops -> states p !! i = Some s -> part p ops s i = 1 /\ forall s', s' <> s -> part p ops s' i = 0.
Proof.
  intros Hd Hi. split; [|intros s' Hn]; rewrite (d_own _ _ Hd), Hi; [by rewrite bool_decide_eq_true_2|].
  rewrite bool_decide_eq_false_2; [done|congruence].
Qed.

Lemma usable_bounds p ops : inv_data p ops -> (0 <= usable_size p <= Z.of_nat (capacity p))%Z.
Proof.
  intros Hd. pose proof (d_count _ _ Hd) as Hc. rewrite (d_tokens _ _ Hd) in Hc.
  assert (Hl : length (vacant p ++ (fst <$> tokens p) ++ quarantined p) <= capacity p).
  { apply cnt_bounded_length. intros x. rewrite !cnt_app, token_ids.
    pose proof (d_own _ _ Hd Vacant x) as H1. pose proof (d_own _ _ Hd Reserved x) as H2. pose proof (d_own _ _ Hd Quarantined x) as H3.
    cbn in H1, H2, H3. rewrite H1, H2, H3. unfold one. destruct (states p !! x) as [s|] eqn:E.
    - apply lookup_lt_Some in E. unfold capacity. rewrite (proj2 (Nat.ltb_lt _ _)) by done. repeat case_bool_decide; simplify_eq; lia.
    - repeat case_bool_decide; simplify_eq; lia. }
  rewrite !length_app, length_fmap in Hl. lia.
Qed.

(** C8. No slot has two owners: in every interleaving each slot of the arena is in exactly
    one place - free, reserved by a token, idle in the bitmap, lent or on its way to a
    caller, quarantined - and that place agrees with its recorded state; no two borrows
    are the same slot. The counter of usable slots stays within the arena, the statistics
    account for all of it, and the waiter gate counts the queue and the caller that is
    registering. *)
Theorem slots_exclusive (cap : nat) (p : Pool) (ops : list Op) :
  reachable cap (p, ops) ->
  (forall i, i < cap -> exists s, states p !! i = Some s /\ part p ops s i = 1 /\ forall s', s' <> s -> part p ops s' i = 0) /\
  NoDup (lent p) /\
  (0 <= usable_size p <= Z.of_nat cap)%Z /\
  (let st := stats p in st_vacant st + st_reserved st + st_idle st + st_borrowed st + st_quarantined st = cap) /\
  waiter_gate p = length (waiters p) + sum_list_with registering ops.
Proof.
  intros [D S _ C]%pool_reachable_inv. cbn in *. subst cap. split_and!.
  - intros i Hi. destruct (lookup_lt_is_Some_2 _ _ Hi) as [s Hs]. exists s. split; [done|]. by apply part_exclusive.
  - apply cnt_NoDup. intros x. pose proof (d_own _ _ D Borrowed x) as H. cbn in H.
    pose proof (one_le (bool_decide (states p !! x = Some Borrowed))). lia.
  - by eapply usable_bounds.
  - by eapply usable_bounds.
  - cbn. pose proof (usable_bounds _ _ D). pose proof (d_count _ _ D). lia.
  - apply S.
Qed.

(** A call that waits in the queue. *)
Definition is_parked (o : Op) : Prop := match o with Parked _ _ _ => True | _ => False end.

Lemma parked_never P ops : Forall is_parked ops -> (forall k b id, ~ P (Parked k b id)) -> ~ Exists P ops.
Proof. intros Hf Hn H. apply Exists_exists in H as (o & Ho & Hp). rewrite Forall_forall in Hf. specialize (Hf o Ho). destruct o; try done. by apply Hn in Hp. Qed.

(** C9. No lost wake-up: while some caller waits in the queue of an open pool and a slot is
    idle, some running call is bound to look at that slot for the waiters. So when no call
    is in the middle of its work, waiting callers and idle slots do not coexist. *)
Theorem no_lost_wakeup (cap : nat) (p : Pool) (ops : list Op) :
  reachable cap (p, ops) -> closed p = false -> waiters p <> [] ->
  (forall i, idle_bit p i = true -> Exists (covers i) ops) /\
  (Forall is_parked ops -> forall i, idle_bit p i = false).
Proof.
  intros [_ _ W _]%pool_reachable_inv Hc Hw. cbn in *. assert (H : forall i, idle_bit p i = true -> Exists (covers i) ops) by (intros i; by apply W).
  split; [done|]. intros Hq i. destruct (idle_bit p i) eqn:E; [|done]. exfalso. apply (parked_never (covers i) ops); [done|by intros ? ? ? []|].
  by apply H.
Qed.

(** The outcome of a parked call is waiting for it. *)
Lemma parked_outcome p ops k b id : inv_sync p ops -> Parked k b id ∈ ops -> waiters p = [] -> is_Some (exec Go p (Parked k b id)).
Proof.
  intros Hs Hin Hw. cbn. unfold parked. destruct (list_find _ _) as [[pos [j s]]|] eqn:E; [destruct s; by eexists|]. exfalso.
  apply elem_of_Permutation in Hin as [rest Hp]. pose proof (parked_queued p k b id rest (sync_perm _ _ _ Hp Hs) E) as H. rewrite Hw in H. cbn in H. lia.
Qed.

(** C22. Shutdown completes: once a closed pool has no call in the middle of its work, its
    queue is empty, no slot is idle, and every caller that still waits has its outcome. *)
Theorem closed_pool_drained (cap : nat) (p : Pool) (ops : list Op) :
  reachable cap (p, ops) -> closed p = true -> Forall is_parked ops ->
  waiters p = [] /\ (forall i, idle_bit p i = false) /\ (forall o, o ∈ ops -> is_Some (exec Go p o)).
Proof.
  intros [_ S W _]%pool_reachable_inv Hc Hq. cbn in *.
  assert (Hw : waiters p = []).
  { destruct (waiters p) eqn:E; [done|]. exfalso. apply (parked_never drains ops); [done|by intros ? ? ? []|]. apply W; [done|by rewrite E]. }
  split_and!; [done| |].
  - intros i. destruct (idle_bit p i) eqn:E; [|done]. exfalso. apply (parked_never (sweeps i) ops); [done|by intros ? ? ? []|]. by apply W.
  - intros o Ho. rewrite Forall_forall in Hq. specialize (Hq o Ho). destruct o; try done. by eapply parked_outcome.
Qed.

Lemma scan_total p w next found none : is_Some (scan p w next found none).
Proof. unfold scan. destruct (_ <? _); [|done]. by destruct (claim_word p w) as [[? ?]|]. Qed.

(** A running call can go on unless it waits for the mutex. *)
Lemma exec_enabled p o : (mutex p = false \/ holds_mutex o = true) -> ~ is_parked o -> is_Some (exec Go p o).
Proof.
  intros Hm Hp. destruct o; try (by destruct Hp); cbn [exec try_acquire acquire handoff_or_publish serve_waiters_locked try_take_idle shutdown]; try (eexists; reflexivity); try apply scan_total;
    unfold lock; destruct Hm as [-> | Hh]; (eexists; reflexivity) || discriminate Hh.
Qed.

Lemma parked_or_not o : ~ is_parked o \/ exists k b id, o = Parked k b id.
Proof. destruct o; (by left; intros []) || (right; eauto). Qed.

Lemma holder_exists ops : 0 < sum_list_with holder ops -> exists h, h ∈ ops /\ holds_mutex h = true.
Proof.
  induction ops as [|o ops IH]; cbn; [lia|]. unfold holder at 1. destruct (holds_mutex o) eqn:E; [exists o; split; [by left|done]|].
  intros H. destruct IH as (h & ? & ?); [lia|]. exists h. split; [by right|done].
Qed.

(** No deadlock: every running call can take its next step, or waits for the mutex while
    the call that holds it can take a step, or waits in the queue. *)
Theorem pool_never_stuck (cap : nat) (p : Pool) (ops : list Op) (o : Op) :
  reachable cap (p, ops) -> o ∈ ops ->
  is_Some (exec Go p o) \/
  (mutex p = true /\ exists h, h ∈ ops /\ holds_mutex h = true /\ is_Some (exec Go p h)) \/
  (exists k b id, o = Parked k b id /\ 0 < sum_list_with (waiter_at id) (waiters p)).
Proof.
  intros [_ S _ _]%pool_reachable_inv Ho. cbn in *. destruct (parked_or_not o) as [Hn|(k & b & id & ->)].
  - destruct (mutex p) eqn:Em; [right; left; split; [done|]|left; apply exec_enabled; auto].
    destruct (holder_exists ops) as (h & ? & Hh); [rewrite (s_lock _ _ S), Em; unfold one; lia|]. exists h. split_and!; [done|done|].
    apply exec_enabled; [by right|]. intros Hp. by destruct h.
  - cbn. unfold parked. destruct (list_find _ _) as [[pos [j s]]|] eqn:E; [left; destruct s; by eexists|]. right. right.
    apply elem_of_Permutation in Ho as [rest Hp]. exists k, b, id. split; [done|]. by eapply parked_queued; [apply (sync_perm _ _ _ Hp)|].
Qed.

(** ** Runs *)
Inductive Action := ACall (call : Call) | AStep (pos : nat) (c : Choice).

Definition act (s : Pool * list Op) (a : Action) : option (Pool * list Op) :=
  match a with
  | ACall call => '(p, os) ← enter (fst s) call; Some (p, os ++ snd s)
  | AStep pos c => o ← snd s !! pos; '(p, os) ← exec c (fst s) o; Some (p, take pos (snd s) ++ os ++ drop (S pos) (snd s))
  end.

Fixpoint run (s : Pool * list Op) (actions : list Action) : option (Pool * list Op) :=
  match actions with [] => Some s | a :: rest => s' ← act s a; run s' rest end.

Lemma run_steps s actions s' : run s actions = Some s' -> rtc step s s'.
Proof.
  revert s. induction actions as [|a rest IH]; intros s; cbn; [by intros [= ->]|]. intros (s1 & Ha & Hr)%bind_Some.
  eapply rtc_l; [|by apply IH]. destruct s as [p ops], a as [call|pos c]; cbn in Ha.
  - apply bind_Some in Ha as ([p' os] & He & [= <-]). by apply (step_call call).
  - apply bind_Some in Ha as (o & Ho & ([p' os] & He & [= <-])%bind_Some).
    rewrite <- (take_drop_middle ops pos o Ho) at 1. by apply step_op with c.
Qed.

(** A reachable state from a run. *)
Definition run_new (cap : nat) (actions : list Action) : option (Pool * list Op) :=
  match new_pool cap with Ok p => run (p, []) actions | Err _ => None end.

Lemma run_reachable cap actions s : run_new cap actions = Some s -> reachable cap s.
Proof. unfold run_new, reachable. destruct (new_pool cap) as [p|]; [|done]. intros H. exists p. split; [done|]. by eapply run_steps. Qed.

Definition steps (n : nat) : list Action := replicate n (AStep 0 Go).

(** One slot is published and borrowed; a second caller queues up for it. *)
Definition two_callers : list Action :=
  [ACall TryReserve; ACall (Construct 0); ACall (Publish 0); AStep 0 Go; ACall TryAcquire] ++ steps 3 ++
  [ACall (Acquire Sync false)] ++ steps 6.

Definition empty_pool : Pool :=
  {| words := [0%N]; states := [Vacant]; vacant := [0]; quarantined := []; usable_size := 0; reserved_count := 0; mutex := false;
     waiters := []; waiter_gate := 0; closed := false; completed := []; next_waiter := 0; lent := []; tokens := []; answers := [] |}.

Definition contended : Pool * list Op := default (empty_pool, []) (run_new 1 two_callers).

(** Returning the slot hands it to the queued caller. *)
Definition handed : Pool * list Op := default (empty_pool, []) (run contended ([ACall (Release 0)] ++ steps 4)).

(** Shutting down instead. *)
Definition shut : Pool * list Op := default (empty_pool, []) (run contended ([ACall CallShutdown] ++ steps 6)).

Lemma contended_reachable : reachable 1 contended.
Proof. apply (run_reachable 1 two_callers). by vm_compute. Qed.

Lemma run_ops : snd contended = [Parked Sync false 0] /\ snd handed = [Parked Sync false 0] /\ snd shut = [Parked Sync false 0].
Proof. by vm_compute. Qed.

Lemma slots_exclusive_witness : NoDup (lent (fst contended)) /\ lent (fst contended) = [0].
Proof.
  destruct (slots_exclusive 1 (fst contended) (snd contended)) as (_ & H & _); [rewrite <- surjective_pairing; exact contended_reachable|].
  split; [exact H|by vm_compute].
Defined.

Lemma no_lost_wakeup_witness : length (waiters (fst contended)) = 1 /\ idle_bit (fst contended) 0 = false.
Proof.
  split; [by vm_compute|]. destruct (no_lost_wakeup 1 (fst contended) (snd contended)) as [_ H];
    [rewrite <- surjective_pairing; exact contended_reachable|by vm_compute|by vm_compute|]. apply H. destruct run_ops as (-> & _). by repeat constructor.
Defined.

Lemma closed_pool_drained_witness : waiters (fst shut) = [] /\ is_Some (exec Go (fst shut) (Parked Sync false 0)).
Proof.
  destruct (closed_pool_drained 1 (fst shut) (snd shut)) as (H1 & _ & H2).
  - rewrite <- surjective_pairing. apply (run_reachable 1 (two_callers ++ [ACall CallShutdown] ++ steps 6)). by vm_compute.
  - by vm_compute.
  - destruct run_ops as (_ & _ & ->). by repeat constructor.
  - split; [exact H1|]. apply H2. destruct run_ops as (_ & _ & ->). by left.
Defined.

Lemma pool_never_stuck_witness : exists r, exec Go (fst handed) (Parked Sync false 0) = Some r /\ answers (fst r) = [Ok 0; Ok 0].
Proof.
  destruct (pool_never_stuck 1 (fst handed) (snd handed) (Parked Sync false 0)) as [[r Hr]|[[H _]|(k & b & id & _ & H)]].
  - rewrite <- surjective_pairing. apply (run_reachable 1 (two_callers ++ [ACall (Release 0)] ++ steps 4)). by vm_compute.
  - destruct run_ops as (_ & -> & _). by left.
  - exists r. split; [exact Hr|]. revert Hr. vm_compute. by intros [= <-].
  - by vm_compute in H.
  - vm_compute in H. lia.
Defined.

Lemma deadline_saturates_witness : pool_deadline_after 5 rep_max = rep_max /\ pool_deadline_after (-5) rep_min = rep_min.
Proof.
  destruct (deadline_saturates 5 rep_max) as (-> & _); [done|done|]. destruct (deadline_saturates (-5) rep_min) as (-> & _); done.
Defined.
