(* ===== verification/Sorter.v ===== *)
(** * The sliding-window sorter

    [SlidingWindowSorter] of algorithms-bowerbird: entries are buffered in batches,
    each batch is sorted and merged into a sorted window, and the front of the window
    goes to the consumer once it is full. [std::sort] is a parameter with its
    documented contract; [std::upper_bound], [std::merge] and [std::inplace_merge] are
    written out. *)

From Stdlib Require Import Sorting.Sorted.
From S2P Require Import Prelude.

(** ** Comparators

    A strict weak ordering, as every algorithm the code calls requires. *)
Class StrictWeak {T : Type} (lt : T -> T -> bool) : Prop := {
  sw_irrefl x : lt x x = false;
  sw_asym x y : lt x y = true -> lt y x = false;
  sw_le_trans x y z : lt y x = false -> lt z y = false -> lt z x = false
}.

Section sorter.
Context {T : Type}.

(** ** [SlidingWindowConfig] *)
Record SlidingWindowConfig := {
  window_size : nat;
  batch_size : nat;
  enable_sorting : bool;
  comparator : T -> T -> bool;
  use_inplace_merge : bool;
  merge_threshold : nat
}.

Definition default_config (cmp : T -> T -> bool) : SlidingWindowConfig :=
  {| window_size := 1024; batch_size := 512; enable_sorting := true; comparator := cmp; use_inplace_merge := true;
     merge_threshold := 64 |}.

(** [emitted] is what the consumer was called with, in order. *)
Record Sorter := {
  config : SlidingWindowConfig;
  sorted_window : list T;
  new_entries : list T;
  emitted : list (list T);
  total_processed : nat;
  merge_operations : nat;
  sort_operations : nat
}.

Definition new_sorter (cfg : SlidingWindowConfig) : Sorter :=
  {| config := cfg; sorted_window := []; new_entries := []; emitted := []; total_processed := 0; merge_operations := 0;
     sort_operations := 0 |}.

(** ** Algorithms *)

(** [std::upper_bound]: the first position whose element is greater than [key]. *)
Fixpoint upper_bound (lt : T -> T -> bool) (l : list T) (key : T) : nat :=
  match l with [] => 0 | x :: l' => if lt key x then 0 else S (upper_bound lt l' key) end.

(** The loop of [insertion_sort]: [done] is the sorted prefix; moving the tail
    backward and storing the key inserts it. *)
Fixpoint insertion_loop (lt : T -> T -> bool) (done rest : list T) : list T :=
  match rest with
  | [] => done
  | key :: rest => let pos := upper_bound lt done key in insertion_loop lt (take pos done ++ key :: drop pos done) rest
  end.

Definition insertion_sort (lt : T -> T -> bool) (l : list T) : list T :=
  match l with [] => [] | x :: rest => insertion_loop lt [x] rest end.

(** [std::merge]: the second range is preferred only when strictly smaller. *)
Fixpoint merge (lt : T -> T -> bool) (a : list T) : list T -> list T :=
  fix go b :=
    match a, b with
    | [], _ => b
    | _, [] => a
    | x :: a', y :: b' => if lt y x then y :: go b' else x :: merge lt a' b
    end.

(** ** Operations

    [std_sort] is [std::sort]; [roomy w n] tells whether the window's capacity holds
    [w + n] entries, which depends on the allocation strategy of [std::vector]. *)
Context (std_sort : (T -> T -> bool) -> list T -> list T) (roomy : nat -> nat -> bool).

Definition with_window (s : Sorter) (w n : list T) : Sorter :=
  {| config := config s; sorted_window := w; new_entries := n; emitted := emitted s; total_processed := total_processed s;
     merge_operations := merge_operations s; sort_operations := sort_operations s |}.

Definition should_process (s : Sorter) : bool := batch_size (config s) <=? length (new_entries s).

Definition can_use_inplace_merge (s : Sorter) : bool := roomy (length (sorted_window s)) (length (new_entries s)).

(** [std::inplace_merge] on the two sorted halves of the extended window. *)
Definition perform_inplace_merge (s : Sorter) : list T :=
  let old_size := length (sorted_window s) in
  let w := sorted_window s ++ new_entries s in
  merge (comparator (config s)) (take old_size w) (drop old_size w).

Definition perform_standard_merge (s : Sorter) : list T :=
  merge (comparator (config s)) (sorted_window s) (new_entries s).

Definition merge_with_window (s : Sorter) : Sorter :=
  let w := if use_inplace_merge (config s) && can_use_inplace_merge s then perform_inplace_merge s else perform_standard_merge s in
  with_window s w [].

(** Small batches by insertion. *)
Definition sort_new_entries (s : Sorter) : list T :=
  if length (new_entries s) <=? merge_threshold (config s) then insertion_sort (comparator (config s)) (new_entries s)
  else std_sort (comparator (config s)) (new_entries s).

Definition sort_and_merge (s : Sorter) : Sorter :=
  match new_entries s with
  | [] => s
  | _ =>
      let sorted := sort_new_entries s in
      let s := {| config := config s; sorted_window := sorted_window s; new_entries := sorted; emitted := emitted s;
                  total_processed := total_processed s; merge_operations := merge_operations s;
                  sort_operations := S (sort_operations s) |} in
      match sorted_window s with
      | [] => with_window s sorted []
      | _ =>
          let s := merge_with_window s in
          {| config := config s; sorted_window := sorted_window s; new_entries := new_entries s; emitted := emitted s;
             total_processed := total_processed s; merge_operations := S (merge_operations s);
             sort_operations := sort_operations s |}
      end
  end.

Definition calculate_output_count (s : Sorter) : nat :=
  if length (sorted_window s) <? window_size (config s) then 0
  else let excess := length (sorted_window s) - window_size (config s) in Nat.max excess (batch_size (config s)).

Definition output_entries (s : Sorter) (count : nat) : Sorter :=
  if (count =? 0) || bool_decide (sorted_window s = []) then s else
  let n := Nat.min count (length (sorted_window s)) in
  let output := take n (sorted_window s) in
  {| config := config s; sorted_window := drop n (sorted_window s); new_entries := new_entries s; emitted := emitted s ++ [output];
     total_processed := total_processed s + length output; merge_operations := merge_operations s;
     sort_operations := sort_operations s |}.

Definition maintain_window_size (s : Sorter) : Sorter :=
  if window_size (config s) <? length (sorted_window s) then
    with_window s (drop (length (sorted_window s) - window_size (config s)) (sorted_window s)) (new_entries s)
  else s.

Definition process_batch (s : Sorter) (force_all : bool) : Sorter :=
  if bool_decide (new_entries s = []) && bool_decide (sorted_window s = []) then s else
  let s := if enable_sorting (config s) then sort_and_merge s else with_window s (sorted_window s ++ new_entries s) [] in
  let output_count := if force_all then length (sorted_window s) else calculate_output_count s in
  let s := if 0 <? output_count then output_entries s output_count else s in
  maintain_window_size s.

Definition add_entries (s : Sorter) (entries : list T) : Sorter :=
  match entries with
  | [] => s
  | _ =>
      let s := with_window s (sorted_window s) (new_entries s ++ entries) in
      if should_process s then process_batch s false else s
  end.

Definition add_entry (s : Sorter) (entry : T) : Sorter :=
  let s := with_window s (sorted_window s) (new_entries s ++ [entry]) in
  if should_process s then process_batch s false else s.

Definition flush (s : Sorter) : Sorter :=
  if negb (bool_decide (new_entries s = [])) || negb (bool_decide (sorted_window s = [])) then process_batch s true else s.

Definition reconfigure (s : Sorter) (new_config : SlidingWindowConfig) : Sorter :=
  let s := flush s in
  {| config := new_config; sorted_window := sorted_window s; new_entries := new_entries s; emitted := emitted s;
     total_processed := total_processed s; merge_operations := merge_operations s; sort_operations := sort_operations s |}.
End sorter.
Arguments SlidingWindowConfig T : clear implicits.
Arguments Sorter T : clear implicits.

(** ** Sortedness *)
Notation leb lt := (fun a b => lt b a = false).
Notation sorted lt := (StronglySorted (leb lt)).

Section algorithms.
Context {T : Type} (lt : T -> T -> bool) `{!StrictWeak lt}.

Lemma sorted_app_inv (l k : list T) :
  sorted lt (l ++ k) -> sorted lt l /\ sorted lt k /\ forall a b, a ∈ l -> b ∈ k -> lt b a = false.
Proof.
  induction l as [|x l IH]; simpl; intros H.
  - split_and!; [constructor|done|]. by intros a b ?%elem_of_nil.
  - apply StronglySorted_inv in H as [H Hx]. destruct (IH H) as (Hl & Hk & Hlk). rewrite Forall_app in Hx. destruct Hx as [Hx1 Hx2].
    split_and!; [by constructor|done|]. intros a b [->|Ha]%elem_of_cons Hb; [|by apply Hlk]. rewrite Forall_forall in Hx2. by apply Hx2.
Qed.

Lemma sorted_app (l k : list T) :
  sorted lt l -> sorted lt k -> (forall a b, a ∈ l -> b ∈ k -> lt b a = false) -> sorted lt (l ++ k).
Proof.
  intros Hl Hk Hlk. induction Hl as [|x l Hl IH Hx]; simpl; [done|]. constructor.
  - apply IH. intros a b Ha Hb. apply Hlk; [by right|done].
  - apply Forall_app. split; [done|]. apply Forall_forall. intros b Hb. apply Hlk; [by left|done].
Qed.

(** [upper_bound] splits a sorted range at the key. *)
Lemma upper_bound_spec l key :
  sorted lt l ->
  (forall x, x ∈ take (upper_bound lt l key) l -> lt key x = false) /\
  (forall x, x ∈ drop (upper_bound lt l key) l -> lt x key = false).
Proof.
  induction 1 as [|x l Hl [IH1 IH2] Hx]; simpl; [split; intros x; by rewrite elem_of_nil|].
  destruct (lt key x) eqn:E; simpl; split.
  - intros y. by rewrite elem_of_nil.
  - rewrite Forall_forall in Hx. intros y [->|Hy]%elem_of_cons; [by apply sw_asym|].
    apply (sw_le_trans key x y); [by apply sw_asym|by apply Hx].
  - intros y [->|Hy]%elem_of_cons; [done|by apply IH1].
  - done.
Qed.

Lemma insert_sorted l key :
  sorted lt l -> sorted lt (take (upper_bound lt l key) l ++ key :: drop (upper_bound lt l key) l).
Proof.
  intros Hl. destruct (upper_bound_spec l key Hl) as [H1 H2].
  rewrite <- (take_drop (upper_bound lt l key) l) in Hl at 1. apply sorted_app_inv in Hl as (Ht & Hd & Htd).
  apply sorted_app; [done| |].
  - constructor; [done|]. by apply Forall_forall.
  - intros a b Ha [->|Hb]%elem_of_cons; [by apply H1|by apply Htd].
Qed.

Lemma insertion_loop_spec done rest :
  sorted lt done -> sorted lt (insertion_loop lt done rest) /\ insertion_loop lt done rest ≡ₚ done ++ rest.
Proof.
  revert done. induction rest as [|key rest IH]; intros l Hl; simpl; [by rewrite app_nil_r|].
  destruct (IH _ (insert_sorted l key Hl)) as [H1 H2]. split; [done|]. rewrite H2.
  rewrite <- (Permutation_middle (take _ l) (drop _ l) key), take_drop. apply Permutation_middle.
Qed.

Lemma insertion_sort_spec l : sorted lt (insertion_sort lt l) /\ insertion_sort lt l ≡ₚ l.
Proof. destruct l as [|x l]; [split; [constructor|done]|]. apply (insertion_loop_spec [x]). by repeat constructor. Qed.

Lemma merge_nil_r (a : list T) : merge lt a [] = a.
Proof. by destruct a. Qed.

Lemma merge_perm a b : merge lt a b ≡ₚ a ++ b.
Proof.
  revert b. induction a as [|x a IH]; intros b; [by destruct b|].
  induction b as [|y b IHb]; [by rewrite merge_nil_r, app_nil_r|]. cbn [merge]. destruct (lt y x).
  - change ((fix go (b : list T) := _) b) with (merge lt (x :: a) b). rewrite IHb. by rewrite <- Permutation_middle.
  - by rewrite IH.
Qed.

Lemma merge_sorted a b : sorted lt a -> sorted lt b -> sorted lt (merge lt a b).
Proof.
  intros Ha. revert b. induction Ha as [|x a Ha IH Hx]; intros b Hb; [by destruct b|].
  induction Hb as [|y b Hb IHb Hy]; [by constructor|]. cbn [merge]. destruct (lt y x) eqn:E.
  - change ((fix go (b : list T) := _) b) with (merge lt (x :: a) b). constructor; [done|].
    rewrite Forall_forall in *. intros z. rewrite merge_perm, elem_of_app, elem_of_cons. intros [[->|Hz]|Hz]; [by apply sw_asym| |by apply Hy].
    apply (sw_le_trans y x z); [by apply sw_asym|by apply Hx].
  - constructor; [apply IH; by constructor|]. rewrite Forall_forall in *. intros z.
    rewrite merge_perm, elem_of_app, elem_of_cons. intros [Hz|[->|Hz]]; [by apply Hx|done|].
    apply (sw_le_trans x y z); [done|by apply Hy].
Qed.
End algorithms.

(** ** One pass *)
Section passes.
Context {T : Type} (std_sort : (T -> T -> bool) -> list T -> list T) (roomy : nat -> nat -> bool).
Context (Hsort : forall lt l, StrictWeak lt -> sorted lt (std_sort lt l) /\ std_sort lt l ≡ₚ l).
Implicit Types s : Sorter T.

Notation cmp s := (comparator (config s)).

(** Both ways of merging give the same window. *)
Lemma inplace_is_standard s : perform_inplace_merge s = perform_standard_merge s.
Proof. unfold perform_inplace_merge, perform_standard_merge. by rewrite take_app_length, drop_app_length. Qed.

Lemma merge_with_window_standard s : merge_with_window roomy s = with_window s (perform_standard_merge s) [].
Proof. unfold merge_with_window. rewrite inplace_is_standard. by destruct (_ && _). Qed.

Lemma sort_and_merge_spec s :
  StrictWeak (cmp s) -> sorted (cmp s) (sorted_window s) ->
  let s' := sort_and_merge std_sort roomy s in
  config s' = config s /\ emitted s' = emitted s /\ total_processed s' = total_processed s /\ new_entries s' = [] /\
  sorted (cmp s) (sorted_window s') /\ sorted_window s' ≡ₚ sorted_window s ++ new_entries s.
Proof.
  intros Hw Hs. unfold sort_and_merge. destruct (new_entries s) as [|x n] eqn:En; [by rewrite app_nil_r|].
  rewrite <- En. clear x n En.
  set (sn := sort_new_entries std_sort s). assert (sorted (cmp s) sn /\ sn ≡ₚ new_entries s) as [Hn Hp].
  { subst sn. unfold sort_new_entries. destruct (_ <=? _); [by apply insertion_sort_spec|by apply Hsort]. }
  clearbody sn. rewrite merge_with_window_standard. unfold perform_standard_merge, with_window.
  cbn [config comparator sorted_window new_entries emitted total_processed].
  destruct (sorted_window s) as [|y w] eqn:Ew.
  - split_and!; done.
  - cbn [config comparator sorted_window new_entries emitted total_processed]. split_and!; try done; [by apply merge_sorted|]. by rewrite merge_perm, Hp.
Qed.

Lemma output_spec s n :
  let s' := if 0 <? n then output_entries s n else s in
  config s' = config s /\ new_entries s' = new_entries s /\ sorted_window s' = drop n (sorted_window s) /\
  concat (emitted s') = concat (emitted s) ++ take n (sorted_window s) /\
  total_processed s' = total_processed s + length (take n (sorted_window s)).
Proof.
  destruct n as [|n]; cbn -[output_entries]; [by rewrite app_nil_r, Nat.add_0_r|]. unfold output_entries.
  case_bool_decide as E; cbn [orb Nat.eqb].
  - rewrite E. cbn. by rewrite app_nil_r, Nat.add_0_r.
  - cbn [config new_entries sorted_window emitted total_processed]. rewrite concat_app. cbn [concat]. rewrite app_nil_r.
    destruct (Nat.min_spec (S n) (length (sorted_window s))) as [[H ->]|[H ->]]; [by split_and!|].
    rewrite !(take_ge _ (S n)), !(drop_ge _ (S n)), take_ge, drop_ge by lia. done.
Qed.

Lemma maintain_noop s : length (sorted_window s) <= window_size (config s) -> maintain_window_size s = s.
Proof. intros H. unfold maintain_window_size. destruct (Nat.ltb_spec (window_size (config s)) (length (sorted_window s))); [lia|done]. Qed.

(** What a pass does: it makes a window [w] of all entries, emits a front of it and
    keeps the rest, which then fits; a forced pass keeps nothing, another one keeps
    at least the difference between window and batch size if it emits anything. *)
Record pass s s' (force : bool) (w o : list T) : Prop := {
  ps_config : config s' = config s;
  ps_new : new_entries s' = [];
  ps_all : w ≡ₚ sorted_window s ++ new_entries s;
  ps_split : w = o ++ sorted_window s';
  ps_emitted : concat (emitted s') = concat (emitted s) ++ o;
  ps_total : total_processed s' = total_processed s + length o;
  ps_sorted : enable_sorting (config s) = true -> sorted (cmp s) w;
  ps_fits : length (sorted_window s') <= window_size (config s);
  ps_forced : force = true -> sorted_window s' = [];
  ps_margin : force = false -> o <> [] -> window_size (config s) - batch_size (config s) <= length (sorted_window s')
}.

Lemma process_batch_pass s force :
  (enable_sorting (config s) = true -> StrictWeak (cmp s) /\ sorted (cmp s) (sorted_window s)) ->
  exists w o, pass s (process_batch std_sort roomy s force) force w o.
Proof.
  intros Hs. unfold process_batch. case_bool_decide as En; case_bool_decide as Ew; cbn [andb].
  { exists [], []. split; rewrite ?En, ?Ew; cbn; try done; try lia; [by rewrite app_nil_r|constructor]. }
  all: match goal with |- context [maintain_window_size ?t] => set (s2 := t) end.
  all: assert (exists w o, pass s s2 force w o) as (w & o & Hp);
    [|exists w, o; rewrite maintain_noop; [done|rewrite (ps_config _ _ _ _ _ Hp); apply Hp]].
  all: set (s1 := if enable_sorting (config s) then _ else _) in s2.
  all: assert (config s1 = config s /\ emitted s1 = emitted s /\ total_processed s1 = total_processed s /\ new_entries s1 = [] /\
    (enable_sorting (config s) = true -> sorted (cmp s) (sorted_window s1)) /\
    sorted_window s1 ≡ₚ sorted_window s ++ new_entries s) as (E1 & E2 & E3 & E4 & E5 & E6).
  1,3,5: unfold s1; destruct (enable_sorting (config s)) eqn:Ee; [|by split_and!];
    destruct (Hs eq_refl) as [Hw Hso]; pose proof (sort_and_merge_spec s Hw Hso) as (? & ? & ? & ? & ? & ?); by split_and!.
  all: match goal with s2 := context [0 <? ?k] |- _ => set (n := k) in s2 end.
  all: pose proof (output_spec s1 n) as (F1 & F2 & F3 & F4 & F5).
  all: exists (sorted_window s1), (take n (sorted_window s1)); subst s2.
  all: split; rewrite ?F1, ?F2, ?F3, ?F4, ?F5, ?E1, ?E2, ?E3, ?E4; try done; try (by rewrite take_drop).
  all: rewrite ?length_drop; subst n; destruct force; try done; try lia.
  all: try (intros _; by rewrite drop_ge).
  all: unfold calculate_output_count; rewrite E1; destruct (Nat.ltb_spec (length (sorted_window s1)) (window_size (config s))); try lia.
  all: intros _ Hne; done || lia.
Qed.

(** ** Runs *)
Inductive Op := OpAddEntries (entries : list T) | OpAddEntry (entry : T) | OpFlush | OpReconfigure (cfg : SlidingWindowConfig T).

Definition run_op s (op : Op) : Sorter T :=
  match op with
  | OpAddEntries entries => add_entries std_sort roomy s entries
  | OpAddEntry entry => add_entry std_sort roomy s entry
  | OpFlush => flush std_sort roomy s
  | OpReconfigure cfg => reconfigure std_sort roomy s cfg
  end.

Definition inputs (op : Op) : list T :=
  match op with OpAddEntries entries => entries | OpAddEntry entry => [entry] | _ => [] end.

Definition config_ok (cfg : SlidingWindowConfig T) : Prop := enable_sorting cfg = true -> StrictWeak (comparator cfg).
Definition op_ok (op : Op) : Prop := match op with OpReconfigure cfg => config_ok cfg | _ => True end.

(** Nothing is lost or invented, the buffers stay within their sizes. *)
Record sorter_inv (xs : list T) s : Prop := {
  so_config : config_ok (config s);
  so_all : concat (emitted s) ++ sorted_window s ++ new_entries s ≡ₚ xs;
  so_total : total_processed s = length (concat (emitted s));
  so_sorted : enable_sorting (config s) = true -> sorted (cmp s) (sorted_window s);
  so_window : length (sorted_window s) <= window_size (config s);
  so_new : length (new_entries s) < Nat.max 1 (batch_size (config s))
}.

Lemma pass_inv xs s s' force w o :
  config_ok (config s) -> total_processed s = length (concat (emitted s)) ->
  concat (emitted s) ++ sorted_window s ++ new_entries s ≡ₚ xs -> pass s s' force w o -> sorter_inv xs s'.
Proof.
  intros Hc Ht Ha []. split; rewrite ?ps_config0, ?ps_new0, ?ps_emitted0, ?app_nil_r; try done.
  - by rewrite <- app_assoc, <- ps_split0, ps_all0.
  - rewrite ps_total0, Ht, length_app. lia.
  - intros He. specialize (ps_sorted0 He). rewrite ps_split0 in ps_sorted0. by apply sorted_app_inv in ps_sorted0 as (_ & ? & _).
  - cbn. lia.
Qed.

(** Adding: the batch is processed when it is full. *)
Lemma add_cases s entries :
  entries <> [] ->
  let s1 := with_window s (sorted_window s) (new_entries s ++ entries) in
  add_entries std_sort roomy s entries = if should_process s1 then process_batch std_sort roomy s1 false else s1.
Proof. by destruct entries. Qed.

Lemma add_inv xs s entries : sorter_inv xs s -> sorter_inv (xs ++ entries) (add_entries std_sort roomy s entries).
Proof.
  intros Hi. destruct (decide (entries = [])) as [->|Hne]; [by rewrite app_nil_r|]. rewrite add_cases by done. cbn zeta.
  pose proof Hi as []. set (s1 := with_window s _ _).
  assert (Ha : concat (emitted s1) ++ sorted_window s1 ++ new_entries s1 ≡ₚ xs ++ entries) by (cbn; by rewrite !app_assoc, <- so_all0, !app_assoc).
  destruct (should_process s1) eqn:Ep.
  - destruct (process_batch_pass s1 false) as (w & o & Hp); [intros He; split; [by apply so_config0|by apply so_sorted0]|].
    by apply (pass_inv _ s1 _ false w o).
  - split; try done. apply Nat.leb_gt in Ep. cbn [s1 with_window new_entries config] in *. lia.
Qed.

Lemma flush_pass s :
  (enable_sorting (config s) = true -> StrictWeak (cmp s) /\ sorted (cmp s) (sorted_window s)) ->
  exists w o, pass s (flush std_sort roomy s) true w o.
Proof.
  intros Hs. unfold flush. case_bool_decide as En; case_bool_decide as Ew; cbn [negb orb]; try by apply process_batch_pass.
  exists [], []. split; rewrite ?En, ?Ew; cbn; try done; try lia; [by rewrite app_nil_r|constructor].
Qed.

Lemma flush_inv xs s :
  sorter_inv xs s -> sorter_inv xs (flush std_sort roomy s) /\ sorted_window (flush std_sort roomy s) = [] /\ new_entries (flush std_sort roomy s) = [].
Proof.
  intros []. destruct (flush_pass s) as (w & o & Hp); [intros He; split; [by apply so_config0|by apply so_sorted0]|].
  split_and!; [by eapply pass_inv|by apply (ps_forced _ _ _ _ _ Hp)|apply (ps_new _ _ _ _ _ Hp)].
Qed.

Lemma sorter_op_inv xs s op : op_ok op -> sorter_inv xs s -> sorter_inv (xs ++ inputs op) (run_op s op).
Proof.
  intros Hop Hi. destruct op as [entries|entry| |cfg]; cbn [run_op inputs]; rewrite ?app_nil_r.
  - by apply add_inv.
  - by apply (add_inv xs s [entry]).
  - by apply flush_inv.
  - destruct (flush_inv _ _ Hi) as ([] & Ew & En). unfold reconfigure. split; cbn; try done; rewrite ?Ew, ?En in *; cbn in *; try done; try lia.
    intros _. constructor.
Qed.
End passes.

(** ** Theorems *)

(** Every entry given to the sorter is, at any time, either handed to the consumer or
    still buffered, exactly once, under any sequence of additions, flushes and
    reconfigurations: the window never silently drops entries, both buffers keep
    within their configured sizes, and the count of processed entries is exact. *)
Theorem sorter_conserves {T} std_sort roomy (cfg : SlidingWindowConfig T) (ops : list (@Op T)) :
  (forall lt l, StrictWeak lt -> sorted lt (std_sort lt l) /\ std_sort lt l ≡ₚ l) -> config_ok cfg -> Forall op_ok ops ->
  let s := fold_left (run_op std_sort roomy) ops (new_sorter cfg) in
  concat (emitted s) ++ sorted_window s ++ new_entries s ≡ₚ ops ≫= inputs /\
  total_processed s = length (concat (emitted s)) /\
  length (sorted_window s) <= window_size (config s) /\ length (new_entries s) < Nat.max 1 (batch_size (config s)).
Proof.
  intros Hsort Hc HF.
  assert (G : forall xs s, sorter_inv xs s -> sorter_inv (xs ++ (ops ≫= inputs)) (fold_left (run_op std_sort roomy) ops s)).
  { induction HF as [|op ops Hop HF IH]; intros xs s Hi; cbn [fold_left mbind list_bind]; [by rewrite app_nil_r|].
    rewrite app_assoc. apply IH. by apply sorter_op_inv. }
  destruct (G [] (new_sorter cfg)); [|by split_and!]. split; cbn; try done; try lia. intros _. constructor.
Qed.

(** ** Bounded disorder *)
Section disorder.
Context {T : Type} (std_sort : (T -> T -> bool) -> list T -> list T) (roomy : nat -> nat -> bool).
Context (Hsort : forall lt l, StrictWeak lt -> sorted lt (std_sort lt l) /\ std_sort lt l ≡ₚ l).
Context (cfg : SlidingWindowConfig T) `{Hcmp : !StrictWeak (comparator cfg)} (Hen : enable_sorting cfg = true).
Context (xs : list T).
Notation lt := (comparator cfg).

(** No entry arrives [d] or more positions after a greater one. *)
Definition nearly_sorted (lt : T -> T -> bool) (d : nat) (l : list T) : Prop :=
  forall i j a b, l !! i = Some a -> l !! j = Some b -> i + d <= j -> lt b a = false.

Context (Hxs : nearly_sorted lt (S (window_size cfg - batch_size cfg)) xs).

(** [p] entries are processed and [m] have arrived; what went out is below all the
    rest, arrived or not. *)
Record stream_inv (p m : nat) (s : Sorter T) : Prop := {
  st_config : config s = cfg;
  st_order : p <= m <= length xs;
  st_window : concat (emitted s) ++ sorted_window s ≡ₚ take p xs;
  st_new : new_entries s = drop p (take m xs);
  st_sorted : sorted lt (concat (emitted s) ++ sorted_window s);
  st_future j y b : y ∈ concat (emitted s) -> p <= j -> xs !! j = Some b -> lt b y = false
}.

(** Among entries not below [y], more than [r] of which arrived in the first [n], one
    arrived [r] positions before the end. *)
Lemma early_witness (y : T) n r :
  n <= length xs -> r < length (filter (fun z => lt z y = false) (take n xs)) ->
  exists i z, i + r < n /\ xs !! i = Some z /\ lt z y = false.
Proof.
  intros Hn Hr. rewrite <- (take_drop (n - r) (take n xs)), filter_app, length_app in Hr.
  assert (Hle : length (filter (fun z => lt z y = false) (drop (n - r) (take n xs))) <= r).
  { rewrite length_filter, length_drop, length_take. lia. }
  destruct (filter (fun z => lt z y = false) (take (n - r) (take n xs))) as [|z f] eqn:E; [simpl in Hr; lia|].
  assert (Hz : z ∈ filter (fun z => lt z y = false) (take (n - r) (take n xs))) by (rewrite E; by left).
  apply list_elem_of_filter in Hz as [Hz1 Hz2]. apply list_elem_of_lookup in Hz2 as [i Hi].
  rewrite take_take in Hi. apply lookup_take_Some in Hi as [Hi1 Hi2]. exists i, z. split_and!; [lia|done|done].
Qed.

Lemma filter_all_length (P : T -> Prop) `{!forall x, Decision (P x)} l : (forall x, x ∈ l -> P x) -> length (filter P l) = length l.
Proof.
  induction l as [|x l IH]; intros HP; [done|]. rewrite filter_cons_True by (apply HP; by left). simpl. f_equal. apply IH.
  intros y Hy. apply HP. by right.
Qed.

(** What stays behind a pass outnumbers the permitted disorder. *)
Lemma emitted_below p m s s' w o y j b :
  stream_inv p m s -> pass s s' false w o -> concat (emitted s) ++ w ≡ₚ take m xs -> y ∈ o -> m <= j -> xs !! j = Some b ->
  lt b y = false.
Proof.
  intros [] Hp Hall Hy Hj Hb. pose proof (ps_margin _ _ _ _ _ Hp eq_refl ltac:(by intros ->; apply elem_of_nil in Hy)) as Hm.
  pose proof (ps_sorted _ _ _ _ _ Hp) as Hs. rewrite st_config0 in *. specialize (Hs Hen).
  rewrite (ps_split _ _ _ _ _ Hp) in Hs, Hall. apply sorted_app_inv in Hs as (_ & _ & Hlow).
  destruct (early_witness y m (length (sorted_window s'))) as (i & z & Hi & Hz & Hzy); [lia| |].
  - rewrite <- Hall, !filter_app, !length_app.
    rewrite (filter_all_length _ (sorted_window s')) by (intros x Hx; by apply Hlow).
    enough (0 < length (filter (fun z => lt z y = false) o)) by lia.
    destruct (filter (fun z => lt z y = false) o) eqn:E; [|simpl; lia].
    assert (y ∈ filter (fun z => lt z y = false) o) as Hin by (apply list_elem_of_filter; split; [apply sw_irrefl|done]).
    rewrite E in Hin. by apply elem_of_nil in Hin.
  - apply (sw_le_trans y z b); [done|]. apply (Hxs i j); [done|done|lia].
Qed.

Lemma pass_stream p m s s' force w o :
  stream_inv p m s -> pass s s' force w o -> (force = true -> m = length xs) -> stream_inv m m s'.
Proof.
  intros Hi Hp Hf. pose proof Hi as []. pose proof (ps_all _ _ _ _ _ Hp) as Ha.
  assert (Hall : concat (emitted s) ++ w ≡ₚ take m xs).
  { rewrite Ha, app_assoc, st_window0, st_new0. replace (take p xs) with (take p (take m xs)) by (rewrite take_take; f_equal; lia).
    by rewrite take_drop. }
  apply sorted_app_inv in st_sorted0 as (He & Hw & Hew). pose proof (ps_sorted _ _ _ _ _ Hp) as Hs. rewrite st_config0 in Hs.
  split.
  - by rewrite (ps_config _ _ _ _ _ Hp).
  - lia.
  - by rewrite (ps_emitted _ _ _ _ _ Hp), <- app_assoc, <- (ps_split _ _ _ _ _ Hp).
  - rewrite (ps_new _ _ _ _ _ Hp), drop_ge; [done|]. rewrite length_take. lia.
  - rewrite (ps_emitted _ _ _ _ _ Hp), <- app_assoc, <- (ps_split _ _ _ _ _ Hp). apply sorted_app; [done|by apply Hs|].
    intros a b Hain. rewrite Ha, elem_of_app, st_new0. intros [Hb|Hb]; [by apply Hew|].
    apply list_elem_of_lookup in Hb as [j Hj]. rewrite lookup_drop in Hj. apply lookup_take_Some in Hj as [Hj _].
    apply (st_future0 (p + j)); [done|lia|done].
  - intros j y b. rewrite (ps_emitted _ _ _ _ _ Hp), elem_of_app. intros [Hy|Hy] Hj Hb; [apply (st_future0 j); [done|lia|done]|].
    destruct force; [|by eapply emitted_below]. apply lookup_lt_Some in Hb. specialize (Hf eq_refl). lia.
Qed.

Lemma add_stream p m s entries :
  stream_inv p m s -> entries = drop m (take (m + length entries) xs) -> m + length entries <= length xs ->
  exists p', stream_inv p' (m + length entries) (add_entries std_sort roomy s entries).
Proof.
  intros Hi He Hle. destruct (decide (entries = [])) as [->|Hne]; [exists p; by rewrite Nat.add_0_r|].
  rewrite (add_cases std_sort roomy s entries Hne). cbn zeta. set (s1 := with_window s _ _).
  assert (Hi1 : stream_inv p (m + length entries) s1).
  { destruct Hi. split; try done; [lia|]. cbn. rewrite st_new0. rewrite He at 1.
    rewrite <- (take_drop (m - p) (drop p (take (m + length entries) xs))). f_equal.
    - rewrite take_drop_commute, take_take. do 2 f_equal. lia.
    - rewrite drop_drop. f_equal. lia. }
  destruct (should_process s1); [|by exists p]. pose proof Hi1 as [Ec _ _ _ Hso _].
  destruct (process_batch_pass std_sort roomy Hsort s1 false) as (w & o & Hp).
  { rewrite Ec. intros _. split; [done|]. by apply sorted_app_inv in Hso as (_ & ? & _). }
  exists (m + length entries). by apply (pass_stream p _ s1 _ false w o).
Qed.

Lemma chunks_stream chunks p m s :
  stream_inv p m s -> concat chunks = drop m xs ->
  exists p', stream_inv p' (length xs) (fold_left (add_entries std_sort roomy) chunks s).
Proof.
  revert p m s. induction chunks as [|c chunks IH]; intros p m s Hi Hc; cbn [fold_left concat] in *.
  - assert (length xs <= m) by (apply (f_equal length) in Hc; rewrite length_drop in Hc; simpl in Hc; lia).
    exists p. destruct Hi. split; try done; [lia|]. rewrite st_new0, !take_ge by lia. done.
  - assert (Hlen : m + length c <= length xs).
    { pose proof (st_order _ _ _ Hi). apply (f_equal length) in Hc. rewrite length_app, length_drop in Hc. lia. }
    destruct (add_stream p m s c Hi) as (p' & Hi'); [|done|].
    + rewrite <- take_drop_commute, <- Hc, take_app_length. done.
    + apply (IH p' (m + length c)); [done|]. rewrite <- drop_drop, <- Hc, drop_app_length. done.
Qed.
End disorder.

(** C34. The sorter sorts completely what is nearly in order: when no entry arrives more
    than [window_size - batch_size] positions after a greater one, everything the
    consumer receives, over all calls and the final flush, is one sorted sequence of
    exactly the entries added, however they were split into batches. *)
Theorem bounded_disorder_sorted {T} std_sort roomy (cfg : SlidingWindowConfig T) (chunks : list (list T)) :
  (forall lt l, StrictWeak lt -> sorted lt (std_sort lt l) /\ std_sort lt l ≡ₚ l) ->
  StrictWeak (comparator cfg) -> enable_sorting cfg = true ->
  nearly_sorted (comparator cfg) (S (window_size cfg - batch_size cfg)) (concat chunks) ->
  let s := flush std_sort roomy (fold_left (add_entries std_sort roomy) chunks (new_sorter cfg)) in
  sorted (comparator cfg) (concat (emitted s)) /\ concat (emitted s) ≡ₚ concat chunks /\
  sorted_window s = [] /\ new_entries s = [].
Proof.
  intros Hsort Hw Hen Hxs.
  assert (H0 : stream_inv cfg (concat chunks) 0 0 (new_sorter cfg)) by (split; cbn; try done; [lia|constructor|by intros ? ? ? ?%elem_of_nil]).
  destruct (chunks_stream std_sort roomy Hsort cfg Hen _ Hxs chunks 0 0 _ H0) as (p & Hi); [done|].
  set (s := fold_left _ _ _) in *. pose proof Hi as [Ec _ _ _ Hso _]. destruct (flush_pass std_sort roomy Hsort s) as (w & o & Hp).
  { rewrite Ec. intros _. split; [done|]. by apply sorted_app_inv in Hso as (_ & ? & _). }
  pose proof (pass_stream cfg Hen _ Hxs _ _ _ _ _ _ _ Hi Hp ltac:(done)) as [_ _ Ha _ Hs _].
  pose proof (ps_forced _ _ _ _ _ Hp eq_refl) as Ew. rewrite Ew, app_nil_r, take_ge in Ha by lia. rewrite Ew, app_nil_r in Hs.
  split_and!; [done|done|done|apply (ps_new _ _ _ _ _ Hp)].
Qed.

(** ** Instances *)
Definition nat_lt (a b : nat) : bool := a <? b.

#[export] Instance nat_lt_strict_weak : StrictWeak nat_lt.
Proof. unfold nat_lt. split; intros; rewrite ?Nat.ltb_ge, ?Nat.ltb_lt in *; lia. Qed.

Definition small_config : SlidingWindowConfig nat :=
  {| window_size := 4; batch_size := 2; enable_sorting := true; comparator := nat_lt; use_inplace_merge := true; merge_threshold := 64 |}.

Lemma sorter_conserves_witness :
  let s := fold_left (run_op (fun lt => insertion_sort lt) (fun _ _ => true))
             [OpAddEntries [3; 1; 2]; OpAddEntry 0; OpFlush; OpReconfigure small_config; OpAddEntry 9] (new_sorter small_config) in
  concat (emitted s) ++ sorted_window s ++ new_entries s ≡ₚ [3; 1; 2; 0; 9] /\ length (sorted_window s) <= 4.
Proof.
  destruct (sorter_conserves (fun lt => insertion_sort lt) (fun _ _ => true) small_config
    [OpAddEntries [3; 1; 2]; OpAddEntry 0; OpFlush; OpReconfigure small_config; OpAddEntry 9]) as (H1 & _ & H3 & _).
  - intros lt l Hw. by apply insertion_sort_spec.
  - intros _. apply _.
  - repeat (constructor; [done || (intros _; apply _)|]). constructor.
  - split; [exact H1|exact H3].
Defined.

Lemma bounded_disorder_sorted_witness :
  let s := flush (fun lt => insertion_sort lt) (fun _ _ => true)
             (fold_left (add_entries (fun lt => insertion_sort lt) (fun _ _ => true)) [[2; 1; 0]; [4]; [3; 6; 5]] (new_sorter small_config)) in
  sorted nat_lt (concat (emitted s)) /\ concat (emitted s) ≡ₚ [2; 1; 0; 4; 3; 6; 5].
Proof.
  destruct (bounded_disorder_sorted (fun lt => insertion_sort lt) (fun _ _ => true) small_config [[2; 1; 0]; [4]; [3; 6; 5]])
    as (H1 & H2 & _); [intros lt l Hw; by apply insertion_sort_spec|apply _|done| |by split].
  intros i j a b Hi Hj Hd. change (S (window_size small_config - batch_size small_config)) with 3 in Hd.
  do 8 (try destruct i as [|i]); cbn in Hi; simplify_eq; do 8 (try destruct j as [|j]); cbn in Hj; simplify_eq; lia || done.
Defined.
