(* ===== verification/LogSink.v ===== *)
(** * logger-crow: levels, entries and sinks

    What a [Logger] and its sinks share: [LogLevel], the packed dispatch word with the
    sink's status, threshold and retry deadline (sink/detail/sink_status.hpp), the protected
    operations of [Sink] (sink/interface), the prefix filter, [LogEvent] and the two entry
    formats (entry/), and [ConsoleSink] (sink/console). The steady clock's reading is an
    argument; a write to a stream has an outcome chosen by the environment. *)

From S2P Require Import Prelude Clock Chameleon SqlText Sorter.

#[local] Open Scope Z_scope.

(** ** [LogLevel]

    The underlying byte may hold any value; those without a name are [LevelValue]. *)
Inductive LogLevel := Trace | Debug | Info | Warning | Error | Fatal | LevelValue (v : Z).

#[export] Instance LogLevel_eq_dec : EqDecision LogLevel.
Proof. solve_decision. Defined.

Definition level_code (l : LogLevel) : Z :=
  match l with Trace => 0 | Debug => 1 | Info => 2 | Warning => 3 | Error => 4 | Fatal => 5 | LevelValue v => v end.

Definition level_of_code (v : Z) : LogLevel :=
  if v =? 0 then Trace else if v =? 1 then Debug else if v =? 2 then Info else if v =? 3 then Warning
  else if v =? 4 then Error else if v =? 5 then Fatal else LevelValue v.

Definition log_level_to_string (l : LogLevel) : bytes :=
  match l with
  | Trace => B "TRC" | Debug => B "DBG" | Info => B "INF" | Warning => B "WRN" | Error => B "ERR" | Fatal => B "FAT"
  | LevelValue _ => B "UNKNOWN"
  end.

(** ** [SinkStatus] and the dispatch word *)
Inductive SinkStatus := Healthy | Degraded | Dead | StatusValue (v : Z).

#[export] Instance SinkStatus_eq_dec : EqDecision SinkStatus.
Proof. solve_decision. Defined.

Definition status_code (s : SinkStatus) : Z :=
  match s with Healthy => 0 | Degraded => 1 | Dead => 2 | StatusValue v => v end.

Definition status_of_code (v : Z) : SinkStatus :=
  if v =? 0 then Healthy else if v =? 1 then Degraded else if v =? 2 then Dead else StatusValue v.

Definition status_to_string (s : SinkStatus) : bytes :=
  match s with Healthy => B "HEALTHY" | Degraded => B "DEGRADED" | Dead => B "DEAD" | StatusValue _ => B "UNKNOWN" end.

Record DispatchHint := { status : SinkStatus; threshold : LogLevel; retry_at_ms : Z }.

Definition drop_all_threshold : Z := 127.
Definition backoff_base : Z := 1000.
Definition backoff_cap : Z := 60000.

(** [std::uint64_t] arithmetic. *)
Definition u64 (z : Z) : Z := z mod 2 ^ 64.
Definition u32 (z : Z) : Z := z mod 2 ^ 32.

Definition pack_dispatch (st : SinkStatus) (th : LogLevel) (retry : Z) : Z :=
  Z.lor (Z.lor (u64 (Z.shiftl retry 16)) (Z.shiftl (status_code st) 8)) (level_code th).

Definition unpack_dispatch (word : Z) : DispatchHint :=
  {| status := status_of_code (Z.land (Z.shiftr word 8) 255);
     threshold := level_of_code (Z.land word 255);
     retry_at_ms := Z.shiftr word 16 |}.

Definition backoff_ms (consecutive_failures : Z) : Z :=
  if consecutive_failures =? 0 then 0
  else exponential_backoff (Z.to_N (consecutive_failures - 1)) backoff_base backoff_cap.

Definition retry_due (hint : DispatchHint) (now_ms : Z) : bool := retry_at_ms hint <=? now_ms.

(** ** [Sink]: the state every sink carries *)
Record SinkBase := {
  dispatch_word : Z;
  undelivered_ : Z;
  consecutive_failures : Z;
  last_error_ : bytes;
  reported_status : SinkStatus
}.

Definition new_base : SinkBase :=
  {| dispatch_word := pack_dispatch Healthy Trace 0; undelivered_ := 0; consecutive_failures := 0; last_error_ := [];
     reported_status := Healthy |}.

Definition dispatch_hint (b : SinkBase) : DispatchHint := unpack_dispatch (dispatch_word b).
Definition get_status (b : SinkBase) : SinkStatus := status (dispatch_hint b).
Definition undelivered (b : SinkBase) : Z := undelivered_ b.
Definition last_error (b : SinkBase) : bytes := last_error_ b.

Definition add_undelivered (count : Z) (b : SinkBase) : SinkBase :=
  {| dispatch_word := dispatch_word b; undelivered_ := u64 (undelivered_ b + count);
     consecutive_failures := consecutive_failures b; last_error_ := last_error_ b; reported_status := reported_status b |}.

(** [update_dispatch]: the compare-and-swap loop, run by one thread. *)
Definition update_dispatch (transform : DispatchHint -> Z) (b : SinkBase) : SinkBase :=
  {| dispatch_word := transform (unpack_dispatch (dispatch_word b)); undelivered_ := undelivered_ b;
     consecutive_failures := consecutive_failures b; last_error_ := last_error_ b; reported_status := reported_status b |}.

Definition put_status (st : SinkStatus) (h : DispatchHint) : Z := pack_dispatch st (threshold h) (retry_at_ms h).
Definition put_threshold (th : LogLevel) (h : DispatchHint) : Z := pack_dispatch (status h) th (retry_at_ms h).
Definition put_retry (retry : Z) (h : DispatchHint) : Z := pack_dispatch (status h) (threshold h) retry.

Definition set_status (st : SinkStatus) (reason : bytes) (b : SinkBase) : SinkBase :=
  update_dispatch (put_status st)
    {| dispatch_word := dispatch_word b; undelivered_ := undelivered_ b; consecutive_failures := consecutive_failures b;
       last_error_ := reason; reported_status := reported_status b |}.

Definition publish_threshold (th : LogLevel) (b : SinkBase) : SinkBase := update_dispatch (put_threshold th) b.

Definition note_failure (now_ms : Z) (b : SinkBase) : SinkBase :=
  let failures := consecutive_failures b in
  let retry_at := u64 (now_ms + backoff_ms failures) in
  update_dispatch (put_retry retry_at)
    {| dispatch_word := dispatch_word b; undelivered_ := undelivered_ b; consecutive_failures := u32 (failures + 1);
       last_error_ := last_error_ b; reported_status := reported_status b |}.

Definition note_success (b : SinkBase) : SinkBase :=
  update_dispatch (put_retry 0)
    {| dispatch_word := dispatch_word b; undelivered_ := undelivered_ b; consecutive_failures := 0;
       last_error_ := last_error_ b; reported_status := reported_status b |}.

(** ** [PrefixFilter] *)
Inductive PrefixFilterMode := AllowAll | Allowlist | Denylist.

(** The set is a [std::flat_set]: only membership is used. *)
Record PrefixFilter := { mode_ : PrefixFilterMode; block_empty_ : bool; set_ : gset bytes }.

Definition allow_all : PrefixFilter := {| mode_ := AllowAll; block_empty_ := false; set_ := ∅ |}.
Definition allow (s : gset bytes) : PrefixFilter := {| mode_ := Allowlist; block_empty_ := false; set_ := s |}.
Definition deny (s : gset bytes) : PrefixFilter := {| mode_ := Denylist; block_empty_ := false; set_ := s |}.
Definition block_empty_prefix (f : PrefixFilter) : PrefixFilter := {| mode_ := mode_ f; block_empty_ := true; set_ := set_ f |}.

Definition accepts (f : PrefixFilter) (prefix : bytes) : bool :=
  if bool_decide (prefix = []) then negb (block_empty_ f)
  else match mode_ f with
       | AllowAll => true
       | Allowlist => bool_decide (prefix ∈ set_ f)
       | Denylist => negb (bool_decide (prefix ∈ set_ f))
       end.

(** ** Events and entries *)
Abbreviation PrefixNameStorage := (InlineString 31).

(** [std::source_location]; [function_name] may be null. *)
Record source_location := { file_name : bytes; function_name : option bytes; line : N }.

Record LogEvent := {
  level : LogLevel;
  prefix : PrefixNameStorage;
  message : bytes;
  location : source_location;
  time_point : Z;
  tid : N;
  pid : Z;
  shutdown_signal : bool
}.

(** [tid_str] and [pid_str]: [snprintf] into 16 bytes, terminator included. *)
Definition tid_str (e : LogEvent) : bytes := take 15 (to_decimal (tid e)).
Definition pid_str (e : LogEvent) : bytes := take 15 (to_decimal_Z (pid e)).

(** What follows the last occurrence of [c], or all of [s] ([std::strrchr]). *)
Fixpoint after_last (c : ascii) (s : bytes) : option bytes :=
  match s with
  | [] => None
  | x :: s' => match after_last c s' with
               | Some t => Some t
               | None => if bool_decide (x = c) then Some s' else None
               end
  end.

(** [EntryBase::level_cstr]: an index into the table of codes, defined for the named levels. *)
Definition level_strings : list bytes := [B "TRC"; B "DBG"; B "INF"; B "WRN"; B "ERR"; B "FAT"].
Definition level_cstr (l : LogLevel) : bytes := nth (Z.to_nat (level_code l)) level_strings [].

(** [LightEntry::format_into] after [make_entry_from_event<LightEntry>]. *)
Definition light_format (e : LogEvent) : bytes := log_level_to_string (level e) ++ B " " ++ message e ++ [nl].

(** [DetailedEntry::format_into], on Linux. The prefix passes through [MetaPrefix]. *)
Definition detailed_format (e : LogEvent) : bytes :=
  let prefix := inline_assign (inline_string 31) (inline_view (prefix e)) in
  let loc := location e in
  format_time_iso_ms UTC gmtime_r (time_point e) [] ++ B " " ++ level_cstr (level e) ++ B " [tid " ++ tid_str e ++ B "] " ++
  (if inline_empty prefix then []
   else B "[" ++ inline_view prefix ++ B ":" ++ default (B "?") (function_name loc) ++ B "] ") ++
  B "[" ++ default (file_name loc) (after_last "/"%char (file_name loc)) ++ B ":" ++ to_decimal (line loc) ++ B "] " ++
  message e ++ [nl].

(** [DetailedEntry::comp] *)
Definition detailed_comp (lhs rhs : LogEvent) : bool :=
  if negb (time_point lhs =? time_point rhs) then time_point lhs <? time_point rhs
  else level_code (level lhs) <? level_code (level rhs).

(** The conversion to [std::int8_t] that [should_log] compares with. *)
Definition int8 (z : Z) : Z := (z + 128) mod 256 - 128.

Definition level_accepts (threshold lvl : LogLevel) : bool := int8 (level_code threshold) <=? int8 (level_code lvl).

(** What one stream operation does: it succeeds, it fails and leaves the stream bad, or it throws. *)
Inductive io_outcome := IoOk | IoFails | IoThrows (what : option bytes).

(** ** [ConsoleSink]

    [format] is [make_entry_from_event<EntryType>] followed by [format_into]: the text, or
    the exception it let through. *)
Module ConsoleSink.

Record ConsoleSinkConfig := {
  threshold_ : LogLevel; enable_colors_ : bool; flush_each_entry_ : bool; prefix_filter_ : PrefixFilter
}.

Definition default_config : ConsoleSinkConfig :=
  {| threshold_ := Debug; enable_colors_ := true; flush_each_entry_ := false; prefix_filter_ := allow_all |}.

(** [output] is the text on the configured stream, [good] its state. *)
Record ConsoleSink := { base : SinkBase; config_ : ConsoleSinkConfig; output : bytes; good : bool }.

Definition set_base (b : SinkBase) (s : ConsoleSink) : ConsoleSink :=
  {| base := b; config_ := config_ s; output := output s; good := good s |}.

Definition new_sink (cfg : ConsoleSinkConfig) : ConsoleSink :=
  {| base := publish_threshold (threshold_ cfg) new_base; config_ := cfg; output := []; good := true |}.

Definition set_config (cfg : ConsoleSinkConfig) (s : ConsoleSink) : ConsoleSink :=
  {| base := publish_threshold (threshold_ cfg) (base s); config_ := cfg; output := output s; good := good s |}.

Definition should_log (s : ConsoleSink) (lvl : LogLevel) (prefix : bytes) : bool :=
  level_accepts (threshold_ (config_ s)) lvl && accepts (prefix_filter_ (config_ s)) prefix.

Definition mark_degraded (now_ms : Z) (reason : bytes) (s : ConsoleSink) : ConsoleSink :=
  let b := if bool_decide (get_status (base s) = Healthy) then note_failure now_ms (base s) else base s in
  set_base (set_status Degraded reason b) s.

Definition colorize_by_level (text : bytes) (lvl : LogLevel) : bytes :=
  match lvl with
  | Trace | Debug => Colors.make Colors.Foreground Colors.Cyan text
  | Info => Colors.make Colors.Foreground Colors.Green text
  | Warning => Colors.make Colors.Foreground Colors.Yellow text
  | Error => Colors.make Colors.Foreground Colors.Red text
  | Fatal => Colors.make Colors.Bold Colors.Red text
  | LevelValue _ => text
  end.

(** A stream operation: the sink afterwards, and the exception when the stream was set up
    to throw, in which case it is bad as well. *)
Definition stream_result : Type := ConsoleSink * option (option bytes).

Definition with_stream (out : bytes) (ok : bool) (s : ConsoleSink) : ConsoleSink :=
  {| base := base s; config_ := config_ s; output := out; good := ok |}.

(** [*output << text]: nothing reaches a stream that is not good. *)
Definition insert (text : bytes) (io : io_outcome) (s : ConsoleSink) : stream_result :=
  match io with
  | IoThrows what => (with_stream (output s) false s, Some what)
  | IoFails => (with_stream (output s) false s, None)
  | IoOk => (if good s then with_stream (output s ++ text) true s else s, None)
  end.

Definition stream_flush (io : io_outcome) (s : ConsoleSink) : stream_result :=
  match io with
  | IoOk => (s, None)
  | IoFails => (with_stream (output s) false s, None)
  | IoThrows what => (with_stream (output s) false s, Some what)
  end.

Section ops.
Context (format : LogEvent -> result (option bytes) bytes).

(** [now_ms] is the steady clock when a failure is noted; [io] and [io_flush] are the outcomes
    of the write and of the flush. *)
Definition process (now_ms : Z) (io io_flush : io_outcome) (e : LogEvent) (s : ConsoleSink) : ConsoleSink :=
  if negb (should_log s (level e) (inline_view (prefix e))) then s
  else
    let caught what := mark_degraded now_ms (default (B "unknown exception while writing") what) in
    match format e with
    | Err what => caught what s
    | Ok text =>
        let '(s1, thrown) := insert (if enable_colors_ (config_ s) then colorize_by_level text (level e) else text) io s in
        match thrown with
        | Some what => caught what s1
        | None =>
            let '(s2, thrown) := if flush_each_entry_ (config_ s) then stream_flush io_flush s1 else (s1, None) in
            match thrown with
            | Some what => caught what s2
            | None => if good s2 then s2 else mark_degraded now_ms (B "output stream is not writable") s2
            end
        end
    end.

(** [Sink::process_batch], inherited: event by event. *)
Definition process_batch (now_ms : Z) (ios : list (io_outcome * io_outcome)) (batch : list LogEvent) (s : ConsoleSink)
  : ConsoleSink :=
  fold_left (fun s '(e, (io, io_flush)) => process now_ms io io_flush e s) (zip batch ios) s.

End ops.

Definition flush (now_ms : Z) (io : io_outcome) (s : ConsoleSink) : ConsoleSink :=
  match stream_flush io s with
  | (s', None) => s'
  | (s', Some what) => mark_degraded now_ms (default (B "unknown exception while flushing") what) s'
  end.

Definition maintain (s : ConsoleSink) : ConsoleSink :=
  if good s then set_base (set_status Healthy [] (note_success (base s))) s else s.

End ConsoleSink.

(** ** The dispatch word *)
Definition level_named (l : LogLevel) : Prop := match l with LevelValue _ => False | _ => True end.
Definition status_named (s : SinkStatus) : Prop := match s with StatusValue _ => False | _ => True end.

Lemma level_code_bounds l : level_named l -> 0 <= level_code l <= 5.
Proof. destruct l; simpl; lia. Qed.

Lemma level_code_inv l : level_named l -> level_of_code (level_code l) = l.
Proof. by destruct l. Qed.

Lemma status_code_inv s : status_named s -> 0 <= status_code s <= 2 /\ status_of_code (status_code s) = s.
Proof. destruct s; simpl; try done; intros _; split; try done; lia. Qed.

Lemma lor_disjoint a b n : 0 <= n -> 0 <= b < 2 ^ n -> Z.lor (Z.shiftl a n) b = a * 2 ^ n + b.
Proof.
  intros Hn Hb. rewrite <- Z.shiftl_mul_pow2 by done.
  assert (E : Z.land (Z.shiftl a n) b = 0).
  { apply Z.bits_inj'. intros i Hi. rewrite Z.land_spec, Z.bits_0. destruct (Z.lt_ge_cases i n).
    - rewrite Z.shiftl_spec_low by done. done.
    - rewrite <- (Z.mod_small b (2 ^ n)) by done. rewrite Z.mod_pow2_bits_high by lia. apply andb_false_r. }
  rewrite <- Z.lxor_lor by done. symmetry. by apply Z.add_nocarry_lxor.
Qed.

Lemma pack_value st th r :
  status_named st -> level_named th -> 0 <= r < 2 ^ 48 ->
  pack_dispatch st th r = r * 65536 + status_code st * 256 + level_code th.
Proof.
  intros Hs Ht Hr. destruct (status_code_inv st Hs) as [Hs' _]. pose proof (level_code_bounds th Ht).
  unfold pack_dispatch, u64. rewrite (Z.shiftl_mul_pow2 r), Z.mod_small by lia.
  rewrite <- Z.shiftl_mul_pow2 by lia. rewrite lor_disjoint; [|lia|rewrite Z.shiftl_mul_pow2; lia].
  rewrite Z.shiftl_mul_pow2 by lia. replace (r * 2 ^ 16 + status_code st * 2 ^ 8) with
    (Z.shiftl (r * 256 + status_code st) 8) by (rewrite Z.shiftl_mul_pow2; lia).
  rewrite lor_disjoint by lia. lia.
Qed.

(** Unpacking gives back the three fields, as long as the deadline has 48 bits: more than
    eight thousand years of milliseconds. *)
Lemma unpack_pack st th r :
  status_named st -> level_named th -> 0 <= r < 2 ^ 48 ->
  unpack_dispatch (pack_dispatch st th r) = {| status := st; threshold := th; retry_at_ms := r |}.
Proof.
  intros Hs Ht Hr. rewrite pack_value by done. destruct (status_code_inv st Hs) as [Hb Hi].
  pose proof (level_code_bounds th Ht). unfold unpack_dispatch. rewrite !Z.shiftr_div_pow2 by lia.
  change 255 with (Z.ones 8). rewrite !Z.land_ones by lia.
  replace ((r * 65536 + status_code st * 256 + level_code th) / 2 ^ 8) with (r * 256 + status_code st)
    by (Z.to_euclidean_division_equations; lia).
  replace ((r * 65536 + status_code st * 256 + level_code th) / 2 ^ 16) with r by (Z.to_euclidean_division_equations; lia).
  replace ((r * 256 + status_code st) mod 2 ^ 8) with (status_code st) by (Z.to_euclidean_division_equations; lia).
  replace ((r * 65536 + status_code st * 256 + level_code th) mod 2 ^ 8) with (level_code th)
    by (Z.to_euclidean_division_equations; lia).
  by rewrite Hi, level_code_inv.
Qed.

(** A sink's word always holds a named status, a named threshold and a deadline that fits. *)
Definition word_ok (w : Z) : Prop :=
  exists st th r, w = pack_dispatch st th r /\ status_named st /\ level_named th /\ 0 <= r < 2 ^ 48.
Definition base_ok (b : SinkBase) : Prop := word_ok (dispatch_word b).

Lemma new_base_ok : base_ok new_base.
Proof. by exists Healthy, Trace, 0. Qed.

(** *** Concurrent updates

    [update_dispatch] in several threads: each loads the word and retries its
    compare-and-swap; a weak exchange may also fail spuriously. *)
Module Dispatch.

(** What a sink's methods ask of the word. *)
Inductive request := PutStatus (st : SinkStatus) | PutThreshold (th : LogLevel) | PutRetry (retry : Z).

Definition transform (q : request) : DispatchHint -> Z :=
  match q with PutStatus st => put_status st | PutThreshold th => put_threshold th | PutRetry r => put_retry r end.

Inductive pc := Start (q : request) | Loop (q : request) (expected : Z) | Finished.

Record state := { word : Z; threads : list pc; applied : list request }.

Inductive step : state -> state -> Prop :=
| Load w ts ap i q : ts !! i = Some (Start q) ->
    step {| word := w; threads := ts; applied := ap |} {| word := w; threads := <[i := Loop q w]> ts; applied := ap |}
| Exchange w ts ap i q : ts !! i = Some (Loop q w) ->
    step {| word := w; threads := ts; applied := ap |}
         {| word := transform q (unpack_dispatch w); threads := <[i := Finished]> ts; applied := ap ++ [q] |}
| Retry w ts ap i q expected : ts !! i = Some (Loop q expected) ->
    step {| word := w; threads := ts; applied := ap |} {| word := w; threads := <[i := Loop q w]> ts; applied := ap |}.

Definition start (w : Z) (qs : list request) : state := {| word := w; threads := Start <$> qs; applied := [] |}.

Definition apply_request (w : Z) (q : request) : Z := transform q (unpack_dispatch w).

Definition request_ok (q : request) : Prop :=
  match q with PutStatus st => status_named st | PutThreshold th => level_named th | PutRetry r => 0 <= r < 2 ^ 48 end.

End Dispatch.

Definition hint_ok (h : DispatchHint) : Prop := status_named (status h) /\ level_named (threshold h) /\ 0 <= retry_at_ms h < 2 ^ 48.

Lemma word_ok_hint w : word_ok w -> hint_ok (unpack_dispatch w).
Proof. intros (st & th & r & -> & H1 & H2 & H3). by rewrite unpack_pack. Qed.

Lemma pack_ok st th r : status_named st -> level_named th -> 0 <= r < 2 ^ 48 -> word_ok (pack_dispatch st th r).
Proof. intros. by exists st, th, r. Qed.

(** What a request means for the decoded word: it replaces its own field only. *)
Definition hint_put (h : DispatchHint) (q : Dispatch.request) : DispatchHint :=
  match q with
  | Dispatch.PutStatus st => {| status := st; threshold := threshold h; retry_at_ms := retry_at_ms h |}
  | Dispatch.PutThreshold th => {| status := status h; threshold := th; retry_at_ms := retry_at_ms h |}
  | Dispatch.PutRetry r => {| status := status h; threshold := threshold h; retry_at_ms := r |}
  end.

Lemma apply_request_ok w q :
  word_ok w -> Dispatch.request_ok q ->
  word_ok (Dispatch.apply_request w q) /\ unpack_dispatch (Dispatch.apply_request w q) = hint_put (unpack_dispatch w) q.
Proof.
  intros Hw Hq. destruct (word_ok_hint w Hw) as (H1 & H2 & H3). unfold Dispatch.apply_request.
  destruct q; simpl in *; (split; [by apply pack_ok|by apply unpack_pack]).
Qed.

Lemma apply_requests_ok w qs :
  word_ok w -> Forall Dispatch.request_ok qs ->
  word_ok (fold_left Dispatch.apply_request qs w) /\
  unpack_dispatch (fold_left Dispatch.apply_request qs w) = fold_left hint_put qs (unpack_dispatch w).
Proof.
  intros Hw Hqs. revert w Hw. induction Hqs as [|q qs Hq _ IH]; intros w Hw; simpl; [done|].
  destruct (apply_request_ok w q Hw Hq) as [Hw' E]. rewrite <- E. by apply IH.
Qed.

Section dispatch_facts.
Import Dispatch.

Definition pending (p : pc) : list request := match p with Start q => [q] | Loop q _ => [q] | Finished => [] end.

(** The word is the applied requests in the order of their exchanges, and no request is
    applied twice or lost. *)
Record cas_inv (w0 : Z) (qs : list request) (s : state) : Prop := {
  c_word : word s = fold_left apply_request (applied s) w0;
  c_requests : applied s ++ concat (pending <$> threads s) ≡ₚ qs
}.

Lemma pending_update ts i p p' :
  ts !! i = Some p -> concat (pending <$> <[i := p']> ts) ++ pending p ≡ₚ concat (pending <$> ts) ++ pending p'.
Proof.
  intros E. rewrite <- (take_drop_middle ts i p E) at 2. rewrite insert_take_drop by (by eapply lookup_lt_Some).
  rewrite !fmap_app, !concat_app, !fmap_cons. cbn [concat]. solve_Permutation.
Qed.

Lemma cas_step w0 qs s s' : cas_inv w0 qs s -> step s s' -> cas_inv w0 qs s'.
Proof.
  intros [Hw Hr] Hs. destruct Hs as [w ts ap i q Hi|w ts ap i q Hi|w ts ap i q ex Hi]; simpl in *.
  - split; simpl; [done|]. pose proof (pending_update ts i _ (Loop q w) Hi) as E. cbn in E.
    apply (inj (.++ [q])) in E. by rewrite E.
  - split; simpl; [by rewrite fold_left_app, <- Hw|]. pose proof (pending_update ts i _ Finished Hi) as E. cbn in E.
    rewrite app_nil_r in E. rewrite <- Hr, <- E. solve_Permutation.
  - split; simpl; [done|]. pose proof (pending_update ts i _ (Loop q w) Hi) as E. cbn in E.
    apply (inj (.++ [q])) in E. by rewrite E.
Qed.

Lemma cas_start w0 qs : cas_inv w0 qs (start w0 qs).
Proof.
  split; [done|]. simpl. induction qs as [|q qs IH]; [done|]. cbn. by rewrite IH.
Qed.

End dispatch_facts.

(** Threads that update a sink's dispatch word at the same time never overwrite one another:
    once all have returned, each request has taken effect exactly once, in the order of the
    exchanges, and each has changed its own field only. *)
Theorem dispatch_updates_compose w qs s :
  word_ok w -> Forall Dispatch.request_ok qs -> rtc Dispatch.step (Dispatch.start w qs) s ->
  Forall (eq Dispatch.Finished) (Dispatch.threads s) ->
  exists order, order ≡ₚ qs /\ word_ok (Dispatch.word s) /\
    unpack_dispatch (Dispatch.word s) = fold_left hint_put order (unpack_dispatch w).
Proof.
  intros Hw Hq Hs Hf. assert (cas_inv w qs s) as [Ew Er].
  { eapply (rtc_preserves Dispatch.step (cas_inv w qs)); [|apply cas_start|done]. intros ? ? ?. by apply cas_step. }
  assert (E : concat (pending <$> Dispatch.threads s) = []) by (clear -Hf; induction Hf as [|x l <- _ IH]; [done|exact IH]).
  rewrite E, app_nil_r in Er. exists (Dispatch.applied s). rewrite Ew. split; [done|]. apply apply_requests_ok; [done|].
  by rewrite Er.
Qed.

Lemma dispatch_updates_compose_witness :
  exists order, order ≡ₚ [Dispatch.PutStatus Dead; Dispatch.PutThreshold Error] /\
    word_ok (pack_dispatch Dead Error 0) /\
    unpack_dispatch (pack_dispatch Dead Error 0) = fold_left hint_put order (unpack_dispatch (dispatch_word new_base)).
Proof.
  apply (dispatch_updates_compose (dispatch_word new_base) [Dispatch.PutStatus Dead; Dispatch.PutThreshold Error]
    {| Dispatch.word := pack_dispatch Dead Error 0; Dispatch.threads := [Dispatch.Finished; Dispatch.Finished];
       Dispatch.applied := [Dispatch.PutThreshold Error; Dispatch.PutStatus Dead] |}).
  - exact new_base_ok.
  - repeat constructor.
  - eapply rtc_l; [by apply (Dispatch.Load _ _ _ 0)|]. eapply rtc_l; [by apply (Dispatch.Load _ _ _ 1)|].
    eapply rtc_l; [by apply (Dispatch.Exchange _ _ _ 1)|]. eapply rtc_l; [by eapply (Dispatch.Retry _ _ _ 0)|].
    eapply rtc_l; [by apply (Dispatch.Exchange _ _ _ 0)|]. apply rtc_refl.
  - repeat constructor.
Defined.

(** ** The protected operations *)
Lemma backoff_ms_bounds n : 0 <= backoff_ms n <= 60000.
Proof.
  unfold backoff_ms. destruct (n =? 0); [lia|].
  pose proof (exponential_backoff_bounds (Z.to_N (n - 1)) backoff_base backoff_cap). unfold backoff_base, backoff_cap in *. lia.
Qed.

(** The schedule the documentation gives: at once, then 1s, 2s, 4s up to 32s, then 60s for ever. *)
Lemma backoff_ms_schedule :
  backoff_ms <$> [0; 1; 2; 3; 4; 5; 6] = [0; 1000; 2000; 4000; 8000; 16000; 32000] /\
  forall n, 7 <= n -> backoff_ms n = 60000.
Proof.
  split; [reflexivity|]. intros n Hn. pose proof (backoff_ms_bounds n). unfold backoff_ms in *.
  rewrite (proj2 (Z.eqb_neq _ _)) in * by lia.
  pose proof (exponential_backoff_mono 6 (Z.to_N (n - 1)) backoff_base backoff_cap ltac:(done) ltac:(lia)) as H'.
  change (exponential_backoff 6 backoff_base backoff_cap) with 60000 in H'. lia.
Qed.

(** A clock reading that leaves room for the longest delay. *)
Definition clock_ok (now_ms : Z) : Prop := 0 <= now_ms < 2 ^ 47.

Section base_facts.
Context (b : SinkBase) (Hb : base_ok b).

Lemma dispatch_hint_ok : hint_ok (dispatch_hint b).
Proof. by apply word_ok_hint. Qed.

Lemma set_status_spec st reason :
  status_named st -> base_ok (set_status st reason b) /\
  dispatch_hint (set_status st reason b) = hint_put (dispatch_hint b) (Dispatch.PutStatus st).
Proof. intros H. by apply (apply_request_ok (dispatch_word b) (Dispatch.PutStatus st)). Qed.

Lemma publish_threshold_spec th :
  level_named th -> base_ok (publish_threshold th b) /\
  dispatch_hint (publish_threshold th b) = hint_put (dispatch_hint b) (Dispatch.PutThreshold th).
Proof. intros H. by apply (apply_request_ok (dispatch_word b) (Dispatch.PutThreshold th)). Qed.

Lemma note_failure_spec now_ms :
  clock_ok now_ms -> base_ok (note_failure now_ms b) /\
  dispatch_hint (note_failure now_ms b) =
    hint_put (dispatch_hint b) (Dispatch.PutRetry (now_ms + backoff_ms (consecutive_failures b))).
Proof.
  intros H. pose proof (backoff_ms_bounds (consecutive_failures b)). unfold clock_ok in H.
  assert (E : u64 (now_ms + backoff_ms (consecutive_failures b)) = now_ms + backoff_ms (consecutive_failures b))
    by (apply Z.mod_small; lia).
  unfold note_failure. rewrite E.
  apply (apply_request_ok (dispatch_word b) (Dispatch.PutRetry (now_ms + backoff_ms (consecutive_failures b)))); [done|simpl; lia].
Qed.

Lemma note_success_spec :
  base_ok (note_success b) /\ dispatch_hint (note_success b) = hint_put (dispatch_hint b) (Dispatch.PutRetry 0).
Proof. by apply (apply_request_ok (dispatch_word b) (Dispatch.PutRetry 0)). Qed.

Lemma add_undelivered_spec n : base_ok (add_undelivered n b) /\ dispatch_hint (add_undelivered n b) = dispatch_hint b.
Proof. done. Qed.
End base_facts.

(** ** Filters *)
Lemma int8_small z : 0 <= z <= 127 -> int8 z = z.
Proof. intros H. unfold int8. rewrite Z.mod_small; lia. Qed.

(** For the named levels the signed comparison of [should_log] is the order of the levels. *)
Lemma level_accepts_named th lvl :
  level_named th -> level_named lvl -> level_accepts th lvl = (level_code th <=? level_code lvl).
Proof.
  intros H1%level_code_bounds H2%level_code_bounds. unfold level_accepts. by rewrite !int8_small by lia.
Qed.

(** An allow list and a deny list over the same set split the non-empty prefixes. *)
Lemma allow_deny_complement s p : p <> [] -> accepts (deny s) p = negb (accepts (allow s) p).
Proof. intros H. unfold accepts. by rewrite bool_decide_eq_false_2. Qed.

(** ** Order of entries

    [DetailedEntry::comp] is a strict weak ordering, as the sliding-window sorter requires of
    its comparator. *)
#[export] Instance detailed_comp_strict : StrictWeak detailed_comp.
Proof.
  split; unfold detailed_comp; intros *;
    repeat match goal with |- context [?a =? ?b] => destruct (Z.eqb_spec a b) end; simpl;
    rewrite ?Z.ltb_lt, ?Z.ltb_ge; lia.
Qed.

(** ** [ConsoleSink] *)
Section console_facts.
Import ConsoleSink.

Record console_ok (s : ConsoleSink) : Prop := {
  co_base : base_ok (base s);
  co_alive : get_status (base s) <> Dead;
  co_threshold : threshold (dispatch_hint (base s)) = threshold_ (config_ s);
  co_named : level_named (threshold_ (config_ s))
}.

Lemma new_sink_ok cfg : level_named (threshold_ cfg) -> console_ok (new_sink cfg).
Proof.
  intros H. destruct (publish_threshold_spec _ new_base_ok _ H) as [H1 H2].
  split; cbn [base config_ new_sink set_config set_base]; [done| |by rewrite H2|done]. unfold get_status. by rewrite H2.
Qed.

Lemma set_config_ok cfg s : level_named (threshold_ cfg) -> console_ok s -> console_ok (set_config cfg s).
Proof.
  intros H [Hb Ha _ _]. destruct (publish_threshold_spec _ Hb _ H) as [H1 H2].
  split; cbn [base config_ new_sink set_config set_base]; [done| |by rewrite H2|done]. unfold get_status in *. by rewrite H2.
Qed.

Lemma with_stream_ok out g s : console_ok s -> console_ok (with_stream out g s).
Proof. by intros []. Qed.

Lemma mark_degraded_ok now_ms reason s :
  clock_ok now_ms -> console_ok s ->
  console_ok (mark_degraded now_ms reason s) /\ get_status (base (mark_degraded now_ms reason s)) = Degraded.
Proof.
  intros Hn [Hb Ha Ht Hl]. unfold mark_degraded. case_bool_decide.
  - destruct (note_failure_spec _ Hb now_ms Hn) as [Hb1 E1].
    destruct (set_status_spec _ Hb1 Degraded reason I) as [Hb2 E2]. rewrite E1 in E2.
    split; [split; cbn [base config_ new_sink set_config set_base]; try done|]; unfold get_status; cbn [base config_ new_sink set_config set_base]; by rewrite E2.
  - destruct (set_status_spec _ Hb Degraded reason I) as [Hb2 E2].
    split; [split; cbn [base config_ new_sink set_config set_base]; try done|]; unfold get_status; cbn [base config_ new_sink set_config set_base]; by rewrite E2.
Qed.

Lemma insert_ok text io s : console_ok s -> console_ok (insert text io s).1.
Proof. intros H. destruct io; simpl; [destruct (good s)|..]; by try apply with_stream_ok. Qed.

Lemma stream_flush_ok io s : console_ok s -> console_ok (stream_flush io s).1.
Proof. intros H. destruct io; simpl; by try apply with_stream_ok. Qed.

Lemma process_ok format now_ms io iof e s : clock_ok now_ms -> console_ok s -> console_ok (process format now_ms io iof e s).
Proof.
  intros Hn H. unfold process. case_match; [done|]. destruct (format e) as [text|w]; [|by apply mark_degraded_ok].
  pose proof (insert_ok (if enable_colors_ (config_ s) then colorize_by_level text (level e) else text) io s H) as H1.
  destruct (insert _ io s) as [s1 [w|]]; simpl in H1; [by apply mark_degraded_ok|].
  assert (H2 : console_ok (if flush_each_entry_ (config_ s) then stream_flush iof s1 else (s1, None)).1).
  { destruct (flush_each_entry_ (config_ s)); [by apply stream_flush_ok|done]. }
  destruct (if flush_each_entry_ (config_ s) then _ else _) as [s2 [w|]]; simpl in H2; [by apply mark_degraded_ok|].
  destruct (good s2); [done|by apply mark_degraded_ok].
Qed.

Lemma flush_ok now_ms io s : clock_ok now_ms -> console_ok s -> console_ok (flush now_ms io s).
Proof. intros Hn H. unfold flush. destruct io; simpl; [done|by apply with_stream_ok|by apply mark_degraded_ok, with_stream_ok]. Qed.

Lemma maintain_ok s : console_ok s -> console_ok (maintain s).
Proof.
  intros [Hb Ha Ht Hl]. unfold maintain. destruct (good s); [|done]. destruct (note_success_spec _ Hb) as [Hb1 E1].
  destruct (set_status_spec _ Hb1 Healthy [] I) as [Hb2 E2]. rewrite E1 in E2.
  split; cbn [base config_ new_sink set_config set_base]; try done; unfold get_status; by rewrite E2.
Qed.

(** The text one event adds when its stream works: nothing unless the sink accepts it. *)
Definition rendered (format : LogEvent -> result (option bytes) bytes) (s : ConsoleSink) (e : LogEvent) : bytes :=
  if should_log s (level e) (inline_view (prefix e)) then
    match format e with
    | Ok text => if enable_colors_ (config_ s) then colorize_by_level text (level e) else text
    | Err _ => []
    end
  else [].

Lemma process_writes format now_ms e s :
  good s = true -> (exists text, format e = Ok text) ->
  process format now_ms IoOk IoOk e s = with_stream (output s ++ rendered format s e) true s.
Proof.
  intros Hg [text Ht]. destruct s as [b c o g]. simpl in Hg. subst g. unfold process, rendered, should_log. cbn [config_].
  case_match eqn:E; simpl in E.
  - apply negb_true_iff in E. rewrite E. unfold with_stream. simpl. by rewrite app_nil_r.
  - apply negb_false_iff in E. rewrite E, Ht. unfold with_stream. simpl. by destruct (flush_each_entry_ c).
Qed.

(** On a working stream a batch appends, in order, exactly the accepted events. *)
Lemma process_batch_writes format now_ms batch s :
  good s = true -> Forall (fun e => exists text, format e = Ok text) batch ->
  process_batch format now_ms (replicate (length batch) (IoOk, IoOk)) batch s =
  with_stream (output s ++ concat (rendered format s <$> batch)) true s.
Proof.
  intros Hg Hf. revert s Hg. induction Hf as [|e batch He _ IH]; intros s Hg.
  - destruct s. simpl in *. subst. unfold with_stream. simpl. by rewrite app_nil_r.
  - unfold process_batch in *. cbn [length replicate zip zip_with fold_left].
    change (zip_with pair batch ?x) with (zip batch x). rewrite process_writes by done. rewrite IH by done.
    unfold with_stream. cbn [output base config_]. rewrite <- app_assoc. done.
Qed.

End console_facts.

(** Any sequence of operations on a console sink, whatever its stream does. *)
Inductive console_op :=
| CProcess (now_ms : Z) (io io_flush : io_outcome) (e : LogEvent)
| CFlush (now_ms : Z) (io : io_outcome)
| CMaintain
| CStream (good : bool)
| CConfig (cfg : ConsoleSink.ConsoleSinkConfig).

Definition run_console format (o : console_op) (s : ConsoleSink.ConsoleSink) : ConsoleSink.ConsoleSink :=
  match o with
  | CProcess now io iof e => ConsoleSink.process format now io iof e s
  | CFlush now io => ConsoleSink.flush now io s
  | CMaintain => ConsoleSink.maintain s
  | CStream g => ConsoleSink.with_stream (ConsoleSink.output s) g s
  | CConfig cfg => ConsoleSink.set_config cfg s
  end.

Definition console_op_ok (o : console_op) : Prop :=
  match o with
  | CProcess now _ _ _ | CFlush now _ => clock_ok now
  | CConfig cfg => level_named (ConsoleSink.threshold_ cfg)
  | _ => True
  end.

(** A console sink never dies, its published threshold is always the configured one, and one
    maintenance pass after its stream works again makes it healthy. *)
Theorem console_never_dead format cfg ops :
  level_named (ConsoleSink.threshold_ cfg) -> Forall console_op_ok ops ->
  let s := fold_left (fun s o => run_console format o s) ops (ConsoleSink.new_sink cfg) in
  console_ok s /\ get_status (ConsoleSink.base (ConsoleSink.maintain (ConsoleSink.with_stream (ConsoleSink.output s) true s))) = Healthy.
Proof.
  intros Hc Hops s. assert (H : console_ok s).
  { subst s. pose proof (new_sink_ok cfg Hc) as H. revert H. generalize (ConsoleSink.new_sink cfg).
    induction Hops as [|o ops Ho _ IH]; intros s H; [done|]. apply IH.
    destruct o; simpl in *; [by apply process_ok|by apply flush_ok|by apply maintain_ok|by apply with_stream_ok|by apply set_config_ok]. }
  split; [done|]. destruct H as [Hb _ _ _]. unfold ConsoleSink.maintain. cbn [ConsoleSink.good ConsoleSink.with_stream].
  destruct (note_success_spec _ Hb) as [Hb1 E1]. destruct (set_status_spec _ Hb1 Healthy [] I) as [Hb2 E2].
  unfold get_status. cbn [ConsoleSink.base ConsoleSink.set_base ConsoleSink.with_stream]. by rewrite E2.
Qed.
