(* ===== verification/FileSink.v ===== *)
(** * logger-crow: the file sink

    [FileSink] with its configuration and the naming of rotated files (sink/file). Paths
    are byte strings with the decomposition of [std::filesystem::path] on POSIX; the file
    system is a map from directories to their entries, together with the faults the sink can meet.
    The clocks' readings are arguments. Text given to the stream waits in its buffer until
    the stream library writes it out (when is a parameter), or a flush or close does. *)

From S2P Require Import Prelude Chameleon SqlText LogSink.

#[local] Open Scope Z_scope.

(** ** [std::filesystem::path] *)
Module Path.

Definition filename (p : bytes) : bytes := default p (after_last "/"%char p).

Fixpoint strip_slashes (rev_p : bytes) : bytes :=
  match rev_p with
  | [] => []
  | c :: r => if bool_decide (c = "/"%char) then strip_slashes r else rev_p
  end.

(** Everything before the filename, without the separators that end it; the root is its own parent. *)
Definition parent_path (p : bytes) : bytes :=
  match after_last "/"%char p with
  | None => []
  | Some name =>
      let dir := reverse (strip_slashes (drop (length name) (reverse p))) in
      if bool_decide (dir = []) then B "/" else dir
  end.

(** The last dot of a filename splits it, unless the name starts with it. *)
Definition split_name (name : bytes) : bytes * bytes :=
  if bool_decide (name = B "." \/ name = B "..") then (name, [])
  else match after_last "."%char name with
       | Some ext => let stem := take (length name - length ext - 1) name in
                     if bool_decide (stem = []) then (name, []) else (stem, "."%char :: ext)
       | None => (name, [])
       end.

Definition stem (p : bytes) : bytes := (split_name (filename p)).1.
Definition extension (p : bytes) : bytes := (split_name (filename p)).2.

(** [p / q] *)
Definition append (p q : bytes) : bytes :=
  if bool_decide (head q = Some "/"%char) then q
  else if bool_decide (p = []) then q
  else if bool_decide (last p = Some "/"%char) then p ++ q else p ++ "/"%char :: q.

End Path.

(** ** [FileSinkConfig] *)
Record FileSinkConfig := {
  threshold_ : LogLevel;
  file_ : bytes;
  add_time_to_filename_ : bool;
  time_format_in_file_name_ : bytes;
  rotate_file_ : bool;
  max_file_size_ : Z;
  flush_each_entry_ : bool;
  prefix_filter_ : PrefixFilter
}.

Definition default_file_config : FileSinkConfig :=
  {| threshold_ := Debug; file_ := []; add_time_to_filename_ := true; time_format_in_file_name_ := B "%Y-%m-%dT%H:%M:%S";
     rotate_file_ := true; max_file_size_ := 100 * 1024 * 1024; flush_each_entry_ := false; prefix_filter_ := allow_all |}.

Definition validate (c : FileSinkConfig) : result exn unit :=
  if rotate_file_ c && (max_file_size_ c =? 0) then Err (InvalidArgument (B "max_file_size must be greater than 0"))
  else if bool_decide (file_ c = []) then Err (InvalidArgument (B "file path must be specified"))
  else if add_time_to_filename_ c && bool_decide (time_format_in_file_name_ c = []) then
    Err (InvalidArgument (B "time format must be specified"))
  else Ok tt.

(** The builder's setters, then [finalize]. *)
Definition with_file (c : FileSinkConfig) (p : bytes) : FileSinkConfig :=
  {| threshold_ := threshold_ c; file_ := p; add_time_to_filename_ := add_time_to_filename_ c;
     time_format_in_file_name_ := time_format_in_file_name_ c; rotate_file_ := rotate_file_ c;
     max_file_size_ := max_file_size_ c; flush_each_entry_ := flush_each_entry_ c; prefix_filter_ := prefix_filter_ c |}.
Definition with_rotation (c : FileSinkConfig) (time rotate : bool) (size : Z) : FileSinkConfig :=
  {| threshold_ := threshold_ c; file_ := file_ c; add_time_to_filename_ := time;
     time_format_in_file_name_ := time_format_in_file_name_ c; rotate_file_ := rotate;
     max_file_size_ := size; flush_each_entry_ := flush_each_entry_ c; prefix_filter_ := prefix_filter_ c |}.

Definition finalize (c : FileSinkConfig) : result exn FileSinkConfig := validate c ≫= fun _ => Ok c.

(** ** Naming (detail/file_naming.hpp) *)

(** [std::from_chars] into a [std::uint32_t], which must consume every digit. *)
Definition index_of (stem_base candidate : bytes) : option Z :=
  let stem := Path.stem candidate in
  if bool_decide (stem = stem_base) then Some 0
  else if negb (starts_with (stem_base ++ B "_") stem) then None
  else let digits := drop (length stem_base + 1) stem in
       if bool_decide (digits = []) then None
       else match from_chars false 0 (2 ^ 32 - 1) digits with
            | Some (value, n) => if (n =? length digits)%nat then Some value else None
            | None => None
            end.

Definition indexed_path (configured : bytes) (index : Z) : bytes :=
  if index =? 0 then configured
  else Path.append (Path.parent_path configured)
         (Path.stem configured ++ B "_" ++ to_decimal (Z.to_N index) ++ Path.extension configured).

(** [current_time fmt] is [cuckoo::LocalClock::current_time(fmt)]. *)
Definition timestamped_path (current_time : bytes -> bytes) (c : FileSinkConfig) : bytes :=
  Path.append (Path.parent_path (file_ c))
    (Path.stem (file_ c) ++ B "_" ++ current_time (time_format_in_file_name_ c) ++ Path.extension (file_ c)).

(** ** The file system

    A path names an entry of a directory; a relative name without a parent is an entry of ["."]. *)
Inductive node := Regular (content : bytes) | Directory | Unreadable.

Record FS := {
  tree : gmap bytes (gmap bytes node);
  scan_fault : gmap bytes (nat * bytes);
  mkdir_fault : gmap bytes bytes;
  denied : gset (bytes * bytes);
  full : gset (bytes * bytes)
}.

Definition dir_of (p : bytes) : bytes := if bool_decide (Path.parent_path p = []) then B "." else Path.parent_path p.
Definition key (p : bytes) : bytes * bytes := (dir_of p, Path.filename p).

Definition entry (fs : FS) (k : bytes * bytes) : option node := tree fs !! k.1 ≫= (.!! k.2).

Definition set_tree (t : gmap bytes (gmap bytes node)) (fs : FS) : FS :=
  {| tree := t; scan_fault := scan_fault fs; mkdir_fault := mkdir_fault fs; denied := denied fs; full := full fs |}.

Definition put (fs : FS) (k : bytes * bytes) (n : node) : FS :=
  set_tree (alter (<[k.2 := n]>) k.1 (tree fs)) fs.

(** [std::filesystem::file_size] *)
Definition file_size (fs : FS) (p : bytes) : option Z :=
  match entry fs (key p) with Some (Regular c) => Some (u64 (Z.of_nat (length c))) | _ => None end.

(** [create_directories]: the error message, or the directory made. *)
Definition create_directories (fs : FS) (dir : bytes) : result bytes FS :=
  match mkdir_fault fs !! dir with
  | Some msg => Err msg
  | None => Ok (if bool_decide (is_Some (tree fs !! dir)) then fs else set_tree (<[dir := ∅]> (tree fs)) fs)
  end.

(** [std::ofstream::open] for appending. *)
Definition open_append (fs : FS) (p : bytes) : option FS :=
  if bool_decide (key p ∈ denied fs) then None
  else match tree fs !! dir_of p with
       | None => None
       | Some entries =>
           match entries !! Path.filename p with
           | Some (Regular _) => Some fs
           | Some _ => None
           | None => Some (put fs (key p) (Regular []))
           end
       end.

(** ** [initial_path] and [next_path] *)

(** One entry of the directory scan. *)
Definition scan_entry (c : FileSinkConfig) (highest : Z) (e : bytes * node) : Z :=
  let '(name, n) := e in
  if bool_decide (Path.extension name = Path.extension (file_ c)) &&
     (match n with Regular _ => true | _ => false end)
  then match index_of (Path.stem (file_ c)) name with
       | Some index => if highest <? index then index else highest
       | None => highest
       end
  else highest.

(** The directory scan: the highest index, and the error of a scan that stops early. *)
Definition scan (fs : FS) (c : FileSinkConfig) : Z * option bytes :=
  let scan_dir := dir_of (file_ c) in
  match tree fs !! scan_dir with
  | None => (0, None)
  | Some entries =>
      let listed := map_to_list entries in
      match scan_fault fs !! scan_dir with
      | Some (n, msg) => (fold_left (scan_entry c) (take n listed) 0, Some msg)
      | None => (fold_left (scan_entry c) listed 0, None)
      end
  end.

Definition initial_path (fs : FS) (current_time : bytes -> bytes) (c : FileSinkConfig) : bytes * option bytes :=
  if add_time_to_filename_ c then (timestamped_path current_time c, None)
  else if negb (rotate_file_ c) then (file_ c, None)
  else
    let '(highest, ec) := scan fs c in
    let candidate := indexed_path (file_ c) highest in
    match file_size fs candidate with
    | Some size => if max_file_size_ c <=? size then (indexed_path (file_ c) (u32 (highest + 1)), ec) else (candidate, ec)
    | None => (candidate, ec)
    end.

(** [ec] is cleared and never set. *)
Definition next_path (current_time : bytes -> bytes) (c : FileSinkConfig) (current : bytes) : bytes :=
  if negb (rotate_file_ c) then current
  else if add_time_to_filename_ c then timestamped_path current_time c
  else let index := default 0 (index_of (Path.stem (file_ c)) current) in
       indexed_path (file_ c) (u32 (index + 1)).

(** ** [FileSink]

    [pending_] is what the stream has been given and its buffer has not yet written to the file. *)
Record FileSink := {
  base : SinkBase;
  config_ : FileSinkConfig;
  stream_open : bool;
  stream_good : bool;
  pending_ : bytes;
  file_path_ : bytes;
  bytes_written_ : Z
}.

(** What an operation reads from outside: the steady clock and the local wall clock. *)
Record Clocks := { now_ms : Z; current_time : bytes -> bytes }.

Definition set_base (b : SinkBase) (s : FileSink) : FileSink :=
  {| base := b; config_ := config_ s; stream_open := stream_open s; stream_good := stream_good s; pending_ := pending_ s;
     file_path_ := file_path_ s; bytes_written_ := bytes_written_ s |}.

Definition set_stream (open good : bool) (waiting : bytes) (s : FileSink) : FileSink :=
  {| base := base s; config_ := config_ s; stream_open := open; stream_good := good; pending_ := waiting;
     file_path_ := file_path_ s; bytes_written_ := bytes_written_ s |}.

(** *** The stream *)

(** Bytes on their way to the device; one that is full refuses them. *)
Definition write_out (p text : bytes) (fs : FS) : FS * bool :=
  if bool_decide (text = []) then (fs, true)
  else if bool_decide (key p ∈ full fs) then (fs, false)
  else match entry fs (key p) with
       | Some (Regular c) => (put fs (key p) (Regular (c ++ text)), true)
       | _ => (fs, true)
       end.

(** [std::ofstream::flush]: a stream whose device refuses the bytes goes bad without
    throwing, and they are gone. *)
Definition stream_flush (fs : FS) (s : FileSink) : FS * FileSink :=
  if negb (stream_good s) || negb (stream_open s) then (fs, s)
  else let '(fs', ok) := write_out (file_path_ s) (pending_ s) fs in (fs', set_stream true ok [] s).

(** [if (file_stream_.is_open()) { flush(); close(); }] *)
Definition close_stream (fs : FS) (s : FileSink) : FS * FileSink :=
  if stream_open s then let '(fs', s') := stream_flush fs s in (fs', set_stream false (stream_good s') [] s') else (fs, s).

(** The destructor, and [flush]. *)
Definition destroy (fs : FS) (s : FileSink) : FS := (close_stream fs s).1.

Definition flush (fs : FS) (s : FileSink) : FS * FileSink := if stream_open s then stream_flush fs s else (fs, s).

Definition fail (ck : Clocks) (st : SinkStatus) (reason : bytes) (s : FileSink) : FileSink :=
  set_base (set_status st reason (note_failure (now_ms ck) (base s))) s.

(** The part of [open_stream] that adopts the new stream. *)
Definition adopt (fs : FS) (p : bytes) (s : FileSink) : FileSink :=
  {| base := set_status Healthy [] (note_success (base s)); config_ := config_ s; stream_open := true; stream_good := true;
     pending_ := []; file_path_ := p; bytes_written_ := default 0 (file_size fs p) |}.

Definition open_stream (ck : Clocks) (p : bytes) (on_failure : SinkStatus) (fs : FS) (s : FileSink) : FS * FileSink :=
  let parent := Path.parent_path p in
  match (if bool_decide (parent = []) then Ok fs else create_directories fs parent) with
  | Err msg => (fs, fail ck on_failure (B "create " ++ parent ++ B ": " ++ msg) s)
  | Ok fs1 =>
      match open_append fs1 p with
      | None => (fs1, fail ck on_failure (B "open " ++ p ++ B " failed") s)
      | Some fs2 => let '(fs3, s1) := close_stream fs2 s in (fs3, adopt fs3 p s1)
      end
  end.

Definition open_from_config (ck : Clocks) (fs : FS) (s : FileSink) : FS * FileSink :=
  match initial_path fs (current_time ck) (config_ s) with
  | (_, Some ec) => (fs, fail ck Dead (B "resolve log path: " ++ ec) s)
  | (p, None) => open_stream ck p Dead fs s
  end.

(** The constructor. *)
Definition new_sink (ck : Clocks) (cfg : FileSinkConfig) (fs : FS) : FS * FileSink :=
  open_from_config ck fs
    {| base := publish_threshold (threshold_ cfg) new_base; config_ := cfg; stream_open := false; stream_good := true;
       pending_ := []; file_path_ := []; bytes_written_ := 0 |}.

Definition rotate_now (ck : Clocks) (fs : FS) (s : FileSink) : FS * FileSink :=
  if negb (rotate_file_ (config_ s)) || (bytes_written_ s <? max_file_size_ (config_ s)) then (fs, s)
  else let next := next_path (current_time ck) (config_ s) (file_path_ s) in
       if bool_decide (next = file_path_ s) then (fs, s) else open_stream ck next Degraded fs s.

Definition rotate_if_needed (ck : Clocks) (fs : FS) (s : FileSink) : FS * FileSink :=
  if bool_decide (get_status (base s) = Degraded) && negb (retry_due (dispatch_hint (base s)) (now_ms ck)) then (fs, s)
  else rotate_now ck fs s.

Definition force_maintain (ck : Clocks) (fs : FS) (s : FileSink) : FS * FileSink :=
  if bool_decide (get_status (base s) = Dead) then open_from_config ck fs s else rotate_now ck fs s.

Definition maintain (ck : Clocks) (fs : FS) (s : FileSink) : FS * FileSink :=
  if negb (retry_due (dispatch_hint (base s)) (now_ms ck)) then (fs, s) else force_maintain ck fs s.

Definition should_log (s : FileSink) (lvl : LogLevel) (prefix : bytes) : bool :=
  level_accepts (threshold_ (config_ s)) lvl && accepts (prefix_filter_ (config_ s)) prefix.

Definition set_config (cfg : FileSinkConfig) (s : FileSink) : FileSink :=
  {| base := publish_threshold (threshold_ cfg) (base s); config_ := cfg; stream_open := stream_open s;
     stream_good := stream_good s; pending_ := pending_ s; file_path_ := file_path_ s; bytes_written_ := bytes_written_ s |}.

Definition add_lost (n : nat) (s : FileSink) : FileSink := set_base (add_undelivered (Z.of_nat n) (base s)) s.

Section events.
Context (format : LogEvent -> result (option bytes) bytes).

(** [spill pending text]: how many of the bytes that wait the stream library writes out when
    [text] is inserted after [pending]; its buffer's size and policy are its own. *)
Context (spill : bytes -> bytes -> nat).

(** [file_stream_ << format_buffer_]: a stream that is bad or closed drops what it is given. *)
Definition stream_insert (text : bytes) (fs : FS) (s : FileSink) : FS * FileSink :=
  if negb (stream_good s) || negb (stream_open s) then (fs, set_stream (stream_open s) false (pending_ s) s)
  else let waiting := pending_ s ++ text in
       let n := spill (pending_ s) text in
       let '(fs', ok) := write_out (file_path_ s) (take n waiting) fs in
       (fs', set_stream true ok (if ok then drop n waiting else []) s).

Definition count_written (n : nat) (s : FileSink) : FileSink :=
  {| base := base s; config_ := config_ s; stream_open := stream_open s; stream_good := stream_good s; pending_ := pending_ s;
     file_path_ := file_path_ s; bytes_written_ := u64 (bytes_written_ s + Z.of_nat n) |}.

Definition write_guarded (ck : Clocks) (e : LogEvent) (fs : FS) (s : FileSink) : FS * FileSink * bool :=
  if negb (should_log s (level e) (inline_view (prefix e))) then (fs, s, true)
  else match format e with
       | Err what => (fs, fail ck Dead (default (B "unknown exception while writing") what) s, false)
       | Ok text =>
           let '(fs, s) := stream_insert text fs s in
           let s := count_written (length text) s in
           let '(fs, s) := if flush_each_entry_ (config_ s) then stream_flush fs s else (fs, s) in
           (fs, s, true)
       end.

Definition process (ck : Clocks) (e : LogEvent) (fs : FS) (s : FileSink) : FS * FileSink :=
  if bool_decide (get_status (base s) = Dead) then (fs, add_lost 1 s)
  else let '(fs, s, written) := write_guarded ck e fs s in
       if negb written then (fs, add_lost 1 s) else rotate_if_needed ck fs s.

(** The loop of [process_batch]; a failed write gives up on the rest of the batch. *)
Fixpoint write_all (ck : Clocks) (batch : list LogEvent) (fs : FS) (s : FileSink) : FS * FileSink * bool :=
  match batch with
  | [] => (fs, s, true)
  | e :: rest =>
      let '(fs, s, written) := write_guarded ck e fs s in
      if negb written then (fs, add_lost (length batch) s, false) else write_all ck rest fs s
  end.

Definition process_batch (ck : Clocks) (batch : list LogEvent) (fs : FS) (s : FileSink) : FS * FileSink :=
  if bool_decide (get_status (base s) = Dead) then (fs, add_lost (length batch) s)
  else let '(fs, s, written) := write_all ck batch fs s in
       if negb written then (fs, s) else rotate_if_needed ck fs s.

End events.

(** ** Names *)
Section names.

Lemma after_last_app c s t : c ∉ t -> after_last c (s ++ c :: t) = Some t.
Proof.
  intros Ht. assert (HN : after_last c t = None).
  { induction t as [|x t IH]; [done|]. simpl. rewrite IH, bool_decide_eq_false_2 by set_solver. done. }
  induction s as [|x s IH]; simpl; [by rewrite HN, bool_decide_eq_true_2|by rewrite IH].
Qed.

Lemma after_last_spec c s : match after_last c s with Some t => exists r, s = r ++ c :: t /\ c ∉ t | None => c ∉ s end.
Proof.
  induction s as [|x s IH]; simpl; [set_solver|]. destruct (after_last c s) as [t|].
  - destruct IH as (r & -> & H). by exists (x :: r).
  - case_bool_decide; [subst; by exists []|set_solver].
Qed.

Lemma filename_no_slash p : "/"%char ∉ Path.filename p.
Proof.
  unfold Path.filename. pose proof (after_last_spec "/"%char p) as H. destruct (after_last _ p); [by destruct H as (? & _ & ?)|done].
Qed.

Lemma filename_append dir name : "/"%char ∉ name -> Path.filename (Path.append dir name) = name.
Proof.
  intros H. unfold Path.append. rewrite (bool_decide_eq_false_2 (head name = _)) by (destruct name; set_solver).
  unfold Path.filename. pose proof (after_last_spec "/"%char name) as HN.
  destruct (after_last "/"%char name) eqn:EN; [destruct HN as (r & -> & _); set_solver|].
  case_bool_decide; [by rewrite EN|]. case_bool_decide as E; [|by rewrite after_last_app].
  apply last_Some in E as [d ->]. rewrite <- app_assoc. cbn [app]. by rewrite after_last_app.
Qed.

(** The two shapes a name can split into. *)
Lemma split_name_spec f s x :
  Path.split_name f = (s, x) ->
  f = s ++ x /\ ((x = [] /\ (f = B ".." \/ "."%char ∉ drop 1 f)) \/ (exists e, x = "."%char :: e /\ "."%char ∉ e /\ s <> [])).
Proof.
  unfold Path.split_name. pose proof (after_last_spec "."%char f) as H. case_bool_decide as E.
  { intros [= <- <-]. rewrite app_nil_r. split; [done|]. left. split; [done|]. destruct E as [-> | ->]; [right; set_solver|by left]. }
  destruct (after_last "."%char f) as [e|].
  - destruct H as (r & -> & He). rewrite length_app. cbn [length].
    replace (length r + S (length e) - length e - 1)%nat with (length r) by lia. rewrite take_app_length.
    case_bool_decide as Er; intros [= <- <-]; (split; [by rewrite ?app_nil_r|]).
    + subst r. left. split; [done|]. right. by rewrite drop_0 || done.
    + right. by exists e.
  - intros [= <- <-]. rewrite app_nil_r. split; [done|]. left. split; [done|]. right.
    intros Hd. apply H. destruct f; [done|]. by right.
Qed.

Lemma split_name_plain f : f <> B ".." -> "."%char ∉ drop 1 f -> Path.split_name f = (f, []).
Proof.
  intros Hf Hd. unfold Path.split_name. case_bool_decide as Hdot; [done|]. pose proof (after_last_spec "."%char f) as H.
  destruct (after_last "."%char f) as [e|]; [|done]. destruct H as (r & -> & He). destruct r as [|x r].
  - cbn [app length]. replace (S (length e) - length e - 1)%nat with 0%nat by lia. done.
  - exfalso. apply Hd. simpl. set_solver.
Qed.

Lemma split_name_ext s e : s <> [] -> "."%char ∉ e -> s ++ "."%char :: e <> B ".." -> Path.split_name (s ++ "."%char :: e) = (s, "."%char :: e).
Proof.
  intros Hs He Hd. unfold Path.split_name. rewrite bool_decide_eq_false_2.
  - rewrite after_last_app by done. rewrite length_app. cbn [length].
    replace (length s + S (length e) - length e - 1)%nat with (length s) by lia.
    by rewrite take_app_length, bool_decide_eq_false_2.
  - intros [E|E]; [|done]. destruct s as [|? [|? ?]]; [done|by destruct e|by destruct e].
Qed.

Lemma digits_no c n : is_digit c = false -> c ∉ to_decimal n.
Proof. intros Hc H. pose proof (proj1 (Forall_forall _ _) (to_decimal_is_digits n) c H). congruence. Qed.

(** The name carrying index [n] is the configured name with [_n] before its extension. *)
Lemma indexed_name f n :
  Path.filename f <> B ".." ->
  let name := Path.stem f ++ B "_" ++ to_decimal n ++ Path.extension f in
  "/"%char ∉ name /\ Path.split_name name = (Path.stem f ++ B "_" ++ to_decimal n, Path.extension f).
Proof.
  intros Hf. unfold Path.stem, Path.extension. destruct (Path.split_name (Path.filename f)) as [s x] eqn:E.
  apply split_name_spec in E as [E HS]. pose proof (filename_no_slash f) as Hn. rewrite E, not_elem_of_app in Hn.
  cbn [fst snd]. split.
  - rewrite !not_elem_of_app. split_and!; [apply Hn|by apply (bool_decide_eq_true_1 _)|by apply digits_no|apply Hn].
  - destruct HS as [[-> [HS|HS]]|(e & -> & He & Hs)].
    + congruence.
    + rewrite !app_nil_r in *. subst s. apply split_name_plain.
      * intros Ed. assert ("_"%char ∈ B "..") as Hin; [rewrite <- Ed; set_solver|]. revert Hin. by apply (bool_decide_eq_true_1 _).
      * destruct (Path.filename f) as [|c r]; cbn [app drop] in *; rewrite ?drop_0 in *.
        -- by apply digits_no.
        -- rewrite !not_elem_of_app. split_and!; [done|by apply (bool_decide_eq_true_1 _)|by apply digits_no].
    + rewrite !(app_assoc _ _ ("."%char :: e)). apply split_name_ext; [by destruct s|done|].
      intros Ed. assert ("_"%char ∈ B "..") as Hin; [rewrite <- Ed; set_solver|]. revert Hin. by apply (bool_decide_eq_true_1 _).
Qed.

(** Reading the index of a name back. *)
Lemma index_of_stem base candidate n :
  0 <= n < 2 ^ 32 -> Path.stem candidate = base ++ B "_" ++ to_decimal (Z.to_N n) -> index_of base candidate = Some n.
Proof.
  intros Hn E. unfold index_of. rewrite E. rewrite bool_decide_eq_false_2.
  - rewrite app_assoc, starts_with_app_true. cbn [negb].
    replace (drop (length base + 1) ((base ++ B "_") ++ to_decimal (Z.to_N n))) with (to_decimal (Z.to_N n))
      by (rewrite drop_app_length' by (rewrite length_app; done); done).
    rewrite bool_decide_eq_false_2 by apply to_decimal_not_nil.
    pose proof (from_chars_decimal false 0 (2 ^ 32 - 1) n ltac:(lia)) as H. unfold to_decimal_Z in H.
    rewrite (proj2 (Z.ltb_ge _ _)) in H by lia. replace (Z.abs_N n) with (Z.to_N n) in H by lia.
    rewrite H, decide_True, Nat.eqb_refl by lia. done.
  - intros E'. apply (f_equal length) in E'. rewrite !length_app in E'. simpl in E'. lia.
Qed.

Lemma index_of_indexed f n :
  Path.filename f <> B ".." -> 0 <= n < 2 ^ 32 -> index_of (Path.stem f) (indexed_path f n) = Some n.
Proof.
  intros Hf Hn. unfold indexed_path. destruct (Z.eqb_spec n 0) as [->|Hn0].
  - unfold index_of. by rewrite bool_decide_eq_true_2.
  - destruct (indexed_name f (Z.to_N n) Hf) as [H1 H2]. apply index_of_stem; [done|].
    unfold Path.stem at 1. by rewrite filename_append, H2.
Qed.

Lemma extension_indexed f n : Path.filename f <> B ".." -> Path.extension (indexed_path f n) = Path.extension f.
Proof.
  intros Hf. unfold indexed_path. destruct (n =? 0); [done|]. destruct (indexed_name f (Z.to_N n) Hf) as [H1 H2].
  unfold Path.extension at 1. by rewrite filename_append, H2.
Qed.

Lemma indexed_path_inj f n m :
  Path.filename f <> B ".." -> 0 <= n < 2 ^ 32 -> 0 <= m < 2 ^ 32 -> indexed_path f n = indexed_path f m -> n = m.
Proof.
  intros Hf Hn Hm E. pose proof (index_of_indexed f n Hf Hn) as H1. pose proof (index_of_indexed f m Hf Hm) as H2.
  rewrite E in H1. congruence.
Qed.

(** Rotation in indexed mode moves to the next index: app.log, app_1.log, app_2.log, ... *)
Lemma next_path_indexed ct c n :
  Path.filename (file_ c) <> B ".." -> rotate_file_ c = true -> add_time_to_filename_ c = false -> 0 <= n -> n + 1 < 2 ^ 32 ->
  next_path ct c (indexed_path (file_ c) n) = indexed_path (file_ c) (n + 1).
Proof.
  intros Hf Hr Ht Hn Hm. unfold next_path. rewrite Hr, Ht, index_of_indexed by (done || lia). cbn.
  unfold u32. by rewrite Z.mod_small by lia.
Qed.

End names.

(** The name of a rotated file says which rotation it is: the index written into the path
    is the one read back at start-up, the extension is kept, and different indices name
    different files. *)
Theorem rotation_names_roundtrip f n m :
  Path.filename f <> B ".." -> 0 <= n < 2 ^ 32 -> 0 <= m < 2 ^ 32 ->
  index_of (Path.stem f) (indexed_path f n) = Some n /\ Path.extension (indexed_path f n) = Path.extension f /\
  (indexed_path f n = indexed_path f m -> n = m).
Proof.
  intros Hf Hn Hm. split_and!; [by apply index_of_indexed|by apply extension_indexed|by apply indexed_path_inj].
Qed.

Lemma rotation_names_roundtrip_witness :
  index_of (B "app") (B "/var/log/app_42.log") = Some 42 /\ Path.extension (B "/var/log/app_42.log") = B ".log" /\
  (B "/var/log/app_42.log" = indexed_path (B "/var/log/app.log") 7 -> 42 = 7).
Proof.
  apply (rotation_names_roundtrip (B "/var/log/app.log") 42 7); [by apply (bool_decide_eq_true_1 _)|lia|lia].
Defined.

(** ** Resuming

    The scan finds the highest index of a regular file of the family, or zero. *)
Definition family (c : FileSinkConfig) (name : bytes) (index : Z) : Prop :=
  Path.extension name = Path.extension (file_ c) /\ index_of (Path.stem (file_ c)) name = Some index.

Lemma index_of_bounds base name i : index_of base name = Some i -> 0 <= i < 2 ^ 32.
Proof.
  unfold index_of. case_bool_decide; [intros [= <-]; lia|]. case_match; [done|]. case_bool_decide; [done|].
  destruct (from_chars _ _ _ _) as [[v n]|] eqn:E; [|done]. case_match; [|done]. intros [= <-].
  unfold from_chars in E. simpl in E. destruct (scan_digits _ _) as [w k]. case_decide; [done|]. case_decide; [|done].
  simplify_eq. lia.
Qed.

Lemma scan_entries c l h :
  0 <= h < 2 ^ 32 ->
  let m := fold_left (scan_entry c) l h in
  h <= m < 2 ^ 32 /\
  (forall name x i, (name, Regular x) ∈ l -> family c name i -> i <= m) /\
  (m = h \/ exists name x, (name, Regular x) ∈ l /\ family c name m).
Proof.
  revert h. induction l as [|[name n] l IH]; intros h Hh; [cbn; split_and!; [lia|lia|intros ? ? ? H; inversion H|by left]|].
  cbn [fold_left]. assert (Hs : h <= scan_entry c h (name, n) < 2 ^ 32 /\
    (forall x i, n = Regular x -> family c name i -> i <= scan_entry c h (name, n)) /\
    (scan_entry c h (name, n) = h \/ exists x, n = Regular x /\ family c name (scan_entry c h (name, n)))).
  { unfold scan_entry, family. case_bool_decide as Ee; cbn [andb]; [|split_and!; [lia|lia|naive_solver|by left]].
    destruct n as [x| |]; [|split_and!; [lia|lia|naive_solver|by left]..].
    destruct (index_of _ name) as [i|] eqn:Ei; [|split_and!; [lia|lia|naive_solver|by left]].
    pose proof (index_of_bounds _ _ _ Ei). destruct (Z.ltb_spec h i); (split_and!; [lia|lia|naive_solver|naive_solver]). }
  destruct Hs as (Hs1 & Hs2 & Hs3). destruct (IH (scan_entry c h (name, n)) ltac:(lia)) as (I1 & I2 & I3). split_and!; try lia.
  - intros nm x i [[= <- <-]|H]%elem_of_cons Hf; [|by eapply I2]. specialize (Hs2 x i eq_refl Hf). lia.
  - destruct I3 as [->|(nm & x & H & Hf)]; [|right; exists nm, x; split; [by right|done]].
    destruct Hs3 as [->|(x & -> & Hf)]; [by left|]. right. exists name, x. split; [by left|done].
Qed.

(** Start-up in indexed mode: the sink opens the highest file of the family that is already
    there, or the next one when that file is full. *)
Theorem initial_path_resumes fs ct c p :
  rotate_file_ c = true -> add_time_to_filename_ c = false -> initial_path fs ct c = (p, None) ->
  exists m, 0 <= m < 2 ^ 32 /\
    (forall name x i, entry fs (dir_of (file_ c), name) = Some (Regular x) -> family c name i -> i <= m) /\
    (m = 0 \/ exists name x, entry fs (dir_of (file_ c), name) = Some (Regular x) /\ family c name m) /\
    p = indexed_path (file_ c)
          (match file_size fs (indexed_path (file_ c) m) with
           | Some size => if max_file_size_ c <=? size then u32 (m + 1) else m
           | None => m
           end).
Proof.
  intros Hr Ht. unfold initial_path. rewrite Hr, Ht. cbn [negb]. destruct (scan fs c) as [m ec] eqn:Es. intros Hp.
  exists m. assert (Hm : ec = None /\ 0 <= m < 2 ^ 32 /\
    (forall name x i, entry fs (dir_of (file_ c), name) = Some (Regular x) -> family c name i -> i <= m) /\
    (m = 0 \/ exists name x, entry fs (dir_of (file_ c), name) = Some (Regular x) /\ family c name m)).
  { assert (ec = None) as -> by (destruct (file_size fs _); [destruct (max_file_size_ c <=? _)|]; congruence). split; [done|].
    unfold scan, entry in *. cbn [fst snd]. destruct (tree fs !! dir_of (file_ c)) as [entries|].
    - destruct (scan_fault fs !! _) as [[n msg]|]; [done|]. injection Es as <-.
      destruct (scan_entries c (map_to_list entries) 0 ltac:(lia)) as (H1 & H2 & H3). cbn. split_and!; [lia|lia| |].
      + intros name x i Hx. by apply (H2 name x), elem_of_map_to_list.
      + destruct H3 as [H3|(name & x & Hx & Hf)]; [by left|]. right. exists name, x. by rewrite elem_of_map_to_list in Hx.
    - injection Es as <-. cbn. split_and!; [lia|lia|done|by left]. }
  destruct Hm as (-> & H1 & H2 & H3). do 3 (split; [done|]). revert Hp.
  destruct (file_size fs _) as [size|]; [|congruence]. destruct (max_file_size_ c <=? size); congruence.
Qed.

(** ** The file system *)
Definition content (fs : FS) (k : bytes * bytes) : bytes := match entry fs k with Some (Regular c) => c | _ => [] end.

Lemma entry_put fs k n k' :
  is_Some (tree fs !! k.1) -> entry (put fs k n) k' = if bool_decide (k' = k) then Some n else entry fs k'.
Proof.
  intros [es Hes]. destruct k as [d f], k' as [d' f']. unfold entry, put. cbn in *. destruct (decide (d' = d)) as [->|Hd].
  - rewrite lookup_alter_eq, Hes. cbn. destruct (decide (f' = f)) as [->|Hf].
    + by rewrite lookup_insert_eq, bool_decide_eq_true_2.
    + rewrite lookup_insert_ne by done. by rewrite bool_decide_eq_false_2 by congruence.
  - rewrite lookup_alter_ne by done. by rewrite bool_decide_eq_false_2 by congruence.
Qed.

Lemma entry_dir fs k n : entry fs k = Some n -> is_Some (tree fs !! k.1).
Proof. unfold entry. by destruct (tree fs !! k.1). Qed.

(** Making a directory changes no entry. *)
Lemma create_directories_spec fs dir fs' :
  create_directories fs dir = Ok fs' -> full fs' = full fs /\ forall k, entry fs' k = entry fs k.
Proof.
  unfold create_directories. destruct (mkdir_fault fs !! dir); [done|]. intros [= <-]. case_bool_decide as E; [done|].
  split; [done|]. intros [d f]. unfold entry. cbn. destruct (decide (d = dir)) as [->|Hd].
  - rewrite lookup_insert_eq. cbn. rewrite lookup_empty. by destruct (tree fs !! dir); [destruct E; eauto|].
  - by rewrite lookup_insert_ne.
Qed.

(** Opening for append leaves every existing entry and makes the opened one a file. *)
Lemma open_append_spec fs p fs' :
  open_append fs p = Some fs' ->
  full fs' = full fs /\ (forall k, content fs' k = content fs k) /\
  (forall k n, entry fs k = Some n -> entry fs' k = Some n) /\ exists c, entry fs' (key p) = Some (Regular c).
Proof.
  unfold open_append. case_bool_decide; [done|]. destruct (tree fs !! dir_of p) as [es|] eqn:Ed; [|done].
  destruct (es !! Path.filename p) as [[c| |]|] eqn:Ee; try done.
  - intros [= <-]. split_and!; try done. exists c. unfold entry, key. cbn. by rewrite Ed.
  - intros [= <-]. assert (HN : entry fs (key p) = None) by (unfold entry, key; cbn; by rewrite Ed).
    assert (HP : forall k, entry (put fs (key p) (Regular [])) k = if bool_decide (k = key p) then Some (Regular []) else entry fs k)
      by (intros k; apply entry_put; unfold key; cbn; eauto). split_and!; [done| | |].
    + intros k. unfold content. rewrite HP. case_bool_decide; [|done]. subst. by rewrite HN.
    + intros k n Hk. rewrite HP. case_bool_decide; [subst k; congruence|done].
    + exists []. rewrite HP. by rewrite bool_decide_eq_true_2.
Qed.

(** ** The stream *)

(** What file [k] holds once the stream has written out what waits. *)
Definition settled (fs : FS) (s : FileSink) (k : bytes * bytes) : bytes :=
  content fs k ++ if bool_decide (k = key (file_path_ s)) then pending_ s else [].

(** The file [k] with [text] added, everything else as it was. *)
Definition appended (k : bytes * bytes) (text : bytes) (fs fs' : FS) : Prop :=
  full fs' = full fs /\
  (forall k', content fs' k' = content fs k' ++ if bool_decide (k' = k) then text else []) /\
  (forall c, entry fs k = Some (Regular c) -> entry fs' k = Some (Regular (c ++ text))) /\
  forall k', k' <> k -> entry fs' k' = entry fs k'.

Definition writable (fs : FS) : Prop := full fs = ∅.

Lemma appended_nil k fs : appended k [] fs fs.
Proof. split_and!; [done|intros k'; case_bool_decide; by rewrite app_nil_r|intros c; by rewrite app_nil_r|done]. Qed.

Lemma write_out_spec p text fs c :
  writable fs -> entry fs (key p) = Some (Regular c) ->
  exists fs', write_out p text fs = (fs', true) /\ appended (key p) text fs fs'.
Proof.
  intros Hw Hc. unfold write_out. case_bool_decide as Ht; [subst; eexists; split; [done|apply appended_nil]|].
  rewrite Hw, bool_decide_eq_false_2, Hc by set_solver. eexists. split; [done|].
  assert (HP : forall k, entry (put fs (key p) (Regular (c ++ text))) k =
    if bool_decide (k = key p) then Some (Regular (c ++ text)) else entry fs k) by (intros k; apply entry_put; by eapply entry_dir).
  split_and!; [done| | |].
  - intros k. unfold content. rewrite HP. case_bool_decide; [|by rewrite app_nil_r]. subst k. by rewrite Hc.
  - intros c' Hc'. rewrite HP, bool_decide_eq_true_2 by done. congruence.
  - intros k Hk. by rewrite HP, bool_decide_eq_false_2.
Qed.

Lemma u64_add a b : u64 (u64 a + b) = u64 (a + b).
Proof. unfold u64. by rewrite Z.add_mod_idemp_l. Qed.

(** ** The sink's invariant

    On a device that accepts writes, a sink that is not dead has an open stream; an open
    stream is good, on a regular file, and the bytes of file and buffer are counted exactly;
    a closed one holds nothing back. *)
Definition stream_ok (fs : FS) (s : FileSink) : Prop :=
  if stream_open s then
    stream_good s = true /\ exists c, entry fs (key (file_path_ s)) = Some (Regular c) /\
      bytes_written_ s = u64 (Z.of_nat (length c + length (pending_ s)))
  else pending_ s = [].

Record file_ok (fs : FS) (s : FileSink) : Prop := {
  fo_base : base_ok (base s);
  fo_named : level_named (threshold_ (config_ s));
  fo_threshold : threshold (dispatch_hint (base s)) = threshold_ (config_ s);
  fo_alive : get_status (base s) <> Dead -> stream_open s = true;
  fo_stream : stream_ok fs s
}.

(** The same without the promise that a live sink has a stream: what holds before the first file is opened. *)
Record sink_ok (fs : FS) (s : FileSink) : Prop := {
  so_base : base_ok (base s);
  so_named : level_named (threshold_ (config_ s));
  so_threshold : threshold (dispatch_hint (base s)) = threshold_ (config_ s);
  so_stream : stream_ok fs s
}.

Lemma file_sink_ok fs s : file_ok fs s -> sink_ok fs s.
Proof. intros []. by split. Qed.

(** A failure may always kill a sink; it degrades one that has a file to go on with. *)
Definition may_fail (s : FileSink) (st : SinkStatus) : Prop := st = Dead \/ (st = Degraded /\ stream_open s = true).

Definition clocks_ok (ck : Clocks) : Prop := clock_ok (now_ms ck).

(** The files keep what they have, and the entries they are. *)
Definition extends (fs fs' : FS) : Prop :=
  full fs' = full fs /\ (forall k, content fs' k = content fs k) /\ forall k n, entry fs k = Some n -> entry fs' k = Some n.

Lemma extends_refl fs : extends fs fs.
Proof. done. Qed.

Lemma extends_stream fs fs' s : extends fs fs' -> stream_ok fs s -> stream_ok fs' s.
Proof.
  intros (_ & _ & He). unfold stream_ok. destruct (stream_open s); [|done]. intros (Hg & c & Hc & Hn). split; [done|]. exists c. auto.
Qed.

(** Flushing puts what waits into the file. *)
Lemma stream_flush_spec fs s :
  writable fs -> stream_open s = true -> stream_ok fs s ->
  exists fs', stream_flush fs s = (fs', set_stream true true [] s) /\ appended (key (file_path_ s)) (pending_ s) fs fs'.
Proof.
  intros Hw Ho Hs. unfold stream_ok in Hs. rewrite Ho in Hs. destruct Hs as (Hg & c & Hc & _). unfold stream_flush. rewrite Hg, Ho.
  cbn [negb orb]. destruct (write_out_spec (file_path_ s) (pending_ s) fs c Hw Hc) as (fs' & E & HA). rewrite E. by exists fs'.
Qed.

Lemma close_stream_spec fs s :
  writable fs -> stream_ok fs s ->
  let '(fs', s') := close_stream fs s in
  base s' = base s /\ config_ s' = config_ s /\ full fs' = full fs /\
  (forall k, content fs' k = settled fs s k) /\ (forall k c, entry fs k = Some (Regular c) -> exists c', entry fs' k = Some (Regular c')).
Proof.
  intros Hw Hs. unfold close_stream, settled. destruct (stream_open s) eqn:Ho.
  - destruct (stream_flush_spec fs s Hw Ho Hs) as (fs' & E & F & C & E1 & E2). rewrite E. split_and!; [done..|].
    intros k c Hk. destruct (decide (k = key (file_path_ s))) as [->|Hne]; [eexists; by apply E1|]. rewrite E2 by done. by exists c.
  - unfold stream_ok in Hs. rewrite Ho in Hs. rewrite Hs. split_and!; [done..|intros k; case_bool_decide; by rewrite app_nil_r|eauto].
Qed.

Lemma fail_spec ck st reason s :
  clocks_ok ck -> status_named st -> base_ok (base s) ->
  base_ok (base (fail ck st reason s)) /\ get_status (base (fail ck st reason s)) = st /\
  threshold (dispatch_hint (base (fail ck st reason s))) = threshold (dispatch_hint (base s)) /\
  undelivered_ (base (fail ck st reason s)) = undelivered_ (base s).
Proof.
  intros Hc Hst Hb. destruct (note_failure_spec _ Hb _ Hc) as [H1 E1]. destruct (set_status_spec _ H1 st reason Hst) as [H2 E2].
  unfold fail, get_status. cbn [base set_base]. rewrite E2, E1. done.
Qed.

Lemma fail_ok ck st reason fs fs' s :
  clocks_ok ck -> may_fail s st -> extends fs fs' -> sink_ok fs s -> file_ok fs' (fail ck st reason s).
Proof.
  intros Hc Hst He [Hb Hn Ht Hs]. assert (status_named st) as Hst' by (destruct Hst as [-> | [-> _]]; exact I).
  destruct (fail_spec ck st reason s Hc Hst' Hb) as (H1 & H2 & H3 & _). split; [done|done|by rewrite H3| |].
  - rewrite H2. intros Hd. by destruct Hst as [->|[_ Ho]].
  - apply (extends_stream fs fs' s He Hs).
Qed.

Lemma adopt_spec fs p s :
  base_ok (base s) -> base_ok (base (adopt fs p s)) /\ get_status (base (adopt fs p s)) = Healthy /\
  threshold (dispatch_hint (base (adopt fs p s))) = threshold (dispatch_hint (base s)).
Proof.
  intros Hb. destruct (note_success_spec _ Hb) as [H1 E1]. destruct (set_status_spec _ H1 Healthy [] I) as [H2 E2].
  unfold adopt, get_status. cbn [base]. rewrite E2, E1. done.
Qed.

(** What the operations that open files promise, whatever the file system answers: nothing
    that was written or waits is lost, moved or repeated. *)
Record opened (fs : FS) (s : FileSink) (fs' : FS) (s' : FileSink) : Prop := {
  op_full : full fs' = full fs;
  op_settled k : settled fs' s' k = settled fs s k;
  op_ok : file_ok fs' s';
  op_undelivered : undelivered_ (base s') = undelivered_ (base s)
}.

Lemma opened_refl fs s : file_ok fs s -> opened fs s fs s.
Proof. by split. Qed.

Lemma opened_fail ck st reason fs fs' s :
  clocks_ok ck -> may_fail s st -> extends fs fs' -> sink_ok fs s -> opened fs s fs' (fail ck st reason s).
Proof.
  intros Hc Hst He Hs. split; [apply He| |by eapply fail_ok|done]. intros k. unfold settled. cbn [fail set_base pending_ file_path_].
  by rewrite (proj1 (proj2 He)).
Qed.

Lemma adopt_opened fs fs2 p s c :
  writable fs -> extends fs fs2 -> entry fs2 (key p) = Some (Regular c) -> sink_ok fs s ->
  let '(fs3, s1) := close_stream fs2 s in
  opened fs s fs3 (adopt fs3 p s1) /\ get_status (base (adopt fs3 p s1)) = Healthy /\ file_path_ (adopt fs3 p s1) = p.
Proof.
  intros Hw He Hp [Hb Hn Ht Hs]. pose proof He as (F & C & _).
  pose proof (close_stream_spec fs2 s ltac:(unfold writable in *; congruence) (extends_stream _ _ _ He Hs)) as HC.
  destruct (close_stream fs2 s) as [fs3 s1]. destruct HC as (B1 & K1 & F3 & C3 & E3). destruct (E3 _ _ Hp) as (c' & Hc').
  assert (Hb1 : base_ok (base s1)) by by rewrite B1. destruct (adopt_spec fs3 p s1 Hb1) as (A1 & A2 & A3).
  split; [|by split]. split; [congruence| | |cbn; by rewrite B1].
  - intros k. unfold settled at 1. cbn [adopt pending_ file_path_]. destruct (bool_decide (k = key p)); rewrite app_nil_r, C3; unfold settled; by rewrite C.
  - split; [done|by rewrite <- K1 in Hn|by rewrite A3, B1, Ht, <- K1|done|]. split; [done|]. exists c'. split; [done|].
    cbn [adopt bytes_written_ pending_ length]. unfold file_size. rewrite Hc'. by rewrite Nat.add_0_r.
Qed.

Lemma open_stream_spec ck p st fs s :
  clocks_ok ck -> writable fs -> may_fail s st -> sink_ok fs s ->
  let '(fs', s') := open_stream ck p st fs s in
  opened fs s fs' s' /\ (get_status (base s') = st \/ (get_status (base s') = Healthy /\ file_path_ s' = p)).
Proof.
  intros Hc Hw Hst Hok. assert (Hs : status_named st) by (destruct Hst as [-> | [-> _]]; exact I). unfold open_stream.
  assert (Hmk : forall fs1, (if bool_decide (Path.parent_path p = []) then Ok fs else create_directories fs (Path.parent_path p)) = Ok fs1 ->
    extends fs fs1).
  { intros fs1. case_bool_decide; [intros [= <-]; apply extends_refl|]. intros [H1 H2]%create_directories_spec.
    split_and!; [done|intros k; unfold content; by rewrite H2|intros k n; by rewrite H2]. }
  destruct (if bool_decide _ then _ else _) as [fs1|msg].
  - specialize (Hmk fs1 eq_refl). destruct (open_append fs1 p) as [fs2|] eqn:Eo.
    + apply open_append_spec in Eo as (F2 & C2 & E2 & c & Hc2). destruct Hmk as (F1 & C1 & E1).
      assert (He : extends fs fs2) by (split_and!; [congruence|intros k; by rewrite C2|eauto]).
      pose proof (adopt_opened fs fs2 p s c Hw He Hc2 Hok) as HA. destruct (close_stream fs2 s) as [fs3 s1].
      destruct HA as (HA & HH & HP). split; [done|by right].
    + split; [by apply opened_fail|]. left. by apply fail_spec; destruct Hok.
  - split; [by apply opened_fail|]. left. by apply fail_spec; destruct Hok.
Qed.

Lemma rotate_now_spec ck fs s :
  clocks_ok ck -> writable fs -> get_status (base s) <> Dead -> file_ok fs s ->
  let '(fs', s') := rotate_now ck fs s in opened fs s fs' s' /\ get_status (base s') <> Dead.
Proof.
  intros Hc Hw Ha Hok. unfold rotate_now. destruct (negb _ || _); [split; [by apply opened_refl|done]|]. case_bool_decide; [split; [by apply opened_refl|done]|].
  pose proof (open_stream_spec ck (next_path (current_time ck) (config_ s) (file_path_ s)) Degraded fs s Hc Hw
    ltac:(right; split; [done|by apply (fo_alive _ _ Hok)]) (file_sink_ok _ _ Hok)) as HO.
  destruct (open_stream _ _ _ _ _) as [fs' s']. destruct HO as [HO [E|[E _]]]; (split; [done|by rewrite E]).
Qed.

Lemma rotate_if_needed_spec ck fs s :
  clocks_ok ck -> writable fs -> get_status (base s) <> Dead -> file_ok fs s ->
  let '(fs', s') := rotate_if_needed ck fs s in opened fs s fs' s' /\ get_status (base s') <> Dead.
Proof.
  intros Hc Hw Ha Hok. unfold rotate_if_needed. destruct (bool_decide _ && _); [split; [by apply opened_refl|done]|]. by apply rotate_now_spec.
Qed.

Lemma open_from_config_spec ck fs s :
  clocks_ok ck -> writable fs -> sink_ok fs s ->
  let '(fs', s') := open_from_config ck fs s in opened fs s fs' s'.
Proof.
  intros Hc Hw Hok. unfold open_from_config. destruct (initial_path _ _ _) as [p [ec|]].
  - apply opened_fail; [done|by left|apply extends_refl|done].
  - pose proof (open_stream_spec ck p Dead fs s Hc Hw ltac:(by left) Hok) as HO. destruct (open_stream _ _ _ _ _) as [fs' s']. by destruct HO.
Qed.

Lemma force_maintain_spec ck fs s :
  clocks_ok ck -> writable fs -> file_ok fs s -> let '(fs', s') := force_maintain ck fs s in opened fs s fs' s'.
Proof.
  intros Hc Hw Hok. unfold force_maintain. case_bool_decide as Hd; [apply open_from_config_spec; [done|done|by eapply file_sink_ok]|].
  pose proof (rotate_now_spec ck fs s Hc Hw Hd Hok) as HR. destruct (rotate_now ck fs s). by destruct HR.
Qed.

Lemma maintain_spec ck fs s :
  clocks_ok ck -> writable fs -> file_ok fs s -> let '(fs', s') := maintain ck fs s in opened fs s fs' s'.
Proof.
  intros Hc Hw Hok. unfold maintain. destruct (negb _); [by apply opened_refl|by apply force_maintain_spec].
Qed.

Lemma flushed_ok fs fs' s :
  appended (key (file_path_ s)) (pending_ s) fs fs' -> stream_open s = true -> stream_ok fs s -> stream_ok fs' (set_stream true true [] s).
Proof.
  intros (_ & _ & E1 & _) Ho Hs. unfold stream_ok in *. rewrite Ho in Hs. destruct Hs as (_ & c & Hc & Hn). cbn [set_stream stream_open].
  split; [done|]. exists (c ++ pending_ s). split; [by apply E1|]. cbn [set_stream bytes_written_ pending_]. by rewrite Hn, length_app, Nat.add_0_r.
Qed.

Lemma flushed_settled fs fs' s k :
  appended (key (file_path_ s)) (pending_ s) fs fs' -> settled fs' (set_stream true true [] s) k = settled fs s k.
Proof.
  intros (_ & C & _). unfold settled. cbn [set_stream pending_ file_path_]. rewrite C. case_bool_decide; by rewrite ?app_nil_r.
Qed.

Lemma flush_spec fs s :
  writable fs -> file_ok fs s ->
  let '(fs', s') := flush fs s in opened fs s fs' s' /\ pending_ s' = [].
Proof.
  intros Hw Hok. unfold flush. pose proof Hok as [Hb Hn Ht Ha Hs]. destruct (stream_open s) eqn:Ho.
  - destruct (stream_flush_spec fs s Hw Ho Hs) as (fs' & E & HA). rewrite E. split; [|done]. split; [apply HA| | |done].
    + intros k. by apply flushed_settled.
    + split; [done..|]. by eapply flushed_ok.
  - split; [by apply opened_refl|]. unfold stream_ok in Hs. by rewrite Ho in Hs.
Qed.

Lemma file_set_config_ok cfg fs s : level_named (threshold_ cfg) -> file_ok fs s -> file_ok fs (set_config cfg s).
Proof.
  intros Hn [Hb _ _ Ha Ho]. destruct (publish_threshold_spec _ Hb _ Hn) as [H1 E1].
  split; cbn [base set_config config_]; [done|done|by rewrite E1| |done]. intros Hd. apply Ha. unfold get_status in *. by rewrite E1 in Hd.
Qed.

(** ** Writing *)
Section writing.
Context (format : LogEvent -> result (option bytes) bytes) (spill : bytes -> bytes -> nat).

(** The text of a batch: the lines of its accepted events, up to the first whose formatting throws. *)
Fixpoint batch_text (s : FileSink) (batch : list LogEvent) : bytes :=
  match batch with
  | [] => []
  | e :: rest =>
      if should_log s (level e) (inline_view (prefix e)) then
        match format e with Ok text => text ++ batch_text s rest | Err _ => [] end
      else batch_text s rest
  end.

(** The events of a batch from the first one on whose formatting throws. *)
Fixpoint from_failure (s : FileSink) (batch : list LogEvent) : list LogEvent :=
  match batch with
  | [] => []
  | e :: rest =>
      if should_log s (level e) (inline_view (prefix e)) then
        match format e with Ok _ => from_failure s rest | Err _ => batch end
      else from_failure s rest
  end.

Lemma batch_config s s' batch :
  config_ s' = config_ s -> batch_text s' batch = batch_text s batch /\ from_failure s' batch = from_failure s batch.
Proof.
  intros E. induction batch as [|e batch [IH1 IH2]]; [done|]. simpl. unfold should_log. by rewrite E, IH1, IH2.
Qed.

(** Up to writing, a sink is its file, its buffer and its count. *)
Definition same_sink (s s' : FileSink) : Prop :=
  base s' = base s /\ config_ s' = config_ s /\ file_path_ s' = file_path_ s.

(** Inserting and counting. *)
Lemma stream_insert_spec text fs s :
  writable fs -> stream_open s = true -> stream_ok fs s ->
  exists fs' s', stream_insert spill text fs s = (fs', s') /\ full fs' = full fs /\ same_sink s s' /\ stream_open s' = true /\
    stream_ok fs' (count_written (length text) s') /\
    forall k, settled fs' s' k = settled fs s k ++ if bool_decide (k = key (file_path_ s)) then text else [].
Proof.
  intros Hw Ho Hs. unfold stream_ok in Hs. rewrite Ho in Hs. destruct Hs as (Hg & c & Hc & Hn). unfold stream_insert. rewrite Hg, Ho.
  cbn [negb orb]. set (n := spill _ _). set (waiting := pending_ s ++ text).
  destruct (write_out_spec (file_path_ s) (take n waiting) fs c Hw Hc) as (fs' & E & F & C & E1 & _). rewrite E.
  eexists _, _. split; [done|]. do 3 (split; [done|]). split.
  - unfold stream_ok. cbn [count_written set_stream stream_open stream_good file_path_]. split; [done|]. exists (c ++ take n waiting). split; [by apply E1|]. cbn [count_written set_stream bytes_written_ pending_].
    rewrite Hn, u64_add. f_equal. pose proof (f_equal length (take_drop n waiting)) as HL. unfold waiting in HL at 3.
    rewrite !length_app in *. lia.
  - intros k. unfold settled. cbn [set_stream pending_ file_path_]. rewrite C. case_bool_decide; [|by rewrite !app_nil_r].
    rewrite <- app_assoc, take_drop. unfold waiting. by rewrite app_assoc.
Qed.

(** One event that formats. *)
Lemma write_guarded_spec ck e fs s text :
  writable fs -> get_status (base s) <> Dead -> file_ok fs s ->
  should_log s (level e) (inline_view (prefix e)) = true -> format e = Ok text ->
  exists fs' s', write_guarded format spill ck e fs s = (fs', s', true) /\ full fs' = full fs /\ same_sink s s' /\ file_ok fs' s' /\
    forall k, settled fs' s' k = settled fs s k ++ if bool_decide (k = key (file_path_ s)) then text else [].
Proof.
  intros Hw Ha Hok Hl Hf. pose proof Hok as [Hb Hn Ht Hal Hs]. unfold write_guarded. rewrite Hl, Hf. cbn [negb].
  destruct (stream_insert_spec text fs s Hw (Hal Ha) Hs) as (fs1 & s1 & -> & F1 & (B1 & K1 & P1) & O1 & S1 & C1).
  set (s2 := count_written (length text) s1) in *.
  assert (Hok2 : file_ok fs1 s2) by (split; subst s2; cbn [count_written base config_ stream_open]; [by rewrite B1|by rewrite K1|by rewrite B1, K1|done|exact S1]).
  assert (C2 : forall k, settled fs1 s2 k = settled fs s k ++ if bool_decide (k = key (file_path_ s)) then text else []) by exact C1.
  destruct (flush_each_entry_ (config_ s2)); [|by exists fs1, s2].
  destruct (stream_flush_spec fs1 s2 ltac:(unfold writable in *; congruence) O1 S1) as (fs' & -> & HA).
  exists fs', (set_stream true true [] s2). split; [done|].
  split; [pose proof HA as (F & _); congruence|]. split; [exact (conj B1 (conj K1 P1))|]. split.
  - destruct Hok2 as [Hb2 Hn2 Ht2 Hal2 Hs2]. split; [done..|]. by eapply flushed_ok.
  - intros k. rewrite <- C2. by apply flushed_settled.
Qed.

(** A batch: what it writes, and what becomes of the sink. *)
Record wrote (batch : list LogEvent) (fs : FS) (s : FileSink) (fs' : FS) (s' : FileSink) : Prop := {
  wr_full : full fs' = full fs;
  wr_ok : file_ok fs' s';
  wr_path : file_path_ s' = file_path_ s;
  wr_settled k : settled fs' s' k = settled fs s k ++ if bool_decide (k = key (file_path_ s)) then batch_text s batch else [];
  wr_lost : u64 (undelivered_ (base s')) = u64 (undelivered_ (base s) + Z.of_nat (length (from_failure s batch)))
}.

Lemma add_lost_ok fs s n : file_ok fs s -> file_ok fs (add_lost n s).
Proof. intros [Hb Hn Ht Ha Hs]. by split. Qed.

Lemma format_failed ck fs s e rest reason :
  clocks_ok ck -> file_ok fs s -> batch_text s (e :: rest) = [] -> from_failure s (e :: rest) = e :: rest ->
  wrote (e :: rest) fs s fs (add_lost (length (e :: rest)) (fail ck Dead reason s)).
Proof.
  intros Hc Hok Et Ef. destruct (fail_spec ck Dead reason s Hc I (fo_base _ _ Hok)) as (_ & _ & _ & HU). split; [done| |done| |].
  - apply add_lost_ok, (fail_ok ck Dead reason fs fs s); [done|by left|apply extends_refl|by apply file_sink_ok].
  - intros k. rewrite Et. case_bool_decide; by rewrite app_nil_r.
  - rewrite Ef. cbn [add_lost set_base base add_undelivered undelivered_]. rewrite HU. unfold u64. by rewrite Z.mod_mod.
Qed.

Lemma write_all_spec ck batch fs s :
  clocks_ok ck -> writable fs -> get_status (base s) <> Dead -> file_ok fs s ->
  let '(fs', s', written) := write_all format spill ck batch fs s in
  wrote batch fs s fs' s' /\ if written : bool then base s' = base s else True.
Proof.
  intros Hc. revert fs s. induction batch as [|e batch IH]; intros fs s Hw Ha Hok; cbn [write_all].
  { split; [|done]. split; [done|done|done|intros k; case_bool_decide; by rewrite app_nil_r|by rewrite Z.add_0_r]. }
  destruct (should_log s (level e) (inline_view (prefix e))) eqn:El.
  - destruct (format e) as [text|what] eqn:Ef.
    + destruct (write_guarded_spec ck e fs s text Hw Ha Hok El Ef) as (fs1 & s1 & -> & F1 & (B1 & K1 & P1) & Hok1 & C1). cbn [negb].
      specialize (IH fs1 s1 ltac:(unfold writable in *; congruence) ltac:(by rewrite B1) Hok1).
      destruct (write_all format spill ck batch fs1 s1) as [[fs2 s2] written]. destruct IH as ([F2 Hok2 P2 C2 L2] & HB).
      destruct (batch_config s s1 batch K1) as [Et Efl]. split; [|destruct written; congruence].
      split; [congruence|done|congruence| |].
      * intros k. rewrite C2, C1, P1, Et, <- app_assoc. cbn [batch_text]. rewrite El, Ef. by case_bool_decide.
      * rewrite L2, B1, Efl. cbn [from_failure]. by rewrite El, Ef.
    + unfold write_guarded. rewrite El, Ef. cbn [negb]. split; [|done].
      apply format_failed; try done; cbn [batch_text from_failure]; by rewrite El, Ef.
  - unfold write_guarded. rewrite El. cbn [negb]. specialize (IH fs s Hw Ha Hok). destruct (write_all format spill ck batch fs s) as [[fs2 s2] written].
    destruct IH as ([F2 Hok2 P2 C2 L2] & HB). split; [|done]. split; [done|done|done| |].
    + intros k. rewrite C2. cbn [batch_text]. by rewrite El.
    + rewrite L2. cbn [from_failure]. by rewrite El.
Qed.

(** ** Runs *)
Inductive file_op :=
| FBatch (ck : Clocks) (batch : list LogEvent)
| FEvent (ck : Clocks) (e : LogEvent)
| FMaintain (ck : Clocks)
| FForce (ck : Clocks)
| FFlush
| FConfig (cfg : FileSinkConfig).

Definition file_op_ok (o : file_op) : Prop :=
  match o with
  | FBatch ck _ | FEvent ck _ | FMaintain ck | FForce ck => clocks_ok ck
  | FFlush => True
  | FConfig cfg => level_named (threshold_ cfg)
  end.

Definition run_op (o : file_op) (w : FS * FileSink) : FS * FileSink :=
  let '(fs, s) := w in
  match o with
  | FBatch ck batch => process_batch format spill ck batch fs s
  | FEvent ck e => process format spill ck e fs s
  | FMaintain ck => maintain ck fs s
  | FForce ck => force_maintain ck fs s
  | FFlush => flush fs s
  | FConfig cfg => (fs, set_config cfg s)
  end.

(** The events an operation brings. *)
Definition events_of (o : file_op) : list LogEvent :=
  match o with FBatch _ batch => batch | FEvent _ e => [e] | _ => [] end.

(** What an operation is to write, and where; nothing when the sink is dead. *)
Definition writes (o : file_op) (s : FileSink) : (bytes * bytes) * bytes :=
  (key (file_path_ s), if bool_decide (get_status (base s) = Dead) then [] else batch_text s (events_of o)).

(** How many events it loses: all of them while the sink is dead, and those from the first
    one on whose formatting throws. *)
Definition loses (o : file_op) (s : FileSink) : nat :=
  if bool_decide (get_status (base s) = Dead) then length (events_of o) else length (from_failure s (events_of o)).

Fixpoint run (ops : list file_op) (w : FS * FileSink) : FS * FileSink :=
  match ops with [] => w | o :: ops => run ops (run_op o w) end.

Fixpoint journal (ops : list file_op) (w : FS * FileSink) : list ((bytes * bytes) * bytes) :=
  match ops with [] => [] | o :: ops => writes o w.2 :: journal ops (run_op o w) end.

Fixpoint lost (ops : list file_op) (w : FS * FileSink) : nat :=
  match ops with [] => 0 | o :: ops => loses o w.2 + lost ops (run_op o w) end.

(** The part of a journal that concerns one file. *)
Definition for_file (k : bytes * bytes) (j : list ((bytes * bytes) * bytes)) : bytes :=
  concat (snd <$> filter (fun x => x.1 = k) j).

(** One operation: the journal's text goes to its file, the losses are counted. *)
Record op_effect (o : file_op) (fs : FS) (s : FileSink) (fs' : FS) (s' : FileSink) : Prop := {
  e_writable : writable fs';
  e_ok : file_ok fs' s';
  e_settled k : settled fs' s' k = settled fs s k ++ if bool_decide ((writes o s).1 = k) then (writes o s).2 else [];
  e_lost : u64 (undelivered_ (base s')) = u64 (undelivered_ (base s) + Z.of_nat (loses o s))
}.

(** An operation that brings no event. *)
Lemma opened_effect o fs s fs' s' : writable fs -> events_of o = [] -> opened fs s fs' s' -> op_effect o fs s fs' s'.
Proof.
  intros Hw He [F C Hok Hu]. unfold writable in *. split; [congruence|done| |].
  - intros k. rewrite C. unfold writes. rewrite He. cbn. repeat case_bool_decide; by rewrite app_nil_r.
  - unfold loses. rewrite He, Hu. cbn. case_bool_decide; by rewrite Z.add_0_r.
Qed.

Lemma add_lost_effect o fs s n :
  writable fs -> file_ok fs s -> get_status (base s) = Dead -> length (events_of o) = n -> op_effect o fs s fs (add_lost n s).
Proof.
  intros Hw Hok Hd Hl. split; [done|by apply add_lost_ok| |].
  - intros k. unfold writes. cbn. rewrite (bool_decide_eq_true_2 (get_status (base s) = Dead)) by done.
    case_bool_decide; by rewrite app_nil_r.
  - unfold loses. rewrite bool_decide_eq_true_2 by done. cbn. rewrite Hl. unfold u64. by rewrite Z.mod_mod.
Qed.

Lemma wrote_effect o fs s fs1 s1 fs' s' :
  writable fs -> get_status (base s) <> Dead -> wrote (events_of o) fs s fs1 s1 -> opened fs1 s1 fs' s' -> op_effect o fs s fs' s'.
Proof.
  intros Hw Ha [F1 _ P1 C1 L1] [F2 C2 Hok2 U2]. unfold writable in *. split; [congruence|done| |].
  - intros k. rewrite C2, C1. unfold writes. cbn [fst snd]. rewrite (bool_decide_eq_false_2 (get_status _ = Dead)) by done.
    f_equal. repeat case_bool_decide; congruence.
  - unfold loses. rewrite bool_decide_eq_false_2 by done. by rewrite U2.
Qed.

(** Writing, then rotating unless the sink died. *)
Lemma batch_effect ck o fs s :
  clocks_ok ck -> writable fs -> get_status (base s) <> Dead -> file_ok fs s ->
  let '(fs', s') := (let '(fs, s, written) := write_all format spill ck (events_of o) fs s in
                     if negb written then (fs, s) else rotate_if_needed ck fs s) in
  op_effect o fs s fs' s'.
Proof.
  intros Hc Hw Ha Hok. pose proof (write_all_spec ck (events_of o) fs s Hc Hw Ha Hok) as HW.
  destruct (write_all _ _ _ _ _ _) as [[fs1 s1] written]. destruct HW as [HW HB]. destruct written; cbn [negb].
  - pose proof (rotate_if_needed_spec ck fs1 s1 Hc ltac:(pose proof (wr_full _ _ _ _ _ HW); unfold writable in *; congruence)
      ltac:(by rewrite HB) (wr_ok _ _ _ _ _ HW)) as HR.
    destruct (rotate_if_needed ck fs1 s1) as [fs' s']. destruct HR as [HR _]. by eapply wrote_effect.
  - eapply wrote_effect; [done|done|done|]. apply opened_refl, HW.
Qed.

Lemma process_as_batch ck e fs s : process format spill ck e fs s = process_batch format spill ck [e] fs s.
Proof.
  unfold process, process_batch. case_bool_decide; [done|]. cbn [write_all].
  destruct (write_guarded format spill ck e fs s) as [[fs1 s1] []]; done.
Qed.

Lemma run_op_spec o fs s :
  writable fs -> file_ok fs s -> file_op_ok o -> let '(fs', s') := run_op o (fs, s) in op_effect o fs s fs' s'.
Proof.
  intros Hw Hok Ho. destruct o as [ck batch|ck e|ck|ck| |cfg]; cbn [run_op file_op_ok] in *; rewrite ?process_as_batch.
  - unfold process_batch. case_bool_decide as Hd; [by apply add_lost_effect|]. by apply (batch_effect ck (FBatch ck batch)).
  - unfold process_batch. case_bool_decide as Hd; [by apply add_lost_effect|]. by apply (batch_effect ck (FEvent ck e)).
  - pose proof (maintain_spec ck fs s Ho Hw Hok) as HM. destruct (maintain ck fs s). by apply opened_effect.
  - pose proof (force_maintain_spec ck fs s Ho Hw Hok) as HM. destruct (force_maintain ck fs s). by apply opened_effect.
  - pose proof (flush_spec fs s Hw Hok) as HF. destruct (flush fs s). destruct HF as [HF _]. by apply opened_effect.
  - apply opened_effect; [done..|]. split; [done|done|by apply file_set_config_ok|done].
Qed.

Lemma run_spec ops fs s :
  writable fs -> file_ok fs s -> Forall file_op_ok ops ->
  let '(fs', s') := run ops (fs, s) in
  writable fs' /\ file_ok fs' s' /\ (forall k, settled fs' s' k = settled fs s k ++ for_file k (journal ops (fs, s))) /\
  u64 (undelivered_ (base s')) = u64 (undelivered_ (base s) + Z.of_nat (lost ops (fs, s))).
Proof.
  intros Hw Hok Hops. revert fs s Hw Hok. induction Hops as [|o ops Ho _ IH]; intros fs s Hw Hok.
  - split_and!; [done|done|intros k; by rewrite app_nil_r|by rewrite Z.add_0_r].
  - cbn [run journal lost]. pose proof (run_op_spec o fs s Hw Hok Ho) as HR. destruct (run_op o (fs, s)) as [fs1 s1].
    destruct HR as [Hw1 Hok1 HC1 HL1]. specialize (IH fs1 s1 Hw1 Hok1). destruct (run ops (fs1, s1)) as [fs2 s2].
    destruct IH as (Hw2 & Hok2 & HC2 & HL2). split_and!; [done|done| |].
    + intros k. rewrite HC2, HC1, <- app_assoc. f_equal. unfold for_file. rewrite filter_cons. cbn [snd].
      case_bool_decide; [rewrite decide_True by done; done|by rewrite decide_False].
    + rewrite HL2. rewrite <- (u64_add (undelivered_ (base s1))), HL1, u64_add. cbn [snd]. apply (f_equal u64). lia.
Qed.

End writing.

(** The constructor. *)
Lemma new_file_sink_ok ck cfg fs :
  clocks_ok ck -> level_named (threshold_ cfg) -> writable fs ->
  let '(fs', s') := new_sink ck cfg fs in
  writable fs' /\ file_ok fs' s' /\ (forall k, settled fs' s' k = content fs k) /\ undelivered_ (base s') = 0.
Proof.
  intros Hc Hn Hw. unfold new_sink. set (s0 := {| base := _ |}).
  destruct (publish_threshold_spec _ new_base_ok _ Hn) as [Hb E].
  assert (Hs : sink_ok fs s0) by (split; [done|done| |done]; cbn [base config_ s0]; by rewrite E).
  pose proof (open_from_config_spec ck fs s0 Hc Hw Hs) as H. destruct (open_from_config ck fs s0) as [fs' s'].
  destruct H as [F C Hok Hu]. split_and!; [unfold writable in *; congruence|done| |done].
  intros k. rewrite C. unfold settled. cbn. case_bool_decide; by rewrite app_nil_r.
Qed.

(** C13. Every line of every event the sink accepts reaches the files, exactly once and in
    order. From any file system with room, after any sequence of batches, events,
    maintenance passes, flushes and configuration changes, every file holds what it held
    before followed by what the journal sent there, as soon as the stream's buffer has been
    written out; only the bytes that wait in the buffer of the current file are missing
    from it until then, a flush or the destructor leaves none, and when the stream
    library writes on its own makes no difference. The journal has the lines of the
    accepted events that came while the sink was not dead, in a batch those before the first
    event whose formatting throws. The undelivered count is the number of the other
    events, modulo 2^64: those from a throwing one to the end of its batch and those that
    came to a dead sink. Rotation and reopening, failing or not, move, split and drop
    nothing. Assumed: the device accepts what is written to it (a full one is the
    subject of [full_device_unnoticed]), thresholds are named levels, and the steady
    clock is below 2^47 milliseconds. *)
Theorem file_sink_journal format spill ck cfg fs ops :
  clocks_ok ck -> level_named (threshold_ cfg) -> writable fs -> Forall file_op_ok ops ->
  let w := new_sink ck cfg fs in
  let '(fs', s') := run format spill ops w in
  (forall k, content fs' k ++ (if bool_decide (k = key (file_path_ s')) then pending_ s' else []) =
     content fs k ++ for_file k (journal format spill ops w)) /\
  (forall k, content (flush fs' s').1 k = content fs k ++ for_file k (journal format spill ops w)) /\
  (forall k, content (destroy fs' s') k = content fs k ++ for_file k (journal format spill ops w)) /\
  u64 (undelivered_ (base s')) = u64 (Z.of_nat (lost format spill ops w)) /\ file_ok fs' s'.
Proof.
  intros Hc Hn Hw Ho w. subst w. pose proof (new_file_sink_ok ck cfg fs Hc Hn Hw) as H. destruct (new_sink ck cfg fs) as [fs1 s1].
  destruct H as (Hw1 & Hok1 & HC & Hu). pose proof (run_spec format spill ops fs1 s1 Hw1 Hok1 Ho) as HR.
  destruct (run format spill ops (fs1, s1)) as [fs' s']. destruct HR as (Hw' & Hok & HC' & HL).
  assert (HS : forall k, settled fs' s' k = content fs k ++ for_file k (journal format spill ops (fs1, s1)))
    by (intros k; by rewrite HC', HC). split_and!; [exact HS| | |by rewrite HL, Hu|done].
  - intros k. rewrite <- HS. pose proof (flush_spec fs' s' Hw' Hok) as HF. destruct (flush fs' s') as [fs2 s2].
    destruct HF as [[_ C2 _ _] HP]. rewrite <- C2. unfold settled. rewrite HP. case_bool_decide; by rewrite app_nil_r.
  - intros k. rewrite <- HS. unfold destroy. pose proof (close_stream_spec fs' s' Hw' (fo_stream _ _ Hok)) as HF.
    destruct (close_stream fs' s') as [fs2 s2]. apply HF.
Qed.

(** *** A concrete run *)
Definition sample_config : FileSinkConfig := with_rotation (with_file default_file_config (B "logs/app.log")) false true 8.

Definition sample_event (lvl : LogLevel) (msg : bytes) : LogEvent :=
  {| level := lvl; prefix := inline_string 31; message := msg;
     location := {| file_name := B "main.cpp"; function_name := None; line := 1 |}; time_point := 0; tid := 1; pid := 1;
     shutdown_signal := false |}.

Definition empty_fs : FS := {| tree := ∅; scan_fault := ∅; mkdir_fault := ∅; denied := ∅; full := ∅ |}.
Definition at_ms (t : Z) : Clocks := {| now_ms := t; current_time := fun _ => B "T" |}.
Definition light (e : LogEvent) : result (option bytes) bytes := Ok (light_format e).

(** An entry type whose formatting throws on an empty message. *)
Definition fussy (e : LogEvent) : result (option bytes) bytes :=
  if bool_decide (message e = []) then Err None else Ok (light_format e).

(** A buffer of 16 bytes: it is emptied when the next text does not fit. *)
Definition spill16 (pending text : bytes) : nat :=
  if (length pending + length text <=? 16)%nat then 0 else length pending + length text.

Definition sample_ops : list file_op :=
  [FBatch (at_ms 1) [sample_event Info (B "one"); sample_event Trace (B "no")]; FBatch (at_ms 2) [sample_event Error (B "two")];
   FEvent (at_ms 3) (sample_event Error []); FEvent (at_ms 4) (sample_event Error (B "gone"))].

Lemma file_sink_journal_witness :
  let w := new_sink (at_ms 0) sample_config empty_fs in
  let '(fs', s') := run fussy spill16 sample_ops w in
  ((forall k, content (destroy fs' s') k = content empty_fs k ++ for_file k (journal fussy spill16 sample_ops w)) /\
   u64 (undelivered_ (base s')) = u64 (Z.of_nat (lost fussy spill16 sample_ops w)) /\ file_ok fs' s') /\
  for_file (B "logs", B "app.log") (journal fussy spill16 sample_ops w) = B "INF one" ++ [nl] /\
  for_file (B "logs", B "app_1.log") (journal fussy spill16 sample_ops w) = B "ERR two" ++ [nl] /\
  lost fussy spill16 sample_ops w = 2%nat.
Proof.
  pose proof (file_sink_journal fussy spill16 (at_ms 0) sample_config empty_fs sample_ops) as H. cbv zeta in H |- *.
  destruct (run fussy spill16 sample_ops (new_sink (at_ms 0) sample_config empty_fs)) as [fs' s'].
  split; [|split; [|split]; vm_compute; reflexivity].
  destruct H as (_ & _ & H1 & H2 & H3).
  - split; vm_compute; done.
  - exact I.
  - reflexivity.
  - repeat constructor; vm_compute; done.
  - split; [exact H1|split; [exact H2|exact H3]].
Defined.

(** What waits is not in the file until the stream writes it. *)
Example buffered_until_flushed :
  let '(fs, s) := new_sink (at_ms 0) (with_rotation (with_file default_file_config (B "logs/app.log")) false false 0) empty_fs in
  let '(fs, s) := process light spill16 (at_ms 1) (sample_event Info (B "one")) fs s in
  (content fs (key (file_path_ s)), pending_ s) = ([], B "INF one" ++ [nl]) /\
  content (flush fs s).1 (key (file_path_ s)) = B "INF one" ++ [nl].
Proof. vm_compute. done. Qed.

(** ** Failures *)

Lemma inserted_base spill text fs s :
  let '(fs', s') := stream_insert spill text fs s in base s' = base s /\ config_ s' = config_ s.
Proof. unfold stream_insert. destruct (_ || _); [done|]. by destruct (write_out _ _ _). Qed.

Lemma flushed_base (b : bool) fs s :
  let '(fs', s') := if b then stream_flush fs s else (fs, s) in base s' = base s /\ config_ s' = config_ s.
Proof. destruct b; [|done]. unfold stream_flush. destruct (_ || _); [done|]. by destruct (write_out _ _ _). Qed.

Lemma write_all_failure format spill ck batch fs s fs' s' written :
  clocks_ok ck -> base_ok (base s) -> get_status (base s) <> Dead -> write_all format spill ck batch fs s = (fs', s', written) ->
  base_ok (base s') /\ (get_status (base s') = Dead <-> from_failure format s batch <> []) /\
  (written = false <-> from_failure format s batch <> []) /\
  (from_failure format s batch = [] -> undelivered_ (base s') = undelivered_ (base s)) /\
  u64 (undelivered_ (base s')) = u64 (undelivered_ (base s) + Z.of_nat (length (from_failure format s batch))).
Proof.
  intros Hc. revert fs s. induction batch as [|e batch IH]; intros fs s Hb Ha E; cbn [write_all from_failure] in *.
  - injection E as <- <- <-. split_and!; [done|done|done|done|by rewrite Z.add_0_r].
  - unfold write_guarded in E. destruct (should_log s (level e) (inline_view (prefix e))); cbn [negb] in E; [|by eapply IH].
    destruct (format e) as [text|what].
    + pose proof (inserted_base spill text fs s) as HI. destruct (stream_insert spill text fs s) as [fs1 s1]. destruct HI as [HB HK].
      pose proof (flushed_base (flush_each_entry_ (config_ (count_written (length text) s1))) fs1 (count_written (length text) s1)) as HF.
      destruct (if flush_each_entry_ _ then _ else _) as [fs2 s2]. cbn [negb] in E.
      assert (B2 : base s2 = base s /\ config_ s2 = config_ s) by (destruct HF as [-> ->]; by split).
      destruct B2 as [B2 K2]. rewrite <- B2 in Hb, Ha |- *. apply IH in E; [|done|done].
      by rewrite (proj2 (batch_config format s s2 batch K2)) in E.
    + set (reason := default _ what) in E. clearbody reason. cbn [negb] in E. injection E as <- <- <-.
      destruct (fail_spec ck Dead reason s Hc I Hb) as (H1 & H2 & _ & H4).
      split_and!; [done|by split|by split|done|]. cbn [add_lost base set_base add_undelivered undelivered_]. rewrite H4.
      unfold u64. by rewrite Z.mod_mod.
Qed.

(** Opening files never touches the undelivered count. *)
Lemma open_stream_undelivered ck p st fs s : undelivered_ (base (open_stream ck p st fs s).2) = undelivered_ (base s).
Proof.
  unfold open_stream. destruct (if bool_decide _ then _ else _); [destruct (open_append _ _)|]; try done.
  unfold close_stream, stream_flush. destruct (stream_open s); [|done]. destruct (_ || _); [done|]. by destruct (write_out _ _ _).
Qed.

Lemma rotate_if_needed_undelivered ck fs s : undelivered_ (base (rotate_if_needed ck fs s).2) = undelivered_ (base s).
Proof.
  unfold rotate_if_needed, rotate_now. destruct (bool_decide _ && _); [done|]. destruct (negb _ || _); [done|].
  case_bool_decide; [done|]. apply open_stream_undelivered.
Qed.

(** A batch is accounted for on every path, whatever the file system does: a dead sink
    counts all of it; a sink whose formatting throws dies and counts that event and every
    one after it; otherwise nothing is counted. *)
Theorem batch_accounted format spill ck batch fs s :
  clocks_ok ck -> base_ok (base s) ->
  let '(fs', s') := process_batch format spill ck batch fs s in
  let missed := if bool_decide (get_status (base s) = Dead) then batch else from_failure format s batch in
  u64 (undelivered_ (base s')) = u64 (undelivered_ (base s) + Z.of_nat (length missed)) /\
  (missed <> [] -> get_status (base s') = Dead).
Proof.
  intros Hc Hb. unfold process_batch. case_bool_decide as Hd.
  - split; [|done]. cbn. unfold u64. by rewrite Z.mod_mod.
  - destruct (write_all format spill ck batch fs s) as [[fs1 s1] written] eqn:E.
    destruct (write_all_failure _ _ _ _ _ _ _ _ _ Hc Hb Hd E) as (H1 & H2 & H3 & H4 & H5). destruct written; cbn [negb].
    + assert (HN : from_failure format s batch = []) by (destruct (from_failure format s batch); [done|by destruct H3 as [_ H3]; specialize (H3 ltac:(done))]).
      pose proof (rotate_if_needed_undelivered ck fs1 s1) as HU. destruct (rotate_if_needed ck fs1 s1) as [fs' s'].
      cbn [snd] in HU. rewrite HN in *. split; [by rewrite HU, H4, Z.add_0_r|done].
    + split; [done|by apply H2].
Qed.

(** A dead sink recovers in the first maintenance pass after its deadline in which its file can be opened. *)
Lemma maintain_recovers ck fs s p fs1 fs2 :
  base_ok (base s) -> get_status (base s) = Dead -> retry_at_ms (dispatch_hint (base s)) <= now_ms ck ->
  initial_path fs (current_time ck) (config_ s) = (p, None) -> Path.parent_path p <> [] ->
  create_directories fs (Path.parent_path p) = Ok fs1 -> open_append fs1 p = Some fs2 ->
  let '(fs', s') := maintain ck fs s in
  fs' = (close_stream fs2 s).1 /\ get_status (base s') = Healthy /\ consecutive_failures (base s') = 0 /\ file_path_ s' = p.
Proof.
  intros Hb Hd Hr Hp Hne H1 H2. unfold maintain, retry_due. rewrite (proj2 (Z.leb_le _ _)) by done. cbn [negb].
  unfold force_maintain. rewrite bool_decide_eq_true_2 by done. unfold open_from_config. rewrite Hp. unfold open_stream.
  rewrite bool_decide_eq_false_2, H1, H2 by done.
  assert (HB : base (close_stream fs2 s).2 = base s).
  { unfold close_stream. destruct (stream_open s); [|done]. pose proof (flushed_base true fs2 s) as HF.
    destruct (stream_flush fs2 s) as [fs3 s1]. by destruct HF. }
  destruct (close_stream fs2 s) as [fs3 s1]. cbn [fst snd] in *. split_and!; try done. apply adopt_spec. by rewrite HB.
Qed.

(** ** Deviations *)

(** A directory bearing the name of the next index blocks start-up for good when the highest
    file is full: every retry resolves to that directory again. *)
Definition blocked_fs : FS :=
  {| tree := {[ B "logs" := {[ B "app.log" := Regular (B "full file"); B "app_1.log" := Directory ]} ]};
     scan_fault := ∅; mkdir_fault := ∅; denied := ∅; full := ∅ |}.

Example blocked_start_up :
  let '(fs, s) := new_sink (at_ms 0) sample_config blocked_fs in
  get_status (base s) = Dead /\ last_error_ (base s) = B "open logs/app_1.log failed" /\
  let '(fs, s) := force_maintain (at_ms 100000) fs s in
  get_status (base s) = Dead /\ last_error_ (base s) = B "open logs/app_1.log failed".
Proof. vm_compute. done. Qed.

(** A device that refuses the bytes is not noticed: the sink stays healthy, counts nothing as
    undelivered, and its byte count runs ahead of the file. *)
Definition full_fs : FS :=
  {| tree := ∅; scan_fault := ∅; mkdir_fault := ∅; denied := ∅; full := {[ (B "logs", B "app.log") ]} |}.

Example full_device_unnoticed :
  let '(fs, s) := new_sink (at_ms 0) sample_config full_fs in
  let '(fs, s) := process_batch light spill16 (at_ms 1) [sample_event Info []] fs s in
  let '(fs, s) := flush fs s in
  get_status (base s) = Healthy /\ undelivered_ (base s) = 0 /\ bytes_written_ s = 5 /\ pending_ s = [] /\
  content fs (B "logs", B "app.log") = [].
Proof. vm_compute. done. Qed.

(** A sink that dies while writing keeps the path of its last file. *)
Example dead_sink_keeps_path :
  let '(fs, s) := new_sink (at_ms 0) sample_config empty_fs in
  let '(fs, s) := process_batch (fun _ => Err None) spill16 (at_ms 1) [sample_event Info []] fs s in
  get_status (base s) = Dead /\ file_path_ s = B "logs/app.log".
Proof. vm_compute. done. Qed.
