(* ===== verification/Logger.v ===== *)
(** * logger-crow: the logger

    [Logger] (logger/): the registry of sinks with its version counter, the gate that drops
    events before they are formatted, the consumer loop that moves events from the ring to the
    sinks' strands, the janitor's sweep and the shutdown sequence. Producers, the threads
    that register sinks, the consumer, the strands and the thread that shuts down run
    interleaved: the step relation has one step per critical section or atomic access. The
    ring is the disruptor of Disruptor.v seen through its contract: slots are claimed in
    sequence, published in any order, and read by the consumer in sequence once published. A
    claim that would wait for room is a step that is not enabled yet. One thread calls
    [shutdown]; a second caller would return at its test of [running_] while the first is still
    draining, and is not modelled. *)

From S2P Require Import Prelude SqlText LogSink.

#[local] Open Scope Z_scope.

(** ** [LoggerConfig] *)
Inductive WaitStrategy := BusySpin | Yielding | Blocking | StrategyValue (v : Z).

(** [create_wait_strategy]: values without a name get the default. *)
Definition create_wait_strategy (s : WaitStrategy) : WaitStrategy :=
  match s with BusySpin => BusySpin | Blocking => Blocking | Yielding | StrategyValue _ => Yielding end.

Record LoggerConfig := {
  ring_buffer_size : Z;
  pool_size : Z;
  wait_strategy : WaitStrategy;
  health_check_interval : Z
}.

Definition default_logger_config : LoggerConfig :=
  {| ring_buffer_size := 8192; pool_size := 2; wait_strategy := Yielding; health_check_interval := 1000 |}.

(** [std::popcount] *)
Fixpoint popcount_pos (p : positive) : nat :=
  match p with xH => 1 | xO p => popcount_pos p | xI p => S (popcount_pos p) end.
Definition popcount (z : Z) : nat := match z with Z.pos p => popcount_pos p | _ => 0 end.

Definition validate (c : LoggerConfig) : result exn unit :=
  if negb (popcount (ring_buffer_size c) =? 1)%nat then Err (InvalidArgument (B "Ring buffer size must be a power of 2"))
  else Ok tt.

(** ** The registry and the gate *)

(** A sink object is known by its identity; [strand] is the one made for this registration. *)
Record SinkSlot := { sink : nat; strand : nat }.
Abbreviation SinkTable := (list SinkSlot).

Abbreviation Sinks := (gmap nat SinkBase).
Definition base_of (sinks : Sinks) (id : nat) : SinkBase := default new_base (sinks !! id).
Definition hint_of (sinks : Sinks) (id : nat) : DispatchHint := dispatch_hint (base_of sinks id).

Definition publish_gate (sinks : Sinks) (table : SinkTable) : Z :=
  fold_left (fun g slot => Z.min g (level_code (threshold (hint_of sinks (sink slot))))) table drop_all_threshold.

Definition passes_gate (gate : Z) (lvl : LogLevel) : bool := gate <=? level_code lvl.

(** [remove_sink]: the first slot of that sink, found by identity. *)
Fixpoint erase_sink (id : nat) (table : SinkTable) : option SinkTable :=
  match table with
  | [] => None
  | slot :: rest => if (sink slot =? id)%nat then Some rest else (slot ::.) <$> erase_sink id rest
  end.

(** ** Producing *)

(** [apply_meta] and the rest of [publish_event]: the event a slot holds when it is published.
    The message was swapped in; the prefix is truncated to its capacity. *)
Definition make_event (lvl : LogLevel) (prefix_text msg : bytes) (loc : source_location) (time tid : Z) (pid : Z) : LogEvent :=
  {| level := lvl; prefix := inline_assign (inline_string 31) prefix_text; message := msg; location := loc;
     time_point := time; LogSink.tid := Z.to_N tid; LogSink.pid := pid; shutdown_signal := false |}.

(** [log]: nothing below the gate; otherwise one event. *)
Definition log (gate : Z) (lvl : LogLevel) (prefix_text msg : bytes) (loc : source_location) (time tid pid : Z) : option LogEvent :=
  if negb (passes_gate gate lvl) then None else Some (make_event lvl prefix_text msg loc time tid pid).

(** [stream]: the proxy keeps the level and the truncated prefix, collects what is inserted, and
    publishes it when it is destroyed; a gated-out proxy has no logger and publishes nothing. *)
Definition stream (gate : Z) (lvl : LogLevel) (prefix_text : bytes) (inserted : list bytes) (loc : source_location) (time tid pid : Z) : option LogEvent :=
  let prefix_ := inline_assign (inline_string 31) prefix_text in
  if passes_gate gate lvl then Some (make_event lvl (inline_view prefix_) (concat inserted) loc time tid pid) else None.

(** ** Consuming *)

(** The collecting loop over the published slots: the batch, its highest level, how many
    slots were consumed, and whether the shutdown sentinel stopped it. *)
Fixpoint collect (published : list LogEvent) (max_lvl : LogLevel) : list LogEvent * LogLevel * nat * bool :=
  match published with
  | [] => ([], max_lvl, 0%nat, false)
  | e :: rest =>
      if shutdown_signal e then ([], max_lvl, 1%nat, true)
      else
        let max_lvl := if level_code max_lvl <? level_code (level e) then level e else max_lvl in
        let '(batch, m, n, stop) := collect rest max_lvl in (e :: batch, m, S n, stop)
  end.

(** What the dispatch loop does with one sink. *)
Inductive decision := Post | SkipLevel | SkipDead.

#[export] Instance decision_eq_dec : EqDecision decision.
Proof. solve_decision. Defined.

Definition decide_dispatch (hint : DispatchHint) (max_lvl : LogLevel) : decision :=
  if level_code max_lvl <? level_code (threshold hint) then SkipLevel
  else if bool_decide (status hint = Dead) then SkipDead
  else Post.

(** Work posted to a strand. *)
Inductive task := ProcessBatch (batch : list LogEvent) | Flush | Maintain | FinalFlush.

Abbreviation Strands := (gmap nat (list task)).
Definition queue (strands : Strands) (k : nat) : list task := default [] (strands !! k).
Definition post (k : nat) (t : task) (strands : Strands) : Strands := <[k := queue strands k ++ [t]]> strands.

(** ** The janitor *)
Record PendingTransition := { pt_sink : nat; pt_from : SinkStatus; pt_to : SinkStatus; pt_reason : bytes; pt_undelivered : Z }.

Definition set_reported (st : SinkStatus) (b : SinkBase) : SinkBase :=
  {| dispatch_word := dispatch_word b; undelivered_ := undelivered_ b; consecutive_failures := consecutive_failures b;
     last_error_ := last_error_ b; reported_status := st |}.

Fixpoint report_transitions (table : SinkTable) (sinks : Sinks) : Sinks * list PendingTransition :=
  match table with
  | [] => (sinks, [])
  | slot :: rest =>
      let b := base_of sinks (sink slot) in
      let st := get_status b in
      if bool_decide (reported_status b = st) then report_transitions rest sinks
      else
        let '(sinks', ts) := report_transitions rest (<[sink slot := set_reported st b]> sinks) in
        (sinks', {| pt_sink := sink slot; pt_from := reported_status b; pt_to := st; pt_reason := last_error b;
                    pt_undelivered := undelivered b |} :: ts)
  end.

(** The slots whose sink is asked to recover: every sink that is not healthy and whose deadline has passed. *)
Definition due_for_maintenance (sinks : Sinks) (now_ms : Z) (slot : SinkSlot) : bool :=
  negb (bool_decide (status (hint_of sinks (sink slot)) = Healthy)) && retry_due (hint_of sinks (sink slot)) now_ms.

(** [sink_report]: the health of every registered sink. *)
Record SinkReport := { sr_sink : nat; sr_status : SinkStatus; sr_undelivered : Z; sr_last_error : bytes }.

Definition sink_report (sinks : Sinks) (table : SinkTable) : list SinkReport :=
  (fun slot => let b := base_of sinks (sink slot) in
               {| sr_sink := sink slot; sr_status := get_status b; sr_undelivered := undelivered b; sr_last_error := last_error b |}) <$> table.

(** [default_error_report]: the message, and where it goes. [address] renders the sink's pointer. *)
Definition report_message (address : nat -> bytes) (t : PendingTransition) : bytes :=
  B "sink " ++ address (pt_sink t) ++ B " " ++ status_to_string (pt_from t) ++ B " -> " ++ status_to_string (pt_to t) ++
  B ": " ++ (if bool_decide (pt_reason t = []) then B "no reason recorded" else pt_reason t) ++
  B " (" ++ to_decimal (Z.to_N (pt_undelivered t)) ++ B " events undelivered)".

(** [should_log] is the sink's virtual filter. *)
Definition covered (should_log : nat -> LogLevel -> bytes -> bool) (sinks : Sinks) (table : SinkTable) : bool :=
  existsb (fun slot => negb (bool_decide (get_status (base_of sinks (sink slot)) = Dead)) &&
                       should_log (sink slot) Error (B "crow")) table.

Inductive report := Relogged (e : LogEvent) | ToStderr (text : bytes).

Definition default_error_report (address : nat -> bytes) (should_log : nat -> LogLevel -> bytes -> bool)
  (loc : source_location) (time tid pid : Z) (sinks : Sinks) (table : SinkTable) (t : PendingTransition) : report :=
  let message := report_message address t in
  if covered should_log sinks table then Relogged (make_event Error (B "crow") message loc time tid pid)
  else ToStderr (B "[crow] " ++ message).

(** ** The system *)

(** A ring slot: claimed by a producer, claimed for the sentinel, or published. *)
Inductive slot_state := Claimed | ClaimedStop | Published (e : LogEvent).

(** The consumer's program counter: before its first version read and its first snapshot; at the top of
    the loop; with a batch, before the version check, before a new snapshot, and in the dispatch loop. *)
Inductive consumer_pc :=
| CInit
| CFirstSnapshot
| CLoop
| CCheck (batch : list LogEvent) (max_lvl : LogLevel)
| CSnapshot (batch : list LogEvent) (max_lvl : LogLevel) (v : Z)
| CDispatch (batch : list LogEvent) (max_lvl : LogLevel) (todo : SinkTable)
| CExit.

(** [shutdown]: the sentinel claimed, published, the consumer joined, the last flushes posted and awaited. *)
Inductive shutdown_pc := SIdle | SClaimed (seq : nat) | SJoin | SPost (todo : SinkTable) | SWait | SDone.

(** The registry: what [registry_mutex_] and the two atomics guard. [unbumped] counts the
    threads that have left the locked section and not yet advanced the version. [commits] and
    [bumps] are history: every table there was, and how often the version was advanced;
    [stale] says whether a threshold changed since the gate was last published. *)
Record registry := {
  table : SinkTable;
  next_strand : nat;
  version : Z;
  unbumped : nat;
  gate : Z;
  sinks : Sinks;
  commits : list SinkTable;
  bumps : nat;
  stale : bool
}.

(** The consumer's locals. [read_bumps] and [seen] are history: how far the version had come
    when it was read, and how many commits there were when the table was copied. *)
Record consumer := {
  pc : consumer_pc;
  next_seq : nat;
  cached_version : Z;
  cached_table : SinkTable;
  read_bumps : nat;
  seen : nat
}.

(** A verdict of the dispatch loop, as it happened. *)
Record verdict := { v_strand : nat; v_batch : list LogEvent; v_max : LogLevel; v_hint : DispatchHint }.
Definition v_decision (v : verdict) : decision := decide_dispatch (v_hint v) (v_max v).

(** The strands' queues and what they have run. *)
Record work := { strands : Strands; delivered : gmap nat (list LogEvent); dispatched : list (SinkTable * list LogEvent); verdicts : list verdict }.

(** [drained] is the snapshot [shutdown] took; [waiting] names the strands whose last flush has not run. *)
Record stopper := { running : bool; stopping : shutdown_pc; remaining : nat; drained : SinkTable; waiting : list nat }.

Record state := { capacity : nat; ring : list slot_state; reg : registry; con : consumer; wrk : work; stp : stopper }.

(** *** Registry operations *)
Definition commit (r : registry) (t : SinkTable) (strands_made : nat) : registry :=
  {| table := t; next_strand := next_strand r + strands_made; version := version r; unbumped := S (unbumped r);
     gate := publish_gate (sinks r) t; sinks := sinks r; commits := commits r ++ [t]; bumps := bumps r; stale := false |}.

(** The locked section of [add_sink]: the new slot has a strand of its own. *)
Definition add_sink (id : nat) (r : registry) : registry :=
  commit r (table r ++ [{| sink := id; strand := next_strand r |}]) 1.

(** The locked section of [remove_sink]. *)
Definition remove_sink (id : nat) (r : registry) : option registry := (fun t => commit r t 0) <$> erase_sink id (table r).

(** [registry_version_.fetch_add(1)] *)
Definition bump (r : registry) : registry :=
  {| table := table r; next_strand := next_strand r; version := u32 (version r + 1); unbumped := unbumped r - 1;
     gate := gate r; sinks := sinks r; commits := commits r; bumps := S (bumps r); stale := stale r |}.

Definition republish_gate_from_registry (r : registry) : registry :=
  {| table := table r; next_strand := next_strand r; version := version r; unbumped := unbumped r;
     gate := publish_gate (sinks r) (table r); sinks := sinks r; commits := commits r; bumps := bumps r; stale := false |}.

Definition set_sinks (r : registry) (ss : Sinks) (changed : bool) : registry :=
  {| table := table r; next_strand := next_strand r; version := version r; unbumped := unbumped r; gate := gate r;
     sinks := ss; commits := commits r; bumps := bumps r; stale := stale r || changed |}.

(** The rest of [sweep_once], from its own snapshot: the transitions to report and the slots to
    maintain. *)
Definition sweep_report (now_ms : Z) (r : registry) : registry * list PendingTransition * list SinkSlot :=
  let '(ss, transitions) := report_transitions (table r) (sinks r) in
  (set_sinks r ss false, transitions, List.filter (due_for_maintenance ss now_ms) (table r)).

(** [sweep_once] when nothing else runs. *)
Definition sweep_once (now_ms : Z) (r : registry) : registry * list PendingTransition * list SinkSlot :=
  sweep_report now_ms (republish_gate_from_registry r).

(** *** Steps *)
Definition set_pc (c : consumer) (p : consumer_pc) : consumer :=
  {| pc := p; next_seq := next_seq c; cached_version := cached_version c; cached_table := cached_table c;
     read_bumps := read_bumps c; seen := seen c |}.

Definition set_work (w : work) (ss : Strands) (d : gmap nat (list LogEvent)) : work :=
  {| strands := ss; delivered := d; dispatched := dispatched w; verdicts := verdicts w |}.

Definition events_in (q : list task) : list LogEvent :=
  concat ((fun t => match t with ProcessBatch b => b | _ => [] end) <$> q).

Definition processed (w : work) (k : nat) : list LogEvent := default [] (delivered w !! k).

Definition post_all (slots : list SinkSlot) (t : task) (ss : Strands) : Strands :=
  fold_left (fun ss slot => post (strand slot) t ss) slots ss.

Definition set_stopping (x : stopper) (p : shutdown_pc) : stopper :=
  {| running := running x; stopping := p; remaining := remaining x; drained := drained x; waiting := waiting x |}.

Inductive step : state -> state -> Prop :=
(** A producer claims the next slot while the ring has room, and publishes its event. *)
| Claim cap rg r c w x :
    (length rg < next_seq c + cap)%nat ->
    step {| capacity := cap; ring := rg; reg := r; con := c; wrk := w; stp := x |}
         {| capacity := cap; ring := rg ++ [Claimed]; reg := r; con := c; wrk := w; stp := x |}
| Publish cap rg r c w x i e :
    rg !! i = Some Claimed -> shutdown_signal e = false ->
    step {| capacity := cap; ring := rg; reg := r; con := c; wrk := w; stp := x |}
         {| capacity := cap; ring := <[i := Published e]> rg; reg := r; con := c; wrk := w; stp := x |}
(** Registration, the version, the janitor. *)
| AddSink cap rg r c w x id :
    step {| capacity := cap; ring := rg; reg := r; con := c; wrk := w; stp := x |}
         {| capacity := cap; ring := rg; reg := add_sink id r; con := c; wrk := w; stp := x |}
| RemoveSink cap rg r c w x id r' :
    remove_sink id r = Some r' ->
    step {| capacity := cap; ring := rg; reg := r; con := c; wrk := w; stp := x |}
         {| capacity := cap; ring := rg; reg := r'; con := c; wrk := w; stp := x |}
| Bump cap rg r c w x :
    (0 < unbumped r)%nat ->
    step {| capacity := cap; ring := rg; reg := r; con := c; wrk := w; stp := x |}
         {| capacity := cap; ring := rg; reg := bump r; con := c; wrk := w; stp := x |}
| Republish cap rg r c w x :
    step {| capacity := cap; ring := rg; reg := r; con := c; wrk := w; stp := x |}
         {| capacity := cap; ring := rg; reg := republish_gate_from_registry r; con := c; wrk := w; stp := x |}
| Report cap rg r c w x now_ms r' ts due :
    sweep_report now_ms r = (r', ts, due) ->
    step {| capacity := cap; ring := rg; reg := r; con := c; wrk := w; stp := x |}
         {| capacity := cap; ring := rg; reg := r'; con := c;
            wrk := set_work w (post_all due Maintain (strands w)) (delivered w); stp := x |}
(** A sink changes its own state; a new threshold makes the gate stale. *)
| SinkChange cap rg r c w x id b :
    step {| capacity := cap; ring := rg; reg := r; con := c; wrk := w; stp := x |}
         {| capacity := cap; ring := rg;
            reg := set_sinks r (<[id := b]> (sinks r))
                     (negb (bool_decide (threshold (dispatch_hint b) = threshold (hint_of (sinks r) id))));
            con := c; wrk := w; stp := x |}
(** The consumer. *)
| ReadVersion cap rg r c w x :
    pc c = CInit ->
    step {| capacity := cap; ring := rg; reg := r; con := c; wrk := w; stp := x |}
         {| capacity := cap; ring := rg; reg := r;
            con := {| pc := CFirstSnapshot; next_seq := 0; cached_version := version r; cached_table := []; read_bumps := bumps r; seen := 0 |};
            wrk := w; stp := x |}
| FirstSnapshot cap rg r c w x :
    pc c = CFirstSnapshot ->
    step {| capacity := cap; ring := rg; reg := r; con := c; wrk := w; stp := x |}
         {| capacity := cap; ring := rg; reg := r;
            con := {| pc := CLoop; next_seq := next_seq c; cached_version := cached_version c; cached_table := table r;
                      read_bumps := read_bumps c; seen := length (commits r) |};
            wrk := w; stp := x |}
| Collect cap rg r c w x es batch max_lvl n stop :
    pc c = CLoop -> running x = true -> es <> [] ->
    take (length es) (drop (next_seq c) rg) = Published <$> es ->
    collect es Trace = (batch, max_lvl, n, stop) ->
    step {| capacity := cap; ring := rg; reg := r; con := c; wrk := w; stp := x |}
         {| capacity := cap; ring := rg; reg := r;
            con := {| pc := match batch with [] => CLoop | _ => CCheck batch max_lvl end; next_seq := next_seq c + n;
                      cached_version := cached_version c; cached_table := cached_table c; read_bumps := read_bumps c; seen := seen c |};
            wrk := w;
            stp := {| running := negb stop; stopping := stopping x; remaining := remaining x; drained := drained x; waiting := waiting x |} |}
| VersionSame cap rg r c w x batch max_lvl :
    pc c = CCheck batch max_lvl -> version r = cached_version c ->
    step {| capacity := cap; ring := rg; reg := r; con := c; wrk := w; stp := x |}
         {| capacity := cap; ring := rg; reg := r; con := set_pc c (CDispatch batch max_lvl (cached_table c));
            wrk := {| strands := strands w; delivered := delivered w; dispatched := dispatched w ++ [(cached_table c, batch)]; verdicts := verdicts w |};
            stp := x |}
| VersionChanged cap rg r c w x batch max_lvl :
    pc c = CCheck batch max_lvl -> version r <> cached_version c ->
    step {| capacity := cap; ring := rg; reg := r; con := c; wrk := w; stp := x |}
         {| capacity := cap; ring := rg; reg := r;
            con := {| pc := CSnapshot batch max_lvl (version r); next_seq := next_seq c; cached_version := cached_version c;
                      cached_table := cached_table c; read_bumps := bumps r; seen := seen c |};
            wrk := w; stp := x |}
| Resnapshot cap rg r c w x batch max_lvl v :
    pc c = CSnapshot batch max_lvl v ->
    step {| capacity := cap; ring := rg; reg := r; con := c; wrk := w; stp := x |}
         {| capacity := cap; ring := rg; reg := r;
            con := {| pc := CDispatch batch max_lvl (table r); next_seq := next_seq c; cached_version := v;
                      cached_table := table r; read_bumps := read_bumps c; seen := length (commits r) |};
            wrk := {| strands := strands w; delivered := delivered w; dispatched := dispatched w ++ [(table r, batch)]; verdicts := verdicts w |};
            stp := x |}
| DispatchOne cap rg r c w x batch max_lvl slot todo :
    pc c = CDispatch batch max_lvl (slot :: todo) ->
    let hint := hint_of (sinks r) (sink slot) in
    step {| capacity := cap; ring := rg; reg := r; con := c; wrk := w; stp := x |}
         {| capacity := cap; ring := rg;
            reg := match decide_dispatch hint max_lvl with
                   | SkipDead => set_sinks r (<[sink slot := add_undelivered (Z.of_nat (length batch)) (base_of (sinks r) (sink slot))]> (sinks r)) false
                   | _ => r
                   end;
            con := set_pc c (CDispatch batch max_lvl todo);
            wrk := {| strands := match decide_dispatch hint max_lvl with
                                 | Post => post (strand slot) (ProcessBatch batch) (strands w)
                                 | _ => strands w
                                 end;
                      delivered := delivered w; dispatched := dispatched w;
                      verdicts := verdicts w ++ [{| v_strand := strand slot; v_batch := batch; v_max := max_lvl; v_hint := hint |}] |};
            stp := x |}
| DispatchEnd cap rg r c w x batch max_lvl :
    pc c = CDispatch batch max_lvl [] ->
    step {| capacity := cap; ring := rg; reg := r; con := c; wrk := w; stp := x |}
         {| capacity := cap; ring := rg; reg := r; con := set_pc c CLoop; wrk := w; stp := x |}
| Leave cap rg r c w x :
    pc c = CLoop -> running x = false ->
    step {| capacity := cap; ring := rg; reg := r; con := c; wrk := w; stp := x |}
         {| capacity := cap; ring := rg; reg := r; con := set_pc c CExit; wrk := w; stp := x |}
(** A strand runs the oldest task of its queue; callers may ask every sink to flush. *)
| RunTask cap rg r c w x k t q :
    queue (strands w) k = t :: q ->
    step {| capacity := cap; ring := rg; reg := r; con := c; wrk := w; stp := x |}
         {| capacity := cap; ring := rg; reg := r; con := c;
            wrk := set_work w (<[k := q]> (strands w)) (<[k := processed w k ++ events_in [t]]> (delivered w));
            stp := match t with
                   | FinalFlush => {| running := running x; stopping := stopping x; remaining := remaining x - 1; drained := drained x;
                                      waiting := remove_one k (waiting x) |}
                   | _ => x
                   end |}
| FlushAll cap rg r c w x :
    step {| capacity := cap; ring := rg; reg := r; con := c; wrk := w; stp := x |}
         {| capacity := cap; ring := rg; reg := r; con := c;
            wrk := set_work w (post_all (table r) Flush (strands w)) (delivered w); stp := x |}
(** The thread that calls [shutdown]. *)
| StopClaim cap rg r c w x :
    stopping x = SIdle -> running x = true -> (length rg < next_seq c + cap)%nat ->
    step {| capacity := cap; ring := rg; reg := r; con := c; wrk := w; stp := x |}
         {| capacity := cap; ring := rg ++ [ClaimedStop]; reg := r; con := c; wrk := w; stp := set_stopping x (SClaimed (length rg)) |}
| StopPublish cap rg r c w x i e :
    stopping x = SClaimed i -> shutdown_signal e = true ->
    step {| capacity := cap; ring := rg; reg := r; con := c; wrk := w; stp := x |}
         {| capacity := cap; ring := <[i := Published e]> rg; reg := r; con := c; wrk := w; stp := set_stopping x SJoin |}
| StopJoin cap rg r c w x :
    stopping x = SJoin -> pc c = CExit ->
    step {| capacity := cap; ring := rg; reg := r; con := c; wrk := w; stp := x |}
         {| capacity := cap; ring := rg; reg := r; con := c; wrk := w;
            stp := {| running := running x; stopping := SPost (table r); remaining := length (table r); drained := table r;
                      waiting := strand <$> table r |} |}
| StopPost cap rg r c w x slot todo :
    stopping x = SPost (slot :: todo) ->
    step {| capacity := cap; ring := rg; reg := r; con := c; wrk := w; stp := x |}
         {| capacity := cap; ring := rg; reg := r; con := c;
            wrk := set_work w (post (strand slot) FinalFlush (strands w)) (delivered w);
            stp := set_stopping x (SPost todo) |}
| StopWait cap rg r c w x :
    stopping x = SPost [] ->
    step {| capacity := cap; ring := rg; reg := r; con := c; wrk := w; stp := x |}
         {| capacity := cap; ring := rg; reg := r; con := c; wrk := w; stp := set_stopping x SWait |}
| StopDone cap rg r c w x :
    stopping x = SWait -> remaining x = 0%nat ->
    step {| capacity := cap; ring := rg; reg := r; con := c; wrk := w; stp := x |}
         {| capacity := cap; ring := rg; reg := r; con := c; wrk := w; stp := set_stopping x SDone |}.

(** A logger as constructed: no sinks, an empty ring, the consumer about to start. *)
Definition start (cap : nat) (ss : Sinks) : state :=
  {| capacity := cap; ring := [];
     reg := {| table := []; next_strand := 0; version := 0; unbumped := 0; gate := drop_all_threshold; sinks := ss;
               commits := []; bumps := 0; stale := false |};
     con := {| pc := CInit; next_seq := 0; cached_version := 0; cached_table := []; read_bumps := 0; seen := 0 |};
     wrk := {| strands := ∅; delivered := ∅; dispatched := []; verdicts := [] |};
     stp := {| running := true; stopping := SIdle; remaining := 0; drained := []; waiting := [] |} |}.

Definition reachable (cap : nat) (ss : Sinks) (s : state) : Prop := rtc step (start cap ss) s.

(** ** Producers *)
Lemma assigned_prefix text : inline_view (inline_assign (inline_string 31) text) = take 31 text.
Proof.
  unfold inline_view, inline_assign. cbn [size_ data_]. rewrite take_insert_ge by lia.
  destruct (write_at_spec (data_ (inline_string 31)) 0 (take (Nat.min (length text) 31) text)) as (_ & H & _).
  { rewrite length_take. cbn. lia. }
  rewrite length_take in H. replace (0 + Nat.min (Nat.min (length text) 31) (length text))%nat with (Nat.min (length text) 31) in H by lia.
  rewrite H, take_0, app_nil_l. destruct (Nat.min_spec (length text) 31) as [[Hl ->]|[Hl ->]]; [|done]. by rewrite !take_ge by lia.
Qed.

(** Logging through a stream publishes what logging the collected text would. *)
Lemma stream_as_log gate lvl text inserted loc time tid pid :
  stream gate lvl text inserted loc time tid pid = log gate lvl text (concat inserted) loc time tid pid.
Proof.
  unfold stream, log. destruct (passes_gate gate lvl); [|done]. cbn [negb]. unfold make_event. do 2 f_equal.
  rewrite assigned_prefix. unfold inline_assign. rewrite length_take. replace (Nat.min (Nat.min 31 (length text)) 31) with (Nat.min (length text) 31) by lia.
  rewrite take_take. by replace (Nat.min (Nat.min (length text) 31) 31) with (Nat.min (length text) 31) by lia.
Qed.

(** ** The registry *)

(** The table after [j] commits. *)
Definition table_at (commits : list SinkTable) (j : nat) : SinkTable := default [] (last (take j commits)).

Record reg_inv (r : registry) : Prop := {
  r_table : table r = table_at (commits r) (length (commits r));
  r_version : version r = u32 (Z.of_nat (bumps r));
  r_commits : length (commits r) = (bumps r + unbumped r)%nat;
  r_gate : stale r = false -> gate r = publish_gate (sinks r) (table r);
  r_strands : NoDup (strand <$> table r) /\ Forall (fun k => k < next_strand r)%nat (strand <$> table r)
}.

Lemma table_at_full commits t : table_at (commits ++ [t]) (length (commits ++ [t])) = t.
Proof. unfold table_at. by rewrite firstn_all, last_snoc. Qed.

Lemma table_at_prefix commits t j : (j <= length commits)%nat -> table_at (commits ++ [t]) j = table_at commits j.
Proof. intros H. unfold table_at. by rewrite take_app_le. Qed.

Lemma commit_inv r t n :
  reg_inv r -> NoDup (strand <$> t) -> Forall (fun k => k < next_strand r + n)%nat (strand <$> t) -> reg_inv (commit r t n).
Proof.
  intros [H1 H2 H3 H4 H5] HN HF. split; cbn.
  - by rewrite table_at_full.
  - done.
  - rewrite length_app. simpl. lia.
  - done.
  - done.
Qed.

Lemma add_sink_inv id r : reg_inv r -> reg_inv (add_sink id r).
Proof.
  intros H. destruct (r_strands r H) as [HN HF]. apply commit_inv; [done|..].
  - rewrite fmap_app, NoDup_app. split_and!; [done| |apply NoDup_singleton]. intros k Hk. rewrite Forall_forall in HF.
    specialize (HF k Hk). cbn. rewrite list_elem_of_singleton. lia.
  - rewrite fmap_app, Forall_app. split; [eapply Forall_impl; [exact HF|intros; cbn in *; lia]|]. repeat constructor. cbn. lia.
Qed.

Lemma erase_sink_spec id t t' : erase_sink id t = Some t' -> exists a slot b, t = a ++ slot :: b /\ sink slot = id /\ t' = a ++ b.
Proof.
  revert t'. induction t as [|slot t IH]; intros t'; cbn; [done|]. destruct (Nat.eqb_spec (sink slot) id).
  - intros [= <-]. by exists [], slot, t.
  - destruct (erase_sink id t) as [u|] eqn:E; [|done]. intros [= <-]. destruct (IH u eq_refl) as (a & sl & b & -> & ? & ->).
    by exists (slot :: a), sl, b.
Qed.

Lemma remove_sink_inv id r r' : reg_inv r -> remove_sink id r = Some r' -> reg_inv r'.
Proof.
  intros H. unfold remove_sink. destruct (erase_sink id (table r)) as [t|] eqn:E; [|done]. intros [= <-].
  destruct (erase_sink_spec _ _ _ E) as (a & slot & b & Et & _ & ->). destruct (r_strands r H) as [HN HF].
  rewrite Et, fmap_app in HN, HF. cbn in HN, HF. apply commit_inv; [done|..].
  - rewrite fmap_app. apply NoDup_app in HN as (N1 & N2 & N3). apply NoDup_cons in N3 as [N3 N4]. rewrite NoDup_app.
    split_and!; [done| |done]. intros k Hk. specialize (N2 k Hk). set_solver.
  - rewrite fmap_app. rewrite Forall_app, Forall_cons in HF. rewrite Forall_app, Nat.add_0_r. naive_solver.
Qed.

Lemma bump_inv r : reg_inv r -> (0 < unbumped r)%nat -> reg_inv (bump r).
Proof.
  intros [H1 H2 H3 H4 H5] Hu. split; cbn; try done; [|lia]. rewrite H2. unfold u32.
  rewrite Z.add_mod_idemp_l by done. f_equal. lia.
Qed.

Lemma republish_inv r : reg_inv r -> reg_inv (republish_gate_from_registry r).
Proof. by intros [H1 H2 H3 H4 H5]. Qed.

(** The gate depends on the thresholds only. *)
Lemma publish_gate_ext ss ss' t :
  (forall id, threshold (hint_of ss' id) = threshold (hint_of ss id)) -> publish_gate ss' t = publish_gate ss t.
Proof.
  intros H. unfold publish_gate. generalize drop_all_threshold. induction t as [|slot t IH]; intros g; [done|].
  cbn [fold_left]. by rewrite H, IH.
Qed.

Lemma set_sinks_inv r ss changed :
  reg_inv r -> (changed = false -> forall id, threshold (hint_of ss id) = threshold (hint_of (sinks r) id)) ->
  reg_inv (set_sinks r ss changed).
Proof.
  intros [H1 H2 H3 H4 H5] Hc. split; cbn; try done. intros [Hs ->]%orb_false_iff. rewrite H4 by done.
  symmetry. by apply publish_gate_ext, Hc.
Qed.

Lemma hint_insert ss id b id' :
  hint_of (<[id := b]> ss) id' = if (id' =? id)%nat then dispatch_hint b else hint_of ss id'.
Proof.
  unfold hint_of, base_of. destruct (Nat.eqb_spec id' id) as [->|]; [by rewrite lookup_insert_eq|by rewrite lookup_insert_ne].
Qed.

Lemma report_transitions_thresholds t ss ss' ts :
  report_transitions t ss = (ss', ts) -> forall id, hint_of ss' id = hint_of ss id.
Proof.
  revert ss ss' ts. induction t as [|slot t IH]; intros ss ss' ts; cbn [report_transitions]; [by intros [= <- _]|].
  case_bool_decide; [apply IH|]. destruct (report_transitions t _) as [ss1 ts1] eqn:E. intros [= <- _] id.
  rewrite (IH _ _ _ E id), hint_insert. destruct (Nat.eqb_spec id (sink slot)) as [->|]; done.
Qed.

Lemma sweep_report_inv now_ms r r' ts due : reg_inv r -> sweep_report now_ms r = (r', ts, due) -> reg_inv r'.
Proof.
  intros H. unfold sweep_report. destruct (report_transitions (table r) (sinks r)) as [ss tr] eqn:E. intros [= <- _ _].
  apply set_sinks_inv; [done|]. intros _ id. by rewrite (report_transitions_thresholds _ _ _ _ E).
Qed.

(** ** The consumer's copy of the registry *)
Record con_inv (r : registry) (c : consumer) : Prop := {
  c_read : (read_bumps c <= bumps r)%nat;
  c_version : match pc c with
              | CInit => True
              | CSnapshot _ _ v => v = u32 (Z.of_nat (read_bumps c))
              | _ => cached_version c = u32 (Z.of_nat (read_bumps c))
              end;
  c_seen : match pc c with
           | CInit | CFirstSnapshot => True
           | CSnapshot _ _ _ => (seen c <= length (commits r))%nat
           | _ => (read_bumps c <= seen c <= length (commits r))%nat
           end;
  c_table : match pc c with
            | CInit | CFirstSnapshot => True
            | _ => cached_table c = table_at (commits r) (seen c)
            end
}.

(** Commits and bumps only make the history longer. *)
Lemma con_inv_mono r r' c :
  con_inv r c -> (bumps r <= bumps r')%nat -> (exists l, commits r' = commits r ++ l) -> con_inv r' c.
Proof.
  intros [H1 H2 H3 H4] Hb [l Hl]. split; [lia|done|rewrite Hl, length_app; destruct (pc c); try done; lia|].
  destruct (pc c) eqn:E; try done; rewrite H4, Hl; unfold table_at; rewrite take_app_le by lia; done.
Qed.

Lemma commits_bumps r : reg_inv r -> (bumps r <= length (commits r))%nat.
Proof. intros H. rewrite (r_commits r H). lia. Qed.

Definition registry_ok (s : state) : Prop := reg_inv (reg s) /\ con_inv (reg s) (con s).

Ltac same_registry Hc := eapply con_inv_mono; [exact Hc|cbn; lia|exists []; cbn; by rewrite app_nil_r].

Lemma registry_step s s' : registry_ok s -> step s s' -> registry_ok s'.
Proof.
  intros [Hr Hc] Hs. pose proof (commits_bumps _ Hr) as Hcb.
  destruct Hs; unfold registry_ok in *; cbn [reg con wrk stp] in *; try (by split).
  - split; [by apply add_sink_inv|]. eapply con_inv_mono; [exact Hc|cbn; lia|cbn; by eexists].
  - split; [by eapply remove_sink_inv|]. unfold remove_sink in H. destruct (erase_sink id (table r)); [|done]. injection H as <-.
    eapply con_inv_mono; [exact Hc|cbn; lia|cbn; by eexists].
  - split; [by apply bump_inv|same_registry Hc].
  - split; [by apply republish_inv|same_registry Hc].
  - split; [by eapply sweep_report_inv|]. unfold sweep_report in H. destruct (report_transitions _ _). injection H as <- _ _.
    same_registry Hc.
  - split; [|same_registry Hc]. apply set_sinks_inv; [done|]. intros Hch%negb_false_iff%bool_decide_eq_true_1 id'.
    rewrite hint_insert. destruct (Nat.eqb_spec id' id) as [->|]; done.
  - split; [done|]. split; cbn; try done. apply Hr.
  - split; [done|]. destruct Hc as [H1 H2 H3 H4]. rewrite H in *. split; cbn; try done; [lia|]. apply Hr.
  - split; [done|]. destruct Hc as [H1' H2' H3' H4']. rewrite H in *. by destruct batch.
  - split; [done|]. destruct Hc as [H1' H2' H3' H4']. rewrite H in *. done.
  - split; [done|]. destruct Hc as [H1' H2' H3' H4']. rewrite H in *. split; cbn; try done; [apply Hr|lia].
  - split; [done|]. destruct Hc as [H1' H2' H3' H4']. rewrite H in *. split; cbn; try done; [lia|apply Hr].
  - assert (HR : reg_inv match decide_dispatch hint max_lvl with
      | SkipDead => set_sinks r (<[sink slot := add_undelivered (Z.of_nat (length batch)) (base_of (sinks r) (sink slot))]> (sinks r)) false
      | _ => r end).
    { destruct (decide_dispatch hint max_lvl); try done. apply set_sinks_inv; [done|]. intros _ id. rewrite hint_insert.
      destruct (Nat.eqb_spec id (sink slot)) as [->|]; done. }
    split; [done|]. assert (Hc' : con_inv r (set_pc c (CDispatch batch max_lvl todo))).
    { destruct Hc as [H1' H2' H3' H4']. rewrite H in *. by split. }
    destruct (decide_dispatch hint max_lvl); [done|done|same_registry Hc'].
  - split; [done|]. destruct Hc as [H1' H2' H3' H4']. rewrite H in *. by split.
  - split; [done|]. destruct Hc as [H1' H2' H3' H4']. rewrite H in *. by split.
Qed.

Lemma start_registry_ok cap ss : registry_ok (start cap ss).
Proof. split; split; cbn; try done. split; [apply NoDup_nil_2|constructor]. Qed.

Lemma reachable_registry cap ss s : reachable cap ss s -> registry_ok s.
Proof. apply rtc_preserves; [apply registry_step|apply start_registry_ok]. Qed.

Lemma u32_inj a b : 0 <= a < 2 ^ 32 -> 0 <= b < 2 ^ 32 -> u32 a = u32 b -> a = b.
Proof. unfold u32. intros Ha Hb. by rewrite !Z.mod_small. Qed.

(** C24. The consumer never dispatches with a registry older than a registration that has
    returned: when it starts on a batch, the sinks it uses are the table after at least as many
    commits as calls of [add_sink] and [remove_sink] had returned by then. *)
Theorem dispatch_table_fresh cap ss s s' batch max_lvl todo :
  reachable cap ss s -> step s s' -> Z.of_nat (bumps (reg s)) < 2 ^ 32 ->
  pc (con s') = CDispatch batch max_lvl todo -> (forall b m t, pc (con s) <> CDispatch b m t) ->
  exists j, (bumps (reg s) <= j <= length (commits (reg s)))%nat /\ todo = table_at (commits (reg s)) j.
Proof.
  intros HR Hs Hb Hpc Hn. destruct (reachable_registry _ _ _ HR) as [Hr [H1 H2 H3 H4]]. pose proof (commits_bumps _ Hr) as Hcb.
  destruct Hs; cbn [reg con pc set_pc] in *; try (exfalso; eapply Hn; eassumption); try congruence.
  - by destruct batch0.
  - injection Hpc as <- <- <-. rewrite H in *. exists (seen c). split; [|done].
    assert (bumps r = read_bumps c); [|lia]. apply Nat2Z.inj, u32_inj; [lia|lia|].
    by rewrite <- H2, <- H0, (r_version r Hr).
  - injection Hpc as <- <- <-. exists (length (commits r)). split; [lia|]. apply Hr.
Qed.

(** While no registration is in flight, an unchanged version means an unchanged table. *)
Corollary cached_table_current cap ss s batch max_lvl todo :
  reachable cap ss s -> pc (con s) = CDispatch batch max_lvl todo -> unbumped (reg s) = 0%nat ->
  Z.of_nat (bumps (reg s)) < 2 ^ 32 -> cached_version (con s) = version (reg s) -> cached_table (con s) = table (reg s).
Proof.
  intros HR Hpc Hu Hb Hv. destruct (reachable_registry _ _ _ HR) as [Hr [H1 H2 H3 H4]]. rewrite Hpc in *.
  assert (bumps (reg s) = read_bumps (con s)) as E.
  { apply Nat2Z.inj, u32_inj; [lia|lia|]. by rewrite <- H2, Hv, (r_version _ Hr). }
  rewrite H4, (r_table _ Hr). f_equal. pose proof (r_commits _ Hr). lia.
Qed.

(** ** The gate *)
Lemma publish_gate_le ss t lvl g :
  level_code lvl < g ->
  (fold_left (fun g slot => Z.min g (level_code (threshold (hint_of ss (sink slot))))) t g <= level_code lvl <->
   exists slot, slot ∈ t /\ level_code (threshold (hint_of ss (sink slot))) <= level_code lvl).
Proof.
  revert g. induction t as [|slot t IH]; intros g Hg; cbn [fold_left].
  - split; [lia|]. intros (? & H & _). by apply elem_of_nil in H.
  - destruct (Z.le_gt_cases (level_code (threshold (hint_of ss (sink slot)))) (level_code lvl)) as [Hle|Hgt].
    + split; [intros _; exists slot; split; [by left|done]|]. intros _.
      assert (forall t g', g' <= level_code lvl ->
        fold_left (fun g slot => Z.min g (level_code (threshold (hint_of ss (sink slot))))) t g' <= level_code lvl) as Hmon.
      { clear. induction t as [|x t IH]; intros g' H; cbn [fold_left]; [done|]. apply IH. lia. }
      apply Hmon. lia.
    + rewrite IH by lia. split.
      * intros (x & Hx & H). exists x. split; [by right|done].
      * intros (x & [->|Hx]%elem_of_cons & H); [lia|by exists x].
Qed.

(** The producers' fast path drops exactly what no registered sink's threshold admits: unless a
    threshold has just changed, a level passes the gate if and only if some registered
    sink's threshold is at or below it. *)
Theorem gate_exact cap ss s lvl :
  reachable cap ss s -> stale (reg s) = false -> level_named lvl ->
  (passes_gate (gate (reg s)) lvl = true <->
   exists slot, slot ∈ table (reg s) /\ level_code (threshold (hint_of (sinks (reg s)) (sink slot))) <= level_code lvl).
Proof.
  intros HR Hs Hl. destruct (reachable_registry _ _ _ HR) as [Hr _]. rewrite (r_gate _ Hr Hs). unfold passes_gate, publish_gate.
  rewrite Z.leb_le. apply publish_gate_le. pose proof (level_code_bounds lvl Hl). unfold drop_all_threshold. lia.
Qed.

(** ** Events in the ring and in batches *)
Definition event_of (x : slot_state) : option LogEvent :=
  match x with Published e => if shutdown_signal e then None else Some e | _ => None end.

(** The events of the slots consumed so far, the sentinel left out. *)
Definition consumed (s : state) : list LogEvent := omap event_of (take (next_seq (con s)) (ring s)).

Definition in_flight (p : consumer_pc) : list LogEvent :=
  match p with CCheck b _ | CSnapshot b _ _ => b | _ => [] end.

Definition max_ok (b : list LogEvent) (m : LogLevel) : Prop := Forall (fun e => level_code (level e) <= level_code m) b.

Definition is_sentinel (x : slot_state) : bool := match x with Published e => shutdown_signal e | _ => false end.
Definition is_published (x : slot_state) : bool := match x with Published _ => true | _ => false end.

Record ring_inv (s : state) : Prop := {
  g_length : (next_seq (con s) <= length (ring s))%nat;
  g_published : Forall (fun x => is_published x = true) (take (next_seq (con s)) (ring s));
  g_running : if running (stp s) then Forall (fun x => is_sentinel x = false) (take (next_seq (con s)) (ring s))
              else exists pre e, take (next_seq (con s)) (ring s) = pre ++ [Published e] /\ shutdown_signal e = true /\
                   Forall (fun x => is_sentinel x = false) pre;
  g_events : concat (snd <$> dispatched (wrk s)) ++ in_flight (pc (con s)) = consumed s;
  g_init : pc (con s) = CInit \/ pc (con s) = CFirstSnapshot -> next_seq (con s) = 0%nat;
  g_max : match pc (con s) with CCheck b m | CSnapshot b m _ | CDispatch b m _ => max_ok b m | _ => True end;
  g_stop : match stopping (stp s) with SClaimed i => ring s !! i = Some ClaimedStop | _ => True end
}.

(** The collecting loop: a prefix of the published events, up to the sentinel. *)
Lemma collect_spec es m0 batch m n stop :
  collect es m0 = (batch, m, n, stop) ->
  (n <= length es)%nat /\ level_code m0 <= level_code m /\ max_ok batch m /\
  Forall (fun e => shutdown_signal e = false) batch /\
  (if stop then exists e, take n es = batch ++ [e] /\ shutdown_signal e = true else take n es = batch /\ n = length es).
Proof.
  revert m0 batch m n stop. induction es as [|e es IH]; intros m0 batch m n stop; cbn [collect].
  - intros [= <- <- <- <-]. split_and!; try done. constructor.
  - destruct (shutdown_signal e) eqn:Ee.
    + intros [= <- <- <- <-]. split_and!; [cbn; lia|done|constructor|constructor|]. by exists e.
    + set (m1 := if level_code m0 <? level_code (level e) then level e else m0).
      destruct (collect es m1) as [[[b m'] n'] stop'] eqn:E. intros [= <- <- <- <-].
      destruct (IH _ _ _ _ _ E) as (H1 & H2 & H3 & H4 & H5).
      assert (Hm : level_code m0 <= level_code m1 /\ level_code (level e) <= level_code m1).
      { subst m1. destruct (Z.ltb_spec (level_code m0) (level_code (level e))); lia. }
      split_and!; [cbn; lia|lia|constructor; [lia|done]|by constructor|]. destruct stop'.
      * destruct H5 as (x & H5 & Hx). exists x. cbn. by rewrite H5.
      * destruct H5 as [H5 ->]. cbn. by rewrite H5.
Qed.

(** Publishing or claiming a slot beyond the consumer's position changes nothing it has read. *)
Lemma take_published rg n i x y :
  Forall (fun x => is_published x = true) (take n rg) -> rg !! i = Some x -> is_published x = false -> take n (<[i := y]> rg) = take n rg.
Proof.
  intros H Hi Hx. destruct (decide (i < n)%nat) as [Hlt|]; [|by rewrite take_insert_ge by lia].
  rewrite Forall_lookup in H. specialize (H i x). rewrite lookup_take_lt in H by done. by rewrite H in Hx.
Qed.

(** The ring's part of the invariant depends on the position, the program counter, what was
    dispatched and the two flags only. *)
Lemma ring_inv_ext s s' :
  ring_inv s -> take (next_seq (con s)) (ring s') = take (next_seq (con s)) (ring s) -> (length (ring s) <= length (ring s'))%nat ->
  next_seq (con s') = next_seq (con s) -> running (stp s') = running (stp s) ->
  concat (snd <$> dispatched (wrk s')) ++ in_flight (pc (con s')) = concat (snd <$> dispatched (wrk s)) ++ in_flight (pc (con s)) ->
  (pc (con s') = CInit \/ pc (con s') = CFirstSnapshot -> next_seq (con s) = 0%nat) ->
  match pc (con s') with CCheck b m | CSnapshot b m _ | CDispatch b m _ => max_ok b m | _ => True end ->
  match stopping (stp s') with SClaimed i => ring s' !! i = Some ClaimedStop | _ => True end ->
  ring_inv s'.
Proof.
  intros [H1 H2 H3 H4 H5 H6 H7] Ht Hl Hn Hr Hd Hi Hm Hs. split; rewrite ?Hn, ?Hr, ?Ht; try done; [lia|].
  rewrite Hd, H4. unfold consumed. by rewrite Hn, Ht.
Qed.

Lemma collect_ring_inv cap rg r c w x es batch max_lvl n stop :
  ring_inv {| capacity := cap; ring := rg; reg := r; con := c; wrk := w; stp := x |} ->
  pc c = CLoop -> running x = true -> take (length es) (drop (next_seq c) rg) = Published <$> es ->
  collect es Trace = (batch, max_lvl, n, stop) ->
  ring_inv {| capacity := cap; ring := rg; reg := r;
              con := {| pc := match batch with [] => CLoop | _ => CCheck batch max_lvl end; next_seq := next_seq c + n;
                        cached_version := cached_version c; cached_table := cached_table c; read_bumps := read_bumps c; seen := seen c |};
              wrk := w;
              stp := {| running := negb stop; stopping := stopping x; remaining := remaining x; drained := drained x; waiting := waiting x |} |}.
Proof.
  intros [H1 H2 H3 H4 H5 H6 H7] Hpc Hrun Hes Hcol. cbn [ring con wrk stp] in *. rewrite Hrun in H3. rewrite Hpc in H4. cbn in H4.
  rewrite app_nil_r in H4. destruct (collect_spec _ _ _ _ _ _ Hcol) as (Hn & _ & Hmax & Hev & Hst).
  assert (HL : (next_seq c + length es <= length rg)%nat).
  { apply (f_equal length) in Hes. rewrite length_take, length_drop, length_fmap in Hes. lia. }
  assert (HT : take (next_seq c + n) rg = take (next_seq c) rg ++ (Published <$> take n es)).
  { rewrite fmap_take, <- Hes, take_take, Nat.min_l by lia. by rewrite take_take_drop. }
  assert (HS : Forall (fun x => is_sentinel x = false) (Published <$> batch)) by (by apply Forall_fmap).
  assert (HO : omap event_of (Published <$> batch) = batch).
  { clear -Hev. induction Hev as [|e b He _ IH]; [done|]. cbn. by rewrite He, IH. }
  split; cbn [ring con wrk stp next_seq running stopping pc].
  - lia.
  - rewrite HT, Forall_app. split; [done|]. apply Forall_fmap, Forall_true. done.
  - rewrite HT. destruct stop; cbn [negb].
    + destruct Hst as (e & -> & He). exists (take (next_seq c) rg ++ (Published <$> batch)), e. rewrite fmap_app, app_assoc.
      split_and!; [done|done|by apply Forall_app].
    + destruct Hst as [-> _]. by apply Forall_app.
  - unfold consumed in *. cbn [ring con next_seq] in *. rewrite HT, omap_app, H4. f_equal.
    replace (in_flight _) with batch by (by destruct batch). destruct stop.
    + destruct Hst as (e & -> & He). rewrite fmap_app, omap_app, HO. cbn. by rewrite He, app_nil_r.
    + destruct Hst as [-> _]. done.
  - destruct batch; naive_solver.
  - destruct batch; done.
  - done.
Qed.

Lemma ring_step s s' : ring_inv s -> step s s' -> ring_inv s'.
Proof.
  intros HI Hs. pose proof HI as [H1 H2 H3 H4 H5 H6 H7].
  destruct Hs; cbn [ring con wrk stp] in *; try (eapply ring_inv_ext; [exact HI|done..]).
  - (* Claim *) eapply ring_inv_ext; [exact HI|cbn; try done..]; cbn.
    + rewrite take_app_le by done. done.
    + rewrite length_app. lia.
    + destruct (stopping x); try done. by apply lookup_app_l_Some.
  - (* Publish *) eapply ring_inv_ext; [exact HI|cbn; try done..]; cbn.
    + by eapply take_published.
    + by rewrite length_insert.
    + destruct (stopping x); try done. rewrite list_lookup_insert_ne; [done|]. intros ->. congruence.
  - (* ReadVersion *) eapply ring_inv_ext; [exact HI|cbn; try done..]; cbn.
    + symmetry. apply H5. by left.
    + by rewrite H.
    + intros _. apply H5. by left.
  - (* FirstSnapshot *) eapply ring_inv_ext; [exact HI|cbn; try done..]; cbn; rewrite ?H; try done; naive_solver.
  - (* Collect *) by eapply collect_ring_inv.
  - (* VersionSame *) eapply ring_inv_ext; [exact HI|cbn; try done..]; cbn; rewrite H in *; cbn in *; [|naive_solver|done].
    rewrite fmap_app, concat_app. cbn. by rewrite !app_nil_r.
  - (* VersionChanged *) eapply ring_inv_ext; [exact HI|cbn; try done..]; cbn; rewrite H in *; cbn in *; [done|naive_solver|done].
  - (* Resnapshot *) eapply ring_inv_ext; [exact HI|cbn; try done..]; cbn; rewrite H in *; cbn in *; [|naive_solver|done].
    rewrite fmap_app, concat_app. cbn. by rewrite !app_nil_r.
  - (* DispatchOne *) eapply ring_inv_ext; [exact HI|cbn; try done..]; cbn; rewrite H in *; cbn in *; [done|naive_solver|done].
  - (* DispatchEnd *) eapply ring_inv_ext; [exact HI|cbn; try done..]; cbn; rewrite H in *; cbn in *; [done|naive_solver].
  - (* Leave *) eapply ring_inv_ext; [exact HI|cbn; try done..]; cbn; rewrite H in *; cbn in *; [done|naive_solver].
  - (* RunTask *) eapply ring_inv_ext; [exact HI|cbn; try done..]; cbn; by destruct t.
  - (* StopClaim *) eapply ring_inv_ext; [exact HI|cbn; try done..]; cbn.
    + rewrite take_app_le by done. done.
    + rewrite length_app. lia.
    + by rewrite list_lookup_middle.
  - (* StopPublish *) rewrite H in H7. eapply ring_inv_ext; [exact HI|cbn; try done..]; cbn.
    + by eapply take_published.
    + by rewrite length_insert.
Qed.

(** ** Queues *)
Lemma queue_insert ss k q k' : queue (<[k := q]> ss) k' = if (k' =? k)%nat then q else queue ss k'.
Proof.
  unfold queue. destruct (Nat.eqb_spec k' k) as [->|]; [by rewrite lookup_insert_eq|by rewrite lookup_insert_ne].
Qed.

Lemma queue_post k t ss k' : queue (post k t ss) k' = queue ss k' ++ if (k' =? k)%nat then [t] else [].
Proof. unfold post. rewrite queue_insert. destruct (Nat.eqb_spec k' k) as [->|]; [done|by rewrite app_nil_r]. Qed.

Lemma events_in_app q q' : events_in (q ++ q') = events_in q ++ events_in q'.
Proof. unfold events_in. by rewrite fmap_app, concat_app. Qed.

(** A task that carries no events and is not a last flush. *)
Definition housekeeping (t : task) : Prop := t = Flush \/ t = Maintain.

Lemma queue_post_all slots t ss k :
  exists n, queue (post_all slots t ss) k = queue ss k ++ replicate n t.
Proof.
  revert ss. induction slots as [|slot slots IH]; intros ss; [exists 0%nat; by rewrite app_nil_r|]. cbn [post_all fold_left].
  destruct (IH (post (strand slot) t ss)) as [n En]. unfold post_all in En. rewrite En, queue_post.
  destruct (k =? strand slot)%nat; [exists (S n)|exists n]; by rewrite <- app_assoc.
Qed.

Lemma events_replicate n t : housekeeping t -> events_in (replicate n t) = [].
Proof. intros [-> | ->]; induction n as [|n IH]; [done|exact IH|done|exact IH]. Qed.

Lemma events_post_all slots t ss k : housekeeping t -> events_in (queue (post_all slots t ss) k) = events_in (queue ss k).
Proof.
  intros Ht. destruct (queue_post_all slots t ss k) as [n ->]. by rewrite events_in_app, events_replicate, app_nil_r.
Qed.

(** ** Dispatch and delivery *)

(** The batches strand [k] was due, was judged on, and was given. *)
Definition due (k : nat) (h : list (SinkTable * list LogEvent)) : list (list LogEvent) :=
  snd <$> filter (fun x => k ∈ strand <$> x.1) h.
Definition judged (k : nat) (vs : list verdict) : list verdict := filter (fun v => v_strand v = k) vs.
Definition given (k : nat) (vs : list verdict) : list LogEvent :=
  concat (v_batch <$> filter (fun v => v_decision v = Post) (judged k vs)).

Definition outstanding (k : nat) (p : consumer_pc) : list (list LogEvent) :=
  match p with CDispatch b _ todo => if decide (k ∈ strand <$> todo) then [b] else [] | _ => [] end.

Record work_inv (s : state) : Prop := {
  w_due k : due k (dispatched (wrk s)) = (v_batch <$> judged k (verdicts (wrk s))) ++ outstanding k (pc (con s));
  w_todo : match pc (con s) with CDispatch _ _ todo => NoDup (strand <$> todo) | _ => True end;
  w_cached : NoDup (strand <$> cached_table (con s));
  w_max : Forall (fun v => max_ok (v_batch v) (v_max v)) (verdicts (wrk s));
  w_given k : processed (wrk s) k ++ events_in (queue (strands (wrk s)) k) = given k (verdicts (wrk s))
}.

Lemma work_inv_ext s s' :
  work_inv s -> dispatched (wrk s') = dispatched (wrk s) -> verdicts (wrk s') = verdicts (wrk s) ->
  (forall k, outstanding k (pc (con s')) = outstanding k (pc (con s))) ->
  match pc (con s') with CDispatch _ _ todo => NoDup (strand <$> todo) | _ => True end ->
  NoDup (strand <$> cached_table (con s')) ->
  (forall k, processed (wrk s') k ++ events_in (queue (strands (wrk s')) k) = processed (wrk s) k ++ events_in (queue (strands (wrk s)) k)) ->
  work_inv s'.
Proof.
  intros [H1 H2 H3 H4 H5] Hd Hv Ho Ht Hc Hq. split; rewrite ?Hd, ?Hv; try done.
  - intros k. by rewrite Ho.
  - intros k. by rewrite Hq.
Qed.

(** The dispatch loop starting on a batch. *)
Lemma due_snoc k h t b : due k (h ++ [(t, b)]) = due k h ++ if decide (k ∈ strand <$> t) then [b] else [].
Proof. unfold due. rewrite filter_app, fmap_app. f_equal. rewrite filter_cons. cbn. case_decide; done. Qed.

Lemma judged_snoc k vs v : judged k (vs ++ [v]) = judged k vs ++ if decide (v_strand v = k) then [v] else [].
Proof. unfold judged. rewrite filter_app, filter_cons. cbn. case_decide; done. Qed.

Lemma given_snoc k vs v :
  given k (vs ++ [v]) = given k vs ++ if decide (v_strand v = k) then (if decide (v_decision v = Post) then v_batch v else []) else [].
Proof.
  unfold given. rewrite judged_snoc, filter_app, fmap_app, concat_app. f_equal. case_decide; [|done].
  rewrite filter_cons. case_decide; cbn; by rewrite ?app_nil_r.
Qed.

Lemma decide_elem_cons {A} (k : nat) (todo : SinkTable) slot (a b : A) :
  (if decide (k ∈ strand slot :: (strand <$> todo)) then a else b) =
  if decide (strand slot = k) then a else if decide (k ∈ strand <$> todo) then a else b.
Proof. repeat case_decide; set_solver. Qed.

Lemma work_step s s' : registry_ok s -> ring_inv s -> work_inv s -> step s s' -> work_inv s'.
Proof.
  intros [Hr _] Hg HI Hs. pose proof HI as [H1 H2 H3 H4 H5]. pose proof (proj1 (r_strands _ Hr)) as HN. pose proof (g_max _ Hg) as HM.
  destruct Hs; cbn [ring con wrk stp reg] in *; try (eapply work_inv_ext; [exact HI|done..]).
  - (* Report *) eapply work_inv_ext; [exact HI|try done..]. intros k. cbn. rewrite events_post_all by (by right). done.
  - (* ReadVersion *) eapply work_inv_ext; [exact HI|try done..]; cbn; [by rewrite H|apply NoDup_nil_2].
  - (* FirstSnapshot *) eapply work_inv_ext; [exact HI|try done..]. cbn. by rewrite H.
  - (* Collect *) eapply work_inv_ext; [exact HI|try done..]; cbn; [rewrite H; by destruct batch|by destruct batch].
  - (* VersionSame *) rewrite H in *. split; cbn [wrk con reg dispatched verdicts strands delivered pc set_pc cached_table next_seq]; try done. intros k.
    rewrite due_snoc, H1. cbn [outstanding]. by rewrite app_nil_r.
  - (* VersionChanged *) eapply work_inv_ext; [exact HI|try done..]; cbn. by rewrite H.
  - (* Resnapshot *) rewrite H in *. split; cbn [wrk con reg dispatched verdicts strands delivered pc set_pc cached_table next_seq]; try done. intros k.
    rewrite due_snoc, H1. cbn [outstanding]. by rewrite app_nil_r.
  - (* DispatchOne *) rewrite H in *. cbn in H2. apply NoDup_cons in H2 as [Hn Ht].
    split; cbn [wrk con reg dispatched verdicts strands delivered pc set_pc cached_table next_seq]; try done.
    + intros k. rewrite H1, judged_snoc, fmap_app, <- app_assoc. f_equal. cbn [outstanding fmap list_fmap v_strand]. rewrite decide_elem_cons.
      destruct (decide (strand slot = k)) as [<-|Hk]; cbn; [|by repeat case_decide].
      by rewrite (decide_False (P := strand slot ∈ strand <$> todo)).
    + apply Forall_app. split; [done|]. by constructor.
    + intros k. rewrite given_snoc, <- H5. unfold processed, v_decision. cbn [delivered v_strand v_batch v_hint v_max]. fold hint.
      destruct (decide_dispatch hint max_lvl).
      * rewrite queue_post, events_in_app, app_assoc. f_equal. destruct (Nat.eqb_spec k (strand slot)) as [->|Hk].
        -- rewrite !decide_True by done. unfold events_in. cbn. by rewrite app_nil_r.
        -- rewrite decide_False by congruence. done.
      * case_decide; by rewrite app_nil_r.
      * case_decide; by rewrite app_nil_r.
  - (* DispatchEnd *) eapply work_inv_ext; [exact HI|try done..]; cbn. rewrite H. cbn. done.
  - (* Leave *) eapply work_inv_ext; [exact HI|try done..]; cbn. by rewrite H.
  - (* RunTask *) eapply work_inv_ext; [exact HI|try done..]. intros k'. cbn [wrk set_work strands delivered]. rewrite queue_insert.
    unfold processed at 1. cbn [delivered set_work]. destruct (Nat.eqb_spec k' k) as [->|Hk]; [|by rewrite lookup_insert_ne].
    rewrite lookup_insert_eq, H. cbn [default from_option id]. rewrite <- app_assoc. f_equal. by destruct t; cbn; rewrite ?app_nil_r.
  - (* FlushAll *) eapply work_inv_ext; [exact HI|try done..]. intros k. cbn. rewrite events_post_all by (by left). done.
  - (* StopPost *) eapply work_inv_ext; [exact HI|try done..]. intros k. cbn. rewrite queue_post, events_in_app.
    destruct (k =? strand slot)%nat; cbn; by rewrite ?app_nil_r.
Qed.

Lemma start_work_ok cap ss : work_inv (start cap ss).
Proof. split; cbn; try done; try apply NoDup_nil_2; constructor. Qed.

Lemma start_ring_ok cap ss : ring_inv (start cap ss).
Proof. split; cbn; try done; constructor. Qed.

(** ** Shutdown *)
Definition todo_of (p : shutdown_pc) : list nat := match p with SPost todo => strand <$> todo | _ => [] end.

Definition is_last_flush (t : task) : bool := match t with FinalFlush => true | _ => false end.
Definition last_flushes (q : list task) : nat := length (filter (fun t => is_last_flush t = true) q).

(** No events behind a last flush. *)
Definition sealed (q : list task) : Prop := exists q1 q2, q = q1 ++ FinalFlush :: q2 /\ events_in q2 = [].

Record stop_inv (s : state) : Prop := {
  x_exit : match stopping (stp s) with SPost _ | SWait | SDone => pc (con s) = CExit | _ => True end;
  x_running : pc (con s) = CExit -> running (stp s) = false;
  x_early : match stopping (stp s) with SIdle | SClaimed _ | SJoin => waiting (stp s) = [] /\ drained (stp s) = [] | _ => True end;
  x_nodup : NoDup (waiting (stp s)) /\ NoDup (todo_of (stopping (stp s)));
  x_todo : todo_of (stopping (stp s)) ⊆ waiting (stp s);
  x_remaining : remaining (stp s) = length (waiting (stp s));
  x_done : stopping (stp s) = SDone -> waiting (stp s) = [];
  x_flush k : last_flushes (queue (strands (wrk s)) k) =
              if decide (k ∈ waiting (stp s) /\ k ∉ todo_of (stopping (stp s))) then 1%nat else 0%nat;
  x_sealed k : k ∈ waiting (stp s) -> k ∉ todo_of (stopping (stp s)) -> sealed (queue (strands (wrk s)) k);
  x_drained k : k ∈ strand <$> drained (stp s) -> k ∉ waiting (stp s) -> events_in (queue (strands (wrk s)) k) = []
}.

Lemma last_flushes_app q q' : last_flushes (q ++ q') = (last_flushes q + last_flushes q')%nat.
Proof. unfold last_flushes. by rewrite filter_app, length_app. Qed.

Lemma last_flushes_cons t q : last_flushes (t :: q) = ((if is_last_flush t then 1 else 0) + last_flushes q)%nat.
Proof. unfold last_flushes. by destruct t. Qed.

Lemma last_flushes_replicate n t : housekeeping t -> last_flushes (replicate n t) = 0%nat.
Proof. intros [-> | ->]; induction n as [|n IH]; [done| |done|]; cbn [replicate]; by rewrite last_flushes_cons. Qed.

Lemma sealed_app q q' : sealed q -> events_in q' = [] -> sealed (q ++ q').
Proof. intros (q1 & q2 & -> & H) H'. exists q1, (q2 ++ q'). rewrite <- app_assoc. split; [done|]. by rewrite events_in_app, H. Qed.

(** Housekeeping posted to the strands disturbs nothing. *)
Lemma stop_inv_ext s s' :
  stop_inv s -> stp s' = stp s -> (pc (con s) = CExit <-> pc (con s') = CExit) ->
  (forall k, exists n t, housekeeping t /\ queue (strands (wrk s')) k = queue (strands (wrk s)) k ++ replicate n t) -> stop_inv s'.
Proof.
  intros [H1 H2 H3 H4 H5 H6 H7 H8 H9 H10] Hs Hp Hq. split; rewrite ?Hs; try done.
  - destruct (stopping (stp s)); try done; by apply Hp.
  - intros Hp'. by apply H2, Hp.
  - intros k. destruct (Hq k) as (n & t & Ht & ->). by rewrite last_flushes_app, H8, last_flushes_replicate, Nat.add_0_r.
  - intros k Hk Hk'. destruct (Hq k) as (n & t & Ht & ->). apply sealed_app; [by apply H9|by apply events_replicate].
  - intros k Hk Hk'. destruct (Hq k) as (n & t & Ht & ->). by rewrite events_in_app, H10, events_replicate.
Qed.

Lemma cnt_NoDup_le l x : NoDup l -> (cnt x l <= 1)%nat.
Proof. intros H. apply NoDup_ListNoDup in H. unfold cnt. by apply NoDup_count_occ. Qed.

Lemma remove_one_NoDup w l : NoDup l -> w ∈ l -> NoDup (remove_one w l).
Proof.
  intros H Hw. apply cnt_NoDup. intros x. pose proof (cnt_remove_one x w l Hw). pose proof (cnt_NoDup_le l x H). lia.
Qed.

Lemma elem_of_remove_one w l k : NoDup l -> w ∈ l -> k ∈ remove_one w l <-> k ∈ l /\ k <> w.
Proof.
  intros H Hw. pose proof (cnt_remove_one k w l Hw) as Hc. pose proof (cnt_NoDup_le l k H).
  rewrite !cnt_elem. unfold one in Hc. destruct (Nat.eqb_spec w k); lia.
Qed.

(** A task other than a last flush changes only the head of its queue. *)
Lemma run_task_stop cap rg r c w x k t q :
  stop_inv {| capacity := cap; ring := rg; reg := r; con := c; wrk := w; stp := x |} ->
  queue (strands w) k = t :: q -> is_last_flush t = false ->
  stop_inv {| capacity := cap; ring := rg; reg := r; con := c;
              wrk := set_work w (<[k := q]> (strands w)) (<[k := processed w k ++ events_in [t]]> (delivered w)); stp := x |}.
Proof.
  intros [H1 H2 H3 H4 H5 H6 H7 H8 H9 H10] Hq Ht. cbn [con wrk stp] in *. split; cbn [con wrk stp set_work strands]; try done.
  - intros k'. rewrite queue_insert. destruct (Nat.eqb_spec k' k) as [->|]; [|done]. rewrite <- H8, Hq, last_flushes_cons. by rewrite Ht.
  - intros k' Hk' Hk''. rewrite queue_insert. destruct (Nat.eqb_spec k' k) as [->|]; [|by apply H9].
    destruct (H9 k Hk' Hk'') as (q1 & q2 & E & HE). rewrite Hq in E. destruct q1 as [|t1 q1]; simplify_eq/=.
    by exists q1, q2.
  - intros k' Hk' Hk''. rewrite queue_insert. destruct (Nat.eqb_spec k' k) as [->|]; [|by apply H10].
    specialize (H10 k Hk' Hk''). rewrite Hq in H10. by apply app_nil in H10 as [_ H10].
Qed.

(** A last flush runs once, behind everything its strand was given. *)
Lemma run_last_flush_stop cap rg r c w x k q :
  stop_inv {| capacity := cap; ring := rg; reg := r; con := c; wrk := w; stp := x |} ->
  queue (strands w) k = FinalFlush :: q ->
  stop_inv {| capacity := cap; ring := rg; reg := r; con := c;
              wrk := set_work w (<[k := q]> (strands w)) (<[k := processed w k ++ events_in [FinalFlush]]> (delivered w));
              stp := {| running := running x; stopping := stopping x; remaining := remaining x - 1; drained := drained x;
                        waiting := remove_one k (waiting x) |} |}.
Proof.
  intros [H1 H2 H3 H4 H5 H6 H7 H8 H9 H10] Hq. cbn [con wrk stp] in *.
  pose proof (H8 k) as Hc. rewrite Hq, last_flushes_cons in Hc. cbn in Hc. case_decide as Hk; [|lia]. destruct Hk as [Hk Ht].
  assert (Hq0 : last_flushes q = 0%nat) by lia. destruct H4 as [HN HT].
  pose proof (fun k' => elem_of_remove_one k (waiting x) k' HN Hk) as Hel.
  assert (HE : events_in q = []).
  { destruct (H9 k Hk Ht) as (q1 & q2 & E & HE). rewrite Hq in E. destruct q1 as [|t1 q1]; simplify_eq/=; [done|].
    rewrite last_flushes_app, last_flushes_cons in Hq0. cbn in Hq0. lia. }
  split; cbn [con wrk stp set_work strands running stopping remaining drained waiting]; try done.
  - destruct (stopping x); try done; destruct H3 as [H3 _]; rewrite H3 in Hk; by apply elem_of_nil in Hk.
  - split; [by apply remove_one_NoDup|done].
  - intros k' Hk'. apply Hel. split; [by apply H5|]. congruence.
  - rewrite length_remove_one by done. lia.
  - intros Hd. rewrite (H7 Hd) in Hk. by apply elem_of_nil in Hk.
  - intros k'. rewrite queue_insert. destruct (Nat.eqb_spec k' k) as [->|Hne].
    + rewrite decide_False; [done|]. rewrite Hel. naive_solver.
    + rewrite H8. apply decide_ext. rewrite Hel. naive_solver.
  - intros k' Hk' Hk''. apply Hel in Hk' as [Hk' Hne]. rewrite queue_insert. destruct (Nat.eqb_spec k' k); [done|]. by apply H9.
  - intros k' Hk' Hk''. rewrite queue_insert. destruct (Nat.eqb_spec k' k) as [->|Hne]; [done|]. apply H10; [done|].
    intros Hw. apply Hk'', Hel. done.
Qed.

Ltac same_queues := intros ?; exists 0%nat, Flush; split; [by left|cbn; by rewrite app_nil_r].

Lemma stop_step s s' : registry_ok s -> stop_inv s -> step s s' -> stop_inv s'.
Proof.
  intros [Hr _] HI Hs. pose proof (proj1 (r_strands _ Hr)) as HN. pose proof HI as [H1 H2 H3 H4 H5 H6 H7 H8 H9 H10].
  destruct Hs; cbn [con wrk stp reg] in *; try (eapply stop_inv_ext; [exact HI|done|first [done|split; cbn; congruence]|same_queues]).
  - (* Report *) eapply stop_inv_ext; [exact HI|done|done|]. intros k. destruct (queue_post_all due0 Maintain (strands w) k) as [n En].
    exists n, Maintain. split; [by right|done].
  - (* Collect *) rewrite H in *. split; cbn; try done; by destruct (stopping x), batch.
  - (* DispatchOne *) rewrite H in *.
    assert (waiting x = [] /\ drained x = []) as [E1 E2] by (by destruct (stopping x)). rewrite E1, E2 in *.
    split; cbn [con wrk stp set_pc pc strands waiting drained stopping]; rewrite ?E1, ?E2; try done.
    + by destruct (stopping x).
    + intros k. rewrite <- H8. destruct (decide_dispatch _ _); try done. rewrite queue_post, last_flushes_app.
      by destruct (k =? strand slot)%nat; rewrite Nat.add_0_r.
    + intros k Hk. by apply elem_of_nil in Hk.
  - (* Leave *) rewrite H in *. split; cbn; try done. by destruct (stopping x).
  - (* RunTask *) destruct t; [by apply run_task_stop..|by apply run_last_flush_stop].
  - (* FlushAll *) eapply stop_inv_ext; [exact HI|done|done|]. intros k. destruct (queue_post_all (table r) Flush (strands w) k) as [n En].
    exists n, Flush. split; [by left|done].
  - (* StopClaim *) rewrite H in *. by split.
  - (* StopPublish *) rewrite H in *. by split.
  - (* StopJoin *) rewrite H in *. destruct H3 as [E1 E2]. rewrite E1, E2 in *.
    split; cbn [con wrk stp waiting drained stopping remaining running todo_of]; try done.
    + by rewrite length_fmap.
    + intros k. rewrite H8, decide_False, decide_False; [done|tauto|]. intros [Hk _]. by apply elem_of_nil in Hk.
  - (* StopPost *) rewrite H in *. cbn [todo_of fmap list_fmap] in *. destruct H4 as [HW HT]. apply NoDup_cons in HT as [Hn HT].
    split; cbn [con wrk stp waiting drained stopping remaining running todo_of set_stopping set_work strands]; try done.
    + intros k Hk. apply H5. by right.
    + intros k. rewrite queue_post, last_flushes_app, H8. destruct (Nat.eqb_spec k (strand slot)) as [->|Hne].
      * rewrite decide_False, decide_True; [done|split; [apply H5; by left|done]|intros [_ Hk]; apply Hk; by left].
      * rewrite Nat.add_0_r. apply decide_ext. rewrite elem_of_cons. tauto.
    + intros k Hk Hk'. rewrite queue_post. destruct (Nat.eqb_spec k (strand slot)) as [->|Hne]; [by exists (queue (strands w) (strand slot)), []|].
      rewrite app_nil_r. apply H9; [done|]. rewrite elem_of_cons. tauto.
    + intros k Hk Hk'. rewrite queue_post, events_in_app, H10 by done. by destruct (k =? strand slot)%nat.
  - (* StopWait *) rewrite H in *. by split.
  - (* StopDone *) rewrite H in *. split; cbn; try done. intros _. apply length_zero_iff_nil. lia.
Qed.

Lemma start_stop_ok cap ss : stop_inv (start cap ss).
Proof. split; cbn; try done; try (split; apply NoDup_nil_2); try (intros k Hk; by apply elem_of_nil in Hk). Qed.

(** The whole invariant, of every reachable state. *)
Definition logger_inv (s : state) : Prop := registry_ok s /\ ring_inv s /\ work_inv s /\ stop_inv s.

Lemma reachable_logger_inv cap ss s : reachable cap ss s -> logger_inv s.
Proof.
  apply rtc_preserves.
  - intros a b (H1 & H2 & H3 & H4) Hs. split_and!; [by eapply registry_step|by eapply ring_step|by eapply work_step|by eapply stop_step].
  - split_and!; [apply start_registry_ok|apply start_ring_ok|apply start_work_ok|apply start_stop_ok].
Qed.

(** A batch the loop skipped for its level holds nothing the sink would have accepted. *)
Lemma skipped_batch_unwanted (acc : LogEvent -> bool) v :
  max_ok (v_batch v) (v_max v) -> v_decision v = SkipLevel ->
  (forall e, acc e = true -> level_code (threshold (v_hint v)) <= level_code (level e)) -> List.filter acc (v_batch v) = [].
Proof.
  intros Hm Hd Ha. unfold v_decision, decide_dispatch in Hd. destruct (Z.ltb_spec (level_code (v_max v)) (level_code (threshold (v_hint v)))) as [Hlt|].
  - induction Hm as [|e b He _ IH]; [done|]. cbn. destruct (acc e) eqn:E; [|done]. specialize (Ha e E). lia.
  - by case_bool_decide.
Qed.

Lemma given_filtered acc vs :
  Forall (fun v => max_ok (v_batch v) (v_max v)) vs -> Forall (fun v => v_decision v <> SkipDead) vs ->
  (forall v e, v ∈ vs -> acc e = true -> level_code (threshold (v_hint v)) <= level_code (level e)) ->
  List.filter acc (concat (v_batch <$> filter (fun v => v_decision v = Post) vs)) = List.filter acc (concat (v_batch <$> vs)).
Proof.
  induction vs as [|v vs IH]; intros Hm Hd Ha; [done|]. apply Forall_cons in Hm as [Hm Hms], Hd as [Hd Hds].
  specialize (IH Hms Hds (fun v' e H => Ha v' e (list_elem_of_further v' v vs H))).
  rewrite filter_cons. destruct (decide (v_decision v = Post)); cbn [fmap list_fmap concat]; rewrite !List.filter_app, <- IH; [done|].
  rewrite (skipped_batch_unwanted acc v Hm); [done| |intros e; apply Ha; by left]. by destruct (v_decision v).
Qed.

Lemma due_everywhere k h : Forall (fun x => k ∈ strand <$> x.1) h -> due k h = snd <$> h.
Proof. intros H. unfold due. f_equal. induction H as [|x h Hx _ IH]; [done|]. rewrite filter_cons, decide_True by done. by rewrite IH. Qed.

Lemma published_prefix l : Forall (fun x => is_published x = true) l -> Forall (fun x => is_sentinel x = false) l ->
  l = Published <$> omap event_of l /\ Forall (fun e => shutdown_signal e = false) (omap event_of l).
Proof.
  induction l as [|x l IH]; [done|]. rewrite !Forall_cons. intros [Hx Hl] [Hx' Hl']. destruct (IH Hl Hl') as [E HE].
  destruct x as [| |e]; try done. cbn in *. rewrite Hx'. cbn. rewrite Forall_cons. by rewrite <- E.
Qed.

(** C12. Shutdown drains the logger. When the call of [shutdown] that stops it has returned, the ring is a run of published
    events followed by the sentinel, and the batches handed to the dispatch loop are exactly
    those events in order; every sink then registered has run everything posted for it; and one
    that was registered throughout, was never found dead and accepts only events its threshold
    admits has processed exactly the events before the sentinel it accepts, in order. *)
Theorem shutdown_delivers cap ss s :
  reachable cap ss s -> stopping (stp s) = SDone ->
  exists pre e rest, ring s = (Published <$> pre) ++ Published e :: rest /\ shutdown_signal e = true /\
    Forall (fun e => shutdown_signal e = false) pre /\ concat (snd <$> dispatched (wrk s)) = pre /\
    forall slot, slot ∈ drained (stp s) ->
      processed (wrk s) (strand slot) = given (strand slot) (verdicts (wrk s)) /\
      forall acc : LogEvent -> bool,
        Forall (fun x => strand slot ∈ strand <$> x.1) (dispatched (wrk s)) ->
        Forall (fun v => v_decision v <> SkipDead) (judged (strand slot) (verdicts (wrk s))) ->
        (forall v e, v ∈ judged (strand slot) (verdicts (wrk s)) -> acc e = true ->
                     level_code (threshold (v_hint v)) <= level_code (level e)) ->
        List.filter acc (processed (wrk s) (strand slot)) = List.filter acc pre.
Proof.
  intros HR Hd. destruct (reachable_logger_inv _ _ _ HR) as (_ & Hg & Hw & Hx).
  pose proof (x_exit _ Hx) as He. rewrite Hd in He. pose proof (x_running _ Hx He) as Hrun.
  pose proof (g_running _ Hg) as HS. rewrite Hrun in HS. destruct HS as (l & e & Et & Hs & Hl).
  pose proof (g_published _ Hg) as HP. rewrite Et, Forall_app in HP. destruct (published_prefix l (proj1 HP) Hl) as [El Hev].
  pose proof (g_events _ Hg) as HE. unfold consumed in HE. rewrite Et, He, omap_app, app_nil_r in HE. cbn in HE. rewrite Hs, app_nil_r in HE.
  exists (omap event_of l), e, (drop (next_seq (con s)) (ring s)). split_and!; try done.
  - rewrite <- El. rewrite <- (take_drop (next_seq (con s)) (ring s)) at 1. by rewrite Et, <- app_assoc.
  - intros slot Hslot. assert (Hp : processed (wrk s) (strand slot) = given (strand slot) (verdicts (wrk s))).
    { rewrite <- (w_given _ Hw), (x_drained _ Hx), app_nil_r; [done|by apply list_elem_of_fmap_2|].
      rewrite (x_done _ Hx Hd). apply not_elem_of_nil. }
    split; [done|]. intros acc Hall Hdead Hacc. rewrite Hp. unfold given. rewrite given_filtered; [|apply Forall_forall|done|done].
    + rewrite <- HE, <- (due_everywhere _ _ Hall), (w_due _ Hw), He. cbn. by rewrite app_nil_r.
    + intros v Hv. apply list_elem_of_filter in Hv as [_ Hv]. by apply (proj1 (Forall_forall _ _) (w_max _ Hw)).
Qed.

(** A run with one sink and one event, from construction to the end of [shutdown]. *)
Definition demo_event : LogEvent :=
  make_event Warning (B "db") (B "slow query") {| file_name := B "a.cpp"; function_name := Some (B "f"); line := 7 |} 0 1 2.
Definition demo_stop : LogEvent :=
  {| level := Trace; prefix := prefix demo_event; message := []; location := location demo_event; time_point := 0;
     tid := 0; pid := 0; shutdown_signal := true |}.
Definition demo_slot : SinkSlot := {| sink := 0; strand := 0 |}.

(** One step of a run, its side conditions evaluated. *)
Ltac go c := eapply rtc_l; [eapply c; vm_compute; first [reflexivity|lia|discriminate]|].

Lemma demo_shutdown : exists s, reachable 8 ∅ s /\ stopping (stp s) = SDone /\ drained (stp s) = [demo_slot] /\
  dispatched (wrk s) = [([demo_slot], [demo_event])] /\ processed (wrk s) 0 = [demo_event].
Proof.
  eexists. split.
  - go (AddSink 8 [] (reg (start 8 ∅)) (con (start 8 ∅)) (wrk (start 8 ∅)) (stp (start 8 ∅)) 0).
    go Bump. go ReadVersion. go FirstSnapshot. go Claim. go (fun cap rg r c w x => Publish cap rg r c w x 0 demo_event).
    go StopClaim. go (fun cap rg r c w x i => StopPublish cap rg r c w x i demo_stop).
    go (fun cap rg r c w x => Collect cap rg r c w x [demo_event; demo_stop]).
    go VersionSame. go DispatchOne. go DispatchEnd. go Leave. go StopJoin. go (fun cap rg r c w x => RunTask cap rg r c w x 0).
    go StopPost. go StopWait. go (fun cap rg r c w x => RunTask cap rg r c w x 0). go StopDone. apply rtc_refl.
  - by vm_compute.
Qed.

Lemma shutdown_delivers_witness : exists s pre e rest,
  reachable 8 ∅ s /\ stopping (stp s) = SDone /\ processed (wrk s) 0 = [demo_event] /\
  ring s = (Published <$> pre) ++ Published e :: rest /\ shutdown_signal e = true /\ concat (snd <$> dispatched (wrk s)) = pre.
Proof.
  destruct demo_shutdown as (s & HR & Hd & _ & _ & Hp).
  destruct (shutdown_delivers 8 ∅ s HR Hd) as (pre & e & rest & H1 & H2 & _ & H3 & _). by exists s, pre, e, rest.
Defined.

Lemma gate_exact_witness : exists s, reachable 8 ∅ s /\ stale (reg s) = false /\
  (passes_gate (gate (reg s)) Warning = true <->
   exists slot, slot ∈ table (reg s) /\ level_code (threshold (hint_of (sinks (reg s)) (sink slot))) <= level_code Warning).
Proof.
  assert (HR : reachable 8 ∅ {| capacity := 8; ring := []; reg := add_sink 0 (reg (start 8 ∅)); con := con (start 8 ∅);
                                wrk := wrk (start 8 ∅); stp := stp (start 8 ∅) |}).
  { eapply rtc_l; [apply AddSink|apply rtc_refl]. }
  eexists. split; [exact HR|]. split; [reflexivity|]. apply (gate_exact 8 ∅ _ Warning HR); [reflexivity|by vm_compute].
Defined.

Lemma demo_collected : exists s, reachable 8 ∅ s /\ bumps (reg s) = 1%nat /\ commits (reg s) = [[demo_slot]] /\
  pc (con s) = CCheck [demo_event] Warning /\ version (reg s) = cached_version (con s) /\ cached_table (con s) = [demo_slot].
Proof.
  eexists. split.
  - go (AddSink 8 [] (reg (start 8 ∅)) (con (start 8 ∅)) (wrk (start 8 ∅)) (stp (start 8 ∅)) 0).
    go Bump. go ReadVersion. go FirstSnapshot. go Claim. go (fun cap rg r c w x => Publish cap rg r c w x 0 demo_event).
    go (fun cap rg r c w x => Collect cap rg r c w x [demo_event]). apply rtc_refl.
  - by vm_compute.
Qed.

Lemma dispatch_table_fresh_witness : exists s, reachable 8 ∅ s /\ bumps (reg s) = 1%nat /\
  exists j, (1 <= j <= 1)%nat /\ [demo_slot] = table_at (commits (reg s)) j.
Proof.
  destruct demo_collected as ([cap rg r c w x] & HR & Hb & Hc & Hpc & Hv & Ht). cbn in Hb, Hc, Hpc, Hv, Ht. eexists. split; [exact HR|]. split; [done|].
  destruct (dispatch_table_fresh 8 ∅ _ _ [demo_event] Warning [demo_slot] HR (VersionSame cap rg r c w x _ _ Hpc Hv)) as (j & Hj & E).
  - cbn. rewrite Hb. lia.
  - cbn. by rewrite Ht.
  - cbn. by rewrite Hpc.
  - exists j. cbn in Hj. rewrite Hb, Hc in Hj. split; [exact Hj|exact E].
Defined.

(** ** The janitor's reports *)
Definition settled (ss : Sinks) (id : nat) : Prop := reported_status (base_of ss id) = get_status (base_of ss id).

Lemma base_insert ss id b id' : base_of (<[id := b]> ss) id' = if (id' =? id)%nat then b else base_of ss id'.
Proof.
  unfold base_of. destruct (Nat.eqb_spec id' id) as [->|]; [by rewrite lookup_insert_eq|by rewrite lookup_insert_ne].
Qed.

Lemma report_settles t ss ss' ts :
  report_transitions t ss = (ss', ts) -> forall id, settled ss id \/ id ∈ sink <$> t -> settled ss' id.
Proof.
  revert ss ss' ts. induction t as [|slot t IH]; intros ss ss' ts; cbn [report_transitions]; [intros [= <- _] id [H|H]; [done|by apply elem_of_nil in H]|].
  case_bool_decide as Hs.
  - intros H id [Hid|[->|Hid]%elem_of_cons]; eapply IH; eauto.
  - destruct (report_transitions t _) as [ss1 ts1] eqn:E. intros [= <- _] id Hid. eapply IH; [exact E|]. unfold settled.
    rewrite !base_insert. destruct (Nat.eqb_spec id (sink slot)) as [->|Hne]; [by left|]. destruct Hid as [Hid|[?|Hid]%elem_of_cons]; [by left|done|by right].
Qed.

Lemma report_none t ss : (forall id, id ∈ sink <$> t -> settled ss id) -> report_transitions t ss = (ss, []).
Proof.
  induction t as [|slot t IH]; intros H; cbn [report_transitions]; [done|]. rewrite bool_decide_true by (apply H; by left).
  apply IH. intros id Hid. apply H. by right.
Qed.

(** A transition is reported once: a sweep right after another reports nothing, and the
    first names only sinks whose status had changed since they were last reported. *)
Theorem sweep_reports_once now now' r r' ts due :
  sweep_once now r = (r', ts, due) ->
  (forall t, t ∈ ts -> pt_from t <> pt_to t) /\ exists r'' due', sweep_once now' r' = (r'', [], due') /\ sinks r'' = sinks r'.
Proof.
  unfold sweep_once, sweep_report. cbn [table sinks republish_gate_from_registry].
  destruct (report_transitions (table r) (sinks r)) as [ss tr] eqn:E. intros [= <- <- <-]. cbn [table sinks set_sinks republish_gate_from_registry].
  split.
  - clear -E. revert ss tr E. generalize (sinks r). induction (table r) as [|slot t IH]; intros s0 ss tr; cbn [report_transitions].
    + intros [= _ <-] x Hx. by apply elem_of_nil in Hx.
    + case_bool_decide as Hs; [apply IH|]. destruct (report_transitions t _) as [ss1 ts1] eqn:E. intros [= _ <-] x [->|Hx]%elem_of_cons; [done|by eapply IH].
  - rewrite report_none; [by eexists _, _|]. intros id Hid. eapply report_settles; [exact E|by right].
Qed.
