(* ===== verification/Provider.v ===== *)
(** * logger-crow: providers, macros and the component logger

    [LoggerProvider] and the LOG_*, LOG_DIRECT_* and COMPONENT_LOG_* macros (provider/macros),
    with their once guards; [ComponentLoggerManager], whose logger is created on first use by
    any thread. Whether logging is compiled in is an argument. Formatting ([std::format]) and the
    loggers' gates are arguments too. *)

From S2P Require Import Prelude SqlText LogSink Logger.

(** ** [LoggerProvider]

    A logger is named by a number. *)
Record LoggerProvider := { provider_logger : option nat; provider_prefix : PrefixNameStorage }.

Definition no_provider : LoggerProvider := {| provider_logger := None; provider_prefix := inline_string 31 |}.
Definition logger_provider (logger : option nat) (prefix : bytes) : LoggerProvider :=
  {| provider_logger := logger; provider_prefix := inline_assign (inline_string 31) prefix |}.
Definition get_logger (p : LoggerProvider) : option nat := provider_logger p.
Definition provider_set_logger (p : LoggerProvider) (logger : option nat) : LoggerProvider :=
  {| provider_logger := logger; provider_prefix := provider_prefix p |}.
Definition set_prefix (p : LoggerProvider) (prefix : bytes) : LoggerProvider :=
  {| provider_logger := provider_logger p; provider_prefix := inline_assign (provider_prefix p) prefix |}.

(** ** Macros *)

(** What an expansion does: it does not compile, it calls through a null logger, it is a stream
    or an expression that discards everything, or it calls the logger, which publishes an event
    unless its gate is closed. *)
Inductive expansion := IllFormed | NullLogger | Discarded | Called (logger : nat) (published : option LogEvent).

(** What the LOG_* macros are when logging is not compiled in: a [DummyStream]. *)
Definition DummyStream : expansion := Discarded.

(** The call site: what [std::source_location::current()] and [publish_event] record. *)
Record call_site := { site_location : source_location; site_time : Z; site_tid : Z; site_pid : Z }.

Section macros.
Context {A : Type} (format : A -> list A -> bytes) (gate : nat -> Z).

(** [SLOG_DIRECT_FMT] and the streams LOG_*_STREAM: [inserted] is what the statement streams. *)
Definition stream_call (logger : option nat) (lvl : LogLevel) (prefix : bytes) (inserted : list bytes) (c : call_site) : expansion :=
  match logger with
  | None => NullLogger
  | Some l => Called l (stream (gate l) lvl prefix inserted (site_location c) (site_time c) (site_tid c) (site_pid c))
  end.

(** [LOG_DIRECT_FMT] and LOG_*_FMT: [fmt, __VA_ARGS__] ends in a comma when there is only a format. *)
Definition fmt_call (logger : option nat) (lvl : LogLevel) (prefix : bytes) (fmt : A) (args : list A) (c : call_site) : expansion :=
  match args, logger with
  | [], _ => IllFormed
  | _, None => NullLogger
  | _, Some l => Called l (log (gate l) lvl prefix (format fmt args) (site_location c) (site_time c) (site_tid c) (site_pid c))
  end.

(** LOG_TRC to LOG_FAT: without arguments a stream, with arguments a format. *)
Definition LOG (ENABLE_LOGGING : bool) (p : LoggerProvider) (lvl : LogLevel) (args : list A) (inserted : list bytes) (c : call_site) : expansion :=
  if negb ENABLE_LOGGING then DummyStream else
  match args with
  | [] => stream_call (get_logger p) lvl (inline_view (provider_prefix p)) inserted c
  | fmt :: rest => fmt_call (get_logger p) lvl (inline_view (provider_prefix p)) fmt rest c
  end.

Definition LOG_DIRECT_FMT (ENABLE_LOGGING : bool) (logger : option nat) (lvl : LogLevel) (prefix : bytes) (fmt : A) (args : list A) (c : call_site) : expansion :=
  if ENABLE_LOGGING then fmt_call logger lvl prefix fmt args c else Discarded.
Definition LOG_DIRECT_STREAM (ENABLE_LOGGING : bool) (logger : option nat) (lvl : LogLevel) (prefix : bytes) (inserted : list bytes) (c : call_site) : expansion :=
  if ENABLE_LOGGING then stream_call logger lvl prefix inserted c else DummyStream.

(** [component] is what [ComponentLoggerManager::get()] returns. *)
Definition COMPONENT_LOG (COMPONENT_LOGGING ENABLE_LOGGING : bool) (component : option nat) (class_prefix : PrefixNameStorage)
    (lvl : LogLevel) (inserted : list bytes) (c : call_site) : expansion :=
  if COMPONENT_LOGGING then LOG_DIRECT_STREAM ENABLE_LOGGING component lvl (inline_view class_prefix) inserted c else DummyStream.
Definition COMPONENT_LOG_ENTER_FUNCTION (COMPONENT_LOGGING ENABLE_LOGGING : bool) component class_prefix (func : bytes) (c : call_site) : expansion :=
  COMPONENT_LOG COMPONENT_LOGGING ENABLE_LOGGING component class_prefix Info [B "Entering function "; func] c.
Definition COMPONENT_LOG_LEAVE_FUNCTION (COMPONENT_LOGGING ENABLE_LOGGING : bool) component class_prefix (func : bytes) (c : call_site) : expansion :=
  COMPONENT_LOG COMPONENT_LOGGING ENABLE_LOGGING component class_prefix Info [B "Leaving function "; func] c.

(** The LOG_*_ONCE statements: [guard] is what the site's guard gives this evaluation. [None]:
    the statement is skipped. *)
Definition LOG_ONCE (guard ENABLE_LOGGING : bool) (p : LoggerProvider) (lvl : LogLevel) (args : list A) (inserted : list bytes) (c : call_site) : option expansion :=
  if negb ENABLE_LOGGING then Some DummyStream else if guard then Some (LOG ENABLE_LOGGING p lvl args inserted c) else None.
Definition COMPONENT_LOG_ONCE (guard COMPONENT_LOGGING ENABLE_LOGGING : bool) (component : option nat) (class_prefix : PrefixNameStorage)
    (lvl : LogLevel) (inserted : list bytes) (c : call_site) : option expansion :=
  if negb COMPONENT_LOGGING then Some DummyStream
  else if guard then Some (COMPONENT_LOG COMPONENT_LOGGING ENABLE_LOGGING component class_prefix lvl inserted c) else None.
End macros.

(** [CROW_COMPONENT_PREFIX]: a name that does not fit is a compile error. *)
Definition CROW_COMPONENT_PREFIX (name : bytes) : option PrefixNameStorage :=
  if length name <=? 31 then Some (inline_assign (inline_string 31) name) else None.

(** [CROW_PARAMS]: the arguments as their text and value. There are formatters for one to eight
    of them; [COUNT_ARGS] counts none as one, whose formatter then lacks its operand. *)
Fixpoint fmt_params (shown : bytes) (params : list (bytes * bytes)) : bytes :=
  match params with
  | [] => shown
  | (name, value) :: params => fmt_params (shown ++ B ", " ++ name ++ B "=" ++ value) params
  end.
Definition CROW_PARAMS (params : list (bytes * bytes)) : option bytes :=
  match params with
  | [] => None
  | (name, value) :: rest => if length params <=? 8 then Some (B " " ++ fmt_params (name ++ B "=" ++ value) rest) else None
  end.

(** ** Once guards

    Each call site has a flag. The plain guard reads it and then writes it; the atomic guard
    exchanges it in one step. *)
Inductive once_pc := Before | Loaded (seen : bool) | Passed (logs : bool).
Record once_state := { flag : bool; once_pcs : nat -> once_pc }.
Definition once_init : once_state := {| flag := false; once_pcs := fun _ => Before |}.
Definition set_pc (s : once_state) (f : bool) (t : nat) (pc : once_pc) : once_state :=
  {| flag := f; once_pcs := fun u => if u =? t then pc else once_pcs s u |}.

(** A thread's next access; each thread evaluates the guard once. *)
Definition CROW_ONCE_GUARD (t : nat) (s : once_state) : once_state :=
  match once_pcs s t with
  | Before => set_pc s (flag s) t (Loaded (flag s))
  | Loaded seen => set_pc s true t (Passed (negb seen))
  | Passed _ => s
  end.
Definition CROW_ATOMIC_ONCE_GUARD (t : nat) (s : once_state) : once_state :=
  match once_pcs s t with
  | Before => set_pc s true t (Passed (negb (flag s)))
  | Loaded _ | Passed _ => s
  end.

Definition schedule (guard : nat -> once_state -> once_state) (ts : list nat) : once_state := foldl (fun s t => guard t s) once_init ts.
Definition logs_once (s : once_state) (t : nat) : bool := match once_pcs s t with Passed true => true | _ => false end.

(** ** [ComponentLoggerManager]

    [logger_] is a static shared pointer without a lock. [alive] are the loggers that exist: a
    fallback logger is destroyed with the last pointer to it, which is [logger_]; a logger of the
    locator lives on. *)
Inductive get_pc := Outside | SawNull | Initialized | Got (logger : option nat).
Record manager := { logger_ : option nat; alive : list nat; made : nat; get_pcs : nat -> get_pc }.

Section manager.
(** What [spider::instance().get<Logger>()] does: a logger, a null pointer, or an exception. *)
Context (spider_logger : result exn (option nat)).

(** Assignment to [logger_]: the former fallback logger goes. *)
Definition assign_logger (s : manager) (l : option nat) (alive' : list nat) : manager :=
  {| logger_ := l; alive := filter (fun x => Some x <> logger_ s \/ spider_logger = Ok (Some x) \/ Some x = l) alive';
     made := made s; get_pcs := get_pcs s |}.

Definition initialize (s : manager) : manager :=
  match spider_logger with
  | Ok (Some l) => assign_logger s (Some l) (alive s)
  | Ok None | Err _ =>
      let s' := assign_logger s (Some (made s)) (made s :: alive s) in
      {| logger_ := logger_ s'; alive := alive s'; made := S (made s'); get_pcs := get_pcs s' |}
  end.

Definition at_pc (s : manager) (t : nat) (pc : get_pc) : manager :=
  {| logger_ := logger_ s; alive := alive s; made := made s; get_pcs := fun u => if u =? t then pc else get_pcs s u |}.

(** The next step of thread [t] inside [get()]: the test, the initialization, the return. *)
Definition get_step (t : nat) (s : manager) : manager :=
  match get_pcs s t with
  | Outside => at_pc s t (if logger_ s then Initialized else SawNull)
  | SawNull => at_pc (initialize s) t Initialized
  | Initialized => at_pc s t (Got (logger_ s))
  | Got _ => s
  end.

Definition gets (ts : list nat) (s : manager) : manager := foldl (fun s t => get_step t s) s ts.

(** The whole call, without interference. *)
Definition get (s : manager) : option nat * manager :=
  let s := if logger_ s then s else initialize s in (logger_ s, s).

Definition component_set_logger (l : option nat) (s : manager) : manager := assign_logger s l (alive s).
End manager.

(** Nothing is set yet; the loggers that exist are the locator's, numbered below [n]. *)
Definition unset (existing : list nat) (n : nat) : manager :=
  {| logger_ := None; alive := existing; made := n; get_pcs := fun _ => Outside |}.

(** ** Theorems *)

(** A format call publishes one event with the formatted text, the level and the provider's
    prefix, of which the first 31 characters are kept; a closed gate publishes nothing. *)
Theorem log_macro_event {A} (format : A -> list A -> bytes) gate l name lvl fmt arg args inserted c :
  LOG format gate true (logger_provider (Some l) name) lvl (fmt :: arg :: args) inserted c =
    Called l (if passes_gate (gate l) lvl
              then Some (make_event lvl (take 31 name) (format fmt (arg :: args)) (site_location c) (site_time c) (site_tid c) (site_pid c))
              else None).
Proof. unfold LOG, fmt_call, get_logger, log. cbn [negb provider_logger logger_provider provider_prefix]. rewrite assigned_prefix. by destruct (passes_gate _ _). Qed.

(** A prefix declared for a class is exactly the declared name. *)
Theorem component_prefix_exact name s : CROW_COMPONENT_PREFIX name = Some s -> inline_view s = name.
Proof.
  unfold CROW_COMPONENT_PREFIX. destruct (Nat.leb_spec (length name) 31); [|done]. intros [= <-]. rewrite assigned_prefix. by apply take_ge.
Qed.

Lemma fmt_params_join shown ps : fmt_params shown ps = join_with (B ", ") (shown :: ((fun p => fst p ++ B "=" ++ snd p) <$> ps)).
Proof.
  revert shown. induction ps as [|[name value] ps IH]; intros shown; [done|]. cbn [fmt_params fmap list_fmap fst snd]. rewrite IH.
  cbn [join_with fmap list_fmap fst snd]. destruct ps as [|p ps]; cbn [fmap list_fmap]; rewrite <- ?app_assoc; done.
Qed.

(** One to eight parameters are rendered as [ name=value, name=value]; other numbers do not
    compile. *)
Theorem crow_params_correct ps :
  CROW_PARAMS ps =
  if (1 <=? length ps) && (length ps <=? 8) then Some (B " " ++ join_with (B ", ") ((fun p => fst p ++ B "=" ++ snd p) <$> ps)) else None.
Proof. destruct ps as [|[name value] ps]; [done|]. unfold CROW_PARAMS. rewrite fmt_params_join. done. Qed.

(** *** Once guards *)
Lemma atomic_once_later ts s u : flag s = true -> (forall t, logs_once s t = (t =? u)) ->
  forall t, logs_once (foldl (fun s t => CROW_ATOMIC_ONCE_GUARD t s) s ts) t = (t =? u).
Proof.
  revert s. induction ts as [|v ts IH]; intros s HF HL; [done|]. cbn. apply IH; unfold CROW_ATOMIC_ONCE_GUARD.
  - by destruct (once_pcs s v).
  - intros t. destruct (once_pcs s v) eqn:E; [|done..]. rewrite HF. specialize (HL t). unfold logs_once, set_pc in *. cbn.
    destruct (Nat.eqb_spec t v) as [->|]; [|done]. by rewrite E in HL.
Qed.

(** However the threads are scheduled, the atomic guard lets exactly the first one through. *)
Theorem atomic_once_exact t ts u : logs_once (schedule CROW_ATOMIC_ONCE_GUARD (t :: ts)) u = (u =? t).
Proof.
  unfold schedule. cbn. apply atomic_once_later; [done|]. intros v. unfold logs_once. cbn. by destruct (v =? t).
Qed.

(** Behind it, the statement of the first thread is the only one that is executed. *)
Corollary log_atomic_once {A} (format : A -> list A -> bytes) gate p lvl args inserted c t ts u :
  LOG_ONCE format gate (logs_once (schedule CROW_ATOMIC_ONCE_GUARD (t :: ts)) u) true p lvl args inserted c =
  if u =? t then Some (LOG format gate true p lvl args inserted c) else None.
Proof. by rewrite atomic_once_exact. Qed.

(** The plain guard never loses the message: when some thread has passed, one has logged. *)
Definition once_inv (s : once_state) : Prop :=
  (flag s = true -> exists u, logs_once s u = true) /\ (forall t, once_pcs s t = Loaded true -> flag s = true) /\
  (forall t b, once_pcs s t = Passed b -> flag s = true).

Lemma once_step_inv t s : once_inv s -> once_inv (CROW_ONCE_GUARD t s).
Proof.
  intros (H1 & H2 & H3). unfold CROW_ONCE_GUARD. destruct (once_pcs s t) as [|seen|] eqn:E; [| |done]; split_and!; cbn.
  - intros [u Hu]%H1. exists u. unfold logs_once in *. cbn. destruct (Nat.eqb_spec u t) as [->|]; [by rewrite E in Hu|done].
  - intros v. destruct (Nat.eqb_spec v t); [by intros [= ->]|apply H2].
  - intros v b. destruct (Nat.eqb_spec v t); [done|apply H3].
  - intros _. destruct seen.
    + destruct (H1 (H2 t E)) as [u Hu]. exists u. unfold logs_once in *. cbn. destruct (Nat.eqb_spec u t) as [->|]; [by rewrite E in Hu|done].
    + exists t. unfold logs_once. cbn. by rewrite Nat.eqb_refl.
  - done.
  - done.
Qed.

Theorem once_never_lost ts t b : once_pcs (schedule CROW_ONCE_GUARD ts) t = Passed b ->
  exists u, logs_once (schedule CROW_ONCE_GUARD ts) u = true.
Proof.
  assert (once_inv (schedule CROW_ONCE_GUARD ts)) as (H1 & _ & H3).
  { unfold schedule. assert (once_inv once_init) as H0 by (by split_and!). revert H0. generalize once_init.
    induction ts as [|v ts IH]; intros s H; [done|]. cbn. by apply IH, once_step_inv. }
  intros H. apply H1, (H3 t b H).
Qed.

(** ... but two threads that read the flag before either writes it both log. *)
Example once_twice : let s := schedule CROW_ONCE_GUARD [1; 2; 1; 2] in logs_once s 1 = true /\ logs_once s 2 = true.
Proof. done. Qed.

(** *** The component logger *)

(** A call without interference returns a logger that exists, and so does every later one. *)
Theorem component_get_stable sp existing n l s :
  (forall x, sp = Ok (Some x) -> x ∈ existing) ->
  get sp (unset existing n) = (l, s) -> exists x, l = Some x /\ x ∈ alive s /\ get sp s = (l, s).
Proof.
  intros HS. unfold get. cbn [logger_ unset]. destruct sp as [[x|]|e]; cbn [initialize assign_logger logger_ alive made]; intros [= <- <-];
    eexists; (split; [done|]); (split; [|done]); cbn [alive]; apply list_elem_of_filter; split;
    (by right; right) || (by left) || by apply HS.
Qed.

(** With a logger in the locator all threads get that one, however their calls interleave. *)
Theorem registered_logger_shared x existing n ts t l :
  get_pcs (gets (Ok (Some x)) ts (unset existing n)) t = Got l -> l = Some x.
Proof.
  set (inv := fun s => (logger_ s = None \/ logger_ s = Some x) /\
    (forall u, get_pcs s u = Initialized -> logger_ s = Some x) /\ (forall u k, get_pcs s u = Got k -> k = Some x)).
  assert (HS : forall u s, inv s -> inv (get_step (Ok (Some x)) u s)).
  { intros u s (H1 & H2 & H3). unfold get_step. destruct (get_pcs s u) eqn:E; [..|done]; unfold inv; cbn; split_and!.
    - done.
    - intros v. destruct (Nat.eqb_spec v u); [|apply H2]. destruct H1 as [H1|H1]; rewrite H1; done.
    - intros v k. destruct (Nat.eqb_spec v u); [by destruct (logger_ s)|apply H3].
    - by right.
    - done.
    - intros v k. destruct (Nat.eqb_spec v u); [done|apply H3].
    - done.
    - intros v. destruct (Nat.eqb_spec v u); [done|apply H2].
    - intros v k. destruct (Nat.eqb_spec v u); [|apply H3]. intros [= <-]. by apply (H2 u). }
  assert (inv (unset existing n)) as H0 by (unfold inv; cbn; split_and!; auto; done).
  unfold gets. revert H0. generalize (unset existing n). induction ts as [|u ts IH]; intros s H; cbn; [apply H|]. by apply IH, HS.
Qed.

(** Without one, two threads that find the pointer null each create a fallback: the second
    assignment destroys the logger whose address the first thread already holds. *)
Example component_get_races :
  let s := gets (Ok None) [1; 2; 1; 1; 2; 2] (unset [] 0) in
  get_pcs s 1 = Got (Some 0) /\ get_pcs s 2 = Got (Some 1) /\ alive s = [1].
Proof. vm_compute. done. Qed.

(** A format without arguments is not accepted by the macros. *)
Example log_literal : LOG (fun fmt _ => fmt) (fun _ => 0%Z) true (logger_provider (Some 0) (B "Server")) Info [B "ready"] []
  {| site_location := {| file_name := []; function_name := None; line := 0 |}; site_time := 0; site_tid := 0; site_pid := 0 |} = IllFormed.
Proof. reflexivity. Qed.
