(* ===== verification/SettingsJson.v ===== *)
(** * The configurations of the logger and of the PostgreSQL provider as JSON

    The field descriptors and builders of [LoggerConfig], [ConsoleSinkConfig] and [FileSinkConfig]
    (logger-crow) and of [PoolConfig], [ConnectionCredentials] and [ConnectionConfig]
    (postgresql-elephant), over the codecs of Pangolin.v. *)

From S2P Require Import Prelude StringMap Headers HttpTypes Config Pangolin ConfigJson LogSink FileSink Logger ConnectionPool ConnectionConfig.

#[local] Open Scope Z_scope.

(** ** Enums

    Read by a cast from [int] to the underlying type, [std::uint8_t] or [int]. *)
Definition level_cast (z : Z) : LogLevel := level_of_code (z mod 256).

Definition wait_strategy_code (s : WaitStrategy) : Z :=
  match s with BusySpin => 0 | Yielding => 1 | Blocking => 2 | StrategyValue v => v end.
Definition wait_strategy_cast (z : Z) : WaitStrategy :=
  if z =? 0 then BusySpin else if z =? 1 then Yielding else if z =? 2 then Blocking else StrategyValue z.

Definition node_role_code (r : NodeRole) : Z :=
  match r with PRIMARY => 0 | STANDBY_SYNC => 1 | STANDBY_ASYNC => 2 | ANALYTICS => 3 | ARCHIVE => 4 | RoleValue v => v end.
Definition node_role_cast (z : Z) : NodeRole :=
  if z =? 0 then PRIMARY else if z =? 1 then STANDBY_SYNC else if z =? 2 then STANDBY_ASYNC else if z =? 3 then ANALYTICS
  else if z =? 4 then ARCHIVE else RoleValue z.

Definition ssl_mode_code (m : SslMode) : Z :=
  match m with DISABLE => 0 | ALLOW => 1 | PREFER => 2 | REQUIRE => 3 | VERIFY_CA => 4 | VERIFY_FULL => 5 | SslValue v => v end.
Definition ssl_mode_cast (z : Z) : SslMode :=
  let z := z mod 256 in
  if z =? 0 then DISABLE else if z =? 1 then ALLOW else if z =? 2 then PREFER else if z =? 3 then REQUIRE
  else if z =? 4 then VERIFY_CA else if z =? 5 then VERIFY_FULL else SslValue z.

(** ** The builders' setters *)
Definition logger_set_ring_buffer_size (c : LoggerConfig) v := Build_LoggerConfig v (pool_size c) (wait_strategy c) (Logger.health_check_interval c).
Definition logger_set_pool_size (c : LoggerConfig) v := Build_LoggerConfig (ring_buffer_size c) v (wait_strategy c) (Logger.health_check_interval c).
Definition logger_set_wait_strategy (c : LoggerConfig) v := Build_LoggerConfig (ring_buffer_size c) (pool_size c) v (Logger.health_check_interval c).
Definition logger_set_health_check_interval (c : LoggerConfig) v := Build_LoggerConfig (ring_buffer_size c) (pool_size c) (wait_strategy c) v.
Definition logger_finalize (c : LoggerConfig) : result exn LoggerConfig := _ ← Logger.validate c; Ok c.

Module Console.
Import LogSink.ConsoleSink.
Definition set_threshold (c : ConsoleSinkConfig) v := Build_ConsoleSinkConfig v (enable_colors_ c) (flush_each_entry_ c) (prefix_filter_ c).
Definition set_enable_colors (c : ConsoleSinkConfig) v := Build_ConsoleSinkConfig (threshold_ c) v (flush_each_entry_ c) (prefix_filter_ c).
Definition set_flush_each_entry (c : ConsoleSinkConfig) v := Build_ConsoleSinkConfig (threshold_ c) (enable_colors_ c) v (prefix_filter_ c).
Definition set_prefix_filter (c : ConsoleSinkConfig) v := Build_ConsoleSinkConfig (threshold_ c) (enable_colors_ c) (flush_each_entry_ c) v.
(** Always valid. *)
Definition validate (c : ConsoleSinkConfig) : result exn unit := Ok tt.
Definition finalize (c : ConsoleSinkConfig) : result exn ConsoleSinkConfig := _ ← validate c; Ok c.
End Console.

Module File.
Import FileSink.
Definition set_threshold (c : FileSinkConfig) v := Build_FileSinkConfig v (file_ c) (add_time_to_filename_ c) (time_format_in_file_name_ c) (rotate_file_ c) (max_file_size_ c) (flush_each_entry_ c) (prefix_filter_ c).
Definition set_file (c : FileSinkConfig) v := Build_FileSinkConfig (threshold_ c) v (add_time_to_filename_ c) (time_format_in_file_name_ c) (rotate_file_ c) (max_file_size_ c) (flush_each_entry_ c) (prefix_filter_ c).
Definition set_add_time (c : FileSinkConfig) v := Build_FileSinkConfig (threshold_ c) (file_ c) v (time_format_in_file_name_ c) (rotate_file_ c) (max_file_size_ c) (flush_each_entry_ c) (prefix_filter_ c).
Definition set_time_format (c : FileSinkConfig) v := Build_FileSinkConfig (threshold_ c) (file_ c) (add_time_to_filename_ c) v (rotate_file_ c) (max_file_size_ c) (flush_each_entry_ c) (prefix_filter_ c).
Definition set_rotate_file (c : FileSinkConfig) v := Build_FileSinkConfig (threshold_ c) (file_ c) (add_time_to_filename_ c) (time_format_in_file_name_ c) v (max_file_size_ c) (flush_each_entry_ c) (prefix_filter_ c).
Definition set_max_file_size (c : FileSinkConfig) v := Build_FileSinkConfig (threshold_ c) (file_ c) (add_time_to_filename_ c) (time_format_in_file_name_ c) (rotate_file_ c) v (flush_each_entry_ c) (prefix_filter_ c).
Definition set_flush_each_entry (c : FileSinkConfig) v := Build_FileSinkConfig (threshold_ c) (file_ c) (add_time_to_filename_ c) (time_format_in_file_name_ c) (rotate_file_ c) (max_file_size_ c) v (prefix_filter_ c).
Definition set_prefix_filter (c : FileSinkConfig) v := Build_FileSinkConfig (threshold_ c) (file_ c) (add_time_to_filename_ c) (time_format_in_file_name_ c) (rotate_file_ c) (max_file_size_ c) (flush_each_entry_ c) v.
End File.

Module PoolSettings.
Import ConnectionPool.
Definition set_capacity (c : PoolConfig) v := Build_PoolConfig v (min_connections c) (connect_timeout c) (idle_timeout c) (health_check_interval c) (max_lifetime c) (pool_cleanup_sql c).
Definition set_min_connections (c : PoolConfig) v := Build_PoolConfig (capacity c) v (connect_timeout c) (idle_timeout c) (health_check_interval c) (max_lifetime c) (pool_cleanup_sql c).
Definition set_connect_timeout (c : PoolConfig) v := Build_PoolConfig (capacity c) (min_connections c) v (idle_timeout c) (health_check_interval c) (max_lifetime c) (pool_cleanup_sql c).
Definition set_idle_timeout (c : PoolConfig) v := Build_PoolConfig (capacity c) (min_connections c) (connect_timeout c) v (health_check_interval c) (max_lifetime c) (pool_cleanup_sql c).
Definition set_health_check_interval (c : PoolConfig) v := Build_PoolConfig (capacity c) (min_connections c) (connect_timeout c) (idle_timeout c) v (max_lifetime c) (pool_cleanup_sql c).
Definition set_max_lifetime (c : PoolConfig) v := Build_PoolConfig (capacity c) (min_connections c) (connect_timeout c) (idle_timeout c) (health_check_interval c) v (pool_cleanup_sql c).
Definition set_cleanup_sql (c : PoolConfig) v := Build_PoolConfig (capacity c) (min_connections c) (connect_timeout c) (idle_timeout c) (health_check_interval c) (max_lifetime c) v.
Definition finalize (c : PoolConfig) : result exn PoolConfig := _ ← pool_validate c; Ok c.

(** The presets. *)
Definition minimal : result exn PoolConfig := finalize (set_min_connections (set_capacity default_pool_config 2%nat) 1%nat).
Definition standard : result exn PoolConfig := finalize default_pool_config.
Definition high_performance : result exn PoolConfig :=
  finalize (set_health_check_interval (set_min_connections (set_capacity default_pool_config 64%nat) 8%nat) 15).

Lemma presets_valid : (exists c, minimal = Ok c /\ capacity c = 2%nat) /\ (exists c, standard = Ok c /\ capacity c = 16%nat) /\
  (exists c, high_performance = Ok c /\ capacity c = 64%nat).
Proof. split_and!; eexists; split; vm_compute; reflexivity. Qed.
End PoolSettings.

Module Credentials.
Import ConnectionConfig.
Definition set_host (c : ConnectionCredentials) v := Build_ConnectionCredentials v (port c) (dbname c) (user c) (password c).
Definition set_port (c : ConnectionCredentials) v := Build_ConnectionCredentials (host c) v (dbname c) (user c) (password c).
Definition set_port_number (c : ConnectionCredentials) (v : N) := set_port c (to_decimal v).
Definition set_dbname (c : ConnectionCredentials) v := Build_ConnectionCredentials (host c) (port c) v (user c) (password c).
Definition set_user (c : ConnectionCredentials) v := Build_ConnectionCredentials (host c) (port c) (dbname c) v (password c).
Definition set_password (c : ConnectionCredentials) v := Build_ConnectionCredentials (host c) (port c) (dbname c) (user c) v.
Definition finalize (c : ConnectionCredentials) : result exn ConnectionCredentials := _ ← validate_credentials c; Ok c.
End Credentials.

(** Assignment to the optional members of a [ConnectionConfig]; the others have setters. *)
Definition put_ssl_cert (c : ConnectionConfig) (v : option bytes) : ConnectionConfig :=
  mkConfig (credentials c) (role c) (priority c) (cluster_name c) (ConnectionConfig.connect_timeout c) (statement_timeout c)
    (idle_in_transaction_timeout c) (lock_timeout c) (ssl_mode c) v (ssl_key c) (ssl_root_cert c)
    (binary_protocol c) (auto_prepare c) (pipeline_mode c) (application_name c) (search_path c) (work_mem_mb c) (jit c) (extra_options c).
Definition put_ssl_key (c : ConnectionConfig) (v : option bytes) : ConnectionConfig :=
  mkConfig (credentials c) (role c) (priority c) (cluster_name c) (ConnectionConfig.connect_timeout c) (statement_timeout c)
    (idle_in_transaction_timeout c) (lock_timeout c) (ssl_mode c) (ssl_cert c) v (ssl_root_cert c)
    (binary_protocol c) (auto_prepare c) (pipeline_mode c) (application_name c) (search_path c) (work_mem_mb c) (jit c) (extra_options c).
Definition put_ssl_root_cert (c : ConnectionConfig) (v : option bytes) : ConnectionConfig :=
  mkConfig (credentials c) (role c) (priority c) (cluster_name c) (ConnectionConfig.connect_timeout c) (statement_timeout c)
    (idle_in_transaction_timeout c) (lock_timeout c) (ssl_mode c) (ssl_cert c) (ssl_key c) v
    (binary_protocol c) (auto_prepare c) (pipeline_mode c) (application_name c) (search_path c) (work_mem_mb c) (jit c) (extra_options c).

(** ** The descriptors *)
Section settings.
Context {J : Type} `{JL : JsonLib J}.

Definition level_codec : codec (J := J) LogLevel := enum_codec level_code level_cast.
Definition wait_strategy_codec : codec (J := J) WaitStrategy := enum_codec wait_strategy_code wait_strategy_cast.
Definition node_role_codec : codec (J := J) NodeRole := enum_codec node_role_code node_role_cast.
Definition ssl_mode_codec : codec (J := J) SslMode := enum_codec ssl_mode_code ssl_mode_cast.

(** Members that are [nat] in the records. *)
Definition count_codec (c : codec (J := J) Z) : codec nat :=
  {| write_field out k v := write_field c out k (Z.of_nat v);
     read_field inp k v := r ← read_field c inp k (Z.of_nat v); Ok (r.1, Z.to_nat r.2) |}.

(** An excluded field needs no overloads. *)
Definition excluded_codec {T} : codec (J := J) T := {| write_field out _ _ := Ok out; read_field _ _ v := Ok (false, v) |}.

Definition logger_fields : list (Field (J := J) LoggerConfig) :=
  [field ring_buffer_size logger_set_ring_buffer_size (B "ring_buffer_size") Normal size_codec;
   field pool_size logger_set_pool_size (B "pool_size") Normal size_codec;
   field wait_strategy logger_set_wait_strategy (B "wait_strategy") Normal wait_strategy_codec;
   field Logger.health_check_interval logger_set_health_check_interval (B "health_check_interval") Normal duration_codec].

Definition logger_type : ConfigType (J := J) LoggerConfig :=
  {| Pangolin.fields := logger_fields; Pangolin.validate := Logger.validate; Pangolin.builder := default_logger_config; Pangolin.finalize := logger_finalize |}.

(** The output stream, also excluded, is not a member of the record. *)
Definition console_fields : list (Field (J := J) ConsoleSink.ConsoleSinkConfig) :=
  [field ConsoleSink.threshold_ Console.set_threshold (B "threshold") Normal level_codec;
   field ConsoleSink.enable_colors_ Console.set_enable_colors (B "enable_colors") Normal bool_codec;
   field ConsoleSink.flush_each_entry_ Console.set_flush_each_entry (B "flush_each_entry") Normal bool_codec;
   field ConsoleSink.prefix_filter_ Console.set_prefix_filter (B "prefix_filter") Excluded excluded_codec].

Definition console_type : ConfigType (J := J) ConsoleSink.ConsoleSinkConfig :=
  {| Pangolin.fields := console_fields; Pangolin.validate := Console.validate; Pangolin.builder := ConsoleSink.default_config; Pangolin.finalize := Console.finalize |}.

Definition file_fields : list (Field (J := J) FileSinkConfig) :=
  [field FileSink.threshold_ File.set_threshold (B "threshold") Normal level_codec;
   field FileSink.file_ File.set_file (B "file") Normal path_codec;
   field FileSink.add_time_to_filename_ File.set_add_time (B "add_time_to_filename") Normal bool_codec;
   field FileSink.time_format_in_file_name_ File.set_time_format (B "time_format_in_file_name") Normal string_codec;
   field FileSink.rotate_file_ File.set_rotate_file (B "rotate_file") Normal bool_codec;
   field FileSink.max_file_size_ File.set_max_file_size (B "max_file_size") Normal size_codec;
   field FileSink.flush_each_entry_ File.set_flush_each_entry (B "flush_each_entry") Normal bool_codec;
   field FileSink.prefix_filter_ File.set_prefix_filter (B "prefix_filter") Excluded excluded_codec].

Definition file_type : ConfigType (J := J) FileSinkConfig :=
  {| Pangolin.fields := file_fields; Pangolin.validate := FileSink.validate; Pangolin.builder := default_file_config; Pangolin.finalize := FileSink.finalize |}.

Definition pool_fields : list (Field (J := J) PoolConfig) :=
  [field capacity PoolSettings.set_capacity (B "capacity") Normal (count_codec size_codec);
   field min_connections PoolSettings.set_min_connections (B "min_connections") Normal (count_codec size_codec);
   field ConnectionPool.connect_timeout PoolSettings.set_connect_timeout (B "connect_timeout") Normal duration_codec;
   field idle_timeout PoolSettings.set_idle_timeout (B "idle_timeout") Normal duration_codec;
   field ConnectionPool.health_check_interval PoolSettings.set_health_check_interval (B "health_check_interval") Normal duration_codec;
   field max_lifetime PoolSettings.set_max_lifetime (B "max_lifetime") Normal duration_codec;
   field pool_cleanup_sql PoolSettings.set_cleanup_sql (B "cleanup_sql") Normal string_codec].

Definition pool_type : ConfigType (J := J) PoolConfig :=
  {| Pangolin.fields := pool_fields; Pangolin.validate := pool_validate; Pangolin.builder := default_pool_config; Pangolin.finalize := PoolSettings.finalize |}.

Definition credentials_fields : list (Field (J := J) ConnectionCredentials) :=
  [field host Credentials.set_host (B "host") Normal string_codec;
   field port Credentials.set_port (B "port") Normal string_codec;
   field dbname Credentials.set_dbname (B "dbname") Normal string_codec;
   field user Credentials.set_user (B "user") Normal string_codec;
   field password Credentials.set_password (B "password") Secret string_codec].

Definition credentials_type : ConfigType (J := J) ConnectionCredentials :=
  {| Pangolin.fields := credentials_fields; Pangolin.validate := validate_credentials; Pangolin.builder := default_credentials; Pangolin.finalize := Credentials.finalize |}.

Definition connection_fields : list (Field (J := J) ConnectionConfig) :=
  [field credentials with_credentials (B "credentials") Normal (nested_codec credentials_type);
   field role with_role (B "role") Normal node_role_codec;
   field priority with_priority (B "priority") Normal int_codec;
   field cluster_name with_cluster_name (B "cluster_name") Normal string_codec;
   field ConnectionConfig.connect_timeout with_connect_timeout (B "connect_timeout") Normal duration_codec;
   field statement_timeout with_statement_timeout (B "statement_timeout") Normal duration_codec;
   field idle_in_transaction_timeout with_idle_in_transaction_timeout (B "idle_in_transaction_timeout") Normal duration_codec;
   field lock_timeout with_lock_timeout (B "lock_timeout") Normal duration_codec;
   field ssl_mode with_ssl_mode (B "ssl_mode") Normal ssl_mode_codec;
   field ssl_cert put_ssl_cert (B "ssl_cert") Normal (optional_codec string_codec []);
   field ssl_key put_ssl_key (B "ssl_key") Normal (optional_codec string_codec []);
   field ssl_root_cert put_ssl_root_cert (B "ssl_root_cert") Normal (optional_codec string_codec []);
   field binary_protocol with_binary_protocol (B "binary_protocol") Normal bool_codec;
   field auto_prepare with_auto_prepare (B "auto_prepare") Normal bool_codec;
   field pipeline_mode with_pipeline_mode (B "pipeline_mode") Normal bool_codec;
   field application_name with_application_name (B "application_name") Normal string_codec;
   field search_path with_search_path (B "search_path") Normal string_codec;
   field work_mem_mb with_work_mem_mb (B "work_mem_mb") Normal (unsigned_codec size_codec);
   field jit with_jit (B "jit") Normal bool_codec;
   field extra_options with_extra_options (B "extra_options") Normal map_codec].

Definition connection_type : ConfigType (J := J) ConnectionConfig :=
  {| Pangolin.fields := connection_fields; Pangolin.validate := ConnectionConfig.validate; Pangolin.builder := ConnectionConfig.builder;
     Pangolin.finalize := ConnectionConfig.finalize |}.

End settings.

(** ** Round trips

    The ranges are those of the members' C++ types. *)
Definition int32 (z : Z) : Prop := - 2 ^ 31 <= z < 2 ^ 31.
Definition int64 (z : Z) : Prop := - 2 ^ 63 <= z < 2 ^ 63.
Definition size (z : Z) : Prop := 0 <= z < 2 ^ 64.

(** A member holds each value in one way: unnamed ones are neither the code of a name nor outside
    the underlying type. *)
Definition enum_ok {E} (lo hi : Z) (code : E -> Z) (cast : Z -> E) (v : E) : Prop := lo <= code v < hi /\ cast (code v) = v.
Definition level_ok : LogLevel -> Prop := enum_ok 0 256 level_code level_cast.
Definition strategy_ok : WaitStrategy -> Prop := enum_ok (- 2 ^ 31) (2 ^ 31) wait_strategy_code wait_strategy_cast.
Definition role_ok : NodeRole -> Prop := enum_ok (- 2 ^ 31) (2 ^ 31) node_role_code node_role_cast.
Definition ssl_ok : SslMode -> Prop := enum_ok 0 256 ssl_mode_code ssl_mode_cast.

Section facts.
Context {J : Type} `{JL : JsonLib J, LW : !JsonLaws J, !JsonNames J}.

Lemma cast_reads_back {E} (lo hi : Z) (code : E -> Z) cast v :
  enum_ok lo hi code cast v -> - 2 ^ 31 <= lo -> hi <= 2 ^ 31 -> reads_back (J := J) (enum_codec code cast) v (Some v).
Proof. intros [Hc Hv] Hl Hh. apply enum_reads_back; [lia|done]. Qed.

Lemma count_reads_back (c : codec (J := J) Z) v : reads_back c (Z.of_nat v) (Some (Z.of_nat v)) -> reads_back (count_codec c) v (Some v).
Proof.
  intros Hc out k Ho. destruct (Hc out k Ho) as (out' & Hw & Hf & Hk & j & -> & Hr). exists (jset out k j). split_and!; try done.
  exists j. split; [done|]. intros inp k0 d E. cbn. rewrite (Hr inp k0 _ E). cbn. by rewrite Nat2Z.id.
Qed.

(** An optional member: an empty one is not written and stays as the builder has it. *)
Lemma optional_field_back {C} (get : C -> option bytes) put name d :
  (forall b, put b (get b) = b) ->
  field_back d (field (J := J) get put name Normal (optional_codec string_codec [])) (fun b => match get d with Some v => put b (Some v) | None => b end).
Proof.
  intros Hl. destruct (get d) as [v|] eqn:E.
  - apply field_written. rewrite E. apply optional_some_back, string_reads_back.
  - apply unwritten_back; [done|done| |].
    + intros inp k x Hn. cbn. by rewrite Hn.
    + cbn. rewrite E. apply optional_none_back.
Qed.

Lemma written {C T} (get : C -> T) put name (c : codec (J := J) T) d :
  reads_back c (get d) (Some (get d)) -> field_back d (field get put name Normal c) (fun b => put b (get d)).
Proof. apply field_written. Qed.

(** One goal per field. *)
Ltac each_field := repeat (apply Forall2_cons; split); [..|by apply Forall2_nil].

Definition logger_range (c : LoggerConfig) : Prop :=
  size (ring_buffer_size c) /\ size (pool_size c) /\ strategy_ok (wait_strategy c) /\ int64 (Logger.health_check_interval c).

Lemma logger_back (c : LoggerConfig) : Logger.validate c = Ok tt -> logger_range c -> type_back (J := J) logger_type c c.
Proof.
  intros Hv (H1 & H2 & H3 & H4).
  edestruct (serialize_roundtrip (J := J) logger_type c) as (j & Hs & _ & Hd); [exact Hv| |by apply (bool_decide_unpack _)|].
  - each_field; apply written.
    1-2: by apply size_reads_back.
    { by eapply cast_reads_back. }
    by apply duration_reads_back.
  - exists j. split; [done|]. rewrite Hd. trans (logger_finalize c); [by destruct c|]. unfold logger_finalize. by rewrite Hv.
Qed.

(** A filter is excluded: a loaded sink configuration has the default one. *)
Lemma console_back (c : ConsoleSink.ConsoleSinkConfig) : level_ok (ConsoleSink.threshold_ c) ->
  type_back (J := J) console_type c (Console.set_prefix_filter c allow_all).
Proof.
  intros H1. edestruct (serialize_roundtrip (J := J) console_type c) as (j & Hs & _ & Hd); [done| |by apply (bool_decide_unpack _)|].
  - each_field; [apply written; by eapply cast_reads_back|apply written, bool_reads_back|apply written, bool_reads_back|by apply excluded_back].
  - exists j. split; [done|]. rewrite Hd. by destruct c.
Qed.

Lemma file_back (c : FileSinkConfig) : FileSink.validate c = Ok tt -> level_ok (FileSink.threshold_ c) -> size (FileSink.max_file_size_ c) ->
  type_back (J := J) file_type c (File.set_prefix_filter c allow_all).
Proof.
  intros Hv H1 H2. edestruct (serialize_roundtrip (J := J) file_type c) as (j & Hs & _ & Hd); [exact Hv| |by apply (bool_decide_unpack _)|].
  - each_field; [| | | | | | |by apply excluded_back]; apply written; [by eapply cast_reads_back|apply string_reads_back|apply bool_reads_back
      |apply string_reads_back|apply bool_reads_back|by apply size_reads_back|apply bool_reads_back].
  - exists j. split; [done|]. rewrite Hd. trans (FileSink.finalize (File.set_prefix_filter c allow_all)); [by destruct c|].
    unfold FileSink.finalize. assert (FileSink.validate (File.set_prefix_filter c allow_all) = Ok tt) as -> by (by destruct c). done.
Qed.

Definition pool_range (c : PoolConfig) : Prop :=
  size (Z.of_nat (capacity c)) /\ size (Z.of_nat (min_connections c)) /\ int64 (ConnectionPool.connect_timeout c) /\ int64 (idle_timeout c) /\
  int64 (ConnectionPool.health_check_interval c) /\ int64 (max_lifetime c).

Lemma pool_back (c : PoolConfig) : pool_validate c = Ok tt -> pool_range c -> type_back (J := J) pool_type c c.
Proof.
  intros Hv (H1 & H2 & H3 & H4 & H5 & H6).
  edestruct (serialize_roundtrip (J := J) pool_type c) as (j & Hs & _ & Hd); [exact Hv| |by apply (bool_decide_unpack _)|].
  - each_field; apply written.
    1-2: by apply count_reads_back, size_reads_back.
    1-4: by apply duration_reads_back.
    apply string_reads_back.
  - exists j. split; [done|]. rewrite Hd. trans (PoolSettings.finalize c); [by destruct c|]. unfold PoolSettings.finalize. by rewrite Hv.
Qed.

(** The password is a secret. *)
Lemma credentials_back (c : ConnectionCredentials) : validate_credentials c = Ok tt ->
  type_back (J := J) credentials_type c (Credentials.set_password c []).
Proof.
  intros Hv. edestruct (serialize_roundtrip (J := J) credentials_type c) as (j & Hs & _ & Hd); [exact Hv| |by apply (bool_decide_unpack _)|].
  - each_field; [apply written, string_reads_back..|].
    apply secret_back; [done|by intros []|intros inp k d; apply read_present_absent].
  - exists j. split; [done|]. rewrite Hd. trans (Credentials.finalize (Credentials.set_password c [])); [by destruct c|].
    unfold Credentials.finalize. assert (validate_credentials (Credentials.set_password c []) = Ok tt) as -> by (by destruct c). done.
Qed.

Definition connection_range (c : ConnectionConfig) : Prop :=
  role_ok (role c) /\ int32 (priority c) /\ int64 (ConnectionConfig.connect_timeout c) /\ int64 (statement_timeout c) /\
  int64 (idle_in_transaction_timeout c) /\ int64 (lock_timeout c) /\ ssl_ok (ssl_mode c) /\ size (Z.of_N (work_mem_mb c)) /\
  ordered (extra_options c).

Lemma connection_validate_credentials c : ConnectionConfig.validate c = Ok tt -> validate_credentials (credentials c) = Ok tt.
Proof. unfold ConnectionConfig.validate. by destruct (validate_credentials (credentials c)) as [[]|]. Qed.

Lemma connection_validate_password c v : ConnectionConfig.validate (with_password c v) = ConnectionConfig.validate c.
Proof. by destruct c as [[]]. Qed.

(** A valid connection configuration, its members in the ranges of their types, is written to a
    document and read from it unchanged but for the password, which is not written. *)
Theorem connection_settings_roundtrip (c : ConnectionConfig) : ConnectionConfig.validate c = Ok tt -> connection_range c ->
  exists j : J, serialize connection_type c = Ok j /\ deserialize connection_type j = Ok (with_password c []).
Proof.
  intros Hv (H1 & H2 & H3 & H4 & H5 & H6 & H7 & H8 & H9).
  edestruct (serialize_roundtrip (J := J) connection_type c) as (j & Hs & _ & Hd); [exact Hv| |by apply (bool_decide_unpack _)|].
  - each_field.
    { apply field_written, nested_reads_back, credentials_back. by apply connection_validate_credentials. }
    { apply written. by eapply cast_reads_back. }
    { apply written. by apply int_reads_back. }
    { apply written, string_reads_back. }
    1-4: apply written; by apply duration_reads_back.
    { apply written. by eapply cast_reads_back. }
    1-3: apply optional_field_back; by intros [].
    1-3: apply written, bool_reads_back.
    1-2: apply written, string_reads_back.
    { apply written. by apply unsigned_reads_back, size_reads_back. }
    { apply written, bool_reads_back. }
    { apply written. by apply map_reads_back. }
  - exists j. split; [done|]. rewrite Hd. trans (ConnectionConfig.finalize (with_password c [])).
    + destruct c as [[] ? ? ? ? ? ? ? ? [] [] [] ? ? ? ? ? ? ? ?]; done.
    + unfold ConnectionConfig.finalize. by rewrite connection_validate_password, Hv.
Qed.

(** What the reloaded configuration connects with is what was configured, without the password. *)
Lemma reloaded_settings c :
  exists k, credential_settings (credentials c) = k ++ given "password" (password (credentials c)) /\
    settings (with_password c []) = k ++ option_settings c.
Proof.
  destruct c as [[h p d u w]]. exists (given "host" h ++ given "port" p ++ given "dbname" d ++ given "user" u).
  unfold settings, credential_settings. cbn. split; by rewrite <- !app_assoc.
Qed.

End facts.

(** ** Instances *)
Definition sample_connection : ConnectionConfig :=
  with_extra_option (with_ssl_cert (with_ssl_key (with_password (with_user (with_dbname ConnectionConfig.builder (B "app")) (B "u")) (B "p")) (B "k")) (B "c"))
    (B "options") (B "-c x=1").

Lemma connection_settings_roundtrip_witness :
  ConnectionConfig.validate sample_connection = Ok tt /\
  exists j : Value.t, serialize connection_type sample_connection = Ok j /\ deserialize connection_type j = Ok (with_password sample_connection []).
Proof.
  assert (ConnectionConfig.validate sample_connection = Ok tt) as Hv by (by vm_compute). split; [exact Hv|].
  apply (connection_settings_roundtrip (J := Value.t) sample_connection Hv).
  split_and!; try (by vm_compute). repeat constructor.
Defined.

(** An SSL mode without a name is accepted by the reader and by [validate]; the connection string
    is then undefined. *)
Example unnamed_ssl_mode :
  let c := with_ssl_mode (with_user (with_dbname ConnectionConfig.builder (B "app")) (B "u")) (SslValue 9) in
  deserialize connection_type
    (Value.Obj [(B "credentials", Value.Obj [(B "dbname", Value.Str (B "app")); (B "user", Value.Str (B "u"))]); (B "ssl_mode", Value.Int 9)]) = Ok c /\
  ConnectionConfig.validate c = Ok tt /\ to_connection_string c = Ok None.
Proof. vm_compute. auto. Qed.

(** Verification is not asked for by a misspelt mode either: 260 is stored as [VERIFY_CA], 258 as [PREFER]. *)
Example ssl_mode_wraps : ssl_mode_cast 260 = VERIFY_CA /\ ssl_mode_cast 258 = PREFER.
Proof. done. Qed.
