(* ===== verification/AsyncWaiter.v ===== *)
(** * Asynchronous waiters of the object pool

    A coroutine that finds no idle slot leaves a node on the heap: it is linked in the pool's
    queue and in the registry of its execution context, and referenced by the initiating call,
    the cancellation slot, the timer's pending wait, whoever selected it, and the posted
    completion. Borrowers on other threads, the timer, cancellation, the shutdown of the pool
    and the shutdown of the context race for it. ObjectPool.v shows which waiter gets which
    slot; this file follows each node through these races: its reference count, its lists, its
    handler and the slot it was given.

    A step is one critical section with the code up to the next one. The operations return an
    error where the code would have undefined behaviour or fail an assertion, and the theorems
    show which of them can be reached.

    Sources: pool/detail/async_acquire.hpp, pool/detail/waiter.hpp, and the selection of waiters
    in pool/pool.hpp. Asio's contract is in the guards of the steps: completions, timers and
    initiations run on the context's threads, which have stopped before its services shut down,
    and what is still queued then is destroyed afterwards. *)

From S2P Require Import Prelude ObjectPool.

(** ** Data *)
Inductive WaiterState := Queued | Selected | TimedOut | CancelledW | ShutdownW.

#[global] Instance WaiterState_eq_dec : EqDecision WaiterState.
Proof. solve_decision. Defined.

(** Where the context's hook is linked: nowhere, in [AsyncWaiterContext::waiters_], or in the
    local list of its [shutdown]. *)
Inductive Membership := Unlisted | Registry | Abandoned.

#[global] Instance Membership_eq_dec : EqDecision Membership.
Proof. solve_decision. Defined.

(** The timer's pending wait with the callback it owns: none, armed, expired with the callback
    queued, past its call of [select], or cancelled with the callback queued. *)
Inductive WaitOp := NoWait | Armed | Expired | Ran | Aborted.

#[global] Instance WaitOp_eq_dec : EqDecision WaitOp.
Proof. solve_decision. Defined.

(** The initiating call, between its critical sections. *)
Inductive initiator := IRegister | IAdd | IPark | IPost | IRecover | IUnwind | IDone.

#[global] Instance initiator_eq_dec : EqDecision initiator.
Proof. solve_decision. Defined.

Abbreviation Outcome := (result AcquireError nat).

(** A waiter with the references to it that live outside: [registration] is the callback in the
    cancellation slot, [selector] the local of [complete_waiter_locked], [posted] the queued
    completion. Empty optionals, executors and slots are [false]. [taken], [invoked],
    [given_back] and [threw] record the slots that were claimed for it, the calls of the
    handler, the slots it returned, and whether the initiation ended with an exception. *)
Record Op := mkOp {
  hook : bool; state : WaiterState; bounded : bool; assigned_slot : option nat;
  refs : nat; alive : bool; context_hook : Membership;
  executor : bool; timer : bool; cancellation : bool; handler : bool;
  pc : initiator; registration : bool; wait_op : WaitOp; selector : bool; posted : bool;
  taken : list nat; invoked : list Outcome; given_back : list nat; threw : bool
}.

(** What the code must not do. [Terminated] is [std::terminate]. *)
Inductive Fault :=
| UseAfterFree
| NotLinked
| NotRegistered
| DestroyedLinked
| AssertFailed
| EmptyHandler
| DeadExecutor
| Unreachable
| Terminated.

Section setters.
Context (o : Op).
Definition set_hook (v : bool) : Op :=
  mkOp v (state o) (bounded o) (assigned_slot o) (refs o) (alive o) (context_hook o) (executor o) (timer o) (cancellation o) (handler o) (pc o) (registration o) (wait_op o) (selector o) (posted o) (taken o) (invoked o) (given_back o) (threw o).
Definition set_state (v : WaiterState) : Op :=
  mkOp (hook o) v (bounded o) (assigned_slot o) (refs o) (alive o) (context_hook o) (executor o) (timer o) (cancellation o) (handler o) (pc o) (registration o) (wait_op o) (selector o) (posted o) (taken o) (invoked o) (given_back o) (threw o).
Definition set_assigned (i : nat) : Op :=
  mkOp (hook o) (state o) (bounded o) (Some i) (refs o) (alive o) (context_hook o) (executor o) (timer o) (cancellation o) (handler o) (pc o) (registration o) (wait_op o) (selector o) (posted o) (taken o ++ [i]) (invoked o) (given_back o) (threw o).
Definition set_refs (n : nat) : Op :=
  mkOp (hook o) (state o) (bounded o) (assigned_slot o) n (alive o) (context_hook o) (executor o) (timer o) (cancellation o) (handler o) (pc o) (registration o) (wait_op o) (selector o) (posted o) (taken o) (invoked o) (given_back o) (threw o).
Definition set_context_hook (v : Membership) : Op :=
  mkOp (hook o) (state o) (bounded o) (assigned_slot o) (refs o) (alive o) v (executor o) (timer o) (cancellation o) (handler o) (pc o) (registration o) (wait_op o) (selector o) (posted o) (taken o) (invoked o) (given_back o) (threw o).
Definition set_executor (v : bool) : Op :=
  mkOp (hook o) (state o) (bounded o) (assigned_slot o) (refs o) (alive o) (context_hook o) v (timer o) (cancellation o) (handler o) (pc o) (registration o) (wait_op o) (selector o) (posted o) (taken o) (invoked o) (given_back o) (threw o).
Definition set_cancellation (v : bool) : Op :=
  mkOp (hook o) (state o) (bounded o) (assigned_slot o) (refs o) (alive o) (context_hook o) (executor o) (timer o) v (handler o) (pc o) (registration o) (wait_op o) (selector o) (posted o) (taken o) (invoked o) (given_back o) (threw o).
Definition set_handler (v : bool) : Op :=
  mkOp (hook o) (state o) (bounded o) (assigned_slot o) (refs o) (alive o) (context_hook o) (executor o) (timer o) (cancellation o) v (pc o) (registration o) (wait_op o) (selector o) (posted o) (taken o) (invoked o) (given_back o) (threw o).
Definition set_pc (v : initiator) : Op :=
  mkOp (hook o) (state o) (bounded o) (assigned_slot o) (refs o) (alive o) (context_hook o) (executor o) (timer o) (cancellation o) (handler o) v (registration o) (wait_op o) (selector o) (posted o) (taken o) (invoked o) (given_back o) (threw o).
Definition set_registration (v : bool) : Op :=
  mkOp (hook o) (state o) (bounded o) (assigned_slot o) (refs o) (alive o) (context_hook o) (executor o) (timer o) (cancellation o) (handler o) (pc o) v (wait_op o) (selector o) (posted o) (taken o) (invoked o) (given_back o) (threw o).
Definition set_timer (v : bool) (w : WaitOp) : Op :=
  mkOp (hook o) (state o) (bounded o) (assigned_slot o) (refs o) (alive o) (context_hook o) (executor o) v (cancellation o) (handler o) (pc o) (registration o) w (selector o) (posted o) (taken o) (invoked o) (given_back o) (threw o).
Definition set_selector (v : bool) : Op :=
  mkOp (hook o) (state o) (bounded o) (assigned_slot o) (refs o) (alive o) (context_hook o) (executor o) (timer o) (cancellation o) (handler o) (pc o) (registration o) (wait_op o) v (posted o) (taken o) (invoked o) (given_back o) (threw o).
Definition set_posted (v : bool) : Op :=
  mkOp (hook o) (state o) (bounded o) (assigned_slot o) (refs o) (alive o) (context_hook o) (executor o) (timer o) (cancellation o) (handler o) (pc o) (registration o) (wait_op o) (selector o) v (taken o) (invoked o) (given_back o) (threw o).
Definition invoke (v : Outcome) : Op :=
  mkOp (hook o) (state o) (bounded o) (assigned_slot o) (refs o) (alive o) (context_hook o) (executor o) (timer o) (cancellation o) false (pc o) (registration o) (wait_op o) (selector o) (posted o) (taken o) (invoked o ++ [v]) (given_back o) (threw o).
Definition give_back (l : list nat) : Op :=
  mkOp (hook o) (state o) (bounded o) (assigned_slot o) (refs o) (alive o) (context_hook o) (executor o) (timer o) (cancellation o) (handler o) (pc o) (registration o) (wait_op o) (selector o) (posted o) (taken o) (invoked o) (given_back o ++ l) (threw o).
Definition set_threw : Op :=
  mkOp (hook o) (state o) (bounded o) (assigned_slot o) (refs o) (alive o) (context_hook o) (executor o) (timer o) (cancellation o) (handler o) (pc o) (registration o) (wait_op o) (selector o) (posted o) (taken o) (invoked o) (given_back o) true.
(** A claimed slot that goes back under the same lock. *)
Definition pass_on (i : nat) : Op :=
  mkOp (hook o) (state o) (bounded o) (assigned_slot o) (refs o) (alive o) (context_hook o) (executor o) (timer o) (cancellation o) (handler o) (pc o) (registration o) (wait_op o) (selector o) (posted o) (taken o ++ [i]) (invoked o) (given_back o ++ [i]) (threw o).
(** [delete pointer]: the handler and the other members go with the node. *)
Definition freed : Op :=
  mkOp (hook o) (state o) (bounded o) (assigned_slot o) 0 false (context_hook o) false false false false (pc o) (registration o) (wait_op o) (selector o) (posted o) (taken o) (invoked o) (given_back o) (threw o).
End setters.

(** ** The node

    Every access is to a node that must not have been freed. *)
Definition touch (o : Op) : result Fault Op := if alive o then Ok o else Err UseAfterFree.
Definition require (f : Fault) (b : bool) (o : Op) : result Fault Op := if b then Ok o else Err f.

Definition intrusive_ptr_add_ref (o : Op) : result Fault Op := o ← touch o; Ok (set_refs o (S (refs o))).

(** Both hooks are [safe_link]: their destructors check that they are not linked. *)
Definition intrusive_ptr_release (o : Op) : result Fault Op :=
  o ← touch o;
  if refs o =? 1 then
    o ← require DestroyedLinked (negb (hook o) && bool_decide (context_hook o = Unlisted)) o; Ok (freed o)
  else Ok (set_refs o (pred (refs o))).

Definition unlink_waiter (st : WaiterState) (o : Op) : result Fault Op :=
  o ← touch o;
  o ← require AssertFailed (bool_decide (state o = Queued)) o;
  o ← require NotLinked (hook o) o;
  Ok (set_state (set_hook o false) st).

(** The asynchronous case: the queue's reference becomes the local's. *)
Definition complete_waiter_locked (st : WaiterState) (o : Op) : result Fault Op :=
  o ← unlink_waiter st o; Ok (set_selector o true).

Definition select (terminal : WaiterState) (o : Op) : result Fault Op :=
  o ← touch o;
  if decide (state o <> Queued) then Ok o else
  if hook o then complete_waiter_locked terminal o else
  o ← require AssertFailed (bool_decide (terminal = CancelledW)) o;
  Ok (set_state o terminal).

Definition outcome (o : Op) : result Fault Outcome :=
  o ← touch o;
  match state o with
  | Selected => match assigned_slot o with Some i => Ok (Ok i) | None => Err Unreachable end
  | TimedOut => Ok (Err Timeout)
  | CancelledW => Ok (Err Cancelled)
  | ShutdownW => Ok (Err Shutdown)
  | Queued => Err Unreachable
  end.

(** ** The cancellation slot and the timer *)
Definition register_cancellation (o : Op) : result Fault Op :=
  if cancellation o then o ← intrusive_ptr_add_ref o; Ok (set_registration o true) else touch o.

(** [~Registration] *)
Definition drop_registration (o : Op) : result Fault Op :=
  o ← touch o; intrusive_ptr_release (set_registration (set_cancellation o false) false).

Definition start_timer_locked (o : Op) : result Fault Op :=
  if bounded o then o ← intrusive_ptr_add_ref o; Ok (set_timer o true Armed) else Ok o.

(** Resetting the timer cancels a wait that has not expired. *)
Definition cleanup (o : Op) : result Fault Op :=
  o ← touch o;
  let slot := cancellation o in
  let o := set_cancellation o false in
  o ← (if slot && registration o then drop_registration o else Ok o);
  Ok (set_timer o false (if decide (wait_op o = Armed) then Aborted else wait_op o)).

(** ** The registry of the context *)
Definition add (stopping : bool) (o : Op) : result Fault Op :=
  o ← require AssertFailed (negb stopping) o;
  o ← intrusive_ptr_add_ref o;
  Ok (set_context_hook o Registry).

Definition remove (o : Op) : result Fault Op :=
  o ← touch o;
  o ← require NotRegistered (bool_decide (context_hook o = Registry)) o;
  intrusive_ptr_release (set_context_hook o Unlisted).

(** ** Completion

    [post] stands for [boost::asio::post], which copies the executor and may throw; the
    reference in the completion is then released. *)
Definition submit_initiation (stopping post : bool) (o : Op) : result Fault (Op * bool) :=
  o ← touch o;
  if stopping then o ← intrusive_ptr_release o; Ok (o, true) else
  o ← require DeadExecutor (executor o) o;
  if post then Ok (set_posted o true, true) else o ← intrusive_ptr_release o; Ok (o, false).

Definition submit (stopping post : bool) (o : Op) : result Fault Op :=
  '(o, done) ← submit_initiation stopping post o;
  if done : bool then Ok o else Err Terminated.

(** The local of [complete_waiter_locked] becomes the reference of the completion. *)
Definition post_completion (stopping post : bool) (o : Op) : result Fault Op :=
  submit stopping post (set_selector o false).

(** The slots of an outcome, which go back when it is destroyed. *)
Definition slots_of (r : Outcome) : list nat := match r with Ok i => [i] | Err _ => [] end.

Definition deliver (o : Op) : result Fault Op :=
  o ← remove o;
  o ← cleanup o;
  r ← outcome o;
  o ← require EmptyHandler (handler o) o;
  intrusive_ptr_release (set_posted (invoke o r) false).

(** ** Shutdown of the context *)

(** [abandoned.splice(abandoned.end(), waiters_)] *)
Definition splice (o : Op) : Op :=
  if decide (context_hook o = Registry) then set_context_hook o Abandoned else o.

Definition prepare_abandon (o : Op) : result Fault Op :=
  o ← touch o;
  if hook o then o ← unlink_waiter CancelledW o; intrusive_ptr_release o else Ok o.

Definition abandon (o : Op) : result Fault Op :=
  o ← cleanup o;
  r ← outcome o;
  Ok (give_back (set_executor (set_handler o false) false) (slots_of r)).

(** One round of the second loop of [AsyncWaiterContext::shutdown]. *)
Definition abandon_front (o : Op) : result Fault Op :=
  o ← touch o;
  o ← abandon (set_context_hook o Unlisted);
  intrusive_ptr_release o.

(** ** Initiation

    What an acquisition meets before it would wait: whether the coroutine was cancelled, the pool
    closed or the deadline over, the idle slot it claims, and the pool and the clock once more. *)
Record Arrival := {
  arrives_bounded : bool; was_cancelled : bool; closed_first : bool; expired_first : bool;
  idle : option nat; closed_second : bool; expired_second : bool
}.

(** What happens to a claimed slot that is not lent. *)
Inductive Fate := Quarantined (i : nat) | Published (i : nat).

(** The first part of [initiate_async_acquire]: what is posted at once, if anything is. *)
Definition initiate_immediate (a : Arrival) : option (Outcome * option Fate) :=
  if was_cancelled a then Some (Err Cancelled, None) else
  if closed_first a then Some (Err Shutdown, None) else
  if arrives_bounded a && expired_first a then Some (Err Timeout, None) else
  match idle a with
  | Some index =>
      Some (if closed_second a then (Err Shutdown, Some (Quarantined index)) else
            if arrives_bounded a && expired_second a then (Err Timeout, Some (Published index)) else (Ok index, None))
  | None => None
  end.

Definition slots_of_fate (f : option Fate) : list nat :=
  match f with Some (Quarantined i) | Some (Published i) => [i] | None => [] end.

(** An immediate answer accounts for the slot; the operation waits only if it found none, the pool
    was open and the deadline ahead. *)
Lemma initiate_immediate_spec a :
  match initiate_immediate a with
  | Some (r, f) => match idle a with
                   | Some i => slots_of r ++ slots_of_fate f = [i] \/
                               slots_of r ++ slots_of_fate f = [] /\
                               (was_cancelled a = true \/ closed_first a = true \/ expired_first a = true)
                   | None => slots_of r ++ slots_of_fate f = []
                   end
  | None => idle a = None /\ was_cancelled a = false /\ closed_first a = false /\ (arrives_bounded a && expired_first a = false)
  end.
Proof. destruct a as [[] [] [] [] [i|] [] []]; cbn; auto 8. Qed.

Definition new_waiter (bounded connected : bool) : Op :=
  mkOp false Queued bounded None 1 true Unlisted true true connected true IRegister false NoWait false false [] [] [] false.

(** What the locked part of the initiation meets. *)
Record Parking := { closed_now : bool; expired_before : bool; claimed : option nat; expired_after : bool; timer_started : bool }.

Definition enqueue (timer_started : bool) (o : Op) : result Fault Op :=
  o ← intrusive_ptr_add_ref (set_hook o true);
  if timer_started || negb (bounded o) then
    o ← start_timer_locked o;
    intrusive_ptr_release (set_pc o IDone)
  else o ← unlink_waiter CancelledW o; Ok (set_pc o IUnwind).

Definition park (p : Parking) (o : Op) : result Fault Op :=
  o ← touch o;
  if decide (state o = CancelledW) then Ok (set_pc o IPost) else
  if closed_now p then Ok (set_pc (set_state o ShutdownW) IPost) else
  if bounded o && expired_before p then Ok (set_pc (set_state o TimedOut) IPost) else
  match claimed p with
  | Some index =>
      if bounded o && expired_after p then Ok (set_pc (pass_on (set_state o TimedOut) index) IPost)
      else Ok (set_pc (set_state (set_assigned o index) Selected) IPost)
  | None => enqueue (timer_started p) o
  end.

(** [post_completion_impl<true>(waiter)] *)
Definition post_initiation (stopping post : bool) (o : Op) : result Fault Op :=
  o ← intrusive_ptr_add_ref o;
  '(o, done) ← submit_initiation stopping post o;
  if done : bool then intrusive_ptr_release (set_pc o IDone) else Ok (set_pc o IRecover).

(** The handlers of the two exceptions. *)
Definition recover (o : Op) : result Fault Op :=
  o ← cleanup o;
  o ← remove o;
  r ← outcome o;
  intrusive_ptr_release (set_threw (set_pc (give_back (set_handler o false) (slots_of r)) IDone)).

Definition unwind (o : Op) : result Fault Op :=
  o ← cleanup o;
  o ← remove o;
  o ← intrusive_ptr_release o;
  intrusive_ptr_release (set_threw (set_pc o IDone)).

(** An exception of [register_cancellation] leaves the initiation at once. *)
Definition register_step (emplaced : bool) (o : Op) : result Fault Op :=
  if cancellation o && negb emplaced then intrusive_ptr_release (set_threw (set_pc o IDone))
  else o ← register_cancellation o; Ok (set_pc o IAdd).

(** ** Steps

    The phases of the context: its threads run; its shutdown holds the registry's mutex and has
    these waiters left to unlink; it has these left to abandon; it is over. *)
Inductive Phase := Running | Preparing (todo : list nat) | Abandoning (todo : list nat) | Stopped.

#[global] Instance Phase_eq_dec : EqDecision Phase.
Proof. solve_decision. Defined.

Definition stopping (ph : Phase) : bool := match ph with Running => false | _ => true end.
Definition running (ph : Phase) : bool := negb (stopping ph).
Definition registry_locked (ph : Phase) : bool := match ph with Preparing _ => true | _ => false end.

(** What happens to one waiter: the initiating call, a selection by the pool (a handoff, an
    expired deadline found on the way, the pool's shutdown), the cancellation signal, the timer
    and its callback, the completion. *)
Inductive event :=
| Register (emplaced : bool)
| Add
| Park (p : Parking)
| Post (posts : bool)
| Recover
| Unwind
| Handoff (index : nat)
| PoolTimeout
| PoolShutdown
| Emit (terminal : bool)
| DropSignal
| TimerExpires
| TimerRuns
| TimerCallbackEnds
| Submit (posts : bool)
| Deliver
| DestroyQueued
| DestroyTimer.

Definition when (b : bool) (r : result Fault Op) : option (result Fault Op) := if b then Some r else None.

Definition at_pc (ph : Phase) (c : initiator) (o : Op) : bool := running ph && bool_decide (pc o = c).

(** The callback of the timer has run or will only see an error. *)
Definition callback_over (w : WaitOp) : bool := bool_decide (w = Ran) || bool_decide (w = Aborted).

Definition event_step (ph : Phase) (e : event) (o : Op) : option (result Fault Op) :=
  match e with
  | Register emplaced => when (at_pc ph IRegister o) (register_step emplaced o)
  | Add => when (at_pc ph IAdd o) (o ← add (stopping ph) o; Ok (set_pc o IPark))
  | Park p => when (at_pc ph IPark o) (park p o)
  | Post posts => when (at_pc ph IPost o) (post_initiation (stopping ph) posts o)
  | Recover => when (at_pc ph IRecover o) (recover o)
  | Unwind => when (at_pc ph IUnwind o) (unwind o)
  | Handoff index => when (hook o) (complete_waiter_locked Selected (set_assigned o index))
  | PoolTimeout => when (hook o && bounded o) (complete_waiter_locked TimedOut o)
  | PoolShutdown => when (hook o) (complete_waiter_locked ShutdownW o)
  | Emit terminal => when (registration o) (if terminal then select CancelledW o else Ok o)
  | DropSignal => when (registration o) (drop_registration o)
  | TimerExpires => when (running ph && bool_decide (wait_op o = Armed)) (Ok (set_timer o (timer o) Expired))
  | TimerRuns => when (running ph && bool_decide (wait_op o = Expired)) (o ← select TimedOut o; Ok (set_timer o (timer o) Ran))
  | TimerCallbackEnds =>
      when (running ph && callback_over (wait_op o)) (intrusive_ptr_release (set_timer o (timer o) NoWait))
  | Submit posts => when (selector o && negb (registry_locked ph)) (post_completion (stopping ph) posts o)
  | Deliver => when (running ph && posted o) (deliver o)
  | DestroyQueued => when (bool_decide (ph = Stopped) && posted o) (intrusive_ptr_release (set_posted o false))
  | DestroyTimer =>
      when (bool_decide (ph = Stopped) && negb (bool_decide (wait_op o = NoWait)))
        (intrusive_ptr_release (set_timer o (timer o) NoWait))
  end.

(** ** What the reference count counts *)
Definition initiator_refs (c : initiator) : nat := match c with IDone => 0 | IUnwind => 2 | _ => 1 end.
Definition initiating (c : initiator) : bool := match c with IDone => false | _ => true end.
Definition in_list (m : Membership) : bool := match m with Unlisted => false | _ => true end.
Definition waits (w : WaitOp) : bool := match w with NoWait => false | _ => true end.

Definition holders (o : Op) : nat :=
  initiator_refs (pc o) + one (registration o) + one (hook o) + one (in_list (context_hook o)) + one (waits (wait_op o)) +
  one (selector o) + one (posted o).

Definition early (c : initiator) : bool := match c with IRegister | IAdd | IPark => true | _ => false end.

(** The slot a node holds for its handler, and the answer of its state. *)
Definition held (o : Op) : list nat :=
  match handler o, state o, assigned_slot o with true, Selected, Some i => [i] | _, _, _ => [] end.

Definition answer_of (o : Op) : Outcome :=
  match state o with
  | Selected => match assigned_slot o with Some i => Ok i | None => Err Exhausted end
  | TimedOut => Err Timeout
  | ShutdownW => Err Shutdown
  | _ => Err Cancelled
  end.

Definition delivered (o : Op) : list nat := invoked o ≫= slots_of.

(** ** The invariant of a waiter, while the context runs ([live]) and after. *)
Record inv (live : bool) (o : Op) : Prop := {
  i_refs : refs o = holders o;
  i_alive : alive o = (0 <? refs o);
  i_hook : hook o = true -> state o = Queued /\ pc o = IDone /\ context_hook o <> Unlisted;
  i_queued : alive o = true -> state o = Queued -> hook o = true \/ early (pc o) = true;
  i_early : early (pc o) = true -> state o = Queued \/ state o = CancelledW;
  i_unwind : pc o = IUnwind -> state o = CancelledW;
  i_one : one (selector o) + one (posted o) + one (hook o) + one (initiating (pc o)) <= 1;
  i_wait : wait_op o <> NoWait -> pc o = IDone;
  i_armed : wait_op o = Armed -> handler o = true;
  i_member : match pc o with
             | IRegister | IAdd => context_hook o = Unlisted
             | IPark | IPost | IRecover | IUnwind => context_hook o = Registry
             | IDone => if live then True else context_hook o <> Registry
             end;
  i_live : if live then context_hook o <> Abandoned else pc o = IDone;
  i_listed : context_hook o <> Unlisted -> handler o = true;
  i_initiator : pc o <> IDone -> handler o = true;
  i_unlisted : pc o = IDone -> context_hook o = Unlisted -> handler o = false /\ (live = true -> selector o = false /\ posted o = false);
  i_owner : live = true -> pc o = IDone -> handler o = true -> hook o || selector o || posted o = true;
  i_executor : handler o = true -> executor o = true;
  i_slot : state o = Selected -> assigned_slot o <> None;
  i_saved : registration o = true -> cancellation o = true /\ handler o = true;
  i_registered : cancellation o = true -> pc o = IRegister \/ registration o = true;
  i_unregistered : pc o = IRegister -> registration o = false;
  i_slots : taken o = given_back o ++ delivered o ++ held o;
  i_pending : handler o = true -> invoked o = [] /\ threw o = false;
  i_once : invoked o = [] \/ invoked o = [answer_of o] /\ state o <> Queued /\ threw o = false /\ handler o = false;
  i_answered : live = true -> handler o = false -> threw o = true \/ invoked o <> []
}.

(** Every step of a waiter but a signal that changes nothing uses up some of this. *)
Definition weight (o : Op) : nat :=
  8 * match pc o with IRegister => 6 | IAdd => 5 | IPark => 4 | IPost => 3 | IRecover => 2 | IUnwind => 2 | IDone => 0 end +
  match state o with Queued => 8 | _ => 0 end + one (registration o) +
  match wait_op o with NoWait => 0 | Armed => 4 | Expired => 3 | Ran => 1 | Aborted => 2 end +
  4 * one (selector o) + 2 * one (posted o).

(** ** Preservation *)
Lemma new_waiter_inv b k : inv true (new_waiter b k).
Proof. constructor; cbn; naive_solver. Qed.

(** Forward chaining through the invariant of an operation whose fields are case variables. *)
Ltac known :=
  match goal with
  | H : ?x = ?x |- _ => clear H
  | H : True |- _ => clear H
  | H : ?x = ?x -> _ |- _ => specialize (H eq_refl)
  | H : ?a = ?b -> _ |- _ => assert (a <> b) as _ by discriminate; clear H
  | H : ?a <> ?b -> _ |- _ => let N := fresh in assert (a <> b) as N by first [discriminate | assumption]; specialize (H N); clear N
  | H : ?x <> ?x -> _ |- _ => clear H
  | H : _ -> ?x = ?x |- _ => clear H
  | H : _ /\ _ |- _ => destruct H
  | H : ?x = ?x \/ _ |- _ => clear H
  | H : _ \/ ?x = ?x |- _ => clear H
  | H : _ = _ \/ _ |- _ => destruct H as [H|H]; [discriminate H|]
  | H : _ \/ _ = _ |- _ => destruct H as [H|H]; [|discriminate H]
  | H : ?x = _ |- _ => is_var x; subst x
  | H : _ = ?x |- _ => is_var x; subst x
  | H : _ = _ |- _ => discriminate H
  | H : ?x <> ?x |- _ => by destruct H
  end.
Ltac chain := unfold holders, held, answer_of, delivered in * |-; cbn in * |-; repeat (known; cbn in * |-).
Ltac inv_fields := constructor; cbn; rewrite ?app_nil_r, <- ?app_assoc; try done; try lia; try naive_solver.

(** [r] is a step of the operation [o]: it succeeds, keeps the invariant and uses up weight. *)
Definition fits (live : bool) (o : Op) (r : result Fault Op) : Prop :=
  exists o', r = Ok o' /\ inv live o' /\ weight o' < weight o.

(** The cases of an operation that satisfies its invariant. *)
Ltac stages o :=
  destruct o as [h st bo sl rf al ch ex tm ca ha p rg wo se po tk iv gb th]; cbn in * |-;
  destruct h, se, po; chain; try (exfalso; lia);
  try (assert (p = IDone) as -> by (destruct p; done || (cbn in *; lia)); chain);
  try destruct ch; try destruct rg; try destruct wo; try destruct ca; chain; try (exfalso; lia).
Ltac computed r tac :=
  let v := eval cbv -[app] in r in
  match v with Ok ?o => exists o; split; [vm_compute; reflexivity|tac] end.
Ltac settle := match goal with |- fits _ _ ?r => computed r ltac:(split; [inv_fields|cbn; lia]) end.

Lemma handoff_fits live i o : inv live o -> hook o = true ->
  fits live o (complete_waiter_locked Selected (set_assigned o i)).
Proof. intros [] Hh. stages o. all: settle. Qed.

Lemma complete_fits live s o : inv live o -> hook o = true -> s = TimedOut \/ s = CancelledW \/ s = ShutdownW ->
  fits live o (complete_waiter_locked s o).
Proof. intros [] Hh Hs. stages o. all: destruct Hs as [->|[->| ->]]; settle. Qed.

Lemma register_fits b o : inv true o -> pc o = IRegister -> fits true o (register_step b o).
Proof.
  intros [] Hp. stages o. all: destruct b, i_early0 as [->| ->]; chain; settle.
Qed.

Lemma add_fits o : inv true o -> pc o = IAdd -> fits true o (o ← add false o; Ok (set_pc o IPark)).
Proof. intros [] Hp. stages o. all: settle. Qed.

Lemma park_fits q o : inv true o -> pc o = IPark -> fits true o (park q o).
Proof.
  intros [] Hp. destruct q as [cl eb cm ea ts].
  stages o; destruct i_early0 as [->| ->]; chain; destruct cl, bo, eb, cm, ea, ts; chain; settle.
Qed.

Lemma post_fits b o : inv true o -> pc o = IPost -> fits true o (post_initiation false b o).
Proof. intros [] Hp. stages o. all: destruct b, st; chain; settle. Qed.

Lemma recover_fits o : inv true o -> pc o = IRecover -> fits true o (recover o).
Proof. intros [] Hp. stages o. all: destruct st, sl; chain; settle. Qed.

Lemma unwind_fits o : inv true o -> pc o = IUnwind -> fits true o (unwind o).
Proof. intros [] Hp. stages o. all: settle. Qed.

Lemma referenced_alive live o : inv live o -> 0 < holders o -> alive o = true.
Proof. intros [] H. rewrite i_alive0, i_refs0. by apply Nat.ltb_lt. Qed.

Lemma emit_fits live o : inv live o -> registration o = true ->
  fits live o (select CancelledW o) \/ select CancelledW o = Ok o.
Proof.
  intros Hi Hr. destruct (decide (state o = Queued)) as [Hq|Hq].
  - left. destruct Hi. stages o. all: try destruct p; chain; settle.
  - right. unfold select, touch.
    rewrite (referenced_alive live) by (done || unfold holders; rewrite Hr; cbn; lia). cbn. by rewrite decide_True.
Qed.

Lemma timer_runs_fits o : inv true o -> wait_op o = Expired -> fits true o (o ← select TimedOut o; Ok (set_timer o (timer o) Ran)).
Proof. intros [] Hw. stages o. all: try destruct st; chain; settle. Qed.

Lemma timer_expires_fits o : inv true o -> wait_op o = Armed -> fits true o (Ok (set_timer o (timer o) Expired)).
Proof. intros [] Hw. stages o. all: settle. Qed.

Lemma callback_ends_fits live o : inv live o -> wait_op o <> NoWait -> wait_op o <> Armed \/ live = false ->
  fits live o (intrusive_ptr_release (set_timer o (timer o) NoWait)).
Proof. intros [] Hw Hl. stages o. all: try destruct st; destruct live; chain; try destruct ha; chain; settle. Qed.

Lemma drop_registration_fits live o : inv live o -> registration o = true -> fits live o (drop_registration o).
Proof. intros [] Hr. stages o. all: try destruct p; destruct live; chain; settle. Qed.

Lemma post_completion_fits live b o : inv live o -> selector o = true -> live = false \/ b = true -> fits live o (post_completion (negb live) b o).
Proof. intros [] Hr Hb. stages o. all: destruct live, b; chain; try destruct ha; chain; settle. Qed.

Lemma post_completion_terminates o : inv true o -> selector o = true -> post_completion false false o = Err Terminated.
Proof. intros [] Hr. stages o. all: vm_compute; reflexivity. Qed.

Lemma deliver_fits o : inv true o -> posted o = true -> fits true o (deliver o).
Proof. intros [] Hp. stages o. all: try destruct st; chain; first [settle|destruct sl; chain; settle]. Qed.

Lemma destroy_queued_fits o : inv false o -> posted o = true -> fits false o (intrusive_ptr_release (set_posted o false)).
Proof. intros [] Hp. stages o. all: try destruct ha; chain; settle. Qed.

Lemma splice_inv o : inv true o -> pc o = IDone -> inv false (splice o).
Proof.
  intros [] Hp. unfold splice. stages o.
  all: try destruct ha; chain; cbn -[decide]; repeat case_decide; try done; inv_fields.
Qed.

Lemma prepare_fits o : inv false o -> context_hook o = Abandoned ->
  exists o', prepare_abandon o = Ok o' /\ inv false o' /\ context_hook o' = Abandoned /\ hook o' = false /\ invoked o' = invoked o.
Proof.
  intros [] Hc. stages o.
  all: match goal with |- exists o', ?r = _ /\ _ => computed r ltac:(split_and!; [inv_fields|done..]) end.
Qed.

Lemma abandon_fits o : inv false o -> context_hook o = Abandoned -> hook o = false ->
  exists o', abandon_front o = Ok o' /\ inv false o' /\ context_hook o' = Unlisted /\ hook o' = false /\ invoked o' = invoked o.
Proof.
  intros [] Hc Hh. stages o.
  all: try destruct st; chain; try destruct sl; chain.
  all: match goal with |- exists o', ?r = _ /\ _ => computed r ltac:(split_and!; [inv_fields|done..]) end.
Qed.

#[local] Hint Resolve handoff_fits complete_fits register_fits add_fits park_fits post_fits recover_fits unwind_fits
  timer_runs_fits timer_expires_fits callback_ends_fits drop_registration_fits post_completion_fits deliver_fits
  destroy_queued_fits : menagerie.

(** Every event of a waiter uses up weight, or is a signal that comes too late, or is a failure to
    schedule what was selected. *)
Lemma event_fits ph e o r : inv (running ph) o -> event_step ph e o = Some r ->
  fits (running ph) o r \/ r = Ok o \/ (ph = Running /\ e = Submit false /\ r = Err Terminated).
Proof.
  intros Hi He. unfold event_step, when, at_pc, callback_over in He.
  destruct e; repeat case_match; simplify_eq;
    repeat match goal with
    | H : _ && _ = true |- _ => apply andb_prop in H as [? ?]
    | H : bool_decide _ = true |- _ => apply bool_decide_eq_true in H; subst
    | H : negb (bool_decide _) = true |- _ => apply negb_true_iff, bool_decide_eq_false in H
    | H : running ph = true |- _ => destruct ph; try discriminate H; clear H
    end; cbn -[select] in *; auto 6 with menagerie.
  - by destruct (emit_fits (running ph) o) as [?| ->]; auto.
  - left. apply callback_ends_fits; [done|..]; destruct (wait_op o); naive_solver.
  - replace (stopping ph) with (negb (running ph)) by (by destruct ph).
    destruct (decide (running ph = false \/ posts = true)) as [?|Hn]; [auto with menagerie|].
    destruct ph; [|naive_solver..]. destruct posts; [naive_solver|]. right. right. by rewrite post_completion_terminates.
Qed.
