(* ===== verification/AsyncContext.v ===== *)
(** * The execution context and its asynchronous waiters

    All the waiters that coroutines of one execution context left in pools, with the service
    that shuts them down ([AsyncWaiterContext] in pool/detail/waiter.hpp). The waiters
    themselves are in AsyncWaiter.v; here they run together, in every interleaving, and the
    theorems about them are stated. *)

From S2P Require Import Prelude ObjectPool AsyncWaiter.

(** The context with all the operations started on it. *)
Record Ctx := mkCtx { phase : Phase; ops : list Op }.

Inductive action :=
| Start (a : Arrival) (connected : bool)
| On (i : nat) (e : event)
| ShutdownBegins
| PrepareNext
| PrepareDone
| AbandonNext
| ShutdownEnds.

(** The waiters linked in one of the two lists. *)
Definition listed (m : Membership) (l : list Op) : list nat :=
  filter (fun i => context_hook <$> l !! i = Some m) (seq 0 (length l)).

Definition update (c : Ctx) (ph : Phase) (i : nat) (r : result Fault Op) : result Fault Ctx :=
  o ← r; Ok (mkCtx ph (<[i := o]> (ops c))).

Definition step (c : Ctx) (a : action) : option (result Fault Ctx) :=
  match a with
  | Start a connected =>
      match running (phase c), initiate_immediate a with
      | true, None => Some (Ok (mkCtx (phase c) (ops c ++ [new_waiter (arrives_bounded a) connected])))
      | _, _ => None
      end
  | On i e => o ← ops c !! i; update c (phase c) i <$> event_step (phase c) e o
  | ShutdownBegins =>
      if running (phase c) && forallb (fun o => bool_decide (pc o = IDone)) (ops c)
      then Some (Ok (mkCtx (Preparing (listed Registry (ops c))) (splice <$> ops c))) else None
  | PrepareNext =>
      match phase c with
      | Preparing (i :: todo) => o ← ops c !! i; Some (update c (Preparing todo) i (prepare_abandon o))
      | _ => None
      end
  | PrepareDone =>
      match phase c with Preparing [] => Some (Ok (mkCtx (Abandoning (listed Abandoned (ops c))) (ops c))) | _ => None end
  | AbandonNext =>
      match phase c with
      | Abandoning (i :: todo) => o ← ops c !! i; Some (update c (Abandoning todo) i (abandon_front o))
      | _ => None
      end
  | ShutdownEnds => match phase c with Abandoning [] => Some (Ok (mkCtx Stopped (ops c))) | _ => None end
  end.

Definition steps (c c' : Ctx) : Prop := exists a, step c a = Some (Ok c').
Definition fresh : Ctx := mkCtx Running [].
Definition reachable (c : Ctx) : Prop := rtc steps fresh c.

(** A run of given actions, for examples. *)
Fixpoint run (c : Ctx) (l : list action) : option (result Fault Ctx) :=
  match l with
  | [] => Some (Ok c)
  | a :: l => r ← step c a; match r with Ok c => run c l | Err f => Some (Err f) end
  end.

(** Once the context stops, events link nothing, leave its lists alone and call no handler. *)
Definition quiet (o o' : Op) : Prop :=
  context_hook o' = context_hook o /\ (hook o' = true -> hook o = true) /\ invoked o' = invoked o.

Lemma release_quiet o o' : intrusive_ptr_release o = Ok o' -> quiet o o'.
Proof. unfold intrusive_ptr_release, touch, require. cbn. intros H. repeat (case_match; simplify_eq/=); done. Qed.

Lemma complete_quiet s o o' : complete_waiter_locked s o = Ok o' -> quiet o o'.
Proof. unfold complete_waiter_locked, unlink_waiter, touch, require. cbn. intros H. repeat (case_match; simplify_eq/=); done. Qed.

Lemma select_quiet s o o' : select s o = Ok o' -> quiet o o'.
Proof.
  unfold select, touch, require. cbn. intros H. repeat (case_match; simplify_eq/=); eauto using complete_quiet; done.
Qed.

Lemma post_completion_quiet b o o' : post_completion true b o = Ok o' -> quiet o o'.
Proof.
  unfold post_completion, submit, submit_initiation. cbn. intros H. unfold touch in H. case_match; [|done].
  cbn -[intrusive_ptr_release] in H.
  destruct (intrusive_ptr_release (set_selector o false)) eqn:E; simplify_eq/=. by apply release_quiet in E.
Qed.

#[local] Hint Resolve release_quiet complete_quiet select_quiet post_completion_quiet : menagerie.

Lemma event_quiet ph e o o' : running ph = false -> event_step ph e o = Some (Ok o') -> quiet o o'.
Proof.
  intros Hph He. assert (stopping ph = true) as Hs by (by destruct ph).
  unfold event_step, when, at_pc in He. rewrite Hph, ?Hs in He.
  destruct e; cbn -[complete_waiter_locked select post_completion] in He; repeat case_match; simplify_eq; try done; eauto with menagerie.
  all: first [by apply complete_quiet in He | by apply release_quiet in He
             | unfold drop_registration, touch in He; case_match; [by apply release_quiet in He|done]].
Qed.

(** ** The invariant of the context

    The shutdown first unlinks all its waiters from the pools, and then abandons each once. *)
Definition phase_inv (ph : Phase) (l : list Op) : Prop :=
  match ph with
  | Running => True
  | Preparing todo =>
      NoDup todo /\ (forall i, i ∈ todo -> context_hook <$> l !! i = Some Abandoned) /\
      (forall i o, l !! i = Some o -> hook o = true -> i ∈ todo)
  | Abandoning todo =>
      NoDup todo /\ (forall i, i ∈ todo <-> context_hook <$> l !! i = Some Abandoned) /\ Forall (fun o => hook o = false) l
  | Stopped => Forall (fun o => hook o = false /\ context_hook o = Unlisted) l
  end.

Record ctx_inv (c : Ctx) : Prop := {
  c_ops : Forall (inv (running (phase c))) (ops c);
  c_phase : phase_inv (phase c) (ops c)
}.

Lemma elem_of_listed m l i : i ∈ listed m l <-> context_hook <$> l !! i = Some m.
Proof.
  unfold listed. rewrite list_elem_of_filter, elem_of_seq. split; [by intros [? _]|].
  intros H. split; [done|]. destruct (l !! i) eqn:E; [|done]. apply lookup_lt_Some in E. lia.
Qed.

Lemma NoDup_listed m l : NoDup (listed m l).
Proof. apply NoDup_filter, NoDup_seq. Qed.

Lemma phase_inv_event ph l i o o' : phase_inv ph l -> l !! i = Some o -> (running ph = false -> quiet o o') ->
  phase_inv ph (<[i := o']> l).
Proof.
  intros Hp Hi Hq. destruct ph as [|todo|todo|]; cbn in *; [done|..]; destruct (Hq eq_refl) as (Hc & Hh & _); clear Hq.
  all: assert (forall j, context_hook <$> <[i := o']> l !! j = context_hook <$> l !! j) as Hs
    by (intros j; destruct (decide (i = j)) as [<-|]; [rewrite Hi, list_lookup_insert_eq by eauto using lookup_lt_Some; cbn; congruence
        |by rewrite list_lookup_insert_ne]).
  - destruct Hp as (Hn & Ha & Hk). split_and!; [done|intros j Hj; rewrite Hs; auto|].
    intros j x Hj Hx. apply list_lookup_insert_Some in Hj as [(-> & -> & _)|[_ Hj]]; eauto.
  - destruct Hp as (Hn & Ha & Hk). split_and!; [done|intros j; rewrite Hs; auto|].
    apply Forall_insert; [done|]. rewrite Forall_lookup in Hk. apply Hk in Hi. destruct (hook o'); naive_solver.
  - apply Forall_insert; [done|]. rewrite Forall_lookup in Hp. apply Hp in Hi as [? ?]. split; [|congruence].
    destruct (hook o'); naive_solver.
Qed.

(** A step either goes on and keeps the invariant, or is the failure that the code answers by
    terminating. *)
Definition proceeds (c : Ctx) (a : action) (r : result Fault Ctx) : Prop :=
  (exists c', r = Ok c' /\ ctx_inv c') \/ (phase c = Running /\ (exists i, a = On i (Submit false)) /\ r = Err Terminated).

Lemma start_inv c b k : ctx_inv c -> phase c = Running -> ctx_inv (mkCtx (phase c) (ops c ++ [new_waiter b k])).
Proof.
  intros [Ho Hp] Hph. rewrite Hph in *. constructor; [|done].
  apply Forall_app. split; [done|]. apply Forall_singleton, new_waiter_inv.
Qed.

Lemma on_inv c i e o r : ctx_inv c -> ops c !! i = Some o -> event_step (phase c) e o = Some r ->
  proceeds c (On i e) (update c (phase c) i r).
Proof.
  intros [Ho Hp] Hi He. pose proof (proj1 (Forall_lookup _ _) Ho i o Hi) as Hio.
  assert (forall o', r = Ok o' -> inv (running (phase c)) o' -> proceeds c (On i e) (update c (phase c) i r)) as Hgo.
  { intros o' -> Hi'. left. eexists. split; [done|]. constructor; cbn; [by apply Forall_insert|].
    eapply phase_inv_event; eauto using event_quiet. }
  destruct (event_fits _ _ _ _ Hio He) as [(o' & -> & ? & _)|[->|(? & -> & ->)]]; [by eapply Hgo..|]. right. eauto.
Qed.

Lemma shutdown_begins_inv c : ctx_inv c -> phase c = Running -> Forall (fun o => pc o = IDone) (ops c) ->
  ctx_inv (mkCtx (Preparing (listed Registry (ops c))) (splice <$> ops c)).
Proof.
  intros [Ho Hp] Hph Hpc. rewrite Hph in *. cbn in Ho. constructor; cbn.
  - apply Forall_fmap, Forall_lookup. intros i o Hi. rewrite Forall_lookup in Ho, Hpc. apply splice_inv; eauto.
  - split_and!; [apply NoDup_listed|..].
    + intros i [o [Hi Hc]]%elem_of_listed%fmap_Some. rewrite list_lookup_fmap, Hi. cbn. unfold splice. by rewrite decide_True.
    + intros i o Hi Hh. rewrite list_lookup_fmap in Hi. apply fmap_Some in Hi as (o' & Hi & ->).
      apply elem_of_listed. rewrite Hi. cbn. f_equal. rewrite Forall_lookup in Ho. destruct (Ho _ _ Hi).
      unfold splice in Hh. case_decide; [done|]. destruct (i_hook Hh) as (_ & _ & Hc). by destruct (context_hook o').
Qed.

Lemma prepare_op c i todo o : ctx_inv c -> phase c = Preparing (i :: todo) -> ops c !! i = Some o ->
  exists o', prepare_abandon o = Ok o' /\ inv false o' /\ context_hook o' = Abandoned /\ hook o' = false /\ invoked o' = invoked o.
Proof.
  intros [Ho Hp] Hph Hi. rewrite Hph in *. destruct Hp as (_ & Ha & _). rewrite Forall_lookup in Ho.
  apply prepare_fits; [by apply (Ho i)|]. specialize (Ha i ltac:(left)). rewrite Hi in Ha. by injection Ha.
Qed.

Lemma abandon_op c i todo o : ctx_inv c -> phase c = Abandoning (i :: todo) -> ops c !! i = Some o ->
  exists o', abandon_front o = Ok o' /\ inv false o' /\ context_hook o' = Unlisted /\ hook o' = false /\ invoked o' = invoked o.
Proof.
  intros [Ho Hp] Hph Hi. rewrite Hph in *. destruct Hp as (_ & Ha & Hk). rewrite Forall_lookup in Ho, Hk.
  apply abandon_fits; [by apply (Ho i)| |by apply (Hk i)]. assert (i ∈ i :: todo) as H%Ha by left. rewrite Hi in H. by injection H.
Qed.

Lemma prepare_inv c i todo o : ctx_inv c -> phase c = Preparing (i :: todo) -> ops c !! i = Some o ->
  exists c', update c (Preparing todo) i (prepare_abandon o) = Ok c' /\ ctx_inv c'.
Proof.
  intros Hc Hph Hi. destruct (prepare_op c i todo o Hc Hph Hi) as (o' & -> & Hio & Hco & Hh & _). destruct Hc as [Ho Hp].
  rewrite Hph in *. cbn in *. destruct Hp as ([Hn1 Hn2]%NoDup_cons & Ha & Hk).
  eexists. split; [done|]. constructor; cbn; [by apply Forall_insert|]. split_and!; [done|..].
  - intros j Hj. rewrite list_lookup_insert_ne by (by intros ->). apply Ha. by right.
  - intros j x Hj Hx. apply list_lookup_insert_Some in Hj as [(-> & -> & _)|[Hne Hj]]; [congruence|].
    apply Hk in Hj; [|done]. by apply elem_of_cons in Hj as [->|?].
Qed.

Lemma prepare_done_inv c : ctx_inv c -> phase c = Preparing [] -> ctx_inv (mkCtx (Abandoning (listed Abandoned (ops c))) (ops c)).
Proof.
  intros [Ho Hp] Hph. rewrite Hph in *. cbn in *. destruct Hp as (_ & _ & Hk). constructor; cbn; [done|].
  split_and!; [apply NoDup_listed|intros; apply elem_of_listed|].
  apply Forall_lookup. intros i o Hi. destruct (hook o) eqn:E; [|done]. destruct (not_elem_of_nil i). eauto.
Qed.

Lemma abandon_inv c i todo o : ctx_inv c -> phase c = Abandoning (i :: todo) -> ops c !! i = Some o ->
  exists c', update c (Abandoning todo) i (abandon_front o) = Ok c' /\ ctx_inv c'.
Proof.
  intros Hc Hph Hi. destruct (abandon_op c i todo o Hc Hph Hi) as (o' & -> & Hio & Hco & Hh & _). destruct Hc as [Ho Hp].
  rewrite Hph in *. cbn in *. destruct Hp as ([Hn1 Hn2]%NoDup_cons & Ha & Hk).
  eexists. split; [done|]. constructor; cbn; [by apply Forall_insert|]. split_and!; [done|..|by apply Forall_insert].
  intros j. destruct (decide (i = j)) as [<-|Hne].
  - rewrite list_lookup_insert_eq by eauto using lookup_lt_Some. cbn. rewrite Hco. naive_solver.
  - rewrite list_lookup_insert_ne by done. rewrite <- Ha, elem_of_cons. naive_solver.
Qed.

Lemma shutdown_ends_inv c : ctx_inv c -> phase c = Abandoning [] -> ctx_inv (mkCtx Stopped (ops c)).
Proof.
  intros [Ho Hp] Hph. rewrite Hph in *. cbn in *. destruct Hp as (_ & Ha & Hk). constructor; cbn; [done|].
  apply Forall_lookup. intros i o Hi. rewrite Forall_lookup in Ho, Hk. split; [eauto|].
  destruct (context_hook o) eqn:E; [done| |].
  - destruct (Ho _ _ Hi). by rewrite i_live, E in i_member.
  - destruct (not_elem_of_nil i). apply Ha. by rewrite Hi, <- E.
Qed.

Lemma ctx_step_inv c a r : ctx_inv c -> step c a = Some r -> proceeds c a r.
Proof.
  intros Hc Hs. unfold proceeds. destruct a as [b k|i e| | | | |]; cbn in Hs.
  - destruct (phase c) eqn:E; [|done..]. cbn in Hs. case_match; simplify_eq. left. eexists. split; [done|]. rewrite <- E. by apply start_inv.
  - destruct (ops c !! i) as [o|] eqn:Ei; [|done]. cbn in Hs.
    destruct (event_step (phase c) e o) eqn:Ee; simplify_eq/=. by eapply on_inv.
  - destruct (phase c) eqn:E; simplify_eq/=. case_match eqn:Ef; simplify_eq. left. eexists. split; [done|].
    apply shutdown_begins_inv; [done..|]. apply Forall_lookup. intros i o Hi.
    apply Is_true_eq_left, forallb_True in Ef. rewrite Forall_lookup in Ef. specialize (Ef _ _ Hi). by apply bool_decide_unpack in Ef.
  - destruct (phase c) as [|[|i todo]| |] eqn:E; try done. destruct (ops c !! i) as [o|] eqn:Ei; simplify_eq/=.
    left. by eapply prepare_inv.
  - destruct (phase c) as [|[|i todo]| |] eqn:E; simplify_eq/=. left. eexists. split; [done|by apply prepare_done_inv].
  - destruct (phase c) as [| |[|i todo]|] eqn:E; try done. destruct (ops c !! i) as [o|] eqn:Ei; simplify_eq/=.
    left. by eapply abandon_inv.
  - destruct (phase c) as [| |[|i todo]|] eqn:E; simplify_eq/=. left. eexists. split; [done|by apply shutdown_ends_inv].
Qed.

Lemma ctx_reachable_inv c : reachable c -> ctx_inv c.
Proof.
  apply (rtc_preserves steps ctx_inv fresh c); [|by repeat constructor].
  intros x y Hx (a & Ha). by destruct (ctx_step_inv x a (Ok y) Hx Ha) as [(c' & [= <-] & ?)|(_ & _ & [=])].
Qed.

Lemma reachable_op c i o : reachable c -> ops c !! i = Some o -> inv (running (phase c)) o.
Proof. intros [Ho _]%ctx_reachable_inv Hi. rewrite Forall_lookup in Ho. eauto. Qed.

(** ** Safety *)

(** C10. In every interleaving of the initiating calls, borrowers that hand over slots, timers,
    cancellations, completions and the shutdown of the context, no step touches a freed node,
    unlinks or removes a node that is not in the list, destroys a linked node, calls an empty
    handler, posts through a dead executor or fails an assertion. The one way a step does not
    go on is [std::terminate], when the executor refuses the completion of a waiter that was
    already selected. *)
Theorem async_waiters_safe c a f : reachable c -> step c a = Some (Err f) ->
  f = Terminated /\ phase c = Running /\ exists i, a = On i (Submit false).
Proof.
  intros Hc Hs. destruct (ctx_step_inv c a _ (ctx_reachable_inv c Hc) Hs) as [(c' & [=] & _)|(? & ? & [= ->])]. auto.
Qed.

(** ** Delivery *)

(** The events that need nobody outside the operation: not the pool, the signal or the clock. *)
Definition internal (e : event) : bool :=
  match e with
  | Register _ | Add | Park _ | Post _ | Recover | Unwind | TimerRuns | TimerCallbackEnds | Submit _ | Deliver => true
  | _ => false
  end.

(** What a waiter comes to: it is queued in the pool, or gone after one call of its handler, or
    gone after an exception of the initiation and no call. *)
Definition settled (o : Op) : Prop :=
  (hook o = true /\ state o = Queued /\ invoked o = []) \/
  (alive o = false /\ invoked o = [answer_of o] /\ threw o = false) \/
  (alive o = false /\ invoked o = [] /\ threw o = true).

Lemma at_rest_settled o : inv true o -> (forall e, internal e = true -> event_step Running e o = None) -> settled o.
Proof.
  intros [] Hn.
  pose proof (Hn (Register true) eq_refl) as H1. pose proof (Hn Add eq_refl) as H2.
  pose proof (Hn (Park (Build_Parking true true None true true)) eq_refl) as H3. pose proof (Hn (Post true) eq_refl) as H4.
  pose proof (Hn Recover eq_refl) as H5. pose proof (Hn Unwind eq_refl) as H6. pose proof (Hn TimerRuns eq_refl) as H7.
  pose proof (Hn TimerCallbackEnds eq_refl) as H8. pose proof (Hn (Submit true) eq_refl) as H9.
  pose proof (Hn Deliver eq_refl) as H10. clear Hn.
  destruct o as [h st bo sl rf al ch ex tm ca ha p rg wo se po tk iv gb th]; cbn in * |-.
  assert (p = IDone) as -> by (by destruct p). assert (se = false) as -> by (by destruct se). assert (po = false) as -> by (by destruct po).
  destruct h; [left; naive_solver|right].
  assert (ha = false) as -> by (destruct ha; [by specialize (i_owner eq_refl eq_refl eq_refl)|done]).
  assert (ch = Unlisted) as -> by (destruct ch; [done|by specialize (i_listed ltac:(done))..]).
  assert (rg = false) as -> by (destruct rg; [by destruct (i_saved eq_refl)|done]).
  assert (wo = NoWait) as -> by (destruct wo; [done|by specialize (i_armed eq_refl)|done..]).
  cbn in i_refs. subst rf al.
  cbn. destruct i_once as [->|(-> & _ & -> & _)]; [right|by left].
  by destruct (i_answered eq_refl eq_refl) as [->|[]].
Qed.

Lemma dead_empty live o : inv live o -> alive o = false -> handler o = false.
Proof.
  intros [] Ha. rewrite i_alive, i_refs in Ha. apply Nat.ltb_ge in Ha. unfold holders in Ha.
  apply i_unlisted; [destruct (pc o)|destruct (context_hook o)]; done || (cbn in Ha; lia).
Qed.

Lemma settled_empty live o : inv live o -> settled o -> held o = [].
Proof.
  intros Ho [(_ & Hs & _)|Hs]; unfold held; [rewrite Hs; by destruct (handler o)|].
  rewrite (dead_empty live o); [done..|]. by destruct Hs as [(? & _)|(? & _)].
Qed.

(** C11. Every waiter of a running context settles. Whatever happens to it uses up a bounded
    quantity, or is a signal that changes nothing, or terminates the program; and as long as one
    of its own events is left to run it has not come to rest: at rest it is queued in the pool,
    or gone with its handler called exactly once, with the answer it was selected with, or gone
    because the initiation threw. At every moment the slots claimed for it are those it gave
    back, passed to its handler or holds for it. *)
Theorem async_waiters_settle c i o : reachable c -> phase c = Running -> ops c !! i = Some o ->
  (forall e r, event_step Running e o = Some r ->
     (exists o', r = Ok o' /\ weight o' < weight o) \/ r = Ok o \/ r = Err Terminated) /\
  ((forall e, internal e = true -> event_step Running e o = None) -> settled o) /\
  taken o = given_back o ++ delivered o ++ held o /\ (settled o -> held o = []).
Proof.
  intros Hc Hph Hi. pose proof (reachable_op c i o Hc Hi) as Ho. rewrite Hph in Ho. cbn in Ho. split_and!.
  - intros e r He. destruct (event_fits Running e o r Ho He) as [(o' & ? & _ & ?)|[?|(_ & _ & ?)]]; eauto.
  - by apply at_rest_settled.
  - apply Ho.
  - by apply settled_empty with true.
Qed.

(** ** Shutdown

    When the first waiter is abandoned, which destroys its coroutine and whatever that owns, none
    of the context's waiters is linked in a pool any more. *)
Lemma frames_die_unlinked c i todo : reachable c -> phase c = Abandoning (i :: todo) -> Forall (fun o => hook o = false) (ops c).
Proof. intros [_ Hp]%ctx_reachable_inv Hph. rewrite Hph in Hp. apply Hp. Qed.

(** No handler is called once the shutdown has begun. *)
Lemma no_call_after_shutdown c a c' i o o' : reachable c -> phase c <> Running -> step c a = Some (Ok c') ->
  ops c !! i = Some o -> ops c' !! i = Some o' -> invoked o' = invoked o.
Proof.
  intros Hc%ctx_reachable_inv Hph Hs Hi Hi'. assert (running (phase c) = false) as Hr by (by destruct (phase c)).
  enough (exists j x, ops c' = <[j := x]> (ops c) /\ forall y, ops c !! j = Some y -> invoked x = invoked y) as (j & x & He & Hx).
  { rewrite He in Hi'. apply list_lookup_insert_Some in Hi' as [(-> & -> & _)|[_ Hi']]; [auto|congruence]. }
  destruct a as [b k|j e| | | | |]; cbn in Hs; rewrite ?Hr in Hs; try done.
  - destruct (ops c !! j) as [y|] eqn:Ej; [|done]. cbn in Hs. destruct (event_step _ e y) as [[x|]|] eqn:Ee; simplify_eq/=.
    apply event_quiet in Ee as (_ & _ & Hv); [|done]. exists j, x. split; [done|]. intros; simplify_eq/=; done.
  - destruct (phase c) as [|[|j todo]| |] eqn:E; try done. destruct (ops c !! j) as [y|] eqn:Ej; simplify_eq/=.
    destruct (prepare_op c j todo y Hc E Ej) as (x & Hx & _ & _ & _ & Hv). rewrite Hx in Hs. simplify_eq/=. exists j, x. naive_solver.
  - exists (length (ops c)), o'. rewrite list_insert_ge by done. destruct (phase c) as [|[]| |]; simplify_eq/=.
    split; [done|]. intros y Hy%lookup_lt_Some. lia.
  - destruct (phase c) as [| |[|j todo]|] eqn:E; try done. destruct (ops c !! j) as [y|] eqn:Ej; simplify_eq/=.
    destruct (abandon_op c j todo y Hc E Ej) as (x & Hx & _ & _ & _ & Hv). rewrite Hx in Hs. simplify_eq/=. exists j, x. naive_solver.
  - exists (length (ops c)), o'. rewrite list_insert_ge by done. destruct (phase c) as [| |[]|]; simplify_eq/=.
    split; [done|]. intros y Hy%lookup_lt_Some. lia.
Qed.

(** After the shutdown, once selecting threads have looked at the stopped registry and the
    scheduler has destroyed what was queued, every waiter is gone, and what was given to it was
    passed to its handler or given back. *)
Lemma shutdown_frees c i o : reachable c -> phase c = Stopped -> ops c !! i = Some o ->
  selector o = false -> posted o = false -> wait_op o = NoWait ->
  alive o = false /\ taken o = given_back o ++ delivered o.
Proof.
  intros Hc Hph Hi Hs Hp Hw. pose proof (reachable_op c i o Hc Hi) as Ho. apply ctx_reachable_inv in Hc as [_ Hl].
  rewrite Hph in Ho, Hl. cbn in Ho, Hl. rewrite Forall_lookup in Hl. destruct (Hl i o Hi) as [Hh Hc].
  assert (alive o = false) as Ha.
  { destruct Ho. rewrite i_alive, i_refs. unfold holders. rewrite i_live, Hh, Hc, Hs, Hp, Hw. cbn.
    destruct (registration o) eqn:E; [|done]. destruct (i_saved eq_refl) as [_ Hn]. destruct (i_unlisted i_live Hc). congruence. }
  split; [done|]. pose proof (i_slots _ _ Ho) as Ht. unfold held in Ht. rewrite (dead_empty _ _ Ho Ha), app_nil_r in Ht. done.
Qed.

(** ** Runs *)
Lemma ctx_run_reachable l c c' : reachable c -> run c l = Some (Ok c') -> reachable c'.
Proof.
  revert c. induction l as [|a l IH]; cbn; intros c Hc Hr; [by simplify_eq|].
  destruct (step c a) as [[c1|]|] eqn:E; simplify_eq/=. apply (IH c1); [|done]. eapply rtc_r; [done|]. by exists a.
Qed.

(** A waiter with a deadline that found no slot. *)
Definition parked_run : list action :=
  [Start (Build_Arrival true false false false None false false) true; On 0 (Register true); On 0 Add; On 0 (Park (Build_Parking false false None false true))].

Definition parked_op : Op :=
  mkOp true Queued true None 4 true Registry true true true true IDone true Armed false false [] [] [] false.

Example parked_runs : run fresh parked_run = Some (Ok (mkCtx Running [parked_op])).
Proof. vm_compute. reflexivity. Qed.

(** A slot arrives while the timer's callback is already queued: the handler gets the slot, the
    late callback changes nothing, and the node is freed when its last reference goes. *)
Definition race_run : list action :=
  parked_run ++ [On 0 TimerExpires; On 0 (Handoff 3); On 0 (Emit true); On 0 (Submit true); On 0 Deliver; On 0 TimerRuns].

Definition raced_op (alive : bool) : Op :=
  mkOp false Selected true (Some 3) (one alive) alive Unlisted alive false false false IDone false
    (if alive then Ran else NoWait) false false [3] [Ok 3] [] false.

Example race_runs :
  run fresh race_run = Some (Ok (mkCtx Running [raced_op true])) /\
  run fresh (race_run ++ [On 0 TimerCallbackEnds]) = Some (Ok (mkCtx Running [raced_op false])).
Proof. vm_compute. auto. Qed.

(** The context stops between a borrower's choice of the waiter and its call of [submit]: the slot
    is given back, nothing is posted, and the borrower's reference is the last but the timer's. *)
Example stopped_between :
  run fresh (parked_run ++ [On 0 (Handoff 3); ShutdownBegins; PrepareNext; PrepareDone; AbandonNext; ShutdownEnds;
                            On 0 (Submit true); On 0 DestroyTimer]) =
  Some (Ok (mkCtx Stopped [mkOp false Selected true (Some 3) 0 false Unlisted false false false false IDone false NoWait
                             false false [3] [] [3] false])).
Proof. vm_compute. reflexivity. Qed.

Lemma async_waiters_safe_witness :
  step (mkCtx Running [mkOp false Selected true (Some 3) 4 true Registry true true true true IDone true Armed true false [3] [] [] false])
    (On 0 (Submit false)) = Some (Err Terminated) /\ exists i, On 0 (Submit false) = On i (Submit false).
Proof.
  split; [vm_compute; reflexivity|].
  apply (async_waiters_safe
           (mkCtx Running [mkOp false Selected true (Some 3) 4 true Registry true true true true IDone true Armed true false [3] [] [] false])
           (On 0 (Submit false)) Terminated); [|vm_compute; reflexivity].
  apply (ctx_run_reachable (parked_run ++ [On 0 (Handoff 3)]) fresh); [apply rtc_refl|vm_compute; reflexivity].
Defined.

Lemma async_waiters_settle_witness : settled (raced_op false) /\ held (raced_op false) = [].
Proof.
  assert (settled (raced_op false)) as H by (right; left; by vm_compute). split; [done|].
  apply (async_waiters_settle (mkCtx Running [raced_op false]) 0 (raced_op false)); [|done..].
  apply (ctx_run_reachable (race_run ++ [On 0 TimerCallbackEnds]) fresh); [apply rtc_refl|vm_compute; reflexivity].
Defined.
