(* ===== verification/Waiting.v ===== *)
(** * Waiting and waking

    The wait strategies of the disruptor (concurrency-starling/disruptor/wait_strategies) and
    the event count (concurrency-starling/event_count). Waiting threads and signalling threads
    interleave at their atomic accesses, their lock operations and the system calls that park
    and wake. The question in both is whether a wake-up can be lost. *)

From S2P Require Import Prelude.

#[local] Open Scope Z_scope.

(** ** Spinning strategies

    [BusySpinWaitStrategy] and [YieldingWaitStrategy]: what the loop does with the values it
    reads from the cursor, [None] while it still waits. The second also counts its yields. *)
Fixpoint busy_spin_wait_for (sequence : Z) (readings : list Z) : option Z :=
  match readings with
  | [] => None
  | available :: rest => if available <? sequence then busy_spin_wait_for sequence rest else Some available
  end.

Definition SPIN_BEFORE_YIELD : nat := 100.

Fixpoint yielding_wait_for (sequence : Z) (readings : list Z) (spin_tries yields : nat) : option Z * nat :=
  match readings with
  | [] => (None, yields)
  | available :: rest =>
      if available <? sequence then
        if (SPIN_BEFORE_YIELD <? S spin_tries)%nat then yielding_wait_for sequence rest 0 (S yields)
        else yielding_wait_for sequence rest (S spin_tries) yields
      else (Some available, yields)
  end.

Lemma busy_spin_first sequence readings v :
  busy_spin_wait_for sequence readings = Some v <->
  exists before after, readings = before ++ v :: after /\ Forall (fun x => x < sequence) before /\ sequence <= v.
Proof.
  split.
  - induction readings as [|x r IH]; cbn; [done|]. destruct (Z.ltb_spec x sequence).
    + intros (b & a & -> & Hb & Hv)%IH. exists (x :: b), a. split_and!; [done|by constructor|done].
    + intros [= <-]. exists [], r. split_and!; [done|constructor|lia].
  - intros (b & a & -> & Hb & Hv). induction Hb as [|x b Hx _ IH]; cbn.
    + destruct (Z.ltb_spec v sequence); [lia|done].
    + destruct (Z.ltb_spec x sequence); [done|lia].
Qed.

(** Yielding changes nothing but the timing. *)
Lemma yielding_as_busy_spin sequence readings tries yields :
  fst (yielding_wait_for sequence readings tries yields) = busy_spin_wait_for sequence readings.
Proof.
  revert tries yields. induction readings as [|x r IH]; intros tries yields; cbn [yielding_wait_for busy_spin_wait_for]; [done|].
  destruct (x <? sequence); [|done]. destruct (_ <? S tries)%nat; apply IH.
Qed.

(** ** Blocking strategies

    [BlockingWaitStrategy], and [TimeoutBlockingWaitStrategy], whose time-outs are wake-ups
    without a signal like the spurious ones. One consumer waits; any number of producers
    advance the cursor and then signal. *)
Module Blocking.

(** The program counter of the waiting thread: in [wait_for] before the quick check, before
    the lock, holding it before the test of the cursor, holding it about to sleep, asleep,
    and woken but without the lock. *)
Inductive waiter_pc :=
| WIdle (returned : option Z)
| WQuick (sequence : Z)
| WLock (sequence : Z)
| WTest (sequence : Z)
| WBlock (sequence : Z)
| WSleep (sequence : Z)
| WWake (sequence : Z).

(** A producer: outside, past its update of the cursor, and holding the mutex in [signal]. *)
Inductive signaller_pc := SIdle | SAdvanced | SLocked.

Inductive owner := ByWaiter | BySignaller (i : nat).

Record state := { cursor : Z; mutex : option owner; waiter : waiter_pc; signallers : list signaller_pc }.

(** [cv_.notify_one()] and [notify_all()] with one waiter. *)
Definition notify (w : waiter_pc) : waiter_pc := match w with WSleep q => WWake q | _ => w end.

(** [step spurious]: without [spurious], only a notification ends a sleep. *)
Inductive step (spurious : bool) : state -> state -> Prop :=
| Call c m r ss q :
    step spurious {| cursor := c; mutex := m; waiter := WIdle r; signallers := ss |}
                  {| cursor := c; mutex := m; waiter := WQuick q; signallers := ss |}
| Quick c m q ss :
    step spurious {| cursor := c; mutex := m; waiter := WQuick q; signallers := ss |}
                  {| cursor := c; mutex := m; waiter := if q <=? c then WIdle (Some c) else WLock q; signallers := ss |}
| Lock c q ss :
    step spurious {| cursor := c; mutex := None; waiter := WLock q; signallers := ss |}
                  {| cursor := c; mutex := Some ByWaiter; waiter := WTest q; signallers := ss |}
| Retake c q ss :
    step spurious {| cursor := c; mutex := None; waiter := WWake q; signallers := ss |}
                  {| cursor := c; mutex := Some ByWaiter; waiter := WTest q; signallers := ss |}
| Test c m q ss :
    step spurious {| cursor := c; mutex := m; waiter := WTest q; signallers := ss |}
                  (if c <? q then {| cursor := c; mutex := m; waiter := WBlock q; signallers := ss |}
                   else {| cursor := c; mutex := None; waiter := WIdle (Some c); signallers := ss |})
| Block c m q ss :
    step spurious {| cursor := c; mutex := m; waiter := WBlock q; signallers := ss |}
                  {| cursor := c; mutex := None; waiter := WSleep q; signallers := ss |}
| Unprompted c m q ss :
    spurious = true ->
    step spurious {| cursor := c; mutex := m; waiter := WSleep q; signallers := ss |}
                  {| cursor := c; mutex := m; waiter := WWake q; signallers := ss |}
| Advance c m w ss i k :
    ss !! i = Some SIdle -> 0 < k ->
    step spurious {| cursor := c; mutex := m; waiter := w; signallers := ss |}
                  {| cursor := c + k; mutex := m; waiter := w; signallers := <[i := SAdvanced]> ss |}
| SignalLock c w ss i :
    ss !! i = Some SAdvanced ->
    step spurious {| cursor := c; mutex := None; waiter := w; signallers := ss |}
                  {| cursor := c; mutex := Some (BySignaller i); waiter := w; signallers := <[i := SLocked]> ss |}
| Notify c m w ss i :
    ss !! i = Some SLocked ->
    step spurious {| cursor := c; mutex := m; waiter := w; signallers := ss |}
                  {| cursor := c; mutex := None; waiter := notify w; signallers := <[i := SIdle]> ss |}.

Definition start (c : Z) (producers : nat) : state :=
  {| cursor := c; mutex := None; waiter := WIdle None; signallers := replicate producers SIdle |}.

Definition reachable (c : Z) (producers : nat) (s : state) : Prop := rtc (step true) (start c producers) s.

(** A producer that has moved the cursor and not yet signalled. *)
Definition pending (ss : list signaller_pc) : Prop := exists i p, ss !! i = Some p /\ p <> SIdle.

Definition waiting_for (w : waiter_pc) : option Z :=
  match w with WIdle _ => None | WQuick q | WLock q | WTest q | WBlock q | WSleep q | WWake q => Some q end.

End Blocking.

Section blocking_facts.
Import Blocking.

Definition holds_lock (w : waiter_pc) : bool := match w with WTest _ | WBlock _ => true | _ => false end.

Record blocking_inv (s : state) : Prop := {
  b_waiter : holds_lock (waiter s) = true <-> mutex s = Some ByWaiter;
  b_signaller i : signallers s !! i = Some SLocked <-> mutex s = Some (BySignaller i);
  b_asleep : match waiter s with WBlock q | WSleep q => cursor s < q \/ pending (signallers s) | _ => True end
}.

Lemma pending_insert ss i p : is_Some (ss !! i) -> p <> SIdle -> pending (<[i := p]> ss).
Proof. intros Hi Hp. exists i, p. split; [|done]. apply list_lookup_insert_eq. by apply lookup_lt_is_Some. Qed.

Lemma lookup_signaller (ss : list signaller_pc) i x p j q :
  ss !! i = Some x -> <[i := p]> ss !! j = Some q <-> (j = i /\ q = p) \/ (j <> i /\ ss !! j = Some q).
Proof.
  intros Hi. rewrite list_lookup_insert_Some. pose proof (lookup_lt_Some _ _ _ Hi). intuition congruence.
Qed.

(** The three kinds of step that move a producer. *)
Lemma producer_step_inv s m w i x p :
  blocking_inv s -> signallers s !! i = Some x ->
  (holds_lock w = true <-> m = Some ByWaiter) ->
  (forall j, <[i := p]> (signallers s) !! j = Some SLocked <-> m = Some (BySignaller j)) ->
  match w with WBlock q | WSleep q => cursor s < q \/ p <> SIdle | _ => True end ->
  forall c, c = cursor s \/ p <> SIdle ->
  blocking_inv {| cursor := c; mutex := m; waiter := w; signallers := <[i := p]> (signallers s) |}.
Proof.
  intros [H1 H2 H3] Hi Hw Hm Hs c Hc. split; cbn; [done|done|].
  assert (HP : p <> SIdle -> pending (<[i := p]> (signallers s))) by (intros; apply pending_insert; [by eexists|done]).
  destruct w; try done; destruct Hc as [->|Hc]; try (right; by apply HP); destruct Hs; [by left|by right; apply HP|by left|by right; apply HP].
Qed.

Lemma blocking_step b s s' : blocking_inv s -> step b s s' -> blocking_inv s'.
Proof.
  intros HI Hs. pose proof HI as [H1 H2 H3]. destruct Hs; cbn [cursor mutex waiter signallers] in *.
  - by split.
  - destruct (q <=? c); by split.
  - split; cbn; [done| |done]. intros i. rewrite H2. done.
  - split; cbn; [done| |done]. intros i. rewrite H2. done.
  - destruct (Z.ltb_spec c q).
    + split; cbn; [done|done|by left].
    + split; cbn; [done| |done]. intros i. rewrite H2. rewrite (proj1 H1 eq_refl). done.
  - split; cbn; [done| |done]. intros i. rewrite H2. rewrite (proj1 H1 eq_refl). done.
  - by split.
  - apply (producer_step_inv {| cursor := c; mutex := m; waiter := w; signallers := ss |} m w i SIdle SAdvanced); cbn; try done; [|destruct w; try done; by right|by right].
    intros j. rewrite (lookup_signaller _ _ _ _ _ _ H). rewrite <- H2. split; [by intros [[_ ?]|[_ ?]]|]. intros Hj. right. split; [|done]. congruence.
  - apply (producer_step_inv {| cursor := c; mutex := None; waiter := w; signallers := ss |} _ w i SAdvanced SLocked); cbn; try done.
    + rewrite H1. done.
    + intros j. rewrite (lookup_signaller _ _ _ _ _ _ H). rewrite H2. naive_solver.
    + destruct w; try done; by right.
    + by left.
  - apply (producer_step_inv {| cursor := c; mutex := m; waiter := w; signallers := ss |} _ (notify w) i SLocked SIdle); cbn; try done.
    + pose proof (proj1 (H2 i) H) as Hm. rewrite Hm in H1. destruct w; cbn in *; try done; naive_solver.
    + intros j. rewrite (lookup_signaller _ _ _ _ _ _ H). rewrite H2. rewrite (proj1 (H2 i) H). naive_solver.
    + pose proof (proj1 (H2 i) H) as Hm. rewrite Hm in H1. destruct w; try done. by pose proof (proj1 H1 eq_refl).
    + by left.
Qed.

Lemma reachable_blocking_inv c n s : reachable c n s -> blocking_inv s.
Proof.
  apply rtc_preserves; [apply blocking_step|]. split; cbn; [done| |done]. intros i. rewrite lookup_replicate. naive_solver.
Qed.

(** No wake-up is lost: a consumer asleep although the cursor has reached its
    sequence has a producer on its way to signal it. *)
Theorem no_lost_signal c n s q :
  reachable c n s -> waiter s = WSleep q -> q <= cursor s -> pending (signallers s).
Proof. intros [H1 H2 H3]%reachable_blocking_inv Hw Hq. rewrite Hw in H3. destruct H3; [lia|done]. Qed.

(** With the lock free, a woken consumer whose sequence is reached returns. *)
Lemma woken_returns c q ss :
  q <= c -> rtc (step false) {| cursor := c; mutex := None; waiter := WWake q; signallers := ss |}
                             {| cursor := c; mutex := None; waiter := WIdle (Some c); signallers := ss |}.
Proof.
  intros Hq. eapply rtc_l; [apply Retake|]. eapply rtc_l; [apply Test|]. destruct (Z.ltb_spec c q); [lia|]. apply rtc_refl.
Qed.

Lemma asleep_returns c q ss i :
  q <= c -> ss !! i = Some SAdvanced ->
  exists ss', rtc (step false) {| cursor := c; mutex := None; waiter := WSleep q; signallers := ss |}
                               {| cursor := c; mutex := None; waiter := WIdle (Some c); signallers := ss' |}.
Proof.
  intros Hq Hi. eexists. eapply rtc_l; [by apply SignalLock|]. eapply rtc_l; [apply (Notify false _ _ _ _ i)|by apply woken_returns].
  apply list_lookup_insert_eq. by eapply lookup_lt_Some.
Qed.

(** [wait_for] returns: once the cursor has reached its sequence, the consumer can finish the
    call with a value at or beyond it, whatever the producers are in the middle of, and
    without relying on a spurious wake-up or a time-out. *)
Theorem wait_for_returns c n s q :
  reachable c n s -> waiting_for (waiter s) = Some q -> q <= cursor s ->
  exists s', rtc (step false) s s' /\ waiter s' = WIdle (Some (cursor s)) /\ cursor s' = cursor s.
Proof.
  intros [H1 H2 H3]%reachable_blocking_inv Hw Hq. destruct s as [cu m w ss]. cbn [cursor mutex waiter signallers] in *.
  assert (Hfree : forall ss, exists s', rtc (step false) {| cursor := cu; mutex := None; waiter := WWake q; signallers := ss |} s' /\
                         waiter s' = WIdle (Some cu) /\ cursor s' = cu).
  { intros ss'. eexists. split; [by apply woken_returns|done]. }
  assert (Hsleep : forall ss, (forall j, ss !! j <> Some SLocked) -> pending ss ->
            exists s', rtc (step false) {| cursor := cu; mutex := None; waiter := WSleep q; signallers := ss |} s' /\
                       waiter s' = WIdle (Some cu) /\ cursor s' = cu).
  { intros ss' Hn (j & p & Hj & Hp). destruct p; [done| |by destruct (Hn j)]. destruct (asleep_returns cu q ss' j Hq Hj) as [ss'' Hr].
    eexists. split; [exact Hr|done]. }
  destruct w as [r|q'|q'|q'|q'|q'|q']; try discriminate; injection Hw as ->.
  - eexists. split; [eapply rtc_l; [apply Quick|apply rtc_refl]|]. destruct (Z.leb_spec q cu); [done|lia].
  - assert (Hl : forall ss, exists s', rtc (step false) {| cursor := cu; mutex := None; waiter := WLock q; signallers := ss |} s' /\
                         waiter s' = WIdle (Some cu) /\ cursor s' = cu).
    { intros ss'. eexists. split; [eapply rtc_l; [apply Lock|]; eapply rtc_l; [apply Test|]; apply rtc_refl|]. destruct (Z.ltb_spec cu q); [lia|done]. }
    destruct m as [[|i]|]; [by pose proof (proj2 H1 eq_refl)| |apply Hl].
    destruct (Hl (<[i := SIdle]> ss)) as (s' & Hr & Hs). exists s'. split; [|done]. eapply rtc_l; [apply (Notify false), (H2 i); reflexivity|exact Hr].
  - eexists. split; [eapply rtc_l; [apply Test|apply rtc_refl]|]. destruct (Z.ltb_spec cu q); [lia|done].
  - pose proof (proj1 H1 eq_refl) as ->. destruct (Hsleep ss) as (s' & Hr & Hs).
    + intros j Hj. by apply H2 in Hj.
    + destruct H3; [lia|done].
    + exists s'. split; [|done]. eapply rtc_l; [apply Block|exact Hr].
  - destruct m as [[|i]|]; [by pose proof (proj2 H1 eq_refl)| |].
    + destruct (Hfree (<[i := SIdle]> ss)) as (s' & Hr & Hs). exists s'. split; [|done].
      eapply rtc_l; [apply (Notify false), (H2 i); reflexivity|exact Hr].
    + apply Hsleep; [|destruct H3; [lia|done]]. intros j Hj. by apply H2 in Hj.
  - destruct m as [[|i]|]; [by pose proof (proj2 H1 eq_refl)| |apply Hfree].
    destruct (Hfree (<[i := SIdle]> ss)) as (s' & Hr & Hs). exists s'. split; [|done].
    eapply rtc_l; [apply (Notify false), (H2 i); reflexivity|exact Hr].
Qed.

End blocking_facts.

(** ** The event count *)
Module EventCount.

Definition u64 (z : Z) : Z := z mod 2 ^ 64.
Definition u32 (z : Z) : Z := z mod 2 ^ 32.

Definition epoch_increment : Z := Z.shiftl 1 32.

(** [get_epoch] and [get_waiter_count]: the halves of the state word. *)
Definition get_epoch (word : Z) : Z := u32 (Z.shiftr word 32).
Definition get_waiter_count (word : Z) : Z := u32 word.

(** A waiting thread: outside; registered by [prepare_wait] with its key; past the test of
    [wait_until] and about to enter the futex; parked; back from it with its registration still to
    be consumed. [since] and [parked_at] are history: how many notifications there had been when the key
    was taken and when the thread was parked. *)
Inductive waiter_pc :=
| Outside
| Prepared (key : Z) (since : nat)
| Entering (key : Z) (since : nat)
| Parked (key : Z) (since parked_at : nat)
| Leaving.

(** A notifying thread: outside, or past the epoch's increment and about to wake [count]. *)
Inductive notifier_pc := NOutside | NWake (index count : nat).

(** [completed] is history: for every finished notification its number, how many threads it was
    to wake and how many it woke. *)
Record state := {
  word : Z;
  epoch : nat;
  waiters : list waiter_pc;
  notifiers : list notifier_pc;
  completed : list (nat * nat * nat)
}.

Definition is_parked (w : waiter_pc) : bool := match w with Parked _ _ _ => true | _ => false end.
Definition is_registered (w : waiter_pc) : bool := match w with Outside => false | _ => true end.

Definition parked_ids (ws : list waiter_pc) : list nat :=
  List.filter (fun i => match ws !! i with Some w => is_parked w | None => false end) (seq 0 (length ws)).

Definition unpark (ids : list nat) (ws : list waiter_pc) : list waiter_pc :=
  foldr (fun i ws => <[i := Leaving]> ws) ws ids.

Inductive step : state -> state -> Prop :=
| PrepareWait w e ws ns h i :
    ws !! i = Some Outside ->
    step {| word := w; epoch := e; waiters := ws; notifiers := ns; completed := h |}
         {| word := u64 (w + 1); epoch := e; waiters := <[i := Prepared (get_epoch w) e]> ws; notifiers := ns; completed := h |}
| CancelWait w e ws ns h i k t :
    ws !! i = Some (Prepared k t) ->
    step {| word := w; epoch := e; waiters := ws; notifiers := ns; completed := h |}
         {| word := u64 (w - 1); epoch := e; waiters := <[i := Outside]> ws; notifiers := ns; completed := h |}
(** [wait_until]: past the deadline, or the epoch has left the key, it does not enter the futex. *)
| WaitExpired w e ws ns h i k t :
    ws !! i = Some (Prepared k t) ->
    step {| word := w; epoch := e; waiters := ws; notifiers := ns; completed := h |}
         {| word := w; epoch := e; waiters := <[i := Leaving]> ws; notifiers := ns; completed := h |}
| WaitTest w e ws ns h i k t :
    ws !! i = Some (Prepared k t) ->
    step {| word := w; epoch := e; waiters := ws; notifiers := ns; completed := h |}
         {| word := w; epoch := e; waiters := <[i := if get_epoch w =? k then Entering k t else Leaving]> ws;
            notifiers := ns; completed := h |}
(** [FUTEX_WAIT]: compares and parks in one step of the kernel. *)
| FutexWait w e ws ns h i k t :
    ws !! i = Some (Entering k t) ->
    step {| word := w; epoch := e; waiters := ws; notifiers := ns; completed := h |}
         {| word := w; epoch := e; waiters := <[i := if get_epoch w =? k then Parked k t e else Leaving]> ws;
            notifiers := ns; completed := h |}
(** Time-out, interruption or a spurious wake. *)
| Unprompted w e ws ns h i k t p :
    ws !! i = Some (Parked k t p) ->
    step {| word := w; epoch := e; waiters := ws; notifiers := ns; completed := h |}
         {| word := w; epoch := e; waiters := <[i := Leaving]> ws; notifiers := ns; completed := h |}
| Leave w e ws ns h i :
    ws !! i = Some Leaving ->
    step {| word := w; epoch := e; waiters := ws; notifiers := ns; completed := h |}
         {| word := u64 (w - 1); epoch := e; waiters := <[i := Outside]> ws; notifiers := ns; completed := h |}
(** [notify]: the increment, and without waiters nothing more. *)
| Notify w e ws ns h n count :
    ns !! n = Some NOutside -> (0 < count)%nat ->
    step {| word := w; epoch := e; waiters := ws; notifiers := ns; completed := h |}
         (if get_waiter_count w =? 0 then
            {| word := u64 (w + epoch_increment); epoch := S e; waiters := ws; notifiers := ns; completed := h ++ [(e, count, 0%nat)] |}
          else
            {| word := u64 (w + epoch_increment); epoch := S e; waiters := ws; notifiers := <[n := NWake e count]> ns; completed := h |})
(** [FUTEX_WAKE]: as many of the parked threads as asked for, whichever. *)
| FutexWake w e ws ns h n j count ids :
    ns !! n = Some (NWake j count) -> NoDup ids -> ids ⊆ parked_ids ws -> length ids = Nat.min count (length (parked_ids ws)) ->
    step {| word := w; epoch := e; waiters := ws; notifiers := ns; completed := h |}
         {| word := w; epoch := e; waiters := unpark ids ws; notifiers := <[n := NOutside]> ns; completed := h ++ [(j, count, length ids)] |}.

Definition start (waiting notifying : nat) : state :=
  {| word := 0; epoch := 0; waiters := replicate waiting Outside; notifiers := replicate notifying NOutside; completed := [] |}.

Definition reachable (waiting notifying : nat) (s : state) : Prop := rtc step (start waiting notifying) s.

Definition registered (ws : list waiter_pc) : nat := length (List.filter is_registered ws).

End EventCount.

Section event_count_facts.
Import EventCount.

(** *** The state word *)
Definition encodes (w : Z) (e registered : nat) : Prop := w = (Z.of_nat e mod 2 ^ 32) * 2 ^ 32 + Z.of_nat registered.

Lemma encodes_halves w e r :
  encodes w e r -> Z.of_nat r < 2 ^ 32 -> get_epoch w = Z.of_nat e mod 2 ^ 32 /\ get_waiter_count w = Z.of_nat r /\ 0 <= w < 2 ^ 64.
Proof.
  intros -> Hr. unfold get_epoch, get_waiter_count, u32. rewrite Z.shiftr_div_pow2 by done. pose proof (Z.mod_pos_bound (Z.of_nat e) (2 ^ 32) eq_refl) as He.
  set (x := Z.of_nat e mod 2 ^ 32) in *. rewrite Z.div_add_l by done. rewrite (Z.div_small (Z.of_nat r)) by lia.
  rewrite Z.add_0_r, (Z.mod_small x) by done. rewrite Z.add_comm, Z.mod_add by done. rewrite Z.mod_small by lia. lia.
Qed.

Lemma encodes_register w e r :
  encodes w e r -> Z.of_nat r + 1 < 2 ^ 32 -> encodes (u64 (w + 1)) e (S r).
Proof.
  intros H Hr. destruct (encodes_halves w e r H) as (_ & _ & Hw); [lia|]. unfold encodes, u64 in *. rewrite H in *.
  pose proof (Z.mod_pos_bound (Z.of_nat e) (2 ^ 32) eq_refl). rewrite Z.mod_small by lia. lia.
Qed.

Lemma encodes_unregister w e r : encodes w e (S r) -> Z.of_nat r + 1 < 2 ^ 32 -> encodes (u64 (w - 1)) e r.
Proof.
  intros H Hr. unfold encodes, u64 in *. rewrite H in *.
  pose proof (Z.mod_pos_bound (Z.of_nat e) (2 ^ 32) eq_refl). rewrite Z.mod_small by lia. lia.
Qed.

Lemma encodes_notify w e r : encodes w e r -> Z.of_nat r < 2 ^ 32 -> encodes (u64 (w + epoch_increment)) (S e) r.
Proof.
  intros H Hr. unfold encodes, u64, epoch_increment in *. rewrite H. change (Z.shiftl 1 32) with (2 ^ 32). change (2 ^ 64) with (2 ^ 32 * 2 ^ 32).
  replace (Z.of_nat e mod 2 ^ 32 * 2 ^ 32 + Z.of_nat r + 2 ^ 32) with (Z.of_nat r + (Z.of_nat e mod 2 ^ 32 + 1) * 2 ^ 32) by lia.
  rewrite Zmod_eq_full by done. set (x := Z.of_nat e mod 2 ^ 32). assert (Hx : 0 <= x < 2 ^ 32) by (by apply Z.mod_pos_bound).
  rewrite <- Z.div_div by done. rewrite Z.div_add by done. rewrite (Z.div_small (Z.of_nat r)) by lia. rewrite Z.add_0_l.
  replace (Z.of_nat (S e)) with (Z.of_nat e + 1) by lia. rewrite <- (Zplus_mod_idemp_l (Z.of_nat e) 1). fold x.
  rewrite (Zmod_eq_full (x + 1)) by done. lia.
Qed.

(** *** Registrations *)
Lemma registered_insert ws i x y :
  ws !! i = Some x -> (registered (<[i := y]> ws) + one (is_registered x) = registered ws + one (is_registered y))%nat.
Proof.
  intros Hi. rewrite (insert_take_drop _ _ _ (lookup_lt_Some _ _ _ Hi)). rewrite <- (take_drop_middle ws i x Hi) at 3.
  unfold registered. rewrite !List.filter_app, !length_app. cbn. destruct (is_registered x), (is_registered y); cbn; lia.
Qed.

Lemma registered_le ws : (registered ws <= length ws)%nat.
Proof. apply List.filter_length_le. Qed.

Lemma registered_room ws i x : ws !! i = Some x -> is_registered x = false -> (registered ws < length ws)%nat.
Proof.
  intros Hi Hx. pose proof (registered_insert ws i x Leaving Hi) as H. pose proof (registered_le (<[i := Leaving]> ws)) as Hl.
  rewrite length_insert in Hl. rewrite Hx in H. cbn in H. lia.
Qed.

Lemma registered_some ws i x : ws !! i = Some x -> is_registered x = true -> exists r, registered ws = S r.
Proof.
  intros Hi Hx. pose proof (registered_insert ws i x Outside Hi) as H. rewrite Hx in H. cbn in H.
  exists (registered (<[i := Outside]> ws)). lia.
Qed.

Lemma elem_of_parked_ids ws i : i ∈ parked_ids ws <-> exists k t p, ws !! i = Some (Parked k t p).
Proof.
  unfold parked_ids. rewrite list_elem_of_In, filter_In, in_seq. split.
  - intros [_ H]. destruct (ws !! i) as [[| | |k t p|]|]; try done. by exists k, t, p.
  - intros (k & t & p & H). rewrite H. split; [|done]. apply lookup_lt_Some in H. lia.
Qed.

Lemma lookup_unpark ids ws i : unpark ids ws !! i = if decide (i ∈ ids) then (fun _ => Leaving) <$> ws !! i else ws !! i.
Proof.
  induction ids as [|j ids IH]; cbn [unpark foldr]; [by rewrite decide_False by apply not_elem_of_nil|].
  fold (unpark ids ws). destruct (decide (i = j)) as [->|Hne].
  - rewrite decide_True by (by left). destruct (ws !! j) as [x|] eqn:E.
    + cbn. apply list_lookup_insert_eq. assert (is_Some (unpark ids ws !! j)) as H; [|by apply lookup_lt_is_Some in H].
      rewrite IH. case_decide; cbn; by eexists.
    + cbn. apply lookup_ge_None. rewrite length_insert. apply lookup_ge_None. rewrite IH. by case_decide.
  - rewrite list_lookup_insert_ne by done. rewrite IH. repeat case_decide; set_solver.
Qed.

Lemma registered_unpark ids ws : ids ⊆ parked_ids ws -> registered (unpark ids ws) = registered ws /\ length (unpark ids ws) = length ws.
Proof.
  induction ids as [|j ids IH]; intros Hs; [done|]. destruct IH as [IH1 IH2]; [set_solver|]. cbn [unpark foldr]. fold (unpark ids ws).
  rewrite length_insert, IH2. split; [|done].
  destruct (proj1 (elem_of_parked_ids ws j)) as (k & t & p & E); [set_solver|].
  assert (exists x, unpark ids ws !! j = Some x /\ is_registered x = true) as (x & Ex & Hx).
  { rewrite lookup_unpark. case_decide; rewrite E; by eexists. }
  pose proof (registered_insert _ _ _ Leaving Ex) as H. rewrite Hx, IH1 in H. cbn in H. lia.
Qed.

(** Waking every parked thread leaves none. *)
Lemma unpark_all ids ws :
  NoDup ids -> ids ⊆ parked_ids ws -> length ids = length (parked_ids ws) -> parked_ids (unpark ids ws) = [].
Proof.
  intros HN Hs Hl. assert (HP : ids ≡ₚ parked_ids ws).
  { apply submseteq_length_Permutation; [by apply NoDup_submseteq|lia]. }
  apply elem_of_nil_inv. intros i (k & t & p & E)%elem_of_parked_ids. rewrite lookup_unpark in E. case_decide as Hi; [by destruct (ws !! i)|].
  apply Hi. rewrite HP. apply elem_of_parked_ids. eauto.
Qed.

(** *** The invariant *)
Definition waiter_ok (e : nat) (w : waiter_pc) : Prop :=
  match w with
  | Prepared k t | Entering k t => k = Z.of_nat t mod 2 ^ 32 /\ (t <= e)%nat
  | Parked k t p => k = Z.of_nat t mod 2 ^ 32 /\ k = Z.of_nat p mod 2 ^ 32 /\ (t <= p <= e)%nat
  | _ => True
  end.

Record ec_inv (n : nat) (s : state) : Prop := {
  e_length : length (waiters s) = n;
  e_word : encodes (word s) (epoch s) (registered (waiters s));
  e_waiters : Forall (waiter_ok (epoch s)) (waiters s);
  e_past : Forall (fun '(j, req, woken) => (j < epoch s)%nat /\ (woken <= n)%nat) (completed s);
  e_pending : Forall (fun p => match p with NWake j _ => (j < epoch s)%nat | _ => True end) (notifiers s);
  e_parked i k t p j req woken :
    waiters s !! i = Some (Parked k t p) -> (j, req, woken) ∈ completed s -> (p <= j)%nat -> woken = req
}.

(** A waiter that moves between states other than parked. *)
Lemma move_inv n s i x y w :
  ec_inv n s -> waiters s !! i = Some x -> waiter_ok (epoch s) y ->
  encodes w (epoch s) (registered (<[i := y]> (waiters s))) ->
  (forall k t p, y = Parked k t p -> p = epoch s) ->
  ec_inv n {| word := w; epoch := epoch s; waiters := <[i := y]> (waiters s); notifiers := notifiers s; completed := completed s |}.
Proof.
  intros [H1 H2 H3 H4 H5 H6] Hi Hy Hw Hp. split; cbn; try done.
  - by rewrite length_insert.
  - by apply Forall_insert.
  - intros i' k t p j req woken. rewrite list_lookup_insert_Some. intros [(-> & -> & _)|[_ Hi']] Hj Hle; [|by eapply H6].
    specialize (Hp k t p eq_refl). rewrite Forall_forall in H4. apply H4 in Hj. lia.
Qed.

(** The registration count moves with the waiter's state. *)
Lemma move_counted n s i x y :
  ec_inv n s -> Z.of_nat n < 2 ^ 32 -> waiters s !! i = Some x ->
  encodes (if is_registered x then if is_registered y then word s else u64 (word s - 1)
           else if is_registered y then u64 (word s + 1) else word s) (epoch s) (registered (<[i := y]> (waiters s))).
Proof.
  intros [H1 H2 _ _ _ _] Hn Hi. pose proof (registered_insert _ _ _ y Hi) as HR. pose proof (registered_le (waiters s)) as HL. rewrite H1 in HL.
  destruct (is_registered x) eqn:Ex, (is_registered y) eqn:Ey; cbn in HR.
  - replace (registered (<[i := y]> (waiters s))) with (registered (waiters s)) by lia. done.
  - apply encodes_unregister; [|lia]. replace (S (registered (<[i := y]> (waiters s)))) with (registered (waiters s)) by lia. done.
  - pose proof (registered_room _ _ _ Hi Ex). replace (registered (<[i := y]> (waiters s))) with (S (registered (waiters s))) by lia.
    apply encodes_register; [done|lia].
  - replace (registered (<[i := y]> (waiters s))) with (registered (waiters s)) by lia. done.
Qed.

Lemma waiter_ok_mono e w : waiter_ok e w -> waiter_ok (S e) w.
Proof. destruct w; cbn; try done; lia. Qed.

Lemma none_registered ws i x : registered ws = 0%nat -> ws !! i = Some x -> is_registered x = false.
Proof. intros H Hi. destruct (is_registered x) eqn:E; [|done]. destruct (registered_some _ _ _ Hi E) as [r Hr]. lia. Qed.

Lemma notify_inv n s k count :
  ec_inv n s -> Z.of_nat n < 2 ^ 32 ->
  ec_inv n (if get_waiter_count (word s) =? 0 then
              {| word := u64 (word s + epoch_increment); epoch := S (epoch s); waiters := waiters s; notifiers := notifiers s;
                 completed := completed s ++ [(epoch s, count, 0%nat)] |}
            else
              {| word := u64 (word s + epoch_increment); epoch := S (epoch s); waiters := waiters s;
                 notifiers := <[k := NWake (epoch s) count]> (notifiers s); completed := completed s |}).
Proof.
  intros [H1 H2 H3 H4 H5 H6] Hn. pose proof (registered_le (waiters s)) as HL. rewrite H1 in HL.
  destruct (encodes_halves _ _ _ H2) as (_ & Hc & _); [lia|]. rewrite Hc.
  assert (HW : encodes (u64 (word s + epoch_increment)) (S (epoch s)) (registered (waiters s))) by (apply encodes_notify; [done|lia]).
  assert (H3' : Forall (waiter_ok (S (epoch s))) (waiters s)) by (eapply Forall_impl; [exact H3|intros; by apply waiter_ok_mono]).
  assert (H4' : Forall (fun '(j, req, woken) => (j < S (epoch s))%nat /\ (woken <= n)%nat) (completed s)).
  { eapply Forall_impl; [exact H4|]. intros [[j req] woken]. lia. }
  assert (H5' : Forall (fun p => match p with NWake j _ => (j < S (epoch s))%nat | _ => True end) (notifiers s)).
  { eapply Forall_impl; [exact H5|]. intros [|]; lia. }
  destruct (Z.eqb_spec (Z.of_nat (registered (waiters s))) 0) as [H0|H0].
  - split; cbn; try done; [apply Forall_app; split; [done|]; constructor; [split; lia|done]|].
    intros i k' t p j req woken Hi. by assert (is_registered (Parked k' t p) = false) by (apply (none_registered (waiters s) i); [lia|done]).
  - split; cbn; try done. by apply Forall_insert; [|lia].
Qed.

Lemma wake_inv n s k j count ids :
  ec_inv n s -> notifiers s !! k = Some (NWake j count) -> NoDup ids -> ids ⊆ parked_ids (waiters s) ->
  length ids = Nat.min count (length (parked_ids (waiters s))) ->
  ec_inv n {| word := word s; epoch := epoch s; waiters := unpark ids (waiters s); notifiers := <[k := NOutside]> (notifiers s);
              completed := completed s ++ [(j, count, length ids)] |}.
Proof.
  intros [H1 H2 H3 H4 H5 H6] Hk HN Hs Hl. destruct (registered_unpark _ _ Hs) as [HR HL].
  assert (Hpark : forall i k t p, unpark ids (waiters s) !! i = Some (Parked k t p) -> waiters s !! i = Some (Parked k t p)).
  { intros i k' t p. rewrite lookup_unpark. case_decide; [by destruct (waiters s !! i)|done]. }
  split; cbn [word epoch waiters notifiers completed].
  - by rewrite HL.
  - by rewrite HR.
  - apply Forall_lookup. intros i w. rewrite lookup_unpark. rewrite Forall_lookup in H3. case_decide; [|apply H3].
    destruct (waiters s !! i); [|done]. by intros [= <-].
  - apply Forall_app. split; [done|]. constructor; [|done]. split; [rewrite Forall_lookup in H5; exact (H5 _ _ Hk)|].
    assert (length (parked_ids (waiters s)) <= n)%nat; [|lia]. unfold parked_ids. rewrite List.filter_length_le, length_seq. lia.
  - by apply Forall_insert.
  - intros i k' t p j' req woken Hi [Hj|Hj]%elem_of_app Hle; [by eapply H6; [apply Hpark|..]|].
    apply list_elem_of_singleton in Hj. injection Hj as -> -> ->. rewrite Hl.
    destruct (Nat.le_gt_cases count (length (parked_ids (waiters s)))) as [|Hgt]; [lia|].
    pose proof (unpark_all ids (waiters s) HN Hs ltac:(lia)) as HE. assert (i ∈ parked_ids (unpark ids (waiters s))) as Hin.
    { apply elem_of_parked_ids. eauto. }
    rewrite HE in Hin. by apply elem_of_nil in Hin.
Qed.

Lemma ec_step n s s' : Z.of_nat n < 2 ^ 32 -> ec_inv n s -> step s s' -> ec_inv n s'.
Proof.
  intros Hn HI Hs. pose proof HI as [H1 H2 H3 H4 H5 H6]. pose proof (registered_le (waiters s)) as HL. rewrite H1 in HL.
  destruct (encodes_halves _ _ _ H2) as (He & _ & _); [lia|].
  assert (Hok : forall i w, waiters s !! i = Some w -> waiter_ok (epoch s) w) by (by apply Forall_lookup).
  assert (Hmove : forall i x y, waiters s !! i = Some x -> waiter_ok (epoch s) y -> (forall k t p, y = Parked k t p -> p = epoch s) ->
    ec_inv n {| word := if is_registered x then if is_registered y then word s else u64 (word s - 1)
                        else if is_registered y then u64 (word s + 1) else word s;
                epoch := epoch s; waiters := <[i := y]> (waiters s); notifiers := notifiers s; completed := completed s |}).
  { intros i x y Hi Hy Hp. eapply move_inv; [exact HI|exact Hi|done|by eapply move_counted|done]. }
  destruct Hs; cbn [word epoch waiters notifiers completed] in *.
  - by apply (Hmove i Outside (Prepared (get_epoch w) e)).
  - by apply (Hmove i (Prepared k t) Outside).
  - by apply (Hmove i (Prepared k t) Leaving).
  - specialize (Hmove i (Prepared k t) (if get_epoch w =? k then Entering k t else Leaving) H).
    replace w with (if is_registered (if get_epoch w =? k then Entering k t else Leaving) then w else u64 (w - 1)) at 1 by (by destruct (get_epoch w =? k)).
    apply Hmove; destruct (get_epoch w =? k); try done. exact (Hok _ _ H).
  - specialize (Hmove i (Entering k t) (if get_epoch w =? k then Parked k t e else Leaving) H).
    replace w with (if is_registered (if get_epoch w =? k then Parked k t e else Leaving) then w else u64 (w - 1)) at 1 by (by destruct (get_epoch w =? k)).
    specialize (Hok _ _ H). apply Hmove; destruct (Z.eqb_spec (get_epoch w) k) as [Ek|]; try done; [|naive_solver].
    destruct Hok as [Hk Ht]. split_and!; [done|congruence|done|done].
  - by apply (Hmove i (Parked k t p) Leaving).
  - by apply (Hmove i Leaving Outside).
  - exact (notify_inv n _ n0 count HI Hn).
  - eapply (wake_inv n {| word := w; epoch := e; waiters := ws; notifiers := ns; completed := h |}); done.
Qed.

Lemma reachable_ec_inv n m s : Z.of_nat n < 2 ^ 32 -> reachable n m s -> ec_inv n s.
Proof.
  intros Hn. apply rtc_preserves; [intros; by eapply ec_step|].
  assert (registered (replicate n Outside) = 0%nat) as HR by (clear; induction n; done).
  split; cbn [start word epoch waiters notifiers completed]; [by rewrite length_replicate|by rewrite HR|by apply Forall_replicate|constructor|by apply Forall_replicate|].
  intros i k t p j req woken. rewrite lookup_replicate. by intros [? _].
Qed.

(** C26. No notification is lost on a waiter. While a thread is parked, every notification that came
    after its [prepare_wait] and has returned woke as many threads as it was asked to: none
    found this thread registered and passed it over. So [notify_all], which asks for more than
    there are, never returns with such a thread parked. The key is 32 bits of the epoch, so
    fewer than 2^32 notifications may come between [prepare_wait] and parking. *)
Theorem no_lost_notification n m s i k t p j req woken :
  Z.of_nat n < 2 ^ 32 -> reachable n m s -> waiters s !! i = Some (Parked k t p) -> Z.of_nat p - Z.of_nat t < 2 ^ 32 ->
  (j, req, woken) ∈ completed s -> (t <= j)%nat -> woken = req /\ (req <= n)%nat.
Proof.
  intros Hn HR Hi Hp Hj Ht. destruct (reachable_ec_inv n m s Hn HR) as [_ _ H3 H4 _ H6].
  rewrite Forall_lookup in H3. destruct (H3 _ _ Hi) as (Hk & Hk' & Hle). assert (p = t) as ->.
  { assert (Hd : (Z.of_nat p - Z.of_nat t) mod 2 ^ 32 = 0) by (by rewrite Zminus_mod, <- Hk, <- Hk', Z.sub_diag).
    rewrite Z.mod_small in Hd by lia. lia. }
  pose proof (H6 _ _ _ _ _ _ _ Hi Hj Ht) as ->. rewrite Forall_forall in H4. apply H4 in Hj. split; [done|lia].
Qed.

(** The halves of the word are what they are read as: the number of notifications modulo
    2^32, and the exact number of registrations. *)
Theorem event_count_word n m s :
  Z.of_nat n < 2 ^ 32 -> reachable n m s ->
  get_epoch (word s) = Z.of_nat (epoch s) mod 2 ^ 32 /\ get_waiter_count (word s) = Z.of_nat (registered (waiters s)).
Proof.
  intros Hn HR. destruct (reachable_ec_inv n m s Hn HR) as [H1 H2 _ _ _ _]. pose proof (registered_le (waiters s)).
  destruct (encodes_halves _ _ _ H2) as (? & ? & _); [lia|done].
Qed.

End event_count_facts.

Lemma wait_for_returns_witness : exists s, Blocking.reachable (-1) 1 s /\ Blocking.waiter s = Blocking.WSleep 0 /\
  exists s', rtc (Blocking.step false) s s' /\ Blocking.waiter s' = Blocking.WIdle (Some 0) /\ Blocking.cursor s' = 0.
Proof.
  set (s := {| Blocking.cursor := 0; Blocking.mutex := None; Blocking.waiter := Blocking.WSleep 0; Blocking.signallers := [Blocking.SAdvanced] |}).
  assert (HR : Blocking.reachable (-1) 1 s).
  { eapply rtc_l; [apply (Blocking.Call true (-1) None None _ 0)|]. eapply rtc_l; [apply Blocking.Quick|]. eapply rtc_l; [apply Blocking.Lock|].
    eapply rtc_l; [apply Blocking.Test|]. eapply rtc_l; [apply Blocking.Block|].
    eapply rtc_l; [apply (Blocking.Advance true _ _ _ _ 0 1); [done|lia]|]. apply rtc_refl. }
  exists s. split; [exact HR|]. split; [reflexivity|]. apply (wait_for_returns (-1) 1 s 0 HR); [reflexivity|cbn; lia].
Defined.

(** Two threads park; one is woken, the other stays. *)
Definition two_parked : EventCount.state :=
  {| EventCount.word := 2 ^ 32 + 2; EventCount.epoch := 1; EventCount.waiters := [EventCount.Leaving; EventCount.Parked 0 0 0];
     EventCount.notifiers := [EventCount.NOutside]; EventCount.completed := [(0, 1, 1)]%nat |}.

Lemma two_parked_reachable : EventCount.reachable 2 1 two_parked.
Proof.
  eapply rtc_l; [by apply (EventCount.PrepareWait _ _ _ _ _ 0)|]. eapply rtc_l; [by apply (EventCount.PrepareWait _ _ _ _ _ 1)|].
  eapply rtc_l; [by apply (EventCount.WaitTest _ _ _ _ _ 0 0 0)|]. eapply rtc_l; [by apply (EventCount.WaitTest _ _ _ _ _ 1 0 0)|].
  eapply rtc_l; [by apply (EventCount.FutexWait _ _ _ _ _ 0 0 0)|]. eapply rtc_l; [by apply (EventCount.FutexWait _ _ _ _ _ 1 0 0)|].
  eapply rtc_l; [apply (EventCount.Notify _ _ _ _ _ 0 1); [done|lia]|].
  eapply rtc_l; [apply (EventCount.FutexWake _ _ _ _ _ 0 0 1 [0%nat]); [done|apply NoDup_singleton|vm_compute; set_solver|done]|].
  apply rtc_refl.
Qed.

Lemma no_lost_notification_witness :
  EventCount.reachable 2 1 two_parked /\ EventCount.waiters two_parked !! 1%nat = Some (EventCount.Parked 0 0 0) /\ (1 = 1 /\ 1 <= 2)%nat.
Proof.
  split; [exact two_parked_reachable|]. split; [reflexivity|].
  apply (no_lost_notification 2 1 two_parked 1 0 0 0 0 1 1); [vm_compute; reflexivity|exact two_parked_reachable|reflexivity|vm_compute; reflexivity|by left|lia].
Defined.
