(* ===== verification/Spider.v ===== *)
(** * locator-spider: the service locator

    [Spider] (locator-spider/core): a registry of services by type and instance number, with
    lazy construction, lifetime policies and a janitor. The operations are functions on the
    registry; [get], whose critical sections are separated by the construction of the service,
    is the composition of one function per section, and their interleavings with every
    other operation are a step relation. *)

From S2P Require Import Prelude.

#[local] Open Scope Z_scope.

(** ** Policies and slots *)
Inductive Lifetime := Resettable | Scoped | Timed (idle : Z) | Immortal.

Definition default_idle : Z := 60.

Definition is_timed (lt : Lifetime) : bool := match lt with Timed _ => true | _ => false end.

(** [get_spider_policy]: the type's own policy, where it declares one. *)
Definition get_spider_policy (declared : option Lifetime) : Lifetime := default Resettable declared.

(** A service is named by its type and an instance number. *)
Record Key := { type : nat; id : nat }.

#[export] Instance Key_eq_dec : EqDecision Key.
Proof. solve_decision. Defined.

#[export] Program Instance Key_countable : Countable Key :=
  inj_countable' (fun k => (type k, id k)) (fun p => {| type := p.1; id := p.2 |}) _.
Next Obligation. by intros [t i]. Qed.

(** Objects and factories by number; [node] is the identity of the map's node, which owns the
    construction mutex. Times are in seconds. *)
Record Slot := {
  obj : option nat;
  factory : option nat;
  lt : Lifetime;
  last_touch : Z;
  expired_flag : option bool;
  node : nat
}.

Abbreviation registry := (gmap Key Slot).

(** ** Registration *)

(** [map_[k]]: the existing slot, or a new one in a fresh node. *)
Definition slot_at (k : Key) (fresh : nat) (m : registry) : Slot :=
  default {| obj := None; factory := None; lt := Resettable; last_touch := 0; expired_flag := None; node := fresh |} (m !! k).

Definition register_factory (k : Key) (f : nat) (l : Lifetime) (fresh : nat) (m : registry) : registry :=
  let s := slot_at k fresh m in
  <[k := {| obj := None; factory := Some f; lt := l; last_touch := last_touch s; expired_flag := expired_flag s; node := node s |}]> m.

Definition register_object (k : Key) (o : nat) (l : Lifetime) (now : Z) (fresh : nat) (m : registry) : registry :=
  let s := slot_at k fresh m in
  <[k := {| obj := Some o; factory := None; lt := l; last_touch := now; expired_flag := expired_flag s; node := node s |}]> m.

(** ** Access *)
(** What [get] and [reset] throw: their own [std::runtime_error], or what the factory threw. *)
Inductive spider_error := RuntimeError (what : bytes) | FactoryThrew (e : exn).

Definition not_registered : spider_error := RuntimeError (B "Spider::spawn – not registered").
Definition removed_meanwhile : spider_error := RuntimeError (B "Spider::spawn – registration removed during construction").
Definition no_factory : spider_error := RuntimeError (B "Spider::spawn – no factory available").

(** [build_handle]: touches a timed slot and hands out its object. *)
Definition touch (now : Z) (s : Slot) : Slot :=
  if is_timed (lt s) then
    {| obj := obj s; factory := factory s; lt := lt s; last_touch := now; expired_flag := expired_flag s; node := node s |}
  else s.
Definition build_handle (now : Z) (k : Key) (s : Slot) (m : registry) : option nat * registry := (obj s, <[k := touch now s]> m).

Definition expired (s : Slot) : bool := is_timed (lt s) && bool_decide (expired_flag s = Some true).

(** The two looks at the slot: the handle when there is an object to hand out. *)
Definition look (now : Z) (k : Key) (s : Slot) (m : registry) : option (nat * registry) :=
  if expired s then None else match obj s with Some o => Some (o, <[k := touch now s]> m) | None => None end.

Definition fast_path (now : Z) (k : Key) (m : registry) : result spider_error (option (nat * registry)) :=
  match m !! k with None => Err not_registered | Some s => Ok (look now k s m) end.

Definition take_factory (k : Key) (m : registry) : result spider_error (nat * option nat) :=
  match m !! k with None => Err not_registered | Some s => Ok (node s, factory s) end.

Definition double_check (now : Z) (k : Key) (m : registry) : option (nat * registry) :=
  match m !! k with None => None | Some s => look now k s m end.

(** Storing what the factory made, which may be a null pointer. *)
Definition store_object (now : Z) (k : Key) (made : option nat) (m : registry) : result spider_error (option nat * registry) :=
  match m !! k with
  | None => Err removed_meanwhile
  | Some s =>
      let s' := {| obj := made; factory := factory s; lt := lt s; last_touch := now;
                   expired_flag := if is_timed (lt s) then Some false else expired_flag s; node := node s |} in
      Ok (build_handle now k s' m)
  end.

(** [get] when nothing else runs; [make] is what the factory returns when it is called. *)
Definition get (now : Z) (k : Key) (make : nat -> result exn (option nat)) (m : registry) : result spider_error (option nat * registry) :=
  match fast_path now k m with
  | Err e => Err e
  | Ok (Some (o, m)) => Ok (Some o, m)
  | Ok None =>
      match take_factory k m with
      | Err e => Err e
      | Ok (_, f) =>
          match double_check now k m with
          | Some (o, m) => Ok (Some o, m)
          | None =>
              match f with
              | None => Err no_factory
              | Some f => match make f with Err e => Err (FactoryThrew e) | Ok made => store_object now k made m end
              end
          end
      end
  end.

(** ** Management *)
Definition reset (k : Key) (m : registry) : result spider_error registry :=
  match m !! k with
  | None => Err (RuntimeError (B "Spider::reset – no such object"))
  | Some s => match lt s with
              | Resettable => Ok (delete k m)
              | _ => Err (RuntimeError (B "Spider::reset – only Resettable lifetime can be reset"))
              end
  end.

Definition has (k : Key) (m : registry) : bool := bool_decide (is_Some (m !! k)).
Definition size (m : registry) : nat := base.size m.
Definition clear (m : registry) : registry := ∅.

(** [sweep] on one slot; [uses] counts the handles outside the registry. *)
Definition sweep_slot (now : Z) (uses : nat -> nat) (s : Slot) : option Slot :=
  match lt s with
  | Scoped => match obj s with Some o => if (uses o =? 0)%nat then None else Some s | None => Some s end
  | Timed idle =>
      if idle <? now - last_touch s then
        Some {| obj := None; factory := factory s; lt := lt s; last_touch := last_touch s; expired_flag := expired_flag s; node := node s |}
      else Some s
  | _ => Some s
  end.

Definition sweep (now : Z) (uses : nat -> nat) (m : registry) : registry := omap (sweep_slot now uses) m.

(** ** Concurrent use *)
Inductive thread_pc :=
| TIdle
| TFast (k : Key)
| TSnap (k : Key)
| TLock (k : Key) (n : nat) (f : option nat)
| TCheck (k : Key) (n : nat) (f : option nat)
| TRun (k : Key) (n : nat) (f : option nat)
| TStore (k : Key) (n : nat) (made : option nat).

#[export] Instance Lifetime_eq_dec : EqDecision Lifetime.
Proof. solve_decision. Defined.
#[export] Instance Slot_eq_dec : EqDecision Slot.
Proof. solve_decision. Defined.

(** [mutexes] gives the thread that holds a node's construction mutex. The last three fields are
    history: the handles returned, the objects factories made, and the keys whose
    registration was replaced, removed or emptied. *)
Record state := {
  map_ : registry;
  threads : list thread_pc;
  mutexes : gmap nat nat;
  fresh : nat;
  returned : list (Key * nat);
  built : list (Key * nat);
  disturbed : gset Key
}.

Definition set_map (s : state) (m : registry) (d : gset Key) : state :=
  {| map_ := m; threads := threads s; mutexes := mutexes s; fresh := S (fresh s); returned := returned s; built := built s;
     disturbed := disturbed s ∪ d |}.

(** Thread [i] moves to [p]; [m] is the registry, [h] the handle it returns, if any. *)
Definition move (s : state) (i : nat) (p : thread_pc) (mx : gmap nat nat) (m : registry) (h b : list (Key * nat)) : state :=
  {| map_ := m; threads := <[i := p]> (threads s); mutexes := mx; fresh := fresh s; returned := returned s ++ h; built := built s ++ b;
     disturbed := disturbed s |}.

Definition key_if (b : bool) (k : Key) : gset Key := if b then {[ k ]} else ∅.

Definition changed_by_sweep (now : Z) (uses : nat -> nat) (m : registry) : gset Key :=
  dom (filter (fun ks => sweep_slot now uses ks.2 <> Some ks.2) m).

Definition handle_of (k : Key) (o : option nat) : list (Key * nat) := match o with Some o => [(k, o)] | None => [] end.

Inductive step : state -> state -> Prop :=
| RegisterFactory s k f l :
    step s (set_map s (register_factory k f l (fresh s) (map_ s)) (key_if (has k (map_ s)) k))
| RegisterObject s k o l now :
    step s (set_map s (register_object k o l now (fresh s) (map_ s)) (key_if (has k (map_ s)) k))
| Reset s k m :
    reset k (map_ s) = Ok m -> step s (set_map s m {[ k ]})
| Clear s : step s (set_map s (clear (map_ s)) (dom (map_ s)))
| Sweep s now uses : step s (set_map s (sweep now uses (map_ s)) (changed_by_sweep now uses (map_ s)))
| Call s i k : threads s !! i = Some TIdle -> step s (move s i (TFast k) (mutexes s) (map_ s) [] [])
| FastReturn s i k now o m :
    threads s !! i = Some (TFast k) -> fast_path now k (map_ s) = Ok (Some (o, m)) ->
    step s (move s i TIdle (mutexes s) m [(k, o)] [])
| FastThrow s i k now e :
    threads s !! i = Some (TFast k) -> fast_path now k (map_ s) = Err e -> step s (move s i TIdle (mutexes s) (map_ s) [] [])
| FastMiss s i k now :
    threads s !! i = Some (TFast k) -> fast_path now k (map_ s) = Ok None -> step s (move s i (TSnap k) (mutexes s) (map_ s) [] [])
| SnapThrow s i k e :
    threads s !! i = Some (TSnap k) -> take_factory k (map_ s) = Err e -> step s (move s i TIdle (mutexes s) (map_ s) [] [])
| Snap s i k n f :
    threads s !! i = Some (TSnap k) -> take_factory k (map_ s) = Ok (n, f) -> step s (move s i (TLock k n f) (mutexes s) (map_ s) [] [])
| Lock s i k n f :
    threads s !! i = Some (TLock k n f) -> mutexes s !! n = None ->
    step s (move s i (TCheck k n f) (<[n := i]> (mutexes s)) (map_ s) [] [])
| CheckReturn s i k n f now o m :
    threads s !! i = Some (TCheck k n f) -> double_check now k (map_ s) = Some (o, m) ->
    step s (move s i TIdle (delete n (mutexes s)) m [(k, o)] [])
| CheckMiss s i k n f now :
    threads s !! i = Some (TCheck k n f) -> double_check now k (map_ s) = None ->
    step s (move s i (TRun k n f) (mutexes s) (map_ s) [] [])
(** No factory, or the factory throws. *)
| RunThrow s i k n f :
    threads s !! i = Some (TRun k n f) -> step s (move s i TIdle (delete n (mutexes s)) (map_ s) [] [])
| Run s i k n f made :
    threads s !! i = Some (TRun k n (Some f)) ->
    step s (move s i (TStore k n made) (mutexes s) (map_ s) [] (handle_of k made))
| StoreThrow s i k n made now e :
    threads s !! i = Some (TStore k n made) -> store_object now k made (map_ s) = Err e ->
    step s (move s i TIdle (delete n (mutexes s)) (map_ s) [] [])
| Store s i k n made now h m :
    threads s !! i = Some (TStore k n made) -> store_object now k made (map_ s) = Ok (h, m) ->
    step s (move s i TIdle (delete n (mutexes s)) m (handle_of k h) []).

Definition start (n : nat) : state :=
  {| map_ := ∅; threads := replicate n TIdle; mutexes := ∅; fresh := 0; returned := []; built := []; disturbed := ∅ |}.

Definition reachable (n : nat) (s : state) : Prop := rtc step (start n) s.

(** The handles returned for a key, and the objects made for it. *)
Definition handles (k : Key) (s : state) : list nat := snd <$> filter (fun x => x.1 = k) (returned s).
Definition made_for (k : Key) (s : state) : list nat := snd <$> filter (fun x => x.1 = k) (built s).

(** ** Sequential behaviour *)
Lemma fast_path_registered now k m : fast_path now k m = Err not_registered <-> m !! k = None.
Proof. unfold fast_path. destruct (m !! k); split; congruence. Qed.

(** A factory is run on the first access only; the object it made is handed out from then on. *)
Lemma get_constructs_once now now' k f l make o n m :
  make f = Ok (Some o) ->
  exists m', get now k make (register_factory k f l n m) = Ok (Some o, m') /\
  forall make', exists m'', get now' k make' m' = Ok (Some o, m'').
Proof.
  intros Hf. unfold get, fast_path, take_factory, double_check, register_factory. rewrite !lookup_insert_eq. unfold look, expired. cbn [obj lt expired_flag factory].
  set (s := slot_at k n m).
  assert (E : (if is_timed l && bool_decide (expired_flag s = Some true) then None else (None : option (nat * registry))) = None) by (by destruct (is_timed l && _)).
  rewrite E, Hf. unfold store_object. rewrite lookup_insert_eq. cbn [factory lt]. unfold build_handle. cbn [obj]. eexists. split; [done|].
  intros make'. rewrite !lookup_insert_eq. unfold touch. cbn [lt obj]. destruct (is_timed l) eqn:El; cbn; rewrite ?El; cbn; eauto.
Qed.

(** Resetting removes the registration: the next access does not construct the service
    again, it throws. *)
Lemma reset_unregisters k m m' now make : reset k m = Ok m' -> has k m' = false /\ get now k make m' = Err not_registered.
Proof.
  unfold reset. destruct (m !! k) as [s|] eqn:E; [|done]. destruct (lt s); try done. intros [= <-].
  unfold has, get, fast_path. rewrite lookup_delete_eq. split; [|done]. by apply bool_decide_false.
Qed.

(** A timed object that was registered, not made, is gone for good once it was swept. *)
Lemma swept_object_lost k o idle now0 now n m uses make :
  idle < now - now0 -> get now k make (sweep now uses (register_object k o (Timed idle) now0 n m)) = Err no_factory.
Proof.
  intros Hi. unfold sweep, get, fast_path, take_factory, double_check, register_object. rewrite !lookup_omap, lookup_insert_eq. cbn [option_bind mbind].
  unfold sweep_slot. cbn [lt last_touch]. destruct (Z.ltb_spec idle (now - now0)); [|lia]. cbn. unfold look. by destruct (expired _).
Qed.

(** The janitor leaves immortal and resettable services and objects in use alone. *)
Lemma sweep_keeps now uses m k s :
  m !! k = Some s -> (lt s = Immortal \/ lt s = Resettable \/ (lt s = Scoped /\ forall o, obj s = Some o -> uses o <> 0%nat)) ->
  sweep now uses m !! k = Some s.
Proof.
  intros E H. unfold sweep. rewrite lookup_omap, E. cbn. unfold sweep_slot. destruct H as [-> |[-> |[-> H]]]; try done.
  destruct (obj s) as [o|]; [|done]. specialize (H o eq_refl). by destruct (Nat.eqb_spec (uses o) 0).
Qed.

(** ** The invariant of concurrent use *)
Definition node_at (k : Key) (p : thread_pc) : option nat :=
  match p with TLock k' n _ | TCheck k' n _ | TRun k' n _ | TStore k' n _ => if decide (k' = k) then Some n else None | _ => None end.
Definition running_at (k : Key) (p : thread_pc) : bool :=
  match p with TRun k' _ _ | TStore k' _ _ => bool_decide (k' = k) | _ => false end.
Definition made_at (k : Key) (p : thread_pc) : option nat :=
  match p with TStore k' _ (Some o) => if decide (k' = k) then Some o else None | _ => None end.
Definition held (p : thread_pc) : option nat :=
  match p with TCheck _ n _ | TRun _ n _ | TStore _ n _ => Some n | _ => None end.

Record locks_inv (s : state) : Prop := {
  l_flag k sl : map_ s !! k = Some sl -> expired_flag sl <> Some true;
  l_mutex i n : (exists p, threads s !! i = Some p /\ held p = Some n) <-> mutexes s !! n = Some i
}.

Definition key_inv (s : state) (k : Key) : Prop :=
  k ∉ disturbed s ->
  match map_ s !! k with
  | None => made_for k s = [] /\ handles k s = [] /\ forall i p, threads s !! i = Some p -> node_at k p = None
  | Some sl =>
      (forall i p n, threads s !! i = Some p -> node_at k p = Some n -> n = node sl) /\
      match obj sl with
      | Some o => Forall (fun o' => o' = o) (handles k s) /\ (made_for k s = [] \/ made_for k s = [o]) /\
                  forall i p, threads s !! i = Some p -> running_at k p = false
      | None => handles k s = [] /\
                (forall i p o, threads s !! i = Some p -> made_at k p = Some o -> made_for k s = [o]) /\
                (made_for k s = [] \/ exists i p o, threads s !! i = Some p /\ made_at k p = Some o)
      end
  end.

(** What a step that leaves a key's object alone may change. *)
Lemma key_inv_frame s s' k i p p' l :
  key_inv s k -> threads s !! i = Some p -> threads s' = <[i := p']> (threads s) -> disturbed s' = disturbed s ->
  handles k s' = handles k s ++ l -> (l = [] \/ exists sl o, map_ s !! k = Some sl /\ obj sl = Some o /\ l = [o]) ->
  made_for k s' = made_for k s ->
  option_map (fun sl => (obj sl, node sl)) (map_ s' !! k) = option_map (fun sl => (obj sl, node sl)) (map_ s !! k) ->
  (forall n, node_at k p' = Some n -> node_at k p = Some n \/ exists sl, map_ s !! k = Some sl /\ n = node sl) ->
  (running_at k p' = true -> running_at k p = true \/ (exists sl, map_ s !! k = Some sl /\ obj sl = None) \/ map_ s !! k = None) ->
  made_at k p' = made_at k p -> key_inv s' k.
Proof.
  intros HI Hi Ht Hd Hh Hl Hm Hs Hn Hr Hk Hk'. rewrite Hd in Hk'. specialize (HI Hk'). rewrite Hh, Hm, Ht.
  assert (HL : forall j q, <[i := p']> (threads s) !! j = Some q -> (j = i /\ q = p') \/ threads s !! j = Some q).
  { intros j q Hj. apply list_lookup_insert_Some in Hj as [(? & ? & _)|[_ Hj]]; [left; split; congruence|by right]. }
  destruct (map_ s !! k) as [sl|] eqn:E, (map_ s' !! k) as [sl'|] eqn:E'; cbn in Hs; try discriminate.
  - injection Hs as -> ->. destruct HI as [H1 H2]. split.
    + intros j q n [[-> ->]|Hj]%HL Hq; [|by eapply H1]. destruct (Hn n Hq) as [Hp|(sl0 & [= <-] & ->)]; [by eapply H1|done].
    + destruct (obj sl) as [o|] eqn:Eo.
      * destruct H2 as (H2 & H3 & H4). split_and!; [apply Forall_app; split; [done|]|done|].
        -- destruct Hl as [->|(sl0 & o0 & [= <-] & Eo' & ->)]; [constructor|]. constructor; [congruence|done].
        -- intros j q [[-> ->]|Hj]%HL; [|by eapply H4]. destruct (running_at k p') eqn:Er; [|done].
           destruct (Hr eq_refl) as [Hp|[(sl0 & [= <-] & ?)|?]]; [|congruence|done]. by rewrite (H4 _ _ Hi) in Hp.
      * destruct H2 as (H2 & H3 & H4). split_and!.
        -- rewrite H2. destruct Hl as [->|(sl0 & o0 & [= <-] & ? & _)]; [done|congruence].
        -- intros j q o [[-> ->]|Hj]%HL Hq; [|by eapply H3]. rewrite Hk in Hq. by eapply H3.
        -- destruct H4 as [H4|(j & q & o & Hj & Hq)]; [by left|]. right. destruct (decide (j = i)) as [->|Hne].
           ++ exists i, p', o. split; [apply list_lookup_insert_eq; by eapply lookup_lt_Some|]. rewrite Hk. congruence.
           ++ exists j, q, o. split; [by rewrite list_lookup_insert_ne|done].
  - destruct HI as (H1 & H2 & H3). split_and!; [done| |].
    + rewrite H2. destruct Hl as [->|(sl0 & o0 & ? & _)]; done.
    + intros j q [[-> ->]|Hj]%HL; [|by eapply H3]. destruct (node_at k p') as [n|] eqn:En; [|done].
      destruct (Hn n eq_refl) as [Hp|(sl0 & ? & _)]; [|done]. by rewrite (H3 _ _ Hi) in Hp.
Qed.

(** *** Locks and flags *)
Lemma touch_same now s : obj (touch now s) = obj s /\ node (touch now s) = node s /\ expired_flag (touch now s) = expired_flag s.
Proof. unfold touch. by destruct (is_timed (lt s)). Qed.

Lemma look_spec now k s m o m' : look now k s m = Some (o, m') -> obj s = Some o /\ m' = <[k := touch now s]> m.
Proof. unfold look. destruct (expired s); [done|]. destruct (obj s); [|done]. by intros [= -> <-]. Qed.

Lemma store_spec now k made m h m' :
  store_object now k made m = Ok (h, m') ->
  exists s s', m !! k = Some s /\ m' = <[k := s']> m /\ obj s' = made /\ node s' = node s /\ h = made /\
  (expired_flag s <> Some true -> expired_flag s' <> Some true).
Proof.
  unfold store_object. destruct (m !! k) as [s|]; [|done]. unfold build_handle. intros [= <- <-].
  match goal with |- context [touch now ?x] => set (y := x); destruct (touch_same now y) as (H1 & H2 & H3) end.
  exists s, (touch now y). rewrite H1, H2, H3. split_and!; try done. cbn. by destruct (is_timed (lt s)).
Qed.

Lemma slot_at_flag k n m : (forall k sl, m !! k = Some sl -> expired_flag sl <> Some true) -> expired_flag (slot_at k n m) <> Some true.
Proof. intros H. unfold slot_at. destruct (m !! k) as [s|] eqn:E; cbn; [by eapply H|done]. Qed.

Lemma locks_set_map s m d :
  locks_inv s -> (forall k sl, m !! k = Some sl -> expired_flag sl <> Some true) -> locks_inv (set_map s m d).
Proof. intros [_ H2] Hm. by split. Qed.

(** A thread that keeps the mutexes it holds. *)
Lemma locks_keep s i p p' m h b :
  locks_inv s -> threads s !! i = Some p -> held p' = held p ->
  (forall k sl, m !! k = Some sl -> expired_flag sl <> Some true) -> locks_inv (move s i p' (mutexes s) m h b).
Proof.
  intros [_ H2] Hi Hp Hm. split; [done|]. intros j n. cbn. rewrite <- H2. destruct (decide (j = i)) as [->|Hne].
  - rewrite list_lookup_insert_eq by (by eapply lookup_lt_Some). split; intros (q & Hq & Hn); [exists p|exists p']; split; congruence.
  - by rewrite list_lookup_insert_ne.
Qed.

Lemma locks_take s i p p' n h b :
  locks_inv s -> threads s !! i = Some p -> held p = None -> held p' = Some n -> mutexes s !! n = None ->
  locks_inv (move s i p' (<[n := i]> (mutexes s)) (map_ s) h b).
Proof.
  intros [H1 H2] Hi Hp Hp' Hn. split; [done|]. intros j n'. cbn. destruct (decide (j = i)) as [->|Hne].
  - rewrite list_lookup_insert_eq by (by eapply lookup_lt_Some). destruct (decide (n' = n)) as [->|Hne'].
    + rewrite lookup_insert_eq. split; [done|]. intros _. by exists p'.
    + rewrite lookup_insert_ne, <- H2 by done. split; intros (q & Hq & Hx); [exfalso; congruence|]. exfalso. congruence.
  - rewrite list_lookup_insert_ne by done. destruct (decide (n' = n)) as [->|Hne'].
    + rewrite lookup_insert_eq, H2, Hn. split; congruence.
    + rewrite lookup_insert_ne by done. apply H2.
Qed.

Lemma locks_release s i p n m h b :
  locks_inv s -> threads s !! i = Some p -> held p = Some n ->
  (forall k sl, m !! k = Some sl -> expired_flag sl <> Some true) -> locks_inv (move s i TIdle (delete n (mutexes s)) m h b).
Proof.
  intros [_ H2] Hi Hp Hm. split; [done|]. intros j n'. cbn. assert (Hmx : mutexes s !! n = Some i) by (apply H2; by exists p).
  destruct (decide (j = i)) as [->|Hne].
  - rewrite list_lookup_insert_eq by (by eapply lookup_lt_Some). split; [by intros (q & [= <-] & ?)|].
    intros [Hne Hx]%lookup_delete_Some. apply H2 in Hx as (q & Hq & Hx). congruence.
  - rewrite list_lookup_insert_ne, H2 by done. rewrite lookup_delete_Some. split; [|tauto]. intros Hx. split; [congruence|done].
Qed.

Lemma flags_insert (m : registry) k s' :
  (forall k sl, m !! k = Some sl -> expired_flag sl <> Some true) -> expired_flag s' <> Some true ->
  forall k' sl, <[k := s']> m !! k' = Some sl -> expired_flag sl <> Some true.
Proof. intros H Hs k' sl [[<- <-]|[_ Hk]]%lookup_insert_Some; [done|by eapply H]. Qed.

Lemma sweep_slot_same now uses sl s' : sweep_slot now uses sl = Some s' -> expired_flag s' = expired_flag sl /\ node s' = node sl.
Proof.
  unfold sweep_slot. destruct (lt sl); [by intros [= <-]| |destruct (_ <? _); by intros [= <-]|by intros [= <-]].
  destruct (obj sl); [|by intros [= <-]]. destruct (_ =? _)%nat; [done|by intros [= <-]].
Qed.

Lemma locks_step s s' : locks_inv s -> step s s' -> locks_inv s'.
Proof.
  intros HI Hs. pose proof (l_flag s HI) as Hf.
  destruct Hs; try (eapply locks_keep; [done|eassumption|done|done]); try (eapply locks_release; [done|eassumption|done|done]).
  - apply locks_set_map, flags_insert; [done|done|]. by apply slot_at_flag.
  - apply locks_set_map, flags_insert; [done|done|]. by apply slot_at_flag.
  - apply locks_set_map; [done|]. unfold reset in H. destruct (map_ s !! k) as [sl|]; [|done]. destruct (lt sl); try done. injection H as <-.
    intros k' sl' [_ Hk]%lookup_delete_Some. by eapply Hf.
  - apply locks_set_map; [done|]. intros k sl. unfold clear. by rewrite lookup_empty.
  - apply locks_set_map; [done|]. intros k sl. unfold sweep. rewrite lookup_omap_Some. intros (sl0 & Hs & Hk).
    destruct (sweep_slot_same _ _ _ _ Hs) as [-> _]. by eapply Hf.
  - unfold fast_path in H0. destruct (map_ s !! k) as [sl|] eqn:E; [|done]. injection H0 as H0. apply look_spec in H0 as [_ ->].
    eapply locks_keep; [done|eassumption|done|]. apply flags_insert; [done|]. destruct (touch_same now sl) as (_ & _ & ->). by eapply Hf.
  - by eapply locks_take.
  - unfold double_check in H0. destruct (map_ s !! k) as [sl|] eqn:E; [|done]. apply look_spec in H0 as [_ ->].
    eapply locks_release; [done|eassumption|done|]. apply flags_insert; [done|]. destruct (touch_same now sl) as (_ & _ & ->). by eapply Hf.
  - destruct (store_spec _ _ _ _ _ _ H0) as (sl & sl' & E & -> & _ & _ & _ & Hx).
    eapply locks_release; [done|eassumption|done|]. apply flags_insert; [done|]. by eapply Hx, Hf.
Qed.

(** *** One construction per key *)
Lemma handles_move k s i p mx m h b : handles k (move s i p mx m h b) = handles k s ++ (snd <$> filter (fun x => x.1 = k) h).
Proof. unfold handles. cbn. by rewrite filter_app, fmap_app. Qed.

Lemma made_for_move k s i p mx m h b : made_for k (move s i p mx m h b) = made_for k s ++ (snd <$> filter (fun x => x.1 = k) b).
Proof. unfold made_for. cbn. by rewrite filter_app, fmap_app. Qed.

Lemma filter_key k (k' : Key) (o : nat) : snd <$> filter (fun x => x.1 = k) [(k', o)] = if decide (k' = k) then [o] else [].
Proof. rewrite filter_cons. cbn. by case_decide. Qed.

Lemma node_of_running k p : running_at k p = true -> exists n, node_at k p = Some n /\ held p = Some n.
Proof. destruct p; cbn; try done; intros ->%bool_decide_eq_true_1; rewrite decide_True by done; eauto. Qed.

Lemma node_of_made k p o : made_at k p = Some o -> running_at k p = true.
Proof. destruct p as [| | | | | |k' n [o'|]]; cbn; try done. case_decide; [|done]. intros _. by apply bool_decide_true. Qed.

(** The registry changed, no thread moved. *)
Lemma key_inv_map s m d k :
  key_inv s k ->
  (k ∉ disturbed s -> k ∉ d -> option_map (fun sl => (obj sl, node sl)) (m !! k) = option_map (fun sl => (obj sl, node sl)) (map_ s !! k) \/
                                (map_ s !! k = None /\ is_Some (m !! k))) ->
  key_inv (set_map s m d) k.
Proof.
  intros HI Hm Hk. cbn in Hk. apply not_elem_of_union in Hk as [Hk Hd]. specialize (HI Hk). cbn [map_ set_map threads].
  change (handles k (set_map s m d)) with (handles k s). change (made_for k (set_map s m d)) with (made_for k s).
  destruct (Hm Hk Hd) as [E|[E [sl' E']]].
  - destruct (map_ s !! k) as [sl|], (m !! k) as [sl'|]; cbn in E; try discriminate; [|done]. injection E as -> ->. exact HI.
  - rewrite E in HI. rewrite E'. destruct HI as (H1 & H2 & H3). rewrite H1, H2.
    assert (Hn : forall i p, threads s !! i = Some p -> running_at k p = false).
    { intros i p Hi. destruct (running_at k p) eqn:Er; [|done]. destruct (node_of_running k p Er) as (n & Hn & _). by rewrite (H3 i p Hi) in Hn. }
    split; [intros i p n Hi Hn'; by rewrite (H3 i p Hi) in Hn'|]. destruct (obj sl') as [o|].
    + split_and!; [constructor|by left|done].
    + split_and!; [done| |by left]. intros i p o Hi Ho. apply node_of_made in Ho. by rewrite (Hn i p Hi) in Ho.
Qed.

(** At most one thread is past the second look for a key. *)
Lemma running_unique s k i j p q sl :
  locks_inv s -> key_inv s k -> k ∉ disturbed s -> map_ s !! k = Some sl ->
  threads s !! i = Some p -> threads s !! j = Some q -> running_at k p = true -> running_at k q = true -> i = j.
Proof.
  intros [_ HL] HI Hk E Hi Hj Hp Hq. specialize (HI Hk). rewrite E in HI. destruct HI as [HN _].
  destruct (node_of_running k p Hp) as (n & Hn & Hh), (node_of_running k q Hq) as (n' & Hn' & Hh').
  rewrite (HN _ _ _ Hi Hn) in *. rewrite (HN _ _ _ Hj Hn') in *.
  assert (mutexes s !! node sl = Some i) by (apply HL; eauto). assert (mutexes s !! node sl = Some j) by (apply HL; eauto). congruence.
Qed.

(** A running thread's key is registered and still empty. *)
Lemma running_empty s k i p :
  key_inv s k -> k ∉ disturbed s -> threads s !! i = Some p -> running_at k p = true ->
  exists sl, map_ s !! k = Some sl /\ obj sl = None.
Proof.
  intros HI Hk Hi Hp. specialize (HI Hk). destruct (map_ s !! k) as [sl|].
  - exists sl. split; [done|]. destruct (obj sl) as [o|]; [|done]. destruct HI as (_ & _ & _ & HR). by rewrite (HR _ _ Hi) in Hp.
  - destruct HI as (_ & _ & HR). destruct (node_of_running k p Hp) as (n & Hn & _). by rewrite (HR _ _ Hi) in Hn.
Qed.

Lemma run_inv s i k n f made k' :
  locks_inv s -> key_inv s k' -> threads s !! i = Some (TRun k n (Some f)) ->
  key_inv (move s i (TStore k n made) (mutexes s) (map_ s) [] (handle_of k made)) k'.
Proof.
  intros HL HI Hi. destruct made as [o|]; [destruct (decide (k = k')) as [<-|Hne]|].
  - intros Hk. cbn in Hk. assert (Hr : running_at k (TRun k n (Some f)) = true) by (cbn; by apply bool_decide_true).
    destruct (running_empty s k i _ HI Hk Hi Hr) as (sl & E & Eo). rewrite handles_move, made_for_move. cbn [map_ move threads handle_of].
    pose proof (HI Hk) as HK. rewrite E, Eo in *. destruct HK as (H1 & H2 & H3 & H4). rewrite filter_key, decide_True, H2 by done.
    assert (HM : made_for k s = []).
    { destruct H4 as [H4|(j & q & o' & Hj & Hq)]; [done|]. pose proof (running_unique s k i j _ q sl HL HI Hk E Hi Hj Hr (node_of_made _ _ _ Hq)) as ->.
      rewrite Hi in Hj. injection Hj as <-. done. }
    rewrite HM. cbn. split.
    + intros j q n' Hj Hq. apply list_lookup_insert_Some in Hj as [(-> & <- & _)|[_ Hj]]; [|by eapply H1]. cbn in Hq. eapply (H1 _ _ _ Hi). cbn. done.
    + split_and!; [done| |].
      * intros j q o' Hj Hq. apply list_lookup_insert_Some in Hj as [(-> & <- & _)|[Hne Hj]].
        -- cbn in Hq. rewrite decide_True in Hq by done. congruence.
        -- destruct Hne. exact (running_unique s k i j _ q sl HL HI Hk E Hi Hj Hr (node_of_made _ _ _ Hq)).
      * right. exists i, (TStore k n (Some o)), o. split; [apply list_lookup_insert_eq; by eapply lookup_lt_Some|]. cbn. by rewrite decide_True.
  - eapply (key_inv_frame s _ k' i (TRun k n (Some f)) (TStore k n (Some o)) []); try done.
    + by rewrite handles_move.
    + by left.
    + rewrite made_for_move. cbn [handle_of]. by rewrite filter_key, decide_False, app_nil_r.
    + intros n'. cbn. rewrite decide_False by done. done.
    + cbn. intros ?%bool_decide_eq_true_1. done.
    + cbn. by rewrite decide_False.
  - eapply (key_inv_frame s _ k' i (TRun k n (Some f)) (TStore k n None) []); try done.
    + by rewrite handles_move.
    + by left.
    + rewrite made_for_move. cbn. by rewrite app_nil_r.
    + intros n' ?. by left.
    + intros ?. by left.
Qed.

Lemma store_inv s i k n made now h m k' :
  locks_inv s -> key_inv s k' -> threads s !! i = Some (TStore k n made) -> store_object now k made (map_ s) = Ok (h, m) ->
  key_inv (move s i TIdle (delete n (mutexes s)) m (handle_of k h) []) k'.
Proof.
  intros HL HI Hi Hst. destruct (store_spec _ _ _ _ _ _ Hst) as (sl & sl' & E & -> & Eo & En & -> & _). destruct (decide (k = k')) as [<-|Hne].
  - intros Hk. cbn in Hk. assert (Hr : running_at k (TStore k n made) = true) by (cbn; by apply bool_decide_true).
    destruct (running_empty s k i _ HI Hk Hi Hr) as (sl0 & E0 & Eo0). assert (sl0 = sl) as -> by congruence.
    rewrite handles_move, made_for_move. cbn [map_ move threads]. rewrite lookup_insert_eq, Eo, En.
    pose proof (HI Hk) as HK. rewrite E, Eo0 in HK. destruct HK as (H1 & H2 & H3 & H4). rewrite H2. cbn [filter fmap list_fmap]. rewrite app_nil_r.
    assert (Hidle : forall j q, <[i := TIdle]> (threads s) !! j = Some q -> running_at k q = false).
    { intros j q Hj. apply list_lookup_insert_Some in Hj as [(-> & <- & _)|[Hne Hj]]; [done|]. destruct (running_at k q) eqn:Eq; [|done].
      destruct Hne. exact (running_unique s k i j _ q sl HL HI Hk E Hi Hj Hr Eq). }
    split.
    + intros j q n' Hj Hq. apply list_lookup_insert_Some in Hj as [(-> & <- & _)|[_ Hj]]; [done|by eapply H1].
    + destruct made as [o|]; cbn [handle_of].
      * rewrite filter_key, decide_True by done. split_and!; [by constructor| |done]. right. eapply (H3 i _ o Hi). cbn. by rewrite decide_True.
      * split_and!; [done| |].
        -- intros j q o Hj Hq. apply node_of_made in Hq. by rewrite (Hidle _ _ Hj) in Hq.
        -- destruct H4 as [H4|(j & q & o & Hj & Hq)]; [by left|]. exfalso.
           pose proof (running_unique s k i j _ q sl HL HI Hk E Hi Hj Hr (node_of_made _ _ _ Hq)) as ->. rewrite Hi in Hj. injection Hj as <-. done.
  - eapply (key_inv_frame s _ k' i (TStore k n made) TIdle []); try done.
    + rewrite handles_move. destruct made as [o|]; cbn [handle_of]; [by rewrite filter_key, decide_False|done].
    + by left.
    + rewrite made_for_move. by rewrite app_nil_r.
    + cbn. by rewrite lookup_insert_ne.
    + cbn. destruct made; [|done]. by rewrite decide_False.
Qed.

(** A look that finds an object. *)
Lemma look_inv s i k p mx now o m sl k' :
  key_inv s k' -> threads s !! i = Some p -> made_at k' p = None -> map_ s !! k = Some sl -> look now k sl (map_ s) = Some (o, m) ->
  key_inv (move s i TIdle mx m [(k, o)] []) k'.
Proof.
  intros HI Hi Hp E [Eo ->]%look_spec. destruct (touch_same now sl) as (T1 & T2 & _).
  eapply (key_inv_frame s _ k' i p TIdle (if decide (k = k') then [o] else [])); try done.
  - by rewrite handles_move, filter_key.
  - destruct (decide (k = k')) as [<-|]; [|by left]. right. by exists sl, o.
  - rewrite made_for_move. by rewrite app_nil_r.
  - cbn. destruct (decide (k = k')) as [<-|]; [|by rewrite lookup_insert_ne]. rewrite lookup_insert_eq, E. cbn. by rewrite T1, T2.
Qed.

(** A thread that moves without returning or making anything. *)
Lemma quiet_inv s i p p' mx k' :
  key_inv s k' -> threads s !! i = Some p ->
  (forall n, node_at k' p' = Some n -> node_at k' p = Some n \/ exists sl, map_ s !! k' = Some sl /\ n = node sl) ->
  (running_at k' p' = true -> running_at k' p = true \/ (exists sl, map_ s !! k' = Some sl /\ obj sl = None) \/ map_ s !! k' = None) ->
  made_at k' p' = made_at k' p -> key_inv (move s i p' mx (map_ s) [] []) k'.
Proof.
  intros HI Hi Hn Hr Hm. eapply (key_inv_frame s _ k' i p p' []); try done; [by rewrite handles_move|by left|]. by rewrite made_for_move, app_nil_r.
Qed.

Lemma key_step_threads s s' k' :
  locks_inv s -> key_inv s k' -> step s s' -> (forall m d, s' <> set_map s m d) -> key_inv s' k'.
Proof.
  intros HL HI Hs Hn. destruct Hs; try (exfalso; by eapply Hn); try (eapply quiet_inv; [done|eassumption|done|done|done]).
  - unfold fast_path in H0. destruct (map_ s !! k) as [sl|] eqn:E; [|done]. injection H0 as H0. by eapply look_inv.
  - unfold take_factory in H0. destruct (map_ s !! k) as [sl|] eqn:E; [|done]. injection H0 as <- <-.
    eapply quiet_inv; [done|eassumption| |done|done]. cbn. intros n'. case_decide; [|done]. intros [= <-]. right. subst. by exists sl.
  - eapply quiet_inv; [done|eassumption|by left|done|done].
  - unfold double_check in H0. destruct (map_ s !! k) as [sl|] eqn:E; [|done]. by eapply look_inv.
  - eapply quiet_inv; [done|eassumption|by left| |done]. cbn. intros <-%bool_decide_eq_true_1. right. unfold double_check in H0.
    destruct (map_ s !! k) as [sl|] eqn:E; [left|by right]. exists sl. split; [done|]. unfold look in H0.
    assert (expired sl = false) as Ex. { unfold expired. rewrite (bool_decide_false _ (l_flag s HL k sl E)). apply andb_false_r. }
    rewrite Ex in H0. by destruct (obj sl).
  - by apply run_inv with (f := f).
  - destruct (decide (k = k')) as [<-|Hne].
    + intros Hk. cbn in Hk. assert (Hr : running_at k (TStore k n made) = true) by (cbn; by apply bool_decide_true).
      destruct (running_empty s k i _ HI Hk H Hr) as (sl & E & _). unfold store_object in H0. by rewrite E in H0.
    + eapply quiet_inv; [done|eassumption|done|done|]. cbn. destruct made; [|done]. by rewrite decide_False.
  - by eapply store_inv.
Qed.

Lemma register_core k sl' (m : registry) k' :
  k' ∉ key_if (has k m) k ->
  option_map (fun sl => (obj sl, node sl)) (<[k := sl']> m !! k') = option_map (fun sl => (obj sl, node sl)) (m !! k') \/
  (m !! k' = None /\ is_Some (<[k := sl']> m !! k')).
Proof.
  intros Hk. destruct (decide (k = k')) as [<-|Hne]; [|left; by rewrite lookup_insert_ne]. right. rewrite lookup_insert_eq.
  unfold has in Hk. case_bool_decide as Hm; cbn in Hk; [set_solver|]. split; [|by eexists]. by apply eq_None_not_Some.
Qed.

Lemma sweep_core now uses (m : registry) k : k ∉ changed_by_sweep now uses m -> sweep now uses m !! k = m !! k.
Proof.
  intros Hk. unfold sweep. rewrite lookup_omap. destruct (m !! k) as [sl|] eqn:E; [|done]. cbn.
  destruct (decide (sweep_slot now uses sl = Some sl)) as [->|Hne]; [done|]. destruct Hk. unfold changed_by_sweep.
  apply elem_of_dom. exists sl. apply map_lookup_filter_Some. done.
Qed.

Lemma key_step s s' k' : locks_inv s -> key_inv s k' -> step s s' -> key_inv s' k'.
Proof.
  intros HL HI Hs. pose proof Hs as Hs'. destruct Hs; try (eapply key_step_threads; [done..|]; intros m0 d0 Heq; apply (f_equal fresh) in Heq; cbn in Heq; lia).
  - apply key_inv_map; [done|]. intros _. apply register_core.
  - apply key_inv_map; [done|]. intros _. apply register_core.
  - apply key_inv_map; [done|]. intros _ Hk. left. unfold reset in H. destruct (map_ s !! k) as [sl|]; [|done]. destruct (lt sl); try done.
    injection H as <-. rewrite lookup_delete_ne; [done|]. set_solver.
  - apply key_inv_map; [done|]. intros _ Hk. left. unfold clear. rewrite lookup_empty. by rewrite (not_elem_of_dom_1 _ _ Hk).
  - apply key_inv_map; [done|]. intros _ Hk. left. by rewrite sweep_core.
Qed.

Lemma reachable_spider n s : reachable n s -> locks_inv s /\ forall k, key_inv s k.
Proof.
  apply (rtc_preserves step (fun s => locks_inv s /\ forall k, key_inv s k)).
  - intros a b [HL HK] Hs. split; [by eapply locks_step|]. intros k. by eapply key_step.
  - split.
    + split; cbn; [intros k sl; by rewrite lookup_empty|]. intros i m. rewrite lookup_empty. split; [|done].
      intros (p & Hp & Hh). apply lookup_replicate in Hp as [-> _]. done.
    + intros k _. cbn. rewrite lookup_empty. split_and!; [done|done|]. intros i p Hp. by apply lookup_replicate in Hp as [-> _].
Qed.

(** C28. One instance per registration, however many threads ask. As long as a key's registration
    has not been replaced, removed or emptied by the janitor, at most one object was made
    for it and every handle ever returned is the same object, the one in the registry. *)
Theorem single_instance n s k :
  reachable n s -> k ∉ disturbed s ->
  (length (made_for k s) <= 1)%nat /\
  forall o o', o ∈ handles k s -> o' ∈ handles k s \/ o' ∈ made_for k s ->
  o = o' /\ exists sl, map_ s !! k = Some sl /\ obj sl = Some o.
Proof.
  intros [_ HK]%reachable_spider Hk. specialize (HK k Hk). destruct (map_ s !! k) as [sl|].
  - destruct HK as [_ HK]. destruct (obj sl) as [x|] eqn:Eo.
    + destruct HK as (H1 & H2 & _). split; [destruct H2 as [-> | ->]; cbn; lia|]. rewrite Forall_forall in H1.
      intros o o' Ho [Ho'|Ho']; pose proof (H1 o Ho) as ->; [pose proof (H1 o' Ho') as ->|assert (o' = x) as ->].
      * split; [done|]. by exists sl.
      * destruct H2 as [E|E]; rewrite E in Ho'; [by apply elem_of_nil in Ho'|by apply list_elem_of_singleton in Ho'].
      * split; [done|]. by exists sl.
    + destruct HK as (H1 & H2 & H3). rewrite H1. split; [|intros o o' Ho; by apply elem_of_nil in Ho].
      destruct H3 as [->|(i & p & o & Hi & Ho)]; [cbn; lia|]. rewrite (H2 i p o Hi Ho). cbn. lia.
  - destruct HK as (-> & -> & _). split; [cbn; lia|]. intros o o' Ho. by apply elem_of_nil in Ho.
Qed.

Definition db : Key := {| type := 1; id := 0 |}.

(** One step of a run, its side conditions evaluated. *)
Ltac normalise := match goal with |- rtc step ?s _ => let s' := eval vm_compute in s in change s with s' end.
Ltac advance c := eapply rtc_l; [eapply c; vm_compute; reflexivity|]; normalise.

Lemma demo_get : exists s, reachable 2 s /\ disturbed s = ∅ /\ handles db s = [7; 7]%nat /\ made_for db s = [7%nat].
Proof.
  eexists. split.
  - eapply rtc_l; [apply (RegisterFactory (start 2) db 3 Immortal)|]. normalise. advance (fun s => Call s 0 db). advance (fun s => FastMiss s 0 db 5).
    advance (fun s => Snap s 0 db). advance (fun s => Lock s 0 db). advance (fun s => Call s 1 db). advance (fun s => FastMiss s 1 db 5).
    advance (fun s n f => CheckMiss s 0 db n f 6). advance (fun s n f => Run s 0 db n f (Some 7%nat)). advance (fun s n => Store s 0 db n (Some 7%nat) 7).
    advance (fun s => Snap s 1 db). advance (fun s => Lock s 1 db). advance (fun s n f => CheckReturn s 1 db n f 8). apply rtc_refl.
  - by vm_compute.
Qed.

Lemma single_instance_witness : exists s, reachable 2 s /\ handles db s = [7; 7]%nat /\ (length (made_for db s) <= 1)%nat.
Proof.
  destruct demo_get as (s & HR & Hd & Hh & _). exists s. split; [exact HR|]. split; [exact Hh|].
  apply (single_instance 2 s db HR). rewrite Hd. set_solver.
Defined.

(** A registration replaced while its service is under construction is overwritten by what the old
    factory makes: the slot then holds that object although the newer registration has
    another one. *)
Example stale_construction_wins : exists s sl, reachable 1 s /\ map_ s !! db = Some sl /\ obj sl = Some 7%nat /\ factory sl = None /\ handles db s = [7%nat].
Proof.
  eexists _, _. split.
  - eapply rtc_l; [apply (RegisterFactory (start 1) db 3 Immortal)|]. normalise. advance (fun s => Call s 0 db). advance (fun s => FastMiss s 0 db 5).
    advance (fun s => Snap s 0 db). advance (fun s => Lock s 0 db). advance (fun s n f => CheckMiss s 0 db n f 6).
    eapply rtc_l; [apply (fun s => RegisterObject s db 9 Immortal 6)|]. normalise. advance (fun s n f => Run s 0 db n f (Some 7%nat)).
    advance (fun s n => Store s 0 db n (Some 7%nat) 7). apply rtc_refl.
  - by vm_compute.
Qed.

(** A registration removed before a thread takes its construction mutex: the thread goes on to
    lock a mutex that was destroyed with the node. *)
Example mutex_outlived : exists s, reachable 1 s /\ threads s = [TCheck db 0 (Some 3%nat)] /\ map_ s = ∅.
Proof.
  eexists. split.
  - eapply rtc_l; [apply (RegisterFactory (start 1) db 3 Resettable)|]. normalise. advance (fun s => Call s 0 db). advance (fun s => FastMiss s 0 db 5).
    advance (fun s => Snap s 0 db). eapply rtc_l; [apply (fun s => Reset s db); vm_compute; reflexivity|]. normalise. advance (fun s => Lock s 0 db). apply rtc_refl.
  - by vm_compute.
Qed.

(** An idle limit passes from the last access, not from the last use: a timed service whose
    handles are still held is emptied, and the next access makes a second one. *)
Example timed_in_use_replaced :
  let uses := fun _ : nat => 1%nat in
  let m := register_factory db 3 (Timed 60) 0 ∅ in
  match get 0 db (fun _ => Ok (Some 7%nat)) m with
  | Ok (_, m) => fst <$> match get 100 db (fun _ => Ok (Some 8%nat)) (sweep 100 uses m) with Ok x => Some x | Err _ => None end
  | Err _ => None
  end = Some (Some 8%nat).
Proof. vm_compute. reflexivity. Qed.
