(* ===== verification/Resource.v ===== *)
(** * concurrency-starling: resources behind a lock, and the io_context backends

    [SharedResource] and [SynchronizedResource]: a value reached only through proxies that hold
    its lock. Threads ask for a proxy, are granted it when the mutex allows, use the value
    through it in any number of accesses and drop it; the accesses of all threads interleave.
    [AsioBackend] and [ShardedAsioBackend]: which core a runner is pinned to and which context
    an index names. *)

From S2P Require Import Prelude.

(** ** Proxies

    [BasicProxy] is [Proxy] or, over a const resource, [ConstProxy]. *)
Inductive Proxy := ReadProxy | WriteProxy | BasicProxy (const : bool).
#[global] Instance Proxy_eq_dec : EqDecision Proxy.
Proof. solve_decision. Defined.

(** [std::unique_lock] against [std::shared_lock]. *)
Definition exclusive (p : Proxy) : bool := match p with ReadProxy => false | WriteProxy | BasicProxy _ => true end.
(** Whether [operator->] and [operator*] give a reference that is not const. *)
Definition mutable (p : Proxy) : bool := match p with ReadProxy => false | WriteProxy => true | BasicProxy const => negb const end.

Record handle := { h_id : nat; h_thread : nat; h_proxy : Proxy }.

#[local] Arguments filter : simpl never.

Section resource.
Context {T : Type}.

(** The resource, the live proxies and the threads that wait for one. *)
Record Resource := { resource : T; handles : list handle; waiting : list (nat * Proxy); fresh : nat }.

Definition make (r : T) : Resource := {| resource := r; handles := []; waiting := []; fresh := 0 |}.

(** What the mutex grants: exclusive ownership to one holder, shared to any number. *)
Definition grants (hs : list handle) (p : Proxy) : bool :=
  if exclusive p then bool_decide (hs = []) else forallb (fun h => negb (exclusive (h_proxy h))) hs.

Definition is_waiting (s : Resource) (t : nat) : bool := existsb (fun w => fst w =? t) (waiting s).
Definition find_handle (s : Resource) (i : nat) : option handle := List.find (fun h => h_id h =? i) (handles s).

(** The steps of a thread: a call that constructs a proxy, the grant that ends it, a use of
    the resource through a proxy (a const reference only reads), the proxy's destructor. *)
Inductive event :=
| Request (t : nat) (p : Proxy)
| Acquire (t : nat) (p : Proxy)
| Modify (i : nat) (f : T -> T)
| Observe (i : nat)
| Release (i : nat).

Definition set_resource (s : Resource) (r : T) : Resource :=
  {| resource := r; handles := handles s; waiting := waiting s; fresh := fresh s |}.

(** A thread that is blocked takes no step. *)
Definition usable (s : Resource) (i : nat) : option handle :=
  h ← find_handle s i; if is_waiting s (h_thread h) then None else Some h.

Definition exec (e : event) (s : Resource) : option Resource :=
  match e with
  | Request t p =>
      if is_waiting s t then None
      else Some {| resource := resource s; handles := handles s; waiting := (t, p) :: waiting s; fresh := fresh s |}
  | Acquire t p =>
      if bool_decide ((t, p) ∈ waiting s) && grants (handles s) p then
        Some {| resource := resource s; handles := {| h_id := fresh s; h_thread := t; h_proxy := p |} :: handles s;
                waiting := filter (fun w => fst w <> t) (waiting s); fresh := S (fresh s) |}
      else None
  | Modify i f => h ← usable s i; if mutable (h_proxy h) then Some (set_resource s (f (resource s))) else None
  | Observe i => _ ← usable s i; Some s
  | Release i =>
      _ ← usable s i;
      Some {| resource := resource s; handles := filter (fun h => h_id h <> i) (handles s); waiting := waiting s; fresh := fresh s |}
  end.

Fixpoint run (evs : list event) (s : Resource) : option Resource :=
  match evs with [] => Some s | e :: evs => s' ← exec e s; run evs s' end.

(** ** The members, when the lock is free

    The proxy's identity is returned with the state; [None]: the caller has to wait. *)
Definition construct (p : Proxy) (t : nat) (s : Resource) : option (Resource * nat) :=
  s' ← exec (Request t p) s; s'' ← exec (Acquire t p) s'; Some (s'', fresh s').

Definition write : nat -> Resource -> option (Resource * nat) := construct WriteProxy.
Definition read : nat -> Resource -> option (Resource * nat) := construct ReadProxy.
Definition lock : nat -> Resource -> option (Resource * nat) := construct (BasicProxy false).
Definition lock_const : nat -> Resource -> option (Resource * nat) := construct (BasicProxy true).
(** [operator->], on an object that is const or not. *)
Definition arrow : nat -> Resource -> option (Resource * nat) := construct WriteProxy.
Definition arrow_const : nat -> Resource -> option (Resource * nat) := construct ReadProxy.
Definition sync_arrow : nat -> Resource -> option (Resource * nat) := construct (BasicProxy false).
Definition sync_arrow_const : nat -> Resource -> option (Resource * nat) := construct (BasicProxy true).

(** The callable may change the resource and then return or throw; the lock is released either
    way, and what it changed stays. *)
Definition with_mutable {E A} (p : Proxy) (t : nat) (func : T -> T * result E A) (s : Resource) : option (Resource * result E A) :=
  '(s, i) ← construct p t s;
  let '(r, res) := func (resource s) in
  s ← exec (Modify i (fun _ => r)) s;
  s ← exec (Release i) s;
  Some (s, res).
Definition with_const {E A} (p : Proxy) (t : nat) (func : T -> result E A) (s : Resource) : option (Resource * result E A) :=
  '(s, i) ← construct p t s;
  s ← exec (Observe i) s;
  let res := func (resource s) in
  s ← exec (Release i) s;
  Some (s, res).

Definition with_write_lock {E A} := @with_mutable E A WriteProxy.
Definition with_read_lock {E A} := @with_const E A ReadProxy.
Definition in_lock {E A} := @with_mutable E A (BasicProxy false).
Definition in_lock_const {E A} := @with_const E A (BasicProxy true).

(** ** Invariant *)
Record ok (s : Resource) : Prop := {
  ok_ids : Forall (fun h => h_id h < fresh s) (handles s);
  ok_distinct : NoDup (h_id <$> handles s);
  ok_alone : forall h, h ∈ handles s -> exclusive (h_proxy h) = true -> handles s = [h] }.

Lemma make_ok r : ok (make r).
Proof. split; cbn; [constructor|constructor|]. intros h H. by apply not_elem_of_nil in H. Qed.

Lemma find_handle_Some s i h : find_handle s i = Some h -> h ∈ handles s /\ h_id h = i.
Proof. intros H. apply List.find_some in H as [H1 H2]. split; [by apply list_elem_of_In|by apply Nat.eqb_eq]. Qed.

Lemma usable_Some s i h : usable s i = Some h -> h ∈ handles s /\ h_id h = i /\ is_waiting s (h_thread h) = false.
Proof.
  unfold usable. destruct (find_handle s i) as [h'|] eqn:E; [|done]. cbn. destruct (is_waiting s (h_thread h')) eqn:EW; [done|].
  intros [= ->]. apply find_handle_Some in E as [??]. done.
Qed.

Lemma same_handle s h h' : ok s -> h ∈ handles s -> h' ∈ handles s -> h_id h = h_id h' -> h = h'.
Proof.
  intros [_ HN _] H1 H2 E. apply list_elem_of_lookup in H1 as [a Ha]. apply list_elem_of_lookup in H2 as [b Hb].
  assert (a = b) as ->; [|congruence].
  apply (NoDup_lookup (h_id <$> handles s) a b (h_id h)); [done|..]; rewrite list_lookup_fmap, ?Ha, ?Hb; cbn; congruence.
Qed.

Lemma grants_exclusive hs p : exclusive p = true -> grants hs p = true -> hs = [].
Proof. unfold grants. intros -> H. by apply bool_decide_eq_true in H. Qed.

Lemma grants_shared hs p h : grants hs p = true -> h ∈ hs -> exclusive p = false /\ exclusive (h_proxy h) = false.
Proof.
  unfold grants. destruct (exclusive p); intros H Hin.
  - apply bool_decide_eq_true in H as ->. by apply not_elem_of_nil in Hin.
  - split; [done|]. apply negb_true_iff. rewrite forallb_forall in H. apply H. by apply list_elem_of_In.
Qed.

Lemma acquire_ok t p s : ok s -> grants (handles s) p = true ->
  ok {| resource := resource s; handles := {| h_id := fresh s; h_thread := t; h_proxy := p |} :: handles s;
        waiting := filter (fun w => fst w <> t) (waiting s); fresh := S (fresh s) |}.
Proof.
  intros [HI HN HA] HG. split; cbn.
  - constructor; [cbn; lia|]. eapply Forall_impl; [exact HI|]. cbn. lia.
  - constructor; [|done]. rewrite list_elem_of_fmap. intros (h & E & Hh). rewrite Forall_forall in HI. specialize (HI h Hh). lia.
  - intros h [->|Hh]%elem_of_cons HE; cbn in HE.
    + by rewrite (grants_exclusive _ _ HE HG).
    + destruct (grants_shared _ _ _ HG Hh). congruence.
Qed.

Lemma release_ok i s : ok s ->
  ok {| resource := resource s; handles := filter (fun h => h_id h <> i) (handles s); waiting := waiting s; fresh := fresh s |}.
Proof.
  intros [HI HN HA]. split; cbn.
  - by apply Forall_filter.
  - eapply sublist_NoDup; [exact HN|]. apply fmap_sublist, sublist_filter.
  - intros h [Hi Hh]%list_elem_of_filter HE. rewrite (HA h Hh HE). rewrite filter_cons_True by done. done.
Qed.

(** Every step keeps the lock's discipline: an exclusive proxy is the only one. *)
Lemma exec_ok e s s' : ok s -> exec e s = Some s' -> ok s'.
Proof.
  intros H. pose proof H as [HI HN HA]. destruct e as [t p|t p|i f|i|i]; cbn.
  - destruct (is_waiting s t); [done|]. intros [= <-]. by split.
  - destruct (bool_decide _); [|done]. destruct (grants (handles s) p) eqn:HG; [|done]. intros [= <-]. by apply acquire_ok.
  - destruct (usable s i) as [h|]; [|done]. cbn. destruct (mutable _); [|done]. intros [= <-]. by split.
  - destruct (usable s i); [|done]. by intros [= <-].
  - destruct (usable s i); [|done]. intros [= <-]. by apply release_ok.
Qed.

Lemma run_ok evs s s' : ok s -> run evs s = Some s' -> ok s'.
Proof.
  revert s. induction evs as [|e evs IH]; intros s H; cbn; [by intros [= <-]|]. destruct (exec e s) as [s1|] eqn:E; [|done].
  apply IH. by eapply exec_ok.
Qed.

(** ** Isolation of a proxy's lifetime *)

(** The changes of a sequence of steps, in order. *)
Definition apply_event (r : T) (e : event) : T := match e with Modify _ f => f r | _ => r end.

(** What can happen while proxy [i], exclusive or not, is alive. *)
Definition allowed (excl : bool) (i : nat) (e : event) : Prop :=
  match e with
  | Request _ _ => True
  | Acquire _ q => excl = false /\ exclusive q = false
  | Modify j _ => excl = true /\ j = i
  | Observe j | Release j => excl = true -> j = i
  end.

Lemma mutable_exclusive p : mutable p = true -> exclusive p = true.
Proof. by destruct p. Qed.

Lemma usable_same s h j h' : ok s -> h ∈ handles s -> usable s j = Some h' ->
  (exclusive (h_proxy h) = true \/ exclusive (h_proxy h') = true) -> j = h_id h /\ h' = h.
Proof.
  intros HO Hh HU HE. apply usable_Some in HU as (Hh' & <- & _). destruct HE as [HE|HE].
  - rewrite (ok_alone _ HO h Hh HE) in Hh'. apply list_elem_of_singleton in Hh' as ->. done.
  - rewrite (ok_alone _ HO h' Hh' HE) in Hh. apply list_elem_of_singleton in Hh as ->. done.
Qed.

Lemma step_isolated e s s' h :
  ok s -> h ∈ handles s -> exec e s = Some s' -> e <> Release (h_id h) ->
  h ∈ handles s' /\ allowed (exclusive (h_proxy h)) (h_id h) e /\ resource s' = apply_event (resource s) e.
Proof.
  intros HO Hh. destruct e as [t p|t p|j f|j|j]; cbn.
  - destruct (is_waiting s t); [done|]. by intros [= <-].
  - destruct (bool_decide _); [|done]. destruct (grants (handles s) p) eqn:HG; [|done]. intros [= <-] _. cbn.
    destruct (grants_shared _ _ _ HG Hh). split_and!; [by right|done..].
  - destruct (usable s j) as [h'|] eqn:HU; [|done]. cbn. destruct (mutable (h_proxy h')) eqn:HM; [|done]. intros [= <-] _.
    apply mutable_exclusive in HM. destruct (usable_same s h j h' HO Hh HU ltac:(by right)) as [-> ->]. done.
  - destruct (usable s j) as [h'|] eqn:HU; [|done]. intros [= <-] _. split_and!; [done| |done]. intros HE.
    by destruct (usable_same s h j h' HO Hh HU ltac:(by left)).
  - destruct (usable s j) as [h'|] eqn:HU; [|done]. intros [= <-] HR. cbn. split_and!; [| |done].
    + apply list_elem_of_filter. split; [congruence|done].
    + intros HE. by destruct (usable_same s h j h' HO Hh HU ltac:(by left)).
Qed.

Lemma run_isolated evs s s' h :
  ok s -> h ∈ handles s -> run evs s = Some s' -> Release (h_id h) ∉ evs ->
  h ∈ handles s' /\ Forall (allowed (exclusive (h_proxy h)) (h_id h)) evs /\ resource s' = fold_left apply_event evs (resource s).
Proof.
  revert s. induction evs as [|e evs IH]; intros s HO Hh; cbn; [intros [= <-] _; by repeat constructor|].
  destruct (exec e s) as [s1|] eqn:E; [|done]. cbn. intros HR HN. apply not_elem_of_cons in HN as [Hne HN].
  destruct (step_isolated e s s1 h HO Hh E) as (Hh1 & HA & HV); [congruence|].
  destruct (IH s1 (exec_ok _ _ _ HO E) Hh1 HR HN) as (? & ? & ->). rewrite HV. split_and!; [done|by constructor|done].
Qed.

(** From its grant to its release a proxy is alone with the resource if it is exclusive: only
    its own accesses happen, and the resource is what they make of the value found. A shared
    proxy sees the value found at its grant throughout, and no exclusive proxy is granted. *)
Theorem section_isolated (s : Resource) t p s1 evs s2 :
  ok s -> exec (Acquire t p) s = Some s1 -> run evs s1 = Some s2 -> Release (fresh s) ∉ evs ->
  Forall (allowed (exclusive p) (fresh s)) evs /\
  resource s2 = (if exclusive p then fold_left apply_event evs (resource s) else resource s).
Proof.
  intros HO E HR HN. pose proof (exec_ok _ _ _ HO E) as HO1. revert E. cbn.
  destruct (bool_decide _); [|done]. destruct (grants (handles s) p) eqn:HG; [|done]. cbn. intros [= <-].
  destruct (run_isolated evs _ s2 {| h_id := fresh s; h_thread := t; h_proxy := p |} HO1 ltac:(cbn; by left) HR HN) as (_ & HF & ->).
  cbn in HF. split; [done|]. cbn [resource]. destruct (exclusive p); [done|].
  clear HN HR. induction HF as [|e evs HA HF IH]; [done|]. cbn. destruct e; cbn in *; try done. by destruct HA.
Qed.

(** ** The members that take a callable *)

Lemma not_waiting_filter s t : is_waiting s t = false -> filter (fun w => fst w <> t) (waiting s) = waiting s.
Proof.
  intros H. apply filter_all. apply Forall_forall. intros w Hw E. unfold is_waiting in H.
  apply not_true_iff_false in H. apply H, existsb_exists. exists w. split; [by apply list_elem_of_In|by apply Nat.eqb_eq].
Qed.

Lemma construct_free p t s : is_waiting s t = false -> grants (handles s) p = true ->
  construct p t s = Some ({| resource := resource s; handles := {| h_id := fresh s; h_thread := t; h_proxy := p |} :: handles s;
                             waiting := waiting s; fresh := S (fresh s) |}, fresh s).
Proof.
  intros HW HG. unfold construct. cbn. rewrite HW. cbn. rewrite bool_decide_eq_true_2 by (by left). rewrite HG. cbn.
  rewrite filter_cons_False by (cbn; congruence). rewrite not_waiting_filter by done. done.
Qed.

Lemma usable_head r t p hs ws n : existsb (fun w => fst w =? t) ws = false ->
  usable {| resource := r; handles := {| h_id := n; h_thread := t; h_proxy := p |} :: hs; waiting := ws; fresh := S n |} n =
  Some {| h_id := n; h_thread := t; h_proxy := p |}.
Proof. intros H. unfold usable, find_handle. cbn. rewrite Nat.eqb_refl. cbn. unfold is_waiting. cbn. by rewrite H. Qed.

Lemma release_head (hs : list handle) n t p : Forall (fun h => h_id h < n) hs ->
  filter (fun h => h_id h <> n) ({| h_id := n; h_thread := t; h_proxy := p |} :: hs) = hs.
Proof.
  intros H. rewrite filter_cons_False by (cbn; congruence). apply filter_all. eapply Forall_impl; [exact H|]. cbn. lia.
Qed.

(** With the lock free the callable runs on the resource and leaves its changes; whether it
    returns or throws, the lock is free again. *)
Theorem with_mutable_correct {E A} p t (func : T -> T * result E A) s :
  mutable p = true -> is_waiting s t = false -> handles s = [] ->
  with_mutable p t func s =
  Some ({| resource := fst (func (resource s)); handles := []; waiting := waiting s; fresh := S (fresh s) |}, snd (func (resource s))).
Proof.
  intros HM HW HH. unfold with_mutable. rewrite construct_free by (try done; unfold grants; rewrite HH, (mutable_exclusive _ HM); done).
  cbn [mbind option_bind resource]. rewrite HH. destruct (func (resource s)) as [r res] eqn:EF. cbn [exec].
  rewrite usable_head by done. cbn [mbind option_bind h_proxy]. rewrite HM. cbn [mbind option_bind exec].
  unfold set_resource. cbn [resource handles waiting fresh]. rewrite usable_head by done.
  cbn [mbind option_bind resource handles waiting fresh]. rewrite release_head by constructor. done.
Qed.

(** A const callable leaves the resource and the other readers as they were. *)
Theorem with_const_correct {E A} p t (func : T -> result E A) s :
  ok s -> grants (handles s) p = true -> is_waiting s t = false ->
  with_const p t func s =
  Some ({| resource := resource s; handles := handles s; waiting := waiting s; fresh := S (fresh s) |}, func (resource s)).
Proof.
  intros HO HG HW. unfold with_const. rewrite construct_free by done. cbn [mbind option_bind exec].
  rewrite usable_head by done. cbn [mbind option_bind resource handles waiting fresh]. rewrite usable_head by done.
  cbn [mbind option_bind resource handles waiting fresh]. rewrite release_head by apply HO. done.
Qed.

(** ** Waiting *)

(** The thread waits for a proxy while it keeps one that excludes it. *)
Definition self_blocked (s : Resource) (t : nat) : Prop :=
  is_waiting s t = true /\
  exists h, h ∈ handles s /\ h_thread h = t /\ forall q, (t, q) ∈ waiting s -> exclusive q || exclusive (h_proxy h) = true.

Lemma is_waiting_filter s t t' ws : waiting s = ws -> t <> t' ->
  existsb (fun w : nat * Proxy => fst w =? t) (filter (fun w => fst w <> t') ws) = is_waiting s t.
Proof.
  intros <- Hne. unfold is_waiting. induction (waiting s) as [|[u q] ws IH]; [done|].
  destruct (decide (u = t')) as [->|Hu].
  - rewrite filter_cons_False by (cbn; congruence). rewrite IH. cbn. by rewrite (proj2 (Nat.eqb_neq t' t)) by congruence.
  - rewrite filter_cons_True by done. cbn. by rewrite IH.
Qed.

(** Two live proxies in one thread: it waits for ever. *)
Theorem second_proxy_deadlocks evs s s' t : ok s -> self_blocked s t -> run evs s = Some s' -> self_blocked s' t.
Proof.
  revert s. induction evs as [|e evs IH]; intros s HO HB; cbn; [by intros [= <-]|]. destruct (exec e s) as [s1|] eqn:E; [|done].
  cbn. apply IH; [by eapply exec_ok|]. destruct HB as (HW & h & Hh & Ht & HQ).
  assert (e <> Release (h_id h)) as Hne.
  { intros ->. revert E. cbn. destruct (usable s (h_id h)) as [h'|] eqn:HU; [|done]. apply usable_Some in HU as (Hh' & Ei & HN).
    rewrite (same_handle s h' h HO Hh' Hh Ei) in HN. congruence. }
  destruct (step_isolated e s s1 h HO Hh E Hne) as (Hh1 & HA & _). revert E. destruct e as [u q|u q|j f|j|j]; cbn.
  - destruct (is_waiting s u) eqn:HU; [done|]. intros [= <-]. split; cbn.
    + unfold is_waiting in *. cbn. rewrite HW. apply orb_true_r.
    + exists h. split_and!; [done..|]. cbn. intros q' [[= <- <-]|Hq]%elem_of_cons; [congruence|by apply HQ].
  - destruct (bool_decide _) eqn:HM; [|done]. apply bool_decide_eq_true in HM. destruct (grants (handles s) q) eqn:HG; [|done]. intros [= <-].
    assert (u <> t). { intros ->. apply HQ in HM. destruct (grants_shared _ _ _ HG Hh) as [E1 E2]. by rewrite E1, E2 in HM. }
    split; [unfold is_waiting; cbn; by rewrite (is_waiting_filter s)|]. exists h. split_and!; [cbn; by right|done|]. cbn.
    intros q' [_ Hq]%list_elem_of_filter. by apply HQ.
  - destruct (usable s j) as [h'|]; [|done]. cbn. destruct (mutable _); [|done]. intros [= <-]. split; [done|]. by exists h.
  - destruct (usable s j); [|done]. intros [= <-]. split; [done|]. by exists h.
  - destruct (usable s j); [|done]. intros [= <-]. split; [done|]. by exists h.
Qed.

Lemma release_all s : ok s -> Forall (fun h => is_waiting s (h_thread h) = false) (handles s) ->
  run (Release <$> (h_id <$> handles s)) s =
  Some {| resource := resource s; handles := []; waiting := waiting s; fresh := fresh s |}.
Proof.
  destruct s as [r hs ws n]. cbn. induction hs as [|h hs IH]; intros HO HF; [done|]. apply Forall_cons in HF as [Hh HF]. cbn.
  unfold usable, find_handle. cbn. rewrite Nat.eqb_refl. cbn. rewrite Hh. cbn.
  assert (filter (fun h' => h_id h' <> h_id h) (h :: hs) = hs) as EF.
  { rewrite filter_cons_False by (cbn; congruence). apply filter_all, Forall_forall. intros h' Hh' E.
    apply ok_distinct in HO. cbn in HO. apply NoDup_cons in HO as [HN _]. apply HN. apply list_elem_of_fmap. eauto. }
  rewrite EF. apply IH; [|done]. rewrite <- EF. by apply (release_ok (h_id h) {| resource := r; handles := h :: hs; waiting := ws; fresh := n |}).
Qed.

(** If no thread waits while it keeps a proxy, whoever waits can be served: the live proxies
    can all be released, and the lock is then granted. *)
Theorem waiting_can_proceed s t p :
  ok s -> (t, p) ∈ waiting s -> Forall (fun h => is_waiting s (h_thread h) = false) (handles s) ->
  exists s', run ((Release <$> (h_id <$> handles s)) ++ [Acquire t p]) s = Some s' /\
    is_waiting s' t = false /\ handles s' = [{| h_id := fresh s; h_thread := t; h_proxy := p |}] /\ resource s' = resource s.
Proof.
  intros HO HW HF. pose proof (release_all s HO HF) as HR.
  assert (forall evs1 evs2 s0, run (evs1 ++ evs2) s0 = run evs1 s0 ≫= run evs2) as run_app.
  { intros evs1 evs2. induction evs1 as [|e evs1 IH]; intros s0; [done|]. cbn. destruct (exec e s0); [apply IH|done]. }
  rewrite run_app, HR. cbn. rewrite bool_decide_eq_true_2 by done.
  assert (grants [] p = true) as -> by (unfold grants; destruct (exclusive p); done). cbn. eexists. split; [done|]. cbn. split_and!; try done.
  unfold is_waiting. cbn. apply not_true_iff_false. rewrite existsb_exists. intros (w & Hw%list_elem_of_In & E).
  apply list_elem_of_filter in Hw as [Hne _]. by apply Nat.eqb_eq in E.
Qed.
End resource.
Arguments Resource : clear implicits.
Arguments event : clear implicits.

(** ** Examples *)

(** [res->a(); res->b()] inside one expression: the second proxy is asked for while the first is
    alive. *)
Example nested_lock :
  exists s i, lock 1 (make 0) = Some (s, i) /\ lock 1 s = None /\
    exists s', run [Request 1 (BasicProxy false)] s = Some s' /\ self_blocked s' 1.
Proof.
  eexists _, _. split; [vm_compute; reflexivity|]. split; [reflexivity|]. eexists. split; [vm_compute; reflexivity|].
  split; [reflexivity|]. eexists. split; [left|]. split; [reflexivity|]. intros q [[= ->]|[]%not_elem_of_nil]%elem_of_cons. reflexivity.
Qed.

(** Two readers and a writer: the readers share, the writer waits for both, a thrown exception
    keeps what was changed and frees the lock. *)
Example readers_and_writer :
  (exists s, run [Request 1 ReadProxy; Acquire 1 ReadProxy; Request 2 ReadProxy; Acquire 2 ReadProxy; Request 3 WriteProxy;
                  Observe 0; Release 0; Observe 1; Release 1; Acquire 3 WriteProxy; Modify 2 S; Modify 2 S; Release 2] (make 5) = Some s /\
             resource s = 7 /\ handles s = []) /\
  run [Request 1 ReadProxy; Acquire 1 ReadProxy; Request 3 WriteProxy; Acquire 3 WriteProxy] (make 5) = None /\
  (s ← with_write_lock 1 (fun r => (S r, @Err nat unit 9)) (make 5); with_read_lock 2 (fun r => @Ok nat nat r) (fst s)) =
    Some ({| resource := 6; handles := []; waiting := []; fresh := 2 |}, Ok 6).
Proof. split_and!; [eexists; split; [vm_compute; reflexivity|done]|reflexivity|reflexivity]. Qed.

Lemma section_isolated_witness :
  let s := {| resource := 5; handles := []; waiting := [(3, WriteProxy)]; fresh := 2 |} in
  exists s1 s2, exec (Acquire 3 WriteProxy) s = Some s1 /\ run [Modify 2 S; Request 4 ReadProxy; Modify 2 S] s1 = Some s2 /\
    Forall (allowed true 2) [Modify 2 S; Request 4 ReadProxy; Modify 2 S] /\ resource s2 = 7.
Proof.
  eexists _, _. split; [vm_compute; reflexivity|]. split; [vm_compute; reflexivity|].
  refine (section_isolated {| resource := 5; handles := []; waiting := [(3, WriteProxy)]; fresh := 2 |} 3 WriteProxy _
            [Modify 2 S; Request 4 ReadProxy; Modify 2 S] _ _ eq_refl eq_refl _).
  - split; cbn; [constructor|constructor|]. intros h H. by apply not_elem_of_nil in H.
  - rewrite !not_elem_of_cons. repeat split; try discriminate. apply not_elem_of_nil.
Defined.

(** ** The io_context backends *)

(** The core runner [i] pins itself to, if it does. *)
Definition runner_core (pin : bool) (pin_cores : nat) (base_core : Z) (i : nat) : option Z :=
  if pin && (0 <? pin_cores) then Some (Z.of_nat (i mod pin_cores) + base_core)%Z else None.

Definition runner_cores (n_threads : nat) (pin : bool) (pin_cores : nat) (base_core : Z) : list (option Z) :=
  runner_core pin pin_cores base_core <$> seq 0 n_threads.

(** [ShardedAsioBackend]: shard [i]'s context is number [i]. [None]: a remainder by zero. *)
Record ShardedAsioBackend := { n_ : nat; contexts_ : list nat }.
Definition sharded (n : nat) : ShardedAsioBackend := {| n_ := n; contexts_ := seq 0 n |}.
Definition executor (b : ShardedAsioBackend) (i : nat) : option nat := if n_ b =? 0 then None else contexts_ b !! (i mod n_ b).

(** Every runner is pinned inside the window, and each core of the window serves runners whose
    numbers differ by multiples of its size. *)
Theorem runner_cores_window pin_cores base_core i j :
  0 < pin_cores ->
  exists c, runner_core true pin_cores base_core i = Some c /\ (base_core <= c < base_core + Z.of_nat pin_cores)%Z /\
    (runner_core true pin_cores base_core j = Some c <-> i mod pin_cores = j mod pin_cores).
Proof.
  intros H. unfold runner_core. rewrite (proj2 (Nat.ltb_lt 0 pin_cores) H). cbn. eexists. split; [done|].
  pose proof (Nat.mod_upper_bound i pin_cores ltac:(lia)). split; [lia|]. split; [intros [= E]; lia|congruence].
Qed.

(** An index beyond the last shard wraps around; without shards there is none. *)
Theorem executor_wraps n i : executor (sharded n) i = (if n =? 0 then None else Some (i mod n)).
Proof.
  unfold executor, sharded. cbn. destruct (Nat.eqb_spec n 0); [done|]. apply lookup_seq_lt, Nat.mod_upper_bound. done.
Qed.
