(* ===== verification/Random.v ===== *)
(** * math-rabbit: random numbers, dates, subsets and UUIDs

    The generators of random/ over an engine and the standard distributions, which are a
    parameter: [Uniform] states what [std::uniform_int_distribution] promises. A draw from an
    empty range is undefined behaviour, and [None] here; so is a conversion of a [double] that
    does not fit the integer type. *)

From S2P Require Import Prelude Clock.

#[local] Open Scope Z_scope.

(** ** Engines and distributions

    [uniform lo hi] is [std::uniform_int_distribution(lo, hi)] applied to an engine; the
    distribution's precondition is [lo <= hi]. *)
Class Uniform (G : Type) := {
  uniform : Z -> Z -> G -> Z * G;
  uniform_bounds lo hi g : lo <= hi -> lo <= fst (uniform lo hi g) <= hi }.

(** A computation that advances the engine, or is undefined. *)
Definition drawing (G A : Type) : Type := G -> option (A * G).
#[global] Instance drawing_ret {G} : MRet (drawing G) := fun A a g => Some (a, g).
#[global] Instance drawing_bind {G} : MBind (drawing G) := fun A C f m g =>
  match m g with Some (a, g') => f a g' | None => None end.

Lemma drawing_bind_Some {G A C} (m : drawing G A) (f : A -> drawing G C) g c g'' :
  (m ≫= f) g = Some (c, g'') <-> exists a g', m g = Some (a, g') /\ f a g' = Some (c, g'').
Proof. unfold mbind, drawing_bind. destruct (m g) as [[a g']|]; naive_solver. Qed.

(** A [year_month_day]. *)
Definition date : Type := Z * Z * Z.
(** [sys_days{ymd}]; the day may exceed the month's. *)
Definition sys_days (x : date) : Z := let '(y, m, d) := x in days_of_date y m d.

(** The quotient by 100.0 of a product that is an integer: the nearest [double], ties to even,
    as its significand and the power of two it is divided by. *)
Definition round_half_even (n d : Z) : Z :=
  let q := n / d in
  match Z.compare (2 * (n mod d)) d with Lt => q | Gt => q + 1 | Eq => if Z.even q then q else q + 1 end.
Definition div_100_scale (n : Z) : Z := 52 - (Z.log2 (n * 1024 / 100) - 10).
Definition div_100 (n : Z) : Z * Z :=
  if n =? 0 then (0, 0) else let k := div_100_scale n in (round_half_even (n * 2 ^ k) 100, k).
(** [static_cast<uint32_t>] of it: truncated, undefined when out of range. *)
Definition to_uint32 (x : Z * Z) : option Z :=
  let z := fst x / 2 ^ snd x in if (0 <=? z) && (z <? 2 ^ 32) then Some z else None.

Section generators.
Context {G : Type} `{!Uniform G}.

Definition dist (lo hi : Z) : drawing G Z := fun g => if lo <=? hi then Some (uniform lo hi g) else None.

Definition deviation_error : bytes := B "Both target_ms and deviation must be non-negative, deviation <= 100".

(** [target_ms] is a [uint32_t], [deviation] an [int8_t]. *)
Definition generate_milliseconds (target_ms deviation : Z) : drawing G (result exn Z) := fun g =>
  if (deviation <? 0) || (100 <? deviation) then Some (Err (InvalidArgument deviation_error), g) else
  lower_bound ← to_uint32 (div_100 (target_ms * (100 - deviation)));
  upper_bound ← to_uint32 (div_100 (target_ms * (100 + deviation)));
  '(ms, g') ← dist lower_bound upper_bound g;
  Some (Ok ms, g').

Definition generate_date (from to : date) : drawing G date :=
  n ← dist 0 (sys_days to - sys_days from); mret (civil_of_days (sys_days from + n)).

Definition start_of_last_century : date := (1925, 7, 25).

(** [now] is a reading of the system clock, in nanoseconds. *)
Definition floor_days (now : Z) : Z := now / 86400000000000.
Definition generate_date_from_to_now (now : Z) (from : date) : drawing G date :=
  generate_date from (civil_of_days (floor_days now)).
Definition generate_date_to (to : date) : drawing G date := generate_date start_of_last_century to.
Definition generate_date_last_century (now : Z) : drawing G date := generate_date_from_to_now now start_of_last_century.

Definition generate_time_period_between (from to : date) : drawing G (date * date) :=
  start ← generate_date from to; end_ ← generate_date start to; mret (start, end_).
(** The clock is read once for each end. *)
Definition generate_time_period (now1 now2 : Z) : drawing G (date * date) :=
  start ← generate_date_last_century now1; end_ ← generate_date_from_to_now now2 start; mret (start, end_).
Definition generate_time_period_from (now1 now2 : Z) (from : date) : drawing G (date * date) :=
  start ← generate_date_from_to_now now1 from; end_ ← generate_date_from_to_now now2 start; mret (start, end_).
Definition generate_time_period_to (to : date) : drawing G (date * date) :=
  start ← generate_date_to to; end_ ← generate_date start to; mret (start, end_).

Definition generate_random_uint32 (min max : Z) : drawing G Z := dist min max.
(** [lo] and [hi] are the limits of the type. *)
Definition generate_random_t (lo hi : Z) : drawing G Z := dist lo hi.

(** ** Subsets and picks *)
Fixpoint generate_based_on_subset {A R} (arr : list A) (transformation : A -> R) : drawing G (list R) :=
  match arr with
  | [] => mret []
  | elem :: rest =>
      n ← dist 0 1;
      if n =? 0 then generate_based_on_subset rest transformation
      else subset ← generate_based_on_subset rest transformation; mret (transformation elem :: subset)
  end.
Fixpoint generate_subset {A} (arr : list A) : drawing G (list A) :=
  match arr with
  | [] => mret []
  | elem :: rest =>
      n ← dist 0 1;
      if n =? 0 then generate_subset rest else subset ← generate_subset rest; mret (elem :: subset)
  end.

(** [pick(std::array)], with the bound taken as a [uint32_t]; undefined on an empty array
    and on an index past the end. *)
Definition pick_array {A} (arr : list A) : drawing G A := fun g =>
  '(i, g') ← dist 0 ((Z.of_nat (length arr) - 1) mod 2 ^ 32) g;
  x ← arr !! Z.to_nat i; Some (x, g').
(** [pick(std::span)] *)
Definition pick_span {A} (arr : list A) : drawing G (option A) := fun g =>
  if bool_decide (arr = []) then Some (None, g) else
  '(i, g') ← dist 0 (Z.of_nat (length arr) - 1) g;
  x ← arr !! Z.to_nat i; Some (Some x, g').
(** [pick(begin, end)], the range being what the iterators span: [std::advance] moves [begin],
    which is then dereferenced. *)
Definition pick_range {A} (range : list A) : drawing G (option A) := fun g =>
  if (length range =? 0)%nat then Some (None, g) else
  '(i, g') ← dist 0 (Z.of_nat (length range) - 1) g;
  x ← head (drop (Z.to_nat i) range); Some (Some x, g').
End generators.

(** ** Hexadecimal output of streams *)
Definition hex_char (n : N) : ascii := ascii_of_N (if (n <? 10)%N then 48 + n else 87 + n)%N.
Fixpoint hex_digits (fuel : nat) (n : N) (acc : bytes) : bytes :=
  match fuel with
  | O => acc
  | S fuel => let acc := hex_char (n mod 16) :: acc in if (n / 16 =? 0)%N then acc else hex_digits fuel (n / 16) acc
  end.
(** [std::hex] on an unsigned value. *)
Definition to_hex (n : N) : bytes := hex_digits (S (N.size_nat n)) n [].
(** ... with [std::setw(w)] and [std::setfill('0')]. *)
Definition hex_padded (w : nat) (n : N) : bytes := replicate (w - length (to_hex n)) "0"%char ++ to_hex n.

(** ** UUIDs *)
Definition set_version (part1 : N) : N := N.lor (N.land part1 0xFFFFFFFFFFFF0FFF) 0x0000000000004000.
Definition set_variant (part2 : N) : N := N.lor (N.land part2 0x3FFFFFFFFFFFFFFF) 0x8000000000000000.

Definition uuid_text (part1 part2 : N) : bytes :=
  hex_padded 8 (N.land (N.shiftr part1 32) 0xFFFFFFFF) ++ B "-" ++
  hex_padded 4 (N.land (N.shiftr part1 16) 0xFFFF) ++ B "-" ++
  hex_padded 4 (N.land part1 0xFFFF) ++ B "-" ++
  hex_padded 4 (N.land (N.shiftr part2 48) 0xFFFF) ++ B "-" ++
  hex_padded 12 (N.land part2 0xFFFFFFFFFFFF).

Definition generate_random_uuid_v4 {G} `{!Uniform G} : drawing G bytes :=
  part1 ← dist 0 (2 ^ 64 - 1);
  part2 ← dist 0 (2 ^ 64 - 1);
  mret (uuid_text (set_version (Z.to_N part1)) (set_variant (Z.to_N part2))).

(** ** Reading hexadecimal *)
Definition hex_digit_value (c : ascii) : option N :=
  let n := N_of_ascii c in
  if (48 <=? n)%N && (n <=? 57)%N then Some (n - 48)%N else if (97 <=? n)%N && (n <=? 102)%N then Some (n - 87)%N else None.
Fixpoint hex_value_from (v : N) (s : bytes) : option N :=
  match s with
  | [] => Some v
  | c :: s => d ← hex_digit_value c; hex_value_from (16 * v + d)%N s
  end.
Definition hex_value (s : bytes) : option N := hex_value_from 0 s.

(** ** Theorems *)

Lemma round_half_even_bounds n d : 0 < d -> n / d <= round_half_even n d <= n / d + 1.
Proof. intros. unfold round_half_even. destruct (_ ?= _); [destruct (Z.even _)|..]; lia. Qed.

Lemma div_100_scale_large n : 0 < n < 2 ^ 40 -> 18 <= div_100_scale n.
Proof.
  intros H. unfold div_100_scale. pose proof (Z.log2_le_mono (n * 1024 / 100) (2 ^ 44) ltac:(Z.to_euclidean_division_equations; lia)) as HL.
  rewrite Z.log2_pow2 in HL by lia. lia.
Qed.

(** Rounding the quotient does not carry it to the next integer: the conversion gives the
    quotient of the integers. *)
Lemma div_100_floor n : 0 <= n < 2 ^ 40 -> fst (div_100 n) / 2 ^ snd (div_100 n) = n / 100.
Proof.
  intros H. unfold div_100. destruct (Z.eqb_spec n 0) as [->|Hn]; [done|]. cbn [fst snd].
  pose proof (div_100_scale_large n ltac:(lia)) as Hk. set (k := div_100_scale n) in *. clearbody k.
  pose proof (Z.pow_le_mono_r 2 18 k ltac:(lia) ltac:(lia)) as Hp. set (p := 2 ^ k) in *. clearbody p. change (2 ^ 18) with 262144 in Hp.
  pose proof (round_half_even_bounds (n * p) 100 ltac:(lia)) as Hr. set (r := round_half_even _ _) in *. clearbody r.
  assert (n / 100 * p <= n * p / 100) by (apply Z.div_le_lower_bound; [lia|]; Z.to_euclidean_division_equations; nia).
  assert (n * p / 100 + 1 < (n / 100 + 1) * p).
  { apply Z.lt_add_lt_sub_r, Z.div_lt_upper_bound; [lia|]. Z.to_euclidean_division_equations. nia. }
  symmetry. apply Z.div_unique with (r - n / 100 * p); nia.
Qed.

Lemma to_uint32_div_100 n :
  0 <= n < 2 ^ 40 -> to_uint32 (div_100 n) = if n / 100 <? 2 ^ 32 then Some (n / 100) else None.
Proof.
  intros H. unfold to_uint32. rewrite div_100_floor by done. pose proof (Z.div_pos n 100).
  rewrite (proj2 (Z.leb_le 0 _)) by lia. done.
Qed.

Section generators.
Context {G : Type} `{!Uniform G}.

Lemma dist_defined lo hi (g : G) : lo <= hi -> exists n g', dist lo hi g = Some (n, g') /\ lo <= n <= hi.
Proof.
  intros H. unfold dist. rewrite (proj2 (Z.leb_le lo hi)) by done. pose proof (uniform_bounds lo hi g H).
  destruct (uniform lo hi g) as [n g']. eauto.
Qed.

Lemma dist_bounds lo hi (g g' : G) n : dist lo hi g = Some (n, g') -> lo <= n <= hi.
Proof.
  unfold dist. destruct (Z.leb_spec lo hi) as [Hle|]; [|done]. intros [= E]. pose proof (uniform_bounds lo hi g Hle) as HB.
  rewrite E in HB. done.
Qed.

(** A duration is drawn around the target within the deviation, rounded down to whole
    milliseconds at both ends; a deviation outside 0..100 is the only error. When the upper
    end does not fit 32 bits the behaviour is undefined. *)
Theorem generate_milliseconds_correct target_ms deviation (g : G) :
  0 <= target_ms < 2 ^ 32 -> -128 <= deviation <= 127 ->
  match generate_milliseconds target_ms deviation g with
  | Some (Ok ms, _) => 0 <= deviation <= 100 /\ target_ms * (100 - deviation) / 100 <= ms <= target_ms * (100 + deviation) / 100
  | Some (Err e, g') => ~ (0 <= deviation <= 100) /\ e = InvalidArgument deviation_error /\ g' = g
  | None => 0 <= deviation <= 100 /\ 2 ^ 32 <= target_ms * (100 + deviation) / 100
  end.
Proof.
  intros Ht Hd. unfold generate_milliseconds. destruct (Z.ltb_spec deviation 0); cbn [orb]; [split_and!; [lia|done..]|].
  destruct (Z.ltb_spec 100 deviation); cbn [orb]; [split_and!; [lia|done..]|].
  rewrite !to_uint32_div_100 by nia.
  rewrite (proj2 (Z.ltb_lt (target_ms * (100 - deviation) / 100) (2 ^ 32))) by (apply Z.div_lt_upper_bound; nia).
  destruct (Z.ltb_spec (target_ms * (100 + deviation) / 100) (2 ^ 32)); cbn; [|lia].
  destruct (dist_defined (target_ms * (100 - deviation) / 100) (target_ms * (100 + deviation) / 100) g) as (n & g' & E & HB).
  { apply Z.div_le_mono; nia. }
  rewrite E. cbn. split; [lia|done].
Qed.

Lemma sys_days_civil z : sys_days (civil_of_days z) = z.
Proof. pose proof (civil_correct z) as H. unfold sys_days. destruct (civil_of_days z) as [[y m] d]. tauto. Qed.

Definition date_valid (x : date) : bool := let '(y, m, d) := x in date_ok y m d.
Lemma civil_valid z : date_valid (civil_of_days z) = true.
Proof. pose proof (civil_correct z) as H. unfold date_valid. destruct (civil_of_days z) as [[y m] d]. tauto. Qed.

(** A date is drawn exactly when the range is not empty; it is a date of the calendar
    between the two ends. *)
Lemma generate_date_defined from to (g : G) :
  sys_days from <= sys_days to ->
  exists x g', generate_date from to g = Some (x, g') /\ sys_days from <= sys_days x <= sys_days to /\ date_valid x = true.
Proof.
  intros H. unfold generate_date. destruct (dist_defined 0 (sys_days to - sys_days from) g) as (n & g' & E & HB); [lia|].
  unfold mbind, drawing_bind. rewrite E. cbn. do 2 eexists. split; [done|]. rewrite sys_days_civil, civil_valid. lia.
Qed.

Lemma generate_date_empty from to (g : G) : sys_days to < sys_days from -> generate_date from to g = None.
Proof. intros H. unfold generate_date, mbind, drawing_bind, dist. destruct (Z.leb_spec 0 (sys_days to - sys_days from)); [lia|done]. Qed.

(** A period starts and ends within its range, and does not end before it starts. The second
    draw is never from an empty range. *)
Theorem generate_time_period_ordered from to (g : G) :
  sys_days from <= sys_days to ->
  exists s e g', generate_time_period_between from to g = Some ((s, e), g') /\
    sys_days from <= sys_days s <= sys_days e /\ sys_days e <= sys_days to /\ date_valid s = true /\ date_valid e = true.
Proof.
  intros H. destruct (generate_date_defined from to g H) as (s & g1 & E1 & H1 & V1).
  destruct (generate_date_defined s to g1 ltac:(lia)) as (e & g2 & E2 & H2 & V2).
  exists s, e, g2. split; [|lia || (split_and!; auto; lia)]. unfold generate_time_period_between, mbind, drawing_bind. rewrite E1, E2. done.
Qed.

(** With two clock readings the period is defined when the start lies before today and the
    clock does not go back by a day between them. *)
Theorem generate_time_period_from_ordered now1 now2 from (g : G) :
  sys_days from <= floor_days now1 -> floor_days now1 <= floor_days now2 ->
  exists s e g', generate_time_period_from now1 now2 from g = Some ((s, e), g') /\
    sys_days from <= sys_days s <= sys_days e /\ sys_days e <= floor_days now2.
Proof.
  intros H Hn. unfold generate_time_period_from, generate_date_from_to_now.
  destruct (generate_date_defined from (civil_of_days (floor_days now1)) g) as (s & g1 & E1 & H1 & _); [by rewrite sys_days_civil|].
  rewrite sys_days_civil in H1.
  destruct (generate_date_defined s (civil_of_days (floor_days now2)) g1) as (e & g2 & E2 & H2 & _); [rewrite sys_days_civil; lia|].
  rewrite sys_days_civil in H2. exists s, e, g2. split; [|lia]. unfold mbind, drawing_bind. rewrite E1, E2. done.
Qed.

(** A subset is a sublist, and every draw is defined; mapping the kept elements is the same
    as keeping and then mapping. *)
Theorem generate_subset_sublist {A} (arr : list A) (g : G) :
  exists l g', generate_subset arr g = Some (l, g') /\ l `sublist_of` arr.
Proof.
  revert g. induction arr as [|x arr IH]; intros g; [do 2 eexists; split; [done|constructor]|].
  destruct (dist_defined 0 1 g ltac:(lia)) as (n & g1 & E & _). destruct (IH g1) as (l & g2 & E2 & HS).
  cbn. unfold mbind, drawing_bind. rewrite E. destruct (n =? 0).
  - exists l, g2. split; [done|by constructor].
  - unfold drawing_bind. rewrite E2. exists (x :: l), g2. split; [done|by constructor].
Qed.

Theorem generate_based_on_subset_map {A R} (arr : list A) (f : A -> R) (g : G) :
  generate_based_on_subset arr f g = (l ← generate_subset arr; mret (f <$> l)) g.
Proof.
  revert g. induction arr as [|x arr IH]; intros g; [done|]. cbn. unfold mbind, drawing_bind in *.
  destruct (dist 0 1 g) as [[n g1]|]; [|done]. specialize (IH g1). destruct (n =? 0); [by rewrite IH|].
  unfold drawing_bind. rewrite IH. destruct (generate_subset arr g1) as [[l g2]|]; done.
Qed.

(** Picking is defined on every span, gives an element of it, and nothing from an empty one. *)
Theorem pick_span_correct {A} (arr : list A) (g : G) :
  exists o g', pick_span arr g = Some (o, g') /\ match o with Some x => x ∈ arr | None => arr = [] end.
Proof.
  unfold pick_span. case_bool_decide as HE; [eauto|].
  assert (0 < Z.of_nat (length arr)) by (destruct arr; [done|simpl; lia]).
  destruct (dist_defined 0 (Z.of_nat (length arr) - 1) g ltac:(lia)) as (i & g' & E & HB).
  destruct (lookup_lt_is_Some_2 arr (Z.to_nat i)) as [x Hx]; [lia|]. exists (Some x), g'. split; [|by eapply list_elem_of_lookup_2].
  rewrite E. cbn. rewrite Hx. done.
Qed.

(** The overload on iterators picks what the one on spans picks. *)
Lemma pick_range_span {A} (arr : list A) (g : G) : pick_range arr g = pick_span arr g.
Proof.
  unfold pick_range, pick_span. destruct arr as [|x arr]; [done|]. rewrite bool_decide_eq_false_2 by done. cbn [length Nat.eqb].
  destruct (dist _ _ g) as [[i g']|]; [|done]. cbn. generalize (Z.to_nat i). intros k.
  rewrite head_lookup, lookup_drop, Nat.add_0_r. done.
Qed.
End generators.

(** *** Hexadecimal *)
Lemma below_16 (P : N -> Prop) : Forall P (N.of_nat <$> seq 0 16) -> forall d, (d < 16)%N -> P d.
Proof.
  intros HF d Hd. rewrite Forall_forall in HF. apply HF, list_elem_of_fmap. exists (N.to_nat d).
  rewrite N2Nat.id, elem_of_seq. split; [done|]. lia.
Qed.

Lemma hex_char_value d : (d < 16)%N -> hex_digit_value (hex_char d) = Some d.
Proof. revert d. apply below_16. repeat constructor. Qed.

Lemma hex_value_from_app v s t : hex_value_from v (s ++ t) = v' ← hex_value_from v s; hex_value_from v' t.
Proof. revert v. induction s as [|c s IH]; intros v; cbn; [done|]. destruct (hex_digit_value c); cbn; auto. Qed.

(** The [w] low digits. *)
Fixpoint hex_fixed (w : nat) (n : N) : bytes :=
  match w with O => [] | S w => hex_fixed w (n / 16) ++ [hex_char (n mod 16)] end.

Lemma hex_digits_S fuel n acc :
  hex_digits (S fuel) n acc =
  if (n / 16 =? 0)%N then hex_char (n mod 16) :: acc else hex_digits fuel (n / 16) (hex_char (n mod 16) :: acc).
Proof. done. Qed.

Lemma hex_digits_acc fuel n acc : hex_digits fuel n acc = hex_digits fuel n [] ++ acc.
Proof.
  revert n acc. induction fuel as [|fuel IH]; intros n acc; [done|]. cbn. destruct (_ =? _)%N; [done|].
  rewrite (IH _ (_ :: acc)), (IH _ [_]), <- app_assoc. done.
Qed.

Lemma pow16_succ k : (16 ^ N.of_nat (S k) = 16 * 16 ^ N.of_nat k)%N.
Proof. rewrite Nat2N.inj_succ, N.pow_succ_r'. done. Qed.

Lemma div_16_lt n k : (n < 16 ^ N.of_nat (S k) -> n / 16 < 16 ^ N.of_nat k)%N.
Proof. rewrite pow16_succ. intros. apply N.Div0.div_lt_upper_bound. done. Qed.

Lemma hex_digits_fuel f f' n :
  (n < 16 ^ N.of_nat (S f))%N -> (n < 16 ^ N.of_nat (S f'))%N -> hex_digits (S f) n [] = hex_digits (S f') n [].
Proof.
  revert f' n. induction f as [|f IH]; intros f' n H H'; rewrite hex_digits_S, (hex_digits_S f'); destruct (N.eqb_spec (n / 16) 0) as [|Hn]; try done.
  - apply div_16_lt in H. by apply N.lt_1_r in H.
  - rewrite hex_digits_acc, (hex_digits_acc f'). destruct f' as [|f'].
    + apply div_16_lt in H'. by apply N.lt_1_r in H'.
    + rewrite (IH f') by (by apply div_16_lt). done.
Qed.

Lemma size_fuel n : (n < 16 ^ N.of_nat (S (N.size_nat n)))%N.
Proof.
  eapply N.lt_le_trans; [apply N_lt_pow2_size|]. rewrite pow16_succ.
  pose proof (N.pow_le_mono_l 2 16 (N.of_nat (N.size_nat n)) ltac:(lia)). lia.
Qed.

Lemma to_hex_step n :
  to_hex n = if (n / 16 =? 0)%N then [hex_char (n mod 16)] else to_hex (n / 16) ++ [hex_char (n mod 16)].
Proof.
  unfold to_hex at 1. pose proof (size_fuel n) as Hf. destruct (N.size_nat n) as [|k]; rewrite hex_digits_S.
  - destruct (N.eqb_spec (n / 16) 0); [done|]. apply div_16_lt in Hf. by apply N.lt_1_r in Hf.
  - destruct (N.eqb_spec (n / 16) 0); [done|]. rewrite hex_digits_acc. f_equal. apply hex_digits_fuel; [by apply div_16_lt|apply size_fuel].
Qed.

Lemma hex_fixed_zero w : hex_fixed w 0 = replicate w "0"%char.
Proof. induction w as [|w IH]; [done|]. cbn [hex_fixed]. change (0 / 16)%N with 0%N. rewrite IH, replicate_S_end. done. Qed.

(** Padding a value that fits gives exactly its low digits. *)
Lemma hex_padded_fixed w n : w <> 0%nat -> (n < 16 ^ N.of_nat w)%N -> hex_padded w n = hex_fixed w n.
Proof.
  destruct w as [|w]; [done|]. intros _. revert n. induction w as [|w IH]; intros n H; unfold hex_padded; rewrite to_hex_step.
  - apply div_16_lt in H. apply N.lt_1_r in H. rewrite H. done.
  - destruct (N.eqb_spec (n / 16) 0) as [E|E].
    + cbn [length]. rewrite Nat.sub_succ, Nat.sub_0_r. cbn [hex_fixed]. rewrite E. change (hex_fixed w (0 / 16) ++ [hex_char (0 mod 16)]) with (hex_fixed (S w) 0).
      by rewrite hex_fixed_zero.
    + rewrite length_app. cbn [length]. replace (S (S w) - (length (to_hex (n / 16)) + 1))%nat with (S w - length (to_hex (n / 16)))%nat by lia.
      rewrite app_assoc. fold (hex_padded (S w) (n / 16)). rewrite IH by (by apply div_16_lt). done.
Qed.

Lemma length_hex_fixed w n : length (hex_fixed w n) = w.
Proof. revert n. induction w as [|w IH]; intros n; [done|]. cbn. rewrite length_app, IH. cbn. lia. Qed.

Lemma hex_fixed_app a b n : hex_fixed (a + b) n = hex_fixed a (n / 16 ^ N.of_nat b) ++ hex_fixed b n.
Proof.
  revert n. induction b as [|b IH]; intros n; [rewrite Nat.add_0_r, N.div_1_r, app_nil_r; done|].
  rewrite Nat.add_succ_r. cbn [hex_fixed]. rewrite IH, pow16_succ, N.Div0.div_div, <- app_assoc. done.
Qed.

Lemma hex_fixed_value w n : (n < 16 ^ N.of_nat w)%N -> hex_value (hex_fixed w n) = Some n.
Proof.
  unfold hex_value. revert n. induction w as [|w IH]; intros n H; cbn [hex_fixed].
  - apply N.lt_1_r in H. subst. done.
  - rewrite hex_value_from_app, IH by (by apply div_16_lt). cbn. rewrite hex_char_value by (apply N.mod_lt; lia). cbn.
    f_equal. rewrite (N.div_mod' n 16) at 3. lia.
Qed.

Lemma hex_fixed_mod w n k : (w <= k)%nat -> hex_fixed w (n mod 16 ^ N.of_nat k) = hex_fixed w n.
Proof.
  revert n k. induction w as [|w IH]; intros n k Hk; [done|]. destruct k as [|k]; [lia|]. cbn [hex_fixed].
  rewrite pow16_succ, N.Div0.mod_mul_r.
  assert (0 < 16 ^ N.of_nat k)%N by (apply N.neq_0_lt_0, N.pow_nonzero; done).
  f_equal.
  - rewrite N.mul_comm, N.div_add by done. rewrite N.div_small by (apply N.mod_lt; done). rewrite N.add_0_l. apply IH. lia.
  - rewrite N.mul_comm, N.Div0.mod_add, N.Div0.mod_mod. done.
Qed.

(** *** The text of a UUID *)
Lemma hex_group w n s : w <> 0%nat ->
  hex_padded w (N.land (N.shiftr n (4 * N.of_nat s)) (N.ones (4 * N.of_nat w))) = hex_fixed w (n / 16 ^ N.of_nat s).
Proof.
  intros Hw. rewrite N.land_ones, N.shiftr_div_pow2, !N.pow_mul_r. change (2 ^ 4)%N with 16%N.
  rewrite hex_padded_fixed by (try done; apply N.mod_lt, N.pow_nonzero; done). apply hex_fixed_mod. done.
Qed.

(** The layout: five groups of the 32 digits. *)
Lemma uuid_layout part1 part2 :
  uuid_text part1 part2 =
  hex_fixed 8 (part1 / 16 ^ 8) ++ B "-" ++ hex_fixed 4 (part1 / 16 ^ 4) ++ B "-" ++ hex_fixed 4 part1 ++ B "-" ++
  hex_fixed 4 (part2 / 16 ^ 12) ++ B "-" ++ hex_fixed 12 part2.
Proof.
  unfold uuid_text.
  pose proof (hex_group 8 part1 8 ltac:(done)) as H1. pose proof (hex_group 4 part1 4 ltac:(done)) as H2.
  pose proof (hex_group 4 part1 0 ltac:(done)) as H3. pose proof (hex_group 4 part2 12 ltac:(done)) as H4.
  pose proof (hex_group 12 part2 0 ltac:(done)) as H5. change (16 ^ N.of_nat 0)%N with 1%N in *. rewrite N.div_1_r in H3, H5.
  change (4 * N.of_nat 0)%N with 0%N in *. rewrite N.shiftr_0_r in H3, H5.
  repeat f_equal; [exact H1|exact H2|exact H3|exact H4|exact H5].
Qed.

Lemma hex_fixed_digits w n : Forall (fun c => c <> "-"%char) (hex_fixed w n).
Proof.
  revert n. induction w as [|w IH]; intros n; cbn; [constructor|]. apply Forall_app. split; [done|]. constructor; [|done].
  assert (Hm : (n mod 16 < 16)%N) by (apply N.mod_lt; done). revert Hm. generalize (n mod 16)%N. apply below_16. repeat constructor; done.
Qed.

Definition dashless (s : bytes) : bytes := filter (fun c => c <> "-"%char) s.

Lemma uuid_dashless part1 part2 : dashless (uuid_text part1 part2) = hex_fixed 16 part1 ++ hex_fixed 16 part2.
Proof.
  rewrite uuid_layout. unfold dashless. rewrite !filter_app, !(filter_all _ (hex_fixed _ _)) by apply hex_fixed_digits.
  change (filter _ (B "-")) with (@nil ascii). rewrite !app_nil_l.
  rewrite (hex_fixed_app 8 8 part1 : hex_fixed 16 part1 = _), (hex_fixed_app 4 4 part1 : hex_fixed 8 part1 = _),
    (hex_fixed_app 4 12 part2 : hex_fixed 16 part2 = _), <- !app_assoc. done.
Qed.

Lemma version_nibble n : (set_version n / 16 ^ 3 mod 16 = 4)%N.
Proof.
  change (16 ^ 3)%N with (2 ^ 12)%N. change 16%N with (2 ^ 4)%N at 1. rewrite <- N.shiftr_div_pow2, <- N.land_ones.
  apply N.bits_inj. intros i. unfold set_version. rewrite N.land_spec, N.shiftr_spec', N.lor_spec, N.land_spec.
  destruct (N.lt_ge_cases i 4) as [Hi|Hi].
  - assert (i = 0 \/ i = 1 \/ i = 2 \/ i = 3)%N as Hc by lia. destruct_or! Hc; subst i; cbn; rewrite ?andb_false_r; done.
  - rewrite N.ones_spec_high, andb_false_r by done. symmetry. apply N.bits_above_log2. cbn. lia.
Qed.

Lemma variant_nibble n : (set_variant n / 16 ^ 15 mod 16 = 8 + n / 2 ^ 60 mod 4)%N.
Proof.
  assert (set_variant n / 16 ^ 15 mod 16 = N.lor (n / 2 ^ 60 mod 4) 8)%N as ->.
  - change (16 ^ 15)%N with (2 ^ 60)%N. change 16%N with (2 ^ 4)%N at 1.
    rewrite <- !N.shiftr_div_pow2, (eq_refl : (_ mod 4 = _ mod 2 ^ 2)%N), <- !N.land_ones. apply N.bits_inj. intros i. unfold set_variant.
    rewrite N.lor_spec, !N.land_spec, !N.shiftr_spec', N.lor_spec, N.land_spec. destruct (N.lt_ge_cases i 4) as [Hi|Hi].
    + assert (i = 0 \/ i = 1 \/ i = 2 \/ i = 3)%N as Hc by lia. destruct_or! Hc; subst i; cbn; rewrite ?andb_false_r, ?andb_true_r, ?orb_false_r; done.
    + rewrite !N.ones_spec_high, !andb_false_r by lia. symmetry. apply N.bits_above_log2. cbn. lia.
  - assert (n / 2 ^ 60 mod 4 < 4)%N as Hd by (apply N.mod_lt; done). revert Hd. generalize (n / 2 ^ 60 mod 4)%N. intros d Hd.
    assert (d = 0 \/ d = 1 \/ d = 2 \/ d = 3)%N as Hc by lia. destruct_or! Hc; subst d; done.
Qed.

Lemma masked_bound n m c k : (0 < c)%N -> (N.log2 m < k)%N -> (N.log2 c < k)%N -> (N.lor (N.land n m) c < 2 ^ k)%N.
Proof.
  intros Hc Hm Hk. apply N.log2_lt_pow2.
  - apply N.neq_0_lt_0. intros E. apply N.lor_eq_0_iff in E. lia.
  - rewrite N.log2_lor. pose proof (N.log2_land n m). lia.
Qed.
Lemma set_version_bound n : (set_version n < 2 ^ 64)%N.
Proof. by apply masked_bound. Qed.
Lemma set_variant_bound n : (set_variant n < 2 ^ 64)%N.
Proof. by apply masked_bound. Qed.

Lemma masked_mask n m c : N.land c m = 0%N -> N.land (N.lor (N.land n m) c) m = N.land n m.
Proof. intros E. rewrite N.land_lor_distr_l, E, N.lor_0_r, <- N.land_assoc, N.land_diag. done. Qed.

Lemma hex_fixed_last w n : hex_fixed (S w) n !! w = Some (hex_char (n mod 16)).
Proof. cbn [hex_fixed]. rewrite lookup_app_r; rewrite length_hex_fixed; [|lia]. rewrite Nat.sub_diag. done. Qed.

Lemma hex_fixed_first w n : hex_fixed (S w) n !! 0%nat = Some (hex_char (n / 16 ^ N.of_nat w mod 16)).
Proof. rewrite (hex_fixed_app 1 w n : hex_fixed (S w) n = _). done. Qed.

(** Both words can be read back from the text. *)
Lemma uuid_value part1 part2 :
  (part1 < 2 ^ 64)%N -> (part2 < 2 ^ 64)%N -> hex_value (dashless (uuid_text part1 part2)) = Some (part1 * 2 ^ 64 + part2)%N.
Proof.
  intros H1 H2. rewrite uuid_dashless. set (n := (part1 * 2 ^ 64 + part2)%N).
  assert (En : (n / 16 ^ N.of_nat 16 = part1)%N).
  { subst n. change (16 ^ N.of_nat 16)%N with (2 ^ 64)%N. rewrite N.div_add_l, N.div_small by done. lia. }
  assert (Em : (n mod 16 ^ N.of_nat 16 = part2)%N).
  { subst n. change (16 ^ N.of_nat 16)%N with (2 ^ 64)%N. rewrite N.add_comm, N.Div0.mod_add. by apply N.mod_small. }
  replace (hex_fixed 16 part1 ++ hex_fixed 16 part2) with (hex_fixed (16 + 16) n).
  - apply hex_fixed_value. subst n. change (16 ^ N.of_nat (16 + 16))%N with (2 ^ 64 * 2 ^ 64)%N. nia.
  - rewrite hex_fixed_app, En, <- (hex_fixed_mod 16 n 16), Em by done. done.
Qed.

(** A generated UUID has 36 characters, version digit 4 and a variant digit of 8, 9, a or b;
    its digits are the two words drawn, with those bits set. *)
Theorem uuid_v4_correct part1 part2 :
  let s := uuid_text (set_version part1) (set_variant part2) in
  length s = 36%nat /\ s !! 14%nat = Some "4"%char /\ (exists c, s !! 19%nat = Some c /\ c ∈ B "89ab") /\
  hex_value (dashless s) = Some (set_version part1 * 2 ^ 64 + set_variant part2)%N.
Proof.
  cbn zeta. split_and!; [| | |by apply uuid_value; [apply set_version_bound|apply set_variant_bound]];
    rewrite uuid_layout.
  - rewrite !length_app, !length_hex_fixed. done.
  - do 4 (rewrite lookup_app_r; rewrite ?length_hex_fixed; [|by cbn; lia]). cbn [length B String.list_ascii_of_string Nat.sub].
    rewrite lookup_app_l by (rewrite length_hex_fixed; lia). change (hex_fixed 4 (set_version part1) !! 0%nat = Some "4"%char).
    rewrite hex_fixed_first. change (N.of_nat 3) with 3%N. rewrite version_nibble. done.
  - do 6 (rewrite lookup_app_r; rewrite ?length_hex_fixed; [|by cbn; lia]). cbn [length B String.list_ascii_of_string Nat.sub].
    rewrite lookup_app_l by (rewrite length_hex_fixed; lia). exists (hex_char (8 + part2 / 2 ^ 60 mod 4)). split.
    + change (hex_fixed 4 (set_variant part2 / 16 ^ 12) !! 0%nat = Some (hex_char (8 + part2 / 2 ^ 60 mod 4))).
      rewrite hex_fixed_first, N.Div0.div_div. change (16 ^ 12 * 16 ^ N.of_nat 3)%N with (16 ^ 15)%N. rewrite variant_nibble. done.
    + assert (part2 / 2 ^ 60 mod 4 < 4)%N as Hd by (apply N.mod_lt; done). revert Hd. generalize (part2 / 2 ^ 60 mod 4)%N. intros d Hd.
      assert (d = 0 \/ d = 1 \/ d = 2 \/ d = 3)%N as Hc by lia.
      destruct_or! Hc; subst d; apply (bool_decide_eq_true_1 _); vm_compute; done.
Qed.

(** No randomness is lost: two UUIDs are equal only when the words drawn agree outside the
    version and variant bits. *)
Theorem uuid_v4_injective p1 p2 q1 q2 :
  uuid_text (set_version p1) (set_variant p2) = uuid_text (set_version q1) (set_variant q2) ->
  N.land p1 0xFFFFFFFFFFFF0FFF = N.land q1 0xFFFFFFFFFFFF0FFF /\ N.land p2 0x3FFFFFFFFFFFFFFF = N.land q2 0x3FFFFFFFFFFFFFFF.
Proof.
  intros E. pose proof (uuid_value _ _ (set_version_bound p1) (set_variant_bound p2)) as HP.
  rewrite E, uuid_value in HP by (apply set_version_bound || apply set_variant_bound). injection HP as HP.
  pose proof (set_variant_bound p2). pose proof (set_variant_bound q2).
  assert (set_version p1 = set_version q1 /\ set_variant p2 = set_variant q2) as [E1 E2] by (split; nia).
  apply (f_equal (fun n => N.land n 0xFFFFFFFFFFFF0FFF)) in E1. apply (f_equal (fun n => N.land n 0x3FFFFFFFFFFFFFFF)) in E2.
  unfold set_version, set_variant in E1, E2. rewrite !masked_mask in E1, E2 by done. done.
Qed.

(** ** An engine *)

(** A linear congruential engine, with the range folded by a remainder. *)
Definition lcg (g : N) : N := ((6364136223846793005 * g + 1442695040888963407) mod 2 ^ 64)%N.
#[global] Program Instance lcg_uniform : Uniform N :=
  {| uniform lo hi g := (lo + Z.of_N (lcg g) mod (hi - lo + 1), lcg g) |}.
Next Obligation. intros lo hi g H. cbn. pose proof (Z.mod_pos_bound (Z.of_N (lcg g)) (hi - lo + 1)). lia. Qed.

Example milliseconds_drawn : exists g', generate_milliseconds 1000 15 7%N = Some (Ok 902, g').
Proof. eexists. vm_compute. reflexivity. Qed.

(** The documented range is not defined for targets above 2^32 / (1 + deviation). *)
Example milliseconds_undefined : generate_milliseconds (2 ^ 32 - 1) 15 7%N = None.
Proof. vm_compute. reflexivity. Qed.

(** Dates that follow today, or a range given backwards, are undefined too. *)
Example date_backwards : generate_date (2024, 3, 1) (2024, 2, 29) 7%N = None.
Proof. vm_compute. reflexivity. Qed.

(** Witness of the theorems on periods and durations, at the 29th of February and 1 s. *)
Lemma generators_witness :
  (exists s e g', generate_time_period_between (2024, 2, 29) (2024, 3, 1) 7%N = Some ((s, e), g') /\
     sys_days (2024, 2, 29) <= sys_days s <= sys_days e /\ sys_days e <= sys_days (2024, 3, 1) /\
     date_valid s = true /\ date_valid e = true) /\
  match generate_milliseconds 1000 15 7%N with
  | Some (Ok ms, _) => 0 <= 15 <= 100 /\ 1000 * (100 - 15) / 100 <= ms <= 1000 * (100 + 15) / 100
  | Some (Err e, g') => ~ (0 <= 15 <= 100) /\ e = InvalidArgument deviation_error /\ g' = 7%N
  | None => 0 <= 15 <= 100 /\ 2 ^ 32 <= 1000 * (100 + 15) / 100
  end.
Proof.
  split; [apply generate_time_period_ordered; vm_compute; discriminate|apply generate_milliseconds_correct; lia].
Defined.
