(* ===== verification/Crypto.v ===== *)
(** * crypto-pufferfish: salts, hashes and their comparison

    [SaltGenerator] (salt/), the hashers [SHA256Hash] and [PBKDF2Hash] (hashers/) and
    [constant_time_compare] (utilities/). OpenSSL is a parameter: [RAND_bytes], the BIO calls,
    [HMAC] and [PKCS5_PBKDF2_HMAC] are fields of [OpenSSL], whose laws are what its documentation
    says of them. *)

From S2P Require Import Prelude Random.

#[local] Open Scope Z_scope.

Definition nul : ascii := "000"%char.

(** ** Views

    A [std::string_view] points into memory that goes on after its end: [view_mem] is what can
    be read from [data()] on. [c_str] is how a function that takes a [const char*] reads it, up
    to the first zero byte; without one it reads past the memory, which is [None]. *)
Record view := { view_mem : bytes; view_len : nat }.
Definition view_text (v : view) : bytes := take (view_len v) (view_mem v).
Definition c_str (v : view) : option bytes :=
  n ← find_index nul (view_mem v); Some (take n (view_mem v)).
(** The view of a [std::string], whose characters are followed by a zero byte. *)
Definition of_string (s : bytes) : view := {| view_mem := s ++ [nul]; view_len := length s |}.

(** A static_cast to a 32-bit signed integer. *)
Definition to_int32 (n : Z) : Z := (n + 2 ^ 31) mod 2 ^ 32 - 2 ^ 31.

Inductive crypto_exn := RuntimeError (what : bytes).

(** ** OpenSSL

    The entropy source is a state [W], threaded through [RAND_bytes] and the BIO calls. *)
Inductive BIO := MemBio | Base64Bio.
#[global] Instance BIO_eq_dec : EqDecision BIO.
Proof. solve_decision. Defined.

Class OpenSSL (W : Type) := {
  (** [RAND_bytes(buf, num)]: the bytes on success *)
  RAND_bytes : Z -> W -> option bytes * W;
  (** [BIO_new]: whether it succeeds *)
  BIO_new : BIO -> W -> bool * W;
  (** [BIO_write] of the data through the filter, and its result *)
  BIO_write : bytes -> W -> Z * W;
  BIO_flush : W -> Z * W;
  (** [BIO_get_mem_ptr] after writing the data: the memory's contents, if there is any *)
  BIO_get_mem_ptr : bytes -> W -> option bytes * W;
  (** key, its length, data; [None] is the null pointer of an error *)
  HMAC_sha256 : bytes -> Z -> bytes -> option bytes;
  (** password and salt, each memory with a length; iterations; length of the derived key *)
  PKCS5_PBKDF2_HMAC : bytes -> Z -> bytes -> Z -> Z -> Z -> option bytes;
  RAND_bytes_length num w bs w' : RAND_bytes num w = (Some bs, w') -> 0 <= num /\ Z.of_nat (length bs) = num;
  HMAC_length k n d bs : HMAC_sha256 k n d = Some bs -> length bs = 32%nat;
  PBKDF2_length p pn s sn i n dk : PKCS5_PBKDF2_HMAC p pn s sn i n = Some dk -> Z.of_nat (length dk) = n;
  PBKDF2_reads p p' pn s s' sn i n :
    0 <= pn -> 0 <= sn -> take (Z.to_nat pn) p = take (Z.to_nat pn) p' -> take (Z.to_nat sn) s = take (Z.to_nat sn) s' ->
    PKCS5_PBKDF2_HMAC p pn s sn i n = PKCS5_PBKDF2_HMAC p' pn s' sn i n }.

(** Computations over the state and the BIOs that are allocated, with exceptions. *)
Record heap W := { world : W; live : list BIO }.
Arguments world {W}. Arguments live {W}. Arguments Build_heap {W}.
Definition crypto (W A : Type) : Type := heap W -> result crypto_exn A * heap W.
#[global] Instance crypto_ret {W} : MRet (crypto W) := fun A a h => (Ok a, h).
#[global] Instance crypto_bind {W} : MBind (crypto W) := fun A C f m h =>
  match m h with (Ok a, h') => f a h' | (Err e, h') => (Err e, h') end.
Definition throw {W A} (what : string) : crypto W A := fun h => (Err (RuntimeError (B what)), h).
Definition call {W A} (f : W -> A * W) : crypto W A := fun h =>
  let '(a, w) := f (world h) in (Ok a, Build_heap w (live h)).

Section salt.
Context {W : Type} `{!OpenSSL W}.

(** The vector is zeroed, then its first [static_cast<int32_t>(size)] bytes are filled. *)
Definition generate_bytes (size : nat) : crypto W bytes :=
  if bool_decide (size = 0%nat) then throw "SaltGenerator::generateBytes: size must be greater than 0" else
  filled ← call (RAND_bytes (to_int32 (Z.of_nat size)));
  match filled with
  | None => throw "SaltGenerator::generateBytes: RAND_bytes failed"
  | Some bs => mret (bs ++ replicate (size - length bs) nul)
  end.

Definition hex_map : bytes := B "0123456789abcdef".
Definition hex_pair (byte : ascii) : bytes :=
  [nth (N.to_nat (N.shiftr (N.land (N_of_ascii byte) 0xF0) 4)) hex_map nul;
   nth (N.to_nat (N.land (N_of_ascii byte) 0x0F)) hex_map nul].
Definition generate_hex (size : nat) : crypto W bytes :=
  salt_bytes ← generate_bytes size; mret (salt_bytes ≫= hex_pair).

Definition bio_new (b : BIO) : crypto W bool := fun h =>
  let '(ok, w) := BIO_new b (world h) in (Ok ok, Build_heap w (if ok then b :: live h else live h)).
Fixpoint remove_bio (b : BIO) (l : list BIO) : list BIO :=
  match l with [] => [] | x :: l => if bool_decide (x = b) then l else x :: remove_bio b l end.
(** [BIO_free] of the memory BIO; [BIO_free_all] of the chain. *)
Definition bio_free (bs : list BIO) : crypto W unit := fun h => (Ok tt, Build_heap (world h) (foldr remove_bio (live h) bs)).
Definition chain : list BIO := [Base64Bio; MemBio].

Definition encode_base64 (data : bytes) : crypto W bytes :=
  if bool_decide (data = []) then mret [] else
  bio ← bio_new MemBio;
  if negb bio then throw "SaltGenerator::encodeBase64: Failed to create BIO" else
  b64 ← bio_new Base64Bio;
  if negb b64 then _ ← bio_free [MemBio]; throw "SaltGenerator::encodeBase64: Failed to create Base64 BIO" else
  written ← call (BIO_write data);
  if written <=? 0 then _ ← bio_free chain; throw "SaltGenerator::encodeBase64: BIO_write failed" else
  flushed ← call BIO_flush;
  if flushed <? 1 then _ ← bio_free chain; throw "SaltGenerator::encodeBase64: BIO_flush failed" else
  buffer_ptr ← call (BIO_get_mem_ptr data);
  match buffer_ptr with
  | None | Some [] => _ ← bio_free chain; throw "SaltGenerator::encodeBase64: Failed to retrieve encoded data"
  | Some encoded => _ ← bio_free chain; mret encoded
  end.

Definition generate_base64 (size : nat) : crypto W bytes := salt_bytes ← generate_bytes size; encode_base64 salt_bytes.

(** ** Hashers *)

(** [key_ + salt.data()]: the salt is read as a C string. [None]: no zero byte after it. *)
Definition hmac_key (key : bytes) (salt : view) : option bytes := c ← c_str salt; Some (key ++ c).
Definition digest_text (digest : bytes) : bytes := digest ≫= (fun c => hex_padded 2 (N_of_ascii c)).

(** The returned pointer is not tested: a null pointer is read, which is [None] too. *)
Definition sha256_hash (key : bytes) (data salt : view) : option (crypto W bytes) :=
  hmacKey ← hmac_key key salt;
  digest ← HMAC_sha256 hmacKey (to_int32 (Z.of_nat (length hmacKey))) (view_text data);
  Some (mret (digest_text digest)).

Definition iterations : Z := 100000.
Definition key_length : Z := 32.
Definition pbkdf2_hash (password salt : view) : option (crypto W bytes) :=
  Some (match PKCS5_PBKDF2_HMAC (view_mem password) (to_int32 (Z.of_nat (view_len password)))
                                (view_mem salt) (to_int32 (Z.of_nat (view_len salt))) iterations key_length with
        | None => throw "Failed to generate PBKDF2 hash"
        | Some derived_key => mret (digest_text derived_key)
        end).

Record HashWithSalt := { hash : bytes; salt : bytes }.

(** [hash_function] is the virtual function of the hasher; [None]: undefined. *)
Definition hash_with_generated_salt (hash_function : view -> view -> option (crypto W bytes)) (password : view)
  : crypto W (option HashWithSalt) :=
  salt ← generate_base64 16;
  match hash_function password (of_string salt) with
  | None => mret None
  | Some run => hash ← run; mret (Some {| hash := hash; salt := salt |})
  end.
End salt.

(** ** [constant_time_compare] *)
Fixpoint compare_loop (result : bool) (a b : bytes) : bool :=
  match a, b with
  | x :: a, y :: b => compare_loop (result && bool_decide (x = y)) a b
  | _, _ => result
  end.
Definition constant_time_compare (a b : bytes) : bool :=
  if negb (length a =? length b)%nat then false else compare_loop true a b.

(** ** Theorems *)

Lemma to_int32_small n : - 2 ^ 31 <= n < 2 ^ 31 -> to_int32 n = n.
Proof. intros H. unfold to_int32. rewrite Z.mod_small; lia. Qed.

Lemma to_int32_wraps n : 0 <= n < 2 ^ 31 -> to_int32 (2 ^ 32 + n) = n.
Proof. intros H. unfold to_int32. replace (2 ^ 32 + n + 2 ^ 31) with (n + 2 ^ 31 + 1 * 2 ^ 32) by lia. rewrite Z_mod_plus_full, Z.mod_small; lia. Qed.

Lemma compare_loop_spec r a b : length a = length b -> compare_loop r a b = r && bool_decide (a = b).
Proof.
  revert r b. induction a as [|x a IH]; intros r [|y b]; try done; cbn.
  - by rewrite andb_true_r.
  - intros [= H]. rewrite IH, <- andb_assoc by done. f_equal.
    apply eq_true_iff_eq. rewrite andb_true_iff, !bool_decide_eq_true. naive_solver.
Qed.

(** The comparison without early exit decides equality. *)
Theorem constant_time_compare_spec a b : constant_time_compare a b = bool_decide (a = b).
Proof.
  unfold constant_time_compare. destruct (Nat.eqb_spec (length a) (length b)) as [E|E]; cbn.
  - by rewrite compare_loop_spec.
  - symmetry. apply bool_decide_eq_false. intros ->. done.
Qed.

(** Reading pairs of hexadecimal digits back. *)
Fixpoint read_hex (s : bytes) : option bytes :=
  match s with
  | [] => Some []
  | a :: b :: s => n ← hex_value [a; b]; rest ← read_hex s; Some (ascii_of_N n :: rest)
  | _ => None
  end.

Lemma byte_bound c : (N_of_ascii c < 256)%N.
Proof. apply N_ascii_bounded. Qed.

(** The lookup in [hex_map] and the padded stream output write the same two digits. *)
Lemma hex_pair_stream c : hex_pair c = hex_padded 2 (N_of_ascii c).
Proof.
  destruct c as [[] [] [] [] [] [] [] []]; vm_compute; reflexivity.
Qed.

Lemma read_hex_pair c s : read_hex (hex_pair c ++ s) = rest ← read_hex s; Some (c :: rest).
Proof.
  change (hex_pair c ++ s) with (nth 0 (hex_pair c) nul :: nth 1 (hex_pair c) nul :: s). cbn [read_hex].
  change [nth 0 (hex_pair c) nul; nth 1 (hex_pair c) nul] with (hex_pair c).
  rewrite hex_pair_stream, hex_padded_fixed, hex_fixed_value by (done || apply byte_bound). cbn. by rewrite ascii_N_embedding.
Qed.

Lemma read_hex_bytes bs : read_hex (bs ≫= hex_pair) = Some bs.
Proof. induction bs as [|c bs IH]; [done|]. cbn [mbind list_bind]. rewrite read_hex_pair, IH. done. Qed.

Lemma hex_pairs_length bs : length (bs ≫= hex_pair) = (2 * length bs)%nat.
Proof. induction bs as [|c bs IH]; [done|]. cbn [mbind list_bind]. rewrite length_app, IH. cbn. lia. Qed.

Lemma digest_text_pairs d : digest_text d = d ≫= hex_pair.
Proof. unfold digest_text. apply list_bind_ext; [|done]. intros c. by rewrite hex_pair_stream. Qed.

Section salt_theorems.
Context {W : Type} `{!OpenSSL W}.

(** A salt of a size that fits an [int] is entirely what the generator returned, or one of the
    two documented errors is thrown. *)
Theorem generate_bytes_correct size (h : heap W) :
  Z.of_nat size < 2 ^ 31 ->
  match generate_bytes size h with
  | (Ok bs, h') => length bs = size /\ size <> 0%nat /\ RAND_bytes (Z.of_nat size) (world h) = (Some bs, world h')
  | (Err _, h') => size = 0%nat \/ RAND_bytes (Z.of_nat size) (world h) = (None, world h')
  end.
Proof.
  intros Hs. unfold generate_bytes. case_bool_decide; [by left|]. unfold mbind, crypto_bind, call.
  rewrite to_int32_small by lia. destruct (RAND_bytes (Z.of_nat size) (world h)) as [[bs|] w] eqn:E; [|by right].
  pose proof (RAND_bytes_length _ _ _ _ E) as [_ HL]. cbn. replace (size - length bs)%nat with 0%nat by lia.
  rewrite app_nil_r. split_and!; [lia|done..].
Qed.

(** A size of 2^32 or more wraps in the cast: only its low part is random, the rest is zero. *)
Theorem generate_bytes_wraps size n (h : heap W) bs w :
  Z.of_nat size = 2 ^ 32 + n -> 0 <= n < 2 ^ 31 -> RAND_bytes n (world h) = (Some bs, w) ->
  Z.of_nat (length bs) = n /\
  generate_bytes size h = (Ok (bs ++ replicate (size - length bs) nul), Build_heap w (live h)).
Proof.
  intros Hs Hn E. split; [by apply RAND_bytes_length in E as [_ HL]|]. unfold generate_bytes.
  rewrite bool_decide_eq_false_2 by (intros ->; simpl in Hs; lia). unfold mbind, crypto_bind, call. rewrite Hs, to_int32_wraps, E by done. done.
Qed.

(** The hexadecimal salt has two digits for each byte drawn and reads back as them. *)
Theorem generate_hex_correct size (h h' : heap W) s :
  Z.of_nat size < 2 ^ 31 -> generate_hex size h = (Ok s, h') ->
  exists bs, RAND_bytes (Z.of_nat size) (world h) = (Some bs, world h') /\ length s = (2 * size)%nat /\ read_hex s = Some bs.
Proof.
  intros Hs. pose proof (generate_bytes_correct size h Hs) as HB. unfold generate_hex, mbind, crypto_bind.
  destruct (generate_bytes size h) as [[bs|] h1]; [|done]. cbn. intros [= <- <-]. destruct HB as (HL & _ & HR).
  exists bs. rewrite hex_pairs_length, read_hex_bytes, HL. done.
Qed.

(** Every path of the encoder releases the BIOs it allocated. *)
Theorem encode_base64_releases data (h : heap W) : live (snd (encode_base64 data h)) = live h.
Proof.
  unfold encode_base64, bio_new, bio_free, throw, call, chain. case_bool_decide; [done|]. unfold mbind, crypto_bind, mret, crypto_ret.
  destruct (BIO_new MemBio _) as [[] w1]; cbn; [|done]. destruct (BIO_new Base64Bio _) as [[] w2]; cbn; [|done].
  destruct (BIO_write _ _) as [z w3]; cbn. destruct (z <=? 0); cbn; [done|].
  destruct (BIO_flush _) as [z' w4]; cbn. destruct (z' <? 1); cbn; [done|].
  destruct (BIO_get_mem_ptr _ _) as [[[|c l]|] w5]; done.
Qed.

(** The salt enters the HMAC key as written exactly when it has no zero byte and is followed by
    one, as a [std::string] is. *)
Lemma hmac_key_exact key v :
  nul ∉ view_text v -> view_mem v !! view_len v = Some nul -> hmac_key key v = Some (key ++ view_text v).
Proof.
  intros HN HL. unfold hmac_key, c_str, view_text in *.
  rewrite <- (take_drop_middle _ _ _ HL) at 1. rewrite find_index_app by done. cbn.
  rewrite length_take_le; [done|]. apply lookup_lt_Some in HL. lia.
Qed.

Lemma of_string_text s : view_text (of_string s) = s.
Proof. unfold view_text, of_string. cbn. rewrite take_app_length. done. Qed.

Lemma hmac_key_string key s : nul ∉ s -> hmac_key key (of_string s) = Some (key ++ s).
Proof.
  intros H. rewrite hmac_key_exact; rewrite ?of_string_text; [done..|]. cbn. rewrite lookup_app_r, Nat.sub_diag by done. done.
Qed.

(** A hash is 64 digits that read back as the digest of the data under the combined key. *)
Lemma sha256_hash_digits key data v run (h : heap W) :
  sha256_hash key data v = Some run ->
  exists k digest, hmac_key key v = Some k /\ HMAC_sha256 k (to_int32 (Z.of_nat (length k))) (view_text data) = Some digest /\
    run h = (Ok (digest_text digest), h) /\ length (digest_text digest) = 64%nat /\ read_hex (digest_text digest) = Some digest.
Proof.
  unfold sha256_hash. destruct (hmac_key key v) as [k|]; [|done]. cbn. destruct (HMAC_sha256 _ _ _) as [d|] eqn:E; [|done]. cbn.
  intros [= <-]. exists k, d. rewrite digest_text_pairs, hex_pairs_length, read_hex_bytes, (HMAC_length _ _ _ _ E). done.
Qed.

(** PBKDF2 reads the views and nothing after them. *)
Lemma pbkdf2_hash_views p p' s s' :
  Z.of_nat (view_len p) < 2 ^ 31 -> Z.of_nat (view_len s) < 2 ^ 31 ->
  view_len p = view_len p' -> view_len s = view_len s' -> view_text p = view_text p' -> view_text s = view_text s' ->
  @pbkdf2_hash W _ p s = pbkdf2_hash p' s'.
Proof.
  intros Hp Hs Ep Es Tp Ts. unfold pbkdf2_hash, view_text in *. rewrite <- Ep, <- Es in *. rewrite !to_int32_small by lia.
  rewrite (PBKDF2_reads _ (view_mem p') _ _ (view_mem s')); rewrite ?Nat2Z.id; (done || lia).
Qed.

Lemma generated_hash (password : view) (h h' : heap W) r :
  hash_with_generated_salt pbkdf2_hash password h = (Ok (Some r), h') ->
  exists dk, PKCS5_PBKDF2_HMAC (view_mem password) (to_int32 (Z.of_nat (view_len password))) (view_mem (of_string (salt r)))
               (to_int32 (Z.of_nat (view_len (of_string (salt r))))) iterations key_length = Some dk /\ hash r = digest_text dk.
Proof.
  unfold hash_with_generated_salt, mbind, crypto_bind. destruct (generate_base64 16 h) as [[sl|] h1]; [|done].
  unfold pbkdf2_hash at 1. destruct (PKCS5_PBKDF2_HMAC _ _ _ _ _ _) as [dk|] eqn:EK; [|done]. cbn. intros [= <- <-]. eauto.
Qed.

(** A stored password is recognised: hashing the same text with the stored salt gives the
    stored hash, and only the stored hash compares equal to it. *)
Theorem password_recognised (password attempt : view) (h h' : heap W) r :
  Z.of_nat (view_len password) < 2 ^ 31 -> Z.of_nat (length (salt r)) < 2 ^ 31 ->
  hash_with_generated_salt pbkdf2_hash password h = (Ok (Some r), h') ->
  view_len attempt = view_len password -> view_text attempt = view_text password ->
  (exists run, pbkdf2_hash attempt (of_string (salt r)) = Some run /\ forall h1 : heap W, run h1 = (Ok (hash r), h1)) /\
  length (hash r) = 64%nat /\ forall x, constant_time_compare x (hash r) = true <-> x = hash r.
Proof.
  intros Hp Hs E EL ET. split_and!.
  - rewrite (pbkdf2_hash_views attempt password (of_string (salt r)) (of_string (salt r))) by (done || lia || by cbn; lia).
    apply generated_hash in E as (dk & EK & EH). unfold pbkdf2_hash. rewrite EK, EH. eexists. done.
  - apply generated_hash in E as (dk & EK & ->). apply PBKDF2_length in EK. unfold key_length in EK.
    rewrite digest_text_pairs, hex_pairs_length. lia.
  - intros x. rewrite constant_time_compare_spec. apply bool_decide_eq_true.
Qed.
End salt_theorems.

(** ** An instance, for the examples: entropy from a counter, digests that fold the input. *)
Definition fold_digest (bs : bytes) : bytes :=
  replicate 32 (ascii_of_nat (foldr (fun c n => (3 * n + nat_of_ascii c) mod 256) 7 bs)%nat).
#[global] Program Instance counter_openssl : OpenSSL nat :=
  {| RAND_bytes num w := if num <? 0 then (None, w) else (Some (ascii_of_nat <$> seq w (Z.to_nat num)), (w + Z.to_nat num)%nat);
     BIO_new _ w := (true, w);
     BIO_write data w := (Z.of_nat (length data), w);
     BIO_flush w := (1, w);
     BIO_get_mem_ptr data w := (Some (data ≫= hex_pair), w);
     HMAC_sha256 k n d := Some (fold_digest (take (Z.to_nat n) k ++ d));
     PKCS5_PBKDF2_HMAC p pn s sn i n := if n <? 0 then None else Some (replicate (Z.to_nat n) (hd nul (fold_digest (take (Z.to_nat sn) s ++ take (Z.to_nat pn) p))))
  |}.
Next Obligation.
  intros num w bs w'. cbn. destruct (Z.ltb_spec num 0); [done|]. intros [= <- _]. rewrite length_fmap, length_seq. lia.
Qed.
Next Obligation. by intros k n d bs [= <-]. Qed.
Next Obligation. intros p pn s sn i n dk. cbn. destruct (Z.ltb_spec n 0); [done|]. intros [= <-]. rewrite length_replicate. lia. Qed.
Next Obligation. intros p p' pn s s' sn i n _ _ Ep Es. cbn. by rewrite Ep, Es. Qed.

(** Two views of the same salt give different keys: the C string goes on after the view. *)
Example salt_overrun :
  let v := {| view_mem := B "saltpepper" ++ [nul]; view_len := 4 |} in
  view_text v = view_text (of_string (B "salt")) /\
  hmac_key (B "k") v = Some (B "ksaltpepper") /\ hmac_key (B "k") (of_string (B "salt")) = Some (B "ksalt").
Proof. vm_compute. auto. Qed.

(** ... and a salt is cut at its first zero byte. *)
Example salt_cut : hmac_key (B "k") (of_string (B "ab" ++ nul :: B "cd")) = hmac_key (B "k") (of_string (B "ab")).
Proof. reflexivity. Qed.

Lemma password_recognised_witness :
  exists r h', hash_with_generated_salt pbkdf2_hash (of_string (B "secret")) (Build_heap 5%nat []) = (Ok (Some r), h') /\
  (exists run, pbkdf2_hash {| view_mem := B "secret sauce"; view_len := 6 |} (of_string (salt r)) = Some run /\
     forall h1 : heap nat, run h1 = (Ok (hash r), h1)) /\
  length (hash r) = 64%nat /\ forall x, constant_time_compare x (hash r) = true <-> x = hash r.
Proof.
  eexists _, _. split; [vm_compute; reflexivity|].
  eapply (password_recognised (of_string (B "secret")) {| view_mem := B "secret sauce"; view_len := 6 |} (Build_heap 5%nat []));
    [vm_compute; reflexivity..|]. vm_compute; reflexivity.
Defined.

Lemma generate_hex_witness :
  exists bs h', RAND_bytes 4 3%nat = (Some bs, world h') /\ length (B "03040506") = 8%nat /\ read_hex (B "03040506") = Some bs.
Proof.
  destruct (generate_hex_correct 4 (Build_heap 3%nat []) (Build_heap 7%nat []) (B "03040506")) as (bs & H); [lia|vm_compute; reflexivity|].
  exists bs, (Build_heap 7%nat []). exact H.
Defined.
